(* ===== verification/_CoqProject ===== *)
-Q . S2P
Prelude.v
Bits.v
Utf8.v
GapBuffer.v
ByteQueue.v
FiniteMap.v
HashMap.v
HashMapRef.v
HttpParse.v
HttpPath.v
QueryString.v
Cookie.v
BuddyTree.v
Buddy.v
BuddyBits.v
BuddyList.v
BuddySpec.v
BuddySafe.v
Conc.v
Clock.v
Sync.v
Spsc.v
Log.v
Mpmc.v
Spmc.v
Pool.v
ThreadPool.v
Sockets.v
Tcp.v
TcpHandle.v
TcpSafe.v
TcpServe.v
TcpLife.v
HttpServer.v
HttpConn.v
HttpServe.v
HttpReply.v
HttpLoop.v
HttpListen.v
HttpStatic.v
HttpStaticReply.v
Io.v
IoTables.v
IoGens.v
IoRings.v
IoSafe.v
IoLife.v
Files.v
FilesList.v
FilesTree.v
Sqlite.v
Threads.v
Graphics.v
