(* ===== verification/Prelude.v ===== *)
(** * A verification of the components of mysnips

    The repository is a collection of C components that programs copy into
    their trees.  This development models them in the kernel's language and
    proves what they promise; this comment says which file stands for which
    part of [src/], how the models read, and what the theorems show.

    ** How C is modelled

    A function is a function of the same name that returns an [outcome]: a
    value ([Ret]), or a [fault] for what C leaves undefined or a program does
    not survive (an access outside of an object, a failed assertion, an
    overflow of a signed integer, a lock that its holder takes again), or
    [Fail OutOfFuel] for a loop that used up its fuel.  Integers are in [Z] with
    the wrap-around of their width written out ([u8], [u16], [u32], [u64],
    [s8], [s32]; [int] faults on overflow).  An array is a list that is read
    and written with [rd] and [wr], which fault outside of it; a pointer into
    an array is an index of it, [NULL] a zero or [None].  A loop is [loop
    fuel step state]; the fuel is a function of the arguments, and the
    theorems state a result, so they show that the fuel is enough.  [wp e Q]
    says that [e] returns and its value has [Q]; all safety statements are in
    terms of it.

    What the system or a library answers (malloc, the clock, write, recv, which
    sleeping thread a signal wakes, whether a weak exchange fails
    spuriously) is an argument of the models: the theorems hold for all
    answers, or name the documented behaviour they need as a hypothesis.

    Components that threads share are programs of atomic actions ([Conc]): a
    program reads and writes the shared structure one action at a time, a
    schedule interleaves the programs of the threads, and [rg] is a
    rely/guarantee logic with ghost state for them.  Atomic accesses are taken
    as sequentially consistent, a copy of an item as a sequence of accesses to
    its bytes.  A schedule is a list of thread numbers; a thread that has run
    out of answers ([stopped]) takes no more steps.

    ** The files

    - [Prelude]: outcomes, machine integers, arrays, characters, loops, and
      the lemmas and tactics on them.
    - [Bits]: [bits/bits.c], [bits/endian.c].
    - [Utf8], [GapBuffer]: [gap_buffer/gap_buffer.c], the decoder of symbols
      and the buffer of an editor.
    - [ByteQueue]: [tcp/byte_queue.c], the buffers of a connection.
    - [FiniteMap], [HashMap], [HashMapRef]: [hashmap/].  [FiniteMap] states
      as a class what a map promises, [HashMap] and [HashMapRef] implement it,
      and their agreement is proved from the two instances.
    - [HttpParse], [HttpPath], [QueryString], [Cookie]: the parsers of
      [http/], which work on slices of the request.
    - [Sockets]: what [recv] and [send] answer, shared by the two below.
    - [HttpServer], [HttpConn], [HttpServe], [HttpReply], [HttpLoop]:
      [http/server.c], the server that accepts connections, queues their
      requests and assembles responses; it calls the parser.  The first file
      is the code; then come the buffers of one connection, the invariant of
      the server and its input and output, waiting for requests and
      assembling a response, and a program that serves.
    - [HttpListen]: the socket of [http/server.c] and its trace of bytes.
    - [HttpStatic], [HttpStaticReply]: [http/send_static.c], files and
      listings as responses of that server; the code, and what it answers.
    - [Tcp], [TcpHandle], [TcpSafe], [TcpServe], [TcpLife]: [tcp/tcp.c],
      connections behind 32-bit handles with a ring of events.  The first
      file is the code; then the handles, the transfers between sockets and
      the queues of [ByteQueue], the invariant with the operations, and a
      server from its creation to its deletion.
    - [Io], [IoTables], [IoGens], [IoRings], [IoSafe], [IoLife]: [asyncio/io.c], files
      and sockets whose operations run in the background.  The first file is
      the code for both platforms; then the tables of resources and
      operations, the generations of handles, the rings of io_uring, the
      invariant with the events, and programs that keep to the rules.
    - [BuddyTree], [Buddy], [BuddyBits], [BuddyList], [BuddySpec],
      [BuddySafe]: [alloc/buddy.c].  [Buddy] is the code; [BuddyTree] the
      specification, pages divided into trees of blocks; [BuddyBits] and
      [BuddyList] the bit trees and the free lists; [BuddySpec] the simulation
      between the two and [BuddySafe] histories of calls.
    - [Conc]: threads; [Sync]: [thread/sync.c]; [Spsc], [Mpmc], [Spmc]:
      [lockfree/]; [Clock]: [time/clock.c].
    - [Log]: [misc/log.c], composed of [Sync] (its semaphore), [Spsc] (the
      queue of each thread) and the answers of [write].
    - [Pool]: [alloc/pool.c]; [ThreadPool]: the job queue and the handles of
      [thread/thread_pool.c]; [Threads]: [thread/thread.c].
    - [Files], [FilesList], [FilesTree]: [misc/file.c], listings and trees of
      directories.  The first file is the code for both platforms over a heap
      of blocks; then the listings, and the trees with what giving them back
      does.
    - [Sqlite]: [misc/sqlite3_utils.c], statements from formats; [Graphics]:
      what [graphics/graphics.c] loads.

    ** What the theorems show

    - Data structures: every history of operations keeps the invariant, stays
      inside of its memory and does what the specification does (gap buffer,
      buddy allocator, byte queue, maps, job queue).  The allocator serves
      requests exactly when a free block is large enough, blocks in use are
      disjoint, and all blocks given back leave the pool whole.
    - Parsers: they answer on every input without reading outside of it, and
      invert the printer of what they parse (request heads, query strings,
      cookies, UTF-8, content lengths); a sanitised path cannot leave the
      directory it is appended to.
    - Threads: in every interleaving the two queues refine one FIFO history
      ([Mpmc] in runs short enough for its [int] index), the semaphore keeps
      one ledger of permits as long as all that is ever signalled fits in its
      count, and each thread has a number of its own.
    - Servers: whatever the network, the allocator and the programs do within
      the stated conditions, a server stays in its invariant.  The HTTP server
      hands out the requests it received, in order, and answers each with one
      response of the right length; output is sent in order.  A request for a
      static file gets exactly that file, or 404.  The TCP server
      delivers events in order, and its handles are good exactly when two
      fields of theirs do not collide.  In asynchronous input and output each
      operation is reported once, as what it is, to whom it belongs;
      submissions may fail, and then the program may start no operation until
      it has been told otherwise ([allowed]).  The
      conditions of a round of the HTTP server ([round_ok]) are that [accept]
      fails only because nobody waits and that output does not break in the
      round that brings a request; a block is smaller than 10^9 bytes; and a
      program answers one request before it waits for the next.  Without each
      of them a lemma of [HttpLoop] or [HttpReply] shows a failure.  That a
      [malloc] answers during a turn by the size alone is a simplification
      of these models ([malloc_ok], [allocator_ok]): each turn has its own.
      A program of the TCP server is held to what its code survives ([op_ok]):
      128 connections in the life of a server, the handles of places that
      agree with their generation, and writes that do not grow a queue from
      which bytes were sent.
    - Files: a listing under Windows is the visible part of the directory, or
      some of it when memory runs out, and gives back all that it takes; a
      tree is the file system as deep as it was read.  Memory may run out at
      any call.  What the theorems need of the system ([sys_ok]) is that
      names are C strings of less than 260 characters, a directory has less
      than 2^30 of them, [PATH_MAX] is at most 2^16, the numbers of Windows
      have their documented values and widths, and SDL_max is the
      maximum.  The items are compared with a reading of the entries that does
      not use the code ([record_of]).  Under Linux a listing with a
      file to show does not come to its end.
    - Libraries: a statement of SQLite is executed as its format says, and
      finalised on every path; the texts of shaders are freed on every path.
      SQLite and OpenGL answer by functions of the calls before, kept as a
      trace.
    - Composition: a flush of the log writes exactly the bytes of all
      threads; a response goes through the parser's slices, the buffers and
      the queue of the server.
    - Faults: where the code does not do what it means to, a theorem shows
      the behaviour it has (tombstones that hang the hash map, the insertion
      that deadlocks, the case-sensitive comparison of header names, the free
      list of one slot, ...).  Smaller ones are lemmas of their files.

    ** What is not modelled

    Calls of the system with nothing around them: [alloc/os_alloc.c], the
    [os_semaphore] functions and the Windows side of [thread/sync.c], and the
    Windows side of [tcp/tcp.c].  The drawing functions of
    [graphics/graphics.c] are sequences of calls of OpenGL on floating-point
    numbers.  [time/profile.c] only measures.  The rest of
    [thread/thread_pool.c] works on structures that the repository does not
    declare. *)
From stdpp Require Export base list gmap strings.
From Stdlib Require Export ZArith Lia.
From Stdlib Require Import ZifyNat ZifyBool.

#[global] Open Scope Z_scope.

(** ** Outcomes of C code *)

(** What stops a run of the modelled code short of a result.  [OutOfFuel]
    marks a loop whose iteration bound was exhausted; every bound used in the
    library is shown sufficient by a total-correctness theorem. *)
Inductive fault : Set :=
  | AssertFail      (* assert(...) evaluated to false *)
  | OutOfBounds     (* access outside of the addressed object *)
  | NullDeref       (* access through NULL *)
  | Aborted         (* abort() *)
  | Deadlock        (* a thread waits for a lock it holds itself *)
  | BadShift        (* shift by a negative amount or by the width or more *)
  | Overflow        (* signed arithmetic out of range *)
  | Undefined       (* a library function called outside of its contract *)
  | OutOfFuel.      (* loop bound exhausted *)

#[global] Instance fault_eq_dec : EqDecision fault.
Proof. solve_decision. Defined.

Inductive outcome (A : Type) : Type :=
  | Ret (a : A)
  | Fail (f : fault).
Arguments Ret {A} a.
Arguments Fail {A} f.

#[global] Instance outcome_ret : MRet outcome := @Ret.
#[global] Instance outcome_bind : MBind outcome := λ A B k m,
  match m with Ret a => k a | Fail f => Fail f end.
#[global] Instance outcome_fmap : FMap outcome := λ A B g m,
  match m with Ret a => Ret (g a) | Fail f => Fail f end.

(** [c_assert b] is C's [assert(b)]. *)
Definition c_assert (b : bool) : outcome unit :=
  if b then Ret tt else Fail AssertFail.

(** ** Total correctness

    [wp m Q]: the run [m] ends with a result satisfying [Q].  A fault, fuel
    exhaustion included, satisfies no postcondition. *)
Definition wp {A} (m : outcome A) (Q : A → Prop) : Prop :=
  match m with Ret a => Q a | Fail _ => False end.

Section wp.
Context {A B : Type}.
Implicit Types (m : outcome A) (Q R : A → Prop).

Lemma wp_ret a Q : Q a → wp (Ret a) Q.
Proof. done. Qed.

Lemma wp_bind m (k : A → outcome B) (Q : B → Prop) :
  wp m (λ a, wp (k a) Q) → wp (m ≫= k) Q.
Proof. by destruct m. Qed.

Lemma wp_mono m Q R : wp m Q → (∀ a, Q a → R a) → wp m R.
Proof. destruct m; simpl; auto. Qed.

Lemma wp_conj m Q R : wp m Q → wp m R → wp m (λ a, Q a ∧ R a).
Proof. destruct m; simpl; auto. Qed.

Lemma wp_eq m a : m = Ret a → wp m (λ r, r = a).
Proof. by intros ->. Qed.

Lemma wp_eq_inv m a : wp m (λ r, r = a) → m = Ret a.
Proof. destruct m; simpl; [by intros ->|done]. Qed.

Lemma wp_of_ret m a Q : m = Ret a → Q a → wp m Q.
Proof. by intros ->. Qed.

Lemma wp_inv m Q : wp m Q → ∃ a, m = Ret a ∧ Q a.
Proof. destruct m; simpl; [eauto|done]. Qed.

Lemma wp_assert b (Q : unit → Prop) : b = true → Q tt → wp (c_assert b) Q.
Proof. by intros ->. Qed.
End wp.

#[global] Instance wp_proper A :
  Proper ((=) ==> pointwise_relation A (iff) ==> iff) (@wp A).
Proof. intros m ? <- Q R HQR. destruct m; simpl; [apply HQR|done]. Qed.

#[global] Instance wp_impl_proper A :
  Proper ((=) ==> pointwise_relation A impl ==> impl) (@wp A).
Proof. intros m ? <- Q R HQR. destruct m; simpl; [apply HQR|done]. Qed.

(** ** Loops

    A loop body maps the loop state to [inl] of the next state (another
    iteration) or [inr] of the value the loop is left with (a [break], a
    [return] or a false loop condition). *)
Definition continue {S A} (s : S) : outcome (S + A) := Ret (inl s).
Definition break {S A} (a : A) : outcome (S + A) := Ret (inr a).

Fixpoint loop {S A} (fuel : nat) (body : S → outcome (S + A)) (s : S)
    : outcome A :=
  match fuel with
  | O => Fail OutOfFuel
  | S fuel =>
      r ← body s;
      match r with
      | inl s' => loop fuel body s'
      | inr a => Ret a
      end
  end.

Section loop.
Context {S A : Type}.
Implicit Types (body : S → outcome (S + A)).

(** Invariant rule: [I] is kept by each iteration, which decreases [m]. *)
Lemma wp_loop (I : S → Prop) (m : S → nat) (Q : A → Prop) body fuel s :
  I s → (m s < fuel)%nat →
  (∀ s, I s → wp (body s) (λ r,
     match r with
     | inl s' => I s' ∧ (m s' < m s)%nat
     | inr a => Q a
     end)) →
  wp (loop fuel body s) Q.
Proof.
  intros HI Hm Hbody. revert s HI Hm.
  induction fuel as [|fuel IH]; intros s HI Hm; [lia|simpl].
  apply wp_bind. eapply wp_mono; [by apply Hbody|].
  intros [s'|a]; simpl; [|done].
  intros [??]. apply IH; [done|lia].
Qed.

(** The same with the iterations left as an index of the invariant. *)
Lemma wp_loop_count (I : nat → S → Prop) (Q : A → Prop) body fuel n s :
  I n s → (n < fuel)%nat →
  (∀ n s, I n s → wp (body s) (λ r,
     match r with
     | inl s' => ∃ n', (n' < n)%nat ∧ I n' s'
     | inr a => Q a
     end)) →
  wp (loop fuel body s) Q.
Proof.
  intros HI Hn Hbody. revert n s HI Hn.
  induction fuel as [|fuel IH]; intros n s HI Hn; [lia|simpl].
  apply wp_bind. eapply wp_mono; [by apply Hbody|].
  intros [s'|a]; simpl; [|done]. intros (n' & ? & ?). apply (IH n'); [done|lia].
Qed.

Lemma loop_unfold fuel body s :
  loop (Datatypes.S fuel) body s =
    r ← body s; match r with inl s' => loop fuel body s' | inr a => Ret a end.
Proof. done. Qed.

(** More fuel does not change a result. *)
Lemma loop_more fuel fuel' body s a :
  loop fuel body s = Ret a → (fuel ≤ fuel')%nat → loop fuel' body s = Ret a.
Proof.
  revert fuel' s. induction fuel as [|fuel IH]; intros fuel' s H Hle; [done|].
  destruct fuel' as [|fuel']; [lia|]. simpl in *.
  destruct (body s) as [[s'|b]|]; simpl in *; [apply IH; [done|lia]|done..].
Qed.
End loop.

(** Divergence: a set of states closed under iteration is never left. *)
Lemma loop_diverges {S A} (X : S → Prop) (body : S → outcome (S + A)) s fuel :
  X s → (∀ s, X s → ∃ s', body s = continue s' ∧ X s') →
  loop fuel body s = Fail OutOfFuel.
Proof.
  intros HX Hstep. revert s HX. induction fuel as [|fuel IH]; intros s HX; [done|].
  simpl. destruct (Hstep s HX) as (s' & -> & HX'). simpl. auto.
Qed.

(** Symbolic execution of [wp] goals. *)
Ltac wp_simpl := cbn [wp mret outcome_ret continue break fst snd].
Ltac wp_step :=
  match goal with
  | |- wp (_ ≫= _) _ => apply wp_bind
  | |- wp (mret _) _ => apply wp_ret
  | |- wp (Ret _) _ => apply wp_ret
  | |- wp (continue _) _ => apply wp_ret
  | |- wp (break _) _ => apply wp_ret
  | |- wp (if ?b then _ else _) _ => destruct b eqn:?
  | |- wp (let '(_, _) := ?p in _) _ => destruct p eqn:?
  end.

(** ** Machine integers *)

Definition u8 (x : Z) : Z := x mod 2 ^ 8.
Definition u16 (x : Z) : Z := x mod 2 ^ 16.
Definition u32 (x : Z) : Z := x mod 2 ^ 32.
Definition u64 (x : Z) : Z := x mod 2 ^ 64.
(** Conversion to a signed type: two's complement, as every target does. *)
Definition s8 (x : Z) : Z := (x + 2 ^ 7) mod 2 ^ 8 - 2 ^ 7.
Definition s32 (x : Z) : Z := (x + 2 ^ 31) mod 2 ^ 32 - 2 ^ 31.

Definition SIZE_MAX : Z := 2 ^ 64 - 1.
Definition UINT64_MAX : Z := 2 ^ 64 - 1.
Definition UINT32_MAX : Z := 2 ^ 32 - 1.
Definition UINT16_MAX : Z := 2 ^ 16 - 1.
Definition INT_MAX : Z := 2 ^ 31 - 1.
Definition INT_MIN : Z := - 2 ^ 31.
(** The result of an operation on [int]s. *)
Definition int (x : Z) : outcome Z :=
  if (INT_MIN <=? x) && (x <=? INT_MAX) then Ret x else Fail Overflow.

Lemma u32_small x : 0 ≤ x < 2 ^ 32 → u32 x = x.
Proof. apply Z.mod_small. Qed.
Lemma u64_small x : 0 ≤ x < 2 ^ 64 → u64 x = x.
Proof. apply Z.mod_small. Qed.
Lemma u16_small x : 0 ≤ x < 2 ^ 16 → u16 x = x.
Proof. apply Z.mod_small. Qed.
Lemma u8_small x : 0 ≤ x < 2 ^ 8 → u8 x = x.
Proof. apply Z.mod_small. Qed.
Lemma u32_range x : 0 ≤ u32 x < 2 ^ 32.
Proof. by apply Z.mod_pos_bound. Qed.
Lemma u64_range x : 0 ≤ u64 x < 2 ^ 64.
Proof. by apply Z.mod_pos_bound. Qed.
Lemma s32_small x : - 2 ^ 31 ≤ x < 2 ^ 31 → s32 x = x.
Proof. intros. unfold s32. rewrite Z.mod_small; lia. Qed.
Lemma s8_small x : - 2 ^ 7 ≤ x < 2 ^ 7 → s8 x = x.
Proof. intros. unfold s8. rewrite Z.mod_small; lia. Qed.

Create HintDb word discriminated.
Create Rewrite HintDb word.
#[export] Hint Rewrite u8_small u16_small u32_small u64_small s32_small s8_small
  using lia : word.
#[export] Hint Unfold SIZE_MAX UINT64_MAX UINT32_MAX UINT16_MAX INT_MAX : word.

(** A boolean test of all words below a bound, run by the kernel. *)
Lemma forallb_below (n : nat) (f : Z → bool) x :
  forallb (λ k, f (Z.of_nat k)) (seq 0 n) = true → 0 ≤ x < Z.of_nat n → f x = true.
Proof.
  intros Hall Hx. rewrite forallb_forall in Hall.
  specialize (Hall (Z.to_nat x)). rewrite Z2Nat.id in Hall by lia.
  apply Hall, in_seq. lia.
Qed.

(** The first index at which a decidable property holds. *)
Lemma first_index (P : nat → Prop) `{∀ n, Decision (P n)} N :
  P N → ∃ n, (n ≤ N)%nat ∧ P n ∧ ∀ j, (j < n)%nat → ¬ P j.
Proof.
  induction N as [N IH] using lt_wf_ind. intros HN.
  destruct (decide (Exists P (seq 0 N))) as [(j & Hj%elem_of_seq & HP)%Exists_exists|Hno].
  - destruct (IH j) as (n & ? & ? & ?); [lia|done|]. exists n. split; [lia|done].
  - exists N. split; [lia|]. split; [done|]. intros j Hj HP. apply Hno, Exists_exists.
    exists j. split; [apply elem_of_seq; lia|done].
Qed.

(** Removes the conversions that do not change the value. *)
Ltac word_simpl := repeat (rewrite ?u64_small, ?u32_small, ?s32_small by lia).

(** ** Arrays

    A C array is the list of its elements; an index outside of it is a fault,
    as is a range that does not lie inside of it. *)
Definition zlen {A} (l : list A) : Z := Z.of_nat (length l).

Definition rd {A} (l : list A) (i : Z) : outcome A :=
  if i <? 0 then Fail OutOfBounds
  else match l !! Z.to_nat i with Some x => Ret x | None => Fail OutOfBounds end.

Definition wr {A} (l : list A) (i : Z) (x : A) : outcome (list A) :=
  if (0 <=? i) && (i <? zlen l) then Ret (<[Z.to_nat i := x]> l)
  else Fail OutOfBounds.

(** The [n] elements from index [off] on, as a [memcpy] reads them. *)
Definition rd_range {A} (l : list A) (off n : Z) : outcome (list A) :=
  if (0 <=? off) && (0 <=? n) && (off + n <=? zlen l)
  then Ret (take (Z.to_nat n) (drop (Z.to_nat off) l))
  else Fail OutOfBounds.

(** [memcpy(l + off, src, length of src)]. *)
Definition wr_range {A} (l : list A) (off : Z) (src : list A)
    : outcome (list A) :=
  if (0 <=? off) && (off + zlen src <=? zlen l)
  then Ret (take (Z.to_nat off) l ++ src ++ drop (Z.to_nat (off + zlen src)) l)
  else Fail OutOfBounds.

Section arrays.
Context {A : Type}.
Implicit Types (l k : list A) (x : A).

Lemma zlen_nonneg l : 0 ≤ zlen l.
Proof. unfold zlen. lia. Qed.
Lemma zlen_nil : zlen (@nil A) = 0.
Proof. done. Qed.
Lemma zlen_cons x l : zlen (x :: l) = 1 + zlen l.
Proof. unfold zlen. simpl. lia. Qed.
Lemma zlen_app l k : zlen (l ++ k) = zlen l + zlen k.
Proof. unfold zlen. rewrite length_app. lia. Qed.
Lemma zlen_take n l : 0 ≤ n ≤ zlen l → zlen (take (Z.to_nat n) l) = n.
Proof. unfold zlen. rewrite length_take. lia. Qed.
Lemma zlen_drop n l : 0 ≤ n ≤ zlen l → zlen (drop (Z.to_nat n) l) = zlen l - n.
Proof. unfold zlen. rewrite length_drop. lia. Qed.
Lemma zlen_insert i x l : zlen (<[i := x]> l) = zlen l.
Proof. unfold zlen. by rewrite length_insert. Qed.
Lemma zlen_replicate n x : zlen (replicate n x) = Z.of_nat n.
Proof. unfold zlen. by rewrite length_replicate. Qed.
Lemma zlen_0_inv l : zlen l = 0 → l = [].
Proof. destruct l; [done|]. rewrite zlen_cons. pose proof (zlen_nonneg l). lia. Qed.

Lemma rd_Some l i x : 0 ≤ i → l !! Z.to_nat i = Some x → rd l i = Ret x.
Proof. intros ? Hl. unfold rd. rewrite Hl. by destruct (Z.ltb_spec i 0); [lia|]. Qed.

Lemma rd_inv l i x : rd l i = Ret x → 0 ≤ i < zlen l ∧ l !! Z.to_nat i = Some x.
Proof.
  unfold rd, zlen. destruct (Z.ltb_spec i 0); [done|].
  destruct (l !! Z.to_nat i) eqn:Hl; intros [= ->].
  apply lookup_lt_Some in Hl as ?. split; [lia|done].
Qed.

Lemma rd_bounds l i x : rd l i = Ret x → 0 ≤ i < zlen l.
Proof. intros Hx. by destruct (rd_inv l i x Hx). Qed.

Lemma rd_ok l i : 0 ≤ i < zlen l → ∃ x, rd l i = Ret x ∧ l !! Z.to_nat i = Some x.
Proof.
  unfold zlen. intros ?. destruct (lookup_lt_is_Some_2 l (Z.to_nat i)) as [x Hx]; [lia|].
  exists x. split; [apply rd_Some; [lia|done]|done].
Qed.

Lemma rd_oob l i : i < 0 ∨ zlen l ≤ i → rd l i = Fail OutOfBounds.
Proof.
  unfold rd, zlen. intros ?. destruct (Z.ltb_spec i 0); [done|].
  rewrite lookup_ge_None_2; [done|lia].
Qed.

Lemma wp_rd l i (Q : A → Prop) :
  0 ≤ i < zlen l → (∀ x, l !! Z.to_nat i = Some x → rd l i = Ret x → Q x) → wp (rd l i) Q.
Proof. intros Hi HQ. destruct (rd_ok l i Hi) as (x & Hx & Hl). rewrite Hx. simpl. auto. Qed.

Lemma rd_app_l l k i : i < zlen l → rd (l ++ k) i = rd l i.
Proof.
  intros ?. unfold rd, zlen in *. destruct (Z.ltb_spec i 0); [done|].
  rewrite lookup_app_l; [done|lia].
Qed.
Lemma rd_app_r l k i : zlen l ≤ i → rd (l ++ k) i = rd k (i - zlen l).
Proof.
  intros ?. unfold rd, zlen in *.
  destruct (Z.ltb_spec i 0), (Z.ltb_spec (i - Z.of_nat (length l)) 0); try lia; [].
  rewrite lookup_app_r by lia.
  by replace (Z.to_nat i - length l)%nat with (Z.to_nat (i - Z.of_nat (length l))) by lia.
Qed.
Lemma rd_cons_0 x l : rd (x :: l) 0 = Ret x.
Proof. done. Qed.
Lemma rd_cons_S x l i : 0 < i → rd (x :: l) i = rd l (i - 1).
Proof.
  intros ?. change (x :: l) with ([x] ++ l).
  rewrite rd_app_r; [done|]. unfold zlen. simpl. lia.
Qed.

(** Arrays of one length that read the same are the same. *)
Lemma rd_ext l k :
  zlen l = zlen k → (∀ i, 0 ≤ i < zlen l → rd l i = rd k i) → l = k.
Proof.
  unfold zlen. intros Hlen Hrd.
  apply list_eq_same_length with (length k); [done|lia|]. intros i x y Hi Hx Hy.
  assert (Ret x = Ret y); [|by simplify_eq].
  rewrite <-(rd_Some l (Z.of_nat i) x), <-(rd_Some k (Z.of_nat i) y);
    [apply Hrd; lia|lia|by rewrite Nat2Z.id|lia|by rewrite Nat2Z.id].
Qed.

Lemma wr_ok l i x : 0 ≤ i < zlen l → wr l i x = Ret (<[Z.to_nat i := x]> l).
Proof.
  intros ?. unfold wr.
  by destruct (Z.leb_spec 0 i), (Z.ltb_spec i (zlen l)); try lia.
Qed.

Lemma rd_insert_eq l i x : 0 ≤ i < zlen l → rd (<[Z.to_nat i := x]> l) i = Ret x.
Proof. unfold zlen. intros. apply rd_Some; [lia|]. apply list_lookup_insert_eq. lia. Qed.
Lemma rd_insert_ne l i j x :
  0 ≤ i → i ≠ j → rd (<[Z.to_nat i := x]> l) j = rd l j.
Proof.
  intros. unfold rd. destruct (Z.ltb_spec j 0); [done|].
  rewrite list_lookup_insert_ne; [done|lia].
Qed.

(** Reading an array after one element was replaced. *)
Lemma rd_insert_inv l i j x y :
  0 ≤ i < zlen l → rd (<[Z.to_nat i := x]> l) j = Ret y → (j = i ∧ y = x) ∨ (j ≠ i ∧ rd l j = Ret y).
Proof.
  intros Hi. destruct (decide (j = i)) as [->|Hne].
  - rewrite rd_insert_eq by done. intros [= <-]. by left.
  - rewrite rd_insert_ne by lia. by right.
Qed.

(** An element, split off its array. *)
Lemma rd_split l i x :
  rd l i = Ret x → ∃ a b, l = a ++ x :: b ∧ i = zlen a ∧ ∀ y, <[Z.to_nat i := y]> l = a ++ y :: b.
Proof.
  intros [Hb Hx]%rd_inv. exists (take (Z.to_nat i) l), (drop (S (Z.to_nat i)) l). split; [by rewrite take_drop_middle|].
  split; [rewrite zlen_take; lia|]. intros y. apply insert_take_drop. unfold zlen in Hb. lia.
Qed.

Lemma rd_range_ok l off n :
  0 ≤ off → 0 ≤ n → off + n ≤ zlen l →
  rd_range l off n = Ret (take (Z.to_nat n) (drop (Z.to_nat off) l)).
Proof.
  intros. unfold rd_range.
  by destruct (Z.leb_spec 0 off), (Z.leb_spec 0 n), (Z.leb_spec (off + n) (zlen l));
    try lia.
Qed.

(** Reading a range whose position in the array is known. *)
Lemma rd_range_app l k k' off n :
  off = zlen l → n = zlen k → rd_range (l ++ k ++ k') off n = Ret k.
Proof.
  intros -> ->. pose proof (zlen_nonneg l). pose proof (zlen_nonneg k).
  pose proof (zlen_nonneg k'). rewrite rd_range_ok; [|lia..|rewrite !zlen_app; lia].
  unfold zlen. rewrite !Nat2Z.id, drop_app_length, take_app_length. done.
Qed.

Lemma wr_range_ok l off k :
  0 ≤ off → off + zlen k ≤ zlen l →
  wr_range l off k =
    Ret (take (Z.to_nat off) l ++ k ++ drop (Z.to_nat (off + zlen k)) l).
Proof.
  intros. unfold wr_range.
  by destruct (Z.leb_spec 0 off), (Z.leb_spec (off + zlen k) (zlen l)); try lia.
Qed.

Lemma wr_range_app l k k' s off :
  off = zlen l → zlen s = zlen k → wr_range (l ++ k ++ k') off s = Ret (l ++ s ++ k').
Proof.
  intros -> Hs. pose proof (zlen_nonneg l). pose proof (zlen_nonneg k).
  pose proof (zlen_nonneg k'). rewrite wr_range_ok; [|lia|rewrite !zlen_app; lia].
  do 2 f_equal; [unfold zlen; by rewrite Nat2Z.id, take_app_length|]. f_equal.
  rewrite app_assoc. replace (Z.to_nat _) with (length (l ++ k)) by
    (rewrite length_app; unfold zlen in *; lia).
  by rewrite drop_app_length.
Qed.

Lemma wr_range_inv l off k l' :
  wr_range l off k = Ret l' → zlen l' = zlen l ∧ 0 ≤ off ∧ off + zlen k ≤ zlen l.
Proof.
  unfold wr_range.
  destruct (Z.leb_spec 0 off), (Z.leb_spec (off + zlen k) (zlen l)); intros [= <-].
  pose proof (zlen_nonneg k). rewrite !zlen_app, zlen_take, zlen_drop by lia. lia.
Qed.

(** An array seen as three consecutive parts. *)
Lemma list_split3 l i j :
  0 ≤ i → 0 ≤ j → i + j ≤ zlen l →
  ∃ a b c, l = a ++ b ++ c ∧ zlen a = i ∧ zlen b = j ∧ zlen c = zlen l - i - j.
Proof.
  intros. exists (take (Z.to_nat i) l), (take (Z.to_nat j) (drop (Z.to_nat i) l)),
    (drop (Z.to_nat j) (drop (Z.to_nat i) l)).
  rewrite !take_drop, !zlen_drop, !zlen_take, ?zlen_drop by
    (rewrite ?zlen_drop; lia). repeat split; lia.
Qed.

(** A range that was read, at its place. *)
Lemma rd_range_inv l off n k :
  rd_range l off n = Ret k → ∃ a c, l = a ++ k ++ c ∧ off = zlen a ∧ n = zlen k.
Proof.
  intros Hrd. assert (0 ≤ off ∧ 0 ≤ n ∧ off + n ≤ zlen l) as (?&?&?).
  { unfold rd_range in Hrd.
    destruct (Z.leb_spec 0 off), (Z.leb_spec 0 n), (Z.leb_spec (off + n) (zlen l)); simpl in Hrd; done. }
  destruct (list_split3 l off n) as (a & b & c & -> & Ha & Hb & _); [done..|].
  rewrite rd_range_app in Hrd by done. injection Hrd as ->. by exists a, c.
Qed.
(** A range, character by character. *)
Lemma rd_range_elements l off n k :
  rd_range l off n = Ret k ↔
  0 ≤ off ∧ off + n ≤ zlen l ∧ zlen k = n ∧ ∀ i, 0 ≤ i < n → rd l (off + i) = rd k i.
Proof.
  split.
  - intros (a & c & -> & -> & ->)%rd_range_inv. pose proof (zlen_nonneg a).
    pose proof (zlen_nonneg c). rewrite !zlen_app. split_and!; [lia..|].
    intros i Hi. rewrite rd_app_r by lia. rewrite rd_app_l by lia. f_equal. lia.
  - intros (? & ? & <- & Hel). pose proof (zlen_nonneg k).
    rewrite rd_range_ok by lia. f_equal. apply rd_ext.
    + rewrite zlen_take, ?zlen_drop by (rewrite ?zlen_drop; lia). done.
    + intros i Hi. rewrite zlen_take in Hi by (rewrite zlen_drop; lia). rewrite <- Hel by lia.
      unfold rd. destruct (Z.ltb_spec i 0), (Z.ltb_spec (off + i) 0); [lia..|].
      rewrite lookup_take_lt, lookup_drop by lia.
      by replace (Z.to_nat off + Z.to_nat i)%nat with (Z.to_nat (off + i)) by lia.
Qed.

Lemma rd_range_insert_ne l off n i x :
  0 ≤ i → i < off ∨ off + n ≤ i → rd_range (<[Z.to_nat i := x]> l) off n = rd_range l off n.
Proof.
  intros Hi Hout. destruct (rd_range l off n) as [k|f] eqn:E.
  - apply rd_range_elements. apply rd_range_elements in E as (? & ? & ? & Hel).
    rewrite zlen_insert. split_and!; [done..|]. intros j Hj. rewrite rd_insert_ne by lia. auto.
  - unfold rd_range in *. rewrite zlen_insert. by destruct (_ && _).
Qed.

(** Filling a range from its front. *)
Lemma rd_range_insert_snoc l off k x :
  rd_range l off (zlen k) = Ret k → off + zlen k < zlen l →
  rd_range (<[Z.to_nat (off + zlen k) := x]> l) off (zlen k + 1) = Ret (k ++ [x]).
Proof.
  rewrite !rd_range_elements. intros (? & ? & _ & Hel) ?. pose proof (zlen_nonneg k).
  rewrite zlen_insert, zlen_app, zlen_cons, zlen_nil. split_and!; [lia..|]. intros i Hi.
  destruct (decide (i = zlen k)) as [->|].
  - rewrite rd_insert_eq by lia. rewrite rd_app_r by lia. by rewrite Z.sub_diag.
  - rewrite rd_insert_ne by lia. rewrite rd_app_l by lia. apply Hel. lia.
Qed.

(** Neighbouring ranges. *)
Lemma rd_range_concat l off k1 k2 :
  rd_range l off (zlen k1) = Ret k1 → rd_range l (off + zlen k1) (zlen k2) = Ret k2 →
  rd_range l off (zlen k1 + zlen k2) = Ret (k1 ++ k2).
Proof.
  rewrite !rd_range_elements. intros (? & ? & _ & H1) (? & ? & _ & H2).
  pose proof (zlen_nonneg k1). pose proof (zlen_nonneg k2).
  rewrite zlen_app. split_and!; [lia..|]. intros i Hi. destruct (decide (i < zlen k1)).
  - rewrite rd_app_l by lia. apply H1. lia.
  - rewrite rd_app_r by lia. rewrite <- H2 by lia. f_equal. lia.
Qed.

Lemma rd_range_snoc l off n k x :
  rd_range l off n = Ret k → rd l (off + n) = Ret x → rd_range l off (n + 1) = Ret (k ++ [x]).
Proof.
  intros Hk Hx. assert (n = zlen k) as -> by (by apply rd_range_elements in Hk as (? & ? & -> & ?)).
  replace (zlen k + 1) with (zlen k + zlen [x]) by done. apply rd_range_concat; [done|].
  apply rd_bounds in Hx as Hb. apply rd_range_elements. pose proof (zlen_nonneg k).
  apply rd_range_elements in Hk as (? & ? & _). change (zlen [x]) with 1.
  split_and!; [lia..|]. intros i Hi. replace i with 0 by lia. by rewrite Z.add_0_r.
Qed.
End arrays.

#[global] Instance zlen_Permutation A : Proper ((≡ₚ) ==> (=)) (@zlen A).
Proof. intros l k Hlk. unfold zlen. by rewrite Hlk. Qed.

Create Rewrite HintDb zlen.
#[export] Hint Rewrite @zlen_app @zlen_cons @zlen_nil @zlen_insert @zlen_replicate : zlen.
Ltac zlen := autorewrite with zlen in *; try lia.

(** ** Characters and text

    A [char] is its value, signed as on the targets of the repository; text is
    the list of its characters. *)
Fixpoint chars (s : string) : list Z :=
  match s with
  | EmptyString => []
  | String a s => s8 (Z.of_N (Ascii.N_of_ascii a)) :: chars s
  end.

Definition is_char (c : Z) : Prop := -128 ≤ c < 128.

Lemma s8_range x : is_char (s8 x).
Proof. unfold is_char, s8. pose proof (Z.mod_pos_bound (x + 2 ^ 7) (2 ^ 8)). lia. Qed.

Lemma chars_is_char s : Forall is_char (chars s).
Proof. induction s; constructor; [apply s8_range|done]. Qed.

(** The characters of the code by name. *)
Abbreviation TAB := 9 (only parsing).
Abbreviation LF := 10 (only parsing).
Abbreviation CR := 13 (only parsing).
Abbreviation SP := 32 (only parsing).
Abbreviation c_percent := 37 (only parsing).
Abbreviation c_amp := 38 (only parsing).
Abbreviation c_plus := 43 (only parsing).
Abbreviation c_comma := 44 (only parsing).
Abbreviation c_minus := 45 (only parsing).
Abbreviation c_dot := 46 (only parsing).
Abbreviation c_slash := 47 (only parsing).
Abbreviation c_0 := 48 (only parsing).
Abbreviation c_9 := 57 (only parsing).
Abbreviation c_colon := 58 (only parsing).
Abbreviation c_semicolon := 59 (only parsing).
Abbreviation c_equal := 61 (only parsing).
Abbreviation c_question := 63 (only parsing).
Abbreviation c_A := 65 (only parsing).
Abbreviation c_F := 70 (only parsing).
Abbreviation c_Z := 90 (only parsing).
Abbreviation c_underscore := 95 (only parsing).
Abbreviation c_a := 97 (only parsing).
Abbreviation c_f := 102 (only parsing).
Abbreviation c_z := 122 (only parsing).

(** [while (cur < len && p(src[cur])) cur++;], the scan all parsers of the
    repository are made of. *)
Definition skip_while (p : Z → bool) (src : list Z) (len cur : Z) : outcome Z :=
  loop (S (Z.to_nat (len - cur)))
    (λ cur,
       if cur <? len then
         c ← rd src cur;
         if p c then continue (cur + 1) else break cur
       else break cur)
    cur.

Lemma wp_skip_while p src len cur (Q : Z → Prop) :
  0 ≤ cur ≤ len → len ≤ zlen src →
  (∀ r, cur ≤ r ≤ len →
     (∀ i, cur ≤ i < r → ∃ c, rd src i = Ret c ∧ p c = true) →
     (r < len → ∃ c, rd src r = Ret c ∧ p c = false) → Q r) →
  wp (skip_while p src len cur) Q.
Proof.
  intros Hcur Hlen HQ. unfold skip_while.
  apply (wp_loop (λ i, cur ≤ i ≤ len ∧
           ∀ j, cur ≤ j < i → ∃ c, rd src j = Ret c ∧ p c = true)
          (λ i, Z.to_nat (len - i))); [split; [lia|intros; lia]|lia|].
  intros i [Hi Hpre]. destruct (Z.ltb_spec i len).
  - apply wp_bind, wp_rd; [lia|]. intros c _ Hc. destruct (p c) eqn:Hp; simpl.
    + split; [|lia]. split; [lia|]. intros j ?.
      destruct (decide (j = i)) as [->|]; [by exists c|apply Hpre; lia].
    + apply HQ; eauto.
  - simpl. apply HQ; [lia|done|lia].
Qed.

(** The scan stops exactly where the first rejected character is. *)
Lemma skip_while_eq p src len cur r :
  0 ≤ cur → cur ≤ r ≤ len → len ≤ zlen src →
  (∀ i, cur ≤ i < r → ∃ c, rd src i = Ret c ∧ p c = true) →
  (r < len → ∃ c, rd src r = Ret c ∧ p c = false) →
  skip_while p src len cur = Ret r.
Proof.
  intros ??? Hin Hout. apply wp_eq_inv. apply wp_skip_while; [lia..|].
  intros r' Hr' Hin' Hout'. destruct (Z.lt_trichotomy r r') as [?|[->|?]]; [|done|].
  - destruct Hout as (c & ? & ?); [lia|]. destruct (Hin' r) as (c' & ? & ?); [lia|].
    simplify_eq. congruence.
  - destruct Hout' as (c & ? & ?); [lia|]. destruct (Hin r') as (c' & ? & ?); [lia|].
    simplify_eq. congruence.
Qed.

Lemma skip_while_app p (pre mid post : list Z) src len cur :
  src = pre ++ mid ++ post → cur = zlen pre →
  cur + zlen mid ≤ len ≤ zlen src →
  Forall (λ c, p c = true) mid →
  (cur + zlen mid < len → ∃ c post', post = c :: post' ∧ p c = false) →
  skip_while p src len cur = Ret (cur + zlen mid).
Proof.
  intros -> -> Hlen Hmid Hpost. pose proof (zlen_nonneg pre). pose proof (zlen_nonneg mid).
  apply skip_while_eq; [lia..| |].
  - intros i ?. rewrite rd_app_r, rd_app_l by lia.
    destruct (rd_ok mid (i - zlen pre)) as (c & -> & Hc); [lia|].
    exists c. split; [done|]. by eapply Forall_lookup_1 in Hmid.
  - intros Hr. destruct (Hpost Hr) as (c & post' & -> & Hc). exists c. split; [|done].
    rewrite !rd_app_r by lia. replace (_ - _ - _) with 0 by lia. done.
Qed.

(** The longest prefix a test accepts, and what follows it. *)
Fixpoint take_while (p : Z → bool) (l : list Z) : list Z :=
  match l with [] => [] | c :: l => if p c then c :: take_while p l else [] end.
Fixpoint drop_while (p : Z → bool) (l : list Z) : list Z :=
  match l with [] => [] | c :: l' => if p c then drop_while p l' else l end.

Lemma take_drop_while p l : take_while p l ++ drop_while p l = l.
Proof. induction l as [|c l IH]; [done|]. simpl. destruct (p c); simpl; congruence. Qed.
Lemma Forall_take_while p l : Forall (λ c, p c = true) (take_while p l).
Proof. induction l as [|c l IH]; simpl; [done|]. destruct (p c) eqn:?; by constructor. Qed.
Lemma drop_while_head p l c l' : drop_while p l = c :: l' → p c = false.
Proof.
  induction l as [|x l IH]; simpl; [done|]. destruct (p x) eqn:Hx; [done|]. by intros [= <- _].
Qed.
Lemma take_while_app p l c l' :
  Forall (λ c, p c = true) l → p c = false →
  take_while p (l ++ c :: l') = l ∧ drop_while p (l ++ c :: l') = c :: l'.
Proof.
  intros Hl Hc. induction Hl as [|x l Hx _ [IH1 IH2]]; simpl; [by rewrite Hc|].
  by rewrite Hx, IH1, IH2.
Qed.

(** The scan, at a position of a text that may go on behind its length. *)
Lemma skip_while_text p (pre t post : list Z) len :
  len = zlen (pre ++ t) →
  skip_while p (pre ++ t ++ post) len (zlen pre) = Ret (zlen pre + zlen (take_while p t)).
Proof.
  intros ->. pose proof (take_drop_while p t) as Ht. set (a := take_while p t) in *.
  pose proof (zlen_nonneg a). pose proof (zlen_nonneg (drop_while p t)). pose proof (zlen_nonneg post).
  eapply (skip_while_app p pre a (drop_while p t ++ post)).
  - by rewrite <-Ht at 1; rewrite <-app_assoc.
  - done.
  - rewrite <-Ht, !zlen_app. lia.
  - apply Forall_take_while.
  - intros Hlt. destruct (drop_while p t) as [|c l'] eqn:Hd.
    + rewrite <-Ht, app_nil_r, zlen_app in Hlt. lia.
    + exists c, (l' ++ post). split; [done|]. by eapply drop_while_head.
Qed.

(** The pieces of a text between separators, the last one only if it is not
    empty. *)
Fixpoint pieces (sep : Z) (t : list Z) : list (list Z) :=
  match t with
  | [] => []
  | c :: t =>
      if c =? sep then [] :: pieces sep t
      else match pieces sep t with [] => [[c]] | l :: ls => (c :: l) :: ls end
  end.

Lemma pieces_sep sep l t :
  Forall (λ c, negb (c =? sep) = true) l → pieces sep (l ++ sep :: t) = l :: pieces sep t.
Proof.
  induction 1 as [|c l Hc _ IH]; simpl; [by rewrite Z.eqb_refl|].
  destruct (c =? sep); [done|]. by rewrite IH.
Qed.

Lemma pieces_last sep l :
  Forall (λ c, negb (c =? sep) = true) l → l ≠ [] → pieces sep l = [l].
Proof.
  induction 1 as [|c l Hc _ IH]; simpl; [done|]. intros _.
  destruct (c =? sep); [done|]. destruct l; [done|]. by rewrite IH.
Qed.

(** A buffer whose front was overwritten. *)
Definition over {A} (acc l : list A) : list A := acc ++ drop (length acc) l.

Section over.
Context {A : Type}.
Implicit Types (l acc : list A).

Lemma over_nil l : over [] l = l.
Proof. done. Qed.
Lemma zlen_over acc l : zlen acc ≤ zlen l → zlen (over acc l) = zlen l.
Proof. unfold over, zlen. rewrite length_app, length_drop. lia. Qed.
Lemma over_drop acc l n : zlen acc ≤ n → drop (Z.to_nat n) (over acc l) = drop (Z.to_nat n) l.
Proof.
  unfold over, zlen. intros. rewrite drop_app_ge, drop_drop by lia. f_equal. lia.
Qed.
Lemma wr_over acc l x :
  zlen acc < zlen l → wr (over acc l) (zlen acc) x = Ret (over (acc ++ [x]) l).
Proof.
  intros Hlt. pose proof (zlen_nonneg acc). rewrite wr_ok by (rewrite zlen_over; lia). f_equal.
  unfold over, zlen in *. rewrite Nat2Z.id, insert_app_r_alt, Nat.sub_diag by lia.
  destruct (drop (length acc) l) as [|y k] eqn:Hd.
  { apply (f_equal length) in Hd. rewrite length_drop in Hd. simpl in Hd. lia. }
  rewrite length_app, <-drop_drop, Hd, <-app_assoc. done.
Qed.
Lemma wr_range_over acc l k :
  zlen acc + zlen k ≤ zlen l → wr_range (over acc l) (zlen acc) k = Ret (over (acc ++ k) l).
Proof.
  intros Hle. pose proof (zlen_nonneg acc). pose proof (zlen_nonneg k).
  rewrite wr_range_ok by (rewrite ?zlen_over; lia). f_equal. unfold over, zlen in *.
  rewrite Nat2Z.id, take_app_length, drop_app_ge, drop_drop, <-app_assoc by lia.
  rewrite length_app. do 3 f_equal. lia.
Qed.
Lemma rd_range_over acc l : rd_range (over acc l) 0 (zlen acc) = Ret acc.
Proof. unfold over. by apply (rd_range_app []). Qed.
End over.

(** What a thread did, out of a history of what all did. *)
Lemma filter_others {A} (t : nat) (K : list (nat * A)) :
  Forall (λ e, e.1 ≠ t) K → filter (λ e, e.1 = t) K = [].
Proof. induction 1; [done|]. by rewrite filter_cons_False. Qed.

(** A part of a range. *)
Lemma rd_range_part (l : list Z) o n x off m :
  rd_range l o n = Ret x → 0 ≤ off → 0 ≤ m → off + m ≤ n →
  rd_range l (o + off) m = Ret (take (Z.to_nat m) (drop (Z.to_nat off) x)).
Proof.
  intros Hx ???. pose proof Hx as (? & ? & Hl & _)%rd_range_elements. pose proof (zlen_nonneg x).
  rewrite rd_range_ok in Hx by lia. injection Hx as <-. rewrite rd_range_ok by lia. f_equal.
  rewrite skipn_firstn_comm, take_take, drop_drop. f_equal; [lia|]. f_equal. lia.
Qed.

(** Positions less than a lap apart are in different slots. *)
Lemma slots_apart c i p : 0 < c → i < p → p < i + c → i mod c ≠ p mod c.
Proof.
  intros Hc ?? Heq. assert ((p - i) mod c = 0) as Hz.
  { rewrite Zminus_mod, Heq, Z.sub_diag. by rewrite Zmod_0_l. }
  rewrite Z.mod_small in Hz by lia. lia.
Qed.

Lemma lookup_snoc_zlen {A} (l : list A) y i x :
  0 ≤ i → (l ++ [y]) !! Z.to_nat i = Some x →
  (i < zlen l ∧ l !! Z.to_nat i = Some x) ∨ (i = zlen l ∧ x = y).
Proof.
  unfold zlen. intros Hi [Hx|[Hge Hx]]%lookup_app_Some.
  - left. split; [|done]. apply lookup_lt_Some in Hx. lia.
  - right. apply list_lookup_singleton_Some in Hx as [? <-]. split; [lia|done].
Qed.
