(* ===== verification/Bits.v ===== *)
(** Bit manipulation: [src/bits/bits.c] and [src/bits/endian.c], with the
    lemmas on words that the allocator and the hash map share. *)
From S2P Require Import Prelude.

(** ** Lemmas on the bits of a word *)

Lemma testbit_ones n i : 0 ≤ n → 0 ≤ i → Z.testbit (Z.ones n) i = (i <? n).
Proof.
  intros. destruct (Z.ltb_spec i n);
    [apply Z.ones_spec_low|apply Z.ones_spec_high]; lia.
Qed.

Lemma testbit_pow2 n i : 0 ≤ n → Z.testbit (2 ^ n) i = (i =? n).
Proof. intros. rewrite Z.pow2_bits_eqb by lia. apply Z.eqb_sym. Qed.

Lemma testbit_high n a i : 0 ≤ a < 2 ^ n → n ≤ i → Z.testbit a i = false.
Proof.
  intros [? Ha] ?. destruct (decide (a = 0)) as [->|]; [by rewrite Z.testbit_0_l|].
  apply Z.bits_above_log2; [lia|]. apply Z.log2_lt_pow2 in Ha; lia.
Qed.

(** Equality of words bit by bit. *)
Lemma word_eq n a b :
  0 ≤ a < 2 ^ n → 0 ≤ b < 2 ^ n →
  (∀ i, 0 ≤ i < n → Z.testbit a i = Z.testbit b i) → a = b.
Proof.
  intros Ha Hb Hbits. apply Z.bits_inj'. intros i ?. destruct (Z.lt_ge_cases i n).
  - apply Hbits. lia.
  - by rewrite !(testbit_high n).
Qed.

Lemma bits_lt_pow2 n a : 0 ≤ n → 0 ≤ a → (∀ i, n ≤ i → Z.testbit a i = false) → a < 2 ^ n.
Proof.
  intros ?? Hhigh. replace a with (Z.land a (Z.ones n)).
  - rewrite Z.land_ones by lia. apply Z.mod_pos_bound. lia.
  - apply Z.bits_inj'. intros i ?. rewrite Z.land_spec, testbit_ones by lia.
    destruct (Z.ltb_spec i n); [by rewrite andb_true_r|].
    by rewrite Hhigh, andb_false_r by lia.
Qed.

Lemma lor_range n a b : 0 ≤ n → 0 ≤ a < 2 ^ n → 0 ≤ b < 2 ^ n → 0 ≤ Z.lor a b < 2 ^ n.
Proof.
  intros. split; [apply Z.lor_nonneg; lia|]. apply bits_lt_pow2; [lia|apply Z.lor_nonneg; lia|].
  intros. by rewrite Z.lor_spec, !(testbit_high n) by lia.
Qed.

(** Every positive word is its lowest set bit, times an odd number. *)
Lemma odd_part a : 0 < a → ∃ i q, 0 ≤ i ∧ 0 ≤ q ∧ a = 2 ^ i * (2 * q + 1).
Proof.
  intros Ha. assert (0 ≤ a) as Ha0 by lia. revert a Ha0 Ha.
  apply (Z_lt_induction (λ a, 0 < a → ∃ i q, 0 ≤ i ∧ 0 ≤ q ∧ a = 2 ^ i * (2 * q + 1))).
  intros a IH Ha. destruct (Z.Even_or_Odd a) as [[b ->]|[b ->]].
  - destruct (IH b) as (i & q & ? & ? & ->); [lia..|].
    exists (i + 1), q. rewrite Z.pow_add_r by lia. lia.
  - exists 0, b. lia.
Qed.

Lemma testbit_odd_part i q n :
  0 ≤ i → 0 ≤ n →
  Z.testbit (2 ^ i * (2 * q + 1)) n = (n =? i) || ((i <? n) && Z.testbit q (n - i - 1)).
Proof.
  intros. rewrite Z.mul_comm, Z.mul_pow2_bits by lia.
  destruct (Z.eqb_spec n i) as [->|]; simpl.
  { rewrite Z.sub_diag. apply Z.testbit_odd_0. }
  destruct (Z.ltb_spec i n); simpl; [|by rewrite Z.testbit_neg_r by lia].
  replace (n - i) with (Z.succ (n - i - 1)) at 1 by lia. apply Z.testbit_odd_succ. lia.
Qed.

Lemma testbit_even_part i q n :
  0 ≤ i → 0 ≤ n →
  Z.testbit (2 ^ i * (2 * q)) n = (i <? n) && Z.testbit q (n - i - 1).
Proof.
  intros. replace (2 ^ i * (2 * q)) with (q * 2 ^ (i + 1)) by (rewrite Z.pow_add_r; lia).
  rewrite Z.mul_pow2_bits by lia. destruct (Z.ltb_spec i n); simpl;
    [f_equal; lia|by rewrite Z.testbit_neg_r by lia].
Qed.

(** [x & (x - 1)] clears the lowest set bit. *)
Lemma land_pred i q :
  0 ≤ i → 0 ≤ q →
  Z.land (2 ^ i * (2 * q + 1)) (2 ^ i * (2 * q + 1) - 1) = 2 ^ i * (2 * q).
Proof.
  intros Hi Hq. assert (0 < 2 ^ i) by lia.
  replace (2 ^ i * (2 * q + 1) - 1) with (Z.lor (2 ^ i * (2 * q)) (Z.ones i)).
  - apply Z.bits_inj'. intros n ?.
    rewrite Z.land_spec, Z.lor_spec, testbit_odd_part, testbit_even_part, testbit_ones by lia.
    destruct (Z.eqb_spec n i), (Z.ltb_spec i n), (Z.ltb_spec n i); try lia; simpl;
      rewrite ?orb_false_r, ?andb_diag; done.
  - rewrite <-Z.lxor_lor.
    + rewrite <-Z.add_nocarry_lxor, Z.ones_equiv; [lia|].
      apply Z.bits_inj'. intros n ?. rewrite Z.land_spec, testbit_even_part, testbit_ones by lia.
      rewrite Z.testbit_0_l.
      destruct (Z.ltb_spec i n), (Z.ltb_spec n i); try lia; simpl; by rewrite ?andb_false_r.
    + apply Z.bits_inj'. intros n ?. rewrite Z.land_spec, testbit_even_part, testbit_ones by lia.
      rewrite Z.testbit_0_l.
      destruct (Z.ltb_spec i n), (Z.ltb_spec n i); try lia; simpl; by rewrite ?andb_false_r.
Qed.

Definition pow2 (n : Z) : Prop := ∃ i, 0 ≤ i ∧ n = 2 ^ i.

Lemma pow2_pos n : pow2 n → 0 < n.
Proof. intros (i & ? & ->). lia. Qed.

(** [n & (n - 1)] is zero for powers of two and zero only. *)
Lemma land_pred_0 n : 0 ≤ n → Z.land n (n - 1) = 0 ↔ n = 0 ∨ pow2 n.
Proof.
  intros. destruct (decide (n = 0)) as [->|]; [rewrite Z.land_0_l; naive_solver|].
  destruct (odd_part n) as (i & q & ? & ? & ->); [lia|]. rewrite land_pred by lia.
  assert (0 < 2 ^ i) by lia. split.
  - intros Hz. assert (q = 0) as -> by nia. right. exists i. lia.
  - intros [?|(j & ? & Hj)]; [nia|]. assert (Z.testbit (2 ^ j) i = true) as Hb.
    { rewrite <-Hj, testbit_odd_part by lia. by rewrite Z.eqb_refl. }
    rewrite testbit_pow2 in Hb by lia. apply Z.eqb_eq in Hb as <-. nia.
Qed.

(** Masking with [2 ^ k - 1] is the remainder. *)
Lemma land_mask x k : 0 ≤ k → Z.land x (2 ^ k - 1) = x mod 2 ^ k.
Proof. intros. rewrite <-Z.land_ones, Z.ones_equiv by lia. f_equal; lia. Qed.

(** Disjoint bit fields put together by [|] add up. *)
Lemma lor_shiftl_add a k b : 0 ≤ k → 0 ≤ b < 2 ^ k → Z.lor (Z.shiftl a k) b = a * 2 ^ k + b.
Proof.
  intros ??. rewrite <-Z.shiftl_mul_pow2 by lia.
  assert (Z.land (Z.shiftl a k) b = 0) as Hz.
  { apply Z.bits_inj'. intros n ?. rewrite Z.land_spec, Z.shiftl_spec, Z.testbit_0_l by lia.
    destruct (Z.lt_ge_cases n k); [by rewrite Z.testbit_neg_r by lia|].
    rewrite (testbit_high k b) by lia. apply andb_false_r. }
  rewrite <-Z.lxor_lor by done. by rewrite Z.add_nocarry_lxor.
Qed.

(** Smearing: after [v |= v >> k], a run of [k] set bits below the top bit
    has become a run of [2 * k]. *)
Definition smeared (v k L : Z) : Prop :=
  0 ≤ v < 2 ^ (L + 1) ∧ ∀ n, 0 ≤ n → L - k < n ≤ L → Z.testbit v n = true.

Lemma smear_step v k L :
  0 ≤ L → 0 ≤ k → smeared v k L → smeared (Z.lor v (Z.shiftr v k)) (2 * k) L.
Proof.
  intros ?? [Hv Hb]. split.
  - apply lor_range; [lia|done|]. split; [apply Z.shiftr_nonneg; lia|].
    rewrite Z.shiftr_div_pow2 by lia. apply Z.div_lt_upper_bound; [lia|].
    assert (0 < 2 ^ k) by lia. nia.
  - intros n ? Hn. rewrite Z.lor_spec, Z.shiftr_spec by lia.
    destruct (Z.lt_ge_cases (L - k) n); [by rewrite Hb by lia|].
    rewrite (Hb (n + k)) by lia. apply orb_true_r.
Qed.

(** One line [v |= v >> k] of the code. *)
Ltac smear Hs k :=
  let k2 := eval cbv in (2 * k) in
  apply (smear_step _ k) in Hs; [change (2 * k) with k2 in Hs|lia|lia].

Lemma smeared_log2 v : 0 < v → smeared v 1 (Z.log2 v).
Proof.
  intros. pose proof (Z.log2_spec v) as Hl. rewrite <-Z.add_1_r in Hl. split; [lia|].
  intros n ? ?. assert (n = Z.log2 v) as -> by lia. by apply Z.bit_log2.
Qed.

Lemma smeared_full v k L : 0 ≤ L < k → smeared v k L → v = 2 ^ (L + 1) - 1.
Proof.
  intros ? [? Hb].
  replace (2 ^ (L + 1) - 1) with (Z.ones (L + 1)) by (rewrite Z.ones_equiv; lia).
  apply (word_eq (L + 1)); [done|rewrite Z.ones_equiv; lia|].
  intros i ?. rewrite testbit_ones, Hb by lia. symmetry. apply Z.ltb_lt. lia.
Qed.

(** The least power of two that is not below [v]. *)
Definition next_pow2_spec (v r : Z) : Prop := pow2 r ∧ v ≤ r ∧ ∀ p, pow2 p → v ≤ p → r ≤ p.

Lemma next_pow2_log2 v : 1 < v → next_pow2_spec v (2 ^ (Z.log2 (v - 1) + 1)).
Proof.
  intros. pose proof (Z.log2_spec (v - 1)) as Hl. rewrite <-Z.add_1_r in Hl.
  pose proof (Z.log2_nonneg (v - 1)). split; [exists (Z.log2 (v - 1) + 1); lia|].
  split; [lia|]. intros p (j & ? & ->) ?. apply Z.pow_le_mono_r; [lia|].
  assert (Z.log2 (v - 1) < j); [|lia]. apply Z.log2_lt_pow2; lia.
Qed.

(** ** [src/bits/bits.c] *)

(** The table that gives the logarithm of the powers of two below 256. *)
Definition log2_table : list Z :=
  [0; 0; 1; 0; 2; 0; 0; 0; 3; 0; 0; 0; 0; 0; 0; 0;
   4; 0; 0; 0; 0; 0; 0; 0; 0; 0; 0; 0; 0; 0; 0; 0;
   5; 0; 0; 0; 0; 0; 0; 0; 0; 0; 0; 0; 0; 0; 0; 0;
   0; 0; 0; 0; 0; 0; 0; 0; 0; 0; 0; 0; 0; 0; 0; 0;
   6; 0; 0; 0; 0; 0; 0; 0; 0; 0; 0; 0; 0; 0; 0; 0;
   0; 0; 0; 0; 0; 0; 0; 0; 0; 0; 0; 0; 0; 0; 0; 0;
   0; 0; 0; 0; 0; 0; 0; 0; 0; 0; 0; 0; 0; 0; 0; 0;
   0; 0; 0; 0; 0; 0; 0; 0; 0; 0; 0; 0; 0; 0; 0; 0;
   7; 0; 0; 0; 0; 0; 0; 0; 0; 0; 0; 0; 0; 0; 0; 0;
   0; 0; 0; 0; 0; 0; 0; 0; 0; 0; 0; 0; 0; 0; 0; 0;
   0; 0; 0; 0; 0; 0; 0; 0; 0; 0; 0; 0; 0; 0; 0; 0;
   0; 0; 0; 0; 0; 0; 0; 0; 0; 0; 0; 0; 0; 0; 0; 0;
   0; 0; 0; 0; 0; 0; 0; 0; 0; 0; 0; 0; 0; 0; 0; 0;
   0; 0; 0; 0; 0; 0; 0; 0; 0; 0; 0; 0; 0; 0; 0; 0;
   0; 0; 0; 0; 0; 0; 0; 0; 0; 0; 0; 0; 0; 0; 0; 0;
   0; 0; 0; 0; 0; 0; 0; 0; 0; 0; 0; 0; 0; 0; 0; 0].

(** One halving step of the search: [temp = bits >> k; if (temp) {...}]. *)
Definition halve (k : Z) (st : Z * Z) : Z * Z :=
  let '(index, bits) := st in
  let temp := Z.shiftr bits k in
  if negb (temp =? 0) then (index + k, temp) else (index, bits).

Definition find_first_set_bit (bits : Z) : outcome Z :=
  if bits =? 0 then Ret (-1)
  else
    let bits_no_rightmost := Z.land bits (u64 (bits - 1)) in
    let bits_only_rightmost := u64 (bits - bits_no_rightmost) in
    let '(index, bits_only_rightmost) :=
      halve 8 (halve 16 (halve 32 (0, bits_only_rightmost))) in
    t ← rd log2_table bits_only_rightmost;
    Ret (index + t).

Definition is_pow2 (n : Z) : bool := Z.land n (u64 (n - 1)) =? 0.

(** The search on a single bit, for all 64 of them. *)
Lemma halving_pow2 i :
  0 ≤ i < 64 →
  (let '(index, b) := halve 8 (halve 16 (halve 32 (0, 2 ^ i))) in
   t ← rd log2_table b; Ret (index + t)) = Ret i.
Proof.
  intros ?. assert (Forall (λ n : nat,
    (let '(index, b) := halve 8 (halve 16 (halve 32 (0, 2 ^ Z.of_nat n))) in
     t ← rd log2_table b; Ret (index + t)) = Ret (Z.of_nat n)) (seq 0 64)) as Hall.
  { repeat (constructor; [vm_compute; reflexivity|]). constructor. }
  rewrite Forall_forall in Hall. specialize (Hall (Z.to_nat i)).
  rewrite Z2Nat.id in Hall by lia. apply Hall, elem_of_seq. lia.
Qed.

Lemma only_rightmost i q :
  0 ≤ i → 0 ≤ q → 2 ^ i * (2 * q + 1) < 2 ^ 64 →
  let x := 2 ^ i * (2 * q + 1) in u64 (x - Z.land x (u64 (x - 1))) = 2 ^ i.
Proof.
  intros ???. cbv zeta. assert (0 < 2 ^ i) by lia.
  rewrite (u64_small (_ - 1)) by nia. rewrite land_pred by lia.
  rewrite u64_small; nia.
Qed.

(** On a 64-bit word [find_first_set_bit] returns the index of the lowest
    set bit, and -1 on the word without one; the table is never read outside
    of its 256 entries. *)
Theorem find_first_set_bit_correct bits :
  0 ≤ bits < 2 ^ 64 →
  (bits = 0 ∧ find_first_set_bit bits = Ret (-1)) ∨
  ∃ r, find_first_set_bit bits = Ret r ∧ 0 ≤ r < 64 ∧ Z.testbit bits r = true ∧
       ∀ i, 0 ≤ i < r → Z.testbit bits i = false.
Proof.
  intros Hb. destruct (decide (bits = 0)) as [->|]; [by left|right].
  destruct (odd_part bits) as (i & q & ? & ? & Heq); [lia|].
  assert (0 < 2 ^ i) by lia. assert (i < 64).
  { apply (Z.pow_lt_mono_r_iff 2); [lia..|]. nia. }
  exists i. unfold find_first_set_bit. destruct (Z.eqb_spec bits 0); [lia|].
  rewrite Heq, only_rightmost by lia. rewrite halving_pow2 by lia.
  rewrite testbit_odd_part, Z.eqb_refl by lia. repeat split; [lia..|].
  intros j ?. rewrite testbit_odd_part by lia.
  by destruct (Z.eqb_spec j i), (Z.ltb_spec i j); try lia.
Qed.

Lemma find_first_set_bit_correct_witness :
  0 ≤ 40 < 2 ^ 64 ∧
  ((40 = 0 ∧ find_first_set_bit 40 = Ret (-1)) ∨
   ∃ r, find_first_set_bit 40 = Ret r ∧ 0 ≤ r < 64 ∧ Z.testbit 40 r = true ∧
        ∀ i, 0 ≤ i < r → Z.testbit 40 i = false).
Proof. split; [lia|apply (find_first_set_bit_correct 40); lia]. Defined.

(** [is_pow2] holds of the powers of two, and of zero. *)
Lemma is_pow2_spec n : 0 ≤ n < 2 ^ 64 → is_pow2 n = true ↔ n = 0 ∨ pow2 n.
Proof.
  intros. unfold is_pow2. rewrite Z.eqb_eq.
  destruct (decide (n = 0)) as [->|]; [rewrite Z.land_0_l; naive_solver|].
  rewrite u64_small by lia. apply land_pred_0. lia.
Qed.

(** ** [src/bits/endian.c] *)
Module Endian.

(** The bytes of an object in memory, on a little-endian CPU or not. *)
Definition bytes_le (n : nat) (x : Z) : list Z :=
  (λ k, Z.land (Z.shiftr x (8 * Z.of_nat k)) 255) <$> seq 0 n.
Definition mem_bytes (little : bool) (n : nat) (x : Z) : list Z :=
  if little then bytes_le n x else rev (bytes_le n x).

(** [u16 x = 1; return *((u8* ) &x);] *)
Definition cpu_is_little_endian (little : bool) : outcome bool :=
  b ← rd (mem_bytes little 2 1) 0; Ret (negb (b =? 0)).

Definition invert_byte_order_u16 (n : Z) : Z :=
  u16 (Z.lor (Z.shiftr n 8) (Z.shiftl n 8)).

Definition invert_byte_order_u32 (n : Z) : Z :=
  Z.lor (Z.lor (Z.lor
    (Z.land (u32 (Z.shiftr n 24)) 0x000000FF)
    (Z.land (u32 (Z.shiftr n 8)) 0x0000FF00))
    (Z.land (u32 (Z.shiftl n 8)) 0x00FF0000))
    (Z.land (u32 (Z.shiftl n 24)) 0xFF000000).

Definition net_to_cpu_u16 (little : bool) (n : Z) : outcome Z :=
  le ← cpu_is_little_endian little; Ret (if le : bool then invert_byte_order_u16 n else n).
Definition net_to_cpu_u32 (little : bool) (n : Z) : outcome Z :=
  le ← cpu_is_little_endian little; Ret (if le : bool then invert_byte_order_u32 n else n).
Definition cpu_to_net_u16 (little : bool) (n : Z) : outcome Z :=
  le ← cpu_is_little_endian little; Ret (if le : bool then invert_byte_order_u16 n else n).
Definition cpu_to_net_u32 (little : bool) (n : Z) : outcome Z :=
  le ← cpu_is_little_endian little; Ret (if le : bool then invert_byte_order_u32 n else n).

Lemma testbit_u (w x i : Z) : 0 ≤ w → Z.testbit (x mod 2 ^ w) i = (i <? w) && Z.testbit x i.
Proof.
  intros. destruct (Z.ltb_spec i w);
    [apply Z.mod_pow2_bits_low|apply Z.mod_pow2_bits_high]; lia.
Qed.

(** Decides an equality between two bits of shifted and masked words, the
    index being a numeral. *)
Ltac bit_step :=
  first
    [ rewrite Z.lor_spec
    | rewrite Z.land_spec
    | rewrite Z.shiftr_spec by lia
    | rewrite Z.shiftl_spec by lia
    | rewrite testbit_u by lia
    | rewrite Z.testbit_neg_r by lia
    | match goal with
      | |- context [Z.testbit ?x ?i] =>
          let c := eval vm_compute in (Z.testbit x i) in
          match c with true => idtac | false => idtac end; change (Z.testbit x i) with c
      | |- context [?i <? ?w] =>
          let c := eval vm_compute in (i <? w) in
          match c with true => idtac | false => idtac end; change (i <? w) with c
      | |- context [Z.testbit ?x ?i] =>
          let c := eval vm_compute in i in progress change (Z.testbit x i) with (Z.testbit x c)
      end ].
Ltac bit_solve :=
  repeat bit_step; repeat rewrite ?andb_true_r, ?andb_false_r, ?orb_false_r, ?orb_false_l;
  cbn [andb orb]; try reflexivity.
Ltac bit_cases i n :=
  match n with
  | O => exfalso; lia
  | Datatypes.S ?m =>
      let z := eval vm_compute in (Z.of_nat m) in
      destruct (decide (i = z)) as [->|]; [bit_solve|bit_cases i m]
  end.

Lemma byte_range x : 0 ≤ Z.land x 255 < 2 ^ 8.
Proof. change 255 with (2 ^ 8 - 1). rewrite land_mask by lia. by apply Z.mod_pos_bound. Qed.

Lemma bytes_le_invert_u32 n : bytes_le 4 (invert_byte_order_u32 n) = rev (bytes_le 4 n).
Proof.
  unfold bytes_le. simpl. repeat apply (f_equal2 cons); [..|done];
    apply (word_eq 8); try apply byte_range; intros i Hi; unfold invert_byte_order_u32, u32; bit_cases i 8%nat.
Qed.

Lemma bytes_le_invert_u16 n :
  0 ≤ n < 2 ^ 16 → bytes_le 2 (invert_byte_order_u16 n) = rev (bytes_le 2 n).
Proof.
  intros Hn. rewrite <-(u16_small n) by done.
  unfold bytes_le. simpl. repeat apply (f_equal2 cons); [..|done];
    apply (word_eq 8); try apply byte_range; intros i Hi; unfold invert_byte_order_u16, u16; bit_cases i 8%nat.
Qed.

Lemma cpu_is_little_endian_ok little : cpu_is_little_endian little = Ret little.
Proof. by destruct little. Qed.

Lemma bytes_le_inj_u32 x y :
  0 ≤ x < 2 ^ 32 → 0 ≤ y < 2 ^ 32 → bytes_le 4 x = bytes_le 4 y → x = y.
Proof.
  intros ?? Heq. apply (word_eq 32); [done..|]. intros i ?.
  assert (∀ k j, 0 ≤ k < 4 → 0 ≤ j < 8 → Z.testbit x (8 * k + j) = Z.testbit y (8 * k + j)) as Hb.
  { intros k j ??. apply (f_equal (λ l, l !! Z.to_nat k)) in Heq.
    unfold bytes_le in Heq. rewrite !list_lookup_fmap, !lookup_seq_lt in Heq by lia.
    simpl in Heq. apply (inj Some) in Heq. rewrite Z2Nat.id in Heq by lia.
    apply (f_equal (λ z, Z.testbit z j)) in Heq.
    change 255 with (Z.ones 8) in Heq.
    rewrite !Z.land_spec, !Z.shiftr_spec, !testbit_ones, !(Z.add_comm j) in Heq by lia.
    destruct (Z.ltb_spec j 8); [|lia]. by rewrite !andb_true_r in Heq. }
  pose proof (Z.div_mod i 8). pose proof (Z.mod_pos_bound i 8).
  replace i with (8 * (i / 8) + i mod 8) by lia. apply Hb; lia.
Qed.

(** [cpu_to_net_u32] and [cpu_to_net_u16] lay the bytes of a word out in
    network order (most significant first) in the memory of a CPU of either
    endianness. *)
Theorem cpu_to_net_big_endian little n32 n16 :
  0 ≤ n16 < 2 ^ 16 →
  wp (cpu_to_net_u32 little n32) (λ r, mem_bytes little 4 r = rev (bytes_le 4 n32)) ∧
  wp (cpu_to_net_u16 little n16) (λ r, mem_bytes little 2 r = rev (bytes_le 2 n16)).
Proof.
  intros Hn. unfold cpu_to_net_u32, cpu_to_net_u16. rewrite cpu_is_little_endian_ok.
  destruct little; simpl; [|done].
  by rewrite bytes_le_invert_u32, bytes_le_invert_u16.
Qed.

Lemma cpu_to_net_big_endian_witness :
  0 ≤ 0x1234 < 2 ^ 16 ∧
  wp (cpu_to_net_u32 true 0x01020304) (λ r, mem_bytes true 4 r = rev (bytes_le 4 0x01020304)) ∧
  wp (cpu_to_net_u16 true 0x1234) (λ r, mem_bytes true 2 r = rev (bytes_le 2 0x1234)).
Proof. split; [lia|apply (cpu_to_net_big_endian true 0x01020304 0x1234); lia]. Defined.

End Endian.
