(* ===== verification/Utf8.v ===== *)
(** The UTF-8 layer of [src/gap_buffer/gap_buffer.c]: symbol decoding and
    validation, and the shape of the symbols that navigation relies on. *)
From S2P Require Import Prelude Bits.

(** ** The code *)

(** [(byte & 0xC0) == 0x80], for a [uint8_t]. *)
Definition isSymbolAuxiliaryByte (byte : Z) : bool := Z.land byte 0xC0 =? 0x80.

(** The result of [getSymbolRune]: the length of the symbol (or 0, or -1) and
    the value stored through [rune], if one was. *)
Definition getSymbolRune (str : list Z) (off symlen : Z) : outcome (Z * option Z) :=
  if symlen =? 0 then Ret (0, None)
  else
    c0 ← rd str off;
    if negb (Z.land c0 0x80 =? 0) then
      if 0xF0 <=? u8 c0 then
        if symlen <? 4 then Ret (-1, None)
        else
          c1 ← rd str (off + 1);
          c2 ← rd str (off + 2);
          c3 ← rd str (off + 3);
          if negb (isSymbolAuxiliaryByte (u8 c1)) || negb (isSymbolAuxiliaryByte (u8 c2))
             || negb (isSymbolAuxiliaryByte (u8 c3))
          then Ret (-1, None)
          else
            let temp := Z.lor (Z.lor (Z.lor
              (Z.shiftl (Z.land (u32 c0) 0x07) 18)
              (Z.shiftl (Z.land (u32 c1) 0x3f) 12))
              (Z.shiftl (Z.land (u32 c2) 0x3f) 6))
              (Z.land (u32 c3) 0x3f) in
            if (temp <? 0x010000) || (0x10ffff <? temp) then Ret (-1, None)
            else Ret (4, Some temp)
      else if 0xE0 <=? u8 c0 then
        if symlen <? 3 then Ret (-1, None)
        else
          c1 ← rd str (off + 1);
          c2 ← rd str (off + 2);
          if negb (isSymbolAuxiliaryByte (u8 c1)) || negb (isSymbolAuxiliaryByte (u8 c2))
          then Ret (-1, None)
          else
            let temp := Z.lor (Z.lor
              (Z.shiftl (Z.land (u32 c0) 0x0f) 12)
              (Z.shiftl (Z.land (u32 c1) 0x3f) 6))
              (Z.land (u32 c2) 0x3f) in
            if (temp <? 0x0800) || (0xffff <? temp) then Ret (-1, None)
            else Ret (3, Some temp)
      else if 0xC0 <=? u8 c0 then
        if symlen <? 2 then Ret (-1, None)
        else
          c1 ← rd str (off + 1);
          if negb (isSymbolAuxiliaryByte (u8 c1)) then Ret (-1, None)
          else
            let rune := Z.lor
              (Z.shiftl (Z.land (u32 c0) 0x1f) 6)
              (Z.land (u32 c1) 0x3f) in
            if (rune <? 0x80) || (0x07ff <? rune) then Ret (-1, Some rune)
            else
              _ ← c_assert (rune <=? 0x10ffff);
              Ret (2, Some rune)
      else Ret (-1, None)
    else Ret (1, Some (u32 c0)).

Definition isValidUTF8 (str : list Z) (len : Z) : outcome bool :=
  loop (S (Z.to_nat len))
    (λ i,
       if i <? len then
         '(n, _) ← getSymbolRune str i (len - i);
         if n <? 0 then break false else continue (i + n)
       else break true)
    0.

Definition getSymbolLengthFromFirstByte (first : Z) : Z :=
  if 0xf0 <=? first then 4
  else if 0xe0 <=? first then 3
  else if 0xc0 <=? first then 2
  else 1.

(** ** Symbols *)

(** An auxiliary character, as the code tests it on a [char]. *)
Definition aux (c : Z) : bool := isSymbolAuxiliaryByte (u8 c).

(** The shape of an encoded symbol: a leading character that announces the
    length, then auxiliary characters only. *)
Definition is_symbol (s : list Z) : Prop :=
  ∃ c t, s = c :: t ∧ aux c = false ∧ Forall (λ c, aux c = true) t ∧
         zlen s = getSymbolLengthFromFirstByte (u8 c).

Lemma is_symbol_zlen s : is_symbol s → 1 ≤ zlen s ≤ 4.
Proof.
  intros (c & t & -> & _ & _ & ->). unfold getSymbolLengthFromFirstByte.
  repeat case_match; lia.
Qed.

(** The values the decoder assembles from two, three and four characters. *)
Definition rune2 (c0 c1 : Z) : Z :=
  Z.lor (Z.shiftl (Z.land (u32 c0) 0x1f) 6) (Z.land (u32 c1) 0x3f).
Definition rune3 (c0 c1 c2 : Z) : Z :=
  Z.lor (Z.lor (Z.shiftl (Z.land (u32 c0) 0x0f) 12) (Z.shiftl (Z.land (u32 c1) 0x3f) 6))
    (Z.land (u32 c2) 0x3f).
Definition rune4 (c0 c1 c2 c3 : Z) : Z :=
  Z.lor (Z.lor (Z.lor (Z.shiftl (Z.land (u32 c0) 0x07) 18)
    (Z.shiftl (Z.land (u32 c1) 0x3f) 12)) (Z.shiftl (Z.land (u32 c2) 0x3f) 6))
    (Z.land (u32 c3) 0x3f).

(** The symbols the decoder accepts, with the values it decodes them to. *)
Inductive accepted : list Z → Z → Prop :=
  | accepted1 c : u8 c < 0x80 → accepted [c] (u32 c)
  | accepted2 c0 c1 :
      0xC0 ≤ u8 c0 < 0xE0 → aux c1 = true →
      0x80 ≤ rune2 c0 c1 ≤ 0x07ff → accepted [c0; c1] (rune2 c0 c1)
  | accepted3 c0 c1 c2 :
      0xE0 ≤ u8 c0 < 0xF0 → aux c1 = true → aux c2 = true →
      0x0800 ≤ rune3 c0 c1 c2 ≤ 0xffff → accepted [c0; c1; c2] (rune3 c0 c1 c2)
  | accepted4 c0 c1 c2 c3 :
      0xF0 ≤ u8 c0 → aux c1 = true → aux c2 = true → aux c3 = true →
      0x010000 ≤ rune4 c0 c1 c2 c3 ≤ 0x10ffff →
      accepted [c0; c1; c2; c3] (rune4 c0 c1 c2 c3).

(** Text the validator accepts: a sequence of accepted symbols. *)
Definition valid_utf8 (l : list Z) : Prop :=
  ∃ syms, l = concat syms ∧ Forall (λ s, ∃ r, accepted s r) syms.

(** The encoding of a code point, as in the table of RFC 3629. *)
Definition cont (x : Z) : Z := s8 (0x80 + x mod 64).
Definition utf8_encode (r : Z) : list Z :=
  if r <? 0x80 then [s8 r]
  else if r <? 0x800 then [s8 (0xC0 + r / 2 ^ 6); cont r]
  else if r <? 0x10000 then [s8 (0xE0 + r / 2 ^ 12); cont (r / 2 ^ 6); cont r]
  else [s8 (0xF0 + r / 2 ^ 18); cont (r / 2 ^ 12); cont (r / 2 ^ 6); cont r].

(** ** Facts on bytes *)

Lemma u8_range c : 0 ≤ u8 c < 256.
Proof. apply Z.mod_pos_bound. lia. Qed.

Lemma land_u8 c m : 0 ≤ m < 256 → Z.land c m = Z.land (u8 c) m.
Proof.
  intros Hm. apply Z.bits_inj'. intros i ?. unfold u8.
  rewrite !Z.land_spec, Endian.testbit_u by lia. destruct (Z.ltb_spec i 8); [done|].
  rewrite (testbit_high 8 m) by lia. by rewrite !andb_false_r.
Qed.

Lemma high_bit c : (Z.land c 0x80 =? 0) = (u8 c <? 0x80).
Proof.
  rewrite land_u8 by lia. pose proof (u8_range c). apply eqb_prop.
  apply (forallb_below 256 (λ b, eqb (Z.land b 0x80 =? 0) (b <? 0x80))); [by vm_compute|lia].
Qed.

Lemma auxiliary_range c : aux c = true ↔ 0x80 ≤ u8 c < 0xC0.
Proof.
  pose proof (u8_range c).
  assert (eqb (isSymbolAuxiliaryByte (u8 c)) ((0x80 <=? u8 c) && (u8 c <? 0xC0)) = true) as Hb.
  { apply (forallb_below 256 (λ b, eqb (isSymbolAuxiliaryByte b) ((0x80 <=? b) && (b <? 0xC0))));
      [by vm_compute|lia]. }
  apply eqb_prop in Hb. unfold aux. rewrite Hb. lia.
Qed.

Lemma not_aux c : u8 c < 0x80 ∨ 0xC0 ≤ u8 c → aux c = false.
Proof. intros ?. apply not_true_is_false. rewrite auxiliary_range. lia. Qed.

Lemma negb_orb3_false a b c :
  negb a || negb b || negb c = false ↔ a = true ∧ b = true ∧ c = true.
Proof. destruct a, b, c; simpl; intuition congruence. Qed.
Lemma negb_orb2_false a b : negb a || negb b = false ↔ a = true ∧ b = true.
Proof. destruct a, b; simpl; intuition congruence. Qed.

(** ** Decoding is local

    An accepted symbol has the shape of one and is accepted wherever its
    characters stand. *)
Definition stands_at (str : list Z) (off : Z) (s : list Z) : Prop :=
  ∀ k, 0 ≤ k < zlen s → rd str (off + k) = rd s k.

(** Settles conditions that arithmetic or a hypothesis decides. *)
Ltac conds :=
  repeat match goal with
    | H : ?c = true |- context [?c] => rewrite H
    | |- context [?x <? ?y] =>
        first [ rewrite (proj2 (Z.ltb_lt x y)) by lia | rewrite (proj2 (Z.ltb_ge x y)) by lia ]
    | |- context [?x <=? ?y] =>
        first [ rewrite (proj2 (Z.leb_le x y)) by lia | rewrite (proj2 (Z.leb_gt x y)) by lia ]
    | |- context [?x =? ?y] =>
        first [ rewrite (proj2 (Z.eqb_neq x y)) by lia | rewrite (proj2 (Z.eqb_eq x y)) by lia ]
    end; cbn [negb orb andb].

Lemma accepted_symbol s r : accepted s r → is_symbol s.
Proof.
  intros [c|c0 c1|c0 c1 c2|c0 c1 c2 c3]; eexists _, _; (split; [done|]);
    (split; [apply not_aux; lia|]); (split; [by repeat constructor|]);
    unfold getSymbolLengthFromFirstByte; conds; done.
Qed.

Lemma getSymbolRune_complete s rune str off len :
  accepted s rune → stands_at str off s → zlen s ≤ len →
  getSymbolRune str off len = Ret (zlen s, Some rune).
Proof.
  intros Hs Hat Hlen. unfold getSymbolRune.
  assert (1 ≤ zlen s) by (apply is_symbol_zlen; by eapply accepted_symbol).
  pose proof (Hat 0) as Hat0. pose proof (Hat 1) as Hat1.
  pose proof (Hat 2) as Hat2. pose proof (Hat 3) as Hat3. rewrite Z.add_0_r in Hat0.
  destruct Hs as [c|c0 c1 ? H1 Hr|c0 c1 c2 ? H1 H2 Hr|c0 c1 c2 c3 ? H1 H2 H3 Hr];
    unfold zlen in *; cbn [length] in *; unfold aux in *;
    unfold rune2, rune3, rune4 in *; cbv zeta;
    rewrite Hat0 by lia; try rewrite Hat1 by lia; try rewrite Hat2 by lia;
    try rewrite Hat3 by lia; simpl; rewrite high_bit; conds; done.
Qed.

Lemma stands_at_cons str off c s :
  rd str off = Ret c → stands_at str (off + 1) s → stands_at str off (c :: s).
Proof.
  intros Hc Hs k. rewrite zlen_cons. intros Hk. destruct (decide (k = 0)) as [->|].
  - by rewrite Z.add_0_r, rd_cons_0.
  - rewrite rd_cons_S, <-(Hs (k - 1)) by lia. f_equal. lia.
Qed.

Lemma stands_at_nil str off : stands_at str off [].
Proof. intros k Hk. unfold zlen in Hk. simpl in Hk. lia. Qed.

Ltac stand_tac :=
  repeat (apply stands_at_cons; [rewrite <-?Z.add_assoc; assumption|]);
  apply stands_at_nil.

Lemma getSymbolRune_sound str off len n r :
  getSymbolRune str off len = Ret (n, r) → 0 < n →
  ∃ s rune, accepted s rune ∧ stands_at str off s ∧ n = zlen s ∧ r = Some rune.
Proof.
  unfold getSymbolRune. intros Hg Hn.
  destruct (Z.eqb_spec len 0); [by simplify_eq/=|].
  destruct (rd str off) as [c0|] eqn:R0; [|done]. simpl in Hg. rewrite high_bit in Hg.
  destruct (Z.ltb_spec (u8 c0) 0x80); simpl in Hg.
  { simplify_eq. exists [c0], (u32 c0). repeat split; [by constructor|].
    apply stands_at_cons; [done|apply stands_at_nil]. }
  destruct (Z.leb_spec 0xF0 (u8 c0)); [|destruct (Z.leb_spec 0xE0 (u8 c0));
    [|destruct (Z.leb_spec 0xC0 (u8 c0)); [|by simplify_eq]]].
  - destruct (len <? 4); [by simplify_eq|].
    destruct (rd str (off + 1)) as [c1|] eqn:R1; [|done]. simpl in Hg.
    destruct (rd str (off + 2)) as [c2|] eqn:R2; [|done]. simpl in Hg.
    destruct (rd str (off + 3)) as [c3|] eqn:R3; [|done]. simpl in Hg.
    destruct (negb _ || _ || _) eqn:Hn3 in Hg; [by simplify_eq|].
    apply negb_orb3_false in Hn3 as (? & ? & ?).
    destruct (_ || _) eqn:Hr in Hg; [by simplify_eq|]. simplify_eq.
    exists [c0; c1; c2; c3], (rune4 c0 c1 c2 c3). repeat split.
    + apply accepted4; [lia|done..|unfold rune4; lia].
    + stand_tac.
  - destruct (len <? 3); [by simplify_eq|].
    destruct (rd str (off + 1)) as [c1|] eqn:R1; [|done]. simpl in Hg.
    destruct (rd str (off + 2)) as [c2|] eqn:R2; [|done]. simpl in Hg.
    destruct (negb _ || _) eqn:Hn2 in Hg; [by simplify_eq|].
    apply negb_orb2_false in Hn2 as (? & ?).
    destruct (_ || _) eqn:Hr in Hg; [by simplify_eq|]. simplify_eq.
    exists [c0; c1; c2], (rune3 c0 c1 c2). repeat split.
    + apply accepted3; [lia|done..|unfold rune3; lia].
    + stand_tac.
  - destruct (len <? 2); [by simplify_eq|].
    destruct (rd str (off + 1)) as [c1|] eqn:R1; [|done]. simpl in Hg.
    destruct (negb _) eqn:Hn1 in Hg; [by simplify_eq|]. apply negb_false_iff in Hn1.
    destruct (_ || _) eqn:Hr in Hg; [by simplify_eq|].
    destruct (c_assert _) as [[]|] eqn:Ha in Hg; simplify_eq/=.
    exists [c0; c1], (rune2 c0 c1). repeat split.
    + apply accepted2; [lia|done..|unfold rune2; lia].
    + stand_tac.
Qed.

(** The decoder reads inside of the text only, and its assertion holds. *)
Lemma getSymbolRune_total str off len :
  0 ≤ off → 0 ≤ len → off + len ≤ zlen str →
  wp (getSymbolRune str off len) (λ '(n, r), n ≤ len ∧ (n = 0 → len = 0)).
Proof.
  intros ???. unfold getSymbolRune.
  destruct (Z.eqb_spec len 0); [simpl; lia|].
  apply wp_bind, wp_rd; [lia|]. intros c0 _ _. rewrite high_bit.
  repeat match goal with
    | |- wp (if (?b <? ?c) then _ else _) _ => destruct (Z.ltb_spec b c)
    | |- wp (if ?b then _ else _) _ => destruct b eqn:?
    | |- wp (rd _ _ ≫= _) _ => apply wp_bind, wp_rd; [lia|intros ? _ _]
    | |- wp (c_assert _ ≫= _) _ => apply wp_bind, wp_assert; [lia|]
    | |- wp (Ret _) _ => simpl; lia
    end.
Qed.

Lemma stands_at_app str off s t :
  stands_at str off s → stands_at str (off + zlen s) t → stands_at str off (s ++ t).
Proof.
  intros Hs Ht k. rewrite zlen_app. intros Hk. destruct (Z.lt_ge_cases k (zlen s)).
  - rewrite rd_app_l by done. apply Hs. lia.
  - rewrite rd_app_r by done. rewrite <-Ht by lia. f_equal. lia.
Qed.

Lemma stands_at_app_r pre s post : stands_at (pre ++ s ++ post) (zlen pre) s.
Proof.
  intros k Hk. pose proof (zlen_nonneg pre). rewrite rd_app_r, rd_app_l by lia.
  f_equal. lia.
Qed.

Lemma stands_at_split str off s :
  stands_at str off s → 0 ≤ off → off + zlen s ≤ zlen str →
  ∃ pre post, str = pre ++ s ++ post ∧ zlen pre = off.
Proof.
  intros Hat ??. pose proof (zlen_nonneg s).
  destruct (list_split3 str off (zlen s)) as (a & b & c & -> & Ha & Hb & _); [lia..|].
  exists a, c. split; [|done]. do 2 f_equal. apply rd_ext; [done|].
  intros k Hk. rewrite <-(stands_at_app_r a b c), Ha by done. apply Hat. lia.
Qed.

(** ** Validation *)

Lemma accepted_length s r : accepted s r → 1 ≤ zlen s.
Proof. intros ?%accepted_symbol%is_symbol_zlen. lia. Qed.

(** No accepted symbol is a proper prefix of another one. *)
Lemma accepted_prefix s r s' r' t t' :
  accepted s r → accepted s' r' → s ++ t = s' ++ t' → s = s' ∧ t = t'.
Proof.
  intros Hs Hs' Heq. pose proof (zlen_nonneg t). pose proof (zlen_nonneg t').
  assert (getSymbolRune (s ++ t) 0 (zlen (s ++ t)) = Ret (zlen s, Some r)) as H1.
  { apply getSymbolRune_complete; [done|apply (stands_at_app_r [] s t)|zlen]. }
  assert (getSymbolRune (s ++ t) 0 (zlen (s ++ t)) = Ret (zlen s', Some r')) as H2.
  { rewrite Heq. apply getSymbolRune_complete; [done|apply (stands_at_app_r [] s' t')|zlen]. }
  rewrite H1 in H2. injection H2 as Hlen _. apply app_inj_1; [|done]. unfold zlen in Hlen. lia.
Qed.

Lemma valid_utf8_nil : valid_utf8 [].
Proof. by exists []. Qed.

Lemma valid_utf8_cons s r t : accepted s r → valid_utf8 (s ++ t) ↔ valid_utf8 t.
Proof.
  intros Hs. split.
  - intros ([|s' syms] & Heq & Hall); simpl in Heq.
    { pose proof (accepted_length s r Hs). destruct s; [|done]. by rewrite zlen_nil in *. }
    apply Forall_cons in Hall as [[r' Hs'] Hall].
    destruct (accepted_prefix s r s' r' t (concat syms)) as [_ ->]; [done..|]. by exists syms.
  - intros (syms & -> & Hall). exists (s :: syms). split; [done|]. constructor; eauto.
Qed.

(** [isValidUTF8] always answers, reading inside of the text only, and accepts
    exactly the sequences of accepted symbols. *)
Lemma isValidUTF8_ok str :
  ∃ b, isValidUTF8 str (zlen str) = Ret b ∧ (b = true ↔ valid_utf8 str).
Proof.
  apply wp_inv. unfold isValidUTF8. pose proof (zlen_nonneg str).
  apply (wp_loop (λ i, ∃ pre t, str = pre ++ t ∧ i = zlen pre ∧ (valid_utf8 str ↔ valid_utf8 t))
           (λ i, Z.to_nat (zlen str - i))); [by exists [], str|lia|].
  intros i (pre & t & -> & -> & Hval). pose proof (zlen_nonneg pre). pose proof (zlen_nonneg t).
  destruct (Z.ltb_spec (zlen pre) (zlen (pre ++ t))).
  - pose proof (getSymbolRune_total (pre ++ t) (zlen pre) (zlen (pre ++ t) - zlen pre)) as Ht.
    apply wp_bind. destruct (getSymbolRune _ _ _) as [[n r]|] eqn:Hg; simpl in *; [|lia].
    rewrite zlen_app in *. destruct (Z.ltb_spec n 0); simpl.
    + split; [done|]. intros ([|s syms] & -> & Hall)%Hval; simpl in *; [by rewrite zlen_nil in *; lia|].
      apply Forall_cons in Hall as [[r' Hs] _].
      rewrite (getSymbolRune_complete s r') in Hg; [|done|apply stands_at_app_r|zlen].
      * pose proof (accepted_length s r' Hs). simplify_eq. lia.
      * pose proof (zlen_nonneg (concat syms)). lia.
    + destruct (getSymbolRune_sound _ _ _ _ _ Hg) as (s & rune & Hs & Hat & -> & ->); [lia|].
      split; [|lia]. destruct (stands_at_split _ _ _ Hat) as (pre' & post & Heq & Hpre);
        [lia|zlen|].
      apply app_inj_1 in Heq as [<- ->]; [|unfold zlen in *; lia].
      exists (pre ++ s), post. rewrite <-app_assoc, zlen_app. split; [done|split; [done|]].
      by rewrite Hval, (valid_utf8_cons s rune).
  - assert (t = []) as -> by (apply zlen_0_inv; zlen). simpl.
    split; [intros _; apply Hval, valid_utf8_nil|done].
Qed.

(** ** The codec

    The decoder inverts the encoder of RFC 3629, and the symbols it accepts
    are encodings, except those with one of the leading bytes 0xF8 to 0xFF. *)
Lemma s8_u8 c : is_char c → s8 (u8 c) = c.
Proof. unfold is_char, s8, u8. intros. change (2 ^ 7) with 128. change (2 ^ 8) with 256. lia. Qed.
Lemma u8_s8 b : 0 ≤ b < 256 → u8 (s8 b) = b.
Proof. unfold s8, u8. intros. change (2 ^ 7) with 128. change (2 ^ 8) with 256. lia. Qed.
Lemma u8_u32 c : u8 (u32 c) = u8 c.
Proof.
  unfold u8, u32. change (2 ^ 32) with (2 ^ 24 * 2 ^ 8).
  rewrite Z.mul_comm, Z.rem_mul_r, Z.mul_comm, Z.mod_add, Z.mod_mod by lia. done.
Qed.

Lemma land_u32 c m k : 0 ≤ k ≤ 8 → m = 2 ^ k - 1 → Z.land (u32 c) m = u8 c mod 2 ^ k.
Proof.
  intros ? ->. assert (2 ^ k ≤ 2 ^ 8) by (apply Z.pow_le_mono_r; lia).
  rewrite land_u8, u8_u32, land_mask by lia. done.
Qed.

Lemma fields2 a b : 0 ≤ b < 64 → Z.lor (Z.shiftl a 6) b = a * 64 + b.
Proof. intros. by apply (lor_shiftl_add a 6). Qed.
Lemma fields3 a b c :
  0 ≤ b < 64 → 0 ≤ c < 64 →
  Z.lor (Z.lor (Z.shiftl a 12) (Z.shiftl b 6)) c = a * 4096 + b * 64 + c.
Proof.
  intros. rewrite <-Z.lor_assoc, fields2, (lor_shiftl_add a 12) by lia. lia.
Qed.
Lemma fields4 a b c d :
  0 ≤ b < 64 → 0 ≤ c < 64 → 0 ≤ d < 64 →
  Z.lor (Z.lor (Z.lor (Z.shiftl a 18) (Z.shiftl b 12)) (Z.shiftl c 6)) d =
    a * 262144 + b * 4096 + c * 64 + d.
Proof.
  intros. rewrite <-!Z.lor_assoc, (Z.lor_assoc (Z.shiftl b 12)), fields3 by lia.
  rewrite (lor_shiftl_add a 18) by lia. lia.
Qed.

Lemma rune2_eq c0 c1 : rune2 c0 c1 = (u8 c0 mod 32) * 64 + u8 c1 mod 64.
Proof.
  unfold rune2. rewrite (land_u32 c0 0x1f 5), (land_u32 c1 0x3f 6) by done.
  by apply fields2, Z.mod_pos_bound.
Qed.
Lemma rune3_eq c0 c1 c2 :
  rune3 c0 c1 c2 = (u8 c0 mod 16) * 4096 + (u8 c1 mod 64) * 64 + u8 c2 mod 64.
Proof.
  unfold rune3.
  rewrite (land_u32 c0 0x0f 4), (land_u32 c1 0x3f 6), (land_u32 c2 0x3f 6) by done.
  by apply fields3; apply Z.mod_pos_bound.
Qed.
Lemma rune4_eq c0 c1 c2 c3 :
  rune4 c0 c1 c2 c3 =
    (u8 c0 mod 8) * 262144 + (u8 c1 mod 64) * 4096 + (u8 c2 mod 64) * 64 + u8 c3 mod 64.
Proof.
  unfold rune4. rewrite (land_u32 c0 0x07 3), (land_u32 c1 0x3f 6), (land_u32 c2 0x3f 6),
    (land_u32 c3 0x3f 6) by done.
  by apply fields4; apply Z.mod_pos_bound.
Qed.

(** The numerals of the encoder and of the rune equations, for [lia]. *)
Ltac utf8_arith :=
  repeat match goal with H : aux _ = true |- _ => apply auxiliary_range in H end;
  rewrite ?rune2_eq, ?rune3_eq, ?rune4_eq in *;
  change (2 ^ 6) with 64 in *; change (2 ^ 12) with 4096 in *; change (2 ^ 18) with 262144 in *;
  change (2 ^ 32) with 4294967296 in *.

Lemma encode_accepted r : 0 ≤ r ≤ 0x10FFFF → accepted (utf8_encode r) r.
Proof.
  intros Hr. unfold utf8_encode.
  assert (∀ x, aux (cont x) = true) as Hcont.
  { intros x. apply auxiliary_range. unfold cont. rewrite u8_s8; lia. }
  assert (∀ x, u8 (cont x) mod 64 = x mod 64) as Hmod.
  { intros x. unfold cont. rewrite u8_s8; lia. }
  destruct (Z.ltb_spec r 0x80); [|destruct (Z.ltb_spec r 0x800); [|destruct (Z.ltb_spec r 0x10000)]].
  - assert (u32 (s8 r) = r) as Hu by (rewrite s8_small; [apply u32_small|]; lia).
    assert (accepted [s8 r] (u32 (s8 r))) as Hs by (constructor; rewrite u8_s8; lia).
    by rewrite Hu in Hs.
  - assert (rune2 (s8 (0xC0 + r / 2 ^ 6)) (cont r) = r) as Hu.
    { rewrite rune2_eq, Hmod, u8_s8; utf8_arith; lia. }
    rewrite <-Hu at 3. constructor; [rewrite u8_s8; utf8_arith; lia|done|rewrite Hu; lia].
  - assert (rune3 (s8 (0xE0 + r / 2 ^ 12)) (cont (r / 2 ^ 6)) (cont r) = r) as Hu.
    { rewrite rune3_eq, !Hmod, u8_s8; utf8_arith; lia. }
    rewrite <-Hu at 4. constructor; [rewrite u8_s8; utf8_arith; lia|done..|rewrite Hu; lia].
  - assert (rune4 (s8 (0xF0 + r / 2 ^ 18)) (cont (r / 2 ^ 12)) (cont (r / 2 ^ 6)) (cont r) = r) as Hu.
    { rewrite rune4_eq, !Hmod, u8_s8; utf8_arith; lia. }
    rewrite <-Hu at 5. constructor; [rewrite u8_s8; utf8_arith; lia|done..|rewrite Hu; lia].
Qed.

Lemma accepted_encode s r :
  accepted s r → Forall is_char s → (∀ c, s !! 0%nat = Some c → u8 c < 0xF8) →
  0 ≤ r ≤ 0x10FFFF ∧ s = utf8_encode r.
Proof.
  assert (∀ c b, is_char c → b = u8 c → c = s8 b) as Hc by (intros c b ? ->; by rewrite s8_u8).
  assert (∀ c, aux c = true → u8 c = 0x80 + u8 c mod 64) as Ha.
  { intros c Hc'%auxiliary_range. lia. }
  intros Hs Hall Hlead. unfold utf8_encode, cont.
  destruct Hs as [c|c0 c1 ? H1|c0 c1 c2 ? H1 H2|c0 c1 c2 c3 ? H1 H2 H3];
    specialize (Hlead _ eq_refl); repeat (apply Forall_cons in Hall as [? Hall]);
    try pose proof (Ha c1 H1); try pose proof (Ha c2 H2); try pose proof (Ha c3 H3);
    rewrite ?rune2_eq, ?rune3_eq, ?rune4_eq in *.
  - pose proof (u8_range c). assert (c = u8 c) as Hcu.
    { rewrite (Hc c (u8 c)) at 1 by done. apply s8_small. lia. }
    rewrite u32_small by lia. conds. split; [lia|]. by rewrite s8_small by lia.
  - conds. split; [lia|]. repeat apply (f_equal2 cons); [..|done]; (apply Hc; [done|]); lia.
  - conds. split; [lia|]. repeat apply (f_equal2 cons); [..|done]; (apply Hc; [done|]); lia.
  - conds. split; [lia|]. repeat apply (f_equal2 cons); [..|done]; (apply Hc; [done|]); lia.
Qed.

(** C30.  Decoding inverts the encoding of RFC 3629: the encoding of every code
    point decodes to it wherever it stands in a text; conversely a decoded
    symbol is the (unique, hence shortest) encoding of its value, provided its
    leading byte is one of UTF-8's (below 0xF8). *)
Theorem utf8_codec :
  (∀ r pre post, 0 ≤ r ≤ 0x10FFFF →
     getSymbolRune (pre ++ utf8_encode r ++ post) (zlen pre) (zlen (utf8_encode r ++ post)) =
       Ret (zlen (utf8_encode r), Some r)) ∧
  (∀ str off len n r, getSymbolRune str off len = Ret (n, Some r) → 0 < n →
     0 ≤ off → 0 ≤ len → off + len ≤ zlen str → Forall is_char str →
     (∀ c, rd str off = Ret c → u8 c < 0xF8) →
     0 ≤ r ≤ 0x10FFFF ∧ n = zlen (utf8_encode r) ∧
     ∃ pre post, str = pre ++ utf8_encode r ++ post ∧ zlen pre = off).
Proof.
  split.
  - intros r pre post Hr. apply getSymbolRune_complete;
      [by apply encode_accepted|apply stands_at_app_r|].
    rewrite zlen_app. pose proof (zlen_nonneg post). lia.
  - intros str off len n r Hg Hn ??? Hall Hlead.
    pose proof (getSymbolRune_total str off len) as Ht. rewrite Hg in Ht. simpl in Ht.
    destruct (getSymbolRune_sound _ _ _ _ _ Hg Hn) as (s & r' & Hs & Hat & -> & [= <-]).
    destruct (stands_at_split _ _ _ Hat) as (pre & post & -> & <-); [lia..|].
    apply Forall_app in Hall as [_ [Hall _]%Forall_app].
    assert (0 ≤ r ≤ 0x10FFFF ∧ s = utf8_encode r) as [? ->]; [|eauto 10].
    apply accepted_encode; [done..|]. intros c Hc. apply Hlead.
    replace (zlen pre) with (zlen pre + 0) by lia. rewrite stands_at_app_r by lia.
    apply rd_Some; done.
Qed.

Lemma accepted_runes syms :
  Forall (λ s, ∃ r, accepted s r) syms → Forall is_char (concat syms) →
  Forall (λ c, u8 c < 0xF8) (concat syms) →
  ∃ rs, Forall (λ r, 0 ≤ r ≤ 0x10FFFF) rs ∧ concat syms = concat (utf8_encode <$> rs).
Proof.
  induction 1 as [|s syms [r Hs] _ IH]; simpl; [intros _ _; by exists []|].
  intros [Hc1 Hc2]%Forall_app [Hl1 Hl2]%Forall_app.
  destruct IH as (rs & Hrs & ->); [done..|].
  destruct (accepted_encode s r) as [Hr ->]; [done..| |].
  - intros c Hc. by eapply Forall_lookup_1 in Hl1.
  - exists (r :: rs). split; [by constructor|done].
Qed.

Lemma runes_valid rs :
  Forall (λ r, 0 ≤ r ≤ 0x10FFFF) rs → valid_utf8 (concat (utf8_encode <$> rs)).
Proof.
  intros Hrs. exists (utf8_encode <$> rs). split; [done|].
  apply Forall_fmap. eapply Forall_impl; [done|]. intros r Hr. exists r.
  by apply encode_accepted.
Qed.

(** [isValidUTF8] answers on every text without reading outside of it,
    accepts the encoding (RFC 3629's, of the shortest form) of every sequence
    of code points, and rejects every other text made of bytes below 0xF8. *)
Theorem isValidUTF8_correct str :
  ∃ b, isValidUTF8 str (zlen str) = Ret b ∧
    ((∃ rs, Forall (λ r, 0 ≤ r ≤ 0x10FFFF) rs ∧ str = concat (utf8_encode <$> rs)) → b = true) ∧
    (b = true → Forall is_char str → Forall (λ c, u8 c < 0xF8) str →
     ∃ rs, Forall (λ r, 0 ≤ r ≤ 0x10FFFF) rs ∧ str = concat (utf8_encode <$> rs)).
Proof.
  destruct (isValidUTF8_ok str) as (b & Hb & Hv). exists b. split_and!; [done|..].
  - intros (rs & Hrs & ->). by apply Hv, runes_valid.
  - intros (syms & -> & Hall)%Hv ??. by apply accepted_runes.
Qed.

(** The leading bytes 0xF8 to 0xFC, which UTF-8 does not have, pass as
    leading bytes of symbols of four. *)
Lemma invalid_lead_accepted b :
  0xF8 ≤ b ≤ 0xFC → ∃ s, s !! 0%nat = Some (s8 b) ∧ isValidUTF8 s (zlen s) = Ret true.
Proof.
  intros ?. exists [s8 b; s8 (if b =? 0xFC then 0x80 else 0x90); s8 0x80; s8 0x80].
  split; [done|].
  assert (b = 0xF8 ∨ b = 0xF9 ∨ b = 0xFA ∨ b = 0xFB ∨ b = 0xFC) as [->|[->|[->|[->| ->]]]]
    by lia; by vm_compute.
Qed.
