(* ===== verification/GapBuffer.v ===== *)
(** The gap buffer of [src/gap_buffer/gap_buffer.c]: a text with a cursor,
    stored in one array with the free space (the gap) at the cursor. *)
From S2P Require Import Prelude Bits Utf8.

(** ** The code *)

(** [struct GapBuffer].  [self] is the address of the object, [free] the
    callback (absent for NULL); [data] is the flexible array member. *)
Record GapBuffer : Type := mkGapBuffer {
  self : Z;
  free : bool;
  gap_offset : Z;
  gap_length : Z;
  total : Z;
  data : list Z;
}.

Definition sizeof_GapBuffer : Z := 32.
Definition alignof_GapBuffer : Z := 8.

Definition set_gap (b : GapBuffer) (off len : Z) (d : list Z) : GapBuffer :=
  mkGapBuffer (self b) (free b) off len (total b) d.

Definition getByteCount (buff : GapBuffer) : Z := u64 (total buff - gap_length buff).

(** The addresses handed to the [free] callback, and the result (NULL or a
    buffer).  The region is given by its address and its bytes. *)
Definition created : Type := (list Z * option GapBuffer).

Definition GapBuffer_createUsingMemory (addr : Z) (mem : list Z) (fr : bool) : created :=
  let freed (a : Z) := if fr then [a] else [] in
  let len := zlen mem in
  if addr =? 0 then (freed addr, None)
  else
    let pad := Z.land (u64 (- addr)) (alignof_GapBuffer - 1) in
    if len <? pad then (freed addr, None)
    else
      let addr := addr + pad in
      let len := len - pad in
      if len <? sizeof_GapBuffer then (freed addr, None)
      else
        let capacity := len - sizeof_GapBuffer in
        ([], Some (mkGapBuffer addr fr 0 capacity capacity
                     (drop (Z.to_nat (pad + sizeof_GapBuffer)) mem))).

Definition GapBuffer_destroy (buff : GapBuffer) : list Z :=
  if free buff then [self buff] else [].

(** [struct String]: what the slice holds. *)
Definition getStringBeforeGap (buff : GapBuffer) : outcome (list Z) :=
  rd_range (data buff) 0 (gap_offset buff).

Definition getStringAfterGap (buff : GapBuffer) : outcome (list Z) :=
  let first_byte_after_gap := u64 (gap_offset buff + gap_length buff) in
  rd_range (data buff) first_byte_after_gap (u64 (total buff - first_byte_after_gap)).

Definition insertBytesBeforeCursor (buff : GapBuffer) (str : list Z)
    : outcome (GapBuffer * bool) :=
  if gap_length buff <? zlen str then Ret (buff, false)
  else
    d ← wr_range (data buff) (gap_offset buff) str;
    Ret (set_gap buff (u64 (gap_offset buff + zlen str)) (u64 (gap_length buff - zlen str)) d,
         true).

Definition insertBytesAfterCursor (buff : GapBuffer) (str : list Z)
    : outcome (GapBuffer * bool) :=
  if gap_length buff <? zlen str then Ret (buff, false)
  else
    d ← wr_range (data buff) (gap_offset buff + gap_length buff - zlen str) str;
    Ret (set_gap buff (gap_offset buff) (u64 (gap_length buff - zlen str)) d, true).

Definition GapBuffer_cloneUsingMemory (addr : Z) (mem : list Z) (fr : bool) (src : GapBuffer)
    : outcome created :=
  match GapBuffer_createUsingMemory addr mem fr with
  | (freed, None) => Ret (freed, None)
  | (freed, Some clone) =>
      before ← getStringBeforeGap src;
      '(clone, ok) ← insertBytesBeforeCursor clone before;
      if negb ok then Ret (freed ++ GapBuffer_destroy clone, None)
      else
        after ← getStringAfterGap src;
        '(clone, ok) ← insertBytesAfterCursor clone after;
        if negb ok then Ret (freed ++ GapBuffer_destroy clone, None)
        else Ret (freed, Some clone)
  end.

Definition GapBuffer_insertString (buff : GapBuffer) (str : list Z)
    : outcome (GapBuffer * bool) :=
  valid ← isValidUTF8 str (zlen str);
  if negb valid then Ret (buff, false) else insertBytesBeforeCursor buff str.

(** [do { assert(i > 0); i--; } while (isSymbolAuxiliaryByte(data[i]));] *)
Definition skip_symbol_back (d : list Z) (i : Z) : outcome Z :=
  loop (S (Z.to_nat i))
    (λ i,
       _ ← c_assert (0 <? i);
       c ← rd d (i - 1);
       if isSymbolAuxiliaryByte (u8 c) then continue (i - 1) else break (i - 1))
    i.

Definition getPrecedingSymbol (buff : GapBuffer) (num : Z) : outcome Z :=
  loop (S (Z.to_nat (gap_offset buff)))
    (λ '(num, i),
       if (0 <? num) && (0 <? i) then
         i ← skip_symbol_back (data buff) i;
         continue (num - 1, i)
       else break i)
    (num, gap_offset buff).

Definition getFollowingSymbol (buff : GapBuffer) (num : Z) : outcome Z :=
  loop (S (Z.to_nat (total buff)))
    (λ '(num, i),
       if (0 <? num) && (i <? total buff) then
         c ← rd (data buff) i;
         continue (num - 1, u64 (i + getSymbolLengthFromFirstByte (u8 c)))
       else break i)
    (num, u64 (gap_offset buff + gap_length buff)).

Definition GapBuffer_removeForwards (buff : GapBuffer) (num : Z) : outcome GapBuffer :=
  i ← getFollowingSymbol buff num;
  Ret (set_gap buff (gap_offset buff) (u64 (i - gap_offset buff)) (data buff)).

Definition GapBuffer_removeBackwards (buff : GapBuffer) (num : Z) : outcome GapBuffer :=
  i ← getPrecedingSymbol buff num;
  Ret (set_gap buff i (u64 (gap_length buff + (gap_offset buff - i))) (data buff)).

Definition moveBytesAfterGap (buff : GapBuffer) (num : Z) : outcome GapBuffer :=
  _ ← c_assert (num <=? gap_offset buff);
  _ ← c_assert (gap_offset buff <=? total buff);
  _ ← c_assert (gap_offset buff <=? total buff);
  _ ← c_assert (u64 (gap_offset buff + gap_length buff) <=? total buff);
  s ← rd_range (data buff) (gap_offset buff - num) num;
  d ← wr_range (data buff) (gap_offset buff + gap_length buff - num) s;
  Ret (set_gap buff (u64 (gap_offset buff - num)) (gap_length buff) d).

Definition moveBytesBeforeGap (buff : GapBuffer) (num : Z) : outcome GapBuffer :=
  _ ← c_assert (num <=? u64 (total buff - gap_offset buff - gap_length buff));
  _ ← c_assert (gap_offset buff <=? total buff);
  _ ← c_assert (gap_offset buff <=? total buff);
  _ ← c_assert (u64 (gap_offset buff + gap_length buff) <=? total buff);
  s ← rd_range (data buff) (gap_offset buff + gap_length buff) num;
  d ← wr_range (data buff) (gap_offset buff) s;
  Ret (set_gap buff (u64 (gap_offset buff + num)) (gap_length buff) d).

(** [off] is an [int]; negating it is done at that width. *)
Definition GapBuffer_moveRelative (buff : GapBuffer) (off : Z) : outcome GapBuffer :=
  if off <? 0 then
    i ← getPrecedingSymbol buff (u64 (s32 (- off)));
    moveBytesAfterGap buff (u64 (gap_offset buff - i))
  else
    i ← getFollowingSymbol buff (u64 off);
    moveBytesBeforeGap buff (u64 (i - gap_offset buff - gap_length buff)).

Definition GapBuffer_moveAbsolute (buff : GapBuffer) (num : Z) : outcome GapBuffer :=
  let i := if 0 <? gap_offset buff then 0 else gap_length buff in
  i ← loop (S (Z.to_nat (total buff)))
        (λ '(num, i),
           if (0 <? num) && (i <? total buff) then
             c ← rd (data buff) i;
             let i := u64 (i + getSymbolLengthFromFirstByte (u8 c)) in
             let i := if i =? gap_offset buff then u64 (i + gap_length buff) else i in
             continue (num - 1, i)
           else break i)
        (num, i);
  if i <=? gap_offset buff then moveBytesAfterGap buff (u64 (gap_offset buff - i))
  else moveBytesBeforeGap buff (u64 (i - gap_offset buff - gap_length buff)).

(** [malloc] is the environment's: the address (0 for NULL) and the bytes of
    the block it returns. *)
Definition GapBuffer_create (malloc : Z → Z * list Z) (capacity : Z) : created :=
  let len := u64 (sizeof_GapBuffer + capacity) in
  let '(addr, mem) := malloc len in
  GapBuffer_createUsingMemory addr mem true.

(** The buffer the caller's pointer is left with, what was freed, and the
    answer. *)
Definition GapBuffer_insertStringMaybeRelocate (malloc : Z → Z * list Z)
    (buff : GapBuffer) (str : list Z) : outcome (GapBuffer * list Z * bool) :=
  '(buff, ok) ← GapBuffer_insertString buff str;
  if negb ok then
    match GapBuffer_create malloc (u64 (getByteCount buff + zlen str)) with
    | (freed, None) => Ret (buff, freed, false)
    | (freed, Some buff2) =>
        '(buff2, ok) ← GapBuffer_insertString buff2 str;
        if negb ok then Ret (buff, freed ++ GapBuffer_destroy buff2, false)
        else Ret (buff2, freed ++ GapBuffer_destroy buff, true)
    end
  else Ret (buff, [], true).

(** The line iterator.  [maybe] is the array in which a line that spans the
    gap is put together. *)
Record GapBufferIter : Type := mkGapBufferIter {
  crossed_gap : bool;
  cur : Z;
  maybe : list Z;
}.

Definition sizeof_maybe : Z := 512.

(** [str] and [len] of [struct GapBufferLine]: [str] points into the data of
    the buffer, at an offset, or is the array of the iterator. *)
Inductive GapBufferLine : Type :=
  | LineInData (off len : Z)
  | LineInMaybe (len : Z).

Definition GapBufferIter_init (mem : list Z) : GapBufferIter := mkGapBufferIter false 0 mem.

(** [while (i < end && data[i] != LF) i++;] *)
Definition scan_line (d : list Z) (stop i : Z) : outcome Z :=
  skip_while (λ c, negb (c =? LF)) d stop i.

Definition GapBufferIter_next (buff : GapBuffer) (iter : GapBufferIter)
    : outcome (GapBufferIter * option GapBufferLine) :=
  let line_offset := cur iter in
  if crossed_gap iter then
    i ← scan_line (data buff) (total buff) line_offset;
    let line_length := i - line_offset in
    if negb (i <? total buff) && (line_length =? 0) then Ret (iter, None)
    else
      let i := if i <? total buff then i + 1 else i in
      Ret (mkGapBufferIter true i (maybe iter), Some (LineInData line_offset line_length))
  else
    i ← scan_line (data buff) (gap_offset buff) line_offset;
    let line_length := i - line_offset in
    if i =? gap_offset buff then
      let line_offset_2 := u64 (i + gap_length buff) in
      i ← scan_line (data buff) (total buff) line_offset_2;
      let line_length_2 := i - line_offset_2 in
      if negb (i <? total buff) && (line_length + line_length_2 =? 0) then Ret (iter, None)
      else
        let i := if i <? total buff then i + 1 else i in
        m ← (if sizeof_maybe <? line_length + line_length_2 then
               if sizeof_maybe <? line_length then
                 s ← rd_range (data buff) line_offset sizeof_maybe;
                 wr_range (maybe iter) 0 s
               else
                 s ← rd_range (data buff) line_offset line_length;
                 m ← wr_range (maybe iter) 0 s;
                 s ← rd_range (data buff) line_offset_2 (sizeof_maybe - line_length);
                 wr_range m line_offset s
             else
               s ← rd_range (data buff) line_offset line_length;
               m ← wr_range (maybe iter) 0 s;
               s ← rd_range (data buff) line_offset_2 line_length_2;
               wr_range m line_length s);
        Ret (mkGapBufferIter true i m, Some (LineInMaybe (line_length + line_length_2)))
    else
      Ret (mkGapBufferIter false (i + 1) (maybe iter), Some (LineInData line_offset line_length)).

(** What a client reads through a line. *)
Definition line_bytes (buff : GapBuffer) (iter : GapBufferIter) (line : GapBufferLine)
    : outcome (list Z) :=
  match line with
  | LineInData off len => rd_range (data buff) off len
  | LineInMaybe len => rd_range (maybe iter) 0 len
  end.

(** [while (GapBufferIter_next(&iter, &line)) ...], reading each line. *)
Definition read_lines (buff : GapBuffer) (iter : GapBufferIter) : outcome (list (list Z)) :=
  loop (S (S (Z.to_nat (total buff))))
    (λ '(iter, acc),
       '(iter, r) ← GapBufferIter_next buff iter;
       match r with
       | None => break acc
       | Some line => l ← line_bytes buff iter line; continue (iter, acc ++ [l])
       end)
    (iter, []).

(** ** The abstract text

    The text is a sequence of symbols split at the cursor: [bs] before, [fs]
    from the cursor on.  [repr b bs fs]: the buffer stores that text, with the
    gap at the cursor. *)
Definition repr (b : GapBuffer) (bs fs : list (list Z)) : Prop :=
  ∃ gap, data b = concat bs ++ gap ++ concat fs ∧
    gap_offset b = zlen (concat bs) ∧ gap_length b = zlen gap ∧
    total b = zlen (data b) ∧ total b < 2 ^ 64 ∧
    Forall is_symbol bs ∧ Forall is_symbol fs.

(** What an operation leaves as it was. *)
Definition same_object (b b' : GapBuffer) : Prop :=
  self b' = self b ∧ free b' = free b ∧ total b' = total b.

Inductive op : Type :=
  | InsertString (str : list Z)
  | RemoveForwards (num : Z)
  | RemoveBackwards (num : Z)
  | MoveRelative (off : Z)
  | MoveAbsolute (num : Z).

(** The operations, with the answer of those that have one. *)
Definition run_op (o : op) (b : GapBuffer) : outcome (GapBuffer * bool) :=
  match o with
  | InsertString str => GapBuffer_insertString b str
  | RemoveForwards num => b' ← GapBuffer_removeForwards b num; Ret (b', true)
  | RemoveBackwards num => b' ← GapBuffer_removeBackwards b num; Ret (b', true)
  | MoveRelative off => b' ← GapBuffer_moveRelative b off; Ret (b', true)
  | MoveAbsolute num => b' ← GapBuffer_moveAbsolute b num; Ret (b', true)
  end.

(** The arguments the C types admit; the one [int] whose negation overflows
    is left out. *)
Definition op_ok (o : op) : Prop :=
  match o with
  | InsertString str => zlen str < 2 ^ 64
  | RemoveForwards num | RemoveBackwards num | MoveAbsolute num => 0 ≤ num < 2 ^ 64
  | MoveRelative off => - 2 ^ 31 < off < 2 ^ 31
  end.

(** What each operation does to a text in a buffer of [cap] bytes: insertion
    at the cursor, removal of up to [num] symbols, motion by symbols, stopping
    at the ends of the text. *)
Definition edit (cap : Z) (o : op) (bs fs bs' fs' : list (list Z)) (r : bool) : Prop :=
  match o with
  | InsertString str =>
      if r then
        ∃ syms, str = concat syms ∧ Forall (λ s, ∃ v, accepted s v) syms ∧
                zlen (concat (bs ++ fs)) + zlen str ≤ cap ∧ bs' = bs ++ syms ∧ fs' = fs
      else
        (¬ valid_utf8 str ∨ cap < zlen (concat (bs ++ fs)) + zlen str) ∧ bs' = bs ∧ fs' = fs
  | RemoveForwards num => r = true ∧ bs' = bs ∧ fs' = drop (Z.to_nat num) fs
  | RemoveBackwards num =>
      r = true ∧ bs' = take (length bs - Z.to_nat num) bs ∧ fs' = fs
  | MoveRelative off =>
      let k := Z.to_nat (zlen bs + off) in
      r = true ∧ bs' = take k (bs ++ fs) ∧ fs' = drop k (bs ++ fs)
  | MoveAbsolute num =>
      let k := Z.to_nat num in
      r = true ∧ bs' = take k (bs ++ fs) ∧ fs' = drop k (bs ++ fs)
  end.

(** ** Symbols in the array *)

Lemma concat_symbols_length syms :
  Forall is_symbol syms → Z.of_nat (length syms) ≤ zlen (concat syms).
Proof.
  induction 1 as [|s syms Hs _ IH]; [done|]. simpl. rewrite zlen_app.
  apply is_symbol_zlen in Hs. lia.
Qed.

Lemma concat_take_zlen (syms : list (list Z)) k :
  zlen (concat (take k syms)) ≤ zlen (concat syms).
Proof.
  rewrite <-(take_drop k syms) at 2. rewrite concat_app, zlen_app.
  pose proof (zlen_nonneg (concat (drop k syms))). lia.
Qed.

Lemma concat_take_S (syms : list (list Z)) k s :
  syms !! k = Some s → concat (take (S k) syms) = concat (take k syms) ++ s.
Proof. intros Hs. rewrite (take_S_r _ _ s) by done. rewrite concat_app. simpl. by rewrite app_nil_r. Qed.

(** The first symbol not taken, in the array. *)
Lemma concat_split_at (syms : list (list Z)) k s :
  syms !! k = Some s →
  concat syms = concat (take k syms) ++ s ++ concat (drop (S k) syms).
Proof.
  intros Hs. rewrite <-(take_drop_middle syms k s Hs) at 1. rewrite concat_app. done.
Qed.

Lemma concat_take_full (syms : list (list Z)) k :
  Forall is_symbol syms → (k ≤ length syms)%nat →
  zlen (concat syms) ≤ zlen (concat (take k syms)) → k = length syms.
Proof.
  intros Hsyms Hk Hlen. destruct (decide (k = length syms)) as [|Hne]; [done|].
  destruct (lookup_lt_is_Some_2 syms k) as [s Hs]; [lia|].
  rewrite (concat_split_at syms k s Hs), !zlen_app in Hlen.
  eapply Forall_lookup_1 in Hs; [|done]. apply is_symbol_zlen in Hs.
  pose proof (zlen_nonneg (concat (drop (S k) syms))). lia.
Qed.

Lemma concat_take_pos (syms : list (list Z)) k :
  Forall is_symbol syms → (k ≤ length syms)%nat →
  zlen (concat (take k syms)) ≤ 0 → k = 0%nat.
Proof.
  intros Hsyms Hk Hlen.
  pose proof (concat_symbols_length (take k syms) (Forall_take _ k _ Hsyms)) as Hl.
  rewrite length_take in Hl. lia.
Qed.

(** Walking back over one symbol. *)
Lemma skip_symbol_back_ok pre s post :
  is_symbol s → skip_symbol_back (pre ++ s ++ post) (zlen pre + zlen s) = Ret (zlen pre).
Proof.
  intros (c & t & -> & Hc & Ht & _). apply wp_eq_inv. unfold skip_symbol_back.
  pose proof (zlen_nonneg pre). pose proof (zlen_nonneg t). rewrite zlen_cons.
  apply (wp_loop (λ i, zlen pre < i ≤ zlen pre + (1 + zlen t)) (λ i, Z.to_nat i)); [lia..|].
  intros i Hi. apply wp_bind, wp_assert; [lia|].
  replace (rd _ (i - 1)) with (rd (c :: t) (i - 1 - zlen pre)).
  2:{ rewrite rd_app_r, rd_app_l; [done|rewrite zlen_cons|]; lia. }
  apply wp_bind. destruct (decide (i = zlen pre + 1)) as [->|].
  - replace (_ - _ - _) with 0 by lia. rewrite rd_cons_0. cbn [wp]. unfold aux in Hc. rewrite Hc.
    simpl. lia.
  - rewrite rd_cons_S by lia. apply wp_rd; [lia|]. intros c' Hc' _.
    eapply Forall_lookup_1 in Hc'; [|done]. unfold aux in Hc'. rewrite Hc'. simpl. lia.
Qed.

(** Walking over one symbol forwards. *)
Lemma symbol_length_ok pre s post :
  is_symbol s →
  ∃ c, rd (pre ++ s ++ post) (zlen pre) = Ret c ∧ getSymbolLengthFromFirstByte (u8 c) = zlen s.
Proof.
  intros (c & t & -> & _ & _ & Hlen). exists c. rewrite rd_app_r, Z.sub_diag by lia.
  split; [done|lia].
Qed.

Lemma getPrecedingSymbol_ok b bs fs num :
  repr b bs fs → 0 ≤ num →
  getPrecedingSymbol b num = Ret (zlen (concat (take (length bs - Z.to_nat num) bs))).
Proof.
  intros (gap & Hd & Hoff & Hlen & _ & _ & Hbs & _) Hnum. apply wp_eq_inv.
  unfold getPrecedingSymbol. pose proof (concat_symbols_length bs Hbs).
  apply (wp_loop (λ '(n, i), ∃ k, (k ≤ length bs)%nat ∧ i = zlen (concat (take k bs)) ∧ 0 ≤ n ∧
           (k - Z.to_nat n = length bs - Z.to_nat num)%nat) (λ '(_, i), Z.to_nat i)).
  { exists (length bs). rewrite firstn_all. split; [done|]. split; [done|lia]. }
  { lia. }
  intros [n i] (k & Hk & -> & Hn & Hkn). pose proof (zlen_nonneg (concat (take k bs))).
  destruct ((0 <? n) && _) eqn:Hc.
  - destruct k as [|k]; [change (zlen (concat (take 0 bs))) with 0 in Hc; lia|].
    destruct (lookup_lt_is_Some_2 bs k) as [s Hs]; [lia|].
    rewrite (concat_take_S bs k s Hs), zlen_app in *. rewrite Hd, (concat_split_at bs k s Hs).
    rewrite <-!app_assoc.
    assert (is_symbol s) as Hsym by (by eapply Forall_lookup_1 in Hs).
    rewrite skip_symbol_back_ok by done. simpl. apply is_symbol_zlen in Hsym.
    split; [|lia]. exists k. split; [lia|]. split; [done|lia].
  - simpl. assert (n = 0 ∨ zlen (concat (take k bs)) ≤ 0) as [->|Hz] by lia.
    + do 3 f_equal. lia.
    + apply concat_take_pos in Hz as ->; [|done..]. do 3 f_equal. lia.
Qed.

Lemma getFollowingSymbol_ok b bs fs num :
  repr b bs fs → 0 ≤ num →
  getFollowingSymbol b num =
    Ret (gap_offset b + gap_length b + zlen (concat (take (Z.to_nat num) fs))).
Proof.
  intros (gap & Hd & Hoff & Hlen & Htot & Hmax & _ & Hfs) Hnum. apply wp_eq_inv.
  unfold getFollowingSymbol. pose proof (concat_symbols_length fs Hfs).
  rewrite Hd, !zlen_app in Htot.
  pose proof (zlen_nonneg (concat bs)). pose proof (zlen_nonneg gap).
  pose proof (zlen_nonneg (concat fs)). rewrite (u64_small (_ + _)) by lia.
  apply (wp_loop (λ '(n, i), ∃ k, (k ≤ length fs)%nat ∧
           i = gap_offset b + gap_length b + zlen (concat (take k fs)) ∧ 0 ≤ n ∧
           (Z.of_nat k + n = num)) (λ '(_, i), Z.to_nat (total b - i))).
  { exists 0%nat. simpl. rewrite zlen_nil. lia. }
  { lia. }
  intros [n i] (k & Hk & -> & Hn & Hkn).
  pose proof (concat_take_zlen fs k). pose proof (zlen_nonneg (concat (take k fs))).
  destruct ((0 <? n) && _) eqn:Hc.
  - assert (k ≠ length fs) by (intros ->; rewrite firstn_all in *; lia).
    destruct (lookup_lt_is_Some_2 fs k) as [s Hs]; [lia|].
    assert (is_symbol s) as Hsym by (by eapply Forall_lookup_1 in Hs).
    destruct (symbol_length_ok (concat bs ++ gap ++ concat (take k fs)) s
                (concat (drop (S k) fs)) Hsym) as (c & Hrd & Hsl).
    rewrite Hd, (concat_split_at fs k s Hs).
    replace (_ + _ + _) with (zlen (concat bs ++ gap ++ concat (take k fs)))
      by (rewrite !zlen_app; lia).
    rewrite <-!app_assoc in Hrd. rewrite Hrd. simpl. rewrite Hsl.
    pose proof (concat_take_zlen fs (S k)) as HSk.
    rewrite (concat_take_S fs k s Hs), zlen_app in HSk. apply is_symbol_zlen in Hsym.
    rewrite !zlen_app, u64_small by lia. split; [|lia].
    exists (S k). rewrite (concat_take_S fs k s Hs), zlen_app. lia.
  - simpl. assert (n = 0 ∨ zlen (concat fs) ≤ zlen (concat (take k fs))) as [->|Hz] by lia.
    + do 4 f_equal. lia.
    + apply concat_take_full in Hz as ->; [|done..].
      rewrite firstn_all, take_ge by lia. done.
Qed.

(** ** Motion of the gap *)

Lemma repr_bounds b bs fs :
  repr b bs fs →
  0 ≤ gap_offset b ∧ 0 ≤ gap_length b ∧ gap_offset b = zlen (concat bs) ∧
  total b = gap_offset b + gap_length b + zlen (concat fs) ∧ total b < 2 ^ 64 ∧
  total b = zlen (data b) ∧ 0 ≤ zlen (concat fs).
Proof.
  intros (gap & Hd & -> & -> & Htot & ? & _). pose proof (zlen_nonneg (concat bs)).
  pose proof (zlen_nonneg gap). pose proof (zlen_nonneg (concat fs)). split_and!; try lia. rewrite Htot, Hd, !zlen_app. lia.
Qed.

Lemma moveBytesAfterGap_ok b bs1 bs2 fs :
  repr b (bs1 ++ bs2) fs →
  wp (moveBytesAfterGap b (zlen (concat bs2)))
     (λ b', repr b' bs1 (bs2 ++ fs) ∧ same_object b b').
Proof.
  intros Hr. pose proof (repr_bounds _ _ _ Hr) as (?&?&Ho&Ht&?&Hz).
  destruct Hr as (gap & Hd & _ & Hlen & _ & _ & [Hs1 Hs2]%Forall_app & Hfs).
  rewrite concat_app, zlen_app in Ho. rewrite concat_app in Hd.
  pose proof (zlen_nonneg (concat bs1)). pose proof (zlen_nonneg (concat bs2)).
  pose proof (zlen_nonneg (concat fs)). unfold moveBytesAfterGap.
  do 3 (apply wp_bind, wp_assert; [lia|]).
  rewrite (u64_small (_ + _)) by lia. apply wp_bind, wp_assert; [lia|].
  rewrite Hd, <-!app_assoc, rd_range_app by lia. cbn [mbind outcome_bind].
  destruct (list_split3 (concat bs2 ++ gap) (gap_length b) (zlen (concat bs2)))
    as (m1 & m2 & m3 & Hm & Hm1 & Hm2 & Hm3); [lia..|rewrite zlen_app; lia|].
  rewrite zlen_app in Hm3. assert (m3 = []) as -> by (apply zlen_0_inv; lia).
  rewrite app_nil_r in Hm.
  rewrite (app_assoc (concat bs2)), Hm, <-(app_assoc m1), (app_assoc (concat bs1) m1).
  rewrite wr_range_app; [|rewrite zlen_app; lia|done]. cbn [mbind outcome_bind wp].
  rewrite <-app_assoc. split; [|done].
  exists m1. cbn. rewrite u64_small by lia. rewrite concat_app.
  split; [done|]. rewrite !zlen_app. split_and!; try lia; [done|].
  by apply Forall_app.
Qed.

Lemma moveBytesBeforeGap_ok b bs fs1 fs2 :
  repr b bs (fs1 ++ fs2) →
  wp (moveBytesBeforeGap b (zlen (concat fs1)))
     (λ b', repr b' (bs ++ fs1) fs2 ∧ same_object b b').
Proof.
  intros Hr. pose proof (repr_bounds _ _ _ Hr) as (?&?&Ho&Ht&?&Hz).
  destruct Hr as (gap & Hd & _ & Hlen & _ & _ & Hbs & [Hs1 Hs2]%Forall_app).
  rewrite concat_app, zlen_app in Ht. rewrite concat_app in Hd.
  pose proof (zlen_nonneg (concat bs)). pose proof (zlen_nonneg (concat fs1)).
  pose proof (zlen_nonneg (concat fs2)). unfold moveBytesBeforeGap.
  rewrite (u64_small (total b - _ - _)), (u64_small (gap_offset b + gap_length b)) by lia.
  do 4 (apply wp_bind, wp_assert; [lia|]).
  rewrite Hd. rewrite (app_assoc (concat bs)), rd_range_app by (rewrite ?zlen_app; lia).
  cbn [mbind outcome_bind].
  destruct (list_split3 (gap ++ concat fs1) (zlen (concat fs1)) (gap_length b))
    as (m1 & m2 & m3 & Hm & Hm1 & Hm2 & Hm3); [lia..|rewrite zlen_app; lia|].
  rewrite zlen_app in Hm3. assert (m3 = []) as -> by (apply zlen_0_inv; lia).
  rewrite app_nil_r in Hm. rewrite <-app_assoc, (app_assoc gap), Hm, <-app_assoc.
  rewrite wr_range_app by lia. cbn [mbind outcome_bind wp]. split; [|done].
  exists m2. cbn. rewrite u64_small by lia. rewrite concat_app, <-?app_assoc.
  split; [done|]. rewrite !zlen_app. split_and!; try lia; [|done].
  by apply Forall_app.
Qed.

(** Putting the gap at the [k]-th symbol of the text. *)
Lemma move_to_ok b bs fs (k : nat) :
  repr b bs fs →
  let i := zlen (concat (take k (bs ++ fs))) +
           (if (k <? length bs)%nat then 0 else gap_length b) in
  wp (if (k <? length bs)%nat then moveBytesAfterGap b (gap_offset b - i)
      else moveBytesBeforeGap b (i - gap_offset b - gap_length b))
     (λ b', repr b' (take k (bs ++ fs)) (drop k (bs ++ fs)) ∧ same_object b b').
Proof.
  intros Hr i. pose proof (repr_bounds _ _ _ Hr) as (?&?&Ho&_). subst i.
  destruct (Nat.ltb_spec k (length bs)).
  - rewrite take_app_le, drop_app_le by lia.
    rewrite <-(take_drop k bs) in Hr. eapply wp_mono; [|intros b' Hb'; exact Hb'].
    replace (_ - _) with (zlen (concat (drop k bs))); [by apply moveBytesAfterGap_ok|].
    rewrite Ho. rewrite <-(take_drop k bs) at 2. rewrite concat_app, zlen_app. lia.
  - rewrite take_app_ge, drop_app_ge by lia.
    rewrite <-(take_drop (k - length bs) fs) in Hr.
    replace (_ - _ - _) with (zlen (concat (take (k - length bs) fs)));
      [by apply moveBytesBeforeGap_ok|].
    rewrite concat_app, zlen_app. lia.
Qed.

Lemma GapBuffer_moveRelative_ok b bs fs off :
  repr b bs fs → - 2 ^ 31 < off < 2 ^ 31 →
  wp (GapBuffer_moveRelative b off) (λ b',
    let k := Z.to_nat (zlen bs + off) in
    repr b' (take k (bs ++ fs)) (drop k (bs ++ fs)) ∧ same_object b b').
Proof.
  intros Hr Hoff. pose proof (repr_bounds _ _ _ Hr) as (?&?&Ho&Ht&?&Hz).
  unfold GapBuffer_moveRelative. destruct (Z.ltb_spec off 0).
  - rewrite s32_small, u64_small by lia. rewrite (getPrecedingSymbol_ok b bs fs) by (done || lia).
    cbn [mbind outcome_bind]. set (j := (length bs - _)%nat).
    pose proof (concat_take_zlen bs j). pose proof (zlen_nonneg (concat (take j bs))).
    rewrite u64_small by lia. cbv zeta.
    rewrite take_app_le, drop_app_le by (unfold zlen; lia).
    assert (Z.to_nat (zlen bs + off) = j) as -> by (unfold j, zlen; lia).
    rewrite <-(take_drop j bs) in Hr.
    replace (_ - _) with (zlen (concat (drop j bs))); [by apply moveBytesAfterGap_ok|].
    rewrite Ho. rewrite <-(take_drop j bs) at 2. rewrite concat_app, zlen_app. lia.
  - rewrite u64_small by lia. rewrite (getFollowingSymbol_ok b bs fs) by (done || lia).
    cbn [mbind outcome_bind]. set (j := Z.to_nat off).
    pose proof (concat_take_zlen fs j). pose proof (zlen_nonneg (concat (take j fs))).
    rewrite u64_small by lia. cbv zeta.
    rewrite take_app_ge, drop_app_ge by (unfold zlen; lia).
    assert (Z.to_nat (zlen bs + off) - length bs = j)%nat as -> by (unfold j, zlen; lia).
    rewrite <-(take_drop j fs) in Hr.
    replace (_ - _ - _) with (zlen (concat (take j fs))) by lia.
    by apply moveBytesBeforeGap_ok.
Qed.

(** ** Removal and insertion *)

Lemma GapBuffer_removeForwards_ok b bs fs num :
  repr b bs fs → 0 ≤ num →
  wp (GapBuffer_removeForwards b num) (λ b',
    repr b' bs (drop (Z.to_nat num) fs) ∧ same_object b b').
Proof.
  intros Hr Hnum. pose proof (repr_bounds _ _ _ Hr) as (?&?&Ho&Ht&?&Hz&?).
  unfold GapBuffer_removeForwards. rewrite (getFollowingSymbol_ok b bs fs) by done.
  set (j := Z.to_nat num). pose proof (concat_take_zlen fs j).
  pose proof (zlen_nonneg (concat (take j fs))). cbn [mbind outcome_bind wp].
  rewrite u64_small by lia. split; [|done]. destruct Hr as (gap & Hd & _ & Hl & _ & _ & ? & ?).
  exists (gap ++ concat (take j fs)). cbn. split_and!; try done; [|zlen|by apply Forall_drop].
  rewrite Hd, <-app_assoc. rewrite <-(take_drop j fs) at 1. by rewrite concat_app.
Qed.

Lemma GapBuffer_removeBackwards_ok b bs fs num :
  repr b bs fs → 0 ≤ num →
  wp (GapBuffer_removeBackwards b num) (λ b',
    repr b' (take (length bs - Z.to_nat num) bs) fs ∧ same_object b b').
Proof.
  intros Hr Hnum. pose proof (repr_bounds _ _ _ Hr) as (?&?&Ho&Ht&?&Hz&?).
  unfold GapBuffer_removeBackwards. rewrite (getPrecedingSymbol_ok b bs fs) by done.
  set (j := (length bs - _)%nat). pose proof (concat_take_zlen bs j).
  pose proof (zlen_nonneg (concat (take j bs))). cbn [mbind outcome_bind wp].
  rewrite u64_small by lia. split; [|done]. destruct Hr as (gap & Hd & _ & Hl & _ & _ & ? & ?).
  exists (concat (drop j bs) ++ gap). cbn. split_and!; try done; [| |by apply Forall_take].
  - rewrite Hd, <-app_assoc, (app_assoc (concat (take _ _))), <-concat_app. by rewrite take_drop.
  - rewrite <-(take_drop j bs), concat_app, zlen_app in Ho. zlen.
Qed.

Lemma insertBytesBeforeCursor_ok b bs fs syms :
  repr b bs fs → Forall is_symbol syms → zlen (concat syms) ≤ gap_length b →
  wp (insertBytesBeforeCursor b (concat syms)) (λ '(b', r),
    r = true ∧ repr b' (bs ++ syms) fs ∧ same_object b b').
Proof.
  intros Hr Hsyms Hfit. pose proof (repr_bounds _ _ _ Hr) as (?&?&Ho&Ht&?&Hz&?).
  pose proof (zlen_nonneg (concat syms)). unfold insertBytesBeforeCursor.
  destruct (Z.ltb_spec (gap_length b) (zlen (concat syms))); [lia|].
  destruct Hr as (gap & Hd & _ & Hl & _ & _ & ? & ?).
  destruct (list_split3 gap (zlen (concat syms)) (zlen gap - zlen (concat syms)))
    as (g1 & g2 & g3 & -> & Hg1 & Hg2 & Hg3); [lia..|].
  assert (g3 = []) as -> by (apply zlen_0_inv; lia). rewrite app_nil_r in *.
  rewrite Hd, <-app_assoc, wr_range_app by lia. cbn [mbind outcome_bind wp].
  rewrite !u64_small by lia. split; [done|]. split; [|done].
  exists g2. cbn. rewrite concat_app, <-app_assoc. rewrite Hd in Hz.
  split_and!; zlen; [done|by apply Forall_app|done].
Qed.

Lemma symbols_of_valid str :
  valid_utf8 str → ∃ syms, str = concat syms ∧ Forall is_symbol syms ∧
                     Forall (λ s, ∃ v, accepted s v) syms.
Proof.
  intros (syms & -> & Hall). exists syms. split_and!; [done| |done].
  eapply Forall_impl; [done|]. intros s [v Hs]. by eapply accepted_symbol.
Qed.

Lemma GapBuffer_insertString_ok b bs fs str :
  repr b bs fs →
  wp (GapBuffer_insertString b str) (λ '(b', r), ∃ bs',
    repr b' bs' fs ∧ same_object b b' ∧
    edit (total b) (InsertString str) bs fs bs' fs r).
Proof.
  intros Hr. pose proof (repr_bounds _ _ _ Hr) as (?&?&Ho&Ht&?&Hz&?).
  unfold GapBuffer_insertString. destruct (isValidUTF8_ok str) as (v & -> & Hv).
  simpl. rewrite concat_app, zlen_app. destruct v; simpl.
  - destruct (symbols_of_valid str) as (syms & -> & Hsyms & Hacc); [by apply Hv|].
    destruct (Z.le_gt_cases (zlen (concat syms)) (gap_length b)).
    + eapply wp_mono; [by apply insertBytesBeforeCursor_ok|]. intros [b' r] (-> & Hr' & Hs).
      exists (bs ++ syms). split_and!; [done..|]. exists syms. split_and!; try done. lia.
    + unfold insertBytesBeforeCursor.
      destruct (Z.ltb_spec (gap_length b) (zlen (concat syms))); [|lia].
      simpl. exists bs. split_and!; [done..|right; lia|done|done].
  - exists bs. split_and!; [done..|left; by intros ?%Hv|done|done].
Qed.

(** The offset in the array of the [k]-th symbol of the text: its offset in
    the text, past the gap if it is not before the cursor. *)
Definition symbol_pos (b : GapBuffer) (bs fs : list (list Z)) (k : nat) : Z :=
  zlen (concat (take k (bs ++ fs))) + (if (k <? length bs)%nat then 0 else gap_length b).

Lemma symbol_pos_range b bs fs k : repr b bs fs → 0 ≤ symbol_pos b bs fs k ≤ total b.
Proof.
  intros Hr. pose proof (repr_bounds _ _ _ Hr) as (?&?&Ho&Ht&_).
  unfold symbol_pos. pose proof (concat_take_zlen (bs ++ fs) k) as Hk.
  pose proof (zlen_nonneg (concat (take k (bs ++ fs)))).
  rewrite concat_app, zlen_app in Hk. destruct (_ <? _)%nat; lia.
Qed.

Lemma symbol_pos_0 b bs fs :
  repr b bs fs → (if 0 <? gap_offset b then 0 else gap_length b) = symbol_pos b bs fs 0.
Proof.
  intros Hr. pose proof (repr_bounds _ _ _ Hr) as (?&?&Ho&Ht&_).
  unfold symbol_pos. rewrite take_0. destruct bs as [|s bs']; simpl.
  - rewrite Ho. done.
  - simpl in Ho. rewrite zlen_app in Ho. pose proof (zlen_nonneg (concat bs')).
    destruct Hr as (_ & _ & _ & _ & _ & _ & [Hs%is_symbol_zlen _]%Forall_cons & _).
    destruct (Z.ltb_spec 0 (gap_offset b)); [done|lia].
Qed.

Lemma symbol_pos_end b bs fs k :
  repr b bs fs → (k ≤ length (bs ++ fs))%nat → total b ≤ symbol_pos b bs fs k →
  k = length (bs ++ fs).
Proof.
  intros Hr Hk Hge. pose proof (repr_bounds _ _ _ Hr) as (?&?&Ho&Ht&_).
  destruct Hr as (_ & _ & _ & _ & _ & _ & Hbs & Hfs).
  apply concat_take_full; [by apply Forall_app|done|]. unfold symbol_pos in Hge.
  rewrite concat_app, zlen_app. destruct (_ <? _)%nat; lia.
Qed.

(** One step of the scan of [moveAbsolute]: from a symbol to the next. *)
Lemma symbol_pos_S b bs fs k s :
  repr b bs fs → (bs ++ fs) !! k = Some s →
  let i := symbol_pos b bs fs k + zlen s in
  (∃ c, rd (data b) (symbol_pos b bs fs k) = Ret c ∧
        getSymbolLengthFromFirstByte (u8 c) = zlen s) ∧
  (if i =? gap_offset b then i + gap_length b else i) = symbol_pos b bs fs (S k).
Proof.
  intros Hr Hs. pose proof (repr_bounds _ _ _ Hr) as (?&?&Ho&Ht&_).
  destruct Hr as (gap & Hd & _ & Hl & _ & _ & Hbs & Hfs). unfold symbol_pos.
  rewrite (concat_take_S _ k s Hs), zlen_app.
  assert (is_symbol s) as Hsym by (by eapply (Forall_lookup_1 _ (bs ++ fs)); [apply Forall_app|]).
  pose proof (is_symbol_zlen s Hsym). cbv zeta. destruct (Nat.ltb_spec k (length bs)) as [Hk|Hk].
  - rewrite lookup_app_l in Hs by done. rewrite take_app_le by lia. split.
    + destruct (symbol_length_ok (concat (take k bs)) s
        (concat (drop (S k) bs) ++ gap ++ concat fs) Hsym) as (c & Hrd & ?).
      exists c. split; [|done]. rewrite <-Hrd, Hd, (concat_split_at bs k s Hs), <-!app_assoc, Z.add_0_r.
      done.
    + rewrite Ho. rewrite (concat_split_at bs k s Hs) at 1. rewrite !zlen_app.
      destruct (Nat.ltb_spec (S k) (length bs)) as [HSk|HSk].
      * destruct (lookup_lt_is_Some_2 bs (S k)) as [s' Hs']; [done|].
        rewrite (drop_S _ s' (S k)) by done. simpl. rewrite zlen_app.
        eapply Forall_lookup_1 in Hs'; [|done]. apply is_symbol_zlen in Hs'.
        pose proof (zlen_nonneg (concat (drop (S (S k)) bs))). destruct (_ =? _) eqn:?; lia.
      * rewrite drop_ge by lia. change (zlen (concat [])) with 0. destruct (_ =? _) eqn:?; lia.
  - rewrite lookup_app_r in Hs by done. rewrite take_app_ge by lia.
    rewrite concat_app, zlen_app. pose proof (zlen_nonneg (concat (take (k - length bs) fs))).
    split.
    + destruct (symbol_length_ok (concat bs ++ gap ++ concat (take (k - length bs) fs)) s
        (concat (drop (S (k - length bs)) fs)) Hsym) as (c & Hrd & ?).
      exists c. split; [|done]. rewrite <-Hrd, Hd, (concat_split_at fs _ s Hs), <-!app_assoc.
      f_equal. rewrite !zlen_app. lia.
    + destruct (Nat.ltb_spec (S k) (length bs)); [lia|]. destruct (_ =? _) eqn:?; lia.
Qed.

(** The scan stops at the symbol asked for, or at the end of the text. *)
(** The end of a move, to the position of the symbol [k]. *)
Lemma move_to_symbol b bs fs k :
  repr b bs fs → (k ≤ length (bs ++ fs))%nat →
  let i := symbol_pos b bs fs k in
  wp (if i <=? gap_offset b then moveBytesAfterGap b (u64 (gap_offset b - i))
      else moveBytesBeforeGap b (u64 (i - gap_offset b - gap_length b)))
    (λ b', repr b' (take k (bs ++ fs)) (drop k (bs ++ fs)) ∧ same_object b b').
Proof.
  intros Hr Hk'. pose proof (repr_bounds _ _ _ Hr) as (?&?&Ho&Ht&?&Hz&?).
  pose proof (move_to_ok b bs fs k Hr) as Hm. cbv zeta in Hm |- *. fold (symbol_pos b bs fs k) in Hm.
  pose proof (symbol_pos_range b bs fs k Hr).
  destruct (Nat.ltb_spec k (length bs)) as [Hk|Hk].
  - assert (symbol_pos b bs fs k ≤ gap_offset b).
    { unfold symbol_pos. destruct (Nat.ltb_spec k (length bs)); [|lia].
      rewrite take_app_le by lia. pose proof (concat_take_zlen bs k). lia. }
    destruct (Z.leb_spec (symbol_pos b bs fs k) (gap_offset b)); [|lia].
    by rewrite u64_small by lia.
  - assert (symbol_pos b bs fs k = gap_offset b + gap_length b +
              zlen (concat (take (k - length bs) fs))) as Hp.
    { unfold symbol_pos. destruct (Nat.ltb_spec k (length bs)); [lia|].
      rewrite take_app_ge, concat_app, zlen_app by lia. lia. }
    pose proof (zlen_nonneg (concat (take (k - length bs) fs))).
    destruct (Z.leb_spec (symbol_pos b bs fs k) (gap_offset b)).
    + assert (k = length bs) as ->.
      { pose proof Hr as (_ & _ & _ & _ & _ & _ & _ & Hfs).
        pose proof (concat_symbols_length _ (Forall_take _ (k - length bs)%nat _ Hfs)) as Hl.
        rewrite length_take in Hl. rewrite length_app in Hk'. lia. }
      rewrite take_app_length, drop_app_length, u64_small by lia.
      replace (gap_offset b - _) with (zlen (concat ([] : list (list Z)))) by
        (change (zlen (concat ([] : list (list Z)))) with 0; lia).
      apply (moveBytesAfterGap_ok b bs [] fs). by rewrite app_nil_r.
    + by rewrite u64_small by lia.
Qed.

Lemma GapBuffer_moveAbsolute_ok b bs fs num :
  repr b bs fs → 0 ≤ num →
  wp (GapBuffer_moveAbsolute b num) (λ b',
    repr b' (take (Z.to_nat num) (bs ++ fs)) (drop (Z.to_nat num) (bs ++ fs)) ∧
    same_object b b').
Proof.
  intros Hr Hnum. pose proof (repr_bounds _ _ _ Hr) as (?&?&Ho&Ht&?&Hz&?).
  unfold GapBuffer_moveAbsolute. rewrite (symbol_pos_0 b bs fs) by done. apply wp_bind.
  eapply wp_mono with (Q := λ i, ∃ k, (k ≤ length (bs ++ fs))%nat ∧ i = symbol_pos b bs fs k ∧
    take k (bs ++ fs) = take (Z.to_nat num) (bs ++ fs) ∧
    drop k (bs ++ fs) = drop (Z.to_nat num) (bs ++ fs)).
  - apply (wp_loop (λ '(n, i), ∃ k, (k ≤ length (bs ++ fs))%nat ∧ i = symbol_pos b bs fs k ∧
             0 ≤ n ∧ (Z.of_nat k + n = num)) (λ '(_, i), Z.to_nat (total b - i))).
    { exists 0%nat. split; [lia|done]. }
    { pose proof (symbol_pos_range b bs fs 0 Hr). lia. }
    intros [n i] (k & Hk & -> & Hn & Hkn).
    pose proof (symbol_pos_range b bs fs k Hr). destruct ((0 <? n) && _) eqn:Hc.
    + assert (k ≠ length (bs ++ fs)) as Hne.
      { intros ->. unfold symbol_pos in Hc. rewrite firstn_all, concat_app, zlen_app, length_app in Hc.
        destruct (Nat.ltb_spec (length bs + length fs) (length bs)); lia. }
      destruct (lookup_lt_is_Some_2 (bs ++ fs) k) as [s Hs]; [lia|].
      destruct (symbol_pos_S b bs fs k s Hr Hs) as [(c & Hrd & Hsl) Hnext].
      rewrite Hrd. cbn [mbind outcome_bind]. rewrite Hsl.
      assert (1 ≤ zlen s ≤ 4) by (destruct Hr as (_ & _ & _ & _ & _ & _ & ? & ?);
        eapply is_symbol_zlen, (Forall_lookup_1 _ (bs ++ fs)); [by apply Forall_app|done]).
      cbv zeta in Hnext.
      pose proof (symbol_pos_range b bs fs (S k) Hr).
      destruct (Z.eqb_spec (symbol_pos b bs fs k + zlen s) (gap_offset b)) as [He|He];
        rewrite (u64_small (symbol_pos b bs fs k + _)) by lia;
        [rewrite (proj2 (Z.eqb_eq _ _) He), u64_small by lia
        |rewrite (proj2 (Z.eqb_neq _ _) He)]; cbn [wp continue]; (split; [|lia]);
        exists (S k); lia.
    + simpl. exists k. split; [done|]. split; [done|].
      assert (n = 0 ∨ total b ≤ symbol_pos b bs fs k) as [->|Hge] by lia.
      * by replace (Z.to_nat num) with k by lia.
      * apply symbol_pos_end in Hge as ->; [|done..].
        by rewrite firstn_all, drop_all, take_ge, drop_ge by lia.
  - intros i (k & Hk & -> & <- & <-). by apply move_to_symbol.
Qed.

(** ** Creation, cloning and histories *)

Lemma land_7 x : Z.land x (alignof_GapBuffer - 1) = x mod 8.
Proof. change (alignof_GapBuffer - 1) with (Z.ones 3). by rewrite Z.land_ones. Qed.

Lemma createUsingMemory_ok addr mem fr freed b :
  0 ≤ addr < 2 ^ 64 → zlen mem < 2 ^ 64 →
  GapBuffer_createUsingMemory addr mem fr = (freed, Some b) →
  repr b [] [] ∧ freed = [] ∧ free b = fr ∧ self b mod alignof_GapBuffer = 0 ∧
  addr ≤ self b ∧ self b + sizeof_GapBuffer + total b = addr + zlen mem.
Proof.
  intros Ha Hm. unfold GapBuffer_createUsingMemory. rewrite land_7. unfold u64, sizeof_GapBuffer,
    alignof_GapBuffer. set (pad := (- addr mod 2 ^ 64) mod 8).
  assert (0 ≤ pad < 8 ∧ (addr + pad) mod 8 = 0) as [Hp Hal].
  { unfold pad. change (2 ^ 64) with (8 * 2 ^ 61). split; [lia|].
    rewrite Z.rem_mul_r by lia. lia. }
  clearbody pad. destruct (addr =? 0); [done|].
  destruct (Z.ltb_spec (zlen mem) pad); [done|].
  destruct (Z.ltb_spec (zlen mem - pad) 32); [done|]. intros [= <- <-].
  split; [|cbn; split_and!; try done; lia].
  exists (drop (Z.to_nat (pad + 32)) mem). cbn.
  rewrite app_nil_r. rewrite !zlen_drop by lia. split_and!; done || lia.
Qed.

Lemma insertBytesAfterCursor_ok b bs fs syms :
  repr b bs fs → Forall is_symbol syms → zlen (concat syms) ≤ gap_length b →
  wp (insertBytesAfterCursor b (concat syms)) (λ '(b', r),
    r = true ∧ repr b' bs (syms ++ fs) ∧ same_object b b').
Proof.
  intros Hr Hsyms Hfit. pose proof (repr_bounds _ _ _ Hr) as (?&?&Ho&Ht&?&Hz&?).
  pose proof (zlen_nonneg (concat syms)). unfold insertBytesAfterCursor.
  destruct (Z.ltb_spec (gap_length b) (zlen (concat syms))); [lia|].
  destruct Hr as (gap & Hd & _ & Hl & _ & _ & ? & ?).
  destruct (list_split3 gap (zlen gap - zlen (concat syms)) (zlen (concat syms)))
    as (g1 & g2 & g3 & -> & Hg1 & Hg2 & Hg3); [lia..|].
  assert (g3 = []) as -> by (apply zlen_0_inv; lia). rewrite app_nil_r in *.
  rewrite Hd, <-(app_assoc g1), (app_assoc (concat bs)), wr_range_app by zlen.
  cbn [mbind outcome_bind wp].
  rewrite !u64_small by lia. split; [done|]. split; [|done].
  exists g1. cbn. rewrite concat_app, <-!app_assoc. rewrite Hd in Hz.
  split_and!; zlen; [done|done|by apply Forall_app].
Qed.

(** The slices on both sides of the gap are the text on both sides of the
    cursor. *)
Lemma getString_ok b bs fs :
  repr b bs fs →
  getStringBeforeGap b = Ret (concat bs) ∧ getStringAfterGap b = Ret (concat fs).
Proof.
  intros Hr. pose proof (repr_bounds _ _ _ Hr) as (?&?&Ho&Ht&?&Hz&?).
  destruct Hr as (gap & Hd & _ & Hl & _). unfold getStringBeforeGap, getStringAfterGap.
  rewrite (u64_small (gap_offset b + _)), u64_small by lia. rewrite Hd. split.
  - by apply (rd_range_app []).
  - rewrite app_assoc, <-(app_nil_r (concat fs)) at 1. apply rd_range_app; zlen.
Qed.

(** Cloning into a region: the text and the cursor of the source, in a
    buffer of the region's own size, if that is enough for the text; nothing,
    and the region handed to its callback, otherwise. *)
Theorem cloneUsingMemory_correct addr mem fr src bs fs freed c0 :
  repr src bs fs → 0 ≤ addr < 2 ^ 64 → zlen mem < 2 ^ 64 →
  GapBuffer_createUsingMemory addr mem fr = (freed, Some c0) →
  wp (GapBuffer_cloneUsingMemory addr mem fr src) (λ '(freed', r),
    if zlen (concat (bs ++ fs)) <=? total c0 then
      freed' = [] ∧ ∃ c, r = Some c ∧ repr c bs fs ∧ same_object c0 c
    else r = None ∧ freed' = GapBuffer_destroy c0).
Proof.
  intros Hr Ha Hm Hc. unfold GapBuffer_cloneUsingMemory. rewrite Hc.
  destruct (createUsingMemory_ok _ _ _ _ _ Ha Hm Hc) as (Hc0 & -> & _).
  pose proof (repr_bounds _ _ _ Hr) as (?&?&Ho&Ht&?&Hz&?).
  pose proof (repr_bounds _ _ _ Hc0) as (?&?&Ho0&Ht0&?&Hz0&_).
  change (zlen (concat [])) with 0 in *.
  destruct (getString_ok _ _ _ Hr) as [-> Hafter].
  destruct Hr as (gap & Hd & _ & Hl & _ & _ & Hbs & Hfs). rewrite concat_app, zlen_app.
  cbn [mbind outcome_bind].
  destruct (Z.le_gt_cases (zlen (concat bs)) (gap_length c0)) as [Hfit|Hfit].
  - apply wp_bind. eapply wp_mono; [by apply (insertBytesBeforeCursor_ok c0 [] [])|].
    intros [c r] (-> & Hc1 & Hs). rewrite Hafter. cbn.
    pose proof (repr_bounds _ _ _ Hc1) as (?&?&Ho1&Ht1&?&Hz1&_).
    change (zlen (concat [])) with 0 in *. destruct Hs as (Hs1 & Hs2 & Hs3). simpl in Ho1.
    destruct (Z.leb_spec (zlen (concat bs) + zlen (concat fs)) (total c0)).
    + apply wp_bind. eapply wp_mono; [apply (insertBytesAfterCursor_ok c bs []); [done..|lia]|].
      intros [c' r] (-> & Hc2 & Hs4 & Hs5 & Hs6). cbn. split; [done|]. exists c'.
      rewrite app_nil_r in Hc2. split_and!; [done..|]. unfold same_object. split_and!; congruence.
    + unfold insertBytesAfterCursor.
      destruct (Z.ltb_spec (gap_length c) (zlen (concat fs))); [|lia]. cbn.
      split; [done|]. unfold GapBuffer_destroy. by rewrite Hs1, Hs2.
  - unfold insertBytesBeforeCursor. destruct (Z.ltb_spec (gap_length c0) (zlen (concat bs))); [|lia].
    cbn. destruct (Z.leb_spec (zlen (concat bs) + zlen (concat fs)) (total c0)); [lia|done].
Qed.

(** Histories of operations, and the edits they amount to. *)
Fixpoint run_ops (ops : list op) (b : GapBuffer) : outcome (GapBuffer * list bool) :=
  match ops with
  | [] => Ret (b, [])
  | o :: ops =>
      '(b, r) ← run_op o b;
      '(b, rs) ← run_ops ops b;
      Ret (b, r :: rs)
  end.

Inductive edits (cap : Z) : list op → list (list Z) → list (list Z) →
    list (list Z) → list (list Z) → list bool → Prop :=
  | edits_nil bs fs : edits cap [] bs fs bs fs []
  | edits_cons o ops bs fs bs1 fs1 bs2 fs2 r rs :
      edit cap o bs fs bs1 fs1 r → edits cap ops bs1 fs1 bs2 fs2 rs →
      edits cap (o :: ops) bs fs bs2 fs2 (r :: rs).

Lemma edit_accepted cap o bs fs bs' fs' r :
  edit cap o bs fs bs' fs' r → Forall (λ s, ∃ v, accepted s v) (bs ++ fs) →
  Forall (λ s, ∃ v, accepted s v) (bs' ++ fs').
Proof.
  destruct o as [str|num|num|off|num]; simpl.
  - destruct r; [|by intros (_ & -> & ->)].
    intros (syms & -> & Hs & _ & -> & ->) [??]%Forall_app. by rewrite !Forall_app.
  - intros (_ & -> & ->) [??]%Forall_app. apply Forall_app. split; [done|by apply Forall_drop].
  - intros (_ & -> & ->) [??]%Forall_app. apply Forall_app. split; [by apply Forall_take|done].
  - intros (_ & -> & ->). by rewrite take_drop.
  - intros (_ & -> & ->). by rewrite take_drop.
Qed.

(** On a buffer that stores a text, each operation ends (no assertion
    fails, no access leaves the array) in the buffer that stores the edited
    text: insertion of valid UTF-8 that fits puts its symbols before the
    cursor and is refused otherwise, removal and motion count whole symbols and
    stop at the ends of the text.  Nothing else of the object changes. *)
Lemma gap_op_ok o b bs fs :
  repr b bs fs → op_ok o →
  wp (run_op o b) (λ '(b', r), ∃ bs' fs',
    repr b' bs' fs' ∧ same_object b b' ∧ edit (total b) o bs fs bs' fs' r).
Proof.
  intros Hr Ho. destruct o as [str|num|num|off|num]; simpl in *.
  - eapply wp_mono; [by apply GapBuffer_insertString_ok|].
    intros [b' r] (bs' & ? & ? & ?). exists bs', fs. done.
  - apply wp_bind. eapply wp_mono; [apply GapBuffer_removeForwards_ok; [done|lia]|].
    intros b' [??]. simpl. eauto 10.
  - apply wp_bind. eapply wp_mono; [apply GapBuffer_removeBackwards_ok; [done|lia]|].
    intros b' [??]. simpl. eauto 10.
  - apply wp_bind. eapply wp_mono; [by apply GapBuffer_moveRelative_ok|].
    intros b' [??]. simpl. eauto 10.
  - apply wp_bind. eapply wp_mono; [apply GapBuffer_moveAbsolute_ok; [done|lia]|].
    intros b' [??]. simpl. eauto 10.
Qed.

Lemma run_ops_ok ops b bs fs :
  repr b bs fs → Forall op_ok ops →
  wp (run_ops ops b) (λ '(b', rs), ∃ bs' fs',
    repr b' bs' fs' ∧ same_object b b' ∧ edits (total b) ops bs fs bs' fs' rs).
Proof.
  intros Hr Hops. revert b bs fs Hr. induction Hops as [|o ops Ho _ IH]; intros b bs fs Hr; simpl.
  - exists bs, fs. split_and!; [done..|constructor].
  - apply wp_bind. eapply wp_mono; [by apply gap_op_ok|].
    intros [b1 r] (bs1 & fs1 & Hr1 & (Hs1 & Hs2 & Hs3) & He). apply wp_bind.
    eapply wp_mono; [by apply IH|].
    intros [b2 rs] (bs2 & fs2 & Hr2 & (Hs4 & Hs5 & Hs6) & Hes). exists bs2, fs2.
    rewrite Hs3 in Hes. split_and!; [done|split_and!; congruence|by econstructor].
Qed.

Lemma edits_accepted cap ops bs fs bs' fs' rs :
  edits cap ops bs fs bs' fs' rs → Forall (λ s, ∃ v, accepted s v) (bs ++ fs) →
  Forall (λ s, ∃ v, accepted s v) (bs' ++ fs').
Proof. induction 1; eauto using edit_accepted. Qed.

(** C1.  Every history of operations on a created buffer runs through: the
    assertions the code marks as triggering sometimes never do.  It leaves the
    text of the corresponding edits of the empty text, always valid UTF-8 and
    within the capacity. *)
Theorem gap_history_safe addr mem fr freed b ops :
  0 ≤ addr < 2 ^ 64 → zlen mem < 2 ^ 64 →
  GapBuffer_createUsingMemory addr mem fr = (freed, Some b) → Forall op_ok ops →
  wp (run_ops ops b) (λ '(b', rs), ∃ bs fs,
    repr b' bs fs ∧ edits (total b) ops [] [] bs fs rs ∧
    valid_utf8 (concat (bs ++ fs)) ∧ zlen (concat (bs ++ fs)) = getByteCount b').
Proof.
  intros Ha Hm Hc Hops. destruct (createUsingMemory_ok _ _ _ _ _ Ha Hm Hc) as (Hr & _).
  eapply wp_mono; [by apply run_ops_ok|].
  intros [b' rs] (bs & fs & Hr' & _ & He). exists bs, fs. split_and!; [done..| |].
  - exists (bs ++ fs). split; [done|].
    by eapply edits_accepted.
  - pose proof (repr_bounds _ _ _ Hr') as (?&?&Ho&Ht&?&_&?). unfold getByteCount.
    rewrite concat_app, zlen_app, u64_small; lia.
Qed.

(** ** Lines *)

Abbreviation lines := (pieces LF).
Abbreviation not_LF := (λ c, negb (c =? LF)).

(** A scan over the text [t] finds its first line. *)
Lemma scan_line_ok pre t post stop i :
  i = zlen pre → stop = zlen pre + zlen t →
  ∃ l, scan_line (pre ++ t ++ post) stop i = Ret (i + zlen l) ∧
    Forall (λ c, not_LF c = true) l ∧
    ((t = l ∧ i + zlen l = stop) ∨ (∃ r, t = l ++ LF :: r ∧ i + zlen l < stop)).
Proof.
  intros -> ->. assert (∃ l, Forall (λ c, not_LF c = true) l ∧
    (t = l ∨ ∃ r, t = l ++ LF :: r)) as (l & Hl & Ht).
  { induction t as [|c t (l & Hl & Ht)]; [exists []; eauto|].
    destruct (Z.eqb_spec c LF) as [->|Hc]; [exists []; eauto|].
    exists (c :: l). split; [by constructor; [simpl; destruct (Z.eqb_spec c LF)|]|].
    destruct Ht as [->|(r & ->)]; eauto. }
  exists l. unfold scan_line. pose proof (zlen_nonneg l). pose proof (zlen_nonneg pre).
  pose proof (zlen_nonneg post). destruct Ht as [->|(r & ->)].
  - split_and!; [|done|left; split; [done|lia]].
    eapply skip_while_app; [done|done|zlen|done|lia].
  - pose proof (zlen_nonneg r). split_and!; [|done|right; exists r; split; [done|zlen]].
    rewrite <-app_assoc. eapply skip_while_app; [done|done|zlen|done|].
    intros _. exists LF. by eexists.
Qed.

(** Where an iterator stands: [t] is the text it has not delivered yet. *)
Definition iter_at (b : GapBuffer) (it : GapBufferIter) (t : list Z) : Prop :=
  zlen (maybe it) = sizeof_maybe ∧
  if crossed_gap it then ∃ pre, data b = pre ++ t ∧ cur it = zlen pre
  else ∃ pre rest gap after, data b = pre ++ rest ++ gap ++ after ∧ cur it = zlen pre ∧
         gap_offset b = zlen pre + zlen rest ∧ gap_length b = zlen gap ∧ t = rest ++ after.

(** What one call delivers: nothing at the end of the text, otherwise its
    next line. *)
Definition delivers (b : GapBuffer) (t : list Z)
    (out : GapBufferIter * option GapBufferLine) : Prop :=
  match out with
  | (_, None) => t = []
  | (it', Some line) => ∃ l t', lines t = l :: lines t' ∧ zlen t' < zlen t ∧ iter_at b it' t' ∧
                          line_bytes b it' line = Ret l
  end.

Lemma lines_split t l t' :
  Forall (λ c, not_LF c = true) l → t = l ∧ t' = [] ∨ t = l ++ LF :: t' → t ≠ [] →
  lines t = l :: lines t' ∧ zlen t' < zlen t.
Proof.
  intros Hl [[-> ->]| ->] Ht; pose proof (zlen_nonneg l).
  - rewrite pieces_last by done. split; [done|]. destruct l; [done|].
    rewrite zlen_cons. pose proof (zlen_nonneg l). unfold zlen at 1. simpl. lia.
  - rewrite pieces_sep by done. split; [done|zlen].
Qed.

(** The scan past the gap, and where it leaves the iterator. *)
Lemma scan_after_gap d pre t stop i :
  d = pre ++ t → i = zlen pre → stop = zlen d →
  ∃ l t', scan_line d stop i = Ret (i + zlen l) ∧ Forall (λ c, not_LF c = true) l ∧
    (t = l ∧ t' = [] ∧ (i + zlen l <? stop) = false ∨
     t = l ++ LF :: t' ∧ (i + zlen l <? stop) = true) ∧
    ∃ pre', d = pre' ++ t' ∧
            (if i + zlen l <? stop then i + zlen l + 1 else i + zlen l) = zlen pre'.
Proof.
  intros -> -> ->.
  destruct (scan_line_ok pre t [] (zlen (pre ++ t)) (zlen pre)) as (l & Hscan & Hl & Hcase);
    [done|zlen|]. rewrite app_nil_r in Hscan.
  destruct Hcase as [[-> He]|(r & -> & He)].
  - exists l, []. destruct (Z.ltb_spec (zlen pre + zlen l) (zlen (pre ++ l))); [zlen|].
    split_and!; [done|done|by left|]. exists (pre ++ l). rewrite app_nil_r. split; [done|zlen].
  - exists l, r. destruct (Z.ltb_spec (zlen pre + zlen l) (zlen (pre ++ l ++ LF :: r))); [|lia].
    split_and!; [done|done|by right|]. exists (pre ++ l ++ [LF]). rewrite <-!app_assoc.
    split; [done|]. rewrite !zlen_app, zlen_cons. unfold zlen. simpl. lia.
Qed.

Lemma rd_range_mid (d pre l post : list Z) off n :
  d = pre ++ l ++ post → off = zlen pre → n = zlen l → rd_range d off n = Ret l.
Proof. intros ->. apply rd_range_app. Qed.

Lemma iter_next_crossed b it t :
  iter_at b it t → crossed_gap it = true → total b = zlen (data b) →
  wp (GapBufferIter_next b it) (delivers b t).
Proof.
  intros [Hm Hat] Hcr Htot. unfold GapBufferIter_next. rewrite Hcr in *.
  destruct Hat as (pre & Hd & Hcur).
  destruct (scan_after_gap _ pre t _ (cur it) Hd Hcur Htot) as (l & t' & -> & Hl & Hcase & Hpre).
  cbn [mbind outcome_bind]. replace (cur it + zlen l - cur it) with (zlen l) by lia.
  destruct (decide (t = [])) as [->|Ht].
  { destruct Hcase as [(<- & -> & ->)|(? & _)]; [done|by destruct l]. }
  destruct (lines_split t l t') as [Hlines Hlt]; [done|by destruct Hcase as [(?&?&_)|(?&_)]; auto|done|].
  replace (negb _ && _) with false.
  2:{ destruct Hcase as [(-> & _ & ->)|(_ & ->)]; [|done]. destruct l; [done|].
      rewrite zlen_cons. pose proof (zlen_nonneg l). destruct (Z.eqb_spec (1 + zlen l) 0); lia. }
  exists l, t'. split_and!; [done..|by split|]. unfold line_bytes. rewrite Hd.
  destruct Hcase as [(-> & _)|(-> & _)].
  - eapply (rd_range_mid _ pre l []); [by rewrite app_nil_r|done..].
  - by apply rd_range_app.
Qed.

(** The line that spans the gap is put together in the array of the iterator. *)
Lemma maybe_line (m l1 l2 : list Z) :
  zlen m = sizeof_maybe → zlen l1 + zlen l2 ≤ sizeof_maybe →
  wp (m ← wr_range m 0 l1; wr_range m (zlen l1) l2) (λ m',
    zlen m' = sizeof_maybe ∧ rd_range m' 0 (zlen l1 + zlen l2) = Ret (l1 ++ l2)).
Proof.
  intros Hm Hfit. pose proof (zlen_nonneg l1). pose proof (zlen_nonneg l2).
  destruct (list_split3 m (zlen l1) (zlen l2)) as (a & c & e & -> & Ha & Hc & He); [lia..|].
  change (a ++ c ++ e) with ([] ++ a ++ c ++ e). rewrite wr_range_app by done.
  cbn [mbind outcome_bind app].
  rewrite wr_range_app by done. simpl. split; [zlen|].
  apply (rd_range_mid _ [] (l1 ++ l2) e); [by rewrite <-app_assoc|done|zlen].
Qed.

Lemma iter_next_before b it t :
  iter_at b it t → crossed_gap it = false → total b = zlen (data b) → total b < 2 ^ 64 →
  Forall (λ l, zlen l ≤ sizeof_maybe) (lines t) →
  wp (GapBufferIter_next b it) (delivers b t).
Proof.
  intros [Hm Hat] Hcr Htot Hmax Hshort. unfold GapBufferIter_next. rewrite Hcr in *.
  destruct Hat as (pre & rest & gap & after & Hd & Hcur & Hoff & Hlen & ->).
  destruct (scan_line_ok pre rest (gap ++ after) (gap_offset b) (cur it))
    as (l1 & Hscan & Hl1 & Hcase); [done|lia|]. rewrite <-Hd in Hscan. rewrite Hscan.
  cbn [mbind outcome_bind]. replace (cur it + zlen l1 - cur it) with (zlen l1) by lia.
  pose proof (zlen_nonneg l1). pose proof (zlen_nonneg pre). pose proof (zlen_nonneg gap).
  pose proof (zlen_nonneg after).
  destruct Hcase as [[-> He]|(r & -> & He)].
  - rewrite (proj2 (Z.eqb_eq _ _) He). pose proof Htot as Htot'. rewrite Hd, !zlen_app in Htot'.
    rewrite u64_small by lia.
    destruct (scan_after_gap (data b) (pre ++ l1 ++ gap) after (total b)
      (cur it + zlen l1 + gap_length b)) as (l2 & t' & -> & Hl2 & Hcase & Hpre);
      [by rewrite Hd, <-!app_assoc|rewrite !zlen_app; lia|done|].
    cbn [mbind outcome_bind]. set (o := cur it + zlen l1 + gap_length b) in *.
    replace (o + zlen l2 - o) with (zlen l2) by lia. pose proof (zlen_nonneg l2).
    destruct (decide (l1 ++ after = [])) as [Ht|Ht].
    { apply app_nil in Ht as [-> ->]. rewrite Hoff in *.
      destruct Hcase as [(<- & -> & ->)|(? & _)]; [done|by destruct l2]. }
    destruct (lines_split (l1 ++ after) (l1 ++ l2) t') as [Hlines Hlt]; [by apply Forall_app|
      destruct Hcase as [(-> & -> & _)|(-> & _)]; rewrite <-?app_assoc; auto|done|].
    replace (negb _ && _) with false.
    2:{ destruct Hcase as [(-> & _ & ->)|(_ & ->)]; [|done].
        destruct (Z.eqb_spec (zlen l1 + zlen l2) 0) as [Hz|]; [|done].
        rewrite <-zlen_app in Hz. by apply zlen_0_inv in Hz. }
    rewrite Hlines in Hshort. apply Forall_cons in Hshort as [Hfit _].
    rewrite zlen_app in Hfit. destruct (Z.ltb_spec sizeof_maybe (zlen l1 + zlen l2)); [lia|].
    rewrite (rd_range_mid (data b) pre l1 (gap ++ after) (cur it) (zlen l1) Hd Hcur eq_refl).
    assert (rd_range (data b) o (zlen l2) = Ret l2) as ->.
    { destruct Hcase as [(-> & _)|(-> & _)].
      - eapply (rd_range_mid _ (pre ++ l1 ++ gap) l2 []); [|rewrite !zlen_app; lia|done].
        by rewrite Hd, app_nil_r, <-!app_assoc.
      - eapply (rd_range_mid _ (pre ++ l1 ++ gap)); [|rewrite !zlen_app; lia|done].
        by rewrite Hd, <-!app_assoc. }
    cbn [mbind outcome_bind]. apply wp_bind. eapply wp_mono; [by apply (maybe_line _ l1 l2)|].
    intros m [Hm' Hrd]. exists (l1 ++ l2), t'. split_and!; [done..|by split|done].
  - destruct (Z.eqb_spec (cur it + zlen l1) (gap_offset b)); [lia|].
    destruct (lines_split ((l1 ++ LF :: r) ++ after) l1 (r ++ after)) as [Hlines Hlt];
      [done|right; by rewrite <-app_assoc|by destruct l1|].
    exists l1, (r ++ after). split_and!; [done..| |].
    + split; [done|]. exists (pre ++ l1 ++ [LF]), r, gap, after. rewrite Hd, <-!app_assoc.
      split; [done|]. simpl. zlen. split_and!; done || lia.
    + unfold line_bytes. rewrite Hd, <-app_assoc. by apply rd_range_app.
Qed.

Lemma iter_next_ok b it t :
  iter_at b it t → total b = zlen (data b) → total b < 2 ^ 64 →
  Forall (λ l, zlen l ≤ sizeof_maybe) (lines t) →
  wp (GapBufferIter_next b it) (delivers b t).
Proof.
  intros. destruct (crossed_gap it) eqn:?; [by apply iter_next_crossed|by apply iter_next_before].
Qed.

(** C31.  Of a text whose lines fit in the 512 bytes of the iterator's array, a
    client that iterates over the buffer reads exactly the lines, wherever the
    cursor is, and comes to an end.  A longer line that spans the gap makes the
    client read past the array: [long_line_overruns]. *)
Theorem read_lines_correct b bs fs mem :
  repr b bs fs → zlen mem = sizeof_maybe →
  Forall (λ l, zlen l ≤ sizeof_maybe) (lines (concat (bs ++ fs))) →
  read_lines b (GapBufferIter_init mem) = Ret (lines (concat (bs ++ fs))).
Proof.
  intros Hr Hmem Hshort. apply wp_eq_inv. unfold read_lines.
  pose proof (repr_bounds _ _ _ Hr) as (?&?&Ho&Ht&?&Hz&?).
  apply (wp_loop (λ '(it, acc), ∃ t, iter_at b it t ∧ zlen acc + zlen t ≤ total b ∧
           Forall (λ l, zlen l ≤ sizeof_maybe) (lines t) ∧
           acc ++ lines t = lines (concat (bs ++ fs)))
         (λ '(it, acc), Z.to_nat (total b + 1 - zlen acc))).
  - exists (concat (bs ++ fs)). rewrite concat_app at 2. rewrite zlen_app.
    change (zlen []) with 0. split_and!; [|lia|done..].
    split; [done|]. destruct Hr as (gap & Hd & _ & Hl & _). rewrite concat_app.
    exists [], (concat bs), gap, (concat fs). simpl. by rewrite Ho.
  - change (zlen []) with 0. lia.
  - intros [it acc] (t & Hat & Hlt & Hs & Hacc). apply wp_bind.
    eapply wp_mono; [by apply iter_next_ok|]. intros [it' [line|]]; simpl.
    + intros (l & t' & Hl & Hlt' & Hat' & ->). cbn.
      pose proof (zlen_nonneg t'). rewrite Hl in Hs, Hacc.
      apply Forall_cons in Hs as [_ Hs]. rewrite zlen_app. change (zlen [l]) with 1.
      split; [|lia]. exists t'. split_and!; [done|lia|done|by rewrite <-app_assoc].
    + intros ->. by rewrite app_nil_r in Hacc.
Qed.

(** ** Two deviations *)

(** When the text does not fit, the relocating insertion moves to a new buffer
    that holds the inserted string only: the old text is gone with the old
    buffer. *)
Lemma insertStringMaybeRelocate_loses_text malloc b bs fs syms a mem :
  repr b bs fs → Forall (λ s, ∃ v, accepted s v) syms →
  gap_length b < zlen (concat syms) → getByteCount b + zlen (concat syms) < 2 ^ 63 →
  malloc (sizeof_GapBuffer + (getByteCount b + zlen (concat syms))) = (a, mem) →
  0 < a < 2 ^ 64 → a mod alignof_GapBuffer = 0 →
  zlen mem = sizeof_GapBuffer + (getByteCount b + zlen (concat syms)) →
  wp (GapBuffer_insertStringMaybeRelocate malloc b (concat syms)) (λ '(b', freed, r),
    r = true ∧ freed = GapBuffer_destroy b ∧ repr b' syms []).
Proof.
  intros Hr Hacc Hfull Hmax Hmalloc Ha Hal Hmem.
  pose proof (repr_bounds _ _ _ Hr) as (?&?&Ho&Ht&?&Hz&?).
  assert (Forall is_symbol syms) as Hsyms.
  { eapply Forall_impl; [done|]. intros s [v Hs]. by eapply accepted_symbol. }
  assert (isValidUTF8 (concat syms) (zlen (concat syms)) = Ret true) as Hv.
  { destruct (isValidUTF8_ok (concat syms)) as (v & -> & Hv). f_equal. apply Hv. by exists syms. }
  assert (0 ≤ getByteCount b) by (unfold getByteCount; apply u64_range).
  pose proof (zlen_nonneg (concat syms)).
  assert (GapBuffer_insertString b (concat syms) = Ret (b, false)) as Hfail.
  { unfold GapBuffer_insertString, insertBytesBeforeCursor. rewrite Hv. simpl.
    by destruct (Z.ltb_spec (gap_length b) (zlen (concat syms))); [|lia]. }
  unfold GapBuffer_insertStringMaybeRelocate. rewrite Hfail. cbn [mbind outcome_bind negb].
  unfold GapBuffer_create. rewrite (u64_small (getByteCount b + _)) by lia.
  unfold sizeof_GapBuffer in *. rewrite u64_small by lia. rewrite Hmalloc.
  unfold GapBuffer_createUsingMemory. rewrite land_7. unfold alignof_GapBuffer, u64 in *.
  replace (_ mod 8) with 0.
  2:{ change (2 ^ 64) with (8 * 2 ^ 61). rewrite Z.rem_mul_r by lia. lia. }
  destruct (Z.eqb_spec a 0); [lia|]. unfold sizeof_GapBuffer.
  destruct (Z.ltb_spec (zlen mem) 0), (Z.ltb_spec (zlen mem - 0) 32); [lia..|].
  set (b2 := mkGapBuffer _ _ _ _ _ _).
  assert (repr b2 [] []) as Hr2.
  { exists (data b2). cbn. rewrite app_nil_r, zlen_drop by lia. split_and!; done || lia. }
  unfold GapBuffer_insertString. rewrite Hv. cbn [mbind outcome_bind negb]. apply wp_bind.
  eapply wp_mono; [apply (insertBytesBeforeCursor_ok b2 [] [] syms Hr2 Hsyms)|].
  - cbn. lia.
  - intros [b' r] (-> & Hr' & _). cbn. done.
Qed.

(** A line longer than the iterator's array that spans the gap is announced
    with its full length: reading it runs over the array. *)
Lemma long_line_overruns :
  ∃ b bs fs mem it' line,
    repr b bs fs ∧ zlen mem = sizeof_maybe ∧
    GapBufferIter_next b (GapBufferIter_init mem) = Ret (it', Some line) ∧
    line_bytes b it' line = Fail OutOfBounds.
Proof.
  set (bs := replicate 300 [c_a]).
  exists (mkGapBuffer 8 false 300 1 601 (concat bs ++ [0] ++ concat bs)), bs, bs,
    (replicate 512 0). do 2 eexists. split; [|split; [|split]].
  - exists [0]. split_and!; try done.
    all: apply Forall_replicate; exists c_a, []; split_and!; done || constructor.
  - done.
  - vm_compute. reflexivity.
  - vm_compute. reflexivity.
Qed.

(** ** Witnesses *)

Lemma gap_history_safe_witness :
  wp (run_ops [InsertString (chars "ciao"); MoveRelative (-2); InsertString (chars "+");
               RemoveForwards 1; MoveAbsolute 1; RemoveBackwards 7]
        (mkGapBuffer 1000 true 0 16 16 (replicate 16 0))) (λ '(b', rs), ∃ bs fs,
    repr b' bs fs ∧ edits 16 [InsertString (chars "ciao"); MoveRelative (-2);
      InsertString (chars "+"); RemoveForwards 1; MoveAbsolute 1; RemoveBackwards 7]
      [] [] bs fs rs ∧
    valid_utf8 (concat (bs ++ fs)) ∧ zlen (concat (bs ++ fs)) = getByteCount b').
Proof.
  apply (gap_history_safe 1000 (replicate 48 0) true []
           (mkGapBuffer 1000 true 0 16 16 (replicate 16 0))).
  - lia.
  - vm_compute. reflexivity.
  - vm_compute. reflexivity.
  - repeat constructor; vm_compute; reflexivity || discriminate.
Defined.

(** The text "ab|c" with a gap of two. *)
Definition example_buffer : GapBuffer := mkGapBuffer 64 false 2 2 5 [c_a; 98; 0; 0; 99].

Lemma example_repr : repr example_buffer [[c_a]; [98]] [[99]].
Proof.
  exists [0; 0]. split_and!; try done.
  all: repeat constructor; eexists _, []; split_and!; done || constructor.
Defined.

Lemma cloneUsingMemory_correct_witness :
  wp (GapBuffer_cloneUsingMemory 1000 (replicate 48 0) true example_buffer) (λ '(freed', r),
    if 3 <=? 16 then
      freed' = [] ∧ ∃ c, r = Some c ∧ repr c [[c_a]; [98]] [[99]] ∧
        same_object (mkGapBuffer 1000 true 0 16 16 (replicate 16 0)) c
    else r = None ∧ freed' = [1000]).
Proof.
  apply (cloneUsingMemory_correct 1000 (replicate 48 0) true example_buffer [[c_a]; [98]] [[99]] []
           (mkGapBuffer 1000 true 0 16 16 (replicate 16 0))).
  - apply example_repr.
  - lia.
  - vm_compute. reflexivity.
  - vm_compute. reflexivity.
Defined.

Lemma read_lines_correct_witness :
  read_lines example_buffer (GapBufferIter_init (replicate 512 0)) = Ret [[c_a; 98; 99]].
Proof.
  apply (read_lines_correct example_buffer [[c_a]; [98]] [[99]] (replicate 512 0)).
  - apply example_repr.
  - vm_compute. reflexivity.
  - repeat constructor. vm_compute. discriminate.
Defined.
