(* ===== verification/ByteQueue.v ===== *)
(** The byte queue of [src/tcp/byte_queue.c]: the buffers of a connection, one
    array with a consumed prefix, the queued bytes and free space. *)
From S2P Require Import Prelude.

(** ** The code *)

(** [data] is the allocated array, empty for NULL. *)
Record ByteQueue : Type := mkByteQueue {
  data : list Z;
  head : Z;
  size : Z;
  capacity : Z;
}.

Definition byte_queue_init : ByteQueue := mkByteQueue [] 0 0 0.

(** The fields stay; no byte of the freed array may be touched any more. *)
Definition byte_queue_free (q : ByteQueue) : ByteQueue := mkByteQueue [] (head q) (size q) (capacity q).

Definition byte_queue_used_space (q : ByteQueue) : Z := size q.

Definition byte_queue_free_space (q : ByteQueue) : Z :=
  u64 (u64 (capacity q - size q) - head q).

(** [malloc n] is the block the environment returns, [None] for NULL. *)
Definition byte_queue_ensure_min_free_space (malloc : Z → option (list Z))
    (q : ByteQueue) (num : Z) : outcome (ByteQueue * bool) :=
  let total_free_space := u64 (capacity q - size q) in
  let free_space_after_data := u64 (u64 (capacity q - size q) - head q) in
  if free_space_after_data <? num then
    if total_free_space <? num then
      let capacity' := u64 (2 * capacity q) in
      let capacity' := if u64 (capacity' - size q) <? num then u64 (size q + num) else capacity' in
      match malloc capacity' with
      | None => Ret (q, false)
      | Some block =>
          d ← (if 0 <? size q then
                 s ← rd_range (data q) (head q) (size q);
                 wr_range block 0 s
               else Ret block);
          Ret (mkByteQueue d (head q) (size q) capacity', true)
      end
    else
      s ← rd_range (data q) (head q) (size q);
      d ← wr_range (data q) 0 s;
      Ret (mkByteQueue d 0 (size q) (capacity q), true)
  else Ret (q, true).

(** The offsets in the array of the two pointers handed out. *)
Definition byte_queue_start_write (q : ByteQueue) : Z := head q + size q.
Definition byte_queue_start_read (q : ByteQueue) : Z := head q.

Definition byte_queue_end_write (q : ByteQueue) (num : Z) : ByteQueue :=
  mkByteQueue (data q) (head q) (u64 (size q + num)) (capacity q).

Definition byte_queue_end_read (q : ByteQueue) (num : Z) : ByteQueue :=
  mkByteQueue (data q) (u64 (head q + num)) (u64 (size q - num)) (capacity q).

(** A client's write and read: reserve, copy through the pointer, commit. *)
Definition put (malloc : Z → option (list Z)) (q : ByteQueue) (s : list Z)
    : outcome (ByteQueue * bool) :=
  '(q, ok) ← byte_queue_ensure_min_free_space malloc q (zlen s);
  if negb ok then Ret (q, false)
  else
    d ← wr_range (data q) (byte_queue_start_write q) s;
    Ret (byte_queue_end_write (mkByteQueue d (head q) (size q) (capacity q)) (zlen s), true).

Definition get (q : ByteQueue) (num : Z) : outcome (ByteQueue * list Z) :=
  s ← rd_range (data q) (byte_queue_start_read q) num;
  Ret (byte_queue_end_read q num, s).

(** ** The queue of bytes *)

(** [content q xs]: the queue holds the bytes [xs], in order. *)
Definition content (q : ByteQueue) (xs : list Z) : Prop :=
  ∃ pre post, data q = pre ++ xs ++ post ∧ head q = zlen pre ∧ size q = zlen xs ∧
    capacity q = zlen (data q) ∧ capacity q < 2 ^ 62.

(** The environment returns blocks of the size asked for. *)
Definition malloc_ok (malloc : Z → option (list Z)) : Prop :=
  ∀ n block, 0 ≤ n → malloc n = Some block → zlen block = n.

(** The reservation does not have to resize a queue with a consumed prefix. *)
Definition no_shifted_resize (q : ByteQueue) (num : Z) : Prop :=
  head q = 0 ∨ num ≤ capacity q - size q.

Lemma content_init : content byte_queue_init [].
Proof. exists [], []. done. Qed.

Lemma content_bounds q xs :
  content q xs → 0 ≤ head q ∧ size q = zlen xs ∧ 0 ≤ size q ∧
    head q + size q ≤ capacity q ∧ capacity q = zlen (data q) ∧ capacity q < 2 ^ 62 ∧
    byte_queue_free_space q = capacity q - size q - head q ∧
    rd_range (data q) (head q) (size q) = Ret xs.
Proof.
  intros (pre & post & Hd & Hh & Hs & Hc & Hm). pose proof (zlen_nonneg pre).
  pose proof (zlen_nonneg xs). pose proof (zlen_nonneg post). rewrite Hd, !zlen_app in Hc.
  unfold byte_queue_free_space. rewrite (u64_small (capacity q - size q)), u64_small by lia.
  rewrite Hd, !zlen_app. split_and!; try lia. by rewrite rd_range_app by lia.
Qed.

(** Growing copies to the start of the new block. *)
Lemma ensure_resize (malloc : Z → option (list Z)) q xs num block cap :
  content q xs → head q = 0 → size q + num ≤ cap < 2 ^ 62 → 0 ≤ num → zlen block = cap →
  wp (d ← (if 0 <? size q then s ← rd_range (data q) (head q) (size q); wr_range block 0 s
           else Ret block);
      Ret (mkByteQueue d (head q) (size q) cap, true)) (λ '(q', r),
    r = true ∧ content q' xs ∧ num ≤ byte_queue_free_space q').
Proof.
  intros Hq Hh Hcap Hnum Hb.
  destruct (content_bounds _ _ Hq) as (?&Hs&?&?&?&?&_&->). cbn [mbind outcome_bind].
  destruct (list_split3 block 0 (zlen xs)) as (b0 & b1 & b2 & -> & ->%zlen_0_inv & Hb1 & Hb2);
    [lia..|]. simpl in *.
  assert (wp (if 0 <? size q then wr_range (b1 ++ b2) 0 xs else Ret (b1 ++ b2))
            (λ d, d = xs ++ b2)) as Hw.
  { destruct (Z.ltb_spec 0 (size q)).
    - change (b1 ++ b2) with ([] ++ b1 ++ b2). by rewrite wr_range_app.
    - simpl. assert (xs = []) as -> by (apply zlen_0_inv; lia).
      by assert (b1 = []) as -> by (apply zlen_0_inv; zlen). }
  apply wp_bind. eapply wp_mono; [exact Hw|]. intros d ->. cbn.
  rewrite zlen_app in *. split_and!; [done| |].
  - exists [], b2. cbn. rewrite zlen_app. split_and!; try done; lia.
  - unfold byte_queue_free_space. cbn. rewrite (u64_small (cap - _)), u64_small; lia.
Qed.

(** Reservation: the content stays and the free space asked for follows it,
    unless the environment has no memory. *)
Lemma ensure_ok malloc q xs num :
  content q xs → malloc_ok malloc → 0 ≤ num < 2 ^ 60 → capacity q < 2 ^ 60 →
  no_shifted_resize q num →
  wp (byte_queue_ensure_min_free_space malloc q num) (λ '(q', r),
    content q' xs ∧ (r = true → num ≤ byte_queue_free_space q') ∧
    (r = false → q' = q ∧ ∃ n, malloc n = None)).
Proof.
  intros Hq Hmalloc Hnum Hcap Hshift.
  destruct (content_bounds _ _ Hq) as (?&Hs&?&?&?&?&Hf&Hrd).
  unfold byte_queue_ensure_min_free_space. fold (byte_queue_free_space q). rewrite Hf.
  rewrite !(u64_small (capacity q - size q)) by lia.
  destruct (Z.ltb_spec (capacity q - size q - head q) num); cycle 1.
  { simpl. split_and!; [done|by rewrite Hf|done]. }
  destruct (Z.ltb_spec (capacity q - size q) num).
  - destruct Hshift as [Hh|]; [|lia].
    rewrite (u64_small (2 * _)), (u64_small (_ - size q)), (u64_small (size q + num)) by lia.
    set (cap := if _ <? _ then _ else _).
    assert (size q + num ≤ cap < 2 ^ 62) as Hc.
    { unfold cap. destruct (Z.ltb_spec (2 * capacity q - size q) num); lia. }
    destruct (malloc cap) as [block|] eqn:Hm; [|cbn; split_and!; [done|done|eauto]].
    eapply wp_mono; [eapply ensure_resize; [done..|lia|apply Hmalloc; [lia|done]]|].
    intros [q' r] (-> & ? & ?). done.
  - rewrite Hrd. cbn [mbind outcome_bind].
    destruct Hq as (pre & post & Hd & Hh & _ & Hc & ?).
    destruct (list_split3 (data q) 0 (zlen xs))
      as (b0 & b1 & b2 & Hb & ->%zlen_0_inv & Hb1 & Hb2); [lia..|]. rewrite Hb.
    rewrite wr_range_app by done. cbn. split_and!; [|intros _|done].
    + exists [], b2. cbn. rewrite Hb in Hc. rewrite Hc. zlen. split_and!; done || lia.
    + unfold byte_queue_free_space. cbn. rewrite (u64_small (capacity q - _)), u64_small; lia.
Qed.

(** C27.  The queue is first in, first out as long as its array does not have
    to grow after a read: a read of up to the size takes its bytes from the
    front of the content, and a write for which there is room besides the
    content, or before which nothing was read since the bytes last stood at the
    start of the array ([no_shifted_resize]), appends its bytes to the content,
    or finds no memory and changes nothing; neither leaves the array.  (Below
    2^60 bytes, and with a [malloc] that gives what it is asked for.)  Growth
    after a read loses bytes: [shifted_resize_corrupts]. *)
Theorem byte_queue_fifo malloc q xs :
  content q xs → malloc_ok malloc → capacity q < 2 ^ 60 →
  (∀ s, zlen s < 2 ^ 60 → no_shifted_resize q (zlen s) →
     wp (put malloc q s) (λ '(q', r),
       content q' (if r : bool then xs ++ s else xs) ∧
       (r = false → q' = q ∧ ∃ n, malloc n = None))) ∧
  (∀ n, 0 ≤ n ≤ byte_queue_used_space q →
     wp (get q n) (λ '(q', s), ∃ xs', xs = s ++ xs' ∧ zlen s = n ∧ content q' xs')).
Proof.
  intros Hq Hmalloc Hcap. split.
  - intros s Hs Hshift. pose proof (zlen_nonneg s). unfold put. apply wp_bind.
    eapply wp_mono; [by apply (ensure_ok malloc q xs)|].
    intros [q' []] (Hq' & Htrue & Hfalse); [|by cbn; auto].
    specialize (Htrue eq_refl). destruct (content_bounds _ _ Hq') as (?&?&?&?&?&?&Hf&_).
    rewrite Hf in Htrue. destruct Hq' as (pre & post & Hd & Hh & Hsz & Hc & Hmax).
    destruct (list_split3 post 0 (zlen s)) as (p0 & p1 & p2 & -> & ->%zlen_0_inv & Hp1 & Hp2);
      [lia..|rewrite Hd, !zlen_app in Hc; lia|].
    rewrite Hd, !zlen_app in Hc. unfold byte_queue_start_write. cbn [negb].
    rewrite Hd. change ([] ++ p1 ++ p2) with (p1 ++ p2).
    rewrite (app_assoc pre), wr_range_app by zlen. cbn. split; [|done].
    exists pre, p2. cbn. rewrite u64_small, <-!app_assoc by lia.
    split; [done|zlen].
  - intros n Hn. unfold byte_queue_used_space in Hn.
    destruct (content_bounds _ _ Hq) as (?&?&?&?&?&?&_).
    destruct Hq as (pre & post & Hd & Hh & Hsz & Hc & Hmax).
    destruct (list_split3 xs 0 n) as (p0 & p1 & p2 & -> & ->%zlen_0_inv & Hp1 & Hp2); [lia..|].
    unfold get, byte_queue_start_read. rewrite Hd. simpl ([] ++ _). rewrite <-app_assoc.
    rewrite rd_range_app by done. cbn. exists p2. split_and!; [done..|].
    exists (pre ++ p1), post. cbn. rewrite Hd, !u64_small by (zlen). rewrite <-!app_assoc.
    split; [done|]. rewrite Hd in Hc. zlen.
Qed.

(** Growing a queue that was read from: the bytes move to the start of the new
    block, the head does not.  After "abcd" in, two out and "efgh" in, the
    bytes "cd" are lost. *)
Lemma shifted_resize_corrupts :
  let malloc n := Some (replicate (Z.to_nat n) 0) in
  ∃ q1 q2 q3 q4 s,
    put malloc byte_queue_init (chars "abcd") = Ret (q1, true) ∧
    get q1 2 = Ret (q2, chars "ab") ∧ content q2 (chars "cd") ∧
    put malloc q2 (chars "efgh") = Ret (q3, true) ∧ byte_queue_used_space q3 = 6 ∧
    get q3 6 = Ret (q4, s) ∧ s ≠ chars "cdefgh".
Proof.
  do 5 eexists. split; [vm_compute; reflexivity|]. split; [vm_compute; reflexivity|].
  split; [by exists (chars "ab"), []|]. split; [vm_compute; reflexivity|].
  split; [vm_compute; reflexivity|]. split; [vm_compute; reflexivity|discriminate].
Qed.

Lemma byte_queue_fifo_witness :
  let malloc n := Some (replicate (Z.to_nat n) 0) in
  wp (put malloc (mkByteQueue (chars "abcd") 1 2 4) (chars "ef")) (λ '(q', r),
    content q' (if r : bool then chars "bc" ++ chars "ef" else chars "bc") ∧
    (r = false → q' = mkByteQueue (chars "abcd") 1 2 4 ∧ ∃ n, malloc n = None)) ∧
  wp (get (mkByteQueue (chars "abcd") 1 2 4) 1) (λ '(q', s), ∃ xs',
    chars "bc" = s ++ xs' ∧ zlen s = 1 ∧ content q' xs').
Proof.
  cbv zeta.
  assert (content (mkByteQueue (chars "abcd") 1 2 4) (chars "bc")) as Hq
    by (exists (chars "a"), (chars "d"); split_and!; done).
  assert (malloc_ok (λ n, Some (replicate (Z.to_nat n) 0))) as Hm.
  { intros n block Hn [= <-]. rewrite zlen_replicate. lia. }
  destruct (byte_queue_fifo (λ n, Some (replicate (Z.to_nat n) 0)) _ _ Hq Hm) as [Hput Hget];
    [vm_compute; reflexivity|]. split.
  - apply (Hput (chars "ef")); [vm_compute; reflexivity|right; vm_compute; discriminate].
  - apply (Hget 1). vm_compute. split; discriminate.
Defined.
