(* ===== verification/FiniteMap.v ===== *)
(** What the two maps of [src/hashmap] promise to their clients: the operations
    of a finite map from words to non-zero words. *)
From S2P Require Import Prelude.

(** An implementation: [fm_models m g] relates its states to the maps they
    store, [fm_ready m o] is the condition under which it can serve the
    operation [o]. *)
Inductive map_op : Type :=
  | Insert (k v : Z)
  | Remove (k : Z)
  | Select (k : Z)
  | Count.

Class FiniteMap (M : Type) : Type := {
  fm_insert : M → Z → Z → outcome M;
  fm_remove : M → Z → outcome (M * bool);
  fm_select : M → Z → outcome (M * Z);
  fm_count : M → outcome (M * Z);
  fm_models : M → gmap Z Z → Prop;
  fm_ready : M → map_op → Prop;
  fm_insert_ok m g k v : fm_models m g → fm_ready m (Insert k v) → v ≠ 0 →
    wp (fm_insert m k v) (λ m', fm_models m' (<[k := v]> g));
  fm_remove_ok m g k : fm_models m g → fm_ready m (Remove k) →
    wp (fm_remove m k) (λ '(m', r), fm_models m' (delete k g) ∧ r = bool_decide (is_Some (g !! k)));
  fm_select_ok m g k : fm_models m g → fm_ready m (Select k) →
    wp (fm_select m k) (λ '(m', v), fm_models m' g ∧ v = default 0 (g !! k));
  fm_count_ok m g : fm_models m g → fm_ready m Count →
    wp (fm_count m) (λ '(m', n), fm_models m' g ∧ n = Z.of_nat (size g));
}.

Lemma zlen_map_to_list (g : gmap Z Z) : zlen (map_to_list g) = Z.of_nat (size g).
Proof. unfold zlen. by rewrite length_map_to_list. Qed.

(** The answer of an operation, and its effect on the stored map. *)
Definition answer (o : map_op) (g : gmap Z Z) : Z :=
  match o with
  | Insert _ _ => 0
  | Remove k => if decide (is_Some (g !! k)) then 1 else 0
  | Select k => default 0 (g !! k)
  | Count => Z.of_nat (size g)
  end.
Definition effect (o : map_op) (g : gmap Z Z) : gmap Z Z :=
  match o with
  | Insert k v => <[k := v]> g
  | Remove k => delete k g
  | Select k => g
  | Count => g
  end.
Definition valid_op (o : map_op) : Prop :=
  match o with Insert _ v => v ≠ 0 | _ => True end.

Fixpoint answers (ops : list map_op) (g : gmap Z Z) : list Z :=
  match ops with [] => [] | o :: ops => answer o g :: answers ops (effect o g) end.

Section script.
Context {M : Type} `{FiniteMap M}.

Definition run_op (o : map_op) (m : M) : outcome (M * Z) :=
  match o with
  | Insert k v => m ← fm_insert m k v; Ret (m, 0)
  | Remove k => '(m, r) ← fm_remove m k; Ret (m, if r : bool then 1 else 0)
  | Select k => fm_select m k
  | Count => fm_count m
  end.

Fixpoint run_script (ops : list map_op) (m : M) : outcome (M * list Z) :=
  match ops with
  | [] => Ret (m, [])
  | o :: ops =>
      '(m, r) ← run_op o m;
      '(m, rs) ← run_script ops m;
      Ret (m, r :: rs)
  end.

(** Each state the script comes through is ready for its next operation. *)
Fixpoint ready_along (ops : list map_op) (m : M) : Prop :=
  match ops with
  | [] => True
  | o :: ops => fm_ready m o ∧ ∀ m' r, run_op o m = Ret (m', r) → ready_along ops m'
  end.

Lemma run_op_ok o m g :
  fm_models m g → fm_ready m o → valid_op o →
  wp (run_op o m) (λ '(m', r), fm_models m' (effect o g) ∧ r = answer o g).
Proof.
  intros Hm Hr Hv. destruct o as [k v|k|k|]; simpl in *.
  - apply wp_bind. eapply wp_mono; [by eapply fm_insert_ok|]. by intros m' ?.
  - apply wp_bind. eapply wp_mono; [by eapply fm_remove_ok|]. intros [m' r] [? ->].
    split; [done|]. by repeat case_decide; case_bool_decide.
  - eapply wp_mono; [by eapply fm_select_ok|]. by intros [m' r].
  - eapply wp_mono; [by eapply fm_count_ok|]. by intros [m' n].
Qed.

Lemma run_script_ok ops m g :
  fm_models m g → ready_along ops m → Forall valid_op ops →
  wp (run_script ops m) (λ '(m', rs), fm_models m' (foldl (flip effect) g ops) ∧ rs = answers ops g).
Proof.
  intros Hm Hr Hv. revert m g Hm Hr. induction Hv as [|o ops Ho _ IH]; intros m g Hm Hr; [done|].
  destruct Hr as [Hr Hrs]. simpl. apply wp_bind.
  destruct (wp_inv _ _ (run_op_ok o m g Hm Hr Ho)) as ([m' r] & Hrun & Hm' & ->).
  rewrite Hrun. simpl. apply wp_bind. eapply wp_mono; [by eapply IH, Hrs|].
  intros [m'' rs] [? ->]. done.
Qed.
End script.
