(* ===== verification/HashMap.v ===== *)
(** The open-addressing hash map of [src/hashmap/hash_map.c] and the reference
    map of [src/hashmap/hash_map_ref.c], against finite maps. *)
From S2P Require Import Prelude Bits FiniteMap.

(** ** The code *)

Inductive slot_state : Set := UNUSED | USED | DELETED.

#[global] Instance slot_state_eq_dec : EqDecision slot_state.
Proof. solve_decision. Defined.

Record item_t : Type := mkItem {
  state : slot_state;
  value : Z;
  key : Z;
}.

(** [mutex] is the number of times the running thread holds the lock. *)
Record hashmap_t : Type := mkHashmap {
  pool : list item_t;
  size : Z;
  used : Z;
  mutex : Z;
}.

(** The critical sections of Windows can be entered again by their owner, the
    default mutexes of Linux cannot. *)
Inductive platform : Set := Windows | Linux.

Definition os_mutex_lock (pl : platform) (m : Z) : outcome Z :=
  match pl with
  | Windows => Ret (m + 1)
  | Linux => if 0 <? m then Fail Deadlock else Ret (m + 1)
  end.
Definition os_mutex_unlock (m : Z) : Z := m - 1.

Definition next_pow2 (v : Z) : Z :=
  let v := s32 (v - 1) in
  let v := Z.lor v (Z.shiftr v 1) in
  let v := Z.lor v (Z.shiftr v 2) in
  let v := Z.lor v (Z.shiftr v 4) in
  let v := Z.lor v (Z.shiftr v 8) in
  let v := Z.lor v (Z.shiftr v 16) in
  s32 (v + 1).

Definition is_pow2 (val : Z) : bool := Z.land val (s32 (val - 1)) =? 0.

Definition hashfunc (x : Z) : Z :=
  let h := u64 (x + 0x9e3779b97f4a7c15) in
  let h := Z.lxor h (Z.shiftr h 30) in
  let h := u64 (h * 0xbf58476d1ce4e5b9) in
  let h := Z.lxor h (Z.shiftr h 27) in
  let h := u64 (h * 0x94d049bb133111eb) in
  Z.lxor h (Z.shiftr h 31).

Definition mark_unused (it : item_t) : item_t := mkItem UNUSED (value it) (key it).

(** The system's allocation of [n] items: what the new memory reads as at each
    index, or [None] when the system has none, on which [os_alloc] aborts. *)
Definition allocator : Type := Z → option (nat → item_t).

Definition os_alloc (alloc : allocator) (n : Z) : outcome (list item_t) :=
  match alloc n with
  | Some fresh => Ret (fresh <$> seq 0 (Z.to_nat n))
  | None => Fail Aborted
  end.

(** Allocation and the loop that marks every slot as unused. *)
Definition fresh_pool (alloc : allocator) (n : Z) : outcome (list item_t) :=
  block ← os_alloc alloc n; Ret (mark_unused <$> (block : list item_t)).

Definition hashmap_create (alloc : allocator) (init_size : Z) : outcome hashmap_t :=
  let init_size := if init_size <? 8 then 8 else init_size in
  let init_size := next_pow2 init_size in
  p ← fresh_pool alloc init_size;
  Ret (mkHashmap p init_size 0 0).

Definition hashmap_count (pl : platform) (m : hashmap_t) : outcome (hashmap_t * Z) :=
  lk ← os_mutex_lock pl (mutex m);
  Ret (mkHashmap (pool m) (size m) (used m) (os_mutex_unlock lk), used m).

Definition should_resize (m : hashmap_t) : bool := s32 (size m * 7) <=? s32 (used m * 10).

(** The next index of the probing sequence, and the shifted perturbation. *)
Definition next_probe (mask i pert : Z) : Z * Z :=
  let pert := Z.shiftr pert 5 in
  (Z.land (u64 (i * 5 + pert + 1)) mask, pert).

(** More iterations than the probing of a pool of [n] slots takes to come
    across each of them. *)
Definition probe_fuel (n : Z) : nat := S (Z.to_nat (14 + n)).

(** The search of an insertion: [inr] of the index to insert at, -1 when the
    value of an entry of the key was replaced in the pool. *)
Definition insert_search (p : list item_t) (mask hash k v : Z)
    : outcome (list item_t * Z) :=
  loop (probe_fuel (mask + 1))
    (λ '(i, pert, insert_index),
       item ← rd p i;
       if decide (state item = UNUSED ∨ state item = DELETED) then
         let insert_index := if insert_index <? 0 then i else insert_index in
         if decide (state item = UNUSED) then break (p, insert_index)
         else
           let '(i, pert) := next_probe mask i pert in
           continue (i, pert, insert_index)
       else
         _ ← c_assert (bool_decide (state item = USED));
         if key item =? k then
           p ← wr p i (mkItem (state item) v (key item));
           break (p, -1)
         else
           let '(i, pert) := next_probe mask i pert in
           continue (i, pert, insert_index))
    (Z.land hash mask, hash, -1).

(** The part of [hashmap_insert] after the resizing. *)
Definition insert_tail (m : hashmap_t) (k v : Z) : outcome hashmap_t :=
  _ ← c_assert (used m <? size m);
  _ ← c_assert (is_pow2 (size m));
  let mask := size m - 1 in
  '(p, insert_index) ← insert_search (pool m) mask (hashfunc k) k v;
  if -1 <? insert_index then
    p ← wr p insert_index (mkItem USED v k);
    Ret (mkHashmap p (size m) (used m + 1) (os_mutex_unlock (mutex m)))
  else Ret (mkHashmap p (size m) (used m) (os_mutex_unlock (mutex m))).

(** [hashmap_insert], up to its mutual recursion with [resize]: [resize_ m n]
    is the call [resize(map, n)]. *)
Definition insert_body (pl : platform) (resize_ : hashmap_t → Z → outcome hashmap_t)
    (m : hashmap_t) (k v : Z) : outcome hashmap_t :=
  lk ← os_mutex_lock pl (mutex m);
  let m := mkHashmap (pool m) (size m) (used m) lk in
  _ ← c_assert (negb (v =? 0));
  m ← (if should_resize m then resize_ m (s32 (2 * size m)) else Ret m);
  insert_tail m k v.

Definition resize (alloc : allocator) (insert_ : hashmap_t → Z → Z → outcome hashmap_t)
    (m : hashmap_t) (new_size : Z) : outcome hashmap_t :=
  let new_size := if new_size <? used m then used m else new_size in
  let new_size := if new_size <? 8 then 8 else new_size in
  let new_size := next_pow2 new_size in
  new_pool ← fresh_pool alloc new_size;
  let old_pool := pool m in
  foldl (λ r item, m ← r;
           if decide (state item = USED) then insert_ m (key item) (value item) else Ret m)
    (Ret (mkHashmap new_pool new_size 0 (mutex m))) old_pool.

(** [depth] bounds the nesting of insertions in resizings. *)
Fixpoint hashmap_insert_ (pl : platform) (alloc : allocator) (depth : nat)
    (m : hashmap_t) (k v : Z) : outcome hashmap_t :=
  match depth with
  | O => Fail OutOfFuel
  | S depth => insert_body pl (resize alloc (hashmap_insert_ pl alloc depth)) m k v
  end.

Definition hashmap_insert (pl : platform) (alloc : allocator) : hashmap_t → Z → Z → outcome hashmap_t :=
  hashmap_insert_ pl alloc 2.

Definition hashmap_remove (pl : platform) (m : hashmap_t) (k : Z) : outcome (hashmap_t * bool) :=
  let hash := hashfunc k in
  lk ← os_mutex_lock pl (mutex m);
  if size m =? 0 then Ret (mkHashmap (pool m) (size m) (used m) (os_mutex_unlock lk), false)
  else
    _ ← c_assert (is_pow2 (size m));
    let mask := size m - 1 in
    '(p, found) ← loop (probe_fuel (size m))
      (λ '(i, pert),
         item ← rd (pool m) i;
         if decide (state item = UNUSED) then break (pool m, false)
         else if decide (state item = USED ∧ key item = k) then
           p ← wr (pool m) i (mkItem DELETED 0 UINT64_MAX);
           break (p, true)
         else
           _ ← c_assert (bool_decide (state item = DELETED ∨ state item = USED));
           let '(i, pert) := next_probe mask i pert in continue (i, pert))
      (Z.land hash mask, hash);
    Ret (mkHashmap p (size m) (if found : bool then used m - 1 else used m) (os_mutex_unlock lk),
         found).

Definition select_loop (m : hashmap_t) (fuel : nat) (mask hash k : Z) : outcome Z :=
  loop fuel
    (λ '(i, pert),
       item ← rd (pool m) i;
       if decide (state item = UNUSED) then break 0
       else if decide (state item = USED ∧ key item = k) then break (value item)
       else
         _ ← c_assert (bool_decide (state item = DELETED ∨ state item = USED));
         let '(i, pert) := next_probe mask i pert in continue (i, pert))
    (Z.land hash mask, hash).

Definition hashmap_select (pl : platform) (m : hashmap_t) (k : Z) : outcome (hashmap_t * Z) :=
  let hash := hashfunc k in
  lk ← os_mutex_lock pl (mutex m);
  let m := mkHashmap (pool m) (size m) (used m) (os_mutex_unlock lk) in
  if size m =? 0 then Ret (m, 0)
  else
    _ ← c_assert (is_pow2 (size m));
    v ← select_loop m (probe_fuel (size m)) (size m - 1) hash k;
    Ret (m, v).

Definition hashmap_exists (pl : platform) (m : hashmap_t) (k : Z) : outcome (hashmap_t * bool) :=
  '(m, v) ← hashmap_select pl m k;
  Ret (m, negb (v =? 0)).

(** ** The probing sequence

    Once the perturbation is shifted out, the sequence is [i -> 5 i + 1] modulo
    the power of two, which goes through every slot. *)

(** [1 + 5 + ... + 5 ^ (n - 1)]. *)
Fixpoint repunit (n : nat) : Z :=
  match n with O => 0 | S n => 5 * repunit n + 1 end.

Lemma pow5_S n : 5 ^ Z.of_nat (S n) = 5 * 5 ^ Z.of_nat n.
Proof. rewrite Nat2Z.inj_succ, Z.pow_succ_r by lia. lia. Qed.

Lemma repunit_pow n : 4 * repunit n = 5 ^ Z.of_nat n - 1.
Proof. induction n as [|n IH]; [done|]. simpl repunit. rewrite pow5_S. lia. Qed.

Lemma repunit_add n m : repunit (n + m) = 5 ^ Z.of_nat n * repunit m + repunit n.
Proof. induction n as [|n IH]; [simpl; lia|]. simpl repunit. rewrite pow5_S, IH. lia. Qed.

Lemma odd_pow5 n : Z.odd (5 ^ Z.of_nat n) = true.
Proof. induction n as [|n IH]; [done|]. by rewrite pow5_S, Z.odd_mul, IH. Qed.

Lemma repunit_odd n : Z.odd (repunit n) = Nat.odd n.
Proof.
  induction n as [|n IH]; [done|]. simpl repunit.
  rewrite Z.odd_add, Z.odd_mul, IH, Nat.odd_succ, <-Nat.negb_odd. by destruct (Nat.odd n).
Qed.

Lemma pow2_odd_divide k a b : 0 ≤ k → Z.odd b = true → (2 ^ k | a * b) → (2 ^ k | a).
Proof.
  intros Hk Hb Hd. apply Z.gauss with b; [by rewrite Z.mul_comm|].
  apply Z.bezout_1_gcd. apply Z.odd_spec in Hb as [c ->].
  (* an odd number is a unit modulo a power of two *)
  clear a Hd. pattern k. apply natlike_ind; [..|done].
  - exists 1, 0. simpl. lia.
  - intros j Hj (x & y & Hxy). rewrite Z.pow_succ_r by lia.
    destruct (Z.Even_or_Odd x) as [[z ->]|[z ->]].
    + exists z, y. lia.
    + exists (z - c), (y + 2 ^ j). lia.
Qed.

(** The power of two in a repunit is that of its length. *)
Lemma repunit_divide k n : (2 ^ Z.of_nat k | repunit n) → (2 ^ Z.of_nat k | Z.of_nat n).
Proof.
  revert n. induction k as [|k IH]; intros n Hd; [apply Z.divide_1_l|].
  rewrite Nat2Z.inj_succ, Z.pow_succ_r in * by lia.
  assert (Nat.odd n = false) as Hev.
  { rewrite <-repunit_odd. destruct Hd as [q ->]. rewrite Z.mul_comm, <-Z.mul_assoc.
    by rewrite Z.odd_mul. }
  rewrite <-Nat.negb_even in Hev. apply negb_false_iff, Nat.even_spec in Hev as [m ->].
  replace (2 * m)%nat with (m + m)%nat in Hd by lia.
  rewrite repunit_add in Hd. rewrite Nat2Z.inj_mul. apply Z.mul_divide_mono_l, IH.
  apply (pow2_odd_divide _ _ (2 * repunit m + 1)); [lia|by rewrite Z.add_comm, Z.odd_add_mul_2|].
  apply (Z.mul_divide_cancel_l _ _ 2); [lia|].
  eapply Z.divide_trans; [exact Hd|]. exists 1. pose proof (repunit_pow m). lia.
Qed.

(** [n] steps of [i -> 5 i + 1]. *)
Definition orbit (i : Z) (n : nat) : Z := 5 ^ Z.of_nat n * i + repunit n.

Lemma orbit_S i n : orbit i (S n) = 5 * orbit i n + 1.
Proof. unfold orbit. simpl repunit. rewrite pow5_S. lia. Qed.

Lemma orbit_inj k i n d :
  orbit i n mod 2 ^ Z.of_nat k = orbit i (n + d) mod 2 ^ Z.of_nat k → Z.of_nat d < 2 ^ Z.of_nat k → d = 0%nat.
Proof.
  intros Heq Hd. assert (2 ^ Z.of_nat k | repunit d) as Hdiv.
  { apply (pow2_odd_divide _ _ (5 ^ Z.of_nat n * (4 * i + 1))); [lia| |].
    - rewrite Z.odd_mul, odd_pow5. replace (4 * i + 1) with (1 + 2 * (2 * i)) by lia.
      by rewrite Z.odd_add_mul_2.
    - apply Z.mod_divide; [lia|]. replace (_ * _) with (orbit i (n + d) - orbit i n).
      2:{ unfold orbit. rewrite repunit_add, Nat2Z.inj_add, Z.pow_add_r by lia.
          pose proof (repunit_pow d). nia. }
      by rewrite Zminus_mod, Heq, Z.sub_diag, Z.mod_0_l by lia. }
  apply repunit_divide in Hdiv as [q Hq]. destruct (decide (q = 0)); nia.
Qed.

Lemma orbit_covers (k : nat) i u :
  0 ≤ u < 2 ^ Z.of_nat k →
  ∃ n, Z.of_nat n < 2 ^ Z.of_nat k ∧ orbit i n mod 2 ^ Z.of_nat k = u.
Proof.
  intros Hu. set (N := Z.to_nat (2 ^ Z.of_nat k)).
  set (vis := (λ n, orbit i n mod 2 ^ Z.of_nat k) <$> seq 0 N).
  assert (incl (Z.of_nat <$> seq 0 N) vis) as Hincl.
  { apply List.NoDup_length_incl.
    - apply NoDup_ListNoDup, NoDup_alt. intros x y z Hx Hy. unfold vis in *.
      rewrite list_lookup_fmap in Hx, Hy.
      apply fmap_Some in Hx as (x' & [-> Hx]%lookup_seq & Hx').
      apply fmap_Some in Hy as (y' & [-> Hy]%lookup_seq & Hy'). simpl in *.
      rewrite Hx' in Hy'. destruct (Nat.le_ge_cases x y).
      + assert (y - x = 0)%nat; [|lia]. apply (orbit_inj k i x); [|lia].
        by replace (x + (y - x))%nat with y by lia.
      + assert (x - y = 0)%nat; [|lia]. apply (orbit_inj k i y); [|lia].
        by replace (y + (x - y))%nat with x by lia.
    - unfold vis. by rewrite !length_fmap.
    - intros a Ha%list_elem_of_In. unfold vis in Ha. apply list_elem_of_fmap in Ha as (n & -> & _).
      pose proof (Z.mod_pos_bound (orbit i n) (2 ^ Z.of_nat k) ltac:(lia)).
      apply list_elem_of_In, list_elem_of_fmap. exists (Z.to_nat (orbit i n mod 2 ^ Z.of_nat k)).
      split; [lia|]. apply elem_of_seq. lia. }
  assert (u ∈ vis) as Hin.
  { apply list_elem_of_In, Hincl, list_elem_of_In, list_elem_of_fmap. exists (Z.to_nat u).
    split; [lia|]. apply elem_of_seq. lia. }
  apply list_elem_of_fmap in Hin as (n & -> & Hn%elem_of_seq). exists n. split; [lia|done].
Qed.

(** The state of the probing for a hash after [n] steps. *)
Fixpoint probe_at (mask hash : Z) (n : nat) : Z * Z :=
  match n with
  | O => (Z.land hash mask, hash)
  | S n => let '(i, pert) := probe_at mask hash n in next_probe mask i pert
  end.
Definition slot_at (mask hash : Z) (n : nat) : Z := fst (probe_at mask hash n).

Lemma probe_at_S mask hash n :
  next_probe mask (slot_at mask hash n) (snd (probe_at mask hash n)) =
    (slot_at mask hash (S n), snd (probe_at mask hash (S n))).
Proof. unfold slot_at. simpl. by destruct (probe_at mask hash n), (next_probe _ _ _). Qed.

Lemma pert_at mask hash n : snd (probe_at mask hash n) = Z.shiftr hash (5 * Z.of_nat n).
Proof.
  induction n as [|n IH]; [by rewrite Z.shiftr_0_r|]. simpl.
  destruct (probe_at mask hash n) as [i p]. simpl in *. rewrite IH, Z.shiftr_shiftr by lia.
  f_equal. lia.
Qed.

Section probing.
Context (k : nat) (Hk : (k ≤ 28)%nat) (hash : Z) (Hhash : 0 ≤ hash < 2 ^ 64).
Abbreviation mask := (2 ^ Z.of_nat k - 1).

Lemma slot_range n : 0 ≤ slot_at mask hash n < 2 ^ Z.of_nat k.
Proof.
  unfold slot_at. destruct n as [|n]; simpl; [|destruct (probe_at _ _ n); simpl];
    (rewrite land_mask by (clear; lia); apply Z.mod_pos_bound; clear; lia).
Qed.

Lemma slot_orbit n :
  slot_at mask hash (13 + n) = orbit (slot_at mask hash 13) n mod 2 ^ Z.of_nat k.
Proof.
  assert (∀ n, Z.shiftr hash (5 * Z.of_nat (13 + n)) = 0) as Hpert.
  { intros m. rewrite Z.shiftr_div_pow2 by lia. apply Z.div_small. split; [lia|].
    eapply Z.lt_le_trans; [apply Hhash|]. apply Z.pow_le_mono_r; lia. }
  induction n as [|n IH].
  - unfold orbit. simpl repunit. rewrite Nat.add_0_r, Z.mod_small; [|pose proof (slot_range 13)];
      change (5 ^ Z.of_nat 0) with 1; lia.
  - replace (13 + S n)%nat with (S (13 + n)) by lia.
    pose proof (probe_at_S mask hash (13 + n)) as HS. rewrite pert_at, Hpert, IH in HS.
    apply (f_equal fst) in HS. cbn [fst next_probe] in HS. rewrite <-HS.
    rewrite land_mask by lia. change (Z.shiftr 0 5) with 0. rewrite Z.add_0_r, orbit_S.
    unfold u64. rewrite Z.mod_mod_divide.
    + rewrite Z.add_mod, Z.mul_comm, Z.mul_mod_idemp_r, <-Z.add_mod by lia. done.
    + exists (2 ^ (64 - Z.of_nat k)). rewrite <-Z.pow_add_r by lia. f_equal. lia.
Qed.

(** The probing comes across every slot. *)
Lemma probe_covers u :
  0 ≤ u < 2 ^ Z.of_nat k →
  ∃ n, (n < 13 + Z.to_nat (2 ^ Z.of_nat k))%nat ∧ slot_at mask hash n = u.
Proof.
  intros Hu. destruct (orbit_covers k (slot_at mask hash 13) u Hu) as (n & Hn & <-).
  exists (13 + n)%nat. split; [lia|apply slot_orbit].
Qed.
End probing.

(** ** What a pool stores *)

Definition entry (it : item_t) : option (Z * Z) :=
  if decide (state it = USED) then Some (key it, value it) else None.
Definition entries (p : list item_t) : list (Z * Z) := omap entry p.

Lemma entries_lookup p e :
  e ∈ entries p ↔ ∃ i it, rd p i = Ret it ∧ entry it = Some e.
Proof.
  unfold entries. rewrite list_elem_of_omap. split.
  - intros (it & [i Hi]%list_elem_of_lookup & He). exists (Z.of_nat i), it.
    split; [apply rd_Some; [lia|by rewrite Nat2Z.id]|done].
  - intros (i & it & [_ Hi]%rd_inv & He). exists it. split; [|done].
    by eapply list_elem_of_lookup_2.
Qed.

(** Replacing a slot replaces its entry. *)
Lemma entries_insert p i it it' :
  rd p i = Ret it →
  ∃ rest, entries p ≡ₚ option_list (entry it) ++ rest ∧
          entries (<[Z.to_nat i := it']> p) ≡ₚ option_list (entry it') ++ rest.
Proof.
  intros [_ Hi]%rd_inv. exists (entries (take (Z.to_nat i) p) ++ entries (drop (S (Z.to_nat i)) p)).
  assert (∀ a x b, entries (a ++ x :: b) ≡ₚ option_list (entry x) ++ entries a ++ entries b) as Happ.
  { intros a x b. unfold entries. rewrite omap_app. simpl.
    destruct (entry x); simpl; [by rewrite Permutation_middle|done]. }
  split.
  - rewrite <-(take_drop_middle p _ _ Hi) at 1. apply Happ.
  - rewrite insert_take_drop by (by eapply lookup_lt_Some). apply Happ.
Qed.

(** The slot [i] is on the probing path of the key [k], behind slots that were
    in use. *)
Definition on_path (p : list item_t) (mask k i : Z) : Prop :=
  ∃ n, slot_at mask (hashfunc k) n = i ∧
    ∀ j, (j < n)%nat → ∃ it, rd p (slot_at mask (hashfunc k) j) = Ret it ∧ state it ≠ UNUSED.

Lemma on_path_insert p mask k i j it' :
  0 ≤ j → state it' ≠ UNUSED → on_path p mask k i → on_path (<[Z.to_nat j := it']> p) mask k i.
Proof.
  intros Hj Hst (n & Hn & Hpath). exists n. split; [done|]. intros m Hm.
  destruct (Hpath m Hm) as (it & Hrd & Hit).
  destruct (decide (slot_at mask (hashfunc k) m = j)) as [He|Hne].
  - exists it'. split; [|done]. rewrite He in *. apply rd_insert_eq. by eapply rd_bounds.
  - exists it. by rewrite rd_insert_ne by (done || congruence).
Qed.

(** The map object [m], locked [d] times, stores the finite map [g]. *)
Record models (d : Z) (m : hashmap_t) (g : gmap Z Z) : Prop := {
  models_size : ∃ k, (3 ≤ k ≤ 27)%nat ∧ size m = 2 ^ Z.of_nat k ∧ zlen (pool m) = size m;
  models_entries : entries (pool m) ≡ₚ map_to_list g;
  models_used : used m = zlen (map_to_list g) ∧ used m ≤ size m;
  models_paths i it : rd (pool m) i = Ret it → state it = USED →
                      on_path (pool m) (size m - 1) (key it) i;
  models_values : map_Forall (λ _ v, v ≠ 0) g;
  models_mutex : mutex m = d;
}.

Definition has_unused (m : hashmap_t) : Prop :=
  ∃ i it, rd (pool m) i = Ret it ∧ state it = UNUSED.

(** The lock can be taken by a thread that holds it [d] times. *)
Definition lockable (pl : platform) (d : Z) : Prop := pl = Windows ∨ d = 0.

Lemma lock_ok pl d : 0 ≤ d → lockable pl d → os_mutex_lock pl d = Ret (d + 1).
Proof.
  intros ? [->| ->]; [done|]. by destruct pl.
Qed.

Lemma hashfunc_range k : 0 ≤ hashfunc k < 2 ^ 64.
Proof.
  unfold hashfunc. cbv zeta. assert (∀ x n, 0 ≤ x < 2 ^ 64 → 0 ≤ n → 0 ≤ Z.lxor x (Z.shiftr x n) < 2 ^ 64) as Hx.
  { intros x n Hx Hn. assert (0 ≤ Z.shiftr x n < 2 ^ 64) as Hs.
    { split; [apply Z.shiftr_nonneg; lia|]. rewrite Z.shiftr_div_pow2 by lia.
      apply Z.div_lt_upper_bound; [lia|]. assert (0 < 2 ^ n) by lia. nia. }
    split; [apply Z.lxor_nonneg; lia|]. apply bits_lt_pow2; [lia|apply Z.lxor_nonneg; lia|].
    intros i Hi. rewrite Z.lxor_spec, !(testbit_high 64) by lia. done. }
  apply Hx; [apply u64_range|lia].
Qed.

Section models.
Context (d : Z) (m : hashmap_t) (g : gmap Z Z) (Hm : models d m g).

Lemma models_pow2 : is_pow2 (size m) = true.
Proof.
  destruct (models_size _ _ _ Hm) as (k & Hk & -> & _). unfold is_pow2.
  assert (2 ^ Z.of_nat k ≤ 2 ^ 27) by (apply Z.pow_le_mono_r; lia).
  rewrite s32_small by lia. apply Z.eqb_eq, land_pred_0; [lia|].
  right. exists (Z.of_nat k). split; [lia|done].
Qed.

Lemma models_lookup i it :
  rd (pool m) i = Ret it → state it = USED → g !! key it = Some (value it).
Proof.
  intros Hrd Hst. apply elem_of_map_to_list. rewrite <-(models_entries _ _ _ Hm).
  apply entries_lookup. exists i, it. split; [done|]. unfold entry. by rewrite decide_True.
Qed.

Lemma models_slot k n : ∃ it, rd (pool m) (slot_at (size m - 1) (hashfunc k) n) = Ret it.
Proof.
  destruct (models_size _ _ _ Hm) as (j & Hj & Hsz & Hlen).
  destruct (rd_ok (pool m) (slot_at (size m - 1) (hashfunc k) n)) as (it & ? & _); [|eauto].
  rewrite Hlen, Hsz. apply slot_range.
Qed.

(** Where the search for a key ends. *)
Lemma probe_stop k :
  has_unused m →
  ∃ n it, (n < probe_fuel (size m))%nat ∧
    rd (pool m) (slot_at (size m - 1) (hashfunc k) n) = Ret it ∧
    (state it = UNUSED ∧ g !! k = None ∨ state it = USED ∧ key it = k ∧ g !! k = Some (value it)) ∧
    ∀ j, (j < n)%nat → ∃ it', rd (pool m) (slot_at (size m - 1) (hashfunc k) j) = Ret it' ∧
      state it' ≠ UNUSED ∧ ¬ (state it' = USED ∧ key it' = k).
Proof.
  intros (u & itu & Hu & Hunused). destruct (models_size _ _ _ Hm) as (e & He & Hsz & Hlen).
  set (P n := match rd (pool m) (slot_at (size m - 1) (hashfunc k) n) with
              | Ret it => state it = UNUSED ∨ state it = USED ∧ key it = k
              | Fail _ => True end).
  destruct (probe_covers e ltac:(lia) (hashfunc k) (hashfunc_range k) u) as (N & HN & Hslot).
  { rewrite <-Hsz, <-Hlen. by eapply rd_bounds. }
  assert (∀ n, Decision (P n)) as HPdec.
  { intros n. unfold P. case_match; apply _. }
  destruct (first_index P N) as (n & Hn & HP & Hmin).
  { unfold P. rewrite Hsz, Hslot, Hu. by left. }
  assert (∀ j, (j < n)%nat → ∃ it', rd (pool m) (slot_at (size m - 1) (hashfunc k) j) = Ret it' ∧
      state it' ≠ UNUSED ∧ ¬ (state it' = USED ∧ key it' = k)) as Hbefore.
  { intros j Hj. destruct (models_slot k j) as [it' Hit']. exists it'. split; [done|].
    specialize (Hmin j Hj). unfold P in Hmin. rewrite Hit' in Hmin. tauto. }
  destruct (models_slot k n) as [it Hit]. exists n, it. split; [unfold probe_fuel; lia|].
  split; [done|]. split; [|done]. unfold P in HP. rewrite Hit in HP.
  destruct HP as [HU|[HU Hkey]]; [left|right].
  - split; [done|]. destruct (g !! k) as [v|] eqn:Hg; [exfalso|done].
    apply elem_of_map_to_list in Hg. rewrite <-(models_entries _ _ _ Hm) in Hg.
    apply entries_lookup in Hg as (i & itk & Hrd & Hent). unfold entry in Hent.
    destruct (decide (state itk = USED)) as [Hst|]; [|done]. injection Hent as Hkey Hval.
    destruct (models_paths _ _ _ Hm i itk Hrd Hst) as (n' & Hn' & Hpath). rewrite Hkey in *.
    destruct (Nat.lt_trichotomy n n') as [Hlt|[->|Hlt]].
    + destruct (Hpath n Hlt) as (it' & Hit' & ?). congruence.
    + congruence.
    + destruct (Hbefore n' Hlt) as (it' & Hit' & ? & Hno). rewrite Hn', Hrd in Hit'.
      injection Hit' as <-. by apply Hno.
  - split; [done|]. split; [done|]. rewrite <-Hkey. by eapply models_lookup.
Qed.
End models.

(** ** The operations *)

(** A search loop follows the probing up to the slot where it stops. *)
Lemma probing_loop {A} (Q : A → Prop) (body : Z * Z → outcome (Z * Z + A)) mask hash n fuel :
  (n < fuel)%nat →
  (∀ j, (j < n)%nat → body (probe_at mask hash j) = continue (probe_at mask hash (S j))) →
  wp (body (probe_at mask hash n)) (λ r, match r with inl _ => False | inr a => Q a end) →
  wp (loop fuel body (Z.land hash mask, hash)) Q.
Proof.
  intros Hn Hstep Hend.
  apply (wp_loop_count (λ c s, ∃ j, (j + c = n)%nat ∧ s = probe_at mask hash j)) with n; [|done|].
  { exists 0%nat. split; [lia|done]. }
  intros c s (j & Hj & ->). destruct c as [|c].
  - replace j with n by lia. eapply wp_mono; [exact Hend|]. by intros [?|a].
  - rewrite Hstep by lia. exists c. split; [lia|]. exists (S j). split; [lia|done].
Qed.

Lemma probe_at_eta mask hash n : probe_at mask hash n = (slot_at mask hash n, snd (probe_at mask hash n)).
Proof. by unfold slot_at; destruct (probe_at mask hash n). Qed.

Lemma probe_continue {A} mask hash j :
  (let '(i, pert) := next_probe mask (slot_at mask hash j) (snd (probe_at mask hash j)) in
   @continue (Z * Z) A (i, pert)) = continue (probe_at mask hash (S j)).
Proof. rewrite probe_at_S. by rewrite <-probe_at_eta. Qed.

Lemma select_loop_ok d m g k :
  models d m g → has_unused m →
  wp (select_loop m (probe_fuel (size m)) (size m - 1) (hashfunc k) k)
     (λ v, v = default 0 (g !! k)).
Proof.
  intros Hm Hu. destruct (probe_stop d m g Hm k Hu) as (n & it & Hn & Hit & Hstop & Hbefore).
  unfold select_loop. eapply probing_loop; [exact Hn|..].
  - intros j Hj. destruct (Hbefore j Hj) as (it' & Hit' & Hnu & Hnk).
    rewrite (probe_at_eta _ _ j), Hit'. cbn [mbind outcome_bind].
    rewrite !decide_False by done. rewrite bool_decide_true by (by destruct (state it'); auto).

    apply probe_continue.
  - rewrite probe_at_eta, Hit. cbn [mbind outcome_bind].
    destruct Hstop as [[HU Hg]|(HU & Hkey & Hg)].
    + rewrite decide_True by done. simpl. by rewrite Hg.
    + rewrite decide_False, decide_True by (rewrite HU; done). simpl. by rewrite Hg.
Qed.

Lemma models_lock d d' m g :
  models d m g → models d' (mkHashmap (pool m) (size m) (used m) d') g.
Proof. by intros []; split. Qed.

Lemma models_size_nonzero d m g : models d m g → (size m =? 0) = false.
Proof. intros [(k & ? & -> & _) _ _ _ _ _]. lia. Qed.

Lemma hashmap_select_ok pl m g k :
  models 0 m g → has_unused m →
  wp (hashmap_select pl m k) (λ '(m', v), models 0 m' g ∧ pool m' = pool m ∧ v = default 0 (g !! k)).
Proof.
  intros Hm Hu. unfold hashmap_select. rewrite (models_mutex _ _ _ Hm).
  rewrite lock_ok by (lia || by right). cbn [mbind outcome_bind size pool used mutex].
  rewrite (models_size_nonzero _ _ _ Hm), (models_pow2 _ _ _ Hm). cbn [c_assert mbind outcome_bind].
  change (0 + 1 - 1) with 0.
  assert (models 0 (mkHashmap (pool m) (size m) (used m) 0) g) as Hm' by (by eapply models_lock).
  apply wp_bind. eapply wp_mono; [by eapply (select_loop_ok 0 (mkHashmap _ _ _ 0))|].
  intros v ->. done.
Qed.

Lemma hashmap_count_ok pl m g :
  models 0 m g → wp (hashmap_count pl m) (λ '(m', n), models 0 m' g ∧ pool m' = pool m ∧ n = zlen (map_to_list g)).
Proof.
  intros Hm. unfold hashmap_count. rewrite (models_mutex _ _ _ Hm).
  rewrite lock_ok by (lia || by right). cbn [mbind outcome_bind]. split; [by eapply models_lock|].
  split; [done|]. apply (models_used _ _ _ Hm).
Qed.

Lemma entries_remove p i it it' g :
  entries p ≡ₚ map_to_list g → rd p i = Ret it → state it = USED → state it' ≠ USED →
  entries (<[Z.to_nat i := it']> p) ≡ₚ map_to_list (delete (key it) g) ∧
  zlen (map_to_list g) = 1 + zlen (map_to_list (delete (key it) g)).
Proof.
  intros Hp Hrd Hst Hst'. destruct (entries_insert p i it it' Hrd) as (rest & H1 & H2).
  unfold entry in H1, H2. rewrite decide_True in H1 by done. rewrite decide_False in H2 by done.
  simpl in H1, H2. assert (g !! key it = Some (value it)) as Hg.
  { apply elem_of_map_to_list. rewrite <-Hp, H1. by left. }
  assert (rest ≡ₚ map_to_list (delete (key it) g)) as Hrest.
  { apply (Permutation_cons_inv (a := (key it, value it))).
    by rewrite (map_to_list_delete g _ _ Hg), <-Hp, H1. }
  split; [by rewrite H2|]. rewrite <-(map_to_list_delete g _ _ Hg). apply zlen_cons.
Qed.

Lemma entries_add p i it k v g :
  entries p ≡ₚ map_to_list g → rd p i = Ret it → state it ≠ USED → g !! k = None →
  entries (<[Z.to_nat i := mkItem USED v k]> p) ≡ₚ map_to_list (<[k := v]> g) ∧
  zlen (map_to_list (<[k := v]> g)) = 1 + zlen (map_to_list g).
Proof.
  intros Hp Hrd Hst Hg. destruct (entries_insert p i it (mkItem USED v k) Hrd) as (rest & H1 & H2).
  unfold entry in H1, H2. rewrite decide_False in H1 by done. rewrite decide_True in H2 by done.
  simpl in H1, H2. rewrite H2, <-H1, Hp, map_to_list_insert by done.
  split; [done|]. by rewrite ?(map_to_list_insert g k v Hg), zlen_cons.
Qed.

Lemma entries_replace p i it v g :
  entries p ≡ₚ map_to_list g → rd p i = Ret it → state it = USED →
  entries (<[Z.to_nat i := mkItem USED v (key it)]> p) ≡ₚ map_to_list (<[key it := v]> g) ∧
  zlen (map_to_list (<[key it := v]> g)) = zlen (map_to_list g).
Proof.
  intros Hp Hrd Hst. destruct (entries_insert p i it (mkItem USED v (key it)) Hrd) as (rest & H1 & H2).
  unfold entry in H1, H2. rewrite decide_True in H1 by done. rewrite decide_True in H2 by done. simpl in H1, H2.
  assert (g !! key it = Some (value it)) as Hg.
  { apply elem_of_map_to_list. rewrite <-Hp, H1. by left. }
  assert (rest ≡ₚ map_to_list (delete (key it) g)) as Hrest.
  { apply (Permutation_cons_inv (a := (key it, value it))).
    by rewrite (map_to_list_delete g _ _ Hg), <-Hp, H1. }
  assert (map_to_list (<[key it := v]> g) ≡ₚ (key it, v) :: rest) as Hnew.
  { rewrite Hrest, <-(insert_delete_eq g). by rewrite map_to_list_insert by apply lookup_delete_eq. }
  split; [by rewrite H2|]. by rewrite Hnew, <-Hp, H1, !zlen_cons.
Qed.

(** The paths of the entries, after a slot took a state other than UNUSED. *)
Lemma paths_insert p mask i it' :
  0 ≤ i → state it' ≠ UNUSED →
  (∀ j it, rd p j = Ret it → state it = USED → on_path p mask (key it) j) →
  (state it' = USED → on_path p mask (key it') i) →
  ∀ j it, rd (<[Z.to_nat i := it']> p) j = Ret it → state it = USED →
    on_path (<[Z.to_nat i := it']> p) mask (key it) j.
Proof.
  intros Hi Hst Hpaths Hnew j it Hrd Hit. apply on_path_insert; [done..|].
  destruct (decide (i = j)) as [<-|Hne].
  - assert (0 ≤ i < zlen p) by (apply rd_bounds in Hrd; by rewrite zlen_insert in Hrd).
    rewrite rd_insert_eq in Hrd by done. injection Hrd as <-. by apply Hnew.
  - rewrite rd_insert_ne in Hrd by done. by apply Hpaths.
Qed.

Lemma hashmap_remove_ok pl m g k :
  models 0 m g → has_unused m →
  wp (hashmap_remove pl m k) (λ '(m', r),
    models 0 m' (delete k g) ∧ has_unused m' ∧ r = bool_decide (is_Some (g !! k))).
Proof.
  intros Hm Hu. unfold hashmap_remove. rewrite (models_mutex _ _ _ Hm).
  rewrite lock_ok by (lia || by right). cbn [mbind outcome_bind size pool used mutex].
  rewrite (models_size_nonzero _ _ _ Hm), (models_pow2 _ _ _ Hm). cbn [c_assert mbind outcome_bind].
  change (os_mutex_unlock (0 + 1)) with 0. apply wp_bind.
  destruct (probe_stop 0 m g Hm k Hu) as (n & it & Hn & Hit & Hstop & Hbefore).
  eapply wp_mono with (Q := λ '(p, found), match found : bool with
    | true => g !! k = Some (value it) ∧ state it = USED ∧ key it = k ∧
              p = <[Z.to_nat (slot_at (size m - 1) (hashfunc k) n) := mkItem DELETED 0 UINT64_MAX]> (pool m)
    | false => g !! k = None ∧ p = pool m end).
  - eapply probing_loop; [exact Hn|..].
    + intros j Hj. destruct (Hbefore j Hj) as (it' & Hit' & Hnu & Hnk).
      rewrite (probe_at_eta _ _ j), Hit'. cbn [mbind outcome_bind].
      rewrite !decide_False by done. rewrite bool_decide_true by (by destruct (state it'); auto).
      apply probe_continue.
    + rewrite probe_at_eta, Hit. cbn [mbind outcome_bind].
      destruct Hstop as [[HU Hg]|(HU & Hkey & Hg)].
      * by rewrite decide_True.
      * rewrite decide_False, decide_True by (rewrite HU; done).
        rewrite wr_ok by (by eapply rd_bounds). by cbn.
  - intros [p [|]]; cbn.
    + intros (Hg & Hst & Hkey & ->). set (i := slot_at _ _ _) in *.
      destruct (entries_remove (pool m) i it (mkItem DELETED 0 UINT64_MAX) g) as [He Hz];
        [apply Hm|done..|]. rewrite Hkey in *.
      destruct Hm as [(e & He' & Hsz & Hlen) ? [Hus ?] Hpaths Hval _].
      split_and!; [split| |].
      * exists e. cbn. by rewrite zlen_insert.
      * done.
      * cbn. rewrite Hus, Hz. lia.
      * cbn. apply paths_insert; [|done..]. by apply rd_bounds in Hit as [??].
      * by apply map_Forall_delete.
      * done.
      * destruct Hu as (u & itu & Hrd & Hun). exists u, itu. cbn.
        rewrite rd_insert_ne; [done|by apply rd_bounds in Hit as [??]|congruence].
      * symmetry. apply bool_decide_eq_true. eauto.
    + intros [Hg ->]. rewrite delete_id by done.
      split; [by eapply models_lock|]. split; [done|]. by rewrite Hg.
Qed.

(** The search of an insertion ends at the slot of the key, or at the first
    slot of its path that can be taken. *)
Lemma insert_search_ok d m g k v :
  models d m g → has_unused m →
  wp (insert_search (pool m) (size m - 1) (hashfunc k) k v) (λ '(p, idx),
    (g !! k = None ∧ p = pool m ∧ on_path (pool m) (size m - 1) k idx ∧
     ∃ it, rd (pool m) idx = Ret it ∧ state it ≠ USED) ∨
    (idx = -1 ∧ ∃ i it, rd (pool m) i = Ret it ∧ state it = USED ∧ key it = k ∧
       p = <[Z.to_nat i := mkItem USED v k]> (pool m))).
Proof.
  intros Hm Hu. destruct (probe_stop d m g Hm k Hu) as (n & it & Hn & Hit & Hstop & Hbefore).
  unfold insert_search. replace (size m - 1 + 1) with (size m) by lia.
  set (h := hashfunc k) in *. set (mask := size m - 1) in *.
  apply (wp_loop_count (λ c '(i, pert, ins), ∃ j, (j + c = n)%nat ∧ (i, pert) = probe_at mask h j ∧
    (ins = -1 ∨ ∃ j' it', (j' < j)%nat ∧ ins = slot_at mask h j' ∧
                  rd (pool m) ins = Ret it' ∧ state it' ≠ USED))) with n; [|done|].
  { exists 0%nat. split; [lia|]. split; [done|by left]. }
  assert (∀ j it', (j ≤ n)%nat → rd (pool m) (slot_at mask h j) = Ret it' → state it' ≠ USED →
    g !! k = None → on_path (pool m) mask k (slot_at mask h j) ∧
    ∃ it, rd (pool m) (slot_at mask h j) = Ret it ∧ state it ≠ USED) as Htake.
  { intros j it' Hj Hrd Hst _. split; [|eauto]. exists j. split; [done|]. intros j' Hj'.
    destruct (Hbefore j') as (it'' & ? & ? & _); [lia|eauto]. }
  intros c [[i pert] ins] (j & Hj & Hprobe & Hins). rewrite probe_at_eta in Hprobe.
  injection Hprobe as -> ->.
  destruct c as [|c].
  - replace j with n in * by lia. rewrite Hit. cbn [mbind outcome_bind].
    destruct Hstop as [[HU Hg]|(HU & Hkey & Hg)].
    + rewrite decide_True by (by left). rewrite decide_True by done. simpl. left.
      split; [done|]. split; [done|]. destruct (Z.ltb_spec ins 0).
      * eapply Htake; [done|exact Hit|by rewrite HU|done].
      * destruct Hins as [->|(j' & it' & Hj' & -> & Hrd & Hst)]; [lia|].
        eapply Htake; [lia|exact Hrd|done|done].
    + rewrite decide_False by (rewrite HU; intros [|]; done).
      rewrite bool_decide_true by done. cbn [c_assert mbind outcome_bind].
      destruct (Z.eqb_spec (key it) k); [|done]. rewrite wr_ok by (by eapply rd_bounds). simpl.
      right. split; [done|]. exists (slot_at mask h n), it. by rewrite HU, Hkey.
  - destruct (Hbefore j) as (it' & Hit' & Hnu & Hnk); [lia|]. rewrite Hit'.
    cbn [mbind outcome_bind]. destruct (decide (state it' = UNUSED ∨ state it' = DELETED)) as [Hd|Hd].
    + rewrite decide_False by done. rewrite probe_at_S. cbn [wp continue]. exists c. split; [lia|].
      exists (S j). split; [lia|]. split; [by rewrite probe_at_eta|].
      assert (state it' ≠ USED) by (destruct Hd; congruence).
      right. destruct (Z.ltb_spec ins 0); [exists j, it'; split; [lia|done]|].
      destruct Hins as [->|(j' & it'' & ? & ? & ? & ?)]; [lia|].
      exists j', it''. split; [lia|done].
    + assert (state it' = USED) as HU by (destruct (state it'); [exfalso; auto|done|exfalso; auto]).
      rewrite bool_decide_true by done. cbn [c_assert mbind outcome_bind].
      destruct (Z.eqb_spec (key it') k); [by destruct Hnk|].
      rewrite probe_at_S. cbn [wp continue]. exists c. split; [lia|].
      exists (S j). split; [lia|]. split; [by rewrite probe_at_eta|].
      destruct Hins as [->|(j' & it'' & ? & ? & ? & ?)]; [by left|right].
      exists j', it''. split; [lia|done].
Qed.

Definition no_deleted (m : hashmap_t) : Prop :=
  Forall (λ it, state it ≠ DELETED) (pool m).

Lemma should_resize_false d m g :
  models d m g → should_resize m = false ↔ used m * 10 < size m * 7.
Proof.
  intros [(k & Hk & Hsz & _) _ [Hu Hle] _ _ _]. unfold should_resize. rewrite Hsz in *.
  assert (0 < 2 ^ Z.of_nat k ≤ 2 ^ 27) by (split; [lia|apply Z.pow_le_mono_r; lia]).
  pose proof (zlen_nonneg (map_to_list g)). rewrite !s32_small by lia. lia.
Qed.

(** Without tombstones, a pool that is not full has an unused slot. *)
Lemma no_deleted_unused d m g :
  models d m g → no_deleted m → used m < size m → has_unused m.
Proof.
  intros Hm Hnd Hlt. destruct (decide (Exists (λ it, state it = UNUSED) (pool m))) as [He|Hne].
  - apply Exists_exists in He as (it & [i Hi]%list_elem_of_lookup & ?). exists (Z.of_nat i), it.
    split; [apply rd_Some; [lia|by rewrite Nat2Z.id]|done].
  - exfalso. destruct Hm as [(k & _ & _ & Hlen) Hent [Hus _] _ _ _].
    assert (zlen (entries (pool m)) = zlen (pool m)) as Hz; [|rewrite Hent in Hz; lia].
    assert (Forall (λ it, state it = USED) (pool m)) as Hall.
    { apply Forall_lookup. intros i it Hi. destruct (state it) eqn:Hst; [|done|].
      - exfalso. apply Hne, Exists_exists. exists it. split; [by eapply list_elem_of_lookup_2|done].
      - exfalso. by apply (Forall_lookup_1 _ _ _ _ Hnd Hi). }
    clear -Hall. induction Hall as [|it p Hst _ IH]; [done|]. unfold entries in *. simpl.
    replace (entry it) with (Some (key it, value it)) by (unfold entry; by rewrite decide_True).
    rewrite !zlen_cons. f_equal. exact IH.
Qed.

Lemma insert_tail_ok d m g k v :
  models (d + 1) m g → v ≠ 0 → has_unused m → used m < size m →
  wp (insert_tail m k v) (λ m', models d m' (<[k := v]> g) ∧ size m' = size m ∧
    used m' ≤ used m + 1 ∧ (no_deleted m → no_deleted m')).
Proof.
  intros Hm Hv Hu Hlt. unfold insert_tail. apply wp_bind, wp_assert; [lia|].
  rewrite (models_pow2 _ _ _ Hm). cbn [c_assert mbind outcome_bind]. apply wp_bind.
  eapply wp_mono; [by apply (insert_search_ok (d + 1) m g)|].
  destruct Hm as [Hsize Hent [Hus Hle] Hpaths Hval Hmu]. rewrite Hmu. simpl in *.
  intros [p idx] [(Hg & -> & Hpath & it & Hrd & Hst)|(-> & i & it & Hrd & Hst & Hkey & ->)].
  - pose proof (rd_bounds _ _ _ Hrd). destruct (Z.ltb_spec (-1) idx); [|lia].
    rewrite wr_ok by done. simpl. replace (os_mutex_unlock (d + 1)) with d by (unfold os_mutex_unlock; lia).
    destruct (entries_add (pool m) idx it k v g) as [He Hz]; [done..|].
    split; [split|split; [done|split; [lia|]]]; simpl.
    + destruct Hsize as (e & ? & ? & ?). exists e. by rewrite zlen_insert.
    + done.
    + pose proof (zlen_nonneg (map_to_list g)). rewrite Hz. lia.
    + apply paths_insert; [lia|done|done|done].
    + by apply map_Forall_insert_2.
    + done.
    + intros Hnd. by apply Forall_insert.
  - simpl. replace (os_mutex_unlock (d + 1)) with d by (unfold os_mutex_unlock; lia).
    pose proof (rd_bounds _ _ _ Hrd). rewrite <-Hkey.
    destruct (entries_replace (pool m) i it v g) as [He Hz]; [done..|].
    split; [split|split; [done|split; [lia|]]]; simpl.
    + destruct Hsize as (e & ? & ? & ?). exists e. by rewrite zlen_insert.
    + done.
    + lia.
    + apply paths_insert; [lia|done|done|]. intros _. simpl. by eapply Hpaths.
    + by apply map_Forall_insert_2.
    + done.
    + intros Hnd. by apply Forall_insert.
Qed.

Lemma insert_body_ok pl rs d m g k v :
  models d m g → 0 ≤ d → lockable pl d → v ≠ 0 → has_unused m → should_resize m = false →
  wp (insert_body pl rs m k v) (λ m', models d m' (<[k := v]> g) ∧ size m' = size m ∧
    used m' ≤ used m + 1 ∧ (no_deleted m → no_deleted m')).
Proof.
  intros Hm Hd Hlk Hv Hu Hrs. unfold insert_body. rewrite (models_mutex _ _ _ Hm), lock_ok by done.
  cbn [mbind outcome_bind]. destruct (Z.eqb_spec v 0); [done|]. cbn [negb c_assert mbind outcome_bind].
  set (m1 := mkHashmap _ _ _ (d + 1)).
  assert (models (d + 1) m1 g) as Hm1 by (by eapply models_lock).
  assert (should_resize m1 = false) as -> by done.
  cbn [mbind outcome_bind]. rewrite (should_resize_false _ _ _ Hm) in Hrs.
  apply (insert_tail_ok d m1); [done..|].
  destruct Hm as [(? & _ & Hsz & _) _ [Hus _] _ _ _].
  pose proof (zlen_nonneg (map_to_list g)). simpl. lia.
Qed.

(** ** Growing *)

Lemma next_pow2_ok v : 2 ≤ v ≤ 2 ^ 30 → next_pow2 v = 2 ^ (Z.log2 (v - 1) + 1).
Proof.
  intros Hv. unfold next_pow2. rewrite (s32_small (v - 1)) by lia.
  set (L := Z.log2 (v - 1)). assert (0 ≤ L < 30) as HL.
  { split; [apply Z.log2_nonneg|]. apply Z.log2_lt_pow2; lia. }
  pose proof (smeared_log2 (v - 1) ltac:(lia)) as Hs. fold L in Hs.
  smear Hs 1. smear Hs 2. smear Hs 4. smear Hs 8. smear Hs 16.
  apply smeared_full in Hs; [|lia]. rewrite Hs.
  assert (2 ^ (L + 1) ≤ 2 ^ 30) by (apply Z.pow_le_mono_r; lia).
  rewrite s32_small; lia.
Qed.

Lemma next_pow2_pow2 (k : nat) : (1 ≤ k ≤ 30)%nat → next_pow2 (2 ^ Z.of_nat k) = 2 ^ Z.of_nat k.
Proof.
  intros Hk. assert (2 ^ 1 ≤ 2 ^ Z.of_nat k ≤ 2 ^ 30) by (split; apply Z.pow_le_mono_r; lia).
  rewrite next_pow2_ok by lia. f_equal. rewrite Z.sub_1_r, Z.log2_pred_pow2; lia.
Qed.

Lemma fresh_entries (fresh : nat → item_t) l : entries (mark_unused <$> (fresh <$> l)) = [].
Proof. induction l as [|x l IH]; [done|]. exact IH. Qed.

Lemma fresh_state (fresh : nat → item_t) l :
  Forall (λ it, state it = UNUSED) (mark_unused <$> (fresh <$> l)).
Proof. induction l; by constructor. Qed.

Lemma models_empty (k : nat) (fresh : nat → item_t) d :
  (3 ≤ k ≤ 27)%nat →
  models d (mkHashmap (mark_unused <$> (fresh <$> seq 0 (Z.to_nat (2 ^ Z.of_nat k))))
              (2 ^ Z.of_nat k) 0 d) ∅.
Proof.
  intros Hk. assert (0 < 2 ^ Z.of_nat k) by lia. split; cbn [pool size used mutex].
  - exists k. split; [done|]. split; [done|]. unfold zlen. rewrite !length_fmap, length_seq. lia.
  - by rewrite fresh_entries, map_to_list_empty.
  - rewrite map_to_list_empty. split; [done|lia].
  - intros i it [_ Hi]%rd_inv Hst.
    rewrite (Forall_lookup_1 _ _ _ _ (fresh_state _ _) Hi) in Hst. done.
  - apply map_Forall_empty.
  - done.
Qed.

(** Moving the entries of a pool into a map that has room for them. *)
Lemma move_entries pl rs d m0 (p : list item_t) :
  models d m0 ∅ → no_deleted m0 → 0 ≤ d → lockable pl d →
  10 * zlen (entries p) ≤ 7 * size m0 →
  Forall (λ e : Z * Z, e.2 ≠ 0) (entries p) → NoDup (entries p).*1 →
  wp (foldl (λ r item, m ← r;
        if decide (state item = USED) then insert_body pl rs m (key item) (value item) else Ret m)
      (Ret m0) p) (λ m, ∃ g, models d m g ∧ map_to_list g ≡ₚ entries p ∧ no_deleted m ∧
                             size m = size m0).
Proof.
  intros Hm0 Hnd0 Hd Hlk. induction p as [|it p IH] using rev_ind; intros Hroom Hval Hnodup.
  { simpl. exists ∅. by rewrite map_to_list_empty. }
  unfold entries in Hroom, Hval, Hnodup |- *. rewrite omap_app in *. fold (entries p) in *.
  rewrite foldl_app. simpl foldl. rewrite zlen_app in Hroom. rewrite fmap_app in Hnodup.
  apply Forall_app in Hval as [Hval Hv]. apply NoDup_app in Hnodup as (Hnodup & Hfresh & _).
  pose proof (zlen_nonneg (omap entry [it])).
  apply wp_bind. eapply wp_mono; [apply IH; [lia|done..]|].
  intros m (g & Hm & Hg & Hnd & Hsz). destruct (decide (state it = USED)) as [Hst|Hst].
  - assert (omap entry [it] = [(key it, value it)]) as He.
    { simpl. unfold entry. by rewrite decide_True. }
    rewrite He in *. change (zlen [(key it, value it)]) with 1 in *.
    assert (used m = zlen (entries p)) as Hus.
    { destruct Hm as [_ _ [-> _] _ _ _]. by rewrite Hg. }
    assert (0 < size m) by (destruct Hm as [(? & _ & -> & _) _ _ _ _ _]; lia).
    apply Forall_cons in Hv as [Hv _]. simpl in Hv.
    assert (g !! key it = None) as Hnone.
    { apply not_elem_of_dom. intros Hdom. apply elem_of_dom in Hdom as [v Hlook].
      apply elem_of_map_to_list in Hlook. rewrite Hg in Hlook.
      apply (Hfresh (key it)); [|simpl; by left]. apply list_elem_of_fmap. by exists (key it, v). }
    eapply wp_mono; [eapply (insert_body_ok pl rs d m g)|].
    + done.
    + done.
    + done.
    + done.
    + apply (no_deleted_unused d m g); [done..|]. lia.
    + apply (should_resize_false d m g); [done|lia].
    + intros m' (Hm' & Hsz' & _ & Hnd'). exists (<[key it := value it]> g). split_and!; [done| |auto|lia].
      by rewrite map_to_list_insert, Hg, Permutation_app_comm.
  - assert (omap entry [it] = []) as -> by (simpl; unfold entry; by rewrite decide_False).
    rewrite app_nil_r. simpl. eauto.
Qed.

Lemma resize_ok pl alloc rs d m g fresh :
  models d m g → 0 ≤ d → lockable pl d → size m < 2 ^ 27 → alloc (2 * size m) = Some fresh →
  wp (resize alloc (insert_body pl rs) m (s32 (2 * size m))) (λ m',
    models d m' g ∧ no_deleted m' ∧ size m' = 2 * size m).
Proof.
  intros Hm Hd Hlk Hmax Halloc. pose proof Hm as [(k & Hk & Hsz & Hlen) Hent [Hus Hle] _ Hval Hmu].
  assert (2 ^ 3 ≤ 2 ^ Z.of_nat k) by (apply Z.pow_le_mono_r; lia).
  assert (k ≤ 26)%nat as Hk'.
  { assert (Z.of_nat k < 27); [|lia]. apply (Z.pow_lt_mono_r_iff 2); lia. }
  unfold resize. rewrite s32_small by lia.
  destruct (Z.ltb_spec (2 * size m) (used m)); [lia|].
  destruct (Z.ltb_spec (2 * size m) 8); [lia|].
  replace (2 * size m) with (2 ^ Z.of_nat (S k)) in * by (rewrite Nat2Z.inj_succ, Z.pow_succ_r; lia).
  rewrite next_pow2_pow2 by lia. unfold fresh_pool, os_alloc. rewrite Halloc. cbn [mbind outcome_bind].
  rewrite Hmu. eapply wp_mono.
  - eapply (move_entries pl rs d (mkHashmap _ _ 0 d)); [apply models_empty; lia| |done..| | |].
    + unfold no_deleted. cbn [pool]. eapply Forall_impl; [apply fresh_state|]. intros it ->. done.
    + cbn [size]. rewrite Hent, <-Hus. rewrite Nat2Z.inj_succ, Z.pow_succ_r; lia.
    + rewrite Hent. apply Forall_forall. intros [k' v] Hin%elem_of_map_to_list. simpl.
      by eapply (map_Forall_lookup_1 _ _ _ _ Hval).
    + rewrite Hent. apply NoDup_fst_map_to_list.
  - intros m' (g' & Hm' & Hg' & Hnd & Hsz'). cbn [size] in Hsz'.
    assert (g' = g) as -> by (apply map_to_list_inj; by rewrite Hg', Hent). done.
Qed.

(** What an insertion that grows the pool needs. *)
Definition can_grow (pl : platform) (alloc : allocator) (m : hashmap_t) : Prop :=
  should_resize m = true → pl = Windows ∧ size m < 2 ^ 27 ∧ is_Some (alloc (2 * size m)).

Lemma hashmap_insert_ok pl alloc m g k v :
  models 0 m g → has_unused m → v ≠ 0 → can_grow pl alloc m →
  wp (hashmap_insert pl alloc m k v) (λ m', models 0 m' (<[k := v]> g) ∧
    (no_deleted m ∨ should_resize m = true → no_deleted m' ∧ has_unused m')).
Proof.
  intros Hm Hu Hv Hgrow. unfold hashmap_insert. simpl hashmap_insert_.
  pose proof Hm as [(e & He & Hse & _) _ [Hus Hle] _ _ _].
  assert (2 ^ 3 ≤ 2 ^ Z.of_nat e) by (apply Z.pow_le_mono_r; lia).
  destruct (should_resize m) eqn:Hrs.
  - destruct (Hgrow Hrs) as (-> & Hmax & [fresh Hfresh]).
    unfold insert_body at 1. rewrite (models_mutex _ _ _ Hm). cbn [os_mutex_lock mbind outcome_bind].
    destruct (Z.eqb_spec v 0); [done|]. cbn [negb c_assert mbind outcome_bind].
    set (m1 := mkHashmap _ _ _ (0 + 1)).
    assert (models (0 + 1) m1 g) as Hm1 by (by eapply models_lock).
    assert (should_resize m1 = true) as -> by done. apply wp_bind.
    eapply wp_mono; [eapply (resize_ok Windows alloc _ (0 + 1) m1 g fresh); try done; by left|].
    intros m2 (Hm2 & Hnd2 & Hsz2). cbn [size m1] in Hsz2.
    assert (used m2 = used m) as Hus2.
    { rewrite Hus. by destruct Hm2 as [_ _ [-> _] _ _ _]. }
    eapply wp_mono; [eapply (insert_tail_ok 0 m2 g); [done..| |lia]|].
    + apply (no_deleted_unused _ _ _ Hm2); [done|lia].
    + intros m' (Hm' & Hsz' & Hus' & Hnd'). split; [done|]. intros _. split; [by apply Hnd'|].
      apply (no_deleted_unused _ _ _ Hm'); [by apply Hnd'|lia].
  - eapply wp_mono; [eapply (insert_body_ok pl _ 0 m g); try done; by right|].
    intros m' (Hm' & Hsz & Hus' & Hnd'). split; [done|]. intros [Hnd|]; [|done].
    split; [by apply Hnd'|]. rewrite (should_resize_false 0 m g Hm) in Hrs.
    apply (no_deleted_unused _ _ _ Hm'); [by apply Hnd'|lia].
Qed.

(** ** The map as a finite map *)

(** On the platform [pl], with the allocations of [alloc]. *)
#[export] Instance hashmap_finite (pl : platform) (alloc : allocator) : FiniteMap hashmap_t.
Proof.
  refine {|
    fm_insert := hashmap_insert pl alloc;
    fm_remove := hashmap_remove pl;
    fm_select := hashmap_select pl;
    fm_count := hashmap_count pl;
    fm_models := models 0;
    fm_ready m o := has_unused m ∧ match o with Insert _ _ => can_grow pl alloc m | _ => True end
  |}.
  - intros m g k v Hm [Hu Hg] Hv. eapply wp_mono; [by apply hashmap_insert_ok|]. by intros m' [? _].
  - intros m g k Hm [Hu _]. eapply wp_mono; [by apply hashmap_remove_ok|].
    intros [m' r] (? & _ & ?). done.
  - intros m g k Hm [Hu _]. eapply wp_mono; [by apply hashmap_select_ok|].
    intros [m' r] (? & _ & ?). done.
  - intros m g Hm _. eapply wp_mono; [by apply hashmap_count_ok|].
    intros [m' n] (? & _ & ->). by rewrite zlen_map_to_list.
Defined.

(** ** Two hazards *)

Lemma foldl_fail {A B} (f : outcome A → B → outcome A) x l :
  (∀ b, f (Fail x) b = Fail x) → foldl f (Fail x) l = Fail x.
Proof. intros Hf. induction l as [|b l IH]; simpl; [done|]. by rewrite Hf. Qed.

Lemma move_locked rs (p : list item_t) m :
  mutex m = 1 → 0 < zlen (entries p) →
  foldl (λ r item, m ← r;
      if decide (state item = USED) then insert_body Linux rs m (key item) (value item) else Ret m)
    (Ret m) p = Fail Deadlock.
Proof.
  intros Hmu. induction p as [|it p IH]; intros Hp; [done|]. simpl foldl.
  destruct (decide (state it = USED)) as [Hst|Hst].
  - cbn [mbind outcome_bind]. unfold insert_body at 2. rewrite Hmu. simpl. by apply foldl_fail.
  - cbn [mbind outcome_bind]. apply IH.
    assert (entries (it :: p) = entries p) as <-; [|done].
    unfold entries. simpl. unfold entry at 1. by rewrite decide_False.
Qed.

Lemma resize_locked alloc rs m g :
  models 1 m g → 0 < used m → size m < 2 ^ 27 → is_Some (alloc (2 * size m)) →
  resize alloc (insert_body Linux rs) m (s32 (2 * size m)) = Fail Deadlock.
Proof.
  intros [(e & He & Hsz & Hlen) Hent [Hus Hle] _ _ Hmu] Hpos Hmax [fresh Halloc].
  assert (2 ^ 3 ≤ 2 ^ Z.of_nat e) by (apply Z.pow_le_mono_r; lia).
  assert (e ≤ 26)%nat as He'.
  { assert (Z.of_nat e < 27); [|lia]. apply (Z.pow_lt_mono_r_iff 2); lia. }
  unfold resize. rewrite (s32_small (2 * size m)) by lia.
  destruct (Z.ltb_spec (2 * size m) (used m)); [lia|].
  destruct (Z.ltb_spec (2 * size m) 8); [lia|].
  replace (2 * size m) with (2 ^ Z.of_nat (S e)) in * by (rewrite Nat2Z.inj_succ, Z.pow_succ_r; lia).
  rewrite next_pow2_pow2 by lia. unfold fresh_pool, os_alloc. rewrite Halloc. cbn [mbind outcome_bind].
  apply move_locked; [done|]. rewrite Hent, <-Hus. lia.
Qed.

(** Where a thread cannot lock a mutex it holds, the insertion that makes
    the pool grow never returns: it waits for the lock that it took itself. *)
Theorem hashmap_insert_deadlock alloc m g k v :
  models 0 m g → v ≠ 0 → should_resize m = true → size m < 2 ^ 27 →
  is_Some (alloc (2 * size m)) →
  hashmap_insert Linux alloc m k v = Fail Deadlock.
Proof.
  intros Hm Hv Hrs Hmax Halloc. unfold hashmap_insert. simpl hashmap_insert_.
  unfold insert_body at 1. rewrite (models_mutex _ _ _ Hm).
  rewrite (lock_ok Linux 0) by (lia || by right). cbn [mbind outcome_bind].
  destruct (Z.eqb_spec v 0); [done|]. cbn [negb c_assert mbind outcome_bind].
  set (m1 := mkHashmap _ _ _ (0 + 1)).
  assert (models 1 m1 g) as Hm1 by (by eapply models_lock).
  assert (should_resize m1 = true) as -> by done.
  rewrite (resize_locked alloc _ m1 g); [done..| |done|done]. simpl.
  pose proof Hm as [(? & ? & Hsz & _) _ [Hus ?] _ _ _]. pose proof (zlen_nonneg (map_to_list g)).
  destruct (decide (used m * 10 < size m * 7)) as [Hlt|Hge].
  - apply (should_resize_false 0 m g Hm) in Hlt. congruence.
  - assert (0 < size m) by (rewrite Hsz; lia). lia.
Qed.

(** The pools in which every slot is in use or a tombstone. *)
Definition no_unused (m : hashmap_t) : Prop := Forall (λ it, state it ≠ UNUSED) (pool m).

(** With neither an unused slot nor the key, a search goes round for ever. *)
Lemma select_diverges d m g k fuel :
  models d m g → no_unused m → g !! k = None →
  select_loop m fuel (size m - 1) (hashfunc k) k = Fail OutOfFuel.
Proof.
  intros Hm Hnu Hg. unfold select_loop.
  apply (loop_diverges (λ s, ∃ j, s = probe_at (size m - 1) (hashfunc k) j)); [by exists 0%nat|].
  intros s (j & ->). exists (probe_at (size m - 1) (hashfunc k) (S j)). split; [|eauto].
  destruct (models_slot d m g Hm k j) as [it Hit].
  rewrite (probe_at_eta _ _ j), Hit. cbn [mbind outcome_bind].
  assert (state it ≠ UNUSED) as Hst.
  { apply rd_inv in Hit as [_ Hit]. by apply (Forall_lookup_1 _ _ _ _ Hnu Hit). }
  assert (¬ (state it = USED ∧ key it = k)) as Hk.
  { intros [HU <-]. by rewrite (models_lookup d m g Hm _ it Hit HU) in Hg. }
  rewrite !decide_False by done. rewrite bool_decide_true by (by destruct (state it); auto).
  apply probe_continue.
Qed.

(** Inserting and removing keys whose probing starts at the eight slots of a
    new map. *)
Definition spread_script : list map_op :=
  concat ((λ k, [Insert k 1; Remove k]) <$> [6; 1; 4; 12; 9; 3; 2; 7]).

(** The tombstones of removed entries are never reclaimed: after sixteen
    operations a map is empty, and looking up any key in it goes on for ever. *)
Theorem tombstones_hang :
  ∃ m, (m0 ← hashmap_create (λ _, Some (λ _, mkItem UNUSED 0 0)) 8;
        '(m, _) ← run_script (H := hashmap_finite Linux (λ _, None)) spread_script m0;
        Ret m) = Ret m ∧
    used m = 0 ∧ ∀ k fuel, select_loop m fuel (size m - 1) (hashfunc k) k = Fail OutOfFuel.
Proof.
  set (p := replicate 8 (mkItem DELETED 0 UINT64_MAX)).
  exists (mkHashmap p 8 0 0). split; [vm_compute; reflexivity|]. split; [done|].
  intros k fuel. apply (select_diverges 0 (mkHashmap p 8 0 0) ∅); [split|..].
  - exists 3%nat. split; [lia|done].
  - by rewrite map_to_list_empty.
  - rewrite map_to_list_empty. done.
  - intros i it [_ Hi]%rd_inv Hst. simpl in Hi. apply lookup_replicate in Hi as [-> _]. done.
  - apply map_Forall_empty.
  - done.
  - by repeat constructor.
  - apply lookup_empty.
Qed.

(** ** Witnesses *)

Definition example_pool : list item_t :=
  [mkItem USED 5 6; mkItem USED 5 1; mkItem USED 5 4; mkItem USED 5 12;
   mkItem USED 5 9; mkItem USED 5 3; mkItem UNUSED 0 0; mkItem UNUSED 0 0].
Definition example_map : gmap Z Z := list_to_map (entries example_pool).

Lemma example_models : models 0 (mkHashmap example_pool 8 6 0) example_map.
Proof.
  split.
  - exists 3%nat. split; [lia|done].
  - unfold example_map. rewrite map_to_list_to_map; [done|].
    apply (bool_decide_unpack _). vm_compute. reflexivity.
  - split; [vm_compute; reflexivity|done].
  - intros i it Hrd Hst. pose proof (rd_bounds _ _ _ Hrd) as Hi. change (zlen _) with 8 in Hi.
    exists 0%nat. split; [|intros j Hj; lia].
    assert (i = 0 ∨ i = 1 ∨ i = 2 ∨ i = 3 ∨ i = 4 ∨ i = 5 ∨ i = 6 ∨ i = 7)
      as [->|[->|[->|[->|[->|[->|[->| ->]]]]]]] by lia; injection Hrd as <-;
      [vm_compute; reflexivity..|discriminate Hst|discriminate Hst].
  - apply (bool_decide_unpack _). vm_compute. reflexivity.
  - done.
Qed.

Lemma hashmap_insert_deadlock_witness :
  hashmap_insert Linux (λ _, Some (λ _, mkItem UNUSED 0 0)) (mkHashmap example_pool 8 6 0) 2 1 =
    Fail Deadlock.
Proof.
  apply (hashmap_insert_deadlock _ _ example_map).
  - apply example_models.
  - lia.
  - vm_compute. reflexivity.
  - vm_compute. reflexivity.
  - by eexists.
Defined.
