(* ===== verification/HashMapRef.v ===== *)
(** The reference map of [src/hashmap/hash_map_ref.c], and its agreement with
    the hash map. *)
From S2P Require Import Prelude Bits FiniteMap HashMap.

(** ** The code *)

(** [entries] is the array, absent for NULL; an entry is its key and value. *)
Record hashmapref_t : Type := mkRef {
  entries : option (list (Z * Z));
  count : Z;
  capacity : Z;
}.

(** What new memory reads as, for each number of entries. *)
Definition ref_allocator : Type := Z → list (Z * Z).

Definition hashmapref_create : hashmapref_t := mkRef None 0 0.

Definition hashmapref_count (r : hashmapref_t) : Z := count r.

Definition array (r : hashmapref_t) : list (Z * Z) := default [] (entries r).

(** [while (i < count && entries[i].key != key) i++;] *)
Definition find_key (r : hashmapref_t) (k : Z) : outcome Z :=
  loop (S (Z.to_nat (count r)))
    (λ i,
       if i <? count r then
         e ← rd (array r) i;
         if negb (e.1 =? k) then continue (i + 1) else break i
       else break i)
    0.

Definition hashmapref_insert (alloc : ref_allocator) (r : hashmapref_t) (k v : Z)
    : outcome hashmapref_t :=
  i ← find_key r k;
  if i <? count r then
    es ← wr (array r) i (k, v);
    Ret (mkRef (Some es) (count r) (capacity r))
  else
    r ← (match entries r with
         | None => Ret (mkRef (Some (alloc 8)) 0 8)
         | Some es =>
             if count r =? capacity r then
               let new_capacity := s32 (2 * capacity r) in
               old ← rd_range es 0 (count r);
               new_entries ← wr_range (alloc new_capacity) 0 old;
               Ret (mkRef (Some new_entries) (count r) new_capacity)
             else Ret r
         end);
    es ← wr (array r) (count r) (k, v);
    Ret (mkRef (Some es) (count r + 1) (capacity r)).

Definition hashmapref_remove (r : hashmapref_t) (k : Z) : outcome (hashmapref_t * bool) :=
  i ← find_key r k;
  if i =? count r then Ret (r, false)
  else
    e ← rd (array r) (count r - 1);
    es ← wr (array r) i e;
    Ret (mkRef (Some es) (count r - 1) (capacity r), true).

Definition hashmapref_select (r : hashmapref_t) (k : Z) : outcome Z :=
  i ← find_key r k;
  if i =? count r then Ret 0 else e ← rd (array r) i; Ret e.2.

Definition hashmapref_exists (r : hashmapref_t) (k : Z) : outcome bool :=
  v ← hashmapref_select r k; Ret (negb (v =? 0)).

(** ** The entries as a finite map *)

Lemma array_Some l c cap : array (mkRef (Some l) c cap) = l.
Proof. done. Qed.

(** The entries in use, in front of free ones. *)
Definition ref_models (r : hashmapref_t) (g : gmap Z Z) : Prop :=
  ∃ es free, array r = es ++ free ∧ count r = zlen es ∧ capacity r = zlen (array r) ∧
    es ≡ₚ map_to_list g ∧ (entries r = None ↔ capacity r = 0).

Lemma find_key_ok r g k :
  ref_models r g →
  wp (find_key r k) (λ i,
    (i = count r ∧ g !! k = None) ∨
    (∃ a v b free, array r = a ++ (k, v) :: b ++ free ∧ i = zlen a ∧ i < count r ∧
       count r = zlen (a ++ (k, v) :: b) ∧ a ++ (k, v) :: b ≡ₚ map_to_list g ∧ g !! k = Some v)).
Proof.
  intros (es & free & Harr & Hc & _ & Hes & _). unfold find_key. pose proof (zlen_nonneg es).
  apply (wp_loop (λ i, ∃ a b, es = a ++ b ∧ i = zlen a ∧ k ∉ a.*1)
           (λ i, Z.to_nat (count r - i))).
  { exists [], es. split_and!; [done..|]. simpl. apply not_elem_of_nil. }
  { lia. }
  intros i (a & b & -> & -> & Ha). rewrite zlen_app in *. pose proof (zlen_nonneg a).
  destruct (Z.ltb_spec (zlen a) (count r)).
  - destruct b as [|[k' v] b]; [rewrite zlen_nil in *; lia|].
    rewrite Harr, <-app_assoc. simpl ((_ :: _) ++ _).
    rewrite rd_app_r, Z.sub_diag, rd_cons_0 by lia. cbn [mbind outcome_bind fst].
    destruct (Z.eqb_spec k' k) as [->|Hne]; cbn [negb].
    + simpl. right. exists a, v, b, free. split_and!; try done.
      * by rewrite zlen_app.
      * apply elem_of_map_to_list. rewrite <-Hes. apply elem_of_app. right. by left.
    + simpl. split; [|lia]. exists (a ++ [(k', v)]), b. rewrite <-app_assoc, zlen_app.
      split_and!; [done..|]. rewrite fmap_app, not_elem_of_app. split; [done|].
      simpl. by rewrite list_elem_of_singleton.
  - simpl. left. pose proof (zlen_nonneg b). assert (b = []) as -> by (apply zlen_0_inv; lia).
    split; [rewrite zlen_nil in *; lia|]. destruct (g !! k) as [v|] eqn:Hg; [exfalso|done].
    apply elem_of_map_to_list in Hg. rewrite <-Hes, app_nil_r in Hg.
    apply Ha, list_elem_of_fmap. by exists (k, v).
Qed.

Lemma map_perm_replace (g : gmap Z Z) a k v b v' :
  a ++ (k, v) :: b ≡ₚ map_to_list g → g !! k = Some v →
  a ++ (k, v') :: b ≡ₚ map_to_list (<[k := v']> g) ∧ a ++ b ≡ₚ map_to_list (delete k g).
Proof.
  intros Hp Hg. assert (a ++ b ≡ₚ map_to_list (delete k g)) as Hdel.
  { apply (Permutation_cons_inv (a := (k, v))).
    by rewrite (map_to_list_delete g _ _ Hg), <-Hp, Permutation_middle. }
  split; [|done]. rewrite <-Permutation_middle, Hdel, <-(insert_delete_eq g).
  by rewrite map_to_list_insert by apply lookup_delete_eq.
Qed.

Lemma ref_bounds r g :
  ref_models r g → 0 ≤ count r ≤ capacity r ∧ capacity r = zlen (array r) ∧
  count r = zlen (map_to_list g).
Proof.
  intros (es & free & Harr & Hc & Hcap & Hes & _). pose proof (zlen_nonneg es).
  pose proof (zlen_nonneg free). rewrite Hcap, Harr, zlen_app, <-Hes. lia.
Qed.

(** New memory has the number of entries asked for. *)
Definition ref_alloc_ok (alloc : ref_allocator) : Prop := ∀ n, 0 ≤ n → zlen (alloc n) = n.

(** Storing behind the entries in use. *)
Lemma ref_append (arr es free : list (Z * Z)) g k v cap :
  arr = es ++ free → zlen es < zlen arr → cap = zlen arr →
  es ≡ₚ map_to_list g → g !! k = None →
  wp (es' ← wr arr (zlen es) (k, v); Ret (mkRef (Some es') (zlen es + 1) cap))
     (λ r, ref_models r (<[k := v]> g) ∧ capacity r = cap).
Proof.
  intros -> Hlt -> Hes Hg. rewrite zlen_app in Hlt. pose proof (zlen_nonneg es).
  destruct free as [|f free]; [rewrite zlen_nil in *; lia|].
  rewrite wr_ok by (rewrite zlen_app; lia). simpl. split; [|done]. exists (es ++ [(k, v)]), free.
  unfold array. simpl. split_and!.
  - unfold zlen. rewrite Nat2Z.id. rewrite insert_app_r_alt, Nat.sub_diag by lia.
    by rewrite <-app_assoc.
  - rewrite zlen_app. done.
  - by rewrite zlen_insert.
  - by rewrite map_to_list_insert, <-Hes, Permutation_app_comm.
  - rewrite zlen_app. split; [done|lia].
Qed.

Lemma hashmapref_insert_ok alloc r g k v :
  ref_models r g → ref_alloc_ok alloc → capacity r < 2 ^ 30 →
  wp (hashmapref_insert alloc r k v) (λ r', ref_models r' (<[k := v]> g) ∧
    capacity r' ≤ Z.max (Z.max 8 (capacity r)) (2 * count r)).
Proof.
  intros Hr Halloc Hcap. pose proof (ref_bounds _ _ Hr) as (Hc & Hca & _).
  unfold hashmapref_insert. apply wp_bind. eapply wp_mono; [by apply find_key_ok|].
  intros i [[-> Hg]|(a & v0 & b & free & Harr & -> & Hlt & Hcnt & Hp & Hg)].
  - destruct (Z.ltb_spec (count r) (count r)); [lia|].
    destruct Hr as (es & free & Harr & Hcnt & _ & Hes & Hnull).
    destruct (entries r) as [arr|] eqn:Hent; cycle 1.
    + apply proj1 in Hnull. specialize (Hnull eq_refl). cbn [mbind outcome_bind]. unfold array at 1. cbn [entries default count capacity].
      assert (es = []) as -> by (apply zlen_0_inv; lia).
      eapply wp_mono; [apply (ref_append (alloc 8) [] (alloc 8)); [done| |by rewrite Halloc|done..]|].
      * rewrite Halloc by lia. unfold zlen. simpl. lia.
      * intros r' [? ->]. split; [done|lia].
    + assert (array r = arr) as Hra by (unfold array; by rewrite Hent). rewrite Hra in *.
      destruct (Z.eqb_spec (count r) (capacity r)) as [Hfull|Hroom].
      * rewrite s32_small by lia.
        rewrite rd_range_ok by lia. cbn [mbind outcome_bind].
        assert (free = []) as ->.
        { apply zlen_0_inv. rewrite Harr, zlen_app in Hca. lia. }
        rewrite app_nil_r in Harr. subst arr.
        replace (take _ _) with es by (rewrite drop_0, take_ge; [done|unfold zlen in *; lia]).
        destruct (list_split3 (alloc (2 * capacity r)) 0 (zlen es))
          as (x & y & z & Heq & ->%zlen_0_inv & Hy & Hz); [lia|lia|rewrite Halloc; lia|].
        rewrite Heq, wr_range_app by done. cbn [mbind outcome_bind].
        unfold array at 1. simpl. rewrite Hcnt.
        assert (zlen (es ++ z) = 2 * capacity r) as Hlen.
        { rewrite <-(Halloc (2 * capacity r)), Heq by lia. rewrite !zlen_app. unfold zlen. simpl.
          unfold zlen in Hy. lia. }
        eapply wp_mono; [apply (ref_append (es ++ z) es z); [done| |done..]|].
        -- rewrite Hlen. assert (capacity r ≠ 0) by (intros Hz'; by apply Hnull in Hz'). lia.
        -- intros r' [? ->]. split; [done|lia].
      * cbn [mbind outcome_bind]. rewrite Hra, Hcnt.
        eapply wp_mono; [apply (ref_append arr es free); [done|lia|done..]|].
        intros r' [? ->]. split; [done|lia].
  - destruct (Z.ltb_spec (zlen a) (count r)); [|lia].
    pose proof (zlen_nonneg a). rewrite wr_ok by lia. simpl.
    destruct (map_perm_replace g a k v0 b v) as [Hnew _]; [done..|].
    split; [|simpl; lia]. exists (a ++ (k, v) :: b), free. rewrite !array_Some, Harr. cbn [entries count capacity].
    split_and!; [|by rewrite Hcnt, !zlen_app, !zlen_cons| |done|split; [done|lia]].
    + unfold zlen. rewrite Nat2Z.id, insert_app_r_alt, Nat.sub_diag by lia. simpl.
      by rewrite <-app_assoc.
    + rewrite zlen_insert, <-Harr. done.
Qed.

Lemma hashmapref_remove_ok r g k :
  ref_models r g →
  wp (hashmapref_remove r k) (λ '(r', b),
    ref_models r' (delete k g) ∧ b = bool_decide (is_Some (g !! k))).
Proof.
  intros Hr. pose proof (ref_bounds _ _ Hr) as (Hc & Hca & _).
  unfold hashmapref_remove. apply wp_bind. eapply wp_mono; [by apply find_key_ok|].
  intros i [[-> Hg]|(a & v & b & free & Harr & -> & Hlt & Hcnt & Hp & Hg)].
  - rewrite Z.eqb_refl. cbn. rewrite delete_id by done. split; [done|].
    by rewrite Hg.
  - destruct (Z.eqb_spec (zlen a) (count r)); [lia|].
    destruct (map_perm_replace g a k v b v) as [_ Hdel]; [done..|].
    pose proof (zlen_nonneg a). rewrite Hg.
    assert (wp (e ← rd (array r) (count r - 1); wr (array r) (zlen a) e) (λ es,
      ∃ es' free', es = es' ++ free' ∧ zlen es' = count r - 1 ∧ zlen es = zlen (array r) ∧
                   es' ≡ₚ a ++ b)) as Hw.
    { destruct b as [|e b] using rev_ind.
      - rewrite Harr, rd_app_r by (rewrite Hcnt, zlen_app, zlen_cons, zlen_nil; lia).
        rewrite Hcnt, zlen_app, zlen_cons, zlen_nil.
        replace (_ - zlen a) with 0 by lia. rewrite rd_cons_0. cbn [mbind outcome_bind].
        rewrite wr_ok by (rewrite <-Harr; lia). simpl.
        exists a, ((k, v) :: free). unfold zlen at 1. rewrite Nat2Z.id, insert_app_r_alt, Nat.sub_diag by lia.
        simpl. split_and!; [done|lia|by rewrite zlen_insert|by rewrite app_nil_r].
      - clear IHb. rewrite zlen_app, zlen_cons, zlen_app in Hcnt. change (zlen [e]) with 1 in Hcnt.
        rewrite Harr. rewrite <-app_assoc, rd_app_r, rd_cons_S by
          (pose proof (zlen_nonneg b); lia).
        rewrite rd_app_r by lia. replace (_ - _ - _ - _) with 0 by lia. simpl ([e] ++ free).
        rewrite rd_cons_0. cbn [mbind outcome_bind].
        rewrite wr_ok by (rewrite !zlen_app, zlen_cons, zlen_app; pose proof (zlen_nonneg b);
          pose proof (zlen_nonneg (e :: free)); lia). simpl.
        exists (a ++ e :: b), (e :: free). unfold zlen at 1. rewrite Nat2Z.id, insert_app_r_alt, Nat.sub_diag by lia.
        simpl. rewrite <-app_assoc. split_and!; [done| | |].
        + rewrite zlen_app, zlen_cons. lia.
        + by rewrite zlen_insert.
        + by rewrite (Permutation_app_comm b [e]). }
    destruct (rd (array r) (count r - 1)) as [e|]; [|done]. simpl in Hw.
    cbn [mbind outcome_bind]. apply wp_bind. eapply wp_mono; [exact Hw|].
    intros es (es' & free' & -> & Hes' & Hlen & Hperm). simpl. split; [|done].
    exists es', free'. rewrite !array_Some. cbn [entries count capacity].
    split_and!; [done|lia|lia|by rewrite Hperm|split; [done|lia]].
Qed.

Lemma hashmapref_select_ok r g k :
  ref_models r g → wp (hashmapref_select r k) (λ v, v = default 0 (g !! k)).
Proof.
  intros Hr. unfold hashmapref_select. apply wp_bind. eapply wp_mono; [by apply find_key_ok|].
  intros i [[-> Hg]|(a & v & b & free & Harr & -> & Hlt & _ & _ & Hg)].
  - rewrite Z.eqb_refl. simpl. by rewrite Hg.
  - destruct (Z.eqb_spec (zlen a) (count r)); [lia|].
    rewrite Harr, rd_app_r, Z.sub_diag, rd_cons_0 by lia. simpl. by rewrite Hg.
Qed.

#[export] Instance hashmapref_finite (alloc : ref_allocator) (Halloc : ref_alloc_ok alloc) :
  FiniteMap hashmapref_t.
Proof.
  refine {|
    fm_insert := hashmapref_insert alloc;
    fm_remove := hashmapref_remove;
    fm_select r k := v ← hashmapref_select r k; Ret (r, v);
    fm_count r := Ret (r, hashmapref_count r);
    fm_models := ref_models;
    fm_ready r o := capacity r < 2 ^ 30
  |}.
  - intros r g k v Hr Hcap _. eapply wp_mono; [by apply hashmapref_insert_ok|]. by intros r' [? _].
  - intros r g k Hr _. by apply hashmapref_remove_ok.
  - intros r g k Hr _. apply wp_bind. eapply wp_mono; [by apply hashmapref_select_ok|]. by intros v ->.
  - intros r g Hr _. cbn [wp]. split; [done|]. destruct (ref_bounds _ _ Hr) as (_ & _ & Hc). unfold hashmapref_count.
    by rewrite Hc, zlen_map_to_list.
Defined.

(** ** Agreement

    What the test program of the repository looks for by running random
    operations on both maps. *)

Lemma zlen_insert_le (g : gmap Z Z) k v :
  zlen (map_to_list (<[k := v]> g)) ≤ zlen (map_to_list g) + 1.
Proof.
  destruct (g !! k) as [v0|] eqn:Hg.
  - rewrite <-(map_to_list_delete g k v0 Hg), <-(insert_delete_eq g), zlen_cons.
    rewrite map_to_list_insert by apply lookup_delete_eq. rewrite zlen_cons. lia.
  - rewrite map_to_list_insert by done. rewrite zlen_cons. lia.
Qed.

Definition no_removal (o : map_op) : Prop := match o with Remove _ => False | _ => True end.

(** Scripts without removals never bring the hash map into trouble. *)
Lemma ready_along_hashmap alloc ops m g :
  models 0 m g → no_deleted m → has_unused m → Forall valid_op ops → Forall no_removal ops →
  used m + zlen ops ≤ 2 ^ 26 → (∀ n, is_Some (alloc n)) →
  ready_along (H := hashmap_finite Windows alloc) ops m.
Proof.
  intros Hm Hnd Hu Hv Hops Hsmall Halloc. revert m g Hm Hnd Hu Hsmall.
  induction ops as [|o ops IH]; intros m g Hm Hnd Hu Hsmall; [done|].
  apply Forall_cons in Hv as [Hvo Hv]. apply Forall_cons in Hops as [Hoo Hops].
  rewrite zlen_cons in Hsmall. pose proof (zlen_nonneg ops).
  assert (can_grow Windows alloc m) as Hgrow.
  { intros Hrs. split; [done|]. split; [|done].
    destruct (decide (used m * 10 < size m * 7)) as [Hlt|Hge]; [|lia].
    apply (should_resize_false 0 m g Hm) in Hlt. congruence. }
  split; [by destruct o|]. intros m' r Hrun. destruct o as [k v|k|k|]; [|done| |].
  - pose proof (hashmap_insert_ok Windows alloc m g k v Hm Hu Hvo Hgrow) as Hi.
    simpl in Hrun. destruct (hashmap_insert Windows alloc m k v) as [m1|]; [|done].
    simpl in Hrun. injection Hrun as -> _. destruct Hi as [Hm' Hi].
    destruct Hi as [Hnd' Hu']; [by left|]. eapply IH; [done..|].
    pose proof (zlen_insert_le g k v).
    destruct Hm as [_ _ [Hu1 _] _ _ _], Hm' as [_ _ [Hu2 _] _ _ _]. lia.
  - pose proof (hashmap_select_ok Windows m g k Hm Hu) as Hs.
    simpl in Hrun. rewrite Hrun in Hs. destruct Hs as (Hm' & Hp & _).
    eapply IH; [done..|exact Hm'| | |].
    + unfold no_deleted. by rewrite Hp.
    + unfold has_unused. by rewrite Hp.
    + destruct Hm as [_ _ [Hu1 _] _ _ _], Hm' as [_ _ [Hu2 _] _ _ _]. lia.
  - pose proof (hashmap_count_ok Windows m g Hm) as Hs.
    simpl in Hrun. rewrite Hrun in Hs. destruct Hs as (Hm' & Hp & _).
    eapply IH; [done..|exact Hm'| | |].
    + unfold no_deleted. by rewrite Hp.
    + unfold has_unused. by rewrite Hp.
    + destruct Hm as [_ _ [Hu1 _] _ _ _], Hm' as [_ _ [Hu2 _] _ _ _]. lia.
Qed.

Lemma ready_along_ref ralloc (Hr : ref_alloc_ok ralloc) ops r g :
  ref_models r g → Forall valid_op ops → capacity r ≤ 2 ^ 27 → count r + zlen ops ≤ 2 ^ 26 →
  ready_along (H := hashmapref_finite ralloc Hr) ops r.
Proof.
  intros Hm Hv. revert r g Hm. induction Hv as [|o ops Ho _ IH]; intros r g Hm Hcap Hcnt; [done|].
  rewrite zlen_cons in Hcnt. pose proof (zlen_nonneg ops).
  pose proof (ref_bounds _ _ Hm) as (? & _ & Hcm). split; [simpl; lia|].
  intros r' x Hrun. destruct o as [k v|k|k|]; simpl in Hrun.
  - pose proof (hashmapref_insert_ok ralloc r g k v Hm Hr ltac:(lia)) as Hi.
    destruct (hashmapref_insert ralloc r k v) as [r1|]; [|done].
    simpl in Hrun. injection Hrun as -> _. destruct Hi as [Hm' Hcap'].
    pose proof (ref_bounds _ _ Hm') as (_ & _ & Hcm'). pose proof (zlen_insert_le g k v).
    eapply IH; [done|lia|lia].
  - pose proof (hashmapref_remove_ok r g k Hm) as Hi.
    assert (∀ r1 b, hashmapref_remove r k = Ret (r1, b) → capacity r1 = capacity r) as Hsame.
    { intros r1 b. unfold hashmapref_remove. destruct (find_key r k) as [i|]; [|done]. simpl.
      destruct (i =? count r); [by intros [= <- _]|].
      destruct (rd _ _); [|done]. simpl. destruct (wr _ _ _); [|done]. by intros [= <- _]. }
    destruct (hashmapref_remove r k) as [[r1 b]|] eqn:He; [|done].
    simpl in Hrun. injection Hrun as -> _. destruct Hi as [Hm' _].
    pose proof (ref_bounds _ _ Hm') as (_ & _ & Hcm').
    specialize (Hsame _ _ eq_refl). eapply IH; [done|lia|].
    assert (zlen (map_to_list (delete k g)) ≤ zlen (map_to_list g)); [|lia].
    destruct (g !! k) as [v|] eqn:Hg; [|by rewrite delete_id].
    rewrite <-(map_to_list_delete g k v Hg), zlen_cons. lia.
  - destruct (hashmapref_select r k); [|done]. simpl in Hrun. injection Hrun as <- _.
    eapply IH; [done|lia|lia].
  - injection Hrun as <- _. eapply IH; [done|lia|lia].
Qed.

Lemma ref_models_create : ref_models hashmapref_create ∅.
Proof. exists [], []. rewrite map_to_list_empty. done. Qed.

Lemma hashmap_create_ok alloc init_size fresh :
  init_size ≤ 2 ^ 27 → alloc (next_pow2 (Z.max 8 init_size)) = Some fresh →
  wp (hashmap_create alloc init_size) (λ m, models 0 m ∅ ∧ no_deleted m ∧ has_unused m ∧ used m = 0 ∧
    next_pow2_spec (Z.max 8 init_size) (size m)).
Proof.
  intros Hsize Halloc. unfold hashmap_create.
  replace (if init_size <? 8 then 8 else init_size) with (Z.max 8 init_size)
    by (destruct (Z.ltb_spec init_size 8); lia).
  unfold fresh_pool, os_alloc. rewrite Halloc. cbn [mbind outcome_bind wp].
  rewrite next_pow2_ok by lia. set (s := Z.max 8 init_size) in *.
  pose proof (next_pow2_log2 s ltac:(lia)) as Hspec.
  set (j := Z.log2 (s - 1) + 1) in *.
  assert (3 ≤ j ≤ 27) as Hj.
  { unfold j. split.
    - assert (2 ≤ Z.log2 (s - 1)); [|lia]. apply Z.log2_le_pow2; lia.
    - assert (Z.log2 (s - 1) < 27); [|lia]. apply Z.log2_lt_pow2; lia. }
  replace (2 ^ j) with (2 ^ Z.of_nat (Z.to_nat j)) in * by (rewrite Z2Nat.id; lia).
  assert (models 0 (mkHashmap (mark_unused <$> (fresh <$> seq 0 (Z.to_nat (2 ^ Z.of_nat (Z.to_nat j)))))
            (2 ^ Z.of_nat (Z.to_nat j)) 0 0) ∅) as Hm by (apply models_empty; lia).
  assert (no_deleted (mkHashmap (mark_unused <$> (fresh <$> seq 0 (Z.to_nat (2 ^ Z.of_nat (Z.to_nat j)))))
            (2 ^ Z.of_nat (Z.to_nat j)) 0 0)) as Hnd.
  { unfold no_deleted. simpl. eapply Forall_impl; [apply fresh_state|]. by intros it ->. }
  split_and!; [done|done| |done|done]. apply (no_deleted_unused _ _ _ Hm Hnd). simpl. lia.
Qed.

(** C14.  The hash map, created with 8 slots and with a lock that can be
    entered again (that of Windows: under Linux growing blocks for ever, see
    [HashMap]), and the reference map give the same answers, those of a finite
    map, to scripts of at most 2^26 insertions of non-zero values, removals,
    lookups and counts, memory not failing: to every one without removals,
    growth included, and to every one with removals in which before each
    operation some slot of the pool is still unused, neither an entry nor
    deleted, and the pool can double its size if it has to ([ready_along];
    without an unused slot a lookup does not end, see [HashMap]). *)
Theorem hashmap_agrees_with_ref alloc ralloc (Hralloc : ref_alloc_ok ralloc) ops m0 :
  (∀ n, is_Some (alloc n)) → hashmap_create alloc 8 = Ret m0 →
  Forall valid_op ops → zlen ops ≤ 2 ^ 26 →
  Forall no_removal ops ∨ ready_along (H := hashmap_finite Windows alloc) ops m0 →
  wp (run_script (H := hashmap_finite Windows alloc) ops m0) (λ '(_, outs),
    outs = answers ops ∅ ∧
    wp (run_script (H := hashmapref_finite ralloc Hralloc) ops hashmapref_create) (λ '(_, outs'),
      outs' = outs)).
Proof.
  intros Halloc Hcreate Hv Hlen Hready.
  destruct (Halloc (next_pow2 (Z.max 8 8))) as [fresh Hfresh].
  pose proof (hashmap_create_ok alloc 8 fresh ltac:(lia) Hfresh) as Hm0. rewrite Hcreate in Hm0.
  destruct Hm0 as (Hm0 & Hnd & Hu & Hus & _).
  eapply wp_mono; [eapply (run_script_ok (H := hashmap_finite Windows alloc) ops m0 ∅)|].
  - done.
  - destruct Hready as [Hrem|]; [|done].
    apply (ready_along_hashmap alloc ops m0 ∅); try done. lia.
  - done.
  - intros [m outs] [_ ->]. split; [done|].
    eapply wp_mono; [eapply (run_script_ok (H := hashmapref_finite ralloc Hralloc) ops _ ∅)|].
    + apply ref_models_create.
    + apply (ready_along_ref ralloc Hralloc ops _ ∅); [apply ref_models_create|done|simpl; lia|simpl; lia].
    + done.
    + by intros [r outs'] [_ ->].
Qed.

Definition example_fresh : allocator := λ _, Some (λ _, mkItem DELETED 7 7).
Definition example_start : hashmap_t := mkHashmap (replicate 8 (mkItem UNUSED 7 7)) 8 0 0.
Definition example_ref (n : Z) : list (Z * Z) := replicate (Z.to_nat n) (0, 0).
Definition example_script : list map_op :=
  [Insert 1 10; Insert 2 20; Remove 1; Count; Insert 1 30; Select 1; Remove 3; Select 2].

Lemma example_ref_ok : ref_alloc_ok example_ref.
Proof. intros n Hn. unfold example_ref. rewrite zlen_replicate. lia. Qed.

(** The last slot is never used. *)
Lemma example_ready : ready_along (H := hashmap_finite Windows example_fresh) example_script example_start.
Proof.
  unfold example_script.
  repeat (split; [split; [exists 7, (mkItem UNUSED 7 7); by vm_compute|try done; intros Hrs; by vm_compute in Hrs]|];
    intros ? ? Hrun; vm_compute in Hrun; injection Hrun as <- <-).
  exact I.
Qed.

Lemma hashmap_agrees_with_ref_witness :
  wp (run_script (H := hashmap_finite Windows example_fresh) example_script example_start) (λ '(_, outs),
    outs = [0; 0; 1; 1; 0; 30; 0; 20] ∧
    wp (run_script (H := hashmapref_finite example_ref example_ref_ok) example_script hashmapref_create)
      (λ '(_, outs'), outs' = outs)).
Proof.
  assert (answers example_script ∅ = [0; 0; 1; 1; 0; 30; 0; 20]) as <- by (by vm_compute).
  apply (hashmap_agrees_with_ref example_fresh).
  - intros n. by eexists.
  - vm_compute. reflexivity.
  - repeat constructor; simpl; lia.
  - vm_compute. discriminate.
  - right. exact example_ready.
Defined.
