(* ===== verification/HttpParse.v ===== *)
(** The HTTP request parser of [src/http/parse.c]. *)
From S2P Require Import Prelude.

(** ** The code *)

(** [struct slice]: [size] characters from the offset [off] of the array
    [base]. *)
Record slice : Type := mkSlice {
  base : list Z;
  off : Z;
  size : Z;
}.

Definition at_ (s : slice) (i : Z) : outcome Z := rd (base s) (off s + i).

(** What a slice holds. *)
Definition text (s : slice) : outcome (list Z) := rd_range (base s) (off s) (size s).

Inductive method : Set :=
  | M_GET | M_POST | M_HEAD | M_PUT | M_DELETE | M_CONNECT | M_OPTIONS | M_TRACE | M_PATCH.

#[global] Instance method_eq_dec : EqDecision method.
Proof. solve_decision. Defined.

Definition MAX_HEADERS : Z := 32.

Record request : Type := mkRequest {
  m : method;
  path : slice;
  major : Z;
  minor : Z;
  hs : list (slice * slice);
}.

(** What the parser answers; [*r] matters after [P_OK] only. *)
Inductive parse_result : Type :=
  | P_OK (r : request)
  | P_INCOMPLETE
  | P_BADMETHOD
  | P_BADVERSION
  | P_BADHEADER.

Definition is_digit (c : Z) : bool := (c_0 <=? c) && (c <=? c_9).
Definition is_space (c : Z) : bool := (c =? SP) || (c =? TAB) || (c =? CR) || (c =? LF).

(** [src[off] == s[0] && src[off+1] == s[1] && ...] *)
Fixpoint match_at (src : list Z) (off : Z) (s : list Z) : outcome bool :=
  match s with
  | [] => Ret true
  | c :: s => x ← rd src off; if x =? c then match_at src (off + 1) s else Ret false
  end.

(** [len > length of s - 1 && src[0] == ...] *)
Definition starts (src : list Z) (len : Z) (s : string) : outcome bool :=
  if zlen (chars s) - 1 <? len then match_at src 0 (chars s) else Ret false.

Definition methods : list (string * method) :=
  [("GET"%string, M_GET); ("HEAD"%string, M_HEAD); ("POST"%string, M_POST);
   ("PUT"%string, M_PUT); ("DELETE"%string, M_DELETE); ("CONNECT"%string, M_CONNECT);
   ("OPTIONS"%string, M_OPTIONS); ("TRACE"%string, M_TRACE); ("PATCH"%string, M_PATCH)].

(** The chain of [if]s: the method, and the cursor behind it. *)
Fixpoint parse_method_ (src : list Z) (len : Z) (ms : list (string * method))
    : outcome (option (method * Z)) :=
  match ms with
  | [] => Ret None
  | (s, mt) :: ms =>
      b ← starts src len s;
      if b : bool then Ret (Some (mt, zlen (chars s))) else parse_method_ src len ms
  end.
Definition parse_method (src : list Z) (len : Z) : outcome (option (method * Z)) :=
  parse_method_ src len methods.

(** [cur == len || src[cur] != c] *)
Definition not_char (src : list Z) (len cur c : Z) : outcome bool :=
  if cur =? len then Ret true else x ← rd src cur; Ret (negb (x =? c)).

(** [cur+1 >= len || src[cur] != '\r' || src[cur+1] != '\n'] *)
Definition not_crlf (src : list Z) (len cur : Z) : outcome bool :=
  if len <=? cur + 1 then Ret true
  else b ← match_at src cur [CR; LF]; Ret (negb b).

(** The loop over the headers: one round, and the loop. *)
Definition header_step (src : list Z) (len : Z) (st : Z * list (slice * slice))
    : outcome (Z * list (slice * slice) + option (list (slice * slice))) :=
  let '(cur, hs) := st in
  more ← not_crlf src len cur;
  if negb more then break (Some hs)
  else
    let start := cur in
    cur ← skip_while (λ c, negb (c =? c_colon)) src len cur;
    let name := mkSlice src start (cur - start) in
    if cur =? len then break None
    else
      let cur := cur + 1 in
      let start := cur in
      cur ← skip_while (λ c, negb (c =? CR)) src len cur;
      let value := mkSlice src start (cur - start) in
      let cur := cur + 1 in
      bad ← not_char src len cur LF;
      if bad : bool then break None
      else
        let cur := cur + 1 in
        continue (cur, if zlen hs <? MAX_HEADERS then hs ++ [(name, value)] else hs).

Definition parse_headers (src : list Z) (len cur : Z) : outcome (option (list (slice * slice))) :=
  loop (S (Z.to_nat (len - cur))) (header_step src len) (cur, []).

(** HTTP/, a digit, and maybe a dot and another digit; what is behind it, the
    two numbers. *)
Definition parse_version (src : list Z) (len cur : Z) : outcome (option (Z * Z * Z)) :=
  ok ← (if len <=? cur + 4 then Ret false
        else b ← match_at src cur (chars "HTTP/");
             if b : bool then d ← rd src (cur + 5); Ret (is_digit d) else Ret false);
  if negb ok then Ret None
  else
    let cur := cur + 5 in
    d ← rd src cur;
    let major := d - c_0 in
    let cur := cur + 1 in
    nodot ← (if cur <? len then x ← rd src cur; Ret (negb (x =? c_dot)) else Ret true);
    if negb nodot then
      let cur := cur + 1 in
      if cur =? len then Ret None
      else
        d ← rd src cur;
        if negb (is_digit d) then Ret None else Ret (Some (cur + 1, major, d - c_0))
    else Ret (Some (cur, major, 0)).

Definition parse_request_head (src : list Z) (len : Z) : outcome parse_result :=
  meth ← parse_method src len;
  match meth with
  | None => Ret P_BADMETHOD
  | Some (mt, cur) =>
      bad ← not_char src len cur SP;
      if bad : bool then Ret P_INCOMPLETE
      else
        let cur := cur + 1 in
        let start := cur in
        cur ← skip_while (λ c, negb (c =? SP)) src len cur;
        let p := mkSlice src start (cur - start) in
        bad ← not_char src len cur SP;
        if bad : bool then Ret P_INCOMPLETE
        else
          version ← parse_version src len (cur + 1);
          match version with
          | None => Ret P_BADVERSION
          | Some (cur, major, minor) =>
              bad ← not_crlf src len cur;
              if bad : bool then Ret P_INCOMPLETE
              else
                headers ← parse_headers src len (cur + 2);
                match headers with
                | None => Ret P_BADHEADER
                | Some hs => Ret (P_OK (mkRequest mt p major minor hs))
                end
          end
  end.

Definition to_lower (c : Z) : Z :=
  if (c_A <=? c) || (c <=? c_Z) then s8 (c - c_A + c_a) else c.

Definition string_match_case_insensitive (x y : slice) : outcome bool :=
  if negb (size x =? size y) then Ret false
  else
    loop (S (Z.to_nat (size x)))
      (λ i,
         if i <? size x then
           c ← at_ x i; d ← at_ y i;
           if negb (to_lower c =? to_lower d) then break false else continue (i + 1)
         else break true)
      0.

(** [str] is the text of a C string, its terminator left out. *)
Definition str_to_slice (str : list Z) : slice := mkSlice (str ++ [0]) 0 (zlen str).

Definition match_header_name (s1 : slice) (s2 : list Z) : outcome bool :=
  string_match_case_insensitive s1 (str_to_slice s2).

(** [while (cur < s.size && p(s.data[cur])) cur++;] *)
Definition skip_in (p : Z → bool) (s : slice) (cur : Z) : outcome Z :=
  loop (S (Z.to_nat (size s - cur)))
    (λ cur,
       if cur <? size s then c ← at_ s cur; if p c then continue (cur + 1) else break cur
       else break cur)
    cur.

Definition trim (s : slice) : outcome slice :=
  cur ← skip_in is_space s 0;
  if cur =? size s then Ret (mkSlice [0] 0 0)
  else
    n ← loop (S (Z.to_nat (size s)))
          (λ n, c ← at_ s (n - 1); if is_space c then continue (n - 1) else break n)
          (size s);
    Ret (mkSlice (base s) (off s) n).

Definition match_header_value (s1 : slice) (s2 : list Z) : outcome bool :=
  x ← trim s1; y ← trim (str_to_slice s2); string_match_case_insensitive x y.

Fixpoint find_header_in (hs : list (slice * slice)) (name : list Z) : outcome (option slice) :=
  match hs with
  | [] => Ret None
  | (n, v) :: hs =>
      b ← match_header_name n name;
      if b : bool then Ret (Some v) else find_header_in hs name
  end.
Definition find_header (r : request) (name : list Z) : outcome (option slice) :=
  find_header_in (hs r) name.

(** [do ... while (cur < size && is_digit(data[cur]))], accumulating; [None]
    on overflow. *)
Definition parse_digits (s : slice) (cur : Z) : outcome (option (Z * Z)) :=
  loop (S (Z.to_nat (size s - cur)))
    (λ '(x, cur),
       c ← at_ s cur;
       let d := c - c_0 in
       if (SIZE_MAX - d) / 10 <? x then break None
       else
         let x := u64 (x * 10 + d) in
         let cur := cur + 1 in
         again ← (if cur <? size s then c ← at_ s cur; Ret (is_digit c) else Ret false);
         if again : bool then continue (x, cur) else break (Some (x, cur)))
    (0, cur).

Definition parse_content_length (s : slice) : outcome Z :=
  cur ← skip_in is_space s 0;
  nodigit ← (if cur =? size s then Ret true else c ← at_ s cur; Ret (negb (is_digit c)));
  if nodigit : bool then Ret SIZE_MAX
  else
    r ← parse_digits s cur;
    match r with
    | None => Ret SIZE_MAX
    | Some (x, cur) =>
        cur ← skip_in is_space s cur;
        if negb (cur =? size s) then Ret SIZE_MAX else Ret x
    end.

Definition find_and_parse_content_length (r : request) : outcome Z :=
  value ← find_header r (chars "Content-Length");
  match value with None => Ret SIZE_MAX | Some value => parse_content_length value end.

Definition T_CHUNKED : Z := 1.
Definition T_COMPRESS : Z := 2.
Definition T_DEFLATE : Z := 4.
Definition T_GZIP : Z := 8.

Definition encodings : list (string * Z) :=
  [("chunked"%string, T_CHUNKED); ("compress"%string, T_COMPRESS);
   ("deflate"%string, T_DEFLATE); ("gzip"%string, T_GZIP)].

(** The chain of [if]s: the flag and the length of the encoding at [cur]. *)
Fixpoint encoding_at (s : slice) (cur : Z) (es : list (string * Z)) : outcome (option (Z * Z)) :=
  match es with
  | [] => Ret None
  | (e, flag) :: es =>
      b ← (if cur + (zlen (chars e) - 1) <? size s
           then match_at (base s) (off s + cur) (chars e) else Ret false);
      if b : bool then Ret (Some (flag, zlen (chars e))) else encoding_at s cur es
  end.

Definition find_and_parse_transfer_encoding (r : request) : outcome Z :=
  value ← find_header r (chars "Transfer-Encoding");
  match value with
  | None => Ret 0
  | Some s =>
      loop (S (Z.to_nat (size s)))
        (λ '(cur, res),
           cur ← skip_in (λ c, is_space c || (c =? c_comma)) s cur;
           e ← encoding_at s cur encodings;
           match e with
           | Some (flag, n) => continue (cur + n, Z.lor res flag)
           | None => break (-1)
           end)
        (0, 0)
  end.

(** ** Positions *)

Lemma wp_match_at src off s (Q : bool → Prop) :
  0 ≤ off → off + zlen s ≤ zlen src →
  (∀ b, (b = true → ∀ i, 0 ≤ i < zlen s → rd src (off + i) = rd s i) → Q b) →
  wp (match_at src off s) Q.
Proof.
  revert off Q. induction s as [|c s IH]; intros off Q Hoff Hlen HQ; simpl.
  { apply HQ. intros _ i. unfold zlen. simpl. lia. }
  rewrite zlen_cons in *. pose proof (zlen_nonneg s).
  apply wp_bind, wp_rd; [lia|]. intros x _ Hx. destruct (Z.eqb_spec x c) as [->|].
  - apply IH; [lia..|]. intros b Hb. apply HQ. intros Htrue i Hi.
    destruct (decide (i = 0)) as [->|]; [by rewrite Z.add_0_r|].
    rewrite rd_cons_S by lia. rewrite <-Hb by (done || lia). f_equal. lia.
  - apply HQ. done.
Qed.

Lemma match_at_app pre s post off :
  off = zlen pre → match_at (pre ++ s ++ post) off s = Ret true.
Proof.
  intros ->. revert pre. induction s as [|c s IH]; intros pre; [done|]. simpl.
  rewrite rd_app_r, Z.sub_diag by lia. simpl. rewrite Z.eqb_refl.
  specialize (IH (pre ++ [c])). rewrite <-app_assoc, zlen_app in IH. exact IH.
Qed.

Lemma wp_not_char src len cur c (Q : bool → Prop) :
  0 ≤ cur ≤ len → len ≤ zlen src →
  (∀ b, (b = false → cur < len ∧ rd src cur = Ret c) → Q b) →
  wp (not_char src len cur c) Q.
Proof.
  intros ?? HQ. unfold not_char. destruct (Z.eqb_spec cur len).
  - apply HQ. done.
  - apply wp_bind, wp_rd; [lia|]. intros x _ Hx. apply HQ. intros Hb.
    destruct (Z.eqb_spec x c) as [->|]; [split; [lia|done]|done].
Qed.

Lemma not_char_app pre c post len cur :
  cur = zlen pre → cur < len → not_char (pre ++ c :: post) len cur c = Ret false.
Proof.
  intros -> ?. unfold not_char. destruct (Z.eqb_spec (zlen pre) len); [lia|].
  rewrite rd_app_r, Z.sub_diag by lia. simpl. by rewrite Z.eqb_refl.
Qed.

Lemma wp_not_crlf src len cur (Q : bool → Prop) :
  0 ≤ cur → len ≤ zlen src → (∀ b, (b = false → cur + 1 < len) → Q b) →
  wp (not_crlf src len cur) Q.
Proof.
  intros ?? HQ. unfold not_crlf. destruct (Z.leb_spec len (cur + 1)); [by apply HQ|].
  apply wp_bind, wp_match_at; [done|unfold zlen at 1; simpl; lia|]. intros b _. by apply HQ.
Qed.

(** ** Safety *)

(** The head of a request as the server cuts it: the front of a buffer up to
    an empty line, its line feed included. *)
Definition ends_in_blank_line (src : list Z) (len : Z) : Prop :=
  4 ≤ len ≤ zlen src ∧ rd_range src (len - 4) 4 = Ret [CR; LF; CR; LF].

Lemma blank_line_at src len :
  ends_in_blank_line src len →
  4 ≤ len ≤ zlen src ∧ rd src (len - 4) = Ret CR ∧ rd src (len - 3) = Ret LF ∧
  rd src (len - 2) = Ret CR ∧ rd src (len - 1) = Ret LF.
Proof.
  intros [Hlen (_ & _ & _ & Hel)%rd_range_elements]. split; [done|].
  pose proof (Hel 0 ltac:(lia)) as H0. pose proof (Hel 1 ltac:(lia)) as H1.
  pose proof (Hel 2 ltac:(lia)) as H2. pose proof (Hel 3 ltac:(lia)) as H3.
  replace (len - 4 + 0) with (len - 4) in H0 by lia. replace (len - 4 + 1) with (len - 3) in H1 by lia.
  replace (len - 4 + 2) with (len - 2) in H2 by lia. replace (len - 4 + 3) with (len - 1) in H3 by lia.
  done.
Qed.

(** A slice that lies inside of the first [len] characters of a text. *)
Definition inside (src : list Z) (len : Z) (s : slice) : Prop :=
  base s = src ∧ 0 ≤ off s ∧ 0 ≤ size s ∧ off s + size s ≤ len.

Lemma parse_method_safe src len ms :
  len ≤ zlen src → Forall (λ '(s, _), 0 < zlen (chars s)) ms →
  wp (parse_method_ src (len) ms) (λ r,
    match r with Some (_, cur) => 0 ≤ cur ≤ len | None => True end).
Proof.
  intros Hlen. induction 1 as [|[s mt] ms Hs _ IH]; simpl; [done|]. unfold starts.
  destruct (Z.ltb_spec (zlen (chars s) - 1) (len)); [|exact IH].
  apply wp_bind, wp_match_at; [lia|lia|]. intros [] _; [simpl; lia|exact IH].
Qed.

Lemma wp_scan p src len cur (Q : Z → Prop) :
  0 ≤ cur ≤ len → len ≤ zlen src → (∀ r, cur ≤ r ≤ len → Q r) → wp (skip_while p src len cur) Q.
Proof. intros ?? HQ. apply wp_skip_while; [done..|]. intros r ? _ _. by apply HQ. Qed.

Lemma parse_headers_safe src len cur :
  ends_in_blank_line src len → 0 ≤ cur ≤ len →
  wp (parse_headers src (len) cur) (λ r,
    match r with
    | Some hs => zlen hs ≤ MAX_HEADERS ∧ Forall (λ '(n, v), inside src len n ∧ inside src len v) hs
    | None => True
    end).
Proof.
  intros ([H4 Hlen] & Hm4 & Hm3 & Hm2 & Hm1)%blank_line_at Hcur. unfold parse_headers.
  apply (wp_loop (λ '(cur, hs), 0 ≤ cur ≤ len ∧ zlen hs ≤ MAX_HEADERS ∧
             Forall (λ '(n, v), inside src len n ∧ inside src len v) hs)
           (λ '(cur, _), Z.to_nat (len - cur))); [split; [lia|split; [done|constructor]]|lia|].
  clear cur Hcur. intros [cur hs] (Hcur & Hmax & Hall).
  apply wp_bind, wp_not_crlf; [lia..|]. intros [] _; [|done]. simpl. apply wp_bind.
  apply wp_skip_while; [lia..|]. intros c1 Hc1 _ Hstop1.
  destruct (Z.eqb_spec c1 (len)); [done|].
  destruct Hstop1 as (x & Hx & Hcolon); [lia|].
  assert (c1 < len - 4) as Hc1'.
  { destruct (Z.lt_ge_cases c1 (len - 4)); [done|exfalso].
    assert (c1 = len - 4 ∨ c1 = len - 3 ∨ c1 = len - 2 ∨ c1 = len - 1)
      as [->|[->|[->| ->]]] by lia; rewrite ?Hm4, ?Hm3, ?Hm2, ?Hm1 in Hx; injection Hx as <-;
      discriminate. }
  apply wp_bind, wp_skip_while; [lia..|]. intros c2 Hc2 Hin Hstop2.
  assert (c2 ≤ len - 4) as Hc2'.
  { destruct (Z.le_gt_cases c2 (len - 4)); [done|exfalso].
    destruct (Hin (len - 4)) as (y & Hy & Hny); [lia|].
    rewrite Hm4 in Hy. injection Hy as <-. discriminate. }
  apply wp_bind, wp_not_char; [lia..|]. intros [] Hlf; [done|]. simpl.
  split; [|lia]. split; [lia|]. destruct (Z.ltb_spec (zlen hs) MAX_HEADERS); [|done].
  rewrite zlen_app. change (zlen [_]) with 1. split; [lia|].
  apply Forall_app. split; [done|]. constructor; [|done]. unfold inside. simpl. split_and!; done || lia.
Qed.

(** The version is followed by something, since the text ends in an empty line. *)
Lemma parse_version_safe src len c :
  ends_in_blank_line src len → 0 ≤ c ≤ len →
  wp (parse_version src (len) c) (λ v, match v with
    | Some (c', major, minor) => 0 ≤ c' ≤ len ∧ 0 ≤ major ≤ 9 ∧ 0 ≤ minor ≤ 9
    | None => True
    end).
Proof.
  intros Hend Hc. pose proof (blank_line_at src len Hend) as ([H4 Hlen] & _ & _ & _ & Hlast). unfold parse_version.
  apply wp_bind. eapply wp_mono with (Q := λ ok, ok = true → c + 5 < len ∧
    ∃ d, rd src (c + 5) = Ret d ∧ is_digit d = true).
  { destruct (Z.leb_spec (len) (c + 4)); [done|].
    apply wp_bind, wp_match_at; [lia|change (zlen (chars "HTTP/")) with 5; lia|].
    intros [] Hmatch; [|done]. assert (c + 5 ≠ len) as Hne.
    { intros He. specialize (Hmatch eq_refl 4). replace (c + 4) with (len - 1) in Hmatch by lia.
      rewrite Hlast in Hmatch. discriminate Hmatch. by change (zlen (chars "HTTP/")) with 5. }
    apply wp_bind, wp_rd; [lia|]. intros d _ Hd. simpl. intros ?. split; [lia|eauto]. }
  intros [] Hd; [|done]. destruct Hd as (Hc5 & d & Hd & Hdigit); [done|]. cbn [negb]. rewrite Hd.
  cbn [mbind outcome_bind]. unfold is_digit in Hdigit.
  apply wp_bind. eapply wp_mono with (Q := λ b, b = false → c + 6 < len).
  { destruct (Z.ltb_spec (c + 5 + 1) (len)); [|done].
    apply wp_bind, wp_rd; [lia|]. intros x _ _. simpl. lia. }
  intros nodot Hdot. destruct nodot; simpl; [lia|].
  destruct (Z.eqb_spec (c + 5 + 1 + 1) (len)); [done|].
  specialize (Hdot eq_refl). apply wp_bind, wp_rd; [lia|]. intros d2 _ _.
  destruct (is_digit d2) eqn:Hd2; simpl; [|done]. unfold is_digit in Hd2. lia.
Qed.

(** The parser stays inside of the head. *)
Lemma parse_request_head_ok src len :
  ends_in_blank_line src len →
  wp (parse_request_head src (len)) (λ r,
    match r with
    | P_OK q => inside src len (path q) ∧ 0 ≤ major q ≤ 9 ∧ 0 ≤ minor q ≤ 9 ∧
        zlen (hs q) ≤ MAX_HEADERS ∧ Forall (λ '(n, v), inside src len n ∧ inside src len v) (hs q)
    | _ => True
    end).
Proof.
  intros Hend. pose proof (blank_line_at src len Hend) as ([H4 Hlen] & _ & _ & _ & Hlast).
  unfold parse_request_head. apply wp_bind.
  eapply wp_mono; [apply parse_method_safe; by repeat constructor|].
  intros [[mt cur]|]; [|done]. intros Hcur.
  apply wp_bind, wp_not_char; [lia..|]. intros [] Hsp; [done|]. destruct Hsp as [Hsp _]; [done|].
  apply wp_bind, wp_scan; [lia..|]. intros c1 Hc1.
  apply wp_bind, wp_not_char; [lia..|]. intros [] Hsp2; [done|]. destruct Hsp2 as [Hsp2 _]; [done|].
  apply wp_bind. eapply wp_mono; [apply parse_version_safe; [done|lia]|].
  intros [[[c3 major] minor]|]; [|done]. intros (Hc3 & Hmajor & Hminor).
  apply wp_bind, wp_not_crlf; [lia..|]. intros [] Hcr; [done|]. specialize (Hcr eq_refl).
  apply wp_bind. eapply wp_mono; [apply parse_headers_safe; [done|lia]|].
  intros [hs|]; [|done]. intros [Hn Hall]. simpl.
  split_and!; [by unfold inside; simpl; split_and!; done || lia|lia..|done|done].
Qed.

(** C16.  On a request head that ends in an empty line, whatever follows it in
    the buffer, the parser comes to an answer without reading outside of the
    buffer; the path and at most 32 headers it finds lie inside of the head. *)
Theorem parse_request_head_safe lines post :
  let head := lines ++ [CR; LF; CR; LF] in
  wp (parse_request_head (head ++ post) (zlen head)) (λ r,
    match r with
    | P_OK q => inside (head ++ post) (zlen head) (path q) ∧
        0 ≤ major q ≤ 9 ∧ 0 ≤ minor q ≤ 9 ∧ zlen (hs q) ≤ MAX_HEADERS ∧
        Forall (λ '(n, v), inside (head ++ post) (zlen head) n ∧ inside (head ++ post) (zlen head) v) (hs q)
    | _ => True
    end).
Proof.
  intros head. apply parse_request_head_ok. unfold head.
  pose proof (zlen_nonneg lines). pose proof (zlen_nonneg post).
  split; [rewrite !zlen_app; change (zlen [CR; LF; CR; LF]) with 4; lia|].
  rewrite <- app_assoc. apply rd_range_app; [|done]. rewrite zlen_app.
  change (zlen [CR; LF; CR; LF]) with 4. lia.
Qed.

(** ** Round trip *)

Definition method_name (mt : method) : list Z :=
  chars (match mt with
         | M_GET => "GET" | M_POST => "POST" | M_HEAD => "HEAD" | M_PUT => "PUT"
         | M_DELETE => "DELETE" | M_CONNECT => "CONNECT" | M_OPTIONS => "OPTIONS"
         | M_TRACE => "TRACE" | M_PATCH => "PATCH"
         end).

Definition print_header (h : list Z * list Z) : list Z := h.1 ++ [c_colon] ++ h.2 ++ [CR; LF].

(** A request head as text. *)
Definition print_head (mt : method) (p : list Z) (major minor : Z)
    (headers : list (list Z * list Z)) : list Z :=
  method_name mt ++ [SP] ++ p ++ [SP] ++ chars "HTTP/" ++ [c_0 + major; c_dot; c_0 + minor; CR; LF] ++
  concat (print_header <$> headers) ++ [CR; LF].

(** Names without a colon that do not start like an empty line, values without
    a carriage return. *)
Definition good_header (h : list Z * list Z) : Prop :=
  Forall (λ c, negb (c =? c_colon) = true) h.1 ∧ Forall (λ c, negb (c =? CR) = true) h.2 ∧
  h.1 !! 0%nat ≠ Some CR.

Lemma starts_false src len s :
  match_at src 0 (chars s) = Ret false → starts src len s = Ret false.
Proof. intros H. unfold starts. by destruct (_ <? _). Qed.

Lemma starts_true src len s :
  match_at src 0 (chars s) = Ret true → zlen (chars s) ≤ len → starts src len s = Ret true.
Proof. intros H ?. unfold starts. by destruct (Z.ltb_spec (zlen (chars s) - 1) len); [|lia]. Qed.

Lemma parse_method_print mt rest len :
  zlen (method_name mt) ≤ len →
  parse_method (method_name mt ++ rest) len = Ret (Some (mt, zlen (method_name mt))).
Proof.
  intros Hlen. unfold parse_method, methods.
  destruct mt; repeat first
    [ rewrite starts_false by reflexivity
    | rewrite starts_true by (reflexivity || exact Hlen)
    | progress cbn [parse_method_ mbind outcome_bind] ]; reflexivity.
Qed.

Lemma text_app pre s post o n : o = zlen pre → n = zlen s → text (mkSlice (pre ++ s ++ post) o n) = Ret s.
Proof. intros -> ->. by apply rd_range_app. Qed.

(** Stored headers, against the printed ones. *)
Definition header_holds (x : slice * slice) (h : list Z * list Z) : Prop :=
  text x.1 = Ret h.1 ∧ text x.2 = Ret h.2.

Lemma not_crlf_false pre post len cur :
  cur = zlen pre → len = zlen (pre ++ [CR; LF] ++ post) →
  not_crlf (pre ++ [CR; LF] ++ post) len cur = Ret false.
Proof.
  intros -> ->. unfold not_crlf. pose proof (zlen_nonneg post).
  rewrite !zlen_app. change (zlen [CR; LF]) with 2.
  destruct (Z.leb_spec (zlen pre + (2 + zlen post)) (zlen pre + 1)); [lia|].
  by rewrite match_at_app.
Qed.

Lemma not_crlf_true pre c d post len cur :
  cur = zlen pre → ¬ (c = CR ∧ d = LF) → not_crlf (pre ++ c :: d :: post) len cur = Ret true.
Proof.
  intros -> Hcd. unfold not_crlf. destruct (Z.leb_spec len (zlen pre + 1)); [done|].
  cbn [match_at]. rewrite (rd_app_r pre _ (zlen pre)), Z.sub_diag by lia. rewrite rd_cons_0.
  cbn [mbind outcome_bind]. destruct (Z.eqb_spec c CR) as [->|]; [|done].
  rewrite rd_app_r by lia. replace (zlen pre + 1 - zlen pre) with 1 by lia.
  rewrite rd_cons_S by lia. simpl. destruct (Z.eqb_spec d LF) as [->|]; [by destruct Hcd|done].
Qed.

(** A round reads one header line at its place. *)
Lemma header_step_ok pre h post len hs :
  good_header h → len = zlen (pre ++ print_header h ++ post) →
  ∃ x, header_holds x h ∧
    header_step (pre ++ print_header h ++ post) len (zlen pre, hs) =
      continue (zlen (pre ++ print_header h), if zlen hs <? MAX_HEADERS then hs ++ [x] else hs).
Proof.
  destruct h as [n v]. intros (Hn & Hv & Hfirst) Hlen. simpl in *.
  unfold print_header in *. simpl fst in *. simpl snd in *.
  set (src := pre ++ (n ++ [c_colon] ++ v ++ [CR; LF]) ++ post) in *.
  assert (src = pre ++ n ++ c_colon :: v ++ CR :: LF :: post) as Hsrc.
  { unfold src. by rewrite <-!app_assoc. }
  exists (mkSlice src (zlen pre) (zlen n), mkSlice src (zlen pre + zlen n + 1) (zlen v)). split.
  { split; simpl; rewrite Hsrc; [by apply text_app|].
    change (c_colon :: v ++ CR :: LF :: post) with ([c_colon] ++ v ++ CR :: LF :: post).
    rewrite (app_assoc n), (app_assoc pre). apply text_app; [rewrite !zlen_app|]; unfold zlen; simpl; lia. }
  unfold header_step.
  assert (not_crlf src len (zlen pre) = Ret true) as ->.
  { rewrite Hsrc. destruct n as [|c n]; simpl.
    - destruct v as [|d v]; simpl; (apply not_crlf_true; [done|]); intros [? ?]; discriminate.
    - destruct n as [|d n]; simpl; (apply not_crlf_true; [done|]); intros [-> ?]; done. }
  cbn [mbind outcome_bind negb].
  pose proof (zlen_nonneg pre). pose proof (zlen_nonneg n). pose proof (zlen_nonneg v).
  pose proof (zlen_nonneg post).
  assert (zlen src = zlen pre + (zlen n + (1 + (zlen v + (1 + (1 + zlen post)))))) as Hsz.
  { rewrite Hsrc, !zlen_app, zlen_cons, zlen_app, !zlen_cons. lia. }
  rewrite (skip_while_app _ pre n (c_colon :: v ++ CR :: LF :: post));
    [|done|done|lia|done|by eauto]. cbn [mbind outcome_bind].
  destruct (Z.eqb_spec (zlen pre + zlen n) len); [lia|].
  rewrite (skip_while_app _ (pre ++ n ++ [c_colon]) v (CR :: LF :: post));
    [|by rewrite Hsrc, <-!app_assoc|rewrite !zlen_app; unfold zlen; simpl; lia|lia|done|by eauto].
  cbn [mbind outcome_bind].
  assert (src = (pre ++ n ++ [c_colon] ++ v ++ [CR]) ++ LF :: post) as Hsrc2
    by (by rewrite Hsrc, <-!app_assoc).
  assert (not_char src len (zlen pre + zlen n + 1 + zlen v + 1) LF = Ret false) as ->.
  { rewrite Hsrc2. apply not_char_app; [rewrite !zlen_app; unfold zlen; simpl; lia|lia]. }
  cbn [mbind outcome_bind]. do 3 f_equal; [rewrite !zlen_app; unfold zlen; simpl; lia|].
  replace (zlen pre + zlen n - zlen pre) with (zlen n) by lia.
  by replace (zlen pre + zlen n + 1 + zlen v - (zlen pre + zlen n + 1)) with (zlen v) by lia.
Qed.

Lemma parse_headers_print pre headers post src :
  src = pre ++ concat (print_header <$> headers) ++ [CR; LF] ++ post →
  Forall good_header headers →
  wp (parse_headers src (zlen src) (zlen pre)) (λ r, ∃ hs, r = Some hs ∧
    Forall2 header_holds hs (take (Z.to_nat MAX_HEADERS) headers)).
Proof.
  intros Hsrc Hgood. unfold parse_headers.
  apply (wp_loop_count (λ n '(cur, hs), ∃ pre' past todo, n = length todo ∧ headers = past ++ todo ∧
    src = pre' ++ concat (print_header <$> todo) ++ [CR; LF] ++ post ∧ cur = zlen pre' ∧
    Forall2 header_holds hs (take (Z.to_nat MAX_HEADERS) past))) with (length headers).
  - exists pre, [], headers. rewrite take_nil. split_and!; try done.
  - assert (Z.of_nat (length headers) ≤ zlen (concat (print_header <$> headers))) as Hl.
    { clear Hsrc Hgood. induction headers as [|h headers IH]; [done|].
      rewrite fmap_cons. cbn [concat length]. rewrite zlen_app.
      unfold print_header at 1. rewrite !zlen_app. pose proof (zlen_nonneg h.1).
      pose proof (zlen_nonneg h.2). change (zlen [c_colon]) with 1. change (zlen [CR; LF]) with 2. lia. }
    apply (f_equal zlen) in Hsrc. rewrite !zlen_app in Hsrc. pose proof (zlen_nonneg post).
    change (zlen [CR; LF]) with 2 in Hsrc. lia.
  - intros n [cur hs] (pre' & past & todo & -> & -> & Hsrc' & -> & Hhs).
    destruct todo as [|h todo].
    + change (concat (print_header <$> [])) with (@nil Z) in Hsrc'. rewrite app_nil_l in Hsrc'.
      unfold header_step. rewrite Hsrc', not_crlf_false by done. simpl. exists hs. by rewrite app_nil_r.
    + rewrite fmap_cons in Hsrc'. cbn [concat] in Hsrc'. rewrite <-app_assoc in Hsrc'.
      apply Forall_app in Hgood as [_ Hgood].
      apply Forall_cons in Hgood as [Hh _].
      destruct (header_step_ok pre' h (concat (print_header <$> todo) ++ [CR; LF] ++ post) (zlen src) hs Hh)
        as (x & Hx & Hstep); [by rewrite Hsrc'|].
      rewrite Hsrc' at 1. rewrite Hstep. simpl. exists (length todo). split; [lia|].
      exists (pre' ++ print_header h), (past ++ [h]), todo.
      split_and!; [done|by rewrite <-app_assoc|by rewrite Hsrc', <-app_assoc|done|].
      pose proof (Forall2_length _ _ _ Hhs) as Hlen. rewrite length_take in Hlen.
      change (Z.to_nat MAX_HEADERS) with 32%nat in *. unfold MAX_HEADERS, zlen.
      destruct (Z.ltb_spec (Z.of_nat (length hs)) 32).
      * rewrite take_ge in Hhs by lia. rewrite take_ge by (rewrite length_app; simpl; lia).
        apply Forall2_app; [done|by constructor].
      * by rewrite take_app_le by lia.
Qed.

Lemma parse_version_print src pre major minor rest :
  0 ≤ major ≤ 9 → 0 ≤ minor ≤ 9 →
  src = pre ++ chars "HTTP/" ++ [c_0 + major; c_dot; c_0 + minor] ++ [CR; LF] ++ rest →
  parse_version src (zlen src) (zlen pre) = Ret (Some (zlen pre + 8, major, minor)).
Proof.
  intros Hmajor Hminor Hsrc. pose proof (zlen_nonneg pre). pose proof (zlen_nonneg rest).
  assert (zlen src = zlen pre + (10 + zlen rest)) as Hsz.
  { rewrite Hsrc, !zlen_app. unfold zlen. simpl. lia. }
  assert (∀ i x, 0 ≤ i → rd (chars "HTTP/" ++ [c_0 + major; c_dot; c_0 + minor]) i = Ret x →
    rd src (zlen pre + i) = Ret x) as Hat.
  { intros i x Hi Hx. rewrite Hsrc, (app_assoc (chars "HTTP/")), rd_app_r by lia.
    replace (zlen pre + i - zlen pre) with i by lia. apply rd_bounds in Hx as Hb. destruct Hb. by rewrite rd_app_l. }
  assert (is_digit (c_0 + major) = true ∧ is_digit (c_0 + minor) = true) as [Hd1 Hd2] by (unfold is_digit; lia).
  unfold parse_version. destruct (Z.leb_spec (zlen src) (zlen pre + 4)); [lia|].
  rewrite Hsrc at 1. rewrite match_at_app by done. cbn [mbind outcome_bind].
  rewrite (Hat 5 (c_0 + major)) by done. cbn [mbind outcome_bind]. rewrite Hd1. cbn [negb mbind outcome_bind].
  destruct (Z.ltb_spec (zlen pre + 5 + 1) (zlen src)); [|lia].
  replace (zlen pre + 5 + 1) with (zlen pre + 6) by lia. rewrite (Hat 6 c_dot) by done. cbn [mbind outcome_bind]. simpl (negb (negb _)). cbv iota.
  replace (zlen pre + 6 + 1) with (zlen pre + 7) by lia. destruct (Z.eqb_spec (zlen pre + 7) (zlen src)); [lia|].
  rewrite (Hat 7 (c_0 + minor)) by done. cbn [mbind outcome_bind]. rewrite Hd2. cbn [negb].
  replace (zlen pre + 7 + 1) with (zlen pre + 8) by lia. replace (c_0 + major - c_0) with major by lia.
  by replace (c_0 + minor - c_0) with minor by lia.
Qed.

(** C15.  Parsing a printed head gives the request back, wherever it is followed
    by more text: the method, the path, the version digits and the first 32
    headers, as slices that hold exactly the printed characters. *)
Theorem parse_request_head_print mt p major minor headers post :
  Forall (λ c, negb (c =? SP) = true) p → 0 ≤ major ≤ 9 → 0 ≤ minor ≤ 9 →
  Forall good_header headers →
  let src := print_head mt p major minor headers ++ post in
  ∃ q, parse_request_head src (zlen src) = Ret (P_OK q) ∧
    m q = mt ∧ HttpParse.major q = major ∧ HttpParse.minor q = minor ∧ text (path q) = Ret p ∧
    Forall2 header_holds (hs q) (take (Z.to_nat MAX_HEADERS) headers).
Proof.
  intros Hp Hmajor Hminor Hgood src.
  set (rest := concat (print_header <$> headers) ++ [CR; LF] ++ post).
  set (ver := [c_0 + major; c_dot; c_0 + minor]).
  set (pre1 := method_name mt ++ [SP]). set (pre2 := method_name mt ++ SP :: p).
  set (pre3 := method_name mt ++ SP :: p ++ [SP]). set (pre4 := pre3 ++ chars "HTTP/" ++ ver).
  assert (src = method_name mt ++ SP :: p ++ SP :: chars "HTTP/" ++ ver ++ [CR; LF] ++ rest) as Hsrc
    by (unfold src, print_head, ver, rest; by rewrite <-!app_assoc).
  assert (src = pre1 ++ p ++ SP :: chars "HTTP/" ++ ver ++ [CR; LF] ++ rest) as Hsrc1
    by (unfold pre1; by rewrite Hsrc, <-!app_assoc).
  assert (src = pre2 ++ SP :: chars "HTTP/" ++ ver ++ [CR; LF] ++ rest) as Hsrc2
    by (unfold pre2; by rewrite Hsrc, <-!app_assoc).
  assert (src = pre3 ++ chars "HTTP/" ++ ver ++ [CR; LF] ++ rest) as Hsrc3
    by (unfold pre3; rewrite Hsrc, <-!app_assoc; simpl; by rewrite <-app_assoc).
  assert (src = pre4 ++ [CR; LF] ++ rest) as Hsrc4 by (unfold pre4; by rewrite Hsrc3, <-!app_assoc).
  assert (zlen pre1 = zlen (method_name mt) + 1 ∧ zlen pre2 = zlen pre1 + zlen p ∧
    zlen pre3 = zlen pre2 + 1 ∧ zlen pre4 = zlen pre3 + 8 ∧ zlen pre4 + (2 + zlen rest) = zlen src)
    as (Hl1 & Hl2 & Hl3 & Hl4 & Hl5).
  { rewrite Hsrc4. unfold pre4, pre3, pre2, pre1, ver. zlen. unfold zlen. simpl. lia. }
  pose proof (zlen_nonneg (method_name mt)). pose proof (zlen_nonneg p). pose proof (zlen_nonneg rest).
  destruct (wp_inv (parse_request_head src (zlen src)) (λ r, ∃ q, r = P_OK q ∧
    m q = mt ∧ HttpParse.major q = major ∧ HttpParse.minor q = minor ∧ text (path q) = Ret p ∧
    Forall2 header_holds (hs q) (take (Z.to_nat MAX_HEADERS) headers))) as (r & Hr & q & -> & Hq); [|by exists q].
  unfold parse_request_head. rewrite Hsrc at 1. rewrite parse_method_print by lia. cbn [mbind outcome_bind].
  rewrite Hsrc at 1. rewrite not_char_app by (done || lia). cbn [mbind outcome_bind].
  rewrite <- Hl1, (skip_while_app _ pre1 p (SP :: chars "HTTP/" ++ ver ++ [CR; LF] ++ rest));
    [|done|done|lia|done|by eauto]. cbn [mbind outcome_bind]. rewrite <- Hl2.
  rewrite Hsrc2 at 1. rewrite not_char_app by (done || lia). cbn [mbind outcome_bind]. rewrite <- Hl3.
  rewrite (parse_version_print src pre3 major minor rest) by done. cbn [mbind outcome_bind]. rewrite <- Hl4.
  rewrite Hsrc4 at 1. rewrite not_crlf_false by (rewrite <-?Hsrc4; done). cbn [mbind outcome_bind].
  replace (zlen pre4 + 2) with (zlen (pre4 ++ [CR; LF])) by (rewrite zlen_app; done).
  apply wp_bind. eapply wp_mono; [apply (parse_headers_print (pre4 ++ [CR; LF]) headers post);
    [by rewrite Hsrc4, <-app_assoc|done]|].
  intros r (hs & -> & Hhs). simpl. eexists. split; [done|]. simpl.
  split_and!; [done..| |done]. replace (zlen pre2 - zlen pre1) with (zlen p) by lia.
  rewrite Hsrc1. by apply text_app.
Qed.

(** ** Header fields *)

(** The content of a slice, character by character. *)
Lemma text_at s l i : text s = Ret l → 0 ≤ i < size s → at_ s i = rd l i.
Proof.
  intros (a & c & Hb & Ho & Hn)%rd_range_inv Hi. unfold at_.
  rewrite Hb, Ho, rd_app_r, rd_app_l by lia. f_equal. lia.
Qed.

Lemma text_size s l : text s = Ret l → size s = zlen l.
Proof. by intros (a & c & _ & _ & ->)%rd_range_inv. Qed.

Lemma skip_in_text p s pre t :
  text s = Ret (pre ++ t) →
  skip_in p s (zlen pre) = Ret (zlen pre + zlen (take_while p t)).
Proof.
  intros Hs. pose proof (text_size _ _ Hs) as Hsz. rewrite zlen_app in Hsz. apply wp_eq_inv.
  unfold skip_in. pose proof (zlen_nonneg pre). pose proof (zlen_nonneg t).
  apply (wp_loop (λ i, ∃ a b, t = a ++ b ∧ i = zlen pre + zlen a ∧ Forall (λ c, p c = true) a)
           (λ i, Z.to_nat (size s - i))); [by exists [], t; rewrite Z.add_0_r|lia|].
  intros i (a & b & -> & -> & Ha). rewrite zlen_app in *. pose proof (zlen_nonneg a).
  pose proof (zlen_nonneg b). destruct (Z.ltb_spec (zlen pre + zlen a) (size s)).
  - destruct b as [|c b]; [change (zlen []) with 0 in *; lia|].
    rewrite (text_at _ _ _ Hs) by lia. rewrite rd_app_r, rd_app_r by lia.
    replace (_ - _ - _) with 0 by lia. simpl. destruct (p c) eqn:Hc; simpl.
    + split; [|lia]. exists (a ++ [c]), b. rewrite <-app_assoc, zlen_app.
      split; [done|]. split; [unfold zlen; simpl; lia|]. apply Forall_app. by repeat constructor.
    + by destruct (take_while_app p a c b) as [-> _].
  - assert (b = []) as -> by (apply zlen_0_inv; lia). simpl. rewrite app_nil_r.
    clear -Ha. f_equal. induction Ha as [|x a Hx _ IH]; [done|]. simpl. rewrite Hx, !zlen_cons. lia.
Qed.

Lemma skip_in_text0 p s t : text s = Ret t → skip_in p s 0 = Ret (zlen (take_while p t)).
Proof. exact (skip_in_text p s [] t). Qed.

(** Decimal numbers. *)
Definition decimal (ds : list Z) : Z := foldl (λ x c, x * 10 + (c - c_0)) 0 ds.

Lemma decimal_from x ds :
  Forall (λ c, is_digit c = true) ds → 0 ≤ x →
  x ≤ foldl (λ x c, x * 10 + (c - c_0)) x ds.
Proof.
  intros Hds. revert x. induction Hds as [|c ds Hc _ IH]; intros x Hx; simpl; [lia|].
  unfold is_digit in Hc. specialize (IH (x * 10 + (c - c_0))). lia.
Qed.

(** What a field value stands for: a decimal number that fits, with spaces
    around it. *)
Definition content_length (l : list Z) : option Z :=
  let l := drop_while is_space l in
  let ds := take_while is_digit l in
  if bool_decide (ds = []) then None
  else if SIZE_MAX <? decimal ds then None
  else if forallb is_space (drop_while is_digit l) then Some (decimal ds) else None.

(** The digit loop accumulates the number, or finds that it does not fit. *)
Lemma parse_digits_ok s pre c ds rest :
  text s = Ret (pre ++ (c :: ds) ++ rest) → Forall (λ c, is_digit c = true) (c :: ds) →
  (∀ x l, rest = x :: l → is_digit x = false) →
  parse_digits s (zlen pre) = Ret (if SIZE_MAX <? decimal (c :: ds) then None
                                   else Some (decimal (c :: ds), zlen (pre ++ c :: ds))).
Proof.
  intros Hs Hds Hrest. pose proof (text_size _ _ Hs) as Hsz. apply wp_eq_inv. unfold parse_digits.
  rewrite !zlen_app in Hsz. pose proof (zlen_nonneg pre). pose proof (zlen_nonneg rest).
  pose proof (zlen_nonneg ds). rewrite zlen_cons in Hsz.
  apply (wp_loop (λ '(x, cur), ∃ a d b, c :: ds = a ++ d :: b ∧ cur = zlen (pre ++ a) ∧
           0 ≤ x ≤ SIZE_MAX ∧ decimal (c :: ds) = foldl (λ x c, x * 10 + (c - c_0)) x (d :: b))
           (λ '(x, cur), Z.to_nat (size s - cur))).
  { exists [], c, ds. split; [done|]. rewrite app_nil_r. split; [done|]. split; [|done]. done. }
  { lia. }
  intros [x cur] (a & d & b & Hab & -> & Hx & Hval). rewrite Hab in Hds, Hs.
  apply Forall_app in Hds as [_ [Hd Hb]%Forall_cons].
  assert (text s = Ret ((pre ++ a) ++ d :: b ++ rest)) as Hs' by (by rewrite Hs, <-!app_assoc).
  pose proof (text_size _ _ Hs') as Hsz'. rewrite (zlen_app (pre ++ a)), zlen_cons, (zlen_app b) in Hsz'.
  pose proof (zlen_nonneg (pre ++ a)). pose proof (zlen_nonneg b).
  rewrite (text_at _ _ (zlen (pre ++ a)) Hs') by lia. rewrite (rd_app_r (pre ++ a)), Z.sub_diag by lia.
  rewrite rd_cons_0. cbn [mbind outcome_bind].
  simpl foldl in Hval. pose proof Hd as Hd'. unfold is_digit in Hd'.
  pose proof (decimal_from (x * 10 + (d - c_0)) b Hb ltac:(lia)) as Hmono.
  unfold SIZE_MAX in *. destruct (Z.ltb_spec ((2 ^ 64 - 1 - (d - c_0)) / 10) x) as [Hover|Hfit].
  { simpl. destruct (Z.ltb_spec (2 ^ 64 - 1) (decimal (c :: ds))); [done|]. lia. }
  rewrite u64_small by lia. apply wp_bind.
  destruct b as [|e b].
  - simpl in Hval. assert (zlen (pre ++ c :: ds) = zlen (pre ++ a) + 1) as Hend.
    { rewrite Hab, app_assoc, zlen_app. done. }
    assert (wp (if zlen (pre ++ a) + 1 <? size s then c0 ← at_ s (zlen (pre ++ a) + 1); Ret (is_digit c0)
                else Ret false) (λ again, again = false)) as Hstop.
    { destruct (Z.ltb_spec (zlen (pre ++ a) + 1) (size s)); [|done]. rewrite (text_at _ _ _ Hs') by lia.
      destruct rest as [|y rest]; [change (zlen []) with 0 in *; lia|].
      rewrite rd_app_r by lia. replace (_ - _) with 1 by lia. rewrite rd_cons_S by lia. simpl.
      by eapply Hrest. }
    eapply wp_mono; [exact Hstop|]. intros ? ->. simpl. rewrite Hend, Hval.
    by destruct (Z.ltb_spec (2 ^ 64 - 1) (x * 10 + (d - c_0))); [lia|].
  - rewrite zlen_cons in *. destruct (Z.ltb_spec (zlen (pre ++ a) + 1) (size s)); [|pose proof (zlen_nonneg b); lia].
    rewrite (text_at _ _ _ Hs') by lia. rewrite rd_app_r by lia. replace (_ - _) with 1 by lia.
    rewrite rd_cons_S by lia. simpl. apply Forall_cons in Hb as [He Hb]. rewrite He.
    simpl. split; [|lia]. exists (a ++ [d]), e, b. rewrite app_assoc, (zlen_app (pre ++ a)).
    split; [by rewrite Hab, <-app_assoc|]. split; [done|]. split; [lia|]. by rewrite Hval.
Qed.

Lemma parse_content_length_ok s l :
  text s = Ret l →
  parse_content_length s = Ret (match content_length l with Some n => n | None => SIZE_MAX end).
Proof.
  intros Hs. unfold parse_content_length, content_length.
  rewrite (skip_in_text0 _ _ _ Hs). cbn [mbind outcome_bind].
  pose proof (take_drop_while is_space l) as Hl. set (sp := take_while is_space l) in *.
  set (l1 := drop_while is_space l) in *. rewrite <-Hl in Hs.
  pose proof (take_drop_while is_digit l1) as Hl1. pose proof (Forall_take_while is_digit l1) as Hds.
  set (ds := take_while is_digit l1) in *. set (rest := drop_while is_digit l1) in *.
  assert (∀ x k, rest = x :: k → is_digit x = false) as Hrest by (intros; by eapply drop_while_head).
  pose proof (text_size _ _ Hs) as Hsz. rewrite zlen_app in Hsz.
  pose proof (zlen_nonneg sp). pose proof (zlen_nonneg l1).
  destruct (decide (ds = [])) as [He|Hne].
  - rewrite bool_decide_true by done. rewrite He in Hl1. simpl in Hl1.
    destruct (Z.eqb_spec (zlen sp) (size s)); [done|].
    destruct l1 as [|x l1'] eqn:Hl1eq; [change (zlen []) with 0 in *; lia|].
    rewrite (text_at _ _ _ Hs), rd_app_r, Z.sub_diag by (rewrite zlen_cons in *; lia). simpl.
    rewrite (Hrest x l1'); [done|]. by rewrite Hl1.
  - rewrite bool_decide_false by done. destruct ds as [|c ds'] eqn:Hdseq; [done|].
    assert (size s = zlen sp + (1 + zlen ds' + zlen rest)) as Hsz'.
    { rewrite Hsz, <-Hl1. rewrite zlen_app, zlen_cons. lia. }
    pose proof (zlen_nonneg ds'). pose proof (zlen_nonneg rest).
    destruct (Z.eqb_spec (zlen sp) (size s)); [lia|].
    rewrite (text_at _ _ _ Hs), rd_app_r, Z.sub_diag by lia. rewrite <-Hl1. simpl app.
    rewrite rd_cons_0. cbn [mbind outcome_bind].
    pose proof Hds as [Hc _]%Forall_cons. rewrite Hc. cbn [negb].
    rewrite <-Hl1 in Hs. rewrite (parse_digits_ok s sp c ds' rest Hs Hds Hrest). cbn [mbind outcome_bind].
    destruct (SIZE_MAX <? decimal (c :: ds')); [done|].
    rewrite app_assoc in Hs. rewrite (skip_in_text _ _ _ _ Hs). cbn [mbind outcome_bind].
    rewrite zlen_app, zlen_cons.
    assert (zlen (take_while is_space rest) = zlen rest ↔ forallb is_space rest = true) as Hsp.
    { clear. induction rest as [|x r IH]; [done|]. simpl. pose proof (zlen_nonneg r).
      destruct (is_space x); simpl; rewrite ?zlen_cons; [rewrite <-IH; lia|].
      change (zlen []) with 0. split; [lia|done]. }
    destruct (Z.eqb_spec (zlen sp + (1 + zlen ds') + zlen (take_while is_space rest)) (size s)).
    + simpl. by rewrite (proj1 Hsp) by lia.
    + simpl. destruct (forallb is_space rest); [|done]. exfalso. apply proj2 in Hsp.
      specialize (Hsp eq_refl). lia.
Qed.

(** ** Comparison of names *)

(** The condition of [to_lower] holds of every character: it shifts them all,
    and tells them apart as before. *)
Lemma to_lower_shifts c : to_lower c = s8 (c + 32).
Proof.
  unfold to_lower. destruct (Z.leb_spec c_A c), (Z.leb_spec c c_Z); simpl; try lia; f_equal; lia.
Qed.

Lemma to_lower_inj c d : is_char c → is_char d → to_lower c = to_lower d → c = d.
Proof.
  rewrite !to_lower_shifts. unfold is_char, s8. change (2 ^ 8) with 256. change (2 ^ 7) with 128. lia.
Qed.

Lemma string_match_ok x y lx ly :
  text x = Ret lx → text y = Ret ly → Forall is_char lx → Forall is_char ly →
  string_match_case_insensitive x y = Ret (bool_decide (lx = ly)).
Proof.
  intros Hx Hy Hcx Hcy. pose proof (text_size _ _ Hx) as Hsx. pose proof (text_size _ _ Hy) as Hsy.
  unfold string_match_case_insensitive. destruct (Z.eqb_spec (size x) (size y)) as [Heq|Hne]; cbn [negb].
  2:{ rewrite bool_decide_false; [done|]. intros ->. congruence. }
  apply wp_eq_inv. pose proof (zlen_nonneg lx).
  apply (wp_loop (λ i, 0 ≤ i ≤ size x ∧ ∀ j, 0 ≤ j < i → rd lx j = rd ly j)
           (λ i, Z.to_nat (size x - i))); [split; [lia|intros; lia]|lia|].
  intros i [Hi Hpre]. destruct (Z.ltb_spec i (size x)).
  - rewrite (text_at _ _ _ Hx), (text_at _ _ _ Hy) by lia.
    destruct (rd_ok lx i) as (c & Hc & Hcl); [lia|]. destruct (rd_ok ly i) as (d & Hd & Hdl); [lia|].
    rewrite Hc, Hd. cbn [mbind outcome_bind].
    destruct (Z.eqb_spec (to_lower c) (to_lower d)) as [He|He]; simpl.
    + split; [|lia]. split; [lia|]. intros j ?. destruct (decide (j = i)) as [->|]; [|apply Hpre; lia].
      rewrite Hc, Hd. f_equal. eapply to_lower_inj; [..|done].
      * by eapply Forall_lookup_1 in Hcl.
      * by eapply Forall_lookup_1 in Hdl.
    + rewrite bool_decide_false; [done|]. intros ->. congruence.
  - simpl. rewrite bool_decide_true; [done|]. apply rd_ext; [lia|]. intros j ?. apply Hpre. lia.
Qed.

Lemma text_str str : text (str_to_slice str) = Ret str.
Proof. apply (rd_range_app [] str [0]); done. Qed.

Lemma wp_string_match x y lx ly :
  text x = Ret lx → text y = Ret ly → wp (string_match_case_insensitive x y) (λ _, True).
Proof.
  intros Hx Hy. pose proof (text_size _ _ Hx) as Hsx. pose proof (text_size _ _ Hy) as Hsy.
  unfold string_match_case_insensitive. destruct (Z.eqb_spec (size x) (size y)) as [Heq|Hne]; [|done].
  cbn [negb]. pose proof (zlen_nonneg lx).
  apply (wp_loop (λ i, 0 ≤ i ≤ size x) (λ i, Z.to_nat (size x - i)) (λ _, True)); [lia|lia|].
  intros i Hi. destruct (Z.ltb_spec i (size x)); [|done].
  rewrite (text_at _ _ _ Hx), (text_at _ _ _ Hy) by lia.
  apply wp_bind, wp_rd; [lia|]. intros c _ _. apply wp_bind, wp_rd; [lia|]. intros d _ _.
  destruct (negb _); simpl; [done|lia].
Qed.

(** The search answers, whatever the characters are. *)
Lemma wp_find_header r name :
  Forall (λ h, ∃ n, text h.1 = Ret n) (hs r) →
  wp (find_header r name) (λ v, match v with Some v => ∃ n, (n, v) ∈ hs r | None => True end).
Proof.
  unfold find_header. induction 1 as [|[n v] hs [l Hl] _ IH]; [done|]. simpl in *.
  apply wp_bind. eapply wp_mono; [by apply (wp_string_match n (str_to_slice name) l name), text_str|].
  intros [] _.
  - exists n. by left.
  - eapply wp_mono; [exact IH|]. intros [v'|]; [|done]. intros [n' ?]. exists n'. by right.
Qed.

(** The value of the first field of exactly that name. *)
Fixpoint lookup_exact (hs : list (slice * slice)) (names : list (list Z)) (name : list Z) : option slice :=
  match hs, names with
  | (_, v) :: hs, n :: names => if bool_decide (n = name) then Some v else lookup_exact hs names name
  | _, _ => None
  end.

Lemma find_header_ok r names name :
  Forall2 (λ h n, text h.1 = Ret n ∧ Forall is_char n) (hs r) names → Forall is_char name →
  find_header r name = Ret (lookup_exact (hs r) names name).
Proof.
  intros Hnames Hname. unfold find_header. induction Hnames as [|[h v] n hs ns [Hn Hc] _ IH]; [done|].
  simpl. unfold match_header_name. rewrite (string_match_ok _ _ n name); [|done|apply text_str|done..].
  simpl. by case_bool_decide.
Qed.

(** Header names are compared character by character: the comparison that
    is called case insensitive takes two names for the same only if they are
    equal, and [find_header] finds the first field of exactly the given name. *)
Theorem find_header_exact r names name :
  Forall2 (λ h n, text h.1 = Ret n ∧ Forall is_char n) (hs r) names → Forall is_char name →
  find_header r name = Ret (lookup_exact (hs r) names name) ∧
  ∀ s n, text s = Ret n → Forall is_char n → match_header_name s name = Ret (bool_decide (n = name)).
Proof.
  intros Hnames Hname. split; [by apply find_header_ok|]. intros s n Hs Hn.
  by apply string_match_ok; [|apply text_str|..].
Qed.

(** C32.  The content length of a request is the decimal number in its first
    Content-Length field, spaces around it ignored, if there is one and it
    fits into [size_t]; -1 in every other case.  The value is not left. *)
Theorem parse_content_length_correct r names s l :
  Forall2 (λ h n, text h.1 = Ret n ∧ Forall is_char n) (hs r) names →
  lookup_exact (hs r) names (chars "Content-Length") = Some s → text s = Ret l →
  let n := match content_length l with Some n => n | None => SIZE_MAX end in
  parse_content_length s = Ret n ∧ find_and_parse_content_length r = Ret n.
Proof.
  intros Hnames Hs Hl n. pose proof (parse_content_length_ok s l Hl) as Hn. split; [done|].
  unfold find_and_parse_content_length.
  rewrite (find_header_ok r names) by (done || apply chars_is_char). by rewrite Hs.
Qed.

Lemma wp_skip_in p s l cur (Q : Z → Prop) :
  text s = Ret l → 0 ≤ cur ≤ size s → (∀ r, cur ≤ r ≤ size s → Q r) → wp (skip_in p s cur) Q.
Proof.
  intros Hs Hcur HQ. pose proof (text_size _ _ Hs) as Hsz.
  destruct (list_split3 l 0 cur) as (? & a & b & -> & ->%zlen_0_inv & Ha & _); [lia..|].
  simpl in *. rewrite <-Ha. rewrite (skip_in_text p s a b Hs). simpl. apply HQ.
  rewrite Hsz, zlen_app. pose proof (take_drop_while p b) as Hb. apply (f_equal zlen) in Hb.
  rewrite zlen_app in Hb. pose proof (zlen_nonneg (take_while p b)).
  pose proof (zlen_nonneg (drop_while p b)). lia.
Qed.

Lemma encoding_at_ok s l cur es :
  text s = Ret l → 0 ≤ cur ≤ size s → Forall (λ '(e, _), 0 < zlen (chars e)) es →
  wp (encoding_at s cur es) (λ r, match r with
    | Some (_, n) => 0 < n ∧ cur + n ≤ size s | None => True end).
Proof.
  intros (a & c & Hb & Ho & Hn)%rd_range_inv Hcur. pose proof (zlen_nonneg a). pose proof (zlen_nonneg c).
  induction 1 as [|[e f] es He _ IH]; simpl; [done|].
  apply wp_bind. eapply wp_mono with (Q := λ b, b = true → cur + zlen (chars e) ≤ size s).
  - destruct (Z.ltb_spec (cur + (zlen (chars e) - 1)) (size s)); [|done].
    apply wp_match_at; [lia|rewrite Hb, !zlen_app; lia|]. intros b _ _. lia.
  - intros [] Hfit; [simpl; split; [done|auto]|exact IH].
Qed.

(** The loop over the encodings has no other way out than the error. *)
Lemma encodings_refused s l :
  text s = Ret l →
  loop (S (Z.to_nat (size s)))
    (λ '(cur, res),
       cur ← skip_in (λ c, is_space c || (c =? c_comma)) s cur;
       e ← encoding_at s cur encodings;
       match e with
       | Some (flag, n) => continue (cur + n, Z.lor res flag)
       | None => break (-1)
       end)
    (0, 0) = Ret (-1).
Proof.
  intros Hs. apply wp_eq_inv. pose proof (text_size _ _ Hs). pose proof (zlen_nonneg l).
  apply (wp_loop (λ '(cur, _), 0 ≤ cur ≤ size s) (λ '(cur, _), Z.to_nat (size s - cur))); [lia|lia|].
  intros [cur res] Hcur. apply wp_bind. eapply wp_skip_in; [done..|]. intros cur' Hcur'.
  apply wp_bind. eapply wp_mono; [apply (encoding_at_ok s l); [done|lia|by repeat constructor]|].
  intros [[flag n]|]; simpl; [lia|done].
Qed.

Lemma wp_transfer_encoding r :
  Forall (λ h, ∃ n v, text h.1 = Ret n ∧ text h.2 = Ret v) (hs r) →
  wp (find_and_parse_transfer_encoding r) (λ te, te = 0 ∨ te = -1).
Proof.
  intros Hall. unfold find_and_parse_transfer_encoding. apply wp_bind. eapply wp_mono.
  { apply wp_find_header. eapply Forall_impl; [exact Hall|]. intros h (n & v & ? & _). by exists n. }
  intros [s|]; [|by left]. intros [n Hin]. rewrite Forall_forall in Hall.
  destruct (Hall _ Hin) as (_ & v & _ & Hv). simpl in Hv. rewrite (encodings_refused s v Hv). by right.
Qed.

(** A request with a Transfer-Encoding field is always refused: the loop
    over the encodings has no other way out than the error, at the end of the
    list too, so that no flag is ever reported. *)
Theorem transfer_encoding_refused r s l :
  find_header r (chars "Transfer-Encoding") = Ret (Some s) → text s = Ret l →
  find_and_parse_transfer_encoding r = Ret (-1).
Proof.
  intros Hfind Hs. unfold find_and_parse_transfer_encoding. rewrite Hfind. cbn [mbind outcome_bind].
  by apply (encodings_refused s l).
Qed.

(** ** Deviations *)

(** A field value with space in front is not trimmed there: the value loses its
    last characters instead. *)
Lemma trim_keeps_front :
  match_header_value (mkSlice (chars " close") 0 6) (chars "close") = Ret false ∧
  (t ← trim (mkSlice (chars " close") 0 6); text t) = Ret (chars " close").
Proof. split; vm_compute; reflexivity. Qed.

(** A field that the text ends in makes the parser read past the end. *)
Lemma unterminated_header_overruns :
  let src := chars "GET / HTTP/1.1" ++ [CR; LF] ++ chars "A:b" in
  parse_request_head src (zlen src) = Fail OutOfBounds.
Proof. vm_compute. reflexivity. Qed.

(** ** Witnesses *)

Definition example_headers : list (list Z * list Z) :=
  [(chars "Host", chars " a"); (chars "Content-Length", chars " 12 ");
   (chars "Transfer-Encoding", chars " chunked")].
Definition example_head : list Z := print_head M_POST (chars "/x") 1 1 example_headers.

Lemma parse_request_head_print_witness :
  ∃ q, parse_request_head (example_head ++ [0]) (zlen (example_head ++ [0])) = Ret (P_OK q) ∧
    m q = M_POST ∧ major q = 1 ∧ minor q = 1 ∧ text (path q) = Ret (chars "/x") ∧
    Forall2 header_holds (hs q) (take (Z.to_nat MAX_HEADERS) example_headers).
Proof.
  apply (parse_request_head_print M_POST (chars "/x") 1 1 example_headers [0]).
  - by repeat constructor.
  - lia.
  - lia.
  - repeat constructor; simpl; done.
Defined.

Lemma parse_content_length_correct_witness :
  let name := mkSlice (chars "Content-Length: 42 ") 0 14 in
  let value := mkSlice (chars "Content-Length: 42 ") 15 4 in
  parse_content_length value = Ret 42 ∧
  find_and_parse_content_length (mkRequest M_GET (mkSlice [] 0 0) 1 1 [(name, value)]) = Ret 42.
Proof.
  intros name value.
  apply (parse_content_length_correct (mkRequest M_GET (mkSlice [] 0 0) 1 1 [(name, value)])
           [chars "Content-Length"] value (chars " 42 ")).
  - constructor; [split; [reflexivity|apply chars_is_char]|constructor].
  - vm_compute. reflexivity.
  - vm_compute. reflexivity.
Defined.

Definition example_request : request :=
  mkRequest M_GET (mkSlice [] 0 0) 1 1
    [(mkSlice (chars "hostHost12") 0 4, mkSlice (chars "hostHost12") 8 1);
     (mkSlice (chars "hostHost12") 4 4, mkSlice (chars "hostHost12") 9 1)].

Lemma find_header_exact_witness :
  find_header example_request (chars "Host") = Ret (Some (mkSlice (chars "hostHost12") 9 1)) ∧
  ∀ s n, text s = Ret n → Forall is_char n →
    match_header_name s (chars "Host") = Ret (bool_decide (n = chars "Host")).
Proof.
  apply (find_header_exact example_request [chars "host"; chars "Host"] (chars "Host")).
  - repeat (constructor; [split; [reflexivity|apply chars_is_char]|]). constructor.
  - apply chars_is_char.
Defined.

Lemma transfer_encoding_refused_witness :
  find_and_parse_transfer_encoding (mkRequest M_GET (mkSlice [] 0 0) 1 1
    [(mkSlice (chars "Transfer-Encoding") 0 17, mkSlice (chars "chunked") 0 7)]) = Ret (-1).
Proof.
  apply (transfer_encoding_refused _ (mkSlice (chars "chunked") 0 7) (chars "chunked"));
    vm_compute; reflexivity.
Defined.
