(* ===== verification/HttpPath.v ===== *)
(** The path handling of [src/http/path.c]: splitting, sanitising and matching
    request paths. *)
From S2P Require Import Prelude HttpParse.

(** ** The code *)

Definition PATH_SEP : Z := c_slash.

Definition is_print (c : Z) : bool := (32 <=? c) && (c <? 127).

Definition is_pcomp (c : Z) : bool := negb (c =? c_slash) && negb (c =? c_colon) && is_print c.

(** The characters of a component, for a path or for a format. *)
Definition comp_char (allow_ddots : bool) (c : Z) : bool :=
  is_pcomp c || (allow_ddots && (c =? c_colon)).

(** [size == length of s && !memcmp(data, s, size)] *)
Definition comp_is (comp : slice) (s : list Z) : outcome bool :=
  if size comp =? zlen s then t ← text comp; Ret (bool_decide (t = s)) else Ret false.

Definition DOT : list Z := [c_dot].
Definition DOTDOT : list Z := [c_dot; c_dot].

(** The stack of components, [None] for -1; its length is the depth. *)
Definition split_step (src : list Z) (len limit : Z) (allow_ddots : bool) (st : Z * list slice)
    : outcome (Z * list slice + option (list slice)) :=
  let '(cur, stack) := st in
  if negb (cur <? len) then break (Some stack)
  else if zlen stack =? limit then break None
  else
    let start := cur in
    cur ← skip_while (comp_char allow_ddots) src len cur;
    let comp := mkSlice src start (cur - start) in
    if size comp =? 0 then break None
    else
      dd ← comp_is comp DOTDOT;
      d ← comp_is comp DOT;
      let stack' := if dd : bool then if zlen stack =? 0 then None else Some (removelast stack)
                    else if d : bool then Some stack else Some (stack ++ [comp]) in
      match stack' with
      | None => break None
      | Some stack =>
          if cur =? len then break (Some stack)
          else
            c ← rd src cur;
            if negb (c =? PATH_SEP) then break None else continue (cur + 1, stack)
      end.

Definition split_path_components (src : list Z) (len limit : Z) (allow_ddots : bool)
    : outcome (option (list slice)) :=
  first ← (if 0 <? len then c ← rd src 0; Ret (c =? PATH_SEP) else Ret false);
  loop (S (Z.to_nat len)) (split_step src len limit allow_ddots) (if first : bool then 1 else 0, []).

Definition MAX_COMPS : Z := 64.

(** [for (...) { mem[n++] = PATH_SEP; memcpy(mem + n, ...); n += size; }] *)
Fixpoint copy_comps (mem : list Z) (n : Z) (stack : list slice) : outcome (list Z * Z) :=
  match stack with
  | [] => Ret (mem, n)
  | comp :: stack =>
      mem ← wr mem n PATH_SEP;
      t ← text comp;
      mem ← wr_range mem (n + 1) t;
      copy_comps mem (n + 1 + size comp) stack
  end.

(** The output buffer and the length, or -1 (as [size_t]). *)
Definition sanitize_path (src : list Z) (len : Z) (mem : list Z) (max : Z)
    : outcome (list Z * Z) :=
  stack ← split_path_components src len MAX_COMPS false;
  match stack with
  | None => Ret (mem, SIZE_MAX)
  | Some stack =>
      let req := foldl (λ req comp, req + size comp) (zlen stack) stack in
      if max <=? req then Ret (mem, SIZE_MAX)
      else
        '(mem, n) ← copy_comps mem 0 stack;
        mem ← wr mem n 0;
        Ret (mem, n)
  end.

(** What a match stores through its arguments. *)
Inductive captured : Type := CaptureSlice (s : slice) | CaptureNumber (n : Z).

(** [while (cur < size && is_digit(data[cur]))], accumulating at 32 bits;
    [None] on overflow. *)
Definition parse_u32 (s : slice) : outcome (option (Z * Z)) :=
  loop (S (Z.to_nat (size s)))
    (λ '(n, cur),
       if cur <? size s then
         c ← at_ s cur;
         if is_digit c then
           let d := c - c_0 in
           if (UINT32_MAX - d) / 10 <? n then break None
           else continue (u32 (n * 10 + d), cur + 1)
         else break (Some (n, cur))
       else break (Some (n, cur)))
    (0, 0).

Definition LIMIT : Z := 32.

(** The loop over the components; the answer, and what was stored so far. *)
Fixpoint match_comps (fs ps : list slice) (out : list captured) : outcome (Z * list captured) :=
  match fs, ps with
  | f :: fs, p :: ps =>
      _ ← c_assert (0 <? size f);
      _ ← c_assert (0 <? size p);
      c ← at_ f 0;
      if c =? c_colon then
        if negb (size f =? 2) then Ret (-1, out)
        else
          k ← at_ f 1;
          if k =? 108 (* l *) then match_comps fs ps (out ++ [CaptureSlice p])
          else if k =? 110 (* n *) then
            r ← parse_u32 p;
            match r with
            | None => Ret (-1, out)
            | Some (n, cur) =>
                if negb (cur =? size p) then Ret (-1, out)
                else match_comps fs ps (out ++ [CaptureNumber n])
            end
          else Ret (-1, out)
      else if negb (size f =? size p) then Ret (1, out)
      else
        tf ← text f; tp ← text p;
        if negb (bool_decide (tf = tp)) then Ret (0, out) (* return false *)
        else match_comps fs ps out
  | _, _ => Ret (0, out)
  end.

Definition match_path_format (path : list Z) (fmt : list Z) : outcome (Z * list captured) :=
  ps ← split_path_components path (zlen path) LIMIT false;
  fs ← split_path_components (fmt ++ [0]) (zlen fmt) LIMIT true;
  match ps, fs with
  | Some ps, Some fs => if negb (zlen ps =? zlen fs) then Ret (1, []) else match_comps fs ps []
  | _, _ => Ret (-1, [])
  end.

(** ** Resolution of paths *)

(** The components of a path: the pieces between slashes, a leading and a
    trailing slash ignored. *)
Definition components (l : list Z) : list (list Z) :=
  pieces PATH_SEP (match l with c :: l' => if c =? PATH_SEP then l' else l | [] => [] end).

(** Following the components from a directory: ".." leads to the parent, which
    the starting point does not have, "." stays. *)
Definition enter (stack : list (list Z)) (c : list Z) : option (list (list Z)) :=
  if bool_decide (c = DOTDOT) then if bool_decide (stack = []) then None else Some (removelast stack)
  else if bool_decide (c = DOT) then Some stack
  else Some (stack ++ [c]).

Fixpoint resolve (limit : Z) (allow_ddots : bool) (cs stack : list (list Z)) : option (list (list Z)) :=
  match cs with
  | [] => Some stack
  | c :: cs =>
      if (zlen stack =? limit) || bool_decide (c = []) || negb (forallb (comp_char allow_ddots) c) then None
      else match enter stack c with
           | None => None
           | Some stack => resolve limit allow_ddots cs stack
           end
  end.

(** A directory as text. *)
Definition render (stack : list (list Z)) : list Z := concat ((λ c, PATH_SEP :: c) <$> stack).

Definition holds (stack : list slice) (cs : list (list Z)) : Prop :=
  Forall2 (λ s c, text s = Ret c) stack cs.

Lemma comp_is_ok comp c s : text comp = Ret c → comp_is comp s = Ret (bool_decide (c = s)).
Proof.
  intros Hc. unfold comp_is. rewrite (text_size _ _ Hc). destruct (Z.eqb_spec (zlen c) (zlen s)).
  - by rewrite Hc.
  - rewrite bool_decide_false; [done|congruence].
Qed.

Lemma comp_char_not_sep b l :
  Forall (λ c, comp_char b c = true) l → Forall (λ c, negb (c =? PATH_SEP) = true) l.
Proof.
  intros Hl. eapply Forall_impl; [exact Hl|]. intros c. unfold comp_char, is_pcomp, PATH_SEP. destruct (Z.eqb_spec c c_slash) as [->|]; [|done].
  by destruct b.
Qed.

Lemma holds_removelast stack cs : holds stack cs → holds (removelast stack) (removelast cs).
Proof. unfold holds. induction 1 as [|s c ? ? Hs Hss IH]; [constructor|]. destruct Hss; simpl; by constructor. Qed.

Lemma forallb_Forall_eq p (l : list Z) : forallb p l = true ↔ Forall (λ c, p c = true) l.
Proof. rewrite forallb_forall, Forall_forall. setoid_rewrite list_elem_of_In. done. Qed.

(** A piece with a character that no component has. *)
Lemma pieces_bad (p : Z → bool) sep a c t :
  Forall (λ c, negb (c =? sep) = true) a → c ≠ sep → p c = false →
  ∃ x ps, pieces sep (a ++ c :: t) = x :: ps ∧ x ≠ [] ∧ forallb p x = false.
Proof.
  intros Ha Hc Hp. induction Ha as [|d a Hd _ IH]; simpl.
  - destruct (Z.eqb_spec c sep); [done|]. destruct (pieces sep t) as [|l ls]; eexists _, _;
      (split; [done|]); simpl; by rewrite Hp.
  - destruct IH as (x & ps & -> & _ & Hx). destruct (d =? sep); [done|].
    eexists _, _. split; [done|]. split; [done|]. simpl. rewrite Hx. apply andb_false_r.
Qed.

Lemma enter_holds stack cs a comp :
  holds stack cs → text comp = Ret a →
  match (if bool_decide (a = DOTDOT) then if zlen stack =? 0 then None else Some (removelast stack)
         else if bool_decide (a = DOT) then Some stack else Some (stack ++ [comp])), enter cs a with
  | Some st, Some cs' => holds st cs'
  | None, None => True
  | _, _ => False
  end.
Proof.
  intros Hst Ha. unfold enter. case_bool_decide.
  - destruct Hst as [|s c stack cs]; [done|]. rewrite zlen_cons. pose proof (zlen_nonneg stack).
    destruct (Z.eqb_spec (1 + zlen stack) 0); [lia|]. rewrite (bool_decide_false (c :: cs = [])) by done. apply holds_removelast. by constructor.
  - case_bool_decide; [done|]. apply Forall2_app; [done|by repeat constructor].
Qed.

(** One round takes the first component off the rest of the path. *)
(** The first piece: everything up to the end, up to a separator, or up to a
    character that does not belong into a component. *)
Lemma first_piece b t :
  let a := take_while (comp_char b) t in let rest := drop_while (comp_char b) t in t ≠ [] →
  ∃ x ps, pieces PATH_SEP t = x :: ps ∧ (rest = [] ∧ x = a ∧ ps = [] ∨
    (∃ t', rest = PATH_SEP :: t' ∧ x = a ∧ ps = pieces PATH_SEP t') ∨
    (∃ c t', rest = c :: t' ∧ c ≠ PATH_SEP ∧ x ≠ [] ∧ forallb (comp_char b) x = false)).
Proof.
  intros a rest Hne. pose proof (take_drop_while (comp_char b) t) as Ht.
  pose proof (Forall_take_while (comp_char b) t) as Ha. fold a rest in Ht, Ha.
  assert (∀ c l, rest = c :: l → comp_char b c = false) as Hrest by (intros; by eapply drop_while_head).
  pose proof (comp_char_not_sep _ _ Ha) as Hasep. rewrite <-Ht. destruct rest as [|c t'] eqn:Hr.
  - rewrite app_nil_r in *. exists a, []. split; [|by left]. apply pieces_last; [done|]. by rewrite Ht.
  - destruct (Z.eqb_spec c PATH_SEP) as [->|Hc].
    + rewrite pieces_sep by done. eauto 10.
    + destruct (pieces_bad (comp_char b) PATH_SEP a c t') as (x & ps & Hp & Hx & Hbad);
        [done..|by eapply Hrest|]. exists x, ps. eauto 10.
Qed.

Lemma split_step_ok src pre t post len limit b stack cs :
  src = pre ++ t ++ post → len = zlen (pre ++ t) → holds stack cs →
  wp (split_step src len limit b (zlen pre, stack)) (λ r, match r with
    | inr None => resolve limit b (pieces PATH_SEP t) cs = None
    | inr (Some st) => ∃ cs', holds st cs' ∧ resolve limit b (pieces PATH_SEP t) cs = Some cs'
    | inl (cur, st) => ∃ pre' t' cs', src = pre' ++ t' ++ post ∧ len = zlen (pre' ++ t') ∧
        cur = zlen pre' ∧ zlen t' < zlen t ∧
        holds st cs' ∧ resolve limit b (pieces PATH_SEP t) cs = resolve limit b (pieces PATH_SEP t') cs'
    end).
Proof.
  intros Hsrc Hlen Hst. unfold split_step. pose proof (zlen_nonneg pre). pose proof (zlen_nonneg t).
  assert (len = zlen pre + zlen t) as Hsz by (by rewrite Hlen, zlen_app).
  assert (zlen stack = zlen cs) as Hdepth by (unfold zlen; by rewrite (Forall2_length _ _ _ Hst)).
  destruct (Z.ltb_spec (zlen pre) len); simpl; cycle 1.
  { assert (t = []) as -> by (apply zlen_0_inv; lia). simpl. eauto. }
  pose proof (take_drop_while (comp_char b) t) as Ht.
  pose proof (Forall_take_while (comp_char b) t) as Ha.
  set (a := take_while (comp_char b) t) in *. set (rest := drop_while (comp_char b) t) in *.
  assert (∀ c l, rest = c :: l → comp_char b c = false) as Hrest by (intros; by eapply drop_while_head).
  pose proof (zlen_nonneg a). pose proof (zlen_nonneg rest).
  assert (zlen t = zlen a + zlen rest) as Hszt by (by rewrite <-Ht, zlen_app).
  pose proof (comp_char_not_sep _ _ Ha) as Hasep.
  destruct (first_piece b t) as (x & ps & Hpieces & Hcase); [intros ->; change (zlen (@nil Z)) with 0 in *; lia|].
  fold a rest in Hcase.
  rewrite Hpieces. cbn [resolve]. rewrite Hdepth. destruct (Z.eqb_spec (zlen cs) limit); [done|].
  assert (skip_while (comp_char b) src len (zlen pre) = Ret (zlen pre + zlen a)) as ->
    by (rewrite Hsrc; by apply skip_while_text).
  cbn [orb mbind outcome_bind size]. replace (zlen pre + zlen a - zlen pre) with (zlen a) by lia.
  set (comp := mkSlice src (zlen pre) (zlen a)).
  assert (text comp = Ret a) as Hcomp by (unfold comp; rewrite Hsrc, <-Ht, <-app_assoc; by apply text_app).
  destruct (Z.eqb_spec (zlen a) 0) as [Ha0|Ha0].
  { assert (a = []) as Hnil by (by apply zlen_0_inv). simpl.
    destruct Hcase as [(Hr & -> & ->)|[(t' & Hr & -> & ->)|(c & t' & _ & _ & _ & Hbad)]].
    - by rewrite bool_decide_true.
    - by rewrite bool_decide_true.
    - rewrite Hbad. by rewrite orb_true_r. }
  rewrite (comp_is_ok _ _ _ Hcomp), (comp_is_ok _ _ _ Hcomp). cbn [mbind outcome_bind].
  assert (bool_decide (x = []) = false) as ->.
  { apply bool_decide_eq_false. destruct Hcase as [(_ & -> & _)|[(t' & _ & -> & _)|(c & t' & _ & _ & ? & _)]]; [..|done];
      by intros ->. }
  cbn [orb]. assert (rest = [] → zlen pre + zlen a = len) as Hend
    by (intros Hr; rewrite Hr in *; change (zlen []) with 0 in *; lia).
  assert (∀ c t', rest = c :: t' → zlen pre + zlen a ≠ len ∧ rd src (zlen pre + zlen a) = Ret c) as Hnext.
  { intros c t' Hr. rewrite Hr, zlen_cons in *. pose proof (zlen_nonneg t'). split; [lia|].
    rewrite Hsrc, <-Ht, <-app_assoc. rewrite !rd_app_r by lia. by replace (_ - _ - _) with 0 by lia. }
  destruct Hcase as [(Hr & -> & ->)|[(t' & Hr & -> & ->)|(c & t' & Hr & Hne & _ & Hbad)]].
  - rewrite (proj2 (forallb_Forall_eq _ _) Ha). cbn [negb].
    pose proof (enter_holds stack cs a comp Hst Hcomp) as Henter. rewrite Hdepth in Henter.
    destruct (if bool_decide (a = DOTDOT) then _ else _) as [st|], (enter cs a) as [cs'|]; try done.
    rewrite Hend, Z.eqb_refl by done. simpl. eauto.
  - rewrite (proj2 (forallb_Forall_eq _ _) Ha). cbn [negb].
    pose proof (enter_holds stack cs a comp Hst Hcomp) as Henter. rewrite Hdepth in Henter.
    destruct (if bool_decide (a = DOTDOT) then _ else _) as [st|], (enter cs a) as [cs'|]; try done.
    destruct (Hnext _ _ Hr) as [Hcur Hrd]. rewrite Hrd.
    destruct (Z.eqb_spec (zlen pre + zlen a) len); [done|]. simpl.
    exists (pre ++ a ++ [PATH_SEP]), t', cs'. rewrite Hr, zlen_cons in Hszt.
    split; [by rewrite Hsrc, <-Ht, Hr, <-!app_assoc|].
    rewrite !zlen_app. change (zlen [PATH_SEP]) with 1. split_and!; done || lia.
  - rewrite Hbad. cbn [negb]. destruct (Hnext _ _ Hr) as [Hcur Hrd]. rewrite Hrd.
    destruct (if bool_decide (a = DOTDOT) then _ else _) as [st|]; [|done].
    destruct (Z.eqb_spec (zlen pre + zlen a) len); [done|]. simpl.
    by destruct (Z.eqb_spec c PATH_SEP).
Qed.

Lemma split_path_components_ok l post limit b :
  wp (split_path_components (l ++ post) (zlen l) limit b) (λ r, match r with
    | Some st => ∃ cs, holds st cs ∧ resolve limit b (components l) [] = Some cs
    | None => resolve limit b (components l) [] = None
    end).
Proof.
  unfold split_path_components. pose proof (zlen_nonneg l).
  assert (∃ pre t, l = pre ++ t ∧ components l = pieces PATH_SEP t ∧
    (if 0 <? zlen l then c ← rd (l ++ post) 0; Ret (c =? PATH_SEP) else Ret false) =
      Ret (negb (zlen pre =? 0)) ∧ (if negb (zlen pre =? 0) then 1 else 0) = zlen pre)
    as (pre & t & Hl & -> & -> & Hpre).
  { destruct l as [|c l]; [by exists [], []|]. rewrite zlen_cons in *. pose proof (zlen_nonneg l).
    unfold components. destruct (Z.ltb_spec 0 (1 + zlen l)); [|lia]. simpl.
    destruct (Z.eqb_spec c PATH_SEP) as [->|]; [by exists [PATH_SEP], l|by exists [], (c :: l)]. }
  cbn [mbind outcome_bind]. rewrite Hpre.
  apply (wp_loop_count (λ n '(cur, st), ∃ pre' t' cs', l ++ post = pre' ++ t' ++ post ∧
    zlen l = zlen (pre' ++ t') ∧ cur = zlen pre' ∧ n = length t' ∧ holds st cs' ∧
    resolve limit b (pieces PATH_SEP t) [] = resolve limit b (pieces PATH_SEP t') cs')) with (length t).
  - exists pre, t, []. rewrite Hl, <-app_assoc. split_and!; try done. constructor.
  - rewrite Hl, zlen_app. unfold zlen. lia.
  - intros n [cur st] (pre' & t' & cs' & Hsrc & Hlen & -> & -> & Hst & ->).
    eapply wp_mono; [by apply (split_step_ok _ pre' t' post)|].
    intros [[cur' st']|[st'|]]; [|done|done].
    intros (pre2 & t2 & cs2 & ? & ? & -> & Hlt & ? & ->). exists (length t2).
    split; [unfold zlen in Hlt; lia|]. eauto 10.
Qed.

(** ** Sanitised paths *)

(** A component that leads down. *)
Definition clean (b : bool) (c : list Z) : Prop :=
  c ≠ [] ∧ c ≠ DOT ∧ c ≠ DOTDOT ∧ Forall (λ x, comp_char b x = true) c.

Lemma resolve_clean limit b cs stack cs' :
  resolve limit b cs stack = Some cs' → Forall (clean b) stack → zlen stack ≤ limit →
  Forall (clean b) cs' ∧ zlen cs' ≤ limit.
Proof.
  revert stack. induction cs as [|c cs IH]; intros stack; simpl; [by intros [= ->]|].
  destruct (Z.eqb_spec (zlen stack) limit); [done|]. simpl.
  case_bool_decide as Hc; [done|]. simpl. destruct (forallb (comp_char b) c) eqn:Hall; [|done].
  apply forallb_Forall_eq in Hall. simpl. unfold enter. intros Hres Hst Hlen.
  case_bool_decide.
  - case_bool_decide; [done|]. eapply IH; [done| |].
    + destruct stack as [|x stack _] using rev_ind; [done|]. rewrite removelast_last.
      by apply Forall_app in Hst as [? _].
    + destruct stack as [|x stack _] using rev_ind; [done|]. rewrite removelast_last, zlen_app in *.
      pose proof (zlen_nonneg [x]). lia.
  - case_bool_decide; [by eapply IH|]. eapply IH; [done| |].
    + apply Forall_app. split; [done|]. by repeat constructor.
    + rewrite zlen_app. change (zlen [c]) with 1. lia.
Qed.

Lemma resolve_of_clean limit b cs stack :
  Forall (clean b) cs → zlen (stack ++ cs) ≤ limit → resolve limit b cs stack = Some (stack ++ cs).
Proof.
  intros Hcs. revert stack. induction Hcs as [|c cs (Hne & Hd & Hdd & Hall) _ IH]; intros stack Hlen.
  { by rewrite app_nil_r. }
  simpl. rewrite zlen_app, zlen_cons in Hlen. pose proof (zlen_nonneg cs).
  destruct (Z.eqb_spec (zlen stack) limit); [lia|].
  rewrite bool_decide_false by done. rewrite (proj2 (forallb_Forall_eq _ _) Hall). simpl.
  unfold enter. rewrite !bool_decide_false by done. rewrite IH, <-app_assoc; [done|].
  rewrite !zlen_app. change (zlen [c]) with 1. lia.
Qed.

Lemma components_render b cs : Forall (clean b) cs → components (render cs) = cs.
Proof.
  destruct 1 as [|c cs Hc Hcs]; [done|].
  change (components (render (c :: cs))) with (pieces PATH_SEP (c ++ render cs)).
  revert c Hc. induction Hcs as [|c' cs Hc' _ IH]; intros c (Hne & _ & _ & Hall);
    apply comp_char_not_sep in Hall.
  - change (render []) with (@nil Z). rewrite app_nil_r. by apply pieces_last.
  - change (render (c' :: cs)) with (PATH_SEP :: c' ++ render cs). rewrite pieces_sep by done.
    by rewrite IH.
Qed.

Lemma render_length stack cs n :
  holds stack cs → foldl (λ req comp, req + size comp) n stack = n - zlen cs + zlen (render cs).
Proof.
  intros Hst. revert n. induction Hst as [|s c stack cs Hs _ IH]; intros n; simpl.
  { change (zlen (render [])) with 0. change (zlen []) with 0. lia. }
  rewrite IH. unfold render. rewrite fmap_cons. cbn [concat]. rewrite (text_size _ _ Hs).
  rewrite zlen_app, !zlen_cons. lia.
Qed.

Lemma copy_comps_ok stack cs done gap :
  holds stack cs → zlen (render cs) ≤ zlen gap →
  wp (copy_comps (done ++ gap) (zlen done) stack) (λ '(mem, n), ∃ gap',
    mem = done ++ render cs ++ gap' ∧ n = zlen done + zlen (render cs) ∧
    zlen gap = zlen (render cs) + zlen gap').
Proof.
  intros Hst. revert done gap. induction Hst as [|s c stack cs Hs _ IH]; intros done gap Hfit.
  { simpl. exists gap. change (zlen (render [])) with 0. split_and!; done || lia. }
  assert (render (c :: cs) = PATH_SEP :: c ++ render cs) as Hr by done.
  rewrite Hr, zlen_cons, zlen_app in Hfit |- *. pose proof (zlen_nonneg c).
  pose proof (zlen_nonneg (render cs)). pose proof (zlen_nonneg done).
  destruct gap as [|x gap]; [change (zlen []) with 0 in *; lia|]. rewrite zlen_cons in Hfit.
  destruct (list_split3 gap 0 (zlen c)) as (? & g1 & g2 & -> & ->%zlen_0_inv & Hg1 & Hg2); [lia..|].
  rewrite app_nil_l in *. simpl copy_comps. rewrite wr_ok by (rewrite zlen_app, zlen_cons; pose proof (zlen_nonneg (g1 ++ g2)); lia).
  cbn [mbind outcome_bind app].
  replace (<[Z.to_nat (zlen done):=PATH_SEP]> (done ++ x :: g1 ++ g2))
    with ((done ++ [PATH_SEP]) ++ g1 ++ g2).
  2:{ unfold zlen. rewrite Nat2Z.id, insert_app_r_alt, Nat.sub_diag by lia. by rewrite <-app_assoc. }
  rewrite Hs. cbn [mbind outcome_bind].
  rewrite wr_range_app by (rewrite ?zlen_app; done). cbn [mbind outcome_bind].
  rewrite (text_size _ _ Hs). rewrite app_assoc.
  replace (zlen done + 1 + zlen c) with (zlen ((done ++ [PATH_SEP]) ++ c)) by (rewrite !zlen_app; done).
  eapply wp_mono; [apply IH; rewrite zlen_app in Hfit; simpl in Hg2; lia|].
  intros [mem n] (gap' & -> & -> & Hgap). exists gap'. rewrite <-!app_assoc.
  rewrite zlen_app in *. change (zlen [PATH_SEP]) with 1 in *.
  split_and!; [done| |rewrite zlen_cons, zlen_app; lia].
  rewrite !zlen_app. change (zlen [PATH_SEP]) with 1. lia.
Qed.

Lemma sanitize_path_ok l post mem max :
  max ≤ zlen mem →
  wp (sanitize_path (l ++ post) (zlen l) mem max) (λ '(mem', n),
    match resolve MAX_COMPS false (components l) [] with
    | Some cs =>
        if zlen (render cs) <? max then
          n = zlen (render cs) ∧ zlen mem' = zlen mem ∧ ∃ rest, mem' = render cs ++ 0 :: rest
        else n = SIZE_MAX ∧ mem' = mem
    | None => n = SIZE_MAX ∧ mem' = mem
    end).
Proof.
  intros Hmax. unfold sanitize_path. apply wp_bind.
  eapply wp_mono; [apply split_path_components_ok|].
  intros [st|]; [|by intros ->]. intros (cs & Hst & ->). rewrite (render_length _ _ _ Hst).
  assert (zlen st = zlen cs) as -> by (unfold zlen; by rewrite (Forall2_length _ _ _ Hst)).
  replace (zlen cs - zlen cs + zlen (render cs)) with (zlen (render cs)) by lia.
  pose proof (zlen_nonneg (render cs)).
  destruct (Z.leb_spec max (zlen (render cs))), (Z.ltb_spec (zlen (render cs)) max); try lia; [done|].
  apply wp_bind. eapply wp_mono; [apply (copy_comps_ok st cs [] mem Hst); lia|].
  intros [mem' n] (gap & -> & -> & Hgap). simpl ([] ++ _). rewrite Z.add_0_l.
  destruct gap as [|x gap]; [change (zlen []) with 0 in *; lia|].
  rewrite wr_ok by (rewrite zlen_app, zlen_cons; pose proof (zlen_nonneg gap); lia).
  cbn [mbind outcome_bind wp]. split; [done|]. rewrite zlen_insert. split; [rewrite zlen_app; lia|].
  exists gap. unfold zlen. by rewrite Nat2Z.id, insert_app_r_alt, Nat.sub_diag by lia.
Qed.

(** ** Lookups that answer with a slice *)

(** The text a lookup answers with. *)
Definition answer (r : option slice) : outcome (option (list Z)) :=
  match r with None => Ret None | Some out => t ← text out; Ret (Some t) end.

(** The value of the first of the named values with the given name. *)
Definition first_value (key : list Z) (ps : list (list Z * list Z)) : option (list Z) :=
  snd <$> List.find (λ p, bool_decide (p.1 = key)) ps.

(** C22.  A sanitised path fits into its buffer with its terminator and is the
    path of the directory that the components of the source lead to without
    ever leaving the root; if there is none, or it does not fit, the answer is
    -1 and the buffer is untouched. *)
Theorem sanitize_path_correct l mem max :
  max ≤ zlen mem →
  wp (sanitize_path l (zlen l) mem max) (λ '(mem', n),
    match resolve MAX_COMPS false (components l) [] with
    | Some cs =>
        if zlen (render cs) <? max then
          n = zlen (render cs) ∧ zlen mem' = zlen mem ∧ ∃ rest, mem' = render cs ++ 0 :: rest
        else n = SIZE_MAX ∧ mem' = mem
    | None => n = SIZE_MAX ∧ mem' = mem
    end).
Proof. intros Hmax. pose proof (sanitize_path_ok l [] mem max Hmax) as H. by rewrite app_nil_r in H. Qed.

(** C21.  What [sanitize_path] produces is safe to append to a root: each
    component is a name (not empty, not "." or "..", printable, without slash
    or colon), and sanitising it again changes nothing. *)
Theorem sanitize_path_safe l mem max mem' n :
  max ≤ zlen mem → max < SIZE_MAX → sanitize_path l (zlen l) mem max = Ret (mem', n) → n ≠ SIZE_MAX →
  ∃ cs rest, mem' = render cs ++ 0 :: rest ∧ n = zlen (render cs) ∧ n < max ∧ Forall (clean false) cs ∧
    wp (sanitize_path mem' n mem max) (λ '(mem2, n2), n2 = n ∧ ∃ rest2, mem2 = render cs ++ 0 :: rest2).
Proof.
  intros Hmax Hbig Hrun Hn. pose proof (sanitize_path_ok l [] mem max Hmax) as H.
  rewrite app_nil_r, Hrun in H. simpl in H.
  destruct (resolve MAX_COMPS false (components l) []) as [cs|] eqn:Hres; [|by destruct H].
  destruct (Z.ltb_spec (zlen (render cs)) max) as [Hfit|]; [|by destruct H].
  destruct H as (-> & Hlen & rest & ->).
  destruct (resolve_clean _ _ _ _ _ Hres) as [Hclean Hcount]; [done|done|].
  exists cs, rest. split_and!; [done..|]. eapply wp_mono; [by apply sanitize_path_ok|].
  intros [mem2 n2]. rewrite (components_render _ _ Hclean), (resolve_of_clean _ _ _ _ Hclean); [|done].
  simpl. destruct (Z.ltb_spec (zlen (render cs)) max); [|lia]. intros (-> & _ & Hm). done.
Qed.

(** ** A deviation of the matching *)

(** Two literal components of one length are never told apart: the comparison
    that fails leaves with [return false], which is 0, the answer for a match. *)
Lemma literal_mismatch_matches :
  match_path_format (chars "/users/42") (chars "/posts/:n") = Ret (0, []).
Proof. vm_compute. reflexivity. Qed.

(** ** Witnesses *)

Lemma sanitize_path_correct_witness :
  wp (sanitize_path (chars "/a/./b/../c/") 12 (replicate 8 7) 8) (λ '(mem', n),
    n = 4 ∧ zlen mem' = 8 ∧ ∃ rest, mem' = chars "/a/c" ++ 0 :: rest).
Proof. apply (sanitize_path_correct (chars "/a/./b/../c/") (replicate 8 7) 8). vm_compute. discriminate. Defined.

Lemma sanitize_path_safe_witness :
  ∃ cs rest, chars "/a/c" ++ [0; 7; 7; 7] = render cs ++ 0 :: rest ∧ 4 = zlen (render cs) ∧ 4 < 8 ∧
    Forall (clean false) cs ∧
    wp (sanitize_path (chars "/a/c" ++ [0; 7; 7; 7]) 4 (replicate 8 7) 8) (λ '(mem2, n2),
      n2 = 4 ∧ ∃ rest2, mem2 = render cs ++ 0 :: rest2).
Proof.
  apply (sanitize_path_safe (chars "/a/./b/../c/") (replicate 8 7) 8).
  - vm_compute. discriminate.
  - vm_compute. reflexivity.
  - vm_compute. reflexivity.
  - vm_compute. discriminate.
Defined.
