(* ===== verification/QueryString.v ===== *)
(** The query strings of [src/http/query_string.c]: percent decoding and the
    search for a parameter. *)
From S2P Require Import Prelude HttpParse HttpPath.

(** ** The code *)

(** The characters that stand for themselves. *)
Definition is_print (c : Z) : bool := (32 <=? c) && (c <? 127).

Definition hex_to_num (x : Z) : option Z :=
  if (c_A <=? x) && (x <=? c_F) then Some (x - c_A)
  else if (c_a <=? x) && (x <=? c_f) then Some (x - c_a)
  else if (c_0 <=? x) && (x <=? c_9) then Some (x - c_0)
  else None.

Definition plain (c : Z) : bool :=
  negb (c =? c_equal) && negb (c =? c_amp) && negb (c =? c_percent) && negb (c =? c_plus) && is_print c.

Definition skip_any_valid_chars_not_percent_encoded (src : list Z) (len cur : Z) : outcome Z :=
  skip_while plain src len cur.

(** [cur < len && (src[cur] == '+' || src[cur] == '%')] *)
Definition at_encoded (src : list Z) (len cur : Z) : outcome bool :=
  if cur <? len then c ← rd src cur; Ret ((c =? c_plus) || (c =? c_percent)) else Ret false.

(** The two digits behind the percent sign at [cur]. *)
Definition hex_pair (src : list Z) (len cur : Z) : outcome (option (Z * Z)) :=
  if len <=? cur + 2 then Ret None
  else
    x ← rd src (cur + 1);
    match hex_to_num x with
    | None => Ret None
    | Some u =>
        y ← rd src (cur + 2);
        match hex_to_num y with None => Ret None | Some v => Ret (Some (u, v)) end
    end.

(** The cursor behind the plus or percent sign at [cur] and its digits. *)
Definition skip_one (src : list Z) (len cur : Z) : outcome (option Z) :=
  c ← rd src cur;
  if c =? c_plus then Ret (Some (cur + 1))
  else
    p ← hex_pair src len cur;
    match p with None => Ret None | Some _ => Ret (Some (cur + 3)) end.

(** The new cursor, [None] if the encoding is invalid. *)
Definition skip_percent_encoded_substr (src : list Z) (len cur : Z) : outcome (option Z) :=
  cur ← skip_any_valid_chars_not_percent_encoded src len cur;
  loop (S (Z.to_nat (len - cur)))
    (λ cur,
       more ← at_encoded src len cur;
       if negb more then break (Some cur)
       else
         next ← skip_one src len cur;
         match next with
         | None => break None
         | Some cur =>
             cur ← skip_any_valid_chars_not_percent_encoded src len cur;
             continue cur
         end)
    cur.

(** The character at the plus or percent sign at [cur], and the cursor behind. *)
Definition decode_one (src : list Z) (len cur : Z) : outcome (option (Z * Z)) :=
  c ← rd src cur;
  if c =? c_plus then Ret (Some (SP, cur + 1))
  else
    p ← hex_pair src len cur;
    match p with
    | None => Ret None
    | Some (u, v) =>
        _ ← c_assert ((0 <=? u) && (u <? 16));
        _ ← c_assert ((0 <=? v) && (v <? 16));
        Ret (Some (s8 (u8 (Z.lor (Z.shiftl u 4) v)), cur + 3))
    end.

(** One round of the copying loop, over the cursor, the characters copied and
    the buffer; it ends with the cursor and the count, or with [None]. *)
Definition decode_step (src : list Z) (len max : Z) (st : Z * Z * list Z)
    : outcome (Z * Z * list Z + option (Z * Z) * list Z) :=
  let '(cur, copied, dst) := st in
  _ ← c_assert (cur <? len);
  one ← decode_one src len cur;
  match one with
  | None => break (None, dst)
  | Some (byte, cur) =>
      if copied =? max then break (None, dst)
      else
        dst ← wr dst copied byte;
        let copied := copied + 1 in
        let start := cur in
        cur ← skip_any_valid_chars_not_percent_encoded src len cur;
        if max <? copied + cur - start then break (None, dst)
        else
          plain ← rd_range src start (cur - start);
          dst ← wr_range dst copied plain;
          let copied := copied + (cur - start) in
          again ← at_encoded src len cur;
          if again : bool then continue (cur, copied, dst) else break (Some (cur, copied), dst)
  end.

(** The value of [*cur_] and of [*out] if the function answers true, and the
    destination buffer.  The [return -1] of a too small buffer is the answer
    true, with the cursor where it was. *)
Definition parse_percent_encoded_substr (src : list Z) (len : Z) (dst : list Z) (max cur_ : Z)
    : outcome (option (Z * slice) * list Z) :=
  let start := cur_ in
  cur ← skip_any_valid_chars_not_percent_encoded src len start;
  let out := mkSlice src start (cur - start) in
  encoded ← at_encoded src len cur;
  if encoded : bool then
    if max <? size out then Ret (Some (cur_, out), dst)
    else
      t ← text out;
      dst ← wr_range dst 0 t;
      '(r, dst) ← loop (S (Z.to_nat (len - cur))) (decode_step src len max) (cur, size out, dst);
      match r with
      | None => Ret (None, dst)
      | Some (cur, copied) => Ret (Some (cur, mkSlice dst 0 copied), dst)
      end
  else Ret (Some (cur, out), dst).

(** [cur < len && src[cur] == c] *)
Definition is_at (src : list Z) (len cur c : Z) : outcome bool :=
  if cur <? len then x ← rd src cur; Ret (x =? c) else Ret false.

(** One round of the search, over the cursor and the buffer. *)
Definition param_step (src : list Z) (src_len : Z) (key : list Z) (max : Z) (st : Z * list Z)
    : outcome (Z * list Z + option slice * list Z) :=
  let '(cur, dst) := st in
  if negb (cur <? src_len) then break (None, dst)
  else
    '(r, dst) ← parse_percent_encoded_substr src src_len dst max cur;
    match r with
    | None => break (None, dst)
    | Some (cur, key2) =>
        invalid ← (if cur <? src_len then c ← rd src cur; Ret (negb (is_print c)) else Ret false);
        if invalid : bool then break (None, dst)
        else
          found ← comp_is key2 key;
          eq ← is_at src src_len cur c_equal;
          if found : bool then
            if eq : bool then
              '(r, dst) ← parse_percent_encoded_substr src src_len dst max (cur + 1);
              break (match r with None => None | Some (_, out) => Some out end, dst)
            else break (Some (mkSlice [0] 0 0), dst)
          else
            cur ← (if eq : bool then skip_percent_encoded_substr src src_len (cur + 1)
                   else Ret (Some cur));
            match cur with
            | None => break (None, dst)
            | Some cur =>
                stop ← (if cur <? src_len then c ← rd src cur; Ret (negb (c =? c_amp)) else Ret false);
                if stop : bool then break (None, dst) else continue (cur + 1, dst)
            end
    end.

(** The slice [*out] if the answer is true, and the buffer; [src] is [None]
    for NULL, [key] the text of a C string. *)
Definition get_query_string_param (src : option (list Z)) (src_len : Z) (key dst : list Z) (max : Z)
    : outcome (option slice * list Z) :=
  let src := match src with Some src => src | None => [0] end in
  q ← is_at src src_len 0 c_question;
  loop (S (Z.to_nat src_len)) (param_step src src_len key max) (if q : bool then 1 else 0, dst).

(** ** Percent decoding as a function on texts *)

Definition prefixed (l : list Z) (r : option (list Z * list Z)) : option (list Z * list Z) :=
  match r with Some (l', rest) => Some (l ++ l', rest) | None => None end.

Definition byte_of (u v : Z) : Z := s8 (u8 (Z.lor (Z.shiftl u 4) v)).

Definition head_is (p : Z → bool) (t : list Z) : bool :=
  match t with [] => false | c :: _ => p c end.

Section decoding.
(** What a digit of an escape stands for. *)
Context (hex : Z → option Z).

(** The decoded text up to the first character that is no part of a name or
    value, and what is left; [None] if the encoding is invalid. *)
Fixpoint decode_with (t : list Z) : option (list Z * list Z) :=
  match t with
  | [] => Some ([], [])
  | c :: t1 =>
      if c =? c_plus then prefixed [SP] (decode_with t1)
      else if c =? c_percent then
        match t1 with
        | x :: y :: t2 =>
            match hex x, hex y with
            | Some u, Some v => prefixed [byte_of u v] (decode_with t2)
            | _, _ => None
            end
        | _ => None
        end
      else if plain c then prefixed [c] (decode_with t1)
      else Some ([], t)
  end.

(** The search for a parameter as a function on the text behind the question
    mark: the names and values are decoded up to the parameter, and the search
    ends at the first character out of place.  One parameter leads to the text
    behind it, or to the value. *)
Definition query_step_with (key t : list Z) : list Z + option (list Z) :=
  match decode_with t with
  | None => inr None
  | Some (k, r) =>
      if head_is (λ c, negb (is_print c)) r then inr None
      else
        let eq := head_is (λ c, c =? c_equal) r in
        if bool_decide (k = key) then inr (if eq then fst <$> decode_with (tail r) else Some [])
        else
          match (if eq then snd <$> decode_with (tail r) else Some r) with
          | None => inr None
          | Some r => if head_is (λ c, negb (c =? c_amp)) r then inr None else inl (tail r)
          end
  end.

(** [n] bounds the number of parameters. *)
Fixpoint query_with (n : nat) (key t : list Z) : option (list Z) :=
  match n, t with
  | O, _ | _, [] => None
  | S n, _ => match query_step_with key t with inl t => query_with n key t | inr v => v end
  end.

(** The search in a whole query string, its question mark optional. *)
Definition find_param (key src : list Z) : option (list Z) :=
  let t := if head_is (λ c, c =? c_question) src then tail src else src in
  query_with (length t) key t.
End decoding.

(** The value of a hexadecimal digit, as RFC 3986 has it. *)
Definition rfc_digit (c : Z) : option Z :=
  if (c_0 <=? c) && (c <=? c_9) then Some (c - c_0)
  else if (c_A <=? c) && (c <=? c_F) then Some (c - c_A + 10)
  else if (c_a <=? c) && (c <=? c_f) then Some (c - c_a + 10)
  else None.

(** Its value here: a letter counts for its value less ten. *)
Definition read_digit (c : Z) : option Z := (λ d, d mod 10) <$> rfc_digit c.

(** No escape has a letter for a digit. *)
Definition decimal_escapes (src : list Z) : Prop :=
  ∀ a x y b, src = a ++ c_percent :: x :: y :: b → ∀ c d, c = x ∨ c = y → rfc_digit c = Some d → d < 10.

Notation decode := (decode_with hex_to_num).
Notation query_step := (query_step_with hex_to_num).
Notation query := (query_with hex_to_num).

Definition encoded (c : Z) : bool := (c =? c_plus) || (c =? c_percent).

Lemma hex_to_num_range x u : hex_to_num x = Some u → 0 ≤ u < 10.
Proof.
  unfold hex_to_num. repeat case_match; intros [= <-]; lia.
Qed.

Lemma plain_not_encoded c : plain c = true → encoded c = false.
Proof. unfold plain, encoded. lia. Qed.

Lemma prefixed_app l k r : prefixed l (prefixed k r) = prefixed (l ++ k) r.
Proof. destruct r as [[? ?]|]; [|done]. simpl. by rewrite <-app_assoc. Qed.

Lemma decode_plain l t : Forall (λ c, plain c = true) l → decode (l ++ t) = prefixed l (decode t).
Proof.
  induction 1 as [|c l Hc _ IH]; [simpl; by destruct (decode t) as [[? ?]|]|].
  simpl. rewrite Hc. unfold plain in Hc.
  destruct (Z.eqb_spec c c_plus), (Z.eqb_spec c c_percent); [lia..|]. by rewrite IH, prefixed_app.
Qed.

Lemma decode_stop t : head_is plain t = false → head_is encoded t = false → decode t = Some ([], t).
Proof.
  destruct t as [|c t]; [done|]. simpl. unfold encoded. intros -> Hc.
  by destruct (c =? c_plus), (c =? c_percent).
Qed.

(** The decoded text is no longer than its source, and it ends where the
    source does not go on. *)
Lemma decode_length t l rest :
  decode t = Some (l, rest) → ∃ a, t = a ++ rest ∧ zlen l ≤ zlen a.
Proof.
  revert l rest. induction t as [t IH] using (induction_ltof1 _ length). unfold ltof in IH.
  assert (∀ b a t' l rest, t = a ++ t' → a ≠ [] → prefixed [b] (decode t') = Some (l, rest) →
            ∃ a, t = a ++ rest ∧ zlen l ≤ zlen a) as Hstep.
  { intros b a t' l rest Ht Ha Hd. destruct (decode t') as [[l' rest']|] eqn:Hl; [|done].
    injection Hd as <- <-. assert (length t' < length t)%nat as Hlt.
    { rewrite Ht, length_app. destruct a; [done|]. simpl. lia. }
    destruct (IH t' Hlt _ _ Hl) as (a' & -> & ?).
    exists (a ++ a'). rewrite <-app_assoc. split; [done|].
    rewrite zlen_cons, zlen_app. destruct a as [|x a]; [done|]. rewrite zlen_cons. pose proof (zlen_nonneg a). lia. }
  intros l rest Hd. destruct t as [|c t1]; simpl in Hd; 
    [injection Hd as <- <-;
     exists []; split; [done|lia]|].
  destruct (c =? c_plus); [by apply (Hstep SP [c] t1)|].
  destruct (c =? c_percent).
  { destruct t1 as [|x [|y t2]]; [done..|].
    destruct (hex_to_num x) as [u|], (hex_to_num y) as [v|]; [|done..].
    by apply (Hstep (byte_of u v) [c; x; y] t2). }
  destruct (plain c); [by apply (Hstep c [c] t1)|]. injection Hd as <- <-. by exists []; split; [|lia].
Qed.

(** ** The scans, at a position of a text that may go on behind its length *)

Implicit Types pre t post acc : list Z.

Lemma rd_head pre c (t1 : list Z) post : rd (pre ++ (c :: t1) ++ post) (zlen pre) = Ret c.
Proof. by rewrite (rd_app_r pre _ (zlen pre)), Z.sub_diag by lia. Qed.

Lemma peek_ok p pre t post len :
  len = zlen (pre ++ t) →
  (if zlen pre <? len then c ← rd (pre ++ t ++ post) (zlen pre); Ret (p c) else Ret false) =
  Ret (head_is p t).
Proof.
  intros ->. rewrite zlen_app. destruct t as [|c t1].
  - rewrite zlen_nil. by destruct (Z.ltb_spec (zlen pre) (zlen pre + 0)); [lia|].
  - rewrite rd_head, zlen_cons. pose proof (zlen_nonneg t1).
    by destruct (Z.ltb_spec (zlen pre) (zlen pre + (1 + zlen t1))); [|lia].
Qed.

Lemma skip_plain_ok pre t post len :
  len = zlen (pre ++ t) →
  ∃ l t', t = l ++ t' ∧ Forall (λ c, plain c = true) l ∧ head_is plain t' = false ∧
    skip_any_valid_chars_not_percent_encoded (pre ++ t ++ post) len (zlen pre) =
      Ret (zlen (pre ++ l)).
Proof.
  intros Hlen. exists (take_while plain t), (drop_while plain t). rewrite take_drop_while.
  split_and!; [done|apply Forall_take_while| |].
  - destruct (drop_while plain t) eqn:Hd; [done|]. by eapply drop_while_head.
  - rewrite zlen_app. by apply skip_while_text.
Qed.

Lemma decode_one_ok pre t post len :
  len = zlen (pre ++ t) →
  head_is encoded t = true →
  wp (decode_one (pre ++ t ++ post) len (zlen pre)) (λ r,
    match r with
    | None => decode t = None
    | Some (byte, cur) => ∃ a t', t = a ++ t' ∧ 1 ≤ zlen a ∧ cur = zlen (pre ++ a) ∧
        decode t = prefixed [byte] (decode t')
    end).
Proof.
  intros Hlen Henc. destruct t as [|c t1]; [done|]. simpl in Henc. unfold decode_one.
  rewrite rd_head. cbn [mbind outcome_bind decode].
  unfold encoded in Henc. destruct (Z.eqb_spec c c_plus) as [->|].
  { simpl. exists [c_plus], t1. rewrite zlen_app. split_and!; done. }
  destruct (Z.eqb_spec c c_percent) as [->|]; [|done].
  unfold hex_pair. rewrite Hlen, zlen_app, !zlen_cons.
  destruct t1 as [|x [|y t2]].
  { change (zlen (@nil Z)) with 0. by destruct (Z.leb_spec (zlen pre + (1 + 0)) (zlen pre + 2)); [|lia]. }
  { rewrite zlen_cons. change (zlen (@nil Z)) with 0.
    by destruct (Z.leb_spec (zlen pre + (1 + (1 + 0))) (zlen pre + 2)); [|lia]. }
  rewrite !zlen_cons. pose proof (zlen_nonneg t2).
  destruct (Z.leb_spec (zlen pre + (1 + (1 + (1 + zlen t2)))) (zlen pre + 2)); [lia|].
  rewrite (rd_app_r pre _ (zlen pre + 1)), (rd_app_r pre _ (zlen pre + 2)) by lia.
  replace (zlen pre + 1 - zlen pre) with 1 by lia. replace (zlen pre + 2 - zlen pre) with 2 by lia.
  change (rd ((c_percent :: x :: y :: t2) ++ post) 1) with (Ret x).
  change (rd ((c_percent :: x :: y :: t2) ++ post) 2) with (Ret y). cbn [mbind outcome_bind].
  destruct (hex_to_num x) as [u|] eqn:Hu; [|done]. cbn [mbind outcome_bind].
  destruct (hex_to_num y) as [v|] eqn:Hv; [|done]. cbn [mbind outcome_bind].
  apply hex_to_num_range in Hu, Hv.
  replace ((0 <=? u) && (u <? 16)) with true by lia. replace ((0 <=? v) && (v <? 16)) with true by lia.
  simpl. exists [c_percent; x; y], t2. rewrite zlen_app. split_and!; done.
Qed.

(** ** The decoder *)

(** A decoded text that is in the buffer, or the buffer was too small for it. *)
Lemma decode_step_ok pre t post len max dst acc :
  len = zlen (pre ++ t) → head_is encoded t = true → zlen acc ≤ max ≤ zlen dst →
  wp (decode_step (pre ++ t ++ post) len max (zlen pre, zlen acc, over acc dst)) (λ r,
    match r with
    | inl (cur, copied, dst') => ∃ a t' l, t = a ++ t' ∧ 1 ≤ zlen l ≤ zlen a ∧
        decode t = prefixed l (decode t') ∧ head_is encoded t' = true ∧ zlen (acc ++ l) ≤ max ∧
        cur = zlen (pre ++ a) ∧ copied = zlen (acc ++ l) ∧ dst' = over (acc ++ l) dst
    | inr (Some (cur, copied), dst') => ∃ a t' l, t = a ++ t' ∧
        decode t = Some (l, t') ∧ zlen (acc ++ l) ≤ max ∧
        cur = zlen (pre ++ a) ∧ copied = zlen (acc ++ l) ∧ dst' = over (acc ++ l) dst
    | inr (None, dst') => (decode t = None ∨ max < zlen acc + zlen t) ∧
        ∃ acc', zlen acc' ≤ max ∧ dst' = over acc' dst
    end).
Proof.
  intros Hlen Henc [Hacc Hmax]. unfold decode_step.
  assert (1 ≤ zlen t) as Ht by (destruct t; [done|rewrite zlen_cons; pose proof (zlen_nonneg t); lia]).
  apply wp_bind, wp_assert; [rewrite Hlen, zlen_app; lia|].
  apply wp_bind. eapply wp_mono; [by apply decode_one_ok|].
  intros [[byte cur]|]; [|intros Hd; split; [by left|by exists acc]].
  intros (a & t1 & -> & Ha & -> & Hd). rewrite zlen_app in Ht.
  destruct (Z.eqb_spec (zlen acc) max).
  { split; [right; rewrite zlen_app; lia|]. by exists acc. }
  apply wp_bind. rewrite wr_over by lia. cbn [wp].
  replace (pre ++ (a ++ t1) ++ post) with ((pre ++ a) ++ t1 ++ post) by by rewrite <-!app_assoc.
  rewrite app_assoc in Hlen.
  destruct (skip_plain_ok (pre ++ a) t1 post len Hlen) as (l & t' & -> & Hl & Hno & Hskip).
  apply wp_bind. rewrite Hskip. cbn [wp]. rewrite (zlen_app (pre ++ a) l).
  replace (zlen (pre ++ a) + zlen l - zlen (pre ++ a)) with (zlen l) by lia.
  pose proof (zlen_nonneg l). pose proof (zlen_nonneg t').
  destruct (Z.ltb_spec max (zlen acc + 1 + (zlen (pre ++ a) + zlen l) - zlen (pre ++ a))).
  { split; [right; rewrite !zlen_app; lia|]. exists (acc ++ [byte]). rewrite zlen_app.
    change (zlen [byte]) with 1. split; [lia|done]. }
  rewrite <-(app_assoc l t' post). rewrite rd_range_app by done. cbn [mbind outcome_bind].
  replace (zlen acc + 1) with (zlen (acc ++ [byte])) by by rewrite zlen_app.
  rewrite wr_range_over by (rewrite zlen_app; change (zlen [byte]) with 1; lia).
  cbn [mbind outcome_bind]. rewrite <-(zlen_app (pre ++ a) l).
  rewrite (app_assoc (pre ++ a) l (t' ++ post)). unfold at_encoded.
  rewrite (peek_ok (λ c, (c =? c_plus) || (c =? c_percent)))
    by (rewrite Hlen, <-!app_assoc; done).
  cbn [mbind outcome_bind].
  assert (decode (a ++ l ++ t') = prefixed (byte :: l) (decode t')) as Hd'.
  { rewrite Hd, (decode_plain l t' Hl), prefixed_app. done. }
  assert ((acc ++ [byte]) ++ l = acc ++ byte :: l) as Hsame by by rewrite <-app_assoc.
  assert (zlen (acc ++ [byte]) + zlen l = zlen (acc ++ byte :: l)) as Hz by by rewrite <-zlen_app, Hsame.
  assert (zlen (acc ++ byte :: l) ≤ max) as Hfit
    by (rewrite <-Hz, zlen_app; change (zlen [byte]) with 1; lia).
  change (head_is _ t') with (head_is encoded t').
  destruct (head_is encoded t') eqn:Hh; simpl; exists (a ++ l), t', (byte :: l);
    rewrite Hz, Hsame, <-!app_assoc.
  - rewrite zlen_cons, zlen_app. split_and!; done || lia.
  - rewrite Hd', (decode_stop t' Hno Hh). simpl. rewrite app_nil_r. done.
Qed.

(** What the decoding of the text at [pre] may leave behind: the buffer is
    written below [max] only, the slice can be read, and with room for the whole
    text it holds what [decode] says. *)
Definition parsed (pre t dst : list Z) (max : Z) (r : option (Z * slice) * list Z) : Prop :=
  zlen r.2 = zlen dst ∧ drop (Z.to_nat max) r.2 = drop (Z.to_nat max) dst ∧
  match r.1 with
  | None => decode t = None ∨ max < zlen t
  | Some (cur, out) => ∃ a t' l, t = a ++ t' ∧ cur = zlen (pre ++ a) ∧ text out = Ret l ∧
      (decode t = Some (l, t') ∨ max < zlen t)
  end.

Lemma parse_percent_encoded_ok pre t post len dst max :
  len = zlen (pre ++ t) → 0 ≤ max ≤ zlen dst →
  wp (parse_percent_encoded_substr (pre ++ t ++ post) len dst max (zlen pre)) (parsed pre t dst max).
Proof.
  intros Hlen Hmax. unfold parse_percent_encoded_substr.
  destruct (skip_plain_ok pre t post len Hlen) as (l & t' & -> & Hl & Hno & Hskip).
  apply wp_bind. rewrite Hskip. cbn [wp size]. rewrite app_assoc in Hlen.
  replace (zlen (pre ++ l) - zlen pre) with (zlen l) by (rewrite zlen_app; lia).
  pose proof (zlen_nonneg l). pose proof (zlen_nonneg t').
  assert (text (mkSlice (pre ++ (l ++ t') ++ post) (zlen pre) (zlen l)) = Ret l) as Hout.
  { unfold text. simpl. rewrite <-app_assoc. by apply rd_range_app. }
  rewrite Hout. unfold at_encoded. apply wp_bind.
  replace (pre ++ (l ++ t') ++ post) with ((pre ++ l) ++ t' ++ post) by by rewrite <-!app_assoc.
  rewrite (peek_ok (λ c, (c =? c_plus) || (c =? c_percent))) by done. cbn [wp].
  change (head_is _ t') with (head_is encoded t').
  replace (pre ++ l ++ t' ++ post) with ((pre ++ l) ++ t' ++ post) in * by by rewrite <-!app_assoc.
  replace ((pre ++ l) ++ t' ++ post) with (pre ++ (l ++ t') ++ post) in Hout by by rewrite <-!app_assoc.
  destruct (head_is encoded t') eqn:Hh.
  2:{ split_and!; [done..|]. simpl. exists l, t', l.
      split_and!; [done..|by rewrite <-Hout, <-!app_assoc|].
      left. rewrite (decode_plain l t' Hl), (decode_stop t' Hno Hh). simpl. by rewrite app_nil_r. }
  destruct (Z.ltb_spec max (zlen l)).
  { split_and!; [done..|]. simpl. exists [], (l ++ t'), l. rewrite app_nil_r.
    split_and!; [done..|by rewrite <-Hout, <-!app_assoc|]. right. rewrite zlen_app. lia. }
  cbn [mbind outcome_bind].
  pose proof (wr_range_over [] dst l) as Hwr. rewrite over_nil in Hwr. change (zlen []) with 0 in Hwr.
  rewrite Hwr by lia. cbn [mbind outcome_bind app]. apply wp_bind.
  apply (wp_loop (λ '(cur, copied, d), ∃ b t1 acc, l ++ t' = b ++ t1 ∧ cur = zlen (pre ++ b) ∧
           copied = zlen acc ∧ d = over acc dst ∧ zlen acc ≤ max ∧ zlen acc ≤ zlen b ∧
           head_is encoded t1 = true ∧ decode (l ++ t') = prefixed acc (decode t1))
          (λ '(cur, _, _), Z.to_nat (len - cur))).
  - exists l, t', l. split_and!; [done..|lia|lia|done|]. by apply decode_plain.
  - lia.
  - intros [[cur copied] d] (b & t1 & acc & Hb & -> & -> & -> & Hacc & Hshort & Hh1 & Hd1).
    replace ((pre ++ l) ++ t' ++ post) with ((pre ++ b) ++ t1 ++ post).
    2:{ rewrite <-!app_assoc. f_equal. rewrite !app_assoc. by rewrite Hb. }
    assert (len = zlen ((pre ++ b) ++ t1)) as Hlen1 by by rewrite Hlen, <-!app_assoc, Hb.
    eapply wp_mono; [apply decode_step_ok; [done..|lia]|].
    intros [[[cur copied] d]|[[[cur copied]|] d]].
    + intros (a & t2 & k & -> & Hk & Hd2 & Hh2 & Hfit & -> & -> & ->). rewrite <-app_assoc in *.
      pose proof (zlen_nonneg t2).
      rewrite Hlen1, !zlen_app. split; [|lia]. exists (b ++ a), t2, (acc ++ k).
      rewrite !zlen_app in *. rewrite <-app_assoc. split_and!; [done..|lia|lia|done|].
      by rewrite Hd1, Hd2, prefixed_app.
    + intros (a & t2 & k & -> & Hd2 & Hfit & -> & -> & ->). cbn [mbind outcome_bind wp].
      split_and!; [apply zlen_over; lia|by apply over_drop|]. simpl.
      exists (b ++ a), t2, (acc ++ k). rewrite <-!app_assoc in *. split_and!; [done..| |].
      * apply rd_range_over.
      * left. by rewrite Hd1, Hd2.
    + intros [Hfail (acc' & Hfit & ->)]. split_and!; [apply zlen_over; lia|by apply over_drop|].
      simpl. rewrite Hd1, Hb, zlen_app. destruct Hfail as [->|]; [by left|right; lia].
Qed.

Lemma skip_one_ok src len cur (Q : option Z → Prop) :
  wp (decode_one src len cur) (λ r, Q (snd <$> r)) → wp (skip_one src len cur) Q.
Proof.
  unfold decode_one, skip_one. destruct (rd src cur) as [c|]; [|done]. cbn [mbind outcome_bind].
  destruct (c =? c_plus); [done|]. destruct (hex_pair src len cur) as [[[u v]|]|]; [|done..].
  cbn [mbind outcome_bind].
  by destruct ((0 <=? u) && (u <? 16)), ((0 <=? v) && (v <? 16)).
Qed.

Lemma skip_percent_encoded_ok pre t post len :
  len = zlen (pre ++ t) →
  wp (skip_percent_encoded_substr (pre ++ t ++ post) len (zlen pre)) (λ r,
    match r with
    | None => decode t = None
    | Some cur => ∃ a t' l, t = a ++ t' ∧ cur = zlen (pre ++ a) ∧ decode t = Some (l, t')
    end).
Proof.
  intros Hlen. unfold skip_percent_encoded_substr.
  destruct (skip_plain_ok pre t post len Hlen) as (l & t' & Ht & Hl & Hno & Hskip).
  apply wp_bind. rewrite Hskip. cbn [wp].
  apply (wp_loop (λ cur, ∃ b t1 acc, t = b ++ t1 ∧ cur = zlen (pre ++ b) ∧
           head_is plain t1 = false ∧ decode t = prefixed acc (decode t1))
          (λ cur, Z.to_nat (len - cur))); [|lia|].
  { exists l, t', l. split_and!; [done..|]. rewrite Ht. by apply decode_plain. }
  intros cur (b & t1 & acc & -> & -> & Hno1 & Hd1).
  replace (pre ++ (b ++ t1) ++ post) with ((pre ++ b) ++ t1 ++ post) by by rewrite <-!app_assoc.
  rewrite app_assoc in Hlen. unfold at_encoded. apply wp_bind.
  rewrite (peek_ok (λ c, (c =? c_plus) || (c =? c_percent))) by done. cbn [wp].
  change (head_is _ t1) with (head_is encoded t1). destruct (head_is encoded t1) eqn:Hh; cbn [negb].
  2:{ exists b, t1, acc. split_and!; [done..|]. rewrite Hd1, (decode_stop t1 Hno1 Hh). simpl. by rewrite app_nil_r. }
  apply wp_bind, skip_one_ok. eapply wp_mono; [by apply decode_one_ok|].
  intros [[byte cur]|]; cbn [fmap option_fmap option_map snd]; [|by intros Hd; rewrite Hd1, Hd].
  intros (a & t2 & -> & Ha & -> & Hd2).
  replace ((pre ++ b) ++ (a ++ t2) ++ post) with (((pre ++ b) ++ a) ++ t2 ++ post) by by rewrite <-!app_assoc.
  rewrite app_assoc in Hlen.
  destruct (skip_plain_ok ((pre ++ b) ++ a) t2 post len Hlen) as (k & t3 & -> & Hk & Hno3 & Hskip3).
  apply wp_bind. rewrite Hskip3. cbn [wp continue].
  pose proof (zlen_nonneg k). pose proof (zlen_nonneg t3).
  split; [|rewrite Hlen, !zlen_app; lia].
  exists (b ++ a ++ k), t3, (acc ++ byte :: k). rewrite <-!app_assoc. split_and!; [done..|].
  by rewrite Hd1, Hd2, (decode_plain k t3 Hk), !prefixed_app, <-app_assoc.
Qed.

(** ** The search *)

(** The buffer has its size, and nothing from [max] on was written. *)
Definition kept (max : Z) (dst dst' : list Z) : Prop :=
  zlen dst' = zlen dst ∧ drop (Z.to_nat max) dst' = drop (Z.to_nat max) dst.

#[global] Instance kept_preorder max : PreOrder (kept max).
Proof. split; [by split|]. intros d1 d2 d3 [H1 H2] [H3 H4]. split; congruence. Qed.

(** Where the search stands: at the text [t], or behind the end. *)
Definition stands (pre t : list Z) (cur : Z) : Prop :=
  cur = zlen pre ∨ t = [] ∧ zlen (pre ++ t) < cur.

Lemma kept_parsed pre t dst max r : parsed pre t dst max r → kept max dst r.2.
Proof. by intros (? & ? & _). Qed.

Lemma stands_next pre a r len :
  len = zlen (pre ++ a ++ r) → stands (pre ++ a ++ take 1 r) (tail r) (zlen (pre ++ a) + 1).
Proof.
  intros ->. destruct r as [|c r]; simpl.
  - right. rewrite !app_nil_r. split; [done|lia].
  - left. rewrite !zlen_app. change (zlen (c :: take 0 r)) with 1. lia.
Qed.

Lemma take_1_tail {A} (r : list A) : take 1 r ++ tail r = r.
Proof. by destruct r. Qed.

(** What follows an equal sign stands in the text, one character on. *)
Lemma stands_value pre t1 post len v :
  len = zlen (pre ++ t1) → t1 = c_equal :: v →
  pre ++ t1 ++ post = (pre ++ [c_equal]) ++ v ++ post ∧
  len = zlen ((pre ++ [c_equal]) ++ v) ∧ zlen pre + 1 = zlen (pre ++ [c_equal]).
Proof. intros -> ->. rewrite <-!app_assoc. split_and!; [done..|]. by rewrite zlen_app. Qed.

Lemma head_is_equal t1 : head_is (λ c, c =? c_equal) t1 = true → ∃ v, t1 = c_equal :: v.
Proof. destruct t1 as [|c v]; [done|]. simpl. intros ->%Z.eqb_eq. by exists v. Qed.

(** Skipping the value of a parameter that was not asked for. *)
Definition skipped (t1 : list Z) : option (list Z) :=
  if head_is (λ c, c =? c_equal) t1 then snd <$> decode (tail t1) else Some t1.

Lemma skip_value_ok pre t1 post len :
  len = zlen (pre ++ t1) →
  wp (if head_is (λ c, c =? c_equal) t1 then skip_percent_encoded_substr (pre ++ t1 ++ post) len (zlen pre + 1)
      else Ret (Some (zlen pre)))
    (λ r, match r with
    | None => skipped t1 = None
    | Some cur => ∃ b r, t1 = b ++ r ∧ cur = zlen (pre ++ b) ∧ skipped t1 = Some r
    end).
Proof.
  intros Hlen. unfold skipped. destruct (head_is (λ c, c =? c_equal) t1) eqn:He.
  2:{ simpl. exists [], t1. by rewrite app_nil_r. }
  destruct (head_is_equal _ He) as [v Hv]. destruct (stands_value _ _ post _ _ Hlen Hv) as (-> & Hlenv & ->).
  eapply wp_mono; [by apply skip_percent_encoded_ok|].
  intros [cur|]; rewrite Hv; simpl; [|by intros ->].
  intros (b & r & k & -> & -> & ->). exists (c_equal :: b), r. by rewrite <-!app_assoc.
Qed.

Lemma param_step_ok pre t post len key max dst :
  len = zlen (pre ++ t) → t ≠ [] → 0 ≤ max ≤ zlen dst →
  wp (param_step (pre ++ t ++ post) len key max (zlen pre, dst)) (λ r,
    match r with
    | inl (cur, dst') => kept max dst dst' ∧ zlen pre < cur ∧
        ∃ a t', t = a ++ t' ∧ stands (pre ++ a) t' cur ∧ (zlen t ≤ max → query_step key t = inl t')
    | inr (r, dst') => kept max dst dst' ∧
        ∃ v, answer r = Ret v ∧ (zlen t ≤ max → query_step key t = inr v)
    end).
Proof.
  intros Hlen Hne Hmax. unfold param_step.
  assert (zlen pre < len) as Hlt.
  { rewrite Hlen, zlen_app. destruct t as [|c t]; [done|]. rewrite zlen_cons. pose proof (zlen_nonneg t). lia. }
  destruct (Z.ltb_spec (zlen pre) len); [|lia]. cbn [negb]. apply wp_bind.
  eapply wp_mono; [by apply parse_percent_encoded_ok|]. intros [r d] Hr.
  pose proof (kept_parsed _ _ _ _ _ Hr) as Hkept. destruct Hr as (Hz & _ & Hr). simpl in *.
  unfold query_step. destruct r as [[cur' out]|].
  2:{ split; [done|]. exists None. split; [done|]. intros Hroom. destruct Hr as [->|]; [done|lia]. }
  destruct Hr as (a & t1 & l & -> & -> & Hout & Hd). rewrite app_assoc in Hlen.
  replace (pre ++ (a ++ t1) ++ post) with ((pre ++ a) ++ t1 ++ post) by by rewrite <-!app_assoc.
  rewrite (peek_ok (λ c, negb (is_print c))) by done. cbn [mbind outcome_bind].
  destruct (head_is (λ c, negb (is_print c)) t1) eqn:Hbad.
  { split; [done|]. exists None. split; [done|]. intros ?. destruct Hd as [->|]; [|lia]. by rewrite Hbad. }
  rewrite (comp_is_ok _ _ _ Hout). cbn [mbind outcome_bind].
  unfold is_at. rewrite (peek_ok (λ x, x =? c_equal)) by done. cbn [mbind outcome_bind].
  case_bool_decide as Hkey.
  - destruct (head_is (λ c, c =? c_equal) t1) eqn:He.
    + destruct (head_is_equal _ He) as [v Hv].
      destruct (stands_value _ _ post _ _ Hlen Hv) as (Hsrc & Hlenv & Hpos).
      rewrite Hsrc, Hpos. cbn [wp]. apply wp_bind.
      eapply wp_mono; [apply parse_percent_encoded_ok; [done|lia]|].
      intros [r2 d2] Hr2. pose proof (kept_parsed _ _ _ _ _ Hr2) as Hkept2.
      destruct Hr2 as (_ & _ & Hr2). simpl in *. split; [by etrans|].
      assert (zlen v ≤ zlen (a ++ t1)) as Hvt.
      { rewrite Hv, zlen_app, zlen_cons. pose proof (zlen_nonneg a). lia. }
      destruct r2 as [[cur2 out2]|].
      * destruct Hr2 as (b & t2 & l2 & -> & -> & Hout2 & Hd2). exists (Some l2). simpl. rewrite Hout2.
        split; [done|]. intros Hroom. destruct Hd as [->|]; [|lia]. rewrite Hbad, He.
        rewrite bool_decide_true, Hv by done. simpl. destruct Hd2 as [->|]; [done|lia].
      * exists None. split; [done|]. intros Hroom. destruct Hd as [->|]; [|lia]. rewrite Hbad, He.
        rewrite bool_decide_true, Hv by done. simpl. destruct Hr2 as [->|]; [done|lia].
    + split; [done|]. exists (Some []). split; [done|]. intros ?. destruct Hd as [->|]; [|lia].
      by rewrite Hbad, He, bool_decide_true.
  - apply wp_bind. eapply wp_mono; [by apply skip_value_ok|]. unfold skipped.
    intros [cur|]; cbn [negb].
    2:{ intros Hnone. split; [done|]. exists None. split; [done|]. intros Hroom.
        destruct Hd as [->|]; [|lia]. by rewrite Hbad, bool_decide_false, Hnone. }
    intros (b & r & Hb & -> & Hrest). rewrite <- (app_assoc pre a b).
    replace ((pre ++ a) ++ t1 ++ post) with ((pre ++ a ++ b) ++ r ++ post) by by rewrite Hb, <-!app_assoc.
    rewrite (peek_ok (λ c, negb (c =? c_amp))) by by rewrite Hlen, Hb, <-!app_assoc.
    cbn [mbind outcome_bind]. destruct (head_is (λ c, negb (c =? c_amp)) r) eqn:Hamp.
    { split; [done|]. exists None. split; [done|]. intros Hroom.
      destruct Hd as [->|]; [|lia]. by rewrite Hbad, bool_decide_false, Hrest, Hamp. }
    simpl. split; [done|]. split; [rewrite !zlen_app; pose proof (zlen_nonneg a); pose proof (zlen_nonneg b); lia|].
    exists (a ++ b ++ take 1 r), (tail r). split_and!.
    + by rewrite Hb, <-!app_assoc, take_1_tail.
    + rewrite (app_assoc a b (take 1 r)). by eapply stands_next.
    + intros Hroom. destruct Hd as [->|]; [|lia]. by rewrite Hbad, bool_decide_false, Hrest, Hamp.
Qed.

Lemma get_query_string_param_ok src post key dst max :
  0 ≤ max ≤ zlen dst →
  wp (get_query_string_param (Some (src ++ post)) (zlen src) key dst max) (λ '(r, dst'),
    kept max dst dst' ∧ ∃ v, answer r = Ret v ∧ (zlen src ≤ max → v = find_param hex_to_num key src)).
Proof.
  intros Hmax. unfold get_query_string_param, is_at.
  pose proof (peek_ok (λ c, c =? c_question) [] src post (zlen src) eq_refl) as Hpeek.
  change (zlen (@nil Z)) with 0 in Hpeek. cbn [app] in Hpeek. cbv beta in Hpeek. rewrite Hpeek.
  cbn [mbind outcome_bind].
  set (t0 := if head_is (λ c, c =? c_question) src then tail src else src).
  assert (∃ pre, src = pre ++ t0 ∧ (if head_is (λ c, c =? c_question) src then 1 else 0) = zlen pre)
    as (pre & Hsrc & Hcur).
  { unfold t0. destruct src as [|c src]; [by exists []|]. simpl.
    destruct (c =? c_question); [by exists [c]|by exists []]. }
  assert (find_param hex_to_num key src = query (length t0) key t0) as Hfind by done. clearbody t0.
  apply (wp_loop (λ '(cur, d), kept max dst d ∧ ∃ pre t n, src = pre ++ t ∧ stands pre t cur ∧
           (length t ≤ n)%nat ∧ (zlen src ≤ max → query n key t = find_param hex_to_num key src))
          (λ '(cur, _), Z.to_nat (zlen src - cur))).
  - split; [done|]. exists pre, t0, (length t0). split_and!; [done| |done|done]. by left.
  - rewrite Hcur. pose proof (zlen_nonneg pre). unfold zlen in *. lia.
  - intros [cur d] (Hkept & pre' & t & n & Hsplit & Hst & Hn & Hq).
    destruct (decide (t = [])) as [->|Hne].
    { unfold param_step. destruct (Z.ltb_spec cur (zlen src)) as [|_].
      { destruct Hst as [->|[_ Hst]]; [|rewrite <-Hsplit in Hst; lia].
        rewrite Hsplit, app_nil_r in *. lia. }
      simpl. split; [done|]. exists None. split; [done|]. intros Hroom. rewrite <-Hq by done. by destruct n. }
    destruct Hst as [->|[? _]]; [|done]. destruct n as [|n]; [destruct t; simpl in *; [done|lia]|].
    rewrite Hsplit, <-app_assoc.
    assert (query (S n) key t = match query_step key t with inl t => query n key t | inr v => v end) as Hqs
      by by destruct t.
    eapply wp_mono; [apply param_step_ok; [done|done|destruct Hkept as [-> _]; lia]|].
    assert (zlen t ≤ zlen (pre' ++ t)) as Htlen by (rewrite zlen_app; pose proof (zlen_nonneg pre'); lia).
    rewrite <-Hsplit in *.
    intros [[cur' d']|[r d']].
    + intros (Hk & Hlt & a & t' & -> & Hst & Hstep). split.
      * split; [by etrans|]. exists (pre' ++ a), t', n. split_and!; [by rewrite Hsplit, app_assoc|done| |].
        -- destruct a as [|x a]; [|rewrite length_app in Hn; simpl in Hn; lia]. rewrite app_nil_r in Hst.
           destruct Hst as [->|[-> _]]; [lia|by destruct Hne].
        -- intros Hroom. rewrite <-Hq, Hqs, Hstep by lia. done.
      * rewrite Hsplit, zlen_app. destruct t' as [|x t'].
        -- destruct (a ++ []); [done|]. rewrite zlen_cons. pose proof (zlen_nonneg l). lia.
        -- rewrite zlen_app, zlen_cons. pose proof (zlen_nonneg t'). pose proof (zlen_nonneg a). lia.
    + intros (Hk & v & Hv & Hstep). split; [by etrans|]. exists v. split; [done|].
      intros Hroom. by rewrite <-Hq, Hqs, Hstep by lia.
Qed.

(** ** Percent encoding *)

Definition hex_digit (n : Z) : Z := if n <? 10 then c_0 + n else c_A + (n - 10).
Definition hi_nibble (c : Z) : Z := Z.shiftr (u8 c) 4.
Definition lo_nibble (c : Z) : Z := Z.land (u8 c) 15.

Definition encode_char (c : Z) : list Z :=
  if c =? SP then [c_plus]
  else if plain c then [c]
  else [c_percent; hex_digit (hi_nibble c); hex_digit (lo_nibble c)].
Definition encode (l : list Z) : list Z := concat (encode_char <$> l).

(** The parameters as a browser writes them. *)
Fixpoint print_params (ps : list (list Z * list Z)) : list Z :=
  match ps with
  | [] => []
  | (k, v) :: ps =>
      encode k ++ c_equal :: encode v ++
        match ps with [] => [] | _ => c_amp :: print_params ps end
  end.

(** A character that needs no escape, or whose escape has decimal digits. *)
Definition readable (c : Z) : bool :=
  (-128 <=? c) && (c <? 128) &&
  ((c =? SP) || plain c || (hi_nibble c <? 10) && (lo_nibble c <? 10)).

Lemma byte_of_nibbles c : is_char c → byte_of (hi_nibble c) (lo_nibble c) = c.
Proof.
  unfold is_char, byte_of, hi_nibble, lo_nibble. intros Hc.
  assert (0 ≤ u8 c < 2 ^ 8) as Hu by by apply Z.mod_pos_bound.
  assert (u8 (Z.lor (Z.shiftl (Z.shiftr (u8 c) 4) 4) (Z.land (u8 c) 15)) = u8 c) as ->.
  { apply Z.eqb_eq.
    by apply (forallb_below 256 (λ x, u8 (Z.lor (Z.shiftl (Z.shiftr x 4) 4) (Z.land x 15)) =? x)). }
  unfold s8, u8. rewrite Z.add_mod_idemp_l by done. rewrite Z.mod_small by lia. lia.
Qed.

Lemma hex_digit_read n : 0 ≤ n < 10 → hex_to_num (hex_digit n) = Some n.
Proof.
  intros Hn. unfold hex_digit, hex_to_num. destruct (Z.ltb_spec n 10); [|lia].
  repeat case_match; try lia. f_equal. lia.
Qed.

Lemma decode_encode l r :
  Forall readable l → head_is plain r = false → head_is encoded r = false →
  decode (encode l ++ r) = Some (l, r).
Proof.
  intros Hl Hp He. induction Hl as [|c l Hc _ IH]; [by apply decode_stop|].
  apply andb_prop_elim in Hc as [Hchar%Is_true_true Hc%Is_true_true].
  unfold encode. rewrite fmap_cons. cbn [concat]. fold (encode l). rewrite <-app_assoc.
  unfold encode_char at 1. destruct (Z.eqb_spec c SP) as [->|Hsp]; simpl in Hc.
  { simpl. by rewrite IH. }
  destruct (plain c) eqn:Hplain.
  { rewrite (decode_plain [c]), IH; [done|]. by repeat constructor. }
  assert (is_char c) by (unfold is_char; lia).
  assert (0 ≤ hi_nibble c) by (apply Z.shiftr_nonneg, Z.mod_pos_bound; done).
  assert (0 ≤ lo_nibble c) by (apply Z.land_nonneg; by right).
  simpl. rewrite !hex_digit_read, IH by lia. simpl. by rewrite byte_of_nibbles.
Qed.

Lemma query_print n key ps :
  Forall (λ p, Forall readable p.1 ∧ Forall readable p.2) ps → (length ps ≤ n)%nat →
  query n key (print_params ps) = first_value key ps.
Proof.
  intros Hps. revert n. induction Hps as [|[k v] ps [Hk Hv] _ IH]; intros n Hn; [by destruct n|].
  destruct n as [|n]; simpl in Hn; [lia|]. cbn [print_params]. set (rest := match ps with [] => _ | _ => _ end).
  assert (head_is plain rest = false ∧ head_is encoded rest = false ∧
    head_is (λ c, negb (c =? c_amp)) rest = false ∧ tail rest = print_params ps) as (H1 & H2 & H3 & H4).
  { unfold rest. by destruct ps. }
  assert (query_step key (encode k ++ c_equal :: encode v ++ rest) =
    if bool_decide (k = key) then inr (Some v) else inl (print_params ps)) as Hstep.
  { unfold query_step. rewrite decode_encode by done. simpl.
    rewrite decode_encode by done. simpl. by rewrite H3, H4. }
  assert (query (S n) key (encode k ++ c_equal :: encode v ++ rest) =
    match query_step key (encode k ++ c_equal :: encode v ++ rest) with
    | inl t => query n key t | inr v => v end) as -> by by destruct (encode k).
  rewrite Hstep. unfold first_value. simpl. case_bool_decide; [done|]. apply IH. lia.
Qed.

Lemma print_params_length ps : (length ps ≤ length (print_params ps))%nat.
Proof.
  induction ps as [|[k v] ps IH]; [done|]. cbn [print_params].
  rewrite length_app. cbn [length]. rewrite length_app. destruct ps; simpl in *; lia.
Qed.

(** ** The digits *)

Lemma hex_to_num_digit c : hex_to_num c = read_digit c.
Proof.
  unfold hex_to_num, read_digit, rfc_digit. repeat case_match; try lia; try done; cbn [fmap option_fmap option_map]; f_equal;
    first [apply (Z.mod_unique_pos _ _ 1); lia|apply (Z.mod_unique_pos _ _ 0); lia].
Qed.

Section digits.
Context (f g : Z → option Z).

Definition same_escapes (t : list Z) : Prop :=
  ∀ a x y b, t = a ++ c_percent :: x :: y :: b → f x = g x ∧ f y = g y.

Lemma same_escapes_suffix a t : same_escapes (a ++ t) → same_escapes t.
Proof. intros H b x y c ->. apply (H (a ++ b) x y c). by rewrite <-app_assoc. Qed.

Lemma decode_same t : same_escapes t → decode_with f t = decode_with g t.
Proof.
  induction t as [t IH] using (induction_ltof1 _ length). unfold ltof in IH. intros H.
  destruct t as [|c t1]; [done|]. cbn [decode_with].
  assert (decode_with f t1 = decode_with g t1) as ->.
  { apply IH; [simpl; lia|]. by apply (same_escapes_suffix [c]). }
  destruct (c =? c_plus); [done|]. destruct (Z.eqb_spec c c_percent) as [->|]; [|done].
  destruct t1 as [|x [|y t2]]; [done..|]. destruct (H [] x y t2 eq_refl) as [-> ->].
  destruct (g x); [|done]. destruct (g y); [|done]. f_equal. apply IH; [simpl; lia|].
  by apply (same_escapes_suffix [c_percent; x; y]).
Qed.

Lemma decode_with_rest t l r : decode_with g t = Some (l, r) → ∃ a, t = a ++ r.
Proof.
  revert l r. induction t as [t IH] using (induction_ltof1 _ length). unfold ltof in IH. intros l r Hd.
  assert (∀ b a t', t = a ++ t' → a ≠ [] → prefixed b (decode_with g t') = Some (l, r) → ∃ a, t = a ++ r) as Hstep.
  { intros b a t' -> Ha H1. destruct (decode_with g t') as [[l' r']|] eqn:Hl; [|done]. injection H1 as <- <-.
    destruct (IH t') with (1 := ltac:(rewrite length_app; destruct a; [done|simpl; lia]) : (length t' < length (a ++ t'))%nat) (2 := Hl)
      as [a' ->]. exists (a ++ a'). by rewrite app_assoc. }
  destruct t as [|c t1]; cbn [decode_with] in Hd; [injection Hd as <- <-; by exists []|].
  destruct (c =? c_plus); [by apply (Hstep [SP] [c] t1)|]. destruct (c =? c_percent).
  - destruct t1 as [|x [|y t2]]; [done..|]. destruct (g x) as [u|]; [|done]. destruct (g y) as [v|]; [|done].
    by apply (Hstep [byte_of u v] [c; x; y] t2).
  - destruct (plain c); [by apply (Hstep [c] [c] t1)|]. injection Hd as <- <-. by exists [].
Qed.

Lemma tail_suffix (t : list Z) : ∃ a, t = a ++ tail t.
Proof. destruct t as [|c t]; [by exists []|by exists [c]]. Qed.

Lemma query_same n key t : same_escapes t → query_with f n key t = query_with g n key t.
Proof.
  revert t. induction n as [|n IH]; intros t H; [done|]. destruct t as [|c t1]; [done|]. set (t := c :: t1) in *.
  assert (query_step_with f key t = query_step_with g key t ∧
    ∀ t', query_step_with g key t = inl t' → same_escapes t') as [Hstep Hrest].
  { unfold query_step_with. rewrite (decode_same t H). destruct (decode_with g t) as [[k r]|] eqn:Hd; [|done].
    destruct (decode_with_rest _ _ _ Hd) as [a Ha]. rewrite Ha in H. apply same_escapes_suffix in H.
    destruct (tail_suffix r) as [b Hb]. pose proof H as Hv. rewrite Hb in Hv. apply same_escapes_suffix in Hv.
    rewrite (decode_same (tail r) Hv). destruct (head_is _ r); [done|]. split; [done|]. intros t'.
    case_bool_decide; [done|]. destruct (head_is (λ c, c =? c_equal) r).
    - destruct (decode_with g (tail r)) as [[v r2]|] eqn:Hd2; [|done]. cbn [fmap option_fmap option_map snd].
      destruct (head_is _ r2); [done|]. intros [= <-]. destruct (decode_with_rest _ _ _ Hd2) as [a2 Ha2].
      rewrite Ha2 in Hv. apply same_escapes_suffix in Hv. destruct (tail_suffix r2) as [b2 Hb2]. rewrite Hb2 in Hv.
      by apply same_escapes_suffix in Hv.
    - destruct (head_is _ r); [done|]. by intros [= <-]. }
  cbn [query_with]. rewrite Hstep. change (c :: t1) with t. destruct (query_step_with g key t) as [t'|v] eqn:Hq; [|done].
  by apply IH, Hrest.
Qed.

Lemma find_param_same key src : same_escapes src → find_param f key src = find_param g key src.
Proof.
  intros H. unfold find_param. apply query_same. destruct (head_is _ src); [|done].
  destruct (tail_suffix src) as [a Ha]. rewrite Ha in H. by apply same_escapes_suffix in H.
Qed.
End digits.

Lemma decimal_escapes_same src : decimal_escapes src → same_escapes read_digit rfc_digit src.
Proof.
  intros H a x y b Hsrc. pose proof (H a x y b Hsrc) as Hd.
  assert (∀ c, c = x ∨ c = y → read_digit c = rfc_digit c) as Hsame.
  { intros c Hc. unfold read_digit. destruct (rfc_digit c) as [d|] eqn:Hr; [|done].
    cbn [fmap option_fmap option_map]. f_equal. pose proof (Hd c d Hc Hr). apply Z.mod_small. split; [|done].
    unfold rfc_digit in Hr. repeat case_match; try done; injection Hr as <-; lia. }
  split; apply Hsame; auto.
Qed.

(** C24.  For every query string and key the search ends with no access out of
    bounds, and writes nothing from [max] on; its answer can be read.  With room
    for the query string it is what the decoding specification finds for the
    key when a letter among the digits of an escape counts for its hexadecimal
    value less ten (a deviation, see [hex_letters_misread]); so in a query
    string whose escapes have decimal digits only it is the value that the
    percent decoding of RFC 3986 finds. *)
Theorem get_query_string_param_correct src post key dst max :
  0 ≤ max ≤ zlen dst →
  wp (get_query_string_param (Some (src ++ post)) (zlen src) key dst max) (λ '(r, dst'),
    kept max dst dst' ∧ ∃ v, answer r = Ret v ∧ (zlen src ≤ max → v = find_param read_digit key src ∧
      (decimal_escapes src → v = find_param rfc_digit key src))).
Proof.
  intros Hmax. eapply wp_mono; [by apply get_query_string_param_ok|]. intros [r d] (Hk & v & Hr & Hv).
  split; [done|]. exists v. split; [done|]. intros Hroom. rewrite (Hv Hroom).
  assert (find_param hex_to_num key src = find_param read_digit key src) as ->.
  { apply find_param_same. intros a x y b _. split; apply hex_to_num_digit. }
  split; [done|]. intros Hdec. by apply find_param_same, decimal_escapes_same.
Qed.


(** ** Deviations *)

(** A hexadecimal letter counts from 0: the escape of the slash is read as a
    percent sign. *)
Lemma hex_letters_misread :
  get_query_string_param (Some (chars "?p=%2F")) 6 (chars "p") (replicate 8 0) 8 =
  (λ d, (Some (mkSlice d 0 1), d)) <$> wr (replicate 8 0) 0 c_percent.
Proof. vm_compute. reflexivity. Qed.

(** A buffer that is too small is not reported: the undecoded front of the
    name is taken for the name, and the answer is an empty value. *)
Lemma small_buffer_matches :
  get_query_string_param (Some (chars "ab%31=x")) 7 (chars "ab") [0] 1 =
  Ret (Some (mkSlice [0] 0 0), [0]).
Proof. vm_compute. reflexivity. Qed.

(** ** Witnesses *)

Lemma get_query_string_param_correct_witness :
  0 ≤ 16 ≤ zlen (replicate 16 0) ∧
  wp (get_query_string_param (Some (chars "a=1&b=x+y%21" ++ [0])) 12 (chars "b") (replicate 16 0) 16)
    (λ '(r, dst'), kept 16 (replicate 16 0) dst' ∧
       ∃ v, answer r = Ret v ∧ (12 ≤ 16 → v = Some (chars "x y!") ∧
         (decimal_escapes (chars "a=1&b=x+y%21") → v = Some (chars "x y!")))).
Proof.
  split; [by vm_compute|].
  apply (get_query_string_param_correct (chars "a=1&b=x+y%21") [0] (chars "b") (replicate 16 0) 16).
  by vm_compute.
Defined.

