(* ===== verification/Cookie.v ===== *)
(** The cookie lookup of [src/http/cookie.c]. *)
From S2P Require Import Prelude HttpParse HttpPath.

(** ** The code *)

Definition is_cookie_name (c : Z) : bool :=
  ((c_a <=? c) && (c <=? c_z)) || ((c_A <=? c) && (c <=? c_Z)) || ((c_0 <=? c) && (c <=? c_9)) ||
  (c =? c_underscore) || (c =? c_minus).

Definition is_cookie_value (c : Z) : bool :=
  ((c_a <=? c) && (c <=? c_z)) || ((c_A <=? c) && (c <=? c_Z)) || ((c_0 <=? c) && (c <=? c_9)) ||
  (c =? c_underscore) || (c =? c_minus).

Definition is_space (c : Z) : bool := (c =? SP) || (c =? TAB) || (c =? CR) || (c =? LF).

(** [start = cur; do cur++; while (cur < len && p(src[cur]));], guarded by
    [p(src[cur])]: the slice and the cursor behind it. *)
Definition scan_word (p : Z → bool) (value : slice) (cur : Z) : outcome (option (slice * Z)) :=
  c ← at_ value cur;
  if negb (p c) then Ret None
  else
    let start := cur in
    cur ← skip_in p value (cur + 1);
    Ret (Some (mkSlice (base value) (off value + start) (cur - start), cur)).

(** One round of the loop over the cookies. *)
Definition cookie_step (value : slice) (name : list Z) (cur : Z) : outcome (Z + option slice) :=
  let len := size value in
  if negb (cur <? len) then break None
  else
    cur ← skip_in is_space value cur;
    if cur =? len then break None
    else
      w ← scan_word is_cookie_name value cur;
      match w with
      | None => break None
      | Some (cookie_name, cur) =>
          cur ← skip_in is_space value cur;
          noeq ← (if cur =? len then Ret true else c ← at_ value cur; Ret (negb (c =? c_equal)));
          if noeq : bool then break None
          else
            cur ← skip_in is_space value (cur + 1);
            w ← scan_word is_cookie_value value cur;
            match w with
            | None => break None
            | Some (cookie_value, cur) =>
                cur ← skip_in is_space value cur;
                cur ← (if cur <? len then
                         c ← at_ value cur;
                         if negb (c =? c_semicolon) then Ret None else Ret (Some (cur + 1))
                       else Ret (Some cur));
                match cur with
                | None => break None
                | Some cur =>
                    found ← comp_is cookie_name name;
                    if found : bool then break (Some cookie_value) else continue cur
                end
            end
      end.

(** [name] is the text of a C string; the value [*out] if the answer is true. *)
Definition get_cookie (r : request) (name : list Z) : outcome (option slice) :=
  value ← find_header r name;
  match value with
  | None => Ret None
  | Some value => loop (S (Z.to_nat (size value))) (cookie_step value name) 0
  end.

(** ** The lookup as a function on the text of the field *)

(** A word of accepted characters, and what follows it. *)
Definition word (p : Z → bool) (t : list Z) : option (list Z * list Z) :=
  match take_while p t with [] => None | w => Some (w, drop_while p t) end.

(** One cookie with the spaces around its parts and its semicolon: its name and
    value, and the text behind. *)
Definition one_cookie (t : list Z) : option (list Z * list Z * list Z) :=
  '(n, t) ← word is_cookie_name (drop_while is_space t);
  match drop_while is_space t with
  | c :: t =>
      if c =? c_equal then
        '(v, t) ← word is_cookie_value (drop_while is_space t);
        match drop_while is_space t with
        | [] => Some (n, v, [])
        | c :: t => if c =? c_semicolon then Some (n, v, t) else None
        end
      else None
  | [] => None
  end.

(** The value of the first cookie called [name]; the search ends at the first
    text that is no cookie.  [n] bounds the number of cookies. *)
Fixpoint cookie (n : nat) (name t : list Z) : option (list Z) :=
  match n with
  | O => None
  | S n =>
      '(k, v, t) ← one_cookie t;
      if bool_decide (k = name) then Some v else cookie n name t
  end.

(** ** The scans *)

(** The slice goes on with a character that ends a value, as a field in a
    request does with its carriage return. *)
Definition field (s : slice) (t : list Z) : Prop :=
  text s = Ret t ∧ ∃ c, at_ s (size s) = Ret c ∧ is_cookie_value c = false.

Lemma scan_word_ok p s pre t :
  text s = Ret (pre ++ t) → (t = [] → ∃ c, at_ s (size s) = Ret c ∧ p c = false) →
  match word p t with
  | None => scan_word p s (zlen pre) = Ret None
  | Some (w, t') => t = w ++ t' ∧ w ≠ [] ∧ ∃ out, text out = Ret w ∧
      scan_word p s (zlen pre) = Ret (Some (out, zlen (pre ++ w)))
  end.
Proof.
  intros Hs Hend. unfold word, scan_word. pose proof (text_size _ _ Hs) as Hsz. rewrite zlen_app in Hsz.
  destruct t as [|c t].
  { destruct Hend as (c & Hc & Hp); [done|]. change (zlen (@nil Z)) with 0 in Hsz.
    rewrite Z.add_0_r in Hsz. simpl.
    rewrite <-Hsz, Hc. simpl.
    by rewrite Hp. }
  rewrite zlen_cons in Hsz. pose proof (zlen_nonneg pre). pose proof (zlen_nonneg t).
  rewrite (text_at _ _ _ Hs), (rd_app_r pre), Z.sub_diag by lia. cbn [rd mbind outcome_bind].
  simpl. destruct (p c) eqn:Hc; simpl; [|done].
  split; [by rewrite take_drop_while|]. split; [done|].
  pose proof (skip_in_text p s (pre ++ [c]) t) as Hskip. rewrite <-app_assoc, zlen_app in Hskip.
  change (zlen [c]) with 1 in Hskip. rewrite Hskip by done. simpl. eexists. split.
  2:{ rewrite zlen_app, zlen_cons, Z.add_assoc. done. }
  unfold text in *. simpl. apply rd_range_inv in Hs as (a & b & -> & -> & Hn).
  pose proof (take_drop_while p t) as Ht. set (w := take_while p t) in *. clearbody w. rewrite <-Ht.
  replace (a ++ (pre ++ c :: w ++ drop_while p t) ++ b)
    with ((a ++ pre) ++ (c :: w) ++ drop_while p t ++ b) by by rewrite <-!app_assoc; simpl; rewrite <-!app_assoc.
  apply rd_range_app; [by rewrite zlen_app|rewrite zlen_cons; lia].
Qed.

Lemma skip_spaces s p pre t :
  text s = Ret (pre ++ t) →
  ∃ a, t = a ++ drop_while p t ∧ skip_in p s (zlen pre) = Ret (zlen (pre ++ a)).
Proof.
  intros Hs. exists (take_while p t). split; [by rewrite take_drop_while|].
  by rewrite (skip_in_text p s pre t Hs), zlen_app.
Qed.

(** The next character of the text, after a test for its end. *)
Lemma next_char s pre t :
  text s = Ret (pre ++ t) →
  (zlen pre =? size s) = bool_decide (t = []) ∧ (zlen pre <? size s) = bool_decide (t ≠ []) ∧
  ∀ c t', t = c :: t' → at_ s (zlen pre) = Ret c.
Proof.
  intros Hs. rewrite (text_size _ _ Hs), zlen_app. split; [|split].
  - case_bool_decide; subst; [change (zlen (@nil Z)) with 0; lia|].
    destruct t as [|c t]; [done|]. rewrite zlen_cons. pose proof (zlen_nonneg t). lia.
  - case_bool_decide as Hne; [destruct t as [|c t]; [done|]; rewrite zlen_cons; pose proof (zlen_nonneg t); lia|].
    destruct t; [change (zlen (@nil Z)) with 0; lia|done].
  - intros c t' ->. pose proof (zlen_nonneg pre). pose proof (zlen_nonneg t').
    rewrite (text_at _ _ _ Hs) by (rewrite (text_size _ _ Hs), zlen_app, zlen_cons; lia).
    by rewrite (rd_app_r pre), Z.sub_diag by lia.
Qed.

Lemma cookie_step_ok s pre t name :
  field s (pre ++ t) →
  match one_cookie t with
  | None => cookie_step s name (zlen pre) = Ret (inr None)
  | Some (k, v, t') => ∃ a out, t = a ++ t' ∧ a ≠ [] ∧ text out = Ret v ∧
      cookie_step s name (zlen pre) =
        Ret (if bool_decide (k = name) then inr (Some out) else inl (zlen (pre ++ a)))
  end.
Proof.
  intros [Hs (cend & Hend & Hcend)]. unfold cookie_step, one_cookie.
  destruct (next_char s pre t Hs) as (_ & -> & _).
  case_bool_decide as Hne; cbn [negb]; [|by subst t].
  destruct (skip_spaces s is_space pre t Hs) as (a1 & Ht1 & ->). cbn [mbind outcome_bind].
  set (t1 := drop_while is_space t) in *. clearbody t1. subst t. rewrite app_assoc in Hs.
  destruct (next_char s _ t1 Hs) as (-> & _ & _).
  case_bool_decide as Ht1; [by subst|].
  pose proof (scan_word_ok is_cookie_name s (pre ++ a1) t1 Hs) as Hw.
  destruct (word is_cookie_name t1) as [[n t2]|]; [|by rewrite Hw].
  destruct Hw as (-> & Hn & out1 & Hout1 & ->); [done|]. cbn [mbind outcome_bind option_bind].
  rewrite app_assoc in Hs.
  destruct (skip_spaces s is_space _ t2 Hs) as (a2 & Ht2 & ->). cbn [mbind outcome_bind].
  set (t3 := drop_while is_space t2) in *. clearbody t3. subst t2. rewrite app_assoc in Hs.
  destruct (next_char s _ t3 Hs) as (-> & _ & Hat).
  destruct t3 as [|c t3]; [done|]. rewrite bool_decide_false, (Hat c t3) by done.
  cbn [mbind outcome_bind]. destruct (Z.eqb_spec c c_equal) as [->|]; cbn [negb]; [|done].
  assert (text s = Ret (((((pre ++ a1) ++ n) ++ a2) ++ [c_equal]) ++ t3)) as Hs2
    by by rewrite <-app_assoc.
  replace (zlen (((pre ++ a1) ++ n) ++ a2) + 1) with (zlen ((((pre ++ a1) ++ n) ++ a2) ++ [c_equal]))
    by by rewrite (zlen_app _ [c_equal]).
  destruct (skip_spaces s is_space _ t3 Hs2) as (a3 & Ht3 & ->). cbn [mbind outcome_bind].
  set (t4 := drop_while is_space t3) in *. clearbody t4. subst t3. rewrite app_assoc in Hs2.
  pose proof (scan_word_ok is_cookie_value s _ t4 Hs2) as Hw.
  destruct (word is_cookie_value t4) as [[v t5]|]; [|rewrite Hw; [done|by exists cend]].
  destruct Hw as (-> & Hv & out2 & Hout2 & ->); [by intros _; exists cend|]. cbn [mbind outcome_bind option_bind].
  rewrite app_assoc in Hs2.
  destruct (skip_spaces s is_space _ t5 Hs2) as (a4 & Ht5 & ->). cbn [mbind outcome_bind].
  set (t6 := drop_while is_space t5) in *. clearbody t6. subst t5. rewrite app_assoc in Hs2.
  destruct (next_char s _ t6 Hs2) as (_ & -> & Hat2).
  destruct t6 as [|c t6].
  - rewrite bool_decide_false by (intros H; by apply H). cbn [mbind outcome_bind].
    rewrite (comp_is_ok _ _ _ Hout1). cbn [mbind outcome_bind].
    exists (a1 ++ n ++ a2 ++ [c_equal] ++ a3 ++ v ++ a4), out2.
    split_and!; [by rewrite <-!app_assoc| |done|].
    + by destruct a1, n.
    + rewrite !app_assoc. by case_bool_decide.
  - rewrite bool_decide_true by done. rewrite (Hat2 c t6) by done. cbn [mbind outcome_bind].
    destruct (Z.eqb_spec c c_semicolon) as [->|]; cbn [negb mbind outcome_bind]; [|done].
    rewrite (comp_is_ok _ _ _ Hout1). cbn [mbind outcome_bind].
    exists (a1 ++ n ++ a2 ++ [c_equal] ++ a3 ++ v ++ a4 ++ [c_semicolon]), out2.
    split_and!; [by rewrite <-!app_assoc| |done|].
    + by destruct a1, n.
    + rewrite !app_assoc, (zlen_app _ [c_semicolon]). by case_bool_decide.
Qed.

(** ** The lookup *)

Lemma get_cookie_ok r name s t :
  find_header r name = Ret (Some s) → field s t →
  wp (get_cookie r name) (λ out, answer out = Ret (cookie (length t) name t)).
Proof.
  intros Hfind Hs. unfold get_cookie. rewrite Hfind. cbn [mbind outcome_bind].
  pose proof (text_size _ _ (proj1 Hs)) as Hsz.
  apply (wp_loop (λ cur, ∃ pre t' n, t = pre ++ t' ∧ cur = zlen pre ∧ (length t' ≤ n)%nat ∧
           cookie n name t' = cookie (length t) name t)
          (λ cur, Z.to_nat (size s - cur))).
  - by exists [], t, (length t).
  - lia.
  - intros cur (pre & t' & n & -> & -> & Hn & Hc).
    pose proof (cookie_step_ok s pre t' name Hs) as Hstep. rewrite <-Hc.
    destruct n as [|n].
    { assert (t' = []) as -> by (destruct t'; simpl in Hn; [done|lia]). simpl in Hstep. by rewrite Hstep. }
    cbn [cookie]. destruct (one_cookie t') as [[[k v] t2]|] eqn:Hone; [|by rewrite Hstep].
    destruct Hstep as (a & out & -> & Ha & Hout & ->). cbn [mbind option_bind].
    case_bool_decide as Hk; cbn [wp]; [by simpl; rewrite Hout|]. split.
    + exists (pre ++ a), t2, n. split_and!; [by rewrite <-app_assoc|done| |done].
      rewrite length_app in Hn. destruct a; [done|]. simpl in Hn. lia.
    + rewrite Hsz, !zlen_app. destruct a as [|c a]; [done|]. rewrite zlen_cons.
      pose proof (zlen_nonneg a). pose proof (zlen_nonneg t2). lia.
Qed.

(** The field as a browser prints it. *)
Fixpoint print_cookies (cs : list (list Z * list Z)) : list Z :=
  match cs with
  | [] => []
  | (k, v) :: cs =>
      k ++ c_equal :: v ++ match cs with [] => [] | _ => c_semicolon :: SP :: print_cookies cs end
  end.

Definition cookie_word (p : Z → bool) (w : list Z) : Prop := w ≠ [] ∧ Forall p w.

Definition stops (p : Z → bool) (t : list Z) : Prop :=
  match t with [] => True | c :: _ => p c = false end.

Lemma take_while_stops (p : Z → bool) w t :
  Forall p w → stops p t → take_while p (w ++ t) = w ∧ drop_while p (w ++ t) = t.
Proof.
  intros Hw Ht. induction Hw as [|c w Hc _ [IH1 IH2]]; simpl.
  - destruct t as [|c t]; [done|]. simpl in *. by rewrite Ht.
  - apply Is_true_true in Hc. by rewrite Hc, IH1, IH2.
Qed.

Lemma word_stops (p : Z → bool) w t : cookie_word p w → stops p t → word p (w ++ t) = Some (w, t).
Proof.
  intros [Hne Hw] Ht. unfold word. destruct (take_while_stops p w t Hw Ht) as [-> ->].
  by destruct w.
Qed.

Lemma name_not_space c : is_cookie_name c → is_space c = false.
Proof. intros Hc%Is_true_true. unfold is_cookie_name, is_space in *. lia. Qed.
Lemma value_not_space c : is_cookie_value c → is_space c = false.
Proof. intros Hc%Is_true_true. unfold is_cookie_value, is_space in *. lia. Qed.

Lemma drop_spaces_word (p : Z → bool) w t :
  (∀ c, p c → is_space c = false) → cookie_word p w → drop_while is_space (w ++ t) = w ++ t.
Proof.
  intros Hp [Hne Hw]. destruct Hw as [|c w Hc _]; [done|]. simpl. by rewrite (Hp c Hc).
Qed.

Lemma cookie_print n name cs :
  Forall (λ p, cookie_word is_cookie_name p.1 ∧ cookie_word is_cookie_value p.2) cs →
  (length cs ≤ n)%nat →
  cookie n name (print_cookies cs) = first_value name cs ∧
  drop_while is_space (print_cookies cs) = print_cookies cs.
Proof.
  intros Hcs. revert n. induction Hcs as [|[k v] cs [Hk Hv] _ IH]; intros n Hn; [by destruct n|].
  simpl in Hk, Hv. split.
  2:{ cbn [print_cookies]. by rewrite (drop_spaces_word is_cookie_name) by (done || apply name_not_space). }
  destruct n as [|n]; simpl in Hn; [lia|].
  assert (one_cookie (print_cookies ((k, v) :: cs)) = Some (k, v, match cs with [] => [] | _ => SP :: print_cookies cs end))
    as Hone.
  { unfold one_cookie. cbn [print_cookies].
    rewrite (drop_spaces_word is_cookie_name) by (done || apply name_not_space).
    rewrite (word_stops _ k) by done. cbn [mbind option_bind]. simpl drop_while. cbv iota.
    rewrite (drop_spaces_word is_cookie_value) by (done || apply value_not_space).
    rewrite (word_stops _ v) by by destruct cs. by destruct cs. }
  cbn [cookie]. rewrite Hone. cbn [mbind option_bind]. unfold first_value. simpl.
  case_bool_decide; [done|]. destruct (IH n) as [IH1 IH2]; [lia|].
  change (snd <$> List.find (λ p, bool_decide (p.1 = name)) cs) with (first_value name cs).
  rewrite <-IH1. destruct cs as [|kv cs]; [done|]. destruct n as [|n]; [simpl in Hn; lia|].
  cbn [cookie]. unfold one_cookie. set (t := print_cookies (kv :: cs)) in *.
  change (drop_while is_space (SP :: t)) with (drop_while is_space t). done.
Qed.

(** When a field called [name] is there and ends with a character that is
    no cookie value, the lookup ends with no access out of bounds, and answers
    with the value of the first cookie [name] of the field's text. *)
Theorem get_cookie_correct r name s t :
  find_header r name = Ret (Some s) → field s t →
  wp (get_cookie r name) (λ out, answer out = Ret (cookie (length t) name t)).
Proof. apply get_cookie_ok. Qed.

(** Of a field printed from names and values the lookup finds the value
    of the name. *)
Theorem get_cookie_roundtrip r name s cs :
  find_header r name = Ret (Some s) → field s (print_cookies cs) →
  Forall (λ p, cookie_word is_cookie_name p.1 ∧ cookie_word is_cookie_value p.2) cs →
  wp (get_cookie r name) (λ out, answer out = Ret (first_value name cs)).
Proof.
  intros Hfind Hs Hcs. eapply wp_mono; [by eapply get_cookie_ok|]. intros out ->. f_equal.
  apply cookie_print; [done|]. clear. induction cs as [|[k v] cs IH]; [done|].
  cbn [print_cookies]. rewrite length_app. cbn [length]. rewrite length_app.
  destruct cs; simpl in *; lia.
Qed.

(** ** Deviations *)

Definition cookie_request (h : string) (v : string) : request :=
  let src := chars h ++ [c_colon] ++ chars v ++ [CR; LF] in
  mkRequest M_GET (mkSlice [] 0 0) 1 1
    [(mkSlice src 0 (zlen (chars h)), mkSlice src (zlen (chars h) + 1) (zlen (chars v)))].

(** The field that is searched is the one with the cookie's name, not the
    field Cookie. *)
Lemma cookie_field_not_searched :
  get_cookie (cookie_request "Cookie" "id=7") (chars "id") = Ret None ∧
  (λ out, answer out) <$> get_cookie (cookie_request "id" "id=7") (chars "id") =
    Ret (Ret (Some (chars "7"))).
Proof. vm_compute. split; reflexivity. Qed.

(** A field that ends behind the equal sign is read one character too far. *)
Lemma cookie_read_past_end :
  get_cookie (mkRequest M_GET (mkSlice [] 0 0) 1 1
    [(mkSlice (chars "a") 0 1, mkSlice (chars "a=") 0 2)]) (chars "a") = Fail OutOfBounds.
Proof. vm_compute. reflexivity. Qed.

(** ** Witnesses *)

Lemma get_cookie_correct_witness :
  wp (get_cookie (cookie_request "id" "x=1 ; id = 7") (chars "id"))
    (λ out, answer out = Ret (Some (chars "7"))).
Proof.
  eapply (get_cookie_correct (cookie_request "id" "x=1 ; id = 7") (chars "id") _ (chars "x=1 ; id = 7")).
  - vm_compute. reflexivity.
  - split; [reflexivity|]. exists CR. split; reflexivity.
Defined.

Lemma get_cookie_roundtrip_witness :
  wp (get_cookie (cookie_request "id" "x=1; id=7") (chars "id"))
    (λ out, answer out = Ret (Some (chars "7"))).
Proof.
  eapply (get_cookie_roundtrip (cookie_request "id" "x=1; id=7") (chars "id") _
           [(chars "x", chars "1"); (chars "id", chars "7")]).
  - vm_compute. reflexivity.
  - split; [reflexivity|]. exists CR. split; reflexivity.
  - repeat constructor; discriminate.
Defined.
