(* ===== verification/BuddyTree.v ===== *)
(** How a buddy allocator divides its pool: each page is a tree whose leaves are
    the blocks it is split into.  The leaves in the order of their addresses are
    the flat view, in which blocks abut; the tree says which blocks are buddies. *)
From S2P Require Import Prelude.

(** [Limbo]: a block that is neither on a free list nor marked as allocated, as
    there is one in the middle of an operation. *)
Inductive label : Set := Free | Used | Limbo.
#[global] Instance label_eq_dec : EqDecision label.
Proof. solve_decision. Defined.

Inductive tree : Set :=
  | Leaf (x : label)
  | Node (l r : tree).

(** A block: its address, its level, its state.  Level 0 is the smallest size,
    and level 8 a page. *)
Definition block : Set := Z * nat * label.

Definition bs (k : nat) : Z := 2 ^ (Z.of_nat k + 4).
Definition TOP : nat := 8.

Lemma bs_pos k : 0 < bs k.
Proof. unfold bs. lia. Qed.
Lemma bs_S k : bs (S k) = 2 * bs k.
Proof. unfold bs. rewrite Nat2Z.inj_succ, <-Z.add_1_l, <-Z.add_assoc, Z.pow_add_r by lia. done. Qed.
Lemma bs_lt j k : (j < k)%nat → bs j < bs k.
Proof. intros. unfold bs. apply Z.pow_lt_mono_r; lia. Qed.
Lemma bs_le j k : (j ≤ k)%nat → bs j ≤ bs k.
Proof. intros. unfold bs. apply Z.pow_le_mono_r; lia. Qed.
Lemma bs_divide j k : (j ≤ k)%nat → (bs j | bs k).
Proof. intros. exists (2 ^ Z.of_nat (k - j)). unfold bs. rewrite <-Z.pow_add_r by lia. f_equal. lia. Qed.

Fixpoint leaves (t : tree) (p : Z) (k : nat) : list block :=
  match t, k with
  | Leaf x, _ => [(p, k, x)]
  | Node l r, S k => leaves l p k ++ leaves r (p + bs k) k
  | Node _ _, O => []
  end.

(** The splits end at the smallest size. *)
Fixpoint wf (t : tree) (k : nat) : Prop :=
  match t, k with
  | Leaf _, _ => True
  | Node l r, S k => wf l k ∧ wf r k
  | Node _ _, O => False
  end.

(** No free block whose buddy is a free block. *)
Fixpoint normal (t : tree) : Prop :=
  match t with
  | Leaf _ => True
  | Node l r => normal l ∧ normal r ∧ ¬ (l = Leaf Free ∧ r = Leaf Free)
  end.

Fixpoint has (x : label) (t : tree) : Prop :=
  match t with
  | Leaf y => x = y
  | Node l r => has x l ∨ has x r
  end.

Lemma normal_all_free t : normal t → ¬ has Used t → ¬ has Limbo t → t = Leaf Free.
Proof.
  induction t as [[]|l IHl r IHr]; simpl; [naive_solver..|].
  intros (Hl & Hr & Hlr) HU HL. destruct Hlr. split; [apply IHl|apply IHr]; tauto.
Qed.

Lemma has_leaf x t p k : wf t k → has x t ↔ ∃ q j, (q, j, x) ∈ leaves t p k.
Proof.
  revert p k. induction t as [y|l IHl r IHr]; intros p [|k]; simpl; try done.
  - setoid_rewrite list_elem_of_singleton. naive_solver.
  - setoid_rewrite list_elem_of_singleton. naive_solver.
  - intros [Hl Hr]. rewrite (IHl p k), (IHr (p + bs k) k) by done. setoid_rewrite elem_of_app. naive_solver.
Qed.

(** ** The flat view *)

(** Blocks that abut, from [p] to [e]. *)
Fixpoint chain (p : Z) (bl : list block) (e : Z) : Prop :=
  match bl with
  | [] => p = e
  | (q, k, _) :: bl => q = p ∧ chain (p + bs k) bl e
  end.

Lemma chain_app p b1 b2 e : chain p (b1 ++ b2) e ↔ ∃ m, chain p b1 m ∧ chain m b2 e.
Proof.
  revert p. induction b1 as [|[[q k] x] b1 IH]; intros p; simpl; [naive_solver|].
  rewrite IH. naive_solver.
Qed.

Lemma chain_leaves t p k : wf t k → chain p (leaves t p k) (p + bs k).
Proof.
  revert p k. induction t as [x|l IHl r IHr]; intros p [|k]; simpl; [done..|].
  intros [Hl Hr]. apply chain_app. exists (p + bs k). split; [by apply IHl|].
  rewrite bs_S. replace (p + 2 * bs k) with (p + bs k + bs k) by lia. by apply IHr.
Qed.

Lemma chain_le p bl e : chain p bl e → p ≤ e.
Proof.
  revert p. induction bl as [|[[q k] x] bl IH]; intros p; simpl; [lia|].
  intros [-> ?%IH]. pose proof (bs_pos k). lia.
Qed.

Lemma chain_in p bl e q k x : chain p bl e → (q, k, x) ∈ bl → p ≤ q ∧ q + bs k ≤ e.
Proof.
  revert p. induction bl as [|[[q' k'] x'] bl IH]; intros p; simpl; [set_solver|].
  intros [-> Hc] [?|Hin]%elem_of_cons.
  - simplify_eq. apply chain_le in Hc. lia.
  - destruct (IH _ Hc Hin). pose proof (bs_pos k'). lia.
Qed.

(** Two blocks of a chain are the same or apart. *)
Lemma chain_disjoint p bl e q1 k1 x1 q2 k2 x2 :
  chain p bl e → (q1, k1, x1) ∈ bl → (q2, k2, x2) ∈ bl →
  (q1, k1, x1) = (q2, k2, x2) ∨ q1 + bs k1 ≤ q2 ∨ q2 + bs k2 ≤ q1.
Proof.
  revert p. induction bl as [|[[q k] x] bl IH]; intros p; simpl; [set_solver|].
  intros [-> Hc] [?|H1]%elem_of_cons [?|H2]%elem_of_cons; simplify_eq.
  - by left.
  - destruct (chain_in _ _ _ _ _ _ Hc H2). lia.
  - destruct (chain_in _ _ _ _ _ _ Hc H1). lia.
  - by eapply IH.
Qed.

(** The addresses of the blocks of a level in a state. *)
Definition at_level (x : label) (k : nat) (bl : list block) : list Z :=
  omap (λ '(p, j, y), if decide (j = k ∧ y = x) then Some p else None) bl.

Lemma at_level_app x k b1 b2 : at_level x k (b1 ++ b2) = at_level x k b1 ++ at_level x k b2.
Proof. apply omap_app. Qed.

Lemma elem_of_at_level x k bl p : p ∈ at_level x k bl ↔ (p, k, x) ∈ bl.
Proof.
  unfold at_level. rewrite list_elem_of_omap. split.
  - intros ([[q j] y] & Hin & Hd). case_decide as Hj; [|done]. destruct Hj. by simplify_eq.
  - intros Hin. exists (p, k, x). split; [done|]. by rewrite decide_True.
Qed.

Lemma at_level_one x k p j y :
  at_level x k [(p, j, y)] = if decide (j = k ∧ y = x) then [p] else [].
Proof. unfold at_level. simpl. by case_decide. Qed.

(** ** Positions in a tree

    The way from a subtree up to the root: on each level the side it is on, and
    the other side. *)
Inductive side : Set := L | R.
Definition path : Set := list (side * tree).

Fixpoint plug (w : path) (s : tree) : tree :=
  match w with
  | [] => s
  | (L, r) :: w => plug w (Node s r)
  | (R, l) :: w => plug w (Node l s)
  end.

(** The address of a subtree of height [k]. *)
Fixpoint addr (w : path) (k : nat) (root : Z) : Z :=
  match w with
  | [] => root
  | (L, _) :: w => addr w (S k) root
  | (R, _) :: w => addr w (S k) root + bs k
  end.

(** The blocks in front of it and behind it. *)
Fixpoint before (w : path) (k : nat) (root : Z) : list block :=
  match w with
  | [] => []
  | (L, _) :: w => before w (S k) root
  | (R, l) :: w => before w (S k) root ++ leaves l (addr w (S k) root) k
  end.
Fixpoint after (w : path) (k : nat) (root : Z) : list block :=
  match w with
  | [] => []
  | (L, r) :: w => leaves r (addr w (S k) root + bs k) k ++ after w (S k) root
  | (R, _) :: w => after w (S k) root
  end.

Lemma leaves_plug w s k root :
  leaves (plug w s) root (k + length w) =
    before w k root ++ leaves s (addr w k root) k ++ after w k root.
Proof.
  revert s k. induction w as [|[[] t] w IH]; intros s k; simpl.
  - by rewrite Nat.add_0_r, app_nil_r.
  - rewrite <-Nat.add_succ_comm, IH. simpl. by rewrite <-!app_assoc.
  - rewrite <-Nat.add_succ_comm, IH. simpl. by rewrite <-!app_assoc.
Qed.

Lemma wf_plug w s s' k : wf (plug w s) (k + length w) → (wf s k → wf s' k) → wf (plug w s') (k + length w).
Proof.
  revert s s' k. induction w as [|[[] t] w IH]; intros s s' k; simpl.
  - rewrite Nat.add_0_r. auto.
  - rewrite <-Nat.add_succ_comm. intros Hw Hs. eapply IH; [done|]. simpl. tauto.
  - rewrite <-Nat.add_succ_comm. intros Hw Hs. eapply IH; [done|]. simpl. tauto.
Qed.

Lemma wf_sub w s k : wf (plug w s) (k + length w) → wf s k.
Proof.
  revert s k. induction w as [|[[] t] w IH]; intros s k; simpl; [by rewrite Nat.add_0_r|..];
    rewrite <-Nat.add_succ_comm; intros Hw%IH; simpl in Hw; tauto.
Qed.

Lemma normal_sub w s : normal (plug w s) → normal s.
Proof. revert s. induction w as [|[[] t] w IH]; intros s; simpl; [done|..]; intros Hw%IH; simpl in Hw; tauto. Qed.

(** A subtree can be replaced, by a free leaf only if its buddy is not one. *)
Lemma normal_plug w s s' :
  normal (plug w s) → normal s' →
  (s' = Leaf Free → match w with [] => True | (_, t) :: _ => t ≠ Leaf Free end) →
  normal (plug w s').
Proof.
  revert s s'. induction w as [|[[] t] w IH]; intros s s'; simpl; [done|..]; intros Hw Hs' Ht;
    pose proof (normal_sub _ _ Hw) as (H1 & H2 & H3);
    (eapply IH; [done| |done]); simpl; naive_solver.
Qed.

Lemma has_plug x w s : has x (plug w s) ↔ has x s ∨ Exists (λ '(_, t), has x t) w.
Proof.
  revert s. induction w as [|[[] t] w IH]; intros s; simpl.
  - rewrite Exists_nil. tauto.
  - rewrite IH, Exists_cons. simpl. tauto.
  - rewrite IH, Exists_cons. simpl. tauto.
Qed.

Lemma plug_snoc w d t s : plug (w ++ [(d, t)]) s = match d with L => Node (plug w s) t | R => Node t (plug w s) end.
Proof. revert s. induction w as [|[[] t'] w IH]; intros s; simpl; [by destruct d|apply IH|apply IH]. Qed.

Lemma addr_snoc w d t k root :
  addr (w ++ [(d, t)]) k root =
    addr w k (match d with L => root | R => root + bs (k + length w) end).
Proof.
  revert k. induction w as [|[[] t'] w IH]; intros k; simpl.
  - rewrite Nat.add_0_r. by destruct d.
  - by rewrite IH, Nat.add_succ_comm.
  - by rewrite IH, Nat.add_succ_comm.
Qed.

(** Each block of a tree is at the end of a way. *)
Lemma leaf_path t root h p k x :
  (p, k, x) ∈ leaves t root h → ∃ w, t = plug w (Leaf x) ∧ h = (k + length w)%nat ∧ p = addr w k root.
Proof.
  revert root h. induction t as [y|l IHl r IHr]; intros root h; simpl.
  - intros ?%list_elem_of_singleton. simplify_eq. exists []. simpl. split_and!; [done|lia|done].
  - destruct h as [|h]; [set_solver|].
    intros [(w & -> & -> & ->)%IHl|(w & -> & -> & ->)%IHr]%elem_of_app.
    + exists (w ++ [(L, r)]). rewrite plug_snoc, addr_snoc, length_app. simpl. split_and!; [done|lia|done].
    + exists (w ++ [(R, l)]). rewrite plug_snoc, addr_snoc, length_app. simpl. split_and!; [done|lia|done].
Qed.

(** Blocks are aligned at their sizes. *)
Lemma leaves_aligned t root h p k x :
  (bs h | root) → (p, k, x) ∈ leaves t root h → (bs k | p) ∧ (k ≤ h)%nat.
Proof.
  revert root h. induction t as [y|l IHl r IHr]; intros root h Hroot; simpl.
  - intros ?%list_elem_of_singleton. by simplify_eq.
  - destruct h as [|h]; [set_solver|].
    assert (bs h | root) by (etrans; [apply (bs_divide h (S h)); lia|done]).
    intros [[? ?]%IHl|[? ?]%IHr]%elem_of_app; [split; [done|lia]|done|split; [done|lia]|].
    by apply Z.divide_add_r; [|exists 1; lia].
Qed.

(** ** The pool *)

Fixpoint blocks (ts : list tree) (p : Z) : list block :=
  match ts with
  | [] => []
  | t :: ts => leaves t p TOP ++ blocks ts (p + bs TOP)
  end.

Lemma blocks_app ts1 ts2 p : blocks (ts1 ++ ts2) p = blocks ts1 p ++ blocks ts2 (p + bs TOP * zlen ts1).
Proof.
  revert p. induction ts1 as [|t ts1 IH]; intros p; simpl; [by rewrite Z.mul_0_r, Z.add_0_r|].
  rewrite IH, <-app_assoc, zlen_cons. do 3 f_equal. lia.
Qed.

Lemma chain_blocks ts p : Forall (λ t, wf t TOP) ts → chain p (blocks ts p) (p + bs TOP * zlen ts).
Proof.
  intros Hts. revert p. induction Hts as [|t ts Ht _ IH]; intros p; [simpl; change (zlen (@nil tree)) with 0; lia|].
  simpl. apply chain_app. exists (p + bs TOP). split; [by apply chain_leaves|].
  rewrite zlen_cons. replace (p + bs TOP * (1 + zlen ts)) with (p + bs TOP + bs TOP * zlen ts) by lia. apply IH.
Qed.

(** A block of the pool: its page, and its way in the page's tree. *)
Lemma block_path ts root p k x :
  (p, k, x) ∈ blocks ts root →
  ∃ ts1 w ts2, ts = ts1 ++ plug w (Leaf x) :: ts2 ∧ TOP = (k + length w)%nat ∧
    p = addr w k (root + bs TOP * zlen ts1).
Proof.
  revert root. induction ts as [|t ts IH]; intros root; simpl; [set_solver|].
  intros [(w & -> & Htop & ->)%leaf_path|(ts1 & w & ts2 & -> & Htop & ->)%IH]%elem_of_app.
  - exists [], w, ts. change (zlen (@nil tree)) with 0. rewrite Z.mul_0_r, Z.add_0_r. done.
  - exists (t :: ts1), w, ts2. rewrite zlen_cons. split_and!; [done|done|]. f_equal. lia.
Qed.

(** What a pool looks like around a subtree of one page. *)
Lemma blocks_plug ts1 w s ts2 root k :
  TOP = (k + length w)%nat →
  blocks (ts1 ++ plug w s :: ts2) root =
    (blocks ts1 root ++ before w k (root + bs TOP * zlen ts1)) ++
    leaves s (addr w k (root + bs TOP * zlen ts1)) k ++
    (after w k (root + bs TOP * zlen ts1) ++
     blocks ts2 (root + bs TOP * zlen ts1 + bs TOP)).
Proof.
  intros Htop. rewrite blocks_app. simpl. rewrite Htop at 2. rewrite leaves_plug.
  by rewrite <-!app_assoc.
Qed.

Lemma blocks_aligned ts root p k x :
  (bs TOP | root) → (p, k, x) ∈ blocks ts root → (bs k | p) ∧ (k ≤ TOP)%nat.
Proof.
  revert root. induction ts as [|t ts IH]; intros root Hroot; simpl; [set_solver|].
  intros [?|?]%elem_of_app; [by eapply leaves_aligned|].
  eapply IH; [|done]. apply Z.divide_add_r; [done|]. by exists 1.
Qed.
