(* ===== verification/Buddy.v ===== *)
(** The buddy allocator of [src/alloc/buddy.c] and [buddy.h]: the code, and what
    its arithmetic computes. *)
From S2P Require Import Prelude Bits.

(** ** Data *)

Definition MAX_BLOCK_LOG2 : Z := 12.
Definition MIN_BLOCK_LOG2 : Z := 4.
Definition NUM_LISTS : Z := MAX_BLOCK_LOG2 - MIN_BLOCK_LOG2 + 1.
Definition MAX_BLOCK_SIZE : Z := Z.shiftl 1 MAX_BLOCK_LOG2.
Definition MIN_BLOCK_SIZE : Z := Z.shiftl 1 MIN_BLOCK_LOG2.
Definition MAX_BLOCK_ALIGN_MASK : Z := MAX_BLOCK_SIZE - 1.
Definition BIT_TREE_BITS_PER_PAGE : Z := Z.shiftl 1 NUM_LISTS - 1.
Definition BIT_TREE_WORDS_PER_PAGE : Z := (BIT_TREE_BITS_PER_PAGE + 31) / 32.

(** [sizeof] and [_Alignof] of [struct buddy] and [struct bit_tree]. *)
Definition sizeof_buddy : Z := 104.
Definition alignof_buddy : Z := 8.
Definition sizeof_bit_tree : Z := 4 * BIT_TREE_WORDS_PER_PAGE.
Definition alignof_bit_tree : Z := 4.

(** [struct buddy_page]: the links a free block starts with, 0 for NULL. *)
Record buddy_page : Set := mkPage { prev : Z; next : Z }.

(** [struct buddy], and the links in the memory it manages by their address. *)
Record buddy : Type := mkBuddy {
  base : Z;
  size : Z;
  lists : list Z;
  trees : list (list Z);
  num_trees : Z;
  heap : gmap Z buddy_page;
}.

Definition with_lists (a : buddy) (l : list Z) (h : gmap Z buddy_page) : buddy :=
  mkBuddy (base a) (size a) l (trees a) (num_trees a) h.
Definition with_trees (a : buddy) (t : list (list Z)) : buddy :=
  mkBuddy (base a) (size a) (lists a) t (num_trees a) (heap a).

Definition load (h : gmap Z buddy_page) (p : Z) : outcome buddy_page :=
  if p =? 0 then Fail NullDeref
  else match h !! p with Some n => Ret n | None => Fail OutOfBounds end.
Definition store (h : gmap Z buddy_page) (p : Z) (n : buddy_page) : outcome (gmap Z buddy_page) :=
  if p =? 0 then Fail NullDeref else Ret (<[p := n]> h).

(** [1U << n], [x >> n] *)
Definition shl_1U (n : Z) : outcome Z :=
  if (0 <=? n) && (n <? 32) then Ret (u32 (Z.shiftl 1 n)) else Fail BadShift.
Definition shr (x n : Z) : outcome Z :=
  if (0 <=? n) && (n <? 64) then Ret (Z.shiftr x n) else Fail BadShift.

(** ** The code *)

Definition is_pow2 (n : Z) : bool := Z.land n (u64 (n - 1)) =? 0.

Definition round_pow2 (v : Z) : Z :=
  let v := u64 (v - 1) in
  let v := Z.lor v (Z.shiftr v 1) in
  let v := Z.lor v (Z.shiftr v 2) in
  let v := Z.lor v (Z.shiftr v 4) in
  let v := Z.lor v (Z.shiftr v 8) in
  let v := Z.lor v (Z.shiftr v 16) in
  let v := Z.lor v (Z.shiftr v 32) in
  u64 (v + 1).

(** [t = z >> n; if (t) { i += n; z = t; }] *)
Definition upper_half (n : Z) (st : Z * Z) : Z * Z :=
  let '(i, z) := st in
  let t := Z.shiftr z n in if t =? 0 then (i, z) else (i + n, t).

Definition first_set (x : Z) : outcome Z :=
  if x =? 0 then Ret (-1)
  else
    let y := Z.land x (x - 1) in
    let z := x - y in
    let '(i, z) := upper_half 8 (upper_half 16 (upper_half 32 (0, z))) in
    t ← rd log2_table z;
    Ret (i + t).

Definition page_index_to_ptr (base i : Z) : Z := base + s32 (Z.shiftl i MAX_BLOCK_LOG2).

Definition page_index (a : buddy) (ptr : Z) : outcome Z :=
  _ ← c_assert (base a <=? ptr);
  Ret (Z.shiftr (ptr - base a) MAX_BLOCK_LOG2).

Definition block_info_index (ptr len : Z) : outcome Z :=
  len_log2 ← first_set len;
  let reloff := Z.land ptr MAX_BLOCK_ALIGN_MASK in
  x ← shl_1U (MAX_BLOCK_LOG2 - len_log2);
  y ← shr reloff len_log2;
  Ret (x + y).

Definition is_allocated (a : buddy) (ptr len : Z) : outcome bool :=
  _ ← c_assert (is_pow2 len);
  i ← page_index a ptr;
  j ← block_info_index ptr len;
  let u := Z.shiftr j 5 in
  let v := Z.land j 31 in
  mask ← shl_1U v;
  tree ← rd (trees a) i;
  w ← rd tree u;
  Ret (Z.land w mask =? mask).

Definition set_allocated (a : buddy) (ptr len : Z) (value : bool) : outcome buddy :=
  _ ← c_assert (is_pow2 len);
  i ← page_index a ptr;
  j ← block_info_index ptr len;
  let u := Z.shiftr j 5 in
  let v := Z.land j 31 in
  _ ← c_assert (i <? num_trees a);
  _ ← c_assert (u <? BIT_TREE_WORDS_PER_PAGE);
  mask ← shl_1U v;
  tree ← rd (trees a) i;
  w ← rd tree u;
  tree ← wr tree u (if value then Z.lor w mask else Z.land w (u32 (Z.lnot mask)));
  ts ← wr (trees a) i tree;
  Ret (with_trees a ts).

(** [fuel] bounds the depth of the recursion. *)
Fixpoint considering_splits (fuel : nat) (a : buddy) (ptr len : Z) : outcome bool :=
  match fuel with
  | O => Fail OutOfFuel
  | S fuel =>
      if len =? MIN_BLOCK_SIZE then is_allocated a ptr len
      else
        let sib := ptr + Z.shiftr len 1 in
        b ← is_allocated a ptr len;
        if b : bool then Ret true
        else
          b ← considering_splits fuel a ptr (Z.shiftr len 1);
          if b : bool then Ret true else considering_splits fuel a sib (Z.shiftr len 1)
  end.
Definition is_allocated_considering_splits (a : buddy) (ptr len : Z) : outcome bool :=
  considering_splits (S (Z.to_nat (Z.log2 len))) a ptr len.

Definition normalize_len (len : Z) : Z :=
  if len =? 0 then 0 else if len <? MIN_BLOCK_SIZE then MIN_BLOCK_SIZE else round_pow2 len.

Definition list_index_for_size (len : Z) : outcome Z :=
  i ← first_set len; Ret (i - MIN_BLOCK_LOG2).

Definition sibling_of (ptr len : Z) : outcome Z :=
  _ ← c_assert (is_pow2 len);
  _ ← c_assert (len <? MAX_BLOCK_SIZE);
  if Z.land ptr (u64 (Z.shiftl len 1) - 1) =? 0 then Ret (ptr + len) else Ret (ptr - len).

Definition parent_of (ptr len : Z) : outcome Z :=
  sib ← sibling_of ptr len;
  Ret (if sib <? ptr then sib else ptr).

Definition sibling_allocated_considering_splits (a : buddy) (ptr len : Z) : outcome bool :=
  sib ← sibling_of ptr len;
  is_allocated_considering_splits a sib len.

Definition remove_sibling_from_list (a : buddy) (i ptr : Z) : outcome buddy :=
  len ← shl_1U (i + MIN_BLOCK_LOG2);
  sibling ← sibling_of ptr len;
  s ← load (heap a) sibling;
  a ← (if negb (prev s =? 0) then
         p ← load (heap a) (prev s);
         h ← store (heap a) (prev s) (mkPage (prev p) (next s));
         Ret (with_lists a (lists a) h)
       else
         l ← wr (lists a) i (next s);
         Ret (with_lists a l (heap a)));
  s ← load (heap a) sibling;
  if negb (next s =? 0) then
    n ← load (heap a) (next s);
    h ← store (heap a) (next s) (mkPage (prev s) (next n));
    Ret (with_lists a (lists a) h)
  else Ret a.

Definition append (a : buddy) (i ptr : Z) : outcome buddy :=
  _ ← c_assert ((0 <=? i) && (i <? NUM_LISTS));
  head ← rd (lists a) i;
  h ← (if negb (head =? 0) then
         n ← load (heap a) head;
         store (heap a) head (mkPage ptr (next n))
       else Ret (heap a));
  h ← store h ptr (mkPage 0 head);
  l ← wr (lists a) i ptr;
  Ret (with_lists a l h).

Definition pop (a : buddy) (i : Z) : outcome (buddy * Z) :=
  _ ← c_assert ((0 <=? i) && (i <? NUM_LISTS));
  page ← rd (lists a) i;
  _ ← c_assert (negb (page =? 0));
  n ← load (heap a) page;
  l ← wr (lists a) i (next n);
  h ← (if negb (next n =? 0) then
         n2 ← load (heap a) (next n);
         store (heap a) (next n) (mkPage 0 (next n2))
       else Ret (heap a));
  Ret (with_lists a l h, page).

(** [while (j < NUM_LISTS && alloc->lists[j] == NULL) j++;] *)
Definition first_nonempty (a : buddy) (i : Z) : outcome Z :=
  loop (S (Z.to_nat NUM_LISTS))
    (λ j,
       if j <? NUM_LISTS then
         head ← rd (lists a) j;
         if head =? 0 then continue (j + 1) else break j
       else break j)
    i.

(** [while (j > i) { j--; ...; append(alloc, j, sibling); }] *)
Definition split_down (a : buddy) (ptr i j : Z) : outcome buddy :=
  loop (S (Z.to_nat NUM_LISTS))
    (λ '(a, j),
       if i <? j then
         let j := j - 1 in
         len ← shl_1U (j + MIN_BLOCK_LOG2);
         sibling ← sibling_of ptr len;
         a ← append a j sibling;
         continue (a, j)
       else break a)
    (a, j).

(** [buddy_malloc] and [buddy_free] of an allocator that is not NULL. *)
Definition malloc (a : buddy) (len : Z) : outcome (buddy * Z) :=
  if (len =? 0) || (MAX_BLOCK_SIZE <? len) then Ret (a, 0)
  else
    let len := normalize_len len in
    _ ← c_assert (MIN_BLOCK_SIZE <=? len);
    i ← list_index_for_size len;
    _ ← c_assert ((0 <=? i) && (i <? NUM_LISTS));
    j ← first_nonempty a i;
    if j =? NUM_LISTS then Ret (a, 0)
    else
      '(a, ptr) ← pop a j;
      a ← split_down a ptr i j;
      a ← set_allocated a ptr len true;
      Ret (a, ptr).

Definition free_step (st : buddy * Z * Z) : outcome (buddy * Z * Z + buddy) :=
  let '(a, ptr, len) := st in
  i ← list_index_for_size len;
  last ← (if len =? MAX_BLOCK_SIZE then Ret true
          else sibling_allocated_considering_splits a ptr len);
  if last : bool then a ← append a i ptr; break a
  else
    head ← rd (lists a) i;
    _ ← c_assert (negb (head =? 0));
    a ← remove_sibling_from_list a i ptr;
    ptr ← parent_of ptr len;
    continue (a, ptr, u64 (Z.shiftl len 1)).

Definition free (a : buddy) (len ptr : Z) : outcome buddy :=
  if (ptr =? 0) || (len =? 0) then Ret a
  else if MAX_BLOCK_SIZE <? len then Ret a
  else
    let len := normalize_len len in
    b ← is_allocated a ptr len;
    if negb b then Ret a
    else
      a ← set_allocated a ptr len false;
      loop (S (Z.to_nat NUM_LISTS)) free_step (a, ptr, len).

Definition buddy_malloc (alloc : option buddy) (len : Z) : outcome (option buddy * Z) :=
  match alloc with
  | None => Ret (None, 0)
  | Some a => '(a, p) ← malloc a len; Ret (Some a, p)
  end.
Definition buddy_free (alloc : option buddy) (len ptr : Z) : outcome (option buddy) :=
  match alloc with
  | None => Ret None
  | Some a => a ← free a len ptr; Ret (Some a)
  end.

Definition buddy_owned (alloc : option buddy) (ptr : Z) : bool :=
  match alloc with
  | None => false
  | Some a => (base a <=? ptr) && (ptr <? base a + size a)
  end.
Definition buddy_allocated (alloc : option buddy) (ptr len : Z) : outcome bool :=
  match alloc with
  | None => Ret false
  | Some a => if buddy_owned alloc ptr then is_allocated a ptr len else Ret false
  end.

(** *** Startup *)

(** [pad = -(uintptr_t) base & mask] *)
Definition padding (p mask : Z) : Z := Z.land (u64 (- p)) mask.

(** The number of trees, each with a page behind them. *)
Definition count_trees (base size : Z) : outcome Z :=
  loop (S (Z.to_nat (size / sizeof_bit_tree)))
    (λ num_trees,
       let num_trees_maybe := num_trees + 1 in
       let tree_region := u64 (num_trees_maybe * sizeof_bit_tree) in
       if size <? tree_region then break num_trees
       else
         let p := base + tree_region in
         let l := size - tree_region in
         let pad := padding p MAX_BLOCK_ALIGN_MASK in
         if l <? pad then break num_trees
         else
           let num_blocks := s32 (Z.shiftr (l - pad) MAX_BLOCK_LOG2) in
           if num_blocks <? num_trees_maybe then break num_trees else continue num_trees_maybe)
    0.

(** The list of the pages: the links and the head. *)
Definition link_pages (base num_trees : Z) (h : gmap Z buddy_page) : outcome (gmap Z buddy_page * Z) :=
  loop (S (Z.to_nat num_trees))
    (λ '(i, head, tail, h),
       if i <? num_trees then
         let p := page_index_to_ptr base i in
         if negb (head =? 0) then
           t ← load h tail;
           h ← store h tail (mkPage (prev t) p);
           h ← store h p (mkPage tail 0);
           continue (i + 1, head, p, h)
         else
           h ← store h p (mkPage 0 0);
           continue (i + 1, p, p, h)
       else break (h, head))
    (0, 0, 0, h).

(** Where [struct buddy] and the trees are, and the allocator; [None] for NULL. *)
Definition buddy_startup (base size : Z) : outcome (option (Z * Z * buddy)) :=
  _ ← c_assert (eqb (negb (base =? 0)) (negb (size =? 0)));
  let pad := padding base (alignof_buddy - 1) in
  if size <? pad then Ret None
  else
    let base := base + pad in
    let size := size - pad in
    if size <? sizeof_buddy then Ret None
    else
      let alloc := base in
      let base := base + sizeof_buddy in
      let size := size - sizeof_buddy in
      let pad := padding base (alignof_bit_tree - 1) in
      if size <? pad then Ret None
      else
        let base := base + pad in
        let size := size - pad in
        num_trees ← count_trees base size;
        let trees := base in
        let base := base + num_trees * sizeof_bit_tree in
        let size := size - num_trees * sizeof_bit_tree in
        let pad := padding base MAX_BLOCK_ALIGN_MASK in
        if size <? pad then Ret None
        else
          let base := base + pad in
          let size := u64 (s32 (Z.shiftl num_trees MAX_BLOCK_LOG2)) in
          '(h, head) ← link_pages base num_trees ∅;
          Ret (Some (alloc, trees,
                 mkBuddy base size (replicate (Z.to_nat (NUM_LISTS - 1)) 0 ++ [head])
                   (replicate (Z.to_nat num_trees)
                      (replicate (Z.to_nat BIT_TREE_WORDS_PER_PAGE) 0))
                   num_trees h)).
