(* ===== verification/BuddyBits.v ===== *)
(** The arithmetic of the buddy allocator: sizes, the bit of a block, buddies. *)
From S2P Require Import Prelude Bits BuddyTree Buddy.

(** ** Sizes *)

Lemma round_pow2_log2 v : 2 ≤ v ≤ 2 ^ 63 → round_pow2 v = 2 ^ (Z.log2 (v - 1) + 1).
Proof.
  intros Hv. unfold round_pow2. rewrite (u64_small (v - 1)) by lia.
  assert (0 ≤ Z.log2 (v - 1) < 63) by (split; [apply Z.log2_nonneg|apply Z.log2_lt_pow2; lia]).
  pose proof (smeared_log2 (v - 1) ltac:(lia)) as Hs.
  smear Hs 1. smear Hs 2. smear Hs 4. smear Hs 8. smear Hs 16. smear Hs 32.
  apply smeared_full in Hs; [|lia]. rewrite Hs.
  assert (2 ^ (Z.log2 (v - 1) + 1) ≤ 2 ^ 63) by (apply Z.pow_le_mono_r; lia).
  replace (2 ^ (Z.log2 (v - 1) + 1) - 1 + 1) with (2 ^ (Z.log2 (v - 1) + 1)) by lia.
  apply u64_small. pose proof (Z.pow_pos_nonneg 2 (Z.log2 (v - 1) + 1)). lia.
Qed.

(** The level of the blocks a request of [n] bytes is served from. *)
Definition level (n : Z) : nat := Z.to_nat (Z.log2_up n - 4).

Lemma level_spec n : 0 < n ≤ 4096 →
  (level n ≤ TOP)%nat ∧ n ≤ bs (level n) ∧ ∀ k, n ≤ bs k → (level n ≤ k)%nat.
Proof.
  intros Hn. unfold level, bs, TOP.
  assert (Z.log2_up n ≤ 12) by (apply (Z.log2_up_le_mono n (2 ^ 12)); lia).
  split; [lia|]. split.
  - destruct (Z.eq_dec n 1) as [->|]; [done|].
    pose proof (Z.log2_up_spec n ltac:(lia)) as [_ Hup].
    etrans; [exact Hup|]. apply Z.pow_le_mono_r; lia.
  - intros k Hk. apply Z.log2_up_le_pow2 in Hk; lia.
Qed.

Lemma normalize_len_ok n : 0 < n ≤ 4096 → normalize_len n = bs (level n).
Proof.
  intros Hn. unfold normalize_len, level, bs. destruct (Z.eqb_spec n 0); [lia|].
  change MIN_BLOCK_SIZE with 16. destruct (Z.ltb_spec n 16).
  - assert (Z.log2_up n ≤ 4) by (apply (Z.log2_up_le_mono n (2 ^ 4)); lia).
    by replace (Z.to_nat (Z.log2_up n - 4)) with 0%nat by lia.
  - rewrite round_pow2_log2 by lia.
    assert (4 ≤ Z.log2_up n) by (apply (Z.log2_up_le_mono (2 ^ 4) n); lia).
    f_equal. rewrite Z2Nat.id by lia. rewrite Z.log2_up_eqn, <-Z.sub_1_r by lia. lia.
Qed.

(** Case analysis on a level. *)
Lemma level_cases (P : nat → Prop) :
  P 0%nat → P 1%nat → P 2%nat → P 3%nat → P 4%nat → P 5%nat → P 6%nat → P 7%nat → P 8%nat →
  ∀ k, (k ≤ TOP)%nat → P k.
Proof. unfold TOP. intros. do 9 (destruct k as [|k]; [done|]). lia. Qed.

Lemma first_set_bs k : (k ≤ TOP)%nat → first_set (bs k) = Ret (Z.of_nat k + 4).
Proof. revert k. by apply level_cases. Qed.
Lemma is_pow2_bs k : (k ≤ TOP)%nat → is_pow2 (bs k) = true.
Proof. revert k. by apply level_cases. Qed.
Lemma list_index_bs k : (k ≤ TOP)%nat → list_index_for_size (bs k) = Ret (Z.of_nat k).
Proof. revert k. by apply level_cases. Qed.
Lemma shl_1U_bs k : (k ≤ TOP)%nat → shl_1U (Z.of_nat k + MIN_BLOCK_LOG2) = Ret (bs k).
Proof. revert k. by apply level_cases. Qed.
Lemma bs_half k : (k < TOP)%nat → Z.shiftr (bs (S k)) 1 = bs k.
Proof. intros. rewrite bs_S, Z.shiftr_div_pow2, Z.mul_comm, Z.div_mul by lia. done. Qed.
Lemma bs_double k : (k < TOP)%nat → u64 (Z.shiftl (bs k) 1) = bs (S k).
Proof.
  intros. rewrite Z.shiftl_mul_pow2, bs_S, Z.mul_comm by lia. apply u64_small.
  pose proof (bs_pos k). pose proof (bs_lt k TOP). change (bs TOP) with 4096 in *. lia.
Qed.

(** ** The bit of a block *)

(** The index of the bit in the tree of the block's page. *)
Definition bit_index (p : Z) (k : nat) : Z := 2 ^ (8 - Z.of_nat k) + (p mod 4096) / bs k.

Lemma bit_index_range p k :
  (k ≤ TOP)%nat → 2 ^ (8 - Z.of_nat k) ≤ bit_index p k < 2 ^ (9 - Z.of_nat k).
Proof.
  intros Hk. unfold bit_index, TOP in *. pose proof (Z.mod_pos_bound p 4096).
  pose proof (bs_pos k). assert (0 ≤ p mod 4096 / bs k) by (apply Z.div_pos; lia).
  assert (p mod 4096 / bs k < 2 ^ (8 - Z.of_nat k)).
  { apply Z.div_lt_upper_bound; [done|]. unfold bs. rewrite <-Z.pow_add_r by lia.
    replace (Z.of_nat k + 4 + (8 - Z.of_nat k)) with 12 by lia. lia. }
  replace (9 - Z.of_nat k) with (1 + (8 - Z.of_nat k)) by lia. rewrite Z.pow_add_r by lia. lia.
Qed.

Lemma bit_index_bound p k : (k ≤ TOP)%nat → 1 ≤ bit_index p k < 512.
Proof.
  intros Hk. pose proof (bit_index_range p k Hk). unfold TOP in *.
  assert (2 ^ 0 ≤ 2 ^ (8 - Z.of_nat k)) by (apply Z.pow_le_mono_r; lia).
  assert (2 ^ (9 - Z.of_nat k) ≤ 2 ^ 9) by (apply Z.pow_le_mono_r; lia). lia.
Qed.

Lemma bit_index_inj p k q j :
  (k ≤ TOP)%nat → (j ≤ TOP)%nat → bit_index p k = bit_index q j →
  k = j ∧ (p mod 4096) / bs k = (q mod 4096) / bs k.
Proof.
  intros Hk Hj Heq. pose proof (bit_index_range p k Hk) as Hp. pose proof (bit_index_range q j Hj) as Hq.
  unfold TOP in *. assert (k = j) as ->.
  { destruct (Nat.lt_trichotomy k j) as [Hlt|[|Hlt]]; [|done|].
    - assert (2 ^ (9 - Z.of_nat j) ≤ 2 ^ (8 - Z.of_nat k)) by (apply Z.pow_le_mono_r; lia). lia.
    - assert (2 ^ (9 - Z.of_nat k) ≤ 2 ^ (8 - Z.of_nat j)) by (apply Z.pow_le_mono_r; lia). lia. }
  split; [done|]. unfold bit_index in Heq. lia.
Qed.

Lemma block_info_index_ok p k : (k ≤ TOP)%nat → block_info_index p (bs k) = Ret (bit_index p k).
Proof.
  intros Hk. unfold block_info_index. rewrite first_set_bs by done. cbn [mbind outcome_bind].
  assert (Z.land p MAX_BLOCK_ALIGN_MASK = p mod 4096) as -> by by apply (land_mask p 12).
  assert (shl_1U (MAX_BLOCK_LOG2 - (Z.of_nat k + 4)) = Ret (2 ^ (8 - Z.of_nat k))) as ->
    by (revert k Hk; by apply level_cases).
  unfold shr, TOP, bit_index in *. cbn [mbind outcome_bind].
  replace ((0 <=? Z.of_nat k + 4) && (Z.of_nat k + 4 <? 64)) with true by lia.
  cbn [mbind outcome_bind]. by rewrite Z.shiftr_div_pow2 by lia.
Qed.

(** ** Allocators in shape *)

(** A pool of whole pages at a page boundary, with a tree of 16 words for each. *)
Record shape (a : buddy) : Prop := {
  base_pos : 0 < base a;
  base_aligned : (bs TOP | base a);
  size_pages : size a = bs TOP * num_trees a;
  pool_end : base a + size a < 2 ^ 64;
  trees_len : zlen (trees a) = num_trees a;
  trees_words : Forall (λ t, zlen t = BIT_TREE_WORDS_PER_PAGE ∧ Forall (λ w, 0 ≤ w < 2 ^ 32) t) (trees a);
}.

(** A block the pool could be split into. *)
Definition valid (a : buddy) (p : Z) (k : nat) : Prop :=
  base a ≤ p ∧ p + bs k ≤ base a + size a ∧ (bs k | p) ∧ (k ≤ TOP)%nat.

Definition page_of (a : buddy) (p : Z) : Z := (p - base a) / 4096.

(** What the bit tree says of a block. *)
Definition bit (a : buddy) (p : Z) (k : nat) : bool :=
  match trees a !! Z.to_nat (page_of a p) with
  | Some t =>
      match t !! Z.to_nat (bit_index p k / 32) with
      | Some w => Z.testbit w (bit_index p k mod 32)
      | None => false
      end
  | None => false
  end.

Lemma page_of_range a p k : shape a → valid a p k → 0 ≤ page_of a p < num_trees a.
Proof.
  intros Hs (H1 & H2 & _ & _). unfold page_of. rewrite (size_pages a Hs) in H2.
  change (bs TOP) with 4096 in H2. pose proof (bs_pos k).
  split; [apply Z.div_pos; lia|apply Z.div_lt_upper_bound; lia].
Qed.

(** The page and the index tell blocks apart. *)
Lemma block_place_inj a p k q j :
  shape a → valid a p k → valid a q j →
  page_of a p = page_of a q → bit_index p k = bit_index q j → p = q ∧ k = j.
Proof.
  intros Hs Hp Hq Hpage (<- & Hoff)%bit_index_inj; [|apply Hp|apply Hq].
  split; [|done]. destruct Hp as (_ & _ & Hp & Hk), Hq as (_ & _ & Hq & _).
  destruct (base_aligned a Hs) as [b Hb]. change (bs TOP) with 4096 in Hb.
  assert (∀ r, (bs k | r) → r = base a + 4096 * page_of a r + bs k * ((r mod 4096) / bs k)) as Hr.
  { intros r Hr. unfold page_of. rewrite Hb.
    assert ((bs k | r mod 4096)) as Hm.
    { rewrite Z.mod_eq by lia. apply Z.divide_sub_r; [done|].
      apply Z.divide_mul_l. apply (bs_divide k TOP Hk). }
    destruct Hm as [m Hm]. rewrite Hm, Z.div_mul by (pose proof (bs_pos k); lia).
    rewrite (Z.mul_comm (bs k)), <-Hm. replace (r - b * 4096) with (r + (- b) * 4096) by lia.
    rewrite Z.div_add by lia. pose proof (Z.div_mod r 4096). lia. }
  rewrite (Hr p Hp), (Hr q Hq), Hpage, Hoff. done.
Qed.

Lemma testbit_mask w v : 0 ≤ v → (Z.land w (2 ^ v) =? 2 ^ v) = Z.testbit w v.
Proof.
  intros Hv. assert (Z.land w (2 ^ v) = if Z.testbit w v then 2 ^ v else 0) as ->.
  { apply Z.bits_inj'. intros n Hn. rewrite Z.land_spec, testbit_pow2 by lia.
    destruct (Z.eqb_spec n v) as [->|].
    - destruct (Z.testbit w v); [by rewrite testbit_pow2, Z.eqb_refl by lia|by rewrite Z.testbit_0_l].
    - rewrite andb_false_r. destruct (Z.testbit w v); [|by rewrite Z.testbit_0_l].
      rewrite testbit_pow2 by lia. symmetry. by apply Z.eqb_neq. }
  pose proof (Z.pow_pos_nonneg 2 v). destruct (Z.testbit w v); [apply Z.eqb_refl|apply Z.eqb_neq; lia].
Qed.

Section place.
Context (a : buddy) (p : Z) (k : nat) (Hs : shape a) (Hv : valid a p k).

Lemma shl_bit : shl_1U (Z.land (bit_index p k) 31) = Ret (2 ^ (bit_index p k mod 32)).
Proof.
  change 31 with (2 ^ 5 - 1). rewrite land_mask by lia. change (2 ^ 5) with 32.
  pose proof (Z.mod_pos_bound (bit_index p k) 32). unfold shl_1U.
  replace ((0 <=? bit_index p k mod 32) && (bit_index p k mod 32 <? 32)) with true by lia.
  rewrite Z.shiftl_1_l, u32_small; [done|]. pose proof (Z.pow_pos_nonneg 2 (bit_index p k mod 32)).
  assert (2 ^ (bit_index p k mod 32) < 2 ^ 32) by (apply Z.pow_lt_mono_r; lia). lia.
Qed.

(** The word of a block's bit. *)
Lemma word_at : ∃ t w, rd (trees a) (page_of a p) = Ret t ∧ rd t (bit_index p k / 32) = Ret w ∧
  zlen t = 16 ∧ Forall (λ w, 0 ≤ w < 2 ^ 32) t ∧ 0 ≤ w < 2 ^ 32 ∧ 0 ≤ bit_index p k / 32 < 16 ∧
  bit a p k = Z.testbit w (bit_index p k mod 32).
Proof.
  pose proof (page_of_range a p k Hs Hv) as Hpage. rewrite <-(trees_len a Hs) in Hpage.
  destruct (rd_ok _ _ Hpage) as (t & Ht & Hlt). exists t.
  pose proof (Forall_lookup_1 _ _ _ _ (trees_words a Hs) Hlt) as [Hlen Hw].
  change BIT_TREE_WORDS_PER_PAGE with 16 in Hlen.
  pose proof (bit_index_bound p k) as Hj. destruct Hv as (_ & _ & _ & Hk). specialize (Hj Hk).
  assert (0 ≤ bit_index p k / 32 < 16) as Hu
    by (split; [apply Z.div_pos; lia|apply Z.div_lt_upper_bound; lia]).
  destruct (rd_ok t (bit_index p k / 32)) as (w & Hrd & Hlw); [lia|]. exists w.
  pose proof (Forall_lookup_1 _ _ _ _ Hw Hlw) as Hword. cbv beta in Hword.
  unfold bit. rewrite Hlt, Hlw. split_and!; done || lia.
Qed.

Lemma page_index_ok : page_index a p = Ret (page_of a p).
Proof.
  destruct Hv as (Hb & _). unfold page_index. replace (base a <=? p) with true by lia.
  cbn [c_assert mbind outcome_bind]. by rewrite Z.shiftr_div_pow2.
Qed.

Lemma is_allocated_ok : is_allocated a p (bs k) = Ret (bit a p k).
Proof.
  pose proof Hv as (_ & _ & _ & Hk). unfold is_allocated.
  rewrite is_pow2_bs, page_index_ok, block_info_index_ok by done. cbn [c_assert mbind outcome_bind].
  rewrite shl_bit. cbn [mbind outcome_bind].
  destruct word_at as (t & w & -> & Hw & _ & _ & _ & _ & ->). cbn [mbind outcome_bind].
  rewrite Z.shiftr_div_pow2 by lia. change (2 ^ 5) with 32. rewrite Hw. cbn [mbind outcome_bind].
  by rewrite testbit_mask by by apply Z.mod_pos_bound.
Qed.
End place.

Lemma testbit_set w v n (value : bool) :
  0 ≤ w < 2 ^ 32 → 0 ≤ v < 32 → 0 ≤ n < 32 →
  Z.testbit (if value then Z.lor w (2 ^ v) else Z.land w (u32 (Z.lnot (2 ^ v)))) n =
    if n =? v then value else Z.testbit w n.
Proof.
  intros Hw Hv Hn. destruct value.
  - rewrite Z.lor_spec, testbit_pow2 by lia. destruct (n =? v); [apply orb_true_r|apply orb_false_r].
  - rewrite Z.land_spec. unfold u32. rewrite Endian.testbit_u, Z.lnot_spec, testbit_pow2 by lia.
    replace (n <? 32) with true by lia. destruct (n =? v); [apply andb_false_r|apply andb_true_r].
Qed.

Lemma set_word_range w v (value : bool) :
  0 ≤ w < 2 ^ 32 → 0 ≤ v < 32 →
  0 ≤ (if value then Z.lor w (2 ^ v) else Z.land w (u32 (Z.lnot (2 ^ v)))) < 2 ^ 32.
Proof.
  intros Hw Hv. destruct value.
  - apply lor_range; [lia|done|]. split; [lia|]. apply Z.pow_lt_mono_r; lia.
  - assert (0 ≤ Z.land w (u32 (Z.lnot (2 ^ v)))) as Hpos by (apply Z.land_nonneg; lia).
    split; [done|]. apply bits_lt_pow2; [lia|done|]. intros i Hi. rewrite Z.land_spec.
    by rewrite (testbit_high 32 w).
Qed.

(** Marking a block changes its bit and no other. *)
Lemma set_allocated_ok a p k value :
  shape a → valid a p k → ∃ ts, set_allocated a p (bs k) value = Ret (with_trees a ts) ∧
    shape (with_trees a ts) ∧
    ∀ q j, valid a q j →
      bit (with_trees a ts) q j = if decide (q = p ∧ j = k) then value else bit a q j.
Proof.
  intros Hs Hv. pose proof Hv as (_ & _ & _ & Hk). unfold set_allocated.
  rewrite is_pow2_bs, (page_index_ok a p k Hv), block_info_index_ok by done.
  cbn [c_assert mbind outcome_bind].
  pose proof (page_of_range a p k Hs Hv) as Hpage. pose proof (bit_index_bound p k Hk) as Hj.
  replace (page_of a p <? num_trees a) with true by lia. cbn [c_assert mbind outcome_bind].
  rewrite Z.shiftr_div_pow2 by lia. change (2 ^ 5) with 32. change BIT_TREE_WORDS_PER_PAGE with 16.
  destruct (word_at a p k Hs Hv) as (t & w & Ht & Hw & Htl & Hws & Hwr & Hu & Hbit).
  replace (bit_index p k / 32 <? 16) with true by lia. cbn [c_assert mbind outcome_bind].
  rewrite shl_bit, Ht. cbn [mbind outcome_bind]. rewrite Hw. cbn [mbind outcome_bind].
  set (w' := if value then _ else _).
  assert (0 ≤ bit_index p k mod 32 < 32) as Hmod by by apply Z.mod_pos_bound.
  assert (0 ≤ w' < 2 ^ 32) as Hw' by by apply set_word_range.
  rewrite wr_ok by lia. cbn [mbind outcome_bind].
  rewrite wr_ok by (rewrite (trees_len a Hs); lia). cbn [mbind outcome_bind].
  eexists. split; [done|]. split.
  - destruct Hs as [H1 H2 H3 H4 H5 H6]. split; simpl; [done..|by rewrite zlen_insert|].
    apply Forall_insert; [done|]. rewrite zlen_insert. split; [done|]. by apply Forall_insert.
  - intros q j Hq. pose proof (page_of_range a q j Hs Hq) as Hpq.
    pose proof (bit_index_bound q j) as Hjq. pose proof Hq as (_ & _ & _ & Hkq). specialize (Hjq Hkq).
    assert (0 ≤ bit_index q j mod 32 < 32) as Hmodq by by apply Z.mod_pos_bound.
    assert (0 ≤ bit_index q j / 32) as Huq by (apply Z.div_pos; lia).
    apply rd_inv in Ht as [Hpr Hlt], Hw as [Hur Hlw].
    unfold bit. change (page_of (with_trees a _) q) with (page_of a q). simpl.
    destruct (decide (page_of a q = page_of a p)) as [Hsame|Hdiff].
    2:{ rewrite list_lookup_insert_ne by lia. case_decide as Hd; [|done]. by destruct Hd as [-> ->]. }
    rewrite Hsame, list_lookup_insert_eq by (unfold zlen in *; lia). rewrite Hlt.
    destruct (decide (bit_index q j / 32 = bit_index p k / 32)) as [Hsu|Hdu].
    2:{ rewrite list_lookup_insert_ne by lia. case_decide as Hd; [|done]. by destruct Hd as [-> ->]. }
    rewrite Hsu, list_lookup_insert_eq, Hlw by (unfold zlen in *; lia).
    unfold w'. rewrite testbit_set by done. case_decide as Hd.
    { destruct Hd as [-> ->]. by rewrite Z.eqb_refl. }
    destruct (Z.eqb_spec (bit_index q j mod 32) (bit_index p k mod 32)) as [Hsm|]; [|done].
    destruct Hd. apply (block_place_inj a); [done..|].
    rewrite (Z.div_mod (bit_index q j) 32), (Z.div_mod (bit_index p k) 32) by lia. lia.
Qed.

(** ** Buddies *)

Lemma land_low p k : (k < TOP)%nat → (bs k | p) → Z.land p (bs (S k) - 1) = p mod bs (S k).
Proof. intros. unfold bs. apply land_mask. lia. Qed.

Lemma sibling_of_left p k : (k < TOP)%nat → (bs (S k) | p) → sibling_of p (bs k) = Ret (p + bs k).
Proof.
  intros Hk Hp. unfold sibling_of. rewrite is_pow2_bs by lia. pose proof (bs_lt k TOP Hk).
  change MAX_BLOCK_SIZE with (bs TOP). replace (bs k <? bs TOP) with true by lia.
  cbn [c_assert mbind outcome_bind]. rewrite bs_double, land_low by (done || (etrans; [apply (bs_divide k (S k)); lia|done])).
  apply Z.mod_divide in Hp; [|pose proof (bs_pos (S k)); lia]. by rewrite Hp.
Qed.

Lemma sibling_of_right p k :
  (k < TOP)%nat → (bs (S k) | p) → sibling_of (p + bs k) (bs k) = Ret p.
Proof.
  intros Hk Hp. unfold sibling_of. rewrite is_pow2_bs by lia. pose proof (bs_lt k TOP Hk).
  change MAX_BLOCK_SIZE with (bs TOP). replace (bs k <? bs TOP) with true by lia.
  cbn [c_assert mbind outcome_bind]. assert (bs k | p) by (etrans; [apply (bs_divide k (S k)); lia|done]).
  rewrite bs_double, land_low by (done || (apply Z.divide_add_r; [done|apply Z.divide_refl])).
  destruct Hp as [q ->]. rewrite Z.add_comm, Z.mod_add, Z.mod_small
    by (rewrite ?bs_S; pose proof (bs_pos k); lia).
  pose proof (bs_pos k). destruct (Z.eqb_spec (bs k) 0); [lia|]. f_equal. lia.
Qed.

Lemma parent_of_left p k : (k < TOP)%nat → (bs (S k) | p) → parent_of p (bs k) = Ret p.
Proof.
  intros. unfold parent_of. rewrite sibling_of_left by done. cbn [mbind outcome_bind].
  pose proof (bs_pos k). by destruct (Z.ltb_spec (p + bs k) p); [lia|].
Qed.
Lemma parent_of_right p k : (k < TOP)%nat → (bs (S k) | p) → parent_of (p + bs k) (bs k) = Ret p.
Proof.
  intros. unfold parent_of. rewrite sibling_of_right by done. cbn [mbind outcome_bind].
  pose proof (bs_pos k). by destruct (Z.ltb_spec p (p + bs k)); [|lia].
Qed.

(** [round_pow2] is the least power of two that is not below its argument. *)
Theorem round_pow2_correct v : 1 ≤ v ≤ 2 ^ 63 → next_pow2_spec v (round_pow2 v).
Proof.
  intros Hv. destruct (decide (v = 1)) as [->|].
  - split; [by exists 0|]. split; [done|]. by intros p ?%pow2_pos ?; change (round_pow2 1) with 1; lia.
  - rewrite round_pow2_log2 by lia. apply next_pow2_log2. lia.
Qed.

Lemma round_pow2_correct_witness : 1 ≤ 100 ≤ 2 ^ 63 ∧ next_pow2_spec 100 128.
Proof. split; [lia|]. apply (round_pow2_correct 100). lia. Defined.
