(* ===== verification/BuddyList.v ===== *)
(** The free lists of the buddy allocator: doubly linked lists threaded through
    the blocks, as the lists of their addresses. *)
From S2P Require Import Prelude Bits BuddyTree Buddy BuddyBits.

(** From [head] on, behind [pr], the links go through [ps] to the end. *)
Fixpoint dll (h : gmap Z buddy_page) (pr head : Z) (ps : list Z) : Prop :=
  match ps with
  | [] => head = 0
  | p :: ps => head = p ∧ p ≠ 0 ∧ ∃ nx, h !! p = Some (mkPage pr nx) ∧ dll h p nx ps
  end.

(** The same for a part of a list, with [nx] behind it. *)
Fixpoint seg (h : gmap Z buddy_page) (pr head : Z) (ps : list Z) (nx : Z) : Prop :=
  match ps with
  | [] => head = nx
  | p :: ps => head = p ∧ p ≠ 0 ∧ ∃ n, h !! p = Some (mkPage pr n) ∧ seg h p n ps nx
  end.

Definition last_or (pr : Z) (ps : list Z) : Z := default pr (last ps).

Lemma last_or_cons pr p ps : last_or pr (p :: ps) = last_or p ps.
Proof. unfold last_or. rewrite last_cons. by destruct (last ps). Qed.

Lemma dll_app h pr head ps qs :
  dll h pr head (ps ++ qs) ↔ ∃ m, seg h pr head ps m ∧ dll h (last_or pr ps) m qs.
Proof.
  revert pr head. induction ps as [|p ps IH]; intros pr head; simpl.
  - split; [by exists head|by intros (? & -> & ?)].
  - rewrite last_or_cons. setoid_rewrite IH. naive_solver.
Qed.

Lemma seg_snoc h pr head ps l nx :
  seg h pr head (ps ++ [l]) nx ↔ seg h pr head ps l ∧ l ≠ 0 ∧ h !! l = Some (mkPage (last_or pr ps) nx).
Proof.
  revert pr head. induction ps as [|p ps IH]; intros pr head; simpl.
  - unfold last_or. simpl. naive_solver.
  - rewrite last_or_cons. setoid_rewrite IH. naive_solver.
Qed.

Lemma dll_frame h h' pr head ps :
  (∀ p, p ∈ ps → h' !! p = h !! p) → dll h pr head ps → dll h' pr head ps.
Proof.
  revert pr head. induction ps as [|p ps IH]; intros pr head Hh; simpl; [done|].
  intros (-> & ? & nx & Hp & Hd). split_and!; [done..|]. exists nx. rewrite Hh by by left.
  split; [done|]. apply IH; [|done]. intros q ?. apply Hh. by right.
Qed.

Lemma seg_frame h h' pr head ps nx :
  (∀ p, p ∈ ps → h' !! p = h !! p) → seg h pr head ps nx → seg h' pr head ps nx.
Proof.
  revert pr head. induction ps as [|p ps IH]; intros pr head Hh; simpl; [done|].
  intros (-> & ? & n & Hp & Hd). split_and!; [done..|]. exists n. rewrite Hh by by left.
  split; [done|]. apply IH; [|done]. intros q ?. apply Hh. by right.
Qed.

Lemma dll_nonzero h pr head ps p : dll h pr head ps → p ∈ ps → p ≠ 0.
Proof.
  revert pr head. induction ps as [|q ps IH]; intros pr head; simpl; [set_solver|].
  intros (-> & ? & nx & _ & Hd) [->|?]%elem_of_cons; [done|by eapply IH].
Qed.

Lemma dll_head h pr head ps : dll h pr head ps → head = 0 ↔ ps = [].
Proof. destruct ps; simpl; naive_solver. Qed.

(** The node at the head gets another predecessor. *)
Lemma dll_relink h pr pr' head nx ps :
  NoDup (head :: ps) → dll h pr head (head :: ps) → h !! head = Some (mkPage pr nx) →
  dll (<[head := mkPage pr' nx]> h) pr' head (head :: ps).
Proof.
  intros [Hnin _]%NoDup_cons (_ & Hne & nx' & Hh & Hd) Hnx.
  rewrite Hnx in Hh. injection Hh as <-.
  split_and!; [done..|]. exists nx. rewrite lookup_insert_eq. split; [done|].
  eapply dll_frame; [|done]. intros p Hp. rewrite lookup_insert_ne; [done|]. by intros ->.
Qed.

(** ** All lists *)

Record lists_ok (a : buddy) (fs : list (list Z)) : Prop := {
  heads_len : zlen (lists a) = NUM_LISTS;
  fs_len : zlen fs = NUM_LISTS;
  fs_nodup : NoDup (concat fs);
  fs_dll : ∀ k ps, fs !! k = Some ps → ∃ head, lists a !! k = Some head ∧ dll (heap a) 0 head ps;
}.

Lemma elem_of_concat (fs : list (list Z)) p : p ∈ concat fs ↔ ∃ ps, p ∈ ps ∧ ps ∈ fs.
Proof.
  induction fs as [|ps fs IH]; simpl; [set_solver|]. rewrite elem_of_app, IH. set_solver.
Qed.

Lemma concat_insert (fs : list (list Z)) k ps :
  fs !! k = Some ps →
  ∃ rest, concat fs ≡ₚ ps ++ rest ∧ (∀ x, concat (<[k := x]> fs) ≡ₚ x ++ rest) ∧
    ∀ j qs, j ≠ k → fs !! j = Some qs → ∀ q, q ∈ qs → q ∈ rest.
Proof.
  revert k. induction fs as [|f fs IH]; intros [|k] Hk; simplify_eq/=.
  - exists (concat fs). split_and!; [done..|]. intros [|j] qs Hj Hqs q Hq; [done|].
    simpl in Hqs. apply list_elem_of_lookup_2 in Hqs. apply elem_of_concat. by exists qs.
  - destruct (IH k Hk) as (rest & H1 & H2 & H3). exists (f ++ rest). split_and!.
    + rewrite H1. solve_Permutation.
    + intros x. rewrite (H2 x). solve_Permutation.
    + intros [|j] qs Hj Hqs q Hq; simplify_eq/=; [by apply elem_of_app; left|].
      apply elem_of_app. right. eapply (H3 j); [congruence|done..].
Qed.

(** One list is replaced; the links of the others stay. *)
Lemma lists_ok_update a fs k ps ps' head' h' :
  lists_ok a fs → fs !! k = Some ps → dll h' 0 head' ps' → NoDup ps' →
  (∀ p, p ∈ concat fs → p ∉ ps → h' !! p = heap a !! p) →
  (∀ p, p ∈ ps' → p ∈ ps ∨ p ∉ concat fs) →
  lists_ok (with_lists a (<[k := head']> (lists a)) h') (<[k := ps']> fs).
Proof.
  intros [H1 H2 H3 H4] Hk Hd Hnd Hh Hin.
  destruct (concat_insert fs k ps Hk) as (rest & Hp & Hp' & Hrest).
  rewrite Hp in H3. apply NoDup_app in H3 as (_ & Hdis & Hndr).
  split; simpl; [by rewrite zlen_insert|by rewrite zlen_insert| |].
  - rewrite (Hp' ps'). apply NoDup_app. split_and!; [done| |done].
    intros p Hpin Hpr. destruct (Hin p Hpin) as [Hps|Hno]; [by eapply Hdis|].
    apply Hno. rewrite Hp. apply elem_of_app. by right.
  - intros j qs Hqs. pose proof (lookup_lt_Some _ _ _ Hk) as Hlt.
    destruct (decide (j = k)) as [->|Hne].
    + rewrite list_lookup_insert_eq in Hqs by done. simplify_eq. exists head'.
      rewrite list_lookup_insert_eq by (unfold zlen in *; lia). done.
    + rewrite list_lookup_insert_ne in Hqs by done. destruct (H4 j qs Hqs) as (head & Hhead & Hdj).
      exists head. rewrite list_lookup_insert_ne by done. split; [done|].
      eapply dll_frame; [|done]. intros p Hpin. pose proof (Hrest j qs Hne Hqs p Hpin) as Hr.
      apply Hh; [rewrite Hp; apply elem_of_app; by right|]. intros ?. by eapply Hdis.
Qed.

Lemma lists_index a fs k ps :
  lists_ok a fs → fs !! k = Some ps → 0 ≤ Z.of_nat k < NUM_LISTS ∧ ∃ head,
    rd (lists a) (Z.of_nat k) = Ret head ∧ dll (heap a) 0 head ps ∧ NoDup ps.
Proof.
  intros [H1 H2 H3 H4] Hk. pose proof (lookup_lt_Some _ _ _ Hk). split; [unfold zlen in *; lia|].
  destruct (H4 k ps Hk) as (head & Hhead & Hd). exists head. split.
  - apply rd_Some; [lia|]. by rewrite Nat2Z.id.
  - split; [done|]. destruct (concat_insert fs k ps Hk) as (rest & Hp & _). rewrite Hp in H3.
    by apply NoDup_app in H3 as (? & _ & _).
Qed.

Lemma load_ok h p n : p ≠ 0 → h !! p = Some n → load h p = Ret n.
Proof. intros Hp Hn. unfold load. rewrite Hn. by destruct (Z.eqb_spec p 0). Qed.
Lemma store_ok h p n : p ≠ 0 → store h p n = Ret (<[p := n]> h).
Proof. intros Hp. unfold store. by destruct (Z.eqb_spec p 0). Qed.

Lemma append_ok a fs k ps ptr :
  lists_ok a fs → fs !! k = Some ps → ptr ≠ 0 → ptr ∉ concat fs →
  ∃ l h, append a (Z.of_nat k) ptr = Ret (with_lists a l h) ∧
    lists_ok (with_lists a l h) (<[k := ptr :: ps]> fs).
Proof.
  intros Hok Hk Hptr Hfresh. destruct (lists_index a fs k ps Hok Hk) as (Hi & head & Hhead & Hd & Hnd).
  assert (ptr ∉ ps) as Hnin.
  { intros ?. apply Hfresh. destruct (concat_insert fs k ps Hk) as (rest & -> & _). apply elem_of_app. by left. }
  unfold append. replace ((0 <=? Z.of_nat k) && (Z.of_nat k <? NUM_LISTS)) with true by lia.
  cbn [c_assert mbind outcome_bind]. rewrite Hhead. cbn [mbind outcome_bind].
  assert (∃ h1, (if negb (head =? 0) then n ← load (heap a) head; store (heap a) head (mkPage ptr (next n))
                 else Ret (heap a)) = Ret h1 ∧ dll h1 ptr head ps ∧
            ∀ p, p ∉ ps → h1 !! p = heap a !! p) as (h1 & -> & Hd1 & Hh1).
  { destruct ps as [|p ps]; [simpl in Hd; subst head; simpl; by eexists|].
    pose proof Hd as (-> & Hp & nx & Hl & _). destruct (Z.eqb_spec p 0); [done|]. cbn [negb].
    rewrite (load_ok _ _ _ Hp Hl). cbn [mbind outcome_bind]. rewrite store_ok by done.
    eexists. split; [done|]. split; [by eapply dll_relink|]. intros q Hq.
    rewrite lookup_insert_ne; [done|]. set_solver. }
  cbn [mbind outcome_bind]. rewrite store_ok, wr_ok by (done || rewrite (heads_len a fs Hok); lia).
  cbn [mbind outcome_bind]. eexists _, _. split; [done|]. rewrite Nat2Z.id.
  eapply lists_ok_update; [done..| | | |].
  - split_and!; [done..|]. exists head. rewrite lookup_insert_eq. split; [done|].
    eapply dll_frame; [|done]. intros p Hp. rewrite lookup_insert_ne; [done|]. by intros ->.
  - by apply NoDup_cons.
  - intros p Hp Hps. rewrite lookup_insert_ne by (by intros ->). by apply Hh1.
  - intros p [->|?]%elem_of_cons; [by right|by left].
Qed.

Lemma pop_ok a fs k p ps :
  lists_ok a fs → fs !! k = Some (p :: ps) →
  ∃ l h, pop a (Z.of_nat k) = Ret (with_lists a l h, p) ∧
    lists_ok (with_lists a l h) (<[k := ps]> fs).
Proof.
  intros Hok Hk. destruct (lists_index a fs k _ Hok Hk) as (Hi & head & Hhead & Hd & Hnd).
  unfold pop. replace ((0 <=? Z.of_nat k) && (Z.of_nat k <? NUM_LISTS)) with true by lia.
  cbn [c_assert mbind outcome_bind]. rewrite Hhead. destruct Hd as (-> & Hp & nx & Hl & Hd).
  cbn [mbind outcome_bind]. destruct (Z.eqb_spec p 0); [done|]. cbn [negb c_assert mbind outcome_bind].
  rewrite (load_ok _ _ _ Hp Hl). cbn [mbind outcome_bind next].
  rewrite wr_ok by (rewrite (heads_len a fs Hok); lia). cbn [mbind outcome_bind].
  apply NoDup_cons in Hnd as [Hnin Hnd].
  assert (∃ h1, (if negb (nx =? 0) then n2 ← load (heap a) nx; store (heap a) nx (mkPage 0 (next n2))
                 else Ret (heap a)) = Ret h1 ∧ dll h1 0 nx ps ∧
            ∀ p, p ∉ ps → h1 !! p = heap a !! p) as (h1 & -> & Hd1 & Hh1).
  { destruct ps as [|q ps]; [simpl in Hd; subst nx; simpl; by eexists|].
    pose proof Hd as (-> & Hq & nx & Hlq & _). destruct (Z.eqb_spec q 0); [done|]. cbn [negb].
    rewrite (load_ok _ _ _ Hq Hlq). cbn [mbind outcome_bind]. rewrite store_ok by done.
    eexists. split; [done|]. split; [by eapply dll_relink|]. intros r Hr.
    rewrite lookup_insert_ne; [done|]. set_solver. }
  cbn [mbind outcome_bind]. eexists _, _. split; [done|]. rewrite Nat2Z.id.
  eapply lists_ok_update; [done..| |]; [intros r _ Hr; apply Hh1; set_solver|intros r Hr; left; by right].
Qed.

(** The predecessor of a page that is taken out, or the head of the list, gets
    its successor. *)
Lemma unlink_before a fs k head ps1 q nx :
  lists_ok a fs → rd (lists a) (Z.of_nat k) = Ret head → 0 ≤ Z.of_nat k < NUM_LISTS → NoDup ps1 → seg (heap a) 0 head ps1 q →
  ∃ h1 head1, (if negb (last_or 0 ps1 =? 0) then
       p ← load (heap a) (last_or 0 ps1);
       h ← store (heap a) (last_or 0 ps1) (mkPage (prev p) nx);
       Ret (with_lists a (lists a) h)
     else l ← wr (lists a) (Z.of_nat k) nx; Ret (with_lists a l (heap a))) =
    Ret (with_lists a (<[k := head1]> (lists a)) h1) ∧ seg h1 0 head1 ps1 nx ∧
    ∀ p, p ∉ ps1 → h1 !! p = heap a !! p.
Proof.
  intros Hok Hhead Hk Hnd1 Hseg. destruct ps1 as [|lp ps1 _] using rev_ind.
  - simpl. rewrite wr_ok by (rewrite (heads_len a fs Hok); lia). cbn [mbind outcome_bind].
    rewrite Nat2Z.id. eexists _, nx. done.
  - assert (last_or 0 (ps1 ++ [lp]) = lp) as -> by by unfold last_or; rewrite last_snoc.
    apply seg_snoc in Hseg as (Hseg & Hlp & Hll). destruct (Z.eqb_spec lp 0); [done|]. cbn [negb].
    rewrite (load_ok _ _ _ Hlp Hll). cbn [mbind outcome_bind]. rewrite store_ok by done. cbn [mbind outcome_bind prev].
    eexists _, head. split.
    { do 2 f_equal. symmetry. apply list_insert_id. apply rd_inv in Hhead as [_ Hhead]. by rewrite Nat2Z.id in Hhead. }
    apply NoDup_app in Hnd1 as (_ & Hdl & _). split.
    + apply seg_snoc. rewrite lookup_insert_eq. split_and!; [|done..].
      eapply seg_frame; [|done]. intros p Hp. rewrite lookup_insert_ne; [done|]. intros ->.
      eapply Hdl; [done|]. by left.
    + intros p Hp. rewrite lookup_insert_ne; [done|]. set_solver.
Qed.

(** The successor, if any, gets its predecessor. *)
Lemma unlink_after a q nx ps2 before :
  dll (heap a) q nx ps2 → NoDup ps2 →
  ∃ h2, (if negb (nx =? 0) then
       n ← load (heap a) nx; h ← store (heap a) nx (mkPage before (next n));
       Ret (with_lists a (lists a) h)
     else Ret a) = Ret (with_lists a (lists a) h2) ∧ dll h2 before nx ps2 ∧
    ∀ p, p ∉ ps2 → h2 !! p = heap a !! p.
Proof.
  intros Hd1 Hnd2. destruct ps2 as [|r ps2].
  { simpl in Hd1. subst nx. simpl. exists (heap a). by destruct a. }
  pose proof Hd1 as (-> & Hr & nr & Hlr & _). destruct (Z.eqb_spec r 0); [done|]. cbn [negb].
  rewrite (load_ok _ _ _ Hr Hlr). cbn [mbind outcome_bind]. rewrite store_ok by done.
  eexists. split; [done|]. split; [by eapply dll_relink|]. intros p Hp.
  rewrite lookup_insert_ne; [done|]. set_solver.
Qed.

Lemma remove_sibling_ok a fs k ps1 q ps2 ptr :
  lists_ok a fs → fs !! k = Some (ps1 ++ q :: ps2) → (k ≤ TOP)%nat → sibling_of ptr (bs k) = Ret q →
  ∃ l h, remove_sibling_from_list a (Z.of_nat k) ptr = Ret (with_lists a l h) ∧
    lists_ok (with_lists a l h) (<[k := ps1 ++ ps2]> fs).
Proof.
  intros Hok Hk Hktop Hsib. destruct (lists_index a fs k _ Hok Hk) as (Hi & head & Hhead & Hd & Hnd).
  unfold remove_sibling_from_list. rewrite shl_1U_bs by done. cbn [mbind outcome_bind].
  rewrite Hsib. cbn [mbind outcome_bind].
  apply dll_app in Hd as (m & Hseg & -> & Hq & nx & Hl & Hd).
  rewrite (load_ok _ _ _ Hq Hl). cbn [mbind outcome_bind prev next].
  apply NoDup_app in Hnd as Hnd'. destruct Hnd' as (Hnd1 & Hdis & [Hqn Hnd2]%NoDup_cons).
  destruct (unlink_before a fs k head ps1 q nx) as (h1 & head1 & -> & Hseg1 & Hh1);
    [done..|].
  cbn [mbind outcome_bind with_lists heap lists].
  assert (q ∉ ps1) as Hq1 by (intros ?; eapply Hdis; [done|by left]).
  rewrite (load_ok h1 q (mkPage (last_or 0 ps1) nx)) by (done || by rewrite Hh1).
  cbn [mbind outcome_bind prev next].
  assert (dll h1 q nx ps2) as Hd1.
  { eapply dll_frame; [|done]. intros p Hp. apply Hh1. intros ?. eapply Hdis; [done|by right]. }
  destruct (unlink_after (with_lists a (<[k:=head1]> (lists a)) h1) q nx ps2 (last_or 0 ps1) Hd1 Hnd2)
    as (h2 & Heq & Hd2 & Hh2). simpl in Heq, Hh2. rewrite Heq. clear Heq.
  eexists _, _. split; [done|]. eapply lists_ok_update; [done..| | | |].
  - apply dll_app. exists nx. split; [|done]. eapply seg_frame; [|done].
    intros p Hp. apply Hh2. intros ?. eapply Hdis; [done|by right].
  - apply NoDup_app. split_and!; [done| |done]. intros p Hp ?. eapply Hdis; [done|by right].
  - intros p _ Hp. rewrite Hh2, Hh1; [done|set_solver..].
  - intros p Hp. left. set_solver.
Qed.
