(* ===== verification/BuddySpec.v ===== *)
(** The buddy allocator against its division of the pool into blocks: the
    invariant, and what each operation does to the blocks. *)
From S2P Require Import Prelude Bits BuddyTree Buddy BuddyBits BuddyList.

(** ** The state and the blocks *)

Record holds (a : buddy) (bl : list block) : Prop := {
  h_shape : shape a;
  h_chain : chain (base a) bl (base a + size a);
  h_aligned : ∀ p k x, (p, k, x) ∈ bl → (bs k | p) ∧ (k ≤ TOP)%nat;
  h_bits : ∀ p k, valid a p k → bit a p k = true ↔ (p, k, Used) ∈ bl;
  h_lists : ∃ fs, lists_ok a fs ∧ ∀ k ps, fs !! k = Some ps → ps ≡ₚ at_level Free k bl;
}.

Lemma h_valid a bl p k x : holds a bl → (p, k, x) ∈ bl → valid a p k.
Proof.
  intros H Hin. destruct (h_aligned a bl H _ _ _ Hin). destruct (chain_in _ _ _ _ _ _ (h_chain a bl H) Hin).
  by split_and!.
Qed.

Lemma elem_of_mid (L R : list block) b c : c ∈ L ++ b :: R ↔ c = b ∨ c ∈ L ++ R.
Proof. rewrite !elem_of_app, elem_of_cons. tauto. Qed.

Lemma chain_relabel p L q k x y R e : chain p (L ++ (q, k, x) :: R) e → chain p (L ++ (q, k, y) :: R) e.
Proof. rewrite !chain_app. simpl. done. Qed.

Lemma at_level_mid x j L q k y R :
  at_level x j (L ++ (q, k, y) :: R) ≡ₚ (if decide (k = j ∧ y = x) then [q] else []) ++ at_level x j (L ++ R).
Proof.
  change ((q, k, y) :: R) with ([(q, k, y)] ++ R). rewrite !at_level_app, at_level_one. solve_Permutation.
Qed.

(** Blocks of one address are one block. *)
Lemma same_start a bl p k x j y : holds a bl → (p, k, x) ∈ bl → (p, j, y) ∈ bl → k = j ∧ x = y.
Proof.
  intros H H1 H2. pose proof (bs_pos k). pose proof (bs_pos j).
  destruct (chain_disjoint _ _ _ _ _ _ _ _ _ (h_chain a bl H) H1 H2) as [|[]]; [by simplify_eq|lia..].
Qed.

(** An operation on the links and the heads leaves the rest as it is. *)
Lemma holds_with_lists a bl bl' l h :
  holds a bl → chain (base a) bl' (base a + size a) →
  (∀ p k x, (p, k, x) ∈ bl' → ∃ x', (p, k, x') ∈ bl) →
  (∀ p k, (p, k, Used) ∈ bl' ↔ (p, k, Used) ∈ bl) →
  (∃ fs, lists_ok (with_lists a l h) fs ∧ ∀ k ps, fs !! k = Some ps → ps ≡ₚ at_level Free k bl') →
  holds (with_lists a l h) bl'.
Proof.
  intros [Hs Hc Ha Hb _] Hc' Hin Hu Hl. split; simpl; [|done| | |done].
  - by destruct Hs; split.
  - intros p k x (x' & Hx)%Hin. by eapply Ha.
  - intros p k Hv. rewrite Hu. by apply Hb.
Qed.

Section relabel.
Context (a : buddy) (L R : list block) (p : Z) (k : nat).

Lemma fs_mid bl fs x :
  bl = L ++ (p, k, x) :: R → holds a bl → lists_ok a fs →
  (∀ k ps, fs !! k = Some ps → ps ≡ₚ at_level Free k bl) →
  ∃ ps, fs !! k = Some ps ∧ (x = Free → p ∈ ps) ∧ (x ≠ Free → p ∉ concat fs).
Proof.
  intros -> H Hok Hfs. assert ((p, k, x) ∈ L ++ (p, k, x) :: R) as Hin by (apply elem_of_mid; by left).
  destruct (h_aligned a _ H _ _ _ Hin) as [_ Hk]. unfold TOP in Hk.
  destruct (lookup_lt_is_Some_2 fs k) as [ps Hps].
  { pose proof (fs_len a fs Hok) as Hl. unfold zlen, NUM_LISTS, MAX_BLOCK_LOG2, MIN_BLOCK_LOG2 in Hl. lia. }
  exists ps. split; [done|]. split.
  - intros ->. rewrite (Hfs _ _ Hps). by apply elem_of_at_level.
  - intros Hx (qs & Hq & (j & Hj)%list_elem_of_lookup)%elem_of_concat.
    rewrite (Hfs _ _ Hj) in Hq. apply elem_of_at_level in Hq.
    by destruct (same_start _ _ _ _ _ _ _ H Hin Hq).
Qed.

(** A block in limbo goes on its free list. *)
Lemma holds_append :
  holds a (L ++ (p, k, Limbo) :: R) →
  ∃ l h, append a (Z.of_nat k) p = Ret (with_lists a l h) ∧
    holds (with_lists a l h) (L ++ (p, k, Free) :: R).
Proof.
  intros H. destruct (h_lists _ _ H) as (fs & Hok & Hfs).
  destruct (fs_mid _ fs Limbo eq_refl H Hok Hfs) as (ps & Hps & _ & Hfresh).
  assert (p ≠ 0) as Hp.
  { destruct (chain_in _ _ _ p k Limbo (h_chain _ _ H)); [apply elem_of_mid; by left|].
    pose proof (base_pos _ (h_shape _ _ H)). lia. }
  destruct (append_ok a fs k ps p Hok Hps Hp (Hfresh ltac:(done))) as (l & h & Hrun & Hok').
  exists l, h. split; [done|]. eapply holds_with_lists; [done| | | |].
  - eapply chain_relabel, (h_chain _ _ H).
  - intros q j x [?|?]%elem_of_mid; [simplify_eq; exists Limbo|exists x]; apply elem_of_mid; [by left|by right].
  - intros q j. rewrite !elem_of_mid. naive_solver.
  - exists (<[k := p :: ps]> fs). split; [done|]. intros j qs Hqs. rewrite at_level_mid.
    pose proof (lookup_lt_Some _ _ _ Hps). destruct (decide (j = k)) as [->|Hne].
    + rewrite list_lookup_insert_eq in Hqs by done. simplify_eq. rewrite decide_True by done.
      rewrite (Hfs _ _ Hps), at_level_mid, decide_False by naive_solver. done.
    + rewrite list_lookup_insert_ne in Hqs by done. rewrite decide_False by naive_solver.
      rewrite (Hfs _ _ Hqs), at_level_mid, decide_False by naive_solver. done.
Qed.

(** A block leaves its free list. *)
Lemma holds_unfree fs ps1 ps2 l h :
  holds a (L ++ (p, k, Free) :: R) → lists_ok a fs →
  (∀ j ps, fs !! j = Some ps → ps ≡ₚ at_level Free j (L ++ (p, k, Free) :: R)) →
  fs !! k = Some (ps1 ++ p :: ps2) → lists_ok (with_lists a l h) (<[k := ps1 ++ ps2]> fs) →
  holds (with_lists a l h) (L ++ (p, k, Limbo) :: R).
Proof.
  intros H Hok Hfs Hps Hok'. eapply holds_with_lists; [done| | | |].
  - eapply chain_relabel, (h_chain _ _ H).
  - intros q j x [?|?]%elem_of_mid; [simplify_eq; exists Free|exists x]; apply elem_of_mid; [by left|by right].
  - intros q j. rewrite !elem_of_mid. naive_solver.
  - eexists. split; [done|]. intros j qs Hqs. rewrite at_level_mid, decide_False by naive_solver.
    pose proof (lookup_lt_Some _ _ _ Hps). destruct (decide (j = k)) as [->|Hne].
    + rewrite list_lookup_insert_eq in Hqs by done. simplify_eq.
      pose proof (Hfs _ _ Hps) as Hp. rewrite at_level_mid, decide_True in Hp by done.
      apply (Permutation_cons_inv (a := p)). by rewrite <-Hp, Permutation_middle.
    + rewrite list_lookup_insert_ne in Hqs by done.
      rewrite (Hfs _ _ Hqs), at_level_mid, decide_False by naive_solver. done.
Qed.

Lemma holds_remove ptr :
  holds a (L ++ (p, k, Free) :: R) → sibling_of ptr (bs k) = Ret p →
  ∃ l h, remove_sibling_from_list a (Z.of_nat k) ptr = Ret (with_lists a l h) ∧
    holds (with_lists a l h) (L ++ (p, k, Limbo) :: R).
Proof.
  intros H Hsib. destruct (h_lists _ _ H) as (fs & Hok & Hfs).
  destruct (fs_mid _ fs Free eq_refl H Hok Hfs) as (ps & Hps & Hin & _).
  destruct (list_elem_of_split ps p) as (ps1 & ps2 & ->); [by apply Hin|].
  destruct (h_aligned a _ H p k Free) as [_ Hk]; [apply elem_of_mid; by left|].
  destruct (remove_sibling_ok a fs k ps1 p ps2 ptr Hok Hps Hk Hsib) as (l & h & Hrun & Hok').
  exists l, h. split; [done|]. by eapply holds_unfree.
Qed.

(** Marking. *)
Lemma holds_set (value : bool) :
  holds a (L ++ (p, k, if value then Limbo else Used) :: R) →
  ∃ ts, set_allocated a p (bs k) value = Ret (with_trees a ts) ∧
    holds (with_trees a ts) (L ++ (p, k, if value then Used else Limbo) :: R).
Proof.
  intros H. assert (valid a p k) as Hv by (eapply h_valid; [done|apply elem_of_mid; by left]).
  destruct (set_allocated_ok a p k value (h_shape _ _ H) Hv) as (ts & Hrun & Hs & Hbit).
  exists ts. split; [done|]. split; [done| | | |].
  - eapply chain_relabel, (h_chain _ _ H).
  - intros q j x [?|?]%elem_of_mid; [simplify_eq|]; eapply (h_aligned _ _ H); apply elem_of_mid; eauto.
  - intros q j Hq. rewrite (Hbit q j Hq). case_decide as Hd.
    + destruct Hd as [-> ->]. destruct value; [split; [intros _; apply elem_of_mid; by left|done]|].
      split; [done|]. intros [?|Hin]%elem_of_mid; [done|].
      pose proof (h_chain _ _ H) as Hc. apply chain_app in Hc as (m & Hc1 & -> & Hc2).
      pose proof (bs_pos k). apply elem_of_app in Hin as [Hin|Hin].
      * destruct (chain_in _ _ _ _ _ _ Hc1 Hin). lia.
      * destruct (chain_in _ _ _ _ _ _ Hc2 Hin). lia.
    + rewrite (h_bits _ _ H q j Hq), !elem_of_mid. destruct value; naive_solver.
  - destruct (h_lists _ _ H) as (fs & Hok & Hfs). exists fs. split; [by destruct Hok; split|].
    intros j ps Hps. rewrite (Hfs _ _ Hps), !at_level_mid.
    by destruct value; rewrite !decide_False by naive_solver.
Qed.
End relabel.

(** A block in limbo is as good as its halves. *)
Lemma holds_halves a L p k R :
  (bs (S k) | p) → (S k ≤ TOP)%nat →
  holds a (L ++ (p, S k, Limbo) :: R) ↔ holds a (L ++ (p, k, Limbo) :: (p + bs k, k, Limbo) :: R).
Proof.
  intros Hp Hk.
  assert (bs k | p) by (etrans; [apply (bs_divide k (S k)); lia|done]).
  assert (bs k | p + bs k) by (apply Z.divide_add_r; [done|apply Z.divide_refl]).
  assert (∀ q j x, x ≠ Limbo → (q, j, x) ∈ L ++ (p, S k, Limbo) :: R ↔
            (q, j, x) ∈ L ++ (p, k, Limbo) :: (p + bs k, k, Limbo) :: R) as Hin.
  { intros q j x Hx. rewrite !elem_of_app, !elem_of_cons. naive_solver. }
  assert (∀ j, at_level Free j (L ++ (p, S k, Limbo) :: R) ≡ₚ
            at_level Free j (L ++ (p, k, Limbo) :: (p + bs k, k, Limbo) :: R)) as Hl.
  { intros j. rewrite !at_level_mid.
    do 2 (destruct (decide (_ ∧ _)) as [[_ ?]|_]; [done|]). done. }
  assert (chain (base a) (L ++ (p, S k, Limbo) :: R) (base a + size a) ↔
          chain (base a) (L ++ (p, k, Limbo) :: (p + bs k, k, Limbo) :: R) (base a + size a)) as Hc.
  { rewrite !chain_app. simpl. rewrite bs_S.
    assert (∀ m, m + 2 * bs k = m + bs k + bs k) as Hm by (intros; lia). setoid_rewrite Hm. naive_solver. }
  split; intros [H1 H2 H3 H4 H5]; split; try done.
  - by apply Hc.
  - intros q j x. rewrite elem_of_app, !elem_of_cons. intros [|[|[|]]]; simplify_eq; [|split; [done|lia]..|];
      (eapply H3; rewrite elem_of_app, elem_of_cons; eauto).
  - intros q j Hq. rewrite H4 by done. by apply Hin.
  - destruct H5 as (fs & Hok & Hfs). exists fs. split; [done|]. intros j ps Hps. by rewrite <-Hl, <-(Hfs _ _ Hps).
  - by apply Hc.
  - intros q j x. rewrite elem_of_app, !elem_of_cons. intros [|[|]]; simplify_eq; [|done|];
      (eapply H3; rewrite elem_of_app, !elem_of_cons; eauto).
  - intros q j Hq. rewrite H4 by done. symmetry. by apply Hin.
  - destruct H5 as (fs & Hok & Hfs). exists fs. split; [done|]. intros j ps Hps. by rewrite Hl, <-(Hfs _ _ Hps).
Qed.

(** ** The search for allocated parts *)

(** The end of a chain is determined. *)
Lemma chain_end p bl e e' : chain p bl e → chain p bl e' → e = e'.
Proof.
  revert p. induction bl as [|[[q k] x] bl IH]; intros p; simpl; [congruence|].
  intros [-> H1] [_ H2]. by eapply IH.
Qed.
Lemma leaves_start s p k : wf s k → ∃ j x bl, leaves s p k = (p, j, x) :: bl.
Proof.
  revert p k. induction s as [y|l IHl r IHr]; intros p [|k]; simpl; try done.
  - by exists 0%nat, y, [].
  - by exists (S k), y, [].
  - intros [Hl Hr]. destruct (IHl p k Hl) as (j & x & bl & ->). simpl. eauto.
Qed.

(** The blocks around a part of the pool end and start at its borders. *)
Lemma chain_part p0 L s p k R e :
  wf s k → chain p0 (L ++ leaves s p k ++ R) e → chain p0 L p ∧ chain (p + bs k) R e.
Proof.
  intros Hwf (m & Hc1 & (m' & Hc2 & Hc3)%chain_app)%chain_app.
  destruct (leaves_start s p k Hwf) as (j & x & bl & Hl).
  pose proof (chain_leaves s p k Hwf) as Hs. rewrite Hl in *. destruct Hc2 as [-> Hc2].
  split; [done|]. assert (m' = m + bs k) as <-; [|done]. by eapply chain_end; [|apply Hs]; split.
Qed.

Lemma bit_of_part a L s p k R q j :
  holds a (L ++ leaves s p k ++ R) → wf s k → p ≤ q → q + bs j ≤ p + bs k → valid a q j →
  bit a q j = true ↔ (q, j, Used) ∈ leaves s p k.
Proof.
  intros H Hwf Hpq Hqe Hv. rewrite (h_bits _ _ H q j Hv), !elem_of_app.
  destruct (chain_part _ _ _ _ _ _ _ Hwf (h_chain _ _ H)) as [HL HR]. pose proof (bs_pos j).
  split; [|tauto]. intros [Hin|[?|Hin]]; [|done|].
  - destruct (chain_in _ _ _ _ _ _ HL Hin). lia.
  - destruct (chain_in _ _ _ _ _ _ HR Hin). lia.
Qed.

Lemma leaves_level s p k q j x : (q, j, x) ∈ leaves s p k → (j ≤ k)%nat.
Proof.
  revert p k. induction s as [y|l IHl r IHr]; intros p k; simpl.
  - intros ?%list_elem_of_singleton. by simplify_eq.
  - destruct k as [|k]; [set_solver|]. intros [?%IHl|?%IHr]%elem_of_app; lia.
Qed.

Lemma leaf_range s p k q j x : wf s k → (q, j, x) ∈ leaves s p k → p ≤ q ∧ q + bs j ≤ p + bs k.
Proof. intros Hwf. apply chain_in. by apply chain_leaves. Qed.

Lemma considering_splits_ok a p k s fuel :
  shape a → wf s k → valid a p k → (k < fuel)%nat →
  (∀ q j, valid a q j → (j ≤ k)%nat → p ≤ q → q + bs j ≤ p + bs k →
     bit a q j = true ↔ (q, j, Used) ∈ leaves s p k) →
  ∃ b, considering_splits fuel a p (bs k) = Ret b ∧ (b = true ↔ has Used s).
Proof.
  intros Hsh. revert p k s. induction fuel as [|fuel IH]; intros p k s Hwf Hv Hf Hbits; [lia|].
  pose proof (Hbits p k Hv ltac:(lia) ltac:(lia) ltac:(lia)) as Hbit.
  cbn [considering_splits]. destruct k as [|k].
  { change (bs 0 =? MIN_BLOCK_SIZE) with true. cbv iota. rewrite is_allocated_ok by done.
    exists (bit a p 0). split; [done|]. rewrite Hbit. destruct s as [y|]; [|done].
    simpl. rewrite list_elem_of_singleton. naive_solver. }
  destruct (Z.eqb_spec (bs (S k)) MIN_BLOCK_SIZE) as [Heq|_].
  { pose proof (bs_lt 0 (S k)). change MIN_BLOCK_SIZE with (bs 0) in Heq. lia. }
  rewrite is_allocated_ok by done. cbn [mbind outcome_bind].
  pose proof Hv as (Hv1 & Hv2 & Hv3 & Hv4). pose proof (bs_S k) as HS. pose proof (bs_pos k).
  destruct (bit a p (S k)).
  { exists true. split; [done|]. split; [intros _|done]. destruct s as [y|l r].
    - assert ((p, S k, Used) ∈ leaves (Leaf y) p (S k)) as Hin by by apply Hbit.
      apply list_elem_of_singleton in Hin. by simplify_eq.
    - assert ((p, S k, Used) ∈ leaves (Node l r) p (S k)) as Hin by by apply Hbit.
      simpl in Hin. apply elem_of_app in Hin as [?%leaves_level|?%leaves_level]; lia. }
  rewrite bs_half by lia.
  assert (bs k | p) by (etrans; [apply (bs_divide k (S k)); lia|done]).
  assert (valid a p k) as Hvl by (split_and!; [lia|lia|done|lia]).
  assert (valid a (p + bs k) k) as Hvr.
  { split_and!; [lia|lia| |lia]. apply Z.divide_add_r; [done|apply Z.divide_refl]. }
  (* the trees of the halves *)
  assert (∃ l r, wf l k ∧ wf r k ∧ (has Used l ∨ has Used r ↔ has Used s) ∧
    (∀ q j, (j ≤ k)%nat → q + bs j ≤ p + bs k →
       (q, j, Used) ∈ leaves s p (S k) ↔ (q, j, Used) ∈ leaves l p k) ∧
    (∀ q j, (j ≤ k)%nat → p + bs k ≤ q →
       (q, j, Used) ∈ leaves s p (S k) ↔ (q, j, Used) ∈ leaves r (p + bs k) k))
    as (l & r & Hl & Hr & Hlr & Hinl & Hinr).
  { destruct s as [y|l r].
    - assert (y ≠ Used) as Hy by (intros ->; destruct Hbit as [_ Hbit]; simpl in Hbit;
        specialize (Hbit ltac:(by left)); done).
      exists (Leaf y), (Leaf y). split_and!; [by destruct k|by destruct k|simpl; tauto| |];
        intros q j ??; simpl; rewrite !list_elem_of_singleton; naive_solver.
    - destruct Hwf as [Hl Hr]. exists l, r. split_and!; [done..| |]; intros q j ? Hq; simpl;
        rewrite elem_of_app; (split; [intros [Hin|Hin]|tauto]); try done;
        apply leaf_range in Hin; try done; pose proof (bs_pos j); lia. }
  destruct (IH p k l Hl Hvl) as (b1 & -> & Hb1); [lia| |].
  { intros q j Hq Hj ??. rewrite Hbits; [by apply Hinl|done|lia..]. }
  cbn [mbind outcome_bind]. destruct b1; [exists true; split; [done|]; naive_solver|].
  destruct (IH (p + bs k) k r Hr Hvr) as (b2 & -> & Hb2); [lia| |].
  { intros q j Hq Hj ??. rewrite Hbits; [by apply Hinr|done|lia..]. }
  exists b2. split; [done|]. naive_solver.
Qed.

Lemma is_allocated_considering_splits_ok a L s p k R :
  holds a (L ++ leaves s p k ++ R) → wf s k → valid a p k →
  ∃ b, is_allocated_considering_splits a p (bs k) = Ret b ∧ (b = true ↔ has Used s).
Proof.
  intros H Hwf Hv. apply considering_splits_ok; [apply H|done|done| |].
  - unfold bs. rewrite Z.log2_pow2 by lia. lia.
  - intros q j Hq _ ??. by eapply bit_of_part.
Qed.

(** ** The invariant *)

Record Inv (a : buddy) (ts : list tree) : Prop := {
  i_holds : holds a (blocks ts (base a));
  i_wf : Forall (λ t, wf t TOP) ts;
  i_normal : Forall normal ts;
  i_settled : Forall (λ t, ¬ has Limbo t) ts;
}.

(** The address of the subtree of height [k] at the end of [w], in the page
    behind [ts1]. *)
Definition place (a : buddy) (ts1 : list tree) (w : path) (k : nat) : Z :=
  addr w k (base a + bs TOP * zlen ts1).

(** In the middle of an operation: one block of level [k] is in limbo. *)
Record Mid (a : buddy) (ts1 : list tree) (w : path) (k : nat) (ts2 : list tree) : Prop := {
  m_top : TOP = (k + length w)%nat;
  m_holds : holds a (blocks (ts1 ++ plug w (Leaf Limbo) :: ts2) (base a));
  m_wf : Forall (λ t, wf t TOP) (ts1 ++ plug w (Leaf Limbo) :: ts2);
  m_normal : Forall normal (ts1 ++ plug w (Leaf Limbo) :: ts2);
  m_pages : Forall (λ t, ¬ has Limbo t) (ts1 ++ ts2);
  m_path : Forall (λ '(_, t), ¬ has Limbo t) w;
}.

Lemma leaf_has s p k q j x : (q, j, x) ∈ leaves s p k → has x s.
Proof.
  revert p k. induction s as [y|l IHl r IHr]; intros p k; simpl.
  - intros ?%list_elem_of_singleton. by simplify_eq.
  - destruct k as [|k]; [set_solver|]. intros [?%IHl|?%IHr]%elem_of_app; [by left|by right].
Qed.

Section pool.
Context (ts1 ts2 : list tree) (w : path) (k : nat) (Htop : TOP = (k + length w)%nat).

Lemma pool_wf s s' :
  Forall (λ t, wf t TOP) (ts1 ++ plug w s :: ts2) → (wf s k → wf s' k) →
  Forall (λ t, wf t TOP) (ts1 ++ plug w s' :: ts2).
Proof using Htop.
  rewrite !Forall_app, !Forall_cons. intros (H1 & H2 & H3) Hs. split_and!; [done| |done].
  rewrite Htop in H2 |- *. by eapply wf_plug.
Qed.

Lemma pool_wf_sub s : Forall (λ t, wf t TOP) (ts1 ++ plug w s :: ts2) → wf s k.
Proof using Htop.
  rewrite Forall_app, Forall_cons. intros (_ & Hw & _). rewrite Htop in Hw. by eapply wf_sub.
Qed.

Lemma pool_normal s s' :
  Forall normal (ts1 ++ plug w s :: ts2) → normal s' →
  (s' = Leaf Free → match w with [] => True | (_, t) :: _ => t ≠ Leaf Free end) →
  Forall normal (ts1 ++ plug w s' :: ts2).
Proof using.
  rewrite !Forall_app, !Forall_cons. intros (H1 & H2 & H3) Hs Hw. split_and!; [done| |done].
  by eapply normal_plug.
Qed.

Lemma pool_settled s :
  Forall (λ t, ¬ has Limbo t) (ts1 ++ plug w s :: ts2) ↔
  ¬ has Limbo s ∧ Forall (λ t, ¬ has Limbo t) (ts1 ++ ts2) ∧ Forall (λ '(_, t), ¬ has Limbo t) w.
Proof using.
  rewrite !Forall_app, Forall_cons, has_plug.
  assert (Forall (λ '(_, t), ¬ has Limbo t) w ↔ ¬ Exists (λ '(_, t), has Limbo t) w) as ->; [|tauto].
  rewrite <-Forall_Exists_neg. apply Forall_proper; [|done]. by intros [].
Qed.

(** Allocated blocks are the same if the subtree has none before and after. *)
Lemma used_replace s s' root q j :
  ¬ has Used s → ¬ has Used s' →
  (q, j, Used) ∈ blocks (ts1 ++ plug w s :: ts2) root ↔
  (q, j, Used) ∈ blocks (ts1 ++ plug w s' :: ts2) root.
Proof using Htop.
  intros Hs Hs'. rewrite !(blocks_plug _ _ _ _ _ k), !elem_of_app by done.
  pose proof (leaf_has s (addr w k (root + bs TOP * zlen ts1)) k q j Used).
  pose proof (leaf_has s' (addr w k (root + bs TOP * zlen ts1)) k q j Used). tauto.
Qed.

Lemma used_split x root q j :
  (q, j, Used) ∈ blocks (ts1 ++ plug w (Leaf x) :: ts2) root →
  (q, j, Used) = (addr w k (root + bs TOP * zlen ts1), k, x) ∨
  (q, j, Used) ∈ blocks (ts1 ++ plug w (Leaf Limbo) :: ts2) root.
Proof using Htop.
  rewrite !(blocks_plug _ _ _ _ _ k), !elem_of_app by done. simpl.
  rewrite !list_elem_of_singleton. tauto.
Qed.

Lemma used_limbo x root q j :
  (q, j, Used) ∈ blocks (ts1 ++ plug w (Leaf Limbo) :: ts2) root →
  (q, j, Used) ∈ blocks (ts1 ++ plug w (Leaf x) :: ts2) root.
Proof using Htop.
  rewrite !(blocks_plug _ _ _ _ _ k), !elem_of_app by done. simpl.
  rewrite !list_elem_of_singleton. naive_solver.
Qed.
End pool.

Lemma addr_aligned w k root : (bs (k + length w) | root) → (bs k | addr w k root).
Proof.
  revert k. induction w as [|[[] t] w IH]; intros k; simpl; [by rewrite Nat.add_0_r|..];
    rewrite <-Nat.add_succ_comm; intros Hroot%IH;
    assert (bs k | addr w (S k) root) by (etrans; [apply (bs_divide k (S k)); lia|done]); [done|].
  by apply Z.divide_add_r; [|apply Z.divide_refl].
Qed.

Lemma place_aligned a ts1 w k : shape a → TOP = (k + length w)%nat → (bs k | place a ts1 w k).
Proof.
  intros Hs Htop. apply addr_aligned. rewrite <-Htop. apply Z.divide_add_r; [apply Hs|].
  by exists (zlen ts1); rewrite Z.mul_comm.
Qed.

(** ** Steps between them *)

Lemma block_in_limbo a ts k p x :
  Inv a ts → (p, k, x) ∈ blocks ts (base a) →
  ∃ ts1 w ts2, ts = ts1 ++ plug w (Leaf x) :: ts2 ∧ TOP = (k + length w)%nat ∧ p = place a ts1 w k ∧
    ∀ a', base a' = base a → holds a' (blocks (ts1 ++ plug w (Leaf Limbo) :: ts2) (base a)) →
      Mid a' ts1 w k ts2.
Proof.
  intros [Hh Hw Hn Hs] (ts1 & w & ts2 & -> & Htop & ->)%block_path.
  exists ts1, w, ts2. split_and!; [done..|]. intros a' Hb Hh'.
  apply pool_settled in Hs as (_ & Hs1 & Hs2). split; [done|by rewrite Hb| | |done|done].
  - by eapply pool_wf.
  - by eapply pool_normal.
Qed.

Lemma mid_settle a ts1 w k ts2 x :
  Mid a ts1 w k ts2 → x ≠ Limbo →
  (x = Free → match w with [] => True | (_, t) :: _ => t ≠ Leaf Free end) →
  ∀ a', base a' = base a → holds a' (blocks (ts1 ++ plug w (Leaf x) :: ts2) (base a)) →
  Inv a' (ts1 ++ plug w (Leaf x) :: ts2).
Proof.
  intros [Htop Hh Hw Hn H1 H2] Hx Hbud a' Hb Hh'. split; [by rewrite Hb| | |].
  - by eapply pool_wf.
  - eapply pool_normal; [done|done|]. intros ?. apply Hbud. congruence.
  - apply pool_settled. split_and!; [|done..]. simpl. congruence.
Qed.

Lemma mid_append a ts1 w k ts2 :
  Mid a ts1 w k ts2 → match w with [] => True | (_, t) :: _ => t ≠ Leaf Free end →
  ∃ l h, append a (Z.of_nat k) (place a ts1 w k) = Ret (with_lists a l h) ∧
    Inv (with_lists a l h) (ts1 ++ plug w (Leaf Free) :: ts2).
Proof.
  intros Hm Hbud. pose proof Hm as [Htop Hh _ _ _ _]. rewrite (blocks_plug _ _ _ _ _ k) in Hh by done.
  apply holds_append in Hh as (l & h & Hrun & Hh). exists l, h. split; [done|].
  eapply mid_settle; [done..|]. by rewrite (blocks_plug _ _ _ _ _ k).
Qed.

Lemma mid_mark a ts1 w k ts2 :
  Mid a ts1 w k ts2 →
  ∃ ts, set_allocated a (place a ts1 w k) (bs k) true = Ret (with_trees a ts) ∧
    Inv (with_trees a ts) (ts1 ++ plug w (Leaf Used) :: ts2).
Proof.
  intros Hm. pose proof Hm as [Htop Hh _ _ _ _]. rewrite (blocks_plug _ _ _ _ _ k) in Hh by done.
  apply (holds_set _ _ _ _ _ true) in Hh as (ts & Hrun & Hh). exists ts. split; [done|].
  eapply mid_settle; [done..|]. by rewrite (blocks_plug _ _ _ _ _ k).
Qed.

(** Splitting off the upper half of the block in limbo. *)
Lemma mid_split a ts1 w k ts2 :
  Mid a ts1 w (S k) ts2 →
  ∃ l h, append a (Z.of_nat k) (place a ts1 w (S k) + bs k) = Ret (with_lists a l h) ∧
    Mid (with_lists a l h) ts1 ((L, Leaf Free) :: w) k ts2.
Proof.
  intros Hm. pose proof Hm as [Htop Hh Hw Hn H1 H2].
  rewrite (blocks_plug _ _ _ _ _ (S k)) in Hh by done. simpl in Hh.
  pose proof (place_aligned a ts1 w (S k) (h_shape _ _ Hh) Htop) as Hp.
  apply holds_halves in Hh; [|done|lia].
  change (?x ++ (addr _ _ _, k, Limbo) :: ?c :: ?y) with (x ++ [(place a ts1 w (S k), k, Limbo)] ++ c :: y) in Hh.
  rewrite app_assoc in Hh. apply holds_append in Hh as (l & h & Hrun & Hh). exists l, h. split; [done|].
  rewrite <-app_assoc in Hh. split; simpl.
  - simpl. lia.
  - rewrite (blocks_plug ts1 w (Node _ _) ts2 _ (S k)) by done. done.
  - eapply pool_wf; [done..|]. simpl. by destruct k.
  - eapply pool_normal; [done| |done]. simpl. naive_solver.
  - done.
  - by constructor.
Qed.

(** Merging it with its free buddy. *)
Lemma mid_merge a ts1 d w k ts2 :
  Mid a ts1 ((d, Leaf Free) :: w) k ts2 →
  ∃ l h, remove_sibling_from_list a (Z.of_nat k) (place a ts1 ((d, Leaf Free) :: w) k) =
           Ret (with_lists a l h) ∧
    parent_of (place a ts1 ((d, Leaf Free) :: w) k) (bs k) = Ret (place a ts1 w (S k)) ∧
    Mid (with_lists a l h) ts1 w (S k) ts2.
Proof.
  intros Hm. pose proof Hm as [Htop Hh Hw Hn H1 H2]. simpl in Htop.
  assert (TOP = (S k + length w)%nat) as Htop' by lia. assert (k < TOP)%nat as Hk by lia.
  pose proof (place_aligned a ts1 w (S k) (h_shape _ _ Hh) Htop') as Hp.
  assert (∀ a', base a' = base a →
    holds a' (blocks (ts1 ++ plug w (Leaf Limbo) :: ts2) (base a)) → Mid a' ts1 w (S k) ts2) as Hdone.
  { intros a' Hb Hh'. apply Forall_cons in H2 as [_ H2].
    split; [done|by rewrite Hb| | |done|done]; destruct d; simpl in Hw, Hn;
      (by eapply pool_wf) || (by eapply pool_normal). }
  destruct d; simpl in Hh; rewrite (blocks_plug _ _ _ _ _ (S k)) in Hh by done; simpl in Hh.
  - change (addr w (S k) _) with (place a ts1 w (S k)) in Hh.
    change (?x ++ ?b :: ?c :: ?y) with (x ++ [b] ++ c :: y) in Hh. rewrite app_assoc in Hh.
    apply (holds_remove _ _ _ _ _ (place a ts1 w (S k))) in Hh as (l & h & Hrun & Hh); [|by apply sibling_of_left].
    exists l, h. split; [done|]. split; [by apply parent_of_left|]. rewrite <-app_assoc in Hh.
    apply Hdone; [done|]. rewrite (blocks_plug _ _ _ _ _ (S k)) by done.
    apply holds_halves; [done|lia|]. done.
  - change (addr w (S k) _) with (place a ts1 w (S k)) in Hh.
    apply (holds_remove _ _ _ _ _ (place a ts1 w (S k) + bs k)) in Hh as (l & h & Hrun & Hh); [|by apply sibling_of_right].
    exists l, h. split; [done|]. split; [by apply parent_of_right|].
    apply Hdone; [done|]. rewrite (blocks_plug _ _ _ _ _ (S k)) by done.
    apply holds_halves; [done|lia|]. done.
Qed.

(** ** Allocation *)

Lemma head_ok a bl k :
  holds a bl → (k ≤ TOP)%nat →
  ∃ head, rd (lists a) (Z.of_nat k) = Ret head ∧ (head = 0 ↔ ∀ p, (p, k, Free) ∉ bl).
Proof.
  intros H Hk. destruct (h_lists _ _ H) as (fs & Hok & Hfs). unfold TOP in Hk.
  destruct (lookup_lt_is_Some_2 fs k) as [ps Hps].
  { pose proof (fs_len a fs Hok) as Hl. unfold zlen, NUM_LISTS, MAX_BLOCK_LOG2, MIN_BLOCK_LOG2 in Hl. lia. }
  destruct (lists_index a fs k ps Hok Hps) as (_ & head & Hhead & Hd & _). exists head. split; [done|].
  rewrite (dll_head _ _ _ _ Hd). setoid_rewrite <-elem_of_at_level. setoid_rewrite <-(Hfs _ _ Hps).
  split; [intros ->; set_solver|]. intros Hno. destruct ps as [|p ps]; [done|]. destruct (Hno p). by left.
Qed.

Lemma first_nonempty_ok a bl i :
  holds a bl → (i ≤ TOP)%nat →
  ∃ j, first_nonempty a (Z.of_nat i) = Ret (Z.of_nat j) ∧ (i ≤ j ≤ S TOP)%nat ∧
    (∀ m p, (i ≤ m < j)%nat → (p, m, Free) ∉ bl) ∧ ((j ≤ TOP)%nat → ∃ p, (p, j, Free) ∈ bl).
Proof.
  intros H Hi. assert (NUM_LISTS = Z.of_nat (S TOP)) as Hnum by done.
  assert (wp (first_nonempty a (Z.of_nat i)) (λ r, ∃ j, r = Z.of_nat j ∧ (i ≤ j ≤ S TOP)%nat ∧
    (∀ m p, (i ≤ m < j)%nat → (p, m, Free) ∉ bl) ∧ ((j ≤ TOP)%nat → ∃ p, (p, j, Free) ∈ bl)))
    as (r & Hr & j & -> & Hj)%wp_inv; [|by exists j].
  unfold first_nonempty.
  apply (wp_loop (λ r, ∃ j, r = Z.of_nat j ∧ (i ≤ j ≤ S TOP)%nat ∧
           ∀ m p, (i ≤ m < j)%nat → (p, m, Free) ∉ bl) (λ r, Z.to_nat (NUM_LISTS - r))).
  - exists i. split_and!; [done|lia..].
  - lia.
  - intros r (j & -> & Hj & Hno). rewrite Hnum. destruct (Z.ltb_spec (Z.of_nat j) (Z.of_nat (S TOP))).
    2:{ exists j. split_and!; [done|lia|lia|done|lia]. }
    destruct (head_ok a bl j H) as (head & -> & Hhead); [lia|]. cbn [mbind outcome_bind].
    destruct (Z.eqb_spec head 0) as [->|Hne].
    + split; [|lia]. exists (S j). split_and!; [lia..|]. intros m p Hm.
      destruct (decide (m = j)) as [->|]; [by apply Hhead|apply Hno; lia].
    + exists j. split_and!; [done|lia|lia|done|]. intros _.
      destruct (h_lists _ _ H) as (fs & Hok & Hfs). destruct (lookup_lt_is_Some_2 fs j) as [ps Hps].
      { pose proof (fs_len a fs Hok) as Hl. unfold zlen in Hl. lia. }
      destruct ps as [|p ps].
      * destruct Hne. apply Hhead. intros p Hp%elem_of_at_level. rewrite <-(Hfs _ _ Hps) in Hp. set_solver.
      * exists p. apply elem_of_at_level. rewrite <-(Hfs _ _ Hps). by left.
Qed.

Lemma inv_pop a ts k :
  Inv a ts → (k ≤ TOP)%nat → (∃ p, (p, k, Free) ∈ blocks ts (base a)) →
  ∃ ts1 w ts2 l h, ts = ts1 ++ plug w (Leaf Free) :: ts2 ∧
    pop a (Z.of_nat k) = Ret (with_lists a l h, place a ts1 w k) ∧ Mid (with_lists a l h) ts1 w k ts2.
Proof.
  intros HI Hk [p0 Hp0]. pose proof (i_holds _ _ HI) as H.
  destruct (h_lists _ _ H) as (fs & Hok & Hfs). destruct (lookup_lt_is_Some_2 fs k) as [ps Hps].
  { pose proof (fs_len a fs Hok) as Hl. unfold zlen, NUM_LISTS, MAX_BLOCK_LOG2, MIN_BLOCK_LOG2 in Hl.
    unfold TOP in Hk. lia. }
  destruct ps as [|p ps].
  { apply elem_of_at_level in Hp0. rewrite <-(Hfs _ _ Hps) in Hp0. set_solver. }
  assert ((p, k, Free) ∈ blocks ts (base a)) as Hp.
  { apply elem_of_at_level. rewrite <-(Hfs _ _ Hps). by left. }
  destruct (block_in_limbo _ _ _ _ _ HI Hp) as (ts1 & w & ts2 & -> & Htop & -> & Hmid).
  destruct (pop_ok a fs k _ ps Hok Hps) as (l & h & Hrun & Hok').
  exists ts1, w, ts2, l, h. split; [done|]. split; [done|]. apply Hmid; [done|].
  rewrite (blocks_plug ts1 w (Leaf Limbo) ts2 _ k) by done.
  rewrite (blocks_plug ts1 w (Leaf Free) ts2 _ k) in H, Hfs by done.
  by apply (holds_unfree _ _ _ _ _ fs [] ps).
Qed.

Lemma split_down_ok a ts1 w i j ts2 :
  Mid a ts1 w j ts2 → (i ≤ j)%nat →
  wp (split_down a (place a ts1 w j) (Z.of_nat i) (Z.of_nat j)) (λ a', ∃ w', Mid a' ts1 w' i ts2 ∧
    base a' = base a ∧ size a' = size a ∧ place a' ts1 w' i = place a ts1 w j ∧
    ∀ q m, (q, m, Used) ∈ blocks (ts1 ++ plug w' (Leaf Limbo) :: ts2) (base a) ↔
           (q, m, Used) ∈ blocks (ts1 ++ plug w (Leaf Limbo) :: ts2) (base a)).
Proof.
  intros Hm Hij. pose proof (m_top _ _ _ _ _ Hm) as Htop. unfold split_down.
  apply (wp_loop (λ '(a', n), ∃ m w', n = Z.of_nat m ∧ (i ≤ m ≤ TOP)%nat ∧ Mid a' ts1 w' m ts2 ∧
    base a' = base a ∧ size a' = size a ∧ place a' ts1 w' m = place a ts1 w j ∧
    ∀ q r, (q, r, Used) ∈ blocks (ts1 ++ plug w' (Leaf Limbo) :: ts2) (base a) ↔
           (q, r, Used) ∈ blocks (ts1 ++ plug w (Leaf Limbo) :: ts2) (base a))
    (λ '(_, n), Z.to_nat n)).
  - exists j, w. split_and!; [done|lia|lia|done..].
  - unfold NUM_LISTS, MAX_BLOCK_LOG2, MIN_BLOCK_LOG2. unfold TOP in Htop. lia.
  - intros [a' n] (m & w' & -> & Hm' & Hmid & Hb & Hsz & Hpl & Hu).
    destruct (Z.ltb_spec (Z.of_nat i) (Z.of_nat m)).
    2:{ assert (m = i) as -> by lia. exists w'. done. }
    destruct m as [|m]; [lia|]. replace (Z.of_nat (S m) - 1) with (Z.of_nat m) by lia.
    rewrite shl_1U_bs by lia. cbn [mbind outcome_bind]. rewrite <-Hpl.
    pose proof (m_top _ _ _ _ _ Hmid) as Htop'.
    rewrite sibling_of_left; [|lia|by eapply place_aligned; [apply (m_holds _ _ _ _ _ Hmid)|]].
    cbn [mbind outcome_bind]. destruct (mid_split _ _ _ _ _ Hmid) as (l & h & -> & Hmid').
    cbn [mbind outcome_bind]. split; [|lia]. exists m, ((L, Leaf Free) :: w').
    split_and!; [done|lia|lia|done..|].
    intros q r. rewrite <-Hu. simpl. apply (used_replace _ _ _ (S m) Htop'); simpl; naive_solver.
Qed.

(** What a request for [n] bytes does: the new pool, and the block. *)
Definition granted (a a' : buddy) (ts ts' : list tree) (p : Z) (k : nat) : Prop :=
  Inv a' ts' ∧ base a' = base a ∧ size a' = size a ∧ valid a p k ∧
  (∀ q j, (q, j, Used) ∈ blocks ts' (base a) ↔ (q, j) = (p, k) ∨ (q, j, Used) ∈ blocks ts (base a)) ∧
  (∀ q j, (q, j, Used) ∈ blocks ts (base a) → q + bs j ≤ p ∨ p + bs k ≤ q).

Lemma inv_valid a ts p k x : Inv a ts → (p, k, x) ∈ blocks ts (base a) → valid a p k.
Proof. intros HI. apply h_valid. apply HI. Qed.

Lemma malloc_ok a ts n :
  Inv a ts → 0 ≤ n →
  wp (malloc a n) (λ '(a', p),
    if decide (n = 0 ∨ 4096 < n) then a' = a ∧ p = 0
    else if decide (p = 0) then a' = a ∧ ∀ q j, (level n ≤ j)%nat → (q, j, Free) ∉ blocks ts (base a)
    else ∃ ts', granted a a' ts ts' p (level n)).
Proof.
  intros HI Hn. unfold malloc. change MAX_BLOCK_SIZE with 4096.
  destruct (Z.eqb_spec n 0), (Z.ltb_spec 4096 n); cbn [orb wp];
    try (rewrite decide_True by lia; done).
  rewrite normalize_len_ok by lia. destruct (level_spec n) as (Hlev & _); [lia|].
  set (i := level n) in *. clearbody i.
  apply wp_bind, wp_assert; [change MIN_BLOCK_SIZE with (bs 0); pose proof (bs_le 0 i); lia|].
  rewrite list_index_bs by done. cbn [mbind outcome_bind].
  apply wp_bind, wp_assert; [unfold NUM_LISTS, MAX_BLOCK_LOG2, MIN_BLOCK_LOG2, TOP in *; lia|].
  destruct (first_nonempty_ok a _ i (i_holds _ _ HI) Hlev) as (j & -> & Hj & Hno & Hyes).
  cbn [mbind outcome_bind]. change NUM_LISTS with (Z.of_nat (S TOP)).
  destruct (Z.eqb_spec (Z.of_nat j) (Z.of_nat (S TOP))).
  { cbn [wp]. rewrite decide_False by lia. split; [done|]. intros q m Hm Hin.
    pose proof (h_aligned _ _ (i_holds _ _ HI) _ _ _ Hin). eapply Hno; [|done]. lia. }
  destruct (inv_pop a ts j HI) as (ts1 & w & ts2 & l & h & -> & -> & Hmid); [lia|apply Hyes; lia|].
  cbn [mbind outcome_bind]. apply wp_bind.
  change (place a ts1 w j) with (place (with_lists a l h) ts1 w j).
  eapply wp_mono; [apply split_down_ok; [done|lia]|].
  intros a' (w' & Hmid' & Hb & Hsz & Hpl & Hu). rewrite <-Hpl.
  destruct (mid_mark _ _ _ _ _ Hmid') as (ts & -> & HI'). cbn [mbind outcome_bind wp].
  rewrite decide_False by lia. simpl in Hb, Hsz.
  pose proof (m_top _ _ _ _ _ Hmid') as Htop. pose proof (m_top _ _ _ _ _ Hmid) as Htop0.
  assert ((place a' ts1 w' i, i, Used) ∈ blocks (ts1 ++ plug w' (Leaf Used) :: ts2) (base a')) as Hin.
  { rewrite (blocks_plug _ _ _ _ _ i) by done. apply elem_of_mid. by left. }
  pose proof (inv_valid _ _ _ _ _ HI' Hin) as Hv.
  assert (valid a (place a' ts1 w' i) i) as Hva by (unfold valid in *; simpl in *; congruence).
  rewrite decide_False by (destruct Hva; pose proof (base_pos _ (h_shape _ _ (i_holds _ _ HI))); lia).
  eexists. split_and!; [exact HI'|done|done|done| |].
  - intros q m. rewrite <-Hb. split.
    + intros [?|Hin']%(used_split _ _ _ _ Htop); [left; by simplify_eq|]. right. rewrite Hb in *. apply Hu in Hin'.
      by apply (used_limbo _ _ _ _ Htop0).
    + intros [?|Hin']; [by simplify_eq|]. apply (used_limbo _ _ _ _ Htop). rewrite Hb in *. apply Hu.
      apply (used_split _ _ _ _ Htop0) in Hin' as [?|?]; [done|done].
  - intros q m Hin'. assert ((q, m, Used) ∈ blocks (ts1 ++ plug w' (Leaf Limbo) :: ts2) (base a')) as Hl.
    { rewrite Hb. apply Hu. by apply (used_split _ _ _ _ Htop0) in Hin' as [?|?]. }
    assert ((place a' ts1 w' i, i, Limbo) ∈ blocks (ts1 ++ plug w' (Leaf Limbo) :: ts2) (base a')) as Hp.
    { rewrite (blocks_plug _ _ _ _ _ i) by done. apply elem_of_mid. by left. }
    destruct (chain_disjoint _ _ _ _ _ _ _ _ _ (h_chain _ _ (m_holds _ _ _ _ _ Hmid')) Hl Hp) as [|[]]; [done|by left|by right].
Qed.

(** ** Release *)

(** The buddy of the block in limbo: whether it has allocated parts. *)
Lemma mid_sibling a ts1 d t w k ts2 :
  Mid a ts1 ((d, t) :: w) k ts2 →
  (∃ b, sibling_allocated_considering_splits a (place a ts1 ((d, t) :: w) k) (bs k) = Ret b ∧
     (b = true ↔ has Used t)) ∧
  (t = Leaf Free → ∃ p, (p, k, Free) ∈ blocks (ts1 ++ plug ((d, t) :: w) (Leaf Limbo) :: ts2) (base a)).
Proof.
  intros Hm. pose proof Hm as [Htop Hh Hw _ _ _]. simpl in Htop, Hw.
  assert (TOP = (S k + length w)%nat) as Htop' by lia. assert (k < TOP)%nat as Hk by lia.
  pose proof (place_aligned a ts1 w (S k) (h_shape _ _ Hh) Htop') as Hp.
  assert (bs k | place a ts1 w (S k)) by (etrans; [apply (bs_divide k (S k)); lia|done]).
  assert (∃ sib L R, sibling_of (place a ts1 ((d, t) :: w) k) (bs k) = Ret sib ∧ wf t k ∧ (bs k | sib) ∧
    blocks (ts1 ++ plug ((d, t) :: w) (Leaf Limbo) :: ts2) (base a) = L ++ leaves t sib k ++ R)
    as (sib & L & R & Hsib & Hwt & Hdiv & Hbl).
  { destruct d; cbn [plug]; rewrite (blocks_plug _ _ _ _ _ (S k)) by done; cbn [leaves];
      change (addr w (S k) _) with (place a ts1 w (S k)).
    - apply (pool_wf_sub _ _ _ (S k) Htop') in Hw as [_ Hwt].
      exists (place a ts1 w (S k) + bs k). eexists _, _. split; [by apply sibling_of_left|].
      split; [done|]. split; [apply Z.divide_add_r; [done|apply Z.divide_refl]|].
      rewrite <-(app_assoc [_] _ _), app_assoc. done.
    - apply (pool_wf_sub _ _ _ (S k) Htop') in Hw as [Hwt _].
      exists (place a ts1 w (S k)). eexists _, _. split; [by apply sibling_of_right|].
      split; [done|]. split; [done|]. rewrite <-(app_assoc (leaves t _ _) _ _). done. }
  rewrite Hbl in Hh. split.
  - unfold sibling_allocated_considering_splits. rewrite Hsib. cbn [mbind outcome_bind].
    eapply is_allocated_considering_splits_ok; [done..|].
    destruct (chain_part _ _ _ _ _ _ _ Hwt (h_chain _ _ Hh)) as [Hl%chain_le Hr%chain_le].
    by split_and!; [..|lia].
  - intros ->. exists sib. rewrite Hbl. simpl. apply elem_of_mid. by left.
Qed.

Definition released (a a' : buddy) (ts ts' : list tree) (p : Z) (k : nat) : Prop :=
  Inv a' ts' ∧ base a' = base a ∧ size a' = size a ∧
  ∀ q j, (q, j, Used) ∈ blocks ts' (base a) ↔ (q, j) ≠ (p, k) ∧ (q, j, Used) ∈ blocks ts (base a).

Lemma free_step_ok a ts1 w k ts2 :
  Mid a ts1 w k ts2 →
  wp (free_step (a, place a ts1 w k, bs k)) (λ r,
    match r with
    | inl (a', ptr, len) => ∃ d w', w = (d, Leaf Free) :: w' ∧ Mid a' ts1 w' (S k) ts2 ∧
        base a' = base a ∧ size a' = size a ∧ ptr = place a' ts1 w' (S k) ∧ len = bs (S k)
    | inr a' => Inv a' (ts1 ++ plug w (Leaf Free) :: ts2) ∧ base a' = base a ∧ size a' = size a
    end).
Proof.
  intros Hm. pose proof (m_top _ _ _ _ _ Hm) as Htop. unfold free_step.
  rewrite list_index_bs by lia. cbn [mbind outcome_bind]. change MAX_BLOCK_SIZE with (bs TOP).
  assert (match w with [] => True | (_, t) :: _ => t ≠ Leaf Free end →
    wp ((a0 ← append a (Z.of_nat k) (place a ts1 w k); break a0) : outcome (buddy * Z * Z + buddy)) (λ r,
      match r with
      | inl (a', ptr, len) => ∃ d w', w = (d, Leaf Free) :: w' ∧ Mid a' ts1 w' (S k) ts2 ∧
          base a' = base a ∧ size a' = size a ∧ ptr = place a' ts1 w' (S k) ∧ len = bs (S k)
      | inr a' => Inv a' (ts1 ++ plug w (Leaf Free) :: ts2) ∧ base a' = base a ∧ size a' = size a
      end)) as Hlast.
  { intros Hbud. destruct (mid_append _ _ _ _ _ Hm Hbud) as (l & h & -> & HI). done. }
  destruct w as [|[d t] w].
  { simpl in Htop. rewrite Nat.add_0_r in Htop. subst k. rewrite Z.eqb_refl. by apply Hlast. }
  simpl in Htop. destruct (Z.eqb_spec (bs k) (bs TOP)) as [Heq|_]; [pose proof (bs_lt k TOP); lia|].
  destruct (mid_sibling _ _ _ _ _ _ _ Hm) as [(b & -> & Hb) Hfree]. cbn [mbind outcome_bind].
  destruct b.
  { apply Hlast. intros ->. by destruct Hb as [Hb _]; specialize (Hb eq_refl). }
  assert (t = Leaf Free) as ->.
  { pose proof (m_normal _ _ _ _ _ Hm) as Hn. apply Forall_app in Hn as (_ & [Hn _]%Forall_cons).
    pose proof (m_path _ _ _ _ _ Hm) as [Hlim _]%Forall_cons. apply normal_all_free; [|naive_solver|done].
    destruct d; simpl in Hn; apply normal_sub in Hn; simpl in Hn; tauto. }
  destruct (head_ok a _ k (m_holds _ _ _ _ _ Hm)) as (head & -> & Hhead); [lia|]. cbn [mbind outcome_bind].
  apply wp_bind, wp_assert.
  { destruct (Hfree eq_refl) as [p Hp]. destruct (Z.eqb_spec head 0) as [->|]; [|done].
    destruct Hhead as [Hhead _]. by destruct (Hhead eq_refl p). }
  destruct (mid_merge _ _ _ _ _ _ Hm) as (l & h & -> & Hpar & Hmid). cbn [mbind outcome_bind].
  rewrite Hpar. cbn [mbind outcome_bind wp continue]. exists d, w.
  split_and!; [done..|]. apply bs_double. lia.
Qed.

Lemma free_ok a ts n p :
  Inv a ts → 0 < n ≤ 4096 → valid a p (level n) →
  wp (free a n p) (λ a',
    (¬ ((p, level n, Used) ∈ blocks ts (base a)) ∧ a' = a) ∨
    ((p, level n, Used) ∈ blocks ts (base a) ∧ ∃ ts', released a a' ts ts' p (level n))).
Proof.
  intros HI Hn Hv. pose proof (i_holds _ _ HI) as Hh. pose proof Hv as (Hbase & _ & _ & Hk).
  pose proof (base_pos _ (h_shape _ _ Hh)). unfold free.
  destruct (Z.eqb_spec p 0), (Z.eqb_spec n 0); [lia..|]. cbn [orb].
  change MAX_BLOCK_SIZE with 4096. destruct (Z.ltb_spec 4096 n); [lia|].
  rewrite normalize_len_ok by lia. set (k := level n) in *. clearbody k.
  rewrite is_allocated_ok by (done || apply Hh). cbn [mbind outcome_bind].
  pose proof (h_bits _ _ Hh p k Hv) as Hbit. destruct (bit a p k) eqn:Hb; cbn [negb].
  2:{ left. split; [|done]. rewrite <-Hbit. done. }
  assert ((p, k, Used) ∈ blocks ts (base a)) as Hin by by apply Hbit.
  destruct (block_in_limbo _ _ _ _ _ HI Hin) as (ts1 & w & ts2 & -> & Htop & -> & Hmid).
  rewrite (blocks_plug ts1 w (Leaf Used) ts2 _ k) in Hh by done.
  destruct (holds_set _ _ _ (place a ts1 w k) k false Hh) as (trs & -> & Hh'). clear Hh.
  rename Hh' into Hh. cbn [mbind outcome_bind].
  assert (holds (with_trees a trs) (blocks (ts1 ++ plug w (Leaf Limbo) :: ts2) (base a))) as Hh2
    by (rewrite (blocks_plug _ _ _ _ _ k) by done; exact Hh).
  clear Hh. rename Hh2 into Hh. specialize (Hmid (with_trees a trs) eq_refl Hh).
  assert (∀ q j, (q, j, Used) ∈ blocks (ts1 ++ plug w (Leaf Limbo) :: ts2) (base a) ↔
    (q, j) ≠ (place a ts1 w k, k) ∧ (q, j, Used) ∈ blocks (ts1 ++ plug w (Leaf Used) :: ts2) (base a)) as Hused.
  { intros q j. split.
    - intros Hq. split; [|by apply (used_limbo _ _ _ _ Htop)]. intros [= -> ->].
      assert ((place a ts1 w k, k, Limbo) ∈ blocks (ts1 ++ plug w (Leaf Limbo) :: ts2) (base a)) as Hl.
      { rewrite (blocks_plug _ _ _ _ _ k) by done. apply elem_of_mid. by left. }
      by destruct (same_start _ _ _ _ _ _ _ Hh Hq Hl).
    - intros [Hne [?|?]%(used_split _ _ _ _ Htop)]; [|done]. destruct Hne. by simplify_eq. }
  set (a0 := with_trees a trs) in *.
  change (place a ts1 w k) with (place a0 ts1 w k) at 1.
  apply (wp_mono _ (λ a', ∃ ts', released a a' (ts1 ++ plug w (Leaf Used) :: ts2) ts' (place a ts1 w k) k));
    [|intros a' H'; right; done].
  apply (wp_loop_count (λ m '(a', ptr, len), ∃ w' j, m = length w' ∧ ptr = place a' ts1 w' j ∧
           len = bs j ∧ Mid a' ts1 w' j ts2 ∧ base a' = base a ∧ size a' = size a ∧
           ∀ q r, (q, r, Used) ∈ blocks (ts1 ++ plug w' (Leaf Limbo) :: ts2) (base a) ↔
             (q, r) ≠ (place a ts1 w k, k) ∧
             (q, r, Used) ∈ blocks (ts1 ++ plug w (Leaf Used) :: ts2) (base a))) with (length w).
  - by exists w, k.
  - unfold TOP in Htop. change (Z.to_nat NUM_LISTS) with 9%nat. lia.
  - intros m [[a' ptr] len] (w' & j & -> & -> & -> & Hm & Hb' & Hsz & Hu).
    pose proof (m_top _ _ _ _ _ Hm) as Htop'.
    eapply wp_mono; [by apply free_step_ok|]. intros [[[a2 ptr] len]|a2].
    + intros (d & w2 & -> & Hm2 & Hb2 & Hsz2 & -> & ->). exists (length w2). split; [simpl; lia|].
      exists w2, (S j). split_and!; [done..|congruence|congruence|]. intros q r. rewrite <-Hu.
      simpl in Htop'. assert (TOP = (S j + length w2)%nat) as Htop2 by lia.
      destruct d; simpl; apply (used_replace _ _ _ (S j) Htop2); simpl; naive_solver.
    + intros (HI2 & Hb2 & Hsz2). exists (ts1 ++ plug w' (Leaf Free) :: ts2).
      split_and!; [done|congruence|congruence|]. intros q r. rewrite <-Hu.
      apply (used_replace _ _ _ j Htop'); simpl; naive_solver.
Qed.
