(* ===== verification/BuddySafe.v ===== *)
(** The buddy allocator from its startup on: the pool a startup leaves, and what
    holds after every sequence of calls. *)
From S2P Require Import Prelude Bits BuddyTree Buddy BuddyBits BuddyList BuddySpec.

(** ** Startup *)

Lemma padding_mod p k : 0 ≤ k ≤ 64 → padding p (2 ^ k - 1) = (- p) mod 2 ^ k.
Proof.
  intros Hk. unfold padding, u64. rewrite land_mask by lia. apply Z.mod_mod_divide.
  exists (2 ^ (64 - k)). rewrite <-Z.pow_add_r by lia. f_equal. lia.
Qed.

Lemma padding_page p : padding p MAX_BLOCK_ALIGN_MASK = (- p) mod 4096.
Proof. by apply (padding_mod p 12). Qed.

(** [n] trees and, behind them, [n] aligned pages fit. *)
Definition fits (base size n : Z) : Prop :=
  64 * n + (- (base + 64 * n)) mod 4096 + 4096 * n ≤ size.

Lemma count_trees_ok base size :
  0 ≤ size < 2 ^ 31 →
  wp (count_trees base size) (λ n, 0 ≤ n ∧ (n = 0 ∨ fits base size n) ∧ ¬ fits base size (n + 1)).
Proof.
  intros Hsz. unfold count_trees. change sizeof_bit_tree with 64.
  assert (64 * (size / 64) ≤ size) by (apply Z.mul_div_le; lia).
  assert (0 ≤ size / 64) by (apply Z.div_pos; lia).
  apply (wp_loop (λ n, 0 ≤ n ≤ size / 64 ∧ (n = 0 ∨ fits base size n)) (λ n, Z.to_nat (size / 64 - n)));
    [split; [lia|by left]|lia|].
  intros n [Hn Hfit]. rewrite u64_small by lia. rewrite padding_page. unfold fits in *.
  replace ((n + 1) * 64) with (64 * (n + 1)) by lia.
  pose proof (Z.mod_pos_bound (- (base + 64 * (n + 1))) 4096 ltac:(lia)) as Hpad.
  remember ((- (base + 64 * (n + 1))) mod 4096) as pad eqn:Hpadeq.
  destruct (Z.ltb_spec size (64 * (n + 1))); [split_and!; [lia|done|lia]|].
  destruct (Z.ltb_spec (size - 64 * (n + 1)) pad); [split_and!; [lia|done|lia]|].
  rewrite Z.shiftr_div_pow2 by done. change (2 ^ MAX_BLOCK_LOG2) with 4096.
  remember (size - 64 * (n + 1) - pad) as l eqn:Hl.
  assert (4096 * (l / 4096) ≤ l < 4096 * (l / 4096) + 4096) as Hdiv.
  { pose proof (Z.div_mod l 4096). pose proof (Z.mod_pos_bound l 4096). lia. }
  rewrite s32_small by lia.
  destruct (Z.ltb_spec (l / 4096) (n + 1)); [split_and!; [lia|done|lia]|].
  cbn [wp continue]. assert (n + 1 ≤ size / 64) by (apply Z.div_le_lower_bound; lia).
  split; [|lia]. split; [lia|]. right. lia.
Qed.

(** The addresses of the pages. *)
Definition pages (base : Z) (n : nat) : list Z := (λ i, base + 4096 * Z.of_nat i) <$> seq 0 n.

Lemma pages_S base n : pages base (S n) = pages base n ++ [base + 4096 * Z.of_nat n].
Proof. unfold pages. by rewrite seq_S, fmap_app. Qed.

Lemma elem_of_pages base n p : p ∈ pages base n ↔ ∃ i, (i < n)%nat ∧ p = base + 4096 * Z.of_nat i.
Proof.
  unfold pages. rewrite list_elem_of_fmap. setoid_rewrite elem_of_seq.
  split; intros (i & H1 & H2); exists i; split; done || lia.
Qed.

Lemma NoDup_pages base n : NoDup (pages base n).
Proof.
  apply NoDup_fmap_2; [|apply NoDup_seq]. intros i j ?. lia.
Qed.

Lemma link_pages_ok base n :
  0 < base → 4096 * Z.of_nat n < 2 ^ 31 →
  wp (link_pages base (Z.of_nat n) ∅) (λ '(h, head), dll h 0 head (pages base n)).
Proof.
  intros Hb Hn. unfold link_pages.
  apply (wp_loop (λ '(i, head, tail, h), ∃ m, i = Z.of_nat m ∧ (m ≤ n)%nat ∧
           dll h 0 head (pages base m) ∧ tail = last_or 0 (pages base m))
         (λ '(i, _, _, _), Z.to_nat (Z.of_nat n - i))).
  - exists 0%nat. split_and!; [done|lia|done|done].
  - lia.
  - intros [[[i head] tail] h] (m & -> & Hm & Hd & ->).
    destruct (Z.ltb_spec (Z.of_nat m) (Z.of_nat n)).
    2:{ assert (m = n) as -> by lia. done. }
    assert (page_index_to_ptr base (Z.of_nat m) = base + 4096 * Z.of_nat m) as ->.
    { unfold page_index_to_ptr. rewrite Z.shiftl_mul_pow2 by done. change (2 ^ MAX_BLOCK_LOG2) with 4096.
      rewrite s32_small by lia. lia. }
    set (p := base + 4096 * Z.of_nat m). assert (p ≠ 0) as Hp by lia.
    assert (p ∉ pages base m) as Hfresh.
    { intros (j & ? & ?)%elem_of_pages. unfold p in *. lia. }
    assert (pages base (S m) = pages base m ++ [p]) as Hps by apply pages_S.
    destruct (Z.eqb_spec head 0) as [->|Hhead]; cbn [negb].
    + pose proof (proj1 (dll_head _ _ _ _ Hd) eq_refl) as Hnil.
      rewrite store_ok by done. cbn [mbind outcome_bind wp continue]. split; [|lia].
      exists (S m). rewrite Hps, Hnil. split_and!; [lia|lia| |done].
      simpl. split_and!; [done..|]. exists 0. by rewrite lookup_insert_eq.
    + assert (∃ l ps, pages base m = ps ++ [l]) as (l & ps & Hl).
      { destruct (pages base m) as [|x ps _] using rev_ind; [by simpl in Hd|by exists x, ps]. }
      rewrite Hl in *. assert (last_or 0 (ps ++ [l]) = l) as -> by by unfold last_or; rewrite last_snoc.
      apply dll_app in Hd as (q & Hseg & -> & Hl0 & nx & Hlook & ->).
      rewrite (load_ok _ _ _ Hl0 Hlook). cbn [mbind outcome_bind prev]. rewrite store_ok by done.
      cbn [mbind outcome_bind]. rewrite store_ok by done. cbn [mbind outcome_bind wp continue].
      split; [|lia]. exists (S m). rewrite Hps. split_and!; [lia|lia| |by unfold last_or; rewrite last_snoc].
      pose proof (NoDup_pages base m) as Hnd. rewrite Hl in Hnd. apply NoDup_app in Hnd as (_ & Hdis & _).
      assert (l ≠ p) by set_solver.
      apply dll_app. exists p. split.
      * apply seg_snoc. rewrite lookup_insert_ne, lookup_insert_eq by done. split_and!; [|done..].
        eapply seg_frame; [|done]. intros r Hr. rewrite !lookup_insert_ne; [done| |]; [|set_solver].
        intros <-. eapply Hdis; [done|by left].
      * unfold last_or. rewrite last_snoc. simpl. split_and!; [done..|]. exists 0.
        by rewrite lookup_insert_eq.
Qed.

Lemma blocks_fresh base n p k x :
  (p, k, x) ∈ blocks (replicate n (Leaf Free)) base → k = TOP ∧ x = Free.
Proof.
  revert base. induction n as [|n IH]; intros base; simpl; [set_solver|].
  intros [?|?%IH]%elem_of_cons; [by simplify_eq|done].
Qed.

Lemma at_level_fresh base n : at_level Free TOP (blocks (replicate n (Leaf Free)) base) = pages base n.
Proof.
  revert base. induction n as [|n IH]; intros base; [done|].
  cbn [replicate blocks leaves]. rewrite at_level_app, at_level_one, decide_True, IH by done.
  unfold pages. cbn [seq]. rewrite fmap_cons, <-(fmap_S_seq 0 n), <-list_fmap_compose. simpl.
  f_equal; [lia|]. apply list_fmap_ext. intros i y _. simpl. change (bs TOP) with 4096. lia.
Qed.

(** A pool of [n] pages none of which is allocated. *)
Lemma fresh_inv base n h head :
  0 < base → (bs TOP | base) → base + 4096 * Z.of_nat n < 2 ^ 64 → dll h 0 head (pages base n) →
  Inv (mkBuddy base (bs TOP * Z.of_nat n) (replicate (Z.to_nat (NUM_LISTS - 1)) 0 ++ [head])
        (replicate n (replicate (Z.to_nat BIT_TREE_WORDS_PER_PAGE) 0)) (Z.of_nat n) h)
      (replicate n (Leaf Free)).
Proof.
  intros Hb Hal Hend Hd. split; [|by apply Forall_replicate..|apply Forall_replicate; simpl; done].
  cbn [Buddy.base]. split; cbn [Buddy.base Buddy.size].
  - split; simpl; [done..|by rewrite zlen_replicate|].
    apply Forall_replicate. split; [done|]. repeat (constructor; [lia|]). constructor.
  - pose proof (chain_blocks (replicate n (Leaf Free)) base) as Hc. rewrite zlen_replicate in Hc.
    apply Hc. by apply Forall_replicate.
  - intros p k x Hin. by eapply blocks_aligned.
  - intros p k Hv. split; [|intros [_ ?]%blocks_fresh; done].
    unfold bit. cbn [trees].
    destruct (replicate n (replicate (Z.to_nat BIT_TREE_WORDS_PER_PAGE) 0) !! _) as [t|] eqn:Ht; [|done].
    apply lookup_replicate in Ht as [-> _]. destruct (replicate (Z.to_nat BIT_TREE_WORDS_PER_PAGE) 0 !! _) as [w|] eqn:Hw; [|done].
    apply lookup_replicate in Hw as [-> _]. by rewrite Z.testbit_0_l.
  - exists (replicate 8 [] ++ [pages base n]). split.
    + split; [done|done|simpl; rewrite app_nil_r; apply NoDup_pages|].
      intros k ps Hk. simpl in *. change (Z.to_nat (NUM_LISTS - 1)) with 8%nat. simpl.
      do 8 (destruct k as [|k]; [simplify_eq/=; by exists 0|]).
      destruct k as [|k]; [|by destruct k]. simplify_eq/=. by exists head.
    + intros k ps Hk. assert (k ≠ TOP → ps = [] → ps ≡ₚ at_level Free k (blocks (replicate n (Leaf Free)) base)) as Hnil.
      { intros Hne ->. destruct (at_level Free k _) as [|p ?] eqn:Hl; [done|].
        assert (p ∈ at_level Free k (blocks (replicate n (Leaf Free)) base)) as Hin by (rewrite Hl; by left).
        apply elem_of_at_level in Hin. by destruct (blocks_fresh _ _ _ _ _ Hin). }
      simpl in Hk. do 8 (destruct k as [|k]; [simplify_eq/=; by apply Hnil|]).
      destruct k as [|k]; [|by destruct k]. simplify_eq/=.
      change 8%nat with TOP. by rewrite at_level_fresh.
Qed.

(** A startup: [None], or the structure, the trees and the pages one behind the
    other in the memory, with as many pages as fit. *)
Definition started (base0 size0 : Z) (r : option (Z * Z * buddy)) : Prop :=
  match r with
  | None => ∃ pad, 0 ≤ pad < 8 ∧ size0 < pad + 104 + 4096
  | Some (alloc, trees_at, a) =>
      base0 ≤ alloc ∧ alloc mod 8 = 0 ∧ alloc + 104 = trees_at ∧
      trees_at + 64 * num_trees a ≤ base a ∧ base a + size a ≤ base0 + size0 ∧
      Inv a (replicate (Z.to_nat (num_trees a)) (Leaf Free)) ∧ 0 ≤ num_trees a ∧
      ¬ fits trees_at (base0 + size0 - trees_at) (num_trees a + 1)
  end.

Lemma buddy_startup_ok base0 size0 :
  0 < base0 → 0 < size0 < 2 ^ 31 → base0 + size0 < 2 ^ 64 →
  wp (buddy_startup base0 size0) (started base0 size0).
Proof.
  intros Hb Hs He. unfold buddy_startup.
  apply wp_bind, wp_assert. { destruct (Z.eqb_spec base0 0), (Z.eqb_spec size0 0); done || lia. }
  change (alignof_buddy - 1) with (2 ^ 3 - 1). change (alignof_bit_tree - 1) with (2 ^ 2 - 1).
  rewrite !padding_mod by lia. change (2 ^ 3) with 8. change (2 ^ 2) with 4. change sizeof_buddy with 104.
  pose proof (Z.mod_pos_bound (- base0) 8 ltac:(lia)) as Hpad.
  pose proof (Z.div_mod (- base0) 8 ltac:(lia)) as Hdiv. set (pad := (- base0) mod 8) in *.
  destruct (Z.ltb_spec size0 pad); [exists pad; lia|].
  destruct (Z.ltb_spec (size0 - pad) 104); [exists pad; lia|].
  set (q := (- base0) / 8) in *. clearbody pad q.
  replace (base0 + pad) with (q * -8) by lia.
  replace ((- (q * -8 + 104)) mod 4) with 0
    by (replace (- (q * -8 + 104)) with ((2 * q - 26) * 4) by lia; by rewrite Z.mod_mul).
  destruct (Z.ltb_spec (size0 - pad - 104) 0); [lia|]. rewrite Z.add_0_r, Z.sub_0_r.
  remember (q * -8 + 104) as tr eqn:Htr. remember (size0 - pad - 104) as sz eqn:Hsz.
  apply wp_bind. eapply wp_mono; [apply count_trees_ok; lia|].
  intros n' (Hn & Hfit & Hmax). destruct (Z_of_nat_complete n' Hn) as [m ->].
  set (n := Z.of_nat m) in *. rewrite padding_page. change sizeof_bit_tree with 64.
  replace (n * 64) with (64 * n) by lia.
  pose proof (Z.mod_pos_bound (- (tr + 64 * n)) 4096 ltac:(lia)) as Hpad2.
  pose proof (Z.div_mod (- (tr + 64 * n)) 4096 ltac:(lia)) as Hdiv2. unfold fits in Hfit.
  set (pad2 := (- (tr + 64 * n)) mod 4096) in *. set (q2 := (- (tr + 64 * n)) / 4096) in *.
  clearbody pad2 q2.
  destruct (Z.ltb_spec (sz - 64 * n) pad2).
  { destruct Hfit as [->|Hfit]; [|lia]. exists pad. split; [lia|]. lia. }
  assert (64 * n + pad2 + 4096 * n ≤ sz) as Hfit' by (destruct Hfit as [->|]; lia).
  assert (u64 (s32 (Z.shiftl n MAX_BLOCK_LOG2)) = bs TOP * n) as ->.
  { rewrite Z.shiftl_mul_pow2 by done. change (2 ^ MAX_BLOCK_LOG2) with 4096. change (bs TOP) with 4096.
    rewrite s32_small, u64_small by lia. lia. }
  unfold n. rewrite Nat2Z.id. fold n. apply wp_bind. eapply wp_mono; [apply (link_pages_ok _ m); lia|].
  intros [h head] Hd. cbn [wp started num_trees base size]. change (bs TOP) with 4096.
  split_and!; [lia| |done|lia|lia| |done|].
  - replace (q * -8) with ((- q) * 8) by lia. by apply Z.mod_mul.
  - unfold n. rewrite Nat2Z.id. change 4096 with (bs TOP). apply fresh_inv; [lia| |lia|done]. change (bs TOP) with 4096.
    exists (- q2). lia.
  - replace (base0 + size0 - tr) with sz by lia. done.
Qed.

(** ** Writes into allocated blocks *)

Lemma holds_write a bl p k q nd :
  holds a bl → (p, k, Used) ∈ bl → p ≤ q < p + bs k →
  holds (with_lists a (lists a) (<[q := nd]> (heap a))) bl.
Proof.
  intros H Hin Hq. destruct (h_lists _ _ H) as (fs & Hok & Hfs).
  eapply holds_with_lists; [done|apply H|eauto|done|]. exists fs. split; [|done].
  destruct Hok as [H1 H2 H3 H4]. split; [done..|]. intros j ps Hps.
  destruct (H4 j ps Hps) as (head & Hhead & Hd). exists head. split; [done|]. simpl.
  eapply dll_frame; [|done]. intros r Hr. rewrite lookup_insert_ne; [done|]. intros <-.
  rewrite (Hfs _ _ Hps) in Hr. apply elem_of_at_level in Hr. pose proof (bs_pos j).
  destruct (chain_disjoint _ _ _ _ _ _ _ _ _ (h_chain _ _ H) Hin Hr) as [|[]]; [done|lia..].
Qed.

(** ** Histories *)

(** The allocators that sequences of calls lead to from a startup, with the
    blocks the client holds.  A client allocates, frees what lies at a block
    boundary of the size it names (its blocks, or others by mistake), and writes
    into its blocks. *)
Inductive reach (a0 : buddy) : buddy → list (Z * nat) → Prop :=
  | reach_start : reach a0 a0 []
  | reach_malloc a live n a' p :
      reach a0 a live → 0 ≤ n → malloc a n = Ret (a', p) →
      reach a0 a' (if decide (p = 0) then live else (p, level n) :: live)
  | reach_free a live n p a' :
      reach a0 a live → 0 < n ≤ 4096 → valid a p (level n) → free a n p = Ret a' →
      reach a0 a' (filter (.≠ (p, level n)) live)
  | reach_write a live p k q nd :
      reach a0 a live → (p, k) ∈ live → p ≤ q < p + bs k →
      reach a0 (with_lists a (lists a) (<[q := nd]> (heap a))) live.

(** The blocks the client holds are the allocated ones, once each. *)
Definition tracked (a : buddy) (ts : list tree) (live : list (Z * nat)) : Prop :=
  NoDup live ∧ ∀ p k, (p, k) ∈ live ↔ (p, k, Used) ∈ blocks ts (base a).

Lemma malloc_tracked a ts live n a' p :
  Inv a ts → tracked a ts live → 0 ≤ n → malloc a n = Ret (a', p) →
  ∃ ts', Inv a' ts' ∧ tracked a' ts' (if decide (p = 0) then live else (p, level n) :: live).
Proof.
  intros HI [Hnd Hl] Hn Hrun. pose proof (malloc_ok a ts n HI Hn) as H. rewrite Hrun in H. cbn [wp] in H.
  destruct (decide (n = 0 ∨ 4096 < n)).
  { destruct H as [-> ->]. exists ts. by rewrite decide_True. }
  destruct (decide (p = 0)); [destruct H as [-> _]; by exists ts|].
  destruct H as (ts' & HI' & Hb & Hsz & Hv & Hu & Hdis). exists ts'. split; [done|]. split.
  - apply NoDup_cons. split; [|done]. rewrite Hl. intros Hin. apply Hdis in Hin. pose proof (bs_pos (level n)). lia.
  - intros q j. rewrite elem_of_cons, Hl, Hb. symmetry. apply Hu.
Qed.

Lemma free_tracked a ts live n p a' :
  Inv a ts → tracked a ts live → 0 < n ≤ 4096 → valid a p (level n) → free a n p = Ret a' →
  ∃ ts', Inv a' ts' ∧ tracked a' ts' (filter (.≠ (p, level n)) live).
Proof.
  intros HI [Hnd Hl] Hn Hv Hrun. pose proof (free_ok a ts n p HI Hn Hv) as H. rewrite Hrun in H. cbn [wp] in H.
  destruct H as [[Hno ->]|[Hin (ts' & HI' & Hb & Hsz & Hu)]].
  - exists ts. split; [done|]. split; [by apply NoDup_filter|]. intros q j.
    rewrite list_elem_of_filter, Hl. split; [tauto|]. intros Hq. split; [|done]. by intros [= -> ->].
  - exists ts'. split; [done|]. split; [by apply NoDup_filter|]. intros q j.
    rewrite list_elem_of_filter, Hl, Hb. symmetry. apply Hu.
Qed.

Lemma reach_inv a0 ts0 a live :
  Inv a0 ts0 → (∀ p k, ¬ (p, k, Used) ∈ blocks ts0 (base a0)) → reach a0 a live →
  ∃ ts, Inv a ts ∧ tracked a ts live.
Proof.
  intros HI0 H0 Hr. induction Hr as [|a live n a' p _ (ts & HI & Ht) Hn Hrun|
    a live n p a' _ (ts & HI & Ht) Hn Hv Hrun|a live p k q nd _ (ts & HI & Ht) Hin Hq].
  - exists ts0. split; [done|]. split; [apply NoDup_nil_2|]. intros p k. split; [set_solver|by intros ?%H0].
  - by eapply malloc_tracked.
  - by eapply free_tracked.
  - exists ts. destruct HI as [Hh H1 H2 H3]. split; [|done]. split; [|done..].
    eapply holds_write; [done| |done]. by apply Ht.
Qed.

Lemma fresh_unused base n p k : ¬ (p, k, Used) ∈ blocks (replicate n (Leaf Free)) base.
Proof. by intros [_ ?]%blocks_fresh. Qed.

(** A startup places its structure, the trees and the aligned pages one
    behind the other inside of the memory it is given, with as many pages as
    fit; it gives up only on a memory too small for a page. *)
Theorem buddy_startup_correct base0 size0 :
  0 < base0 → 0 < size0 < 2 ^ 31 → base0 + size0 < 2 ^ 64 →
  wp (buddy_startup base0 size0) (started base0 size0).
Proof. apply buddy_startup_ok. Qed.

(** C3.  A request is served with a block of the least size that holds it, at
    its alignment, inside of the pool and apart from every block in use; it is
    refused exactly if it is for nothing or for more than a page, or if no free
    block is large enough. *)
Theorem buddy_malloc_correct a ts n :
  Inv a ts → 0 ≤ n →
  wp (buddy_malloc (Some a) n) (λ '(a', p), ∃ a1, a' = Some a1 ∧
    if decide (n = 0 ∨ 4096 < n) then a1 = a ∧ p = 0
    else if decide (p = 0) then a1 = a ∧ ∀ q j, n ≤ bs j → (q, j, Free) ∉ blocks ts (base a)
    else ∃ k ts', n ≤ bs k ∧ (∀ j, n ≤ bs j → (k ≤ j)%nat) ∧ granted a a1 ts ts' p k).
Proof.
  intros HI Hn. unfold buddy_malloc. apply wp_bind. eapply wp_mono; [by apply malloc_ok|].
  intros [a' p] H. cbn [wp]. exists a'. split; [done|]. case_decide; [done|].
  destruct (level_spec n) as (H1 & H2 & H3); [lia|]. case_decide.
  - destruct H as [-> Hno]. split; [done|]. intros q j Hj. apply Hno. by apply H3.
  - destruct H as (ts' & H). by exists (level n), ts'.
Qed.

(** C4.  Freeing a block in use takes it out of the blocks in use, and joins
    it with its buddies as far as they are free; freeing one that is not in use,
    a double free, changes nothing. *)
Theorem buddy_free_correct a ts n p k :
  Inv a ts → 0 < n ≤ bs k → (∀ j, n ≤ bs j → (k ≤ j)%nat) → valid a p k →
  wp (buddy_free (Some a) n p) (λ a', ∃ a1, a' = Some a1 ∧
    if buddy_owned (Some a) p && bit a p k then
      (p, k, Used) ∈ blocks ts (base a) ∧ ∃ ts', released a a1 ts ts' p k
    else ¬ ((p, k, Used) ∈ blocks ts (base a)) ∧ a1 = a).
Proof.
  intros HI Hn Hleast Hv. pose proof Hv as (Hv1 & Hv2 & _ & Hk). pose proof (bs_le k TOP Hk) as Hbs.
  change (bs TOP) with 4096 in Hbs. destruct (level_spec n) as (H1 & H2 & H3); [lia|].
  assert (level n = k) as <- by (apply Nat.le_antisymm; [apply H3; lia|by apply Hleast]).
  unfold buddy_free. apply wp_bind. eapply wp_mono; [apply free_ok; [done|lia|done]|].
  intros a' H. cbn [wp]. exists a'. split; [done|].
  pose proof (h_bits _ _ (i_holds _ _ HI) p (level n) Hv) as Hbit. pose proof (bs_pos (level n)).
  unfold buddy_owned. replace ((base a <=? p) && (p <? base a + size a)) with true by lia. cbn [andb].
  destruct (bit a p (level n)).
  - destruct H as [[Hno _]|[Hin H]]; [by destruct Hno; apply Hbit|done].
  - destruct H as [[Hno ->]|[Hin H]]; [done|]. apply Hbit in Hin. done.
Qed.

(** C2.  From a startup on, let a client make requests of any size, release
    what starts, in the pool, at a boundary of a block of the size it names (at
    most 4096 bytes), whether the block is in use or not, and write into its
    blocks.  Then each further request, of whatever size, and each further
    release of that kind runs to its end, with no assertion failing and no
    access outside of the pool; the client's blocks are in the pool and apart
    from each other, and [buddy_allocated] knows exactly them.  A release at
    another address is not caught: [interior_free_aborts]. *)
Theorem buddy_history_safe base0 size0 alloc trees_at a0 a live :
  0 < base0 → 0 < size0 < 2 ^ 31 → base0 + size0 < 2 ^ 64 →
  buddy_startup base0 size0 = Ret (Some (alloc, trees_at, a0)) → reach a0 a live →
  (∀ p k, (p, k) ∈ live → valid a p k) ∧
  (∀ p k q j, (p, k) ∈ live → (q, j) ∈ live → (p, k) = (q, j) ∨ p + bs k ≤ q ∨ q + bs j ≤ p) ∧
  (∀ p k, valid a p k → buddy_allocated (Some a) p (bs k) = Ret (bool_decide ((p, k) ∈ live))) ∧
  (∀ n, 0 ≤ n → ∃ a' p, malloc a n = Ret (a', p)) ∧
  (∀ n p, 0 < n ≤ 4096 → valid a p (level n) → ∃ a', free a n p = Ret a').
Proof.
  intros Hb Hs He Hstart Hr. pose proof (buddy_startup_ok base0 size0 Hb Hs He) as H0. rewrite Hstart in H0.
  destruct H0 as (_ & _ & _ & _ & _ & HI0 & _).
  destruct (reach_inv a0 _ a live HI0) as (ts & HI & Hnd & Hl); [intros p k; apply fresh_unused|done|].
  split_and!.
  - intros p k Hin%Hl. by eapply inv_valid.
  - intros p k q j Hp%Hl Hq%Hl.
    destruct (chain_disjoint _ _ _ _ _ _ _ _ _ (h_chain _ _ (i_holds _ _ HI)) Hp Hq) as [|]; [left; congruence|by right].
  - intros p k Hv. pose proof Hv as (Hv1 & Hv2 & _ & _). pose proof (bs_pos k). unfold buddy_allocated, buddy_owned.
    replace ((base a <=? p) && (p <? base a + size a)) with true by lia.
    rewrite is_allocated_ok by (done || apply HI). f_equal.
    pose proof (h_bits _ _ (i_holds _ _ HI) p k Hv) as Hbit. rewrite <-Hl in Hbit.
    case_bool_decide; [by apply Hbit|]. by apply not_true_is_false; intros ?%Hbit.
  - intros n Hn. destruct (wp_inv _ _ (malloc_ok a ts n HI Hn)) as ([a' p] & ? & _). by exists a', p.
  - intros n p Hn Hv. destruct (wp_inv _ _ (free_ok a ts n p HI Hn Hv)) as (a' & ? & _). by exists a'.
Qed.

(** Without a block in use every page is whole. *)
Lemma unused_fresh ts :
  Forall normal ts → Forall (λ t, ¬ has Limbo t) ts → Forall (λ t, ¬ has Used t) ts →
  ts = replicate (length ts) (Leaf Free).
Proof.
  intros Hn Hl Hu. induction ts as [|t ts IH]; [done|]. simpl.
  apply Forall_cons in Hn as [? ?], Hl as [? ?], Hu as [? ?].
  rewrite (normal_all_free t) by done. f_equal. by apply IH.
Qed.

Lemma no_used_trees ts root :
  Forall (λ t, wf t TOP) ts → (∀ p k, ¬ (p, k, Used) ∈ blocks ts root) → Forall (λ t, ¬ has Used t) ts.
Proof.
  intros Hw. revert root. induction Hw as [|t ts Ht _ IH]; intros root Hno; [done|]. constructor.
  - rewrite (has_leaf Used t root TOP Ht). intros (q & j & Hin). apply (Hno q j). simpl. apply elem_of_app. by left.
  - apply (IH (root + bs TOP)). intros p k Hin. apply (Hno p k). simpl. apply elem_of_app. by right.
Qed.

Lemma pages_of_pool a ts : Inv a ts → zlen ts = num_trees a.
Proof.
  intros HI. pose proof (h_chain _ _ (i_holds _ _ HI)) as Hc.
  pose proof (chain_blocks ts (base a) (i_wf _ _ HI)) as Hc'.
  pose proof (chain_end _ _ _ _ Hc Hc') as He. rewrite (size_pages _ (h_shape _ _ (i_holds _ _ HI))) in He.
  change (bs TOP) with 4096 in He. lia.
Qed.

(** C5.  When the client has given all its blocks back, in any order, nothing
    stays split: the list of pages holds every page again, and the others are
    empty, as after the startup. *)
Theorem buddy_coalesces base0 size0 alloc trees_at a0 a :
  0 < base0 → 0 < size0 < 2 ^ 31 → base0 + size0 < 2 ^ 64 →
  buddy_startup base0 size0 = Ret (Some (alloc, trees_at, a0)) → reach a0 a [] →
  ∃ head ps, lists a = replicate 8 0 ++ [head] ∧ dll (heap a) 0 head ps ∧
    ps ≡ₚ pages (base a) (Z.to_nat (num_trees a)).
Proof.
  intros Hb Hs He Hstart Hr. pose proof (buddy_startup_ok base0 size0 Hb Hs He) as H0. rewrite Hstart in H0.
  destruct H0 as (_ & _ & _ & _ & _ & HI0 & _).
  destruct (reach_inv a0 _ a [] HI0) as (ts & HI & _ & Hl); [intros p k; apply fresh_unused|done|].
  assert (ts = replicate (Z.to_nat (num_trees a)) (Leaf Free)) as Hts.
  { rewrite <-(pages_of_pool a ts HI). unfold zlen. rewrite Nat2Z.id.
    apply unused_fresh; [apply HI|apply HI|]. eapply no_used_trees; [apply HI|].
    intros p k Hin%Hl. set_solver. }
  destruct (h_lists _ _ (i_holds _ _ HI)) as (fs & [H1 H2 _ H4] & Hfs). rewrite Hts in Hfs.
  assert (length (lists a) = 9%nat ∧ length fs = 9%nat) as [Hll Hlf]
    by (unfold zlen, NUM_LISTS, MAX_BLOCK_LOG2, MIN_BLOCK_LOG2 in *; lia).
  destruct (lookup_lt_is_Some_2 fs TOP) as [ps Hps]; [unfold TOP; lia|].
  destruct (H4 _ _ Hps) as (head & Hhead & Hd). exists head, ps. split_and!; [|done|].
  - apply list_eq_same_length with 9%nat; [by rewrite length_app, length_replicate|done|].
    intros i x y Hi Hx Hy. destruct (decide (i = TOP)) as [->|Hne].
    { rewrite lookup_app_r in Hy by (rewrite length_replicate; unfold TOP; lia).
      unfold TOP in *. simpl in Hy. congruence. }
    unfold TOP in Hne. rewrite lookup_app_l in Hy by (rewrite length_replicate; lia).
    apply lookup_replicate in Hy as [-> _]. destruct (lookup_lt_is_Some_2 fs i) as [qs Hqs]; [lia|].
    destruct (H4 _ _ Hqs) as (h & Hh & Hdi). rewrite Hh in Hx. injection Hx as <-.
    apply (dll_head _ _ _ _ Hdi). destruct qs as [|q qs]; [done|].
    assert (q ∈ q :: qs) as Hq by by left. rewrite (Hfs _ _ Hqs) in Hq.
    apply elem_of_at_level in Hq. destruct (blocks_fresh _ _ _ _ _ Hq). unfold TOP in *. lia.
  - rewrite (Hfs _ _ Hps). by rewrite at_level_fresh.
Qed.

(** ** Deviations *)

(** A free inside of a block in use is not caught: the bit of the block is
    found set, and the search for the buddy leaves the pool. *)
Lemma interior_free_aborts :
  (r ← buddy_startup 4096 20000;
   match r with
   | Some (_, _, a) => '(a, p) ← malloc a 100; free a 100 (p + 1)
   | None => Fail OutOfFuel
   end) = Fail AssertFail.
Proof. vm_compute. reflexivity. Qed.

(** [buddy_allocated] takes the block's size, not the size that was asked for. *)
Lemma allocated_size_asserts :
  (r ← buddy_startup 4096 20000;
   match r with
   | Some (_, _, a) => '(a, p) ← malloc a 100; buddy_allocated (Some a) p 100
   | None => Fail OutOfFuel
   end) = Fail AssertFail.
Proof. vm_compute. reflexivity. Qed.

(** ** Witnesses *)

Definition example_pool : buddy :=
  match buddy_startup 4096 20000 with
  | Ret (Some (_, _, a)) => a
  | _ => mkBuddy 0 0 [] [] 0 ∅
  end.

Lemma example_startup : buddy_startup 4096 20000 = Ret (Some (4096, 4200, example_pool)).
Proof. vm_compute. reflexivity. Qed.

Lemma example_inv : Inv example_pool (replicate 3 (Leaf Free)).
Proof.
  pose proof (buddy_startup_ok 4096 20000) as H. rewrite example_startup in H.
  destruct H as (_ & _ & _ & _ & _ & H & _); [lia..|].
  assert (num_trees example_pool = 3) as Hn by (vm_compute; reflexivity). by rewrite Hn in H.
Qed.

Lemma buddy_startup_correct_witness :
  0 < 4096 ∧ 0 < 20000 < 2 ^ 31 ∧ 4096 + 20000 < 2 ^ 64 ∧
  wp (buddy_startup 4096 20000) (started 4096 20000).
Proof. split_and!; try lia. apply (buddy_startup_correct 4096 20000); lia. Defined.

Lemma buddy_malloc_correct_witness :
  wp (buddy_malloc (Some example_pool) 100) (λ '(a', p), ∃ a1, a' = Some a1 ∧
    if decide (100 = 0 ∨ 4096 < 100) then a1 = example_pool ∧ p = 0
    else if decide (p = 0) then
      a1 = example_pool ∧
      ∀ q j, 100 ≤ bs j → (q, j, Free) ∉ blocks (replicate 3 (Leaf Free)) (base example_pool)
    else ∃ k ts', 100 ≤ bs k ∧ (∀ j, 100 ≤ bs j → (k ≤ j)%nat) ∧
      granted example_pool a1 (replicate 3 (Leaf Free)) ts' p k).
Proof. apply (buddy_malloc_correct example_pool (replicate 3 (Leaf Free)) 100 example_inv). lia. Defined.

Lemma buddy_history_safe_witness :
  ∃ a p, malloc example_pool 100 = Ret (a, p) ∧
    (∀ n, 0 ≤ n → ∃ a' p', malloc a n = Ret (a', p')).
Proof.
  destruct (malloc example_pool 100) as [[a p]|] eqn:Hrun; [|vm_compute in Hrun; discriminate].
  exists a, p. split; [reflexivity|].
  assert (reach example_pool a (if decide (p = 0) then [] else [(p, level 100)])) as Hr
    by (eapply reach_malloc; [constructor| |exact Hrun]; lia).
  apply (buddy_history_safe 4096 20000 4096 4200 example_pool a _
           ltac:(lia) ltac:(lia) ltac:(lia) example_startup Hr).
Defined.

(** One block allocated and given back. *)
Definition example_used : buddy :=
  match malloc example_pool 100 with Ret (a, _) => a | _ => example_pool end.
Definition example_freed : buddy :=
  match free example_used 100 8192 with Ret a => a | _ => example_pool end.

Lemma example_used_inv :
  ∃ ts, Inv example_used ts ∧ (8192, 3%nat, Used) ∈ blocks ts (base example_used).
Proof.
  assert (malloc example_pool 100 = Ret (example_used, 8192)) as Hrun by (by vm_compute).
  pose proof (reach_malloc example_pool example_pool [] 100 example_used 8192 (reach_start _) ltac:(lia) Hrun) as Hr.
  rewrite decide_False in Hr by done.
  destruct (reach_inv example_pool (replicate 3 (Leaf Free)) _ _ example_inv (fresh_unused _ _) Hr) as (ts & HI & Ht).
  exists ts. split; [done|]. apply Ht. left.
Qed.

Lemma buddy_free_correct_witness :
  ∃ ts, (8192, 3%nat, Used) ∈ blocks ts (base example_used) ∧
    wp (buddy_free (Some example_used) 100 8192) (λ a', ∃ a1, a' = Some a1 ∧
      if buddy_owned (Some example_used) 8192 && bit example_used 8192 3 then
        (8192, 3%nat, Used) ∈ blocks ts (base example_used) ∧ ∃ ts', released example_used a1 ts ts' 8192 3
      else ¬ ((8192, 3%nat, Used) ∈ blocks ts (base example_used)) ∧ a1 = example_used) ∧
    buddy_owned (Some example_used) 8192 && bit example_used 8192 3 = true.
Proof.
  destruct example_used_inv as (ts & HI & Hin). exists ts. split; [exact Hin|]. split; [|by vm_compute].
  apply (buddy_free_correct example_used ts 100 8192 3 HI).
  - by vm_compute.
  - intros j Hj. apply Nat.nlt_ge. intros Hlt. pose proof (bs_le j 2) as H. change (bs 2) with 64 in H. lia.
  - split_and!; [by vm_compute|by vm_compute|by exists 64|unfold TOP; lia].
Defined.

Lemma example_reach : reach example_pool example_freed [].
Proof.
  assert (malloc example_pool 100 = Ret (example_used, 8192)) as H1 by (vm_compute; reflexivity).
  assert (free example_used 100 8192 = Ret example_freed) as H2 by (vm_compute; reflexivity).
  pose proof (reach_malloc example_pool example_pool [] 100 example_used 8192
    (reach_start example_pool) ltac:(lia) H1) as Hr.
  refine (reach_free _ _ _ 100 8192 _ Hr _ _ H2); [lia|].
  split_and!; [by vm_compute|by vm_compute|by exists 64|by vm_compute; lia].
Qed.

Lemma buddy_coalesces_witness :
  malloc example_pool 100 = Ret (example_used, 8192) ∧
  ∃ head ps, lists example_freed = replicate 8 0 ++ [head] ∧ dll (heap example_freed) 0 head ps ∧
    ps ≡ₚ pages (base example_freed) (Z.to_nat (num_trees example_freed)).
Proof.
  split; [vm_compute; reflexivity|].
  apply (buddy_coalesces 4096 20000 4096 4200 example_pool example_freed
           ltac:(lia) ltac:(lia) ltac:(lia) example_startup example_reach).
Defined.
