(* ===== verification/Conc.v ===== *)
(** Threads that share memory: programs made of atomic actions, their
    interleavings, and a rely/guarantee logic with ghost state for them.  The
    lock-free queues of [src/lockfree], the semaphore and the thread pool of
    [src/thread] are written as such programs. *)
From S2P Require Import Prelude.
From stdpp Require Export relations.

#[global] Open Scope Z_scope.

(** ** Programs

    [act f k] is one atomic access of the shared state; [await c k] waits until
    [c] can be done, as the busy loop [while (!c);] does, one access each time
    around, or a lock.  Atomics are sequentially
    consistent, as C's are by default; a [memcpy] is one action for each byte. *)
Inductive prog (S A : Type) : Type :=
  | done (a : A)
  | act (X : Type) (f : S → outcome (S * X)) (k : X → prog S A)
  | await (c : S → option S) (k : prog S A).
Arguments done {S A} a.
Arguments act {S A X} f k.
Arguments await {S A} c k.

#[global] Instance prog_ret S : MRet (prog S) := λ A, done.
#[global] Instance prog_bind S : MBind (prog S) := λ A B k,
  fix go p := match p with
  | done a => k a
  | act f j => act f (λ x, go (j x))
  | await c j => await c (go j)
  end.

Section operations.
Context {S : Type}.

Definition load {X} (f : S → X) : prog S X := act (λ s, Ret (s, f s)) done.
Definition store (f : S → S) : prog S unit := act (λ s, Ret (f s, tt)) done.
(** An access that can fail, and a step of the thread alone that can. *)
Definition access {X} (f : S → outcome X) : prog S X := act (λ s, x ← f s; Ret (s, x)) done.
Definition update (f : S → outcome S) : prog S unit := act (λ s, s' ← f s; Ret (s', tt)) done.
Definition pure {X} (m : outcome X) : prog S X := act (λ s, x ← m; Ret (s, x)) done.
(** [while (!c);] *)
Definition spin (c : S → bool) : prog S unit := await (λ s, if c s then Some s else None) (done tt).
(** A thread that is never scheduled again. *)
Definition stopped {A} : prog S A := await (λ _, None) (act (λ s, Fail OutOfFuel) (λ x : A, done x)).

Fixpoint for_each {X} (l : list X) (body : X → prog S unit) : prog S unit :=
  match l with
  | [] => done tt
  | x :: l => body x;; for_each l body
  end.

Fixpoint collect {X Y} (l : list X) (body : X → prog S (list Y)) : prog S (list Y) :=
  match l with
  | [] => done []
  | x :: l => r ← body x; rs ← collect l body; done (r ++ rs)
  end.

(** A client of a structure: one operation after the other, each answer kept. *)
Fixpoint script {O A} (op : O → prog S A) (os : list O) : prog S (list (O * A)) :=
  match os with
  | [] => done []
  | o :: os => a ← op o; rs ← script op os; done ((o, a) :: rs)
  end.

(** A program by itself, and one of several threads making a step. *)
Fixpoint run {A} (p : prog S A) (s : S) : outcome (S * A) :=
  match p with
  | done a => Ret (s, a)
  | act f k => '(s', x) ← f s; run (k x) s'
  | await c k => match c s with Some s' => run k s' | None => Fail Deadlock end
  end.

Definition next {A} (p : prog S A) (s : S) : outcome (S * prog S A) :=
  match p with
  | done a => Ret (s, done a)
  | act f k => '(s', x) ← f s; Ret (s', k x)
  | await c k => Ret (match c s with Some s' => (s', k) | None => (s, await c k) end)
  end.

Inductive step {A} : S * list (prog S A) → S * list (prog S A) → Prop :=
  | step_thread i s ps p s' p' :
      ps !! i = Some p → next p s = Ret (s', p') → step (s, ps) (s', <[i := p']> ps).

(** A given order of the threads' steps, executed. *)
Fixpoint exec {A} (order : list nat) (c : S * list (prog S A)) : outcome (S * list (prog S A)) :=
  match order with
  | [] => Ret c
  | i :: order =>
      match c.2 !! i with
      | Some p => '(s', p') ← next p c.1; exec order (s', <[i := p']> c.2)
      | None => Fail OutOfBounds
      end
  end.

Lemma exec_steps {A} order (c c' : S * list (prog S A)) :
  exec order c = Ret c' → nsteps step (length order) c c'.
Proof.
  revert c. induction order as [|i order IH]; intros [s ps]; simpl; [intros [= <-]; constructor|].
  destruct (ps !! i) as [p|] eqn:Hp; [|done].
  destruct (next p s) as [[s' p']|] eqn:Hn; simpl; [|done].
  intros H. econstructor; [by econstructor|by apply IH].
Qed.

(** Some thread's next action is a fault: a failing assertion, say. *)
Definition faults {A} (c : S * list (prog S A)) : Prop :=
  ∃ i p e, c.2 !! i = Some p ∧ next p c.1 = Fail e.

Definition finished {A} (ps : list (prog S A)) (i : nat) (a : A) : Prop := ps !! i = Some (done a).

(** A thread that waits for the others. *)
Definition blocked {A} (p : prog S A) (s : S) : bool :=
  match p with await c _ => match c s with Some _ => false | None => true end | _ => false end.

Lemma run_bind {A B} (p : prog S A) (k : A → prog S B) s :
  run (p ≫= k) s = '(s', a) ← run p s; run (k a) s'.
Proof.
  revert s. induction p as [a|X f j IH|c j IH]; intros s; [done| |].
  - cbn [mbind prog_bind run]. destruct (f s) as [[s' x]|]; simpl; [apply IH|done].
  - cbn [mbind prog_bind run]. destruct (c s) as [s'|]; [apply IH|done].
Qed.

Lemma run_load_bind {X A} (f : S → X) (k : X → prog S A) s : run (load f ≫= k) s = run (k (f s)) s.
Proof. done. Qed.
Lemma run_store_bind {A} (f : S → S) (k : unit → prog S A) s : run (store f ≫= k) s = run (k tt) (f s).
Proof. done. Qed.
Lemma run_store (f : S → S) s : run (store f) s = Ret (f s, tt).
Proof. done. Qed.
Lemma run_pure_bind {X A} (m : outcome X) (k : X → prog S A) s :
  run (pure m ≫= k) s = x ← m; run (k x) s.
Proof. cbn. by destruct m. Qed.
Lemma run_access_bind {X A} (f : S → outcome X) (k : X → prog S A) s :
  run (access f ≫= k) s = x ← f s; run (k x) s.
Proof. cbn. by destruct (f s). Qed.
Lemma run_update_bind {A} (f : S → outcome S) (k : unit → prog S A) s :
  run (update f ≫= k) s = s' ← f s; run (k tt) s'.
Proof. cbn. by destruct (f s). Qed.
Lemma run_spin_bind {A} (c : S → bool) (k : unit → prog S A) s :
  c s = true → run (spin c ≫= k) s = run (k tt) s.
Proof. intros Hc. cbn. by rewrite Hc. Qed.
Lemma run_act_bind {X A} (f : S → outcome (S * X)) (k : X → prog S A) s :
  run (act f done ≫= k) s = '(s', x) ← f s; run (k x) s'.
Proof. done. Qed.

(** Total correctness of a program run by itself. *)
Lemma wp_run_bind {A B} (p : prog S A) (k : A → prog S B) s Q :
  wp (run p s) (λ '(s', a), wp (run (k a) s') Q) → wp (run (p ≫= k) s) Q.
Proof. rewrite run_bind. by destruct (run p s) as [[]|]. Qed.

Lemma wp_run_for_each (P : Z → S → Prop) (body : Z → prog S unit) lo n s :
  0 ≤ n → P lo s →
  (∀ k s, lo ≤ k < lo + n → P k s → wp (run (body k) s) (λ '(s', _), P (k + 1) s')) →
  wp (run (for_each (seqZ lo n) body) s) (λ '(s', _), P (lo + n) s').
Proof.
  intros Hn HP Hbody. remember (Z.to_nat n) as m eqn:Hm. revert lo n Hm Hn s HP Hbody.
  induction m as [|m IH]; intros lo n Hm Hn s HP Hbody.
  - rewrite seqZ_nil by lia. simpl. by replace (lo + n) with lo by lia.
  - rewrite seqZ_cons by lia. cbn [for_each]. apply wp_run_bind.
    eapply wp_mono; [apply Hbody; [lia|done]|]. intros [s' []] H1.
    replace (lo + n) with (Z.succ lo + Z.pred n) by lia.
    apply IH; [lia|lia|exact H1|]. intros. apply Hbody; [lia|done].
Qed.

Lemma wp_run_collect {Y} (P : Z → list Y → S → Prop) (body : Z → prog S (list Y)) lo n ys s :
  0 ≤ n → P lo ys s →
  (∀ k ys s, lo ≤ k < lo + n → P k ys s → wp (run (body k) s) (λ '(s', r), P (k + 1) (ys ++ r) s')) →
  wp (run (collect (seqZ lo n) body) s) (λ '(s', r), P (lo + n) (ys ++ r) s').
Proof.
  intros Hn HP Hbody. remember (Z.to_nat n) as m eqn:Hm. revert lo n ys Hm Hn s HP Hbody.
  induction m as [|m IH]; intros lo n ys Hm Hn s HP Hbody.
  - rewrite seqZ_nil by lia. simpl. rewrite app_nil_r. by replace (lo + n) with lo by lia.
  - rewrite seqZ_cons by lia. cbn [collect]. apply wp_run_bind.
    eapply wp_mono; [apply Hbody; [lia|done]|]. intros [s' r] H1. apply wp_run_bind.
    replace (lo + n) with (Z.succ lo + Z.pred n) by lia.
    eapply wp_mono; [apply (IH _ _ (ys ++ r)); [lia|lia|exact H1|]|].
    + intros. apply Hbody; [lia|done].
    + intros [s2 rs] H2. simpl. by rewrite app_assoc.
Qed.

(** A program without busy loops that leaves a part of the state alone. *)
Fixpoint quiet {X A} (f : S → X) (p : prog S A) : Prop :=
  match p with
  | done _ => True
  | act g k => (∀ s s' x, g s = Ret (s', x) → f s' = f s) ∧ ∀ x, quiet f (k x)
  | await _ _ => False
  end.

Section quiet.
Context {X : Type} (f : S → X).

Lemma quiet_bind {A B} (p : prog S A) (k : A → prog S B) :
  quiet f p → (∀ a, quiet f (k a)) → quiet f (p ≫= k).
Proof.
  intros Hp Hk. induction p as [a|Y g j IH|c j IH]; [apply Hk| |done].
  destruct Hp as [Hg Hj]. split; [exact Hg|]. intros x. apply IH, Hj.
Qed.

Lemma quiet_access {Y} (g : S → outcome Y) : quiet f (access g).
Proof. split; [|done]. intros s s' x. simpl. by destruct (g s); intros [= <- _]. Qed.

Lemma quiet_load {Y} (g : S → Y) : quiet f (load g).
Proof. split; [|done]. by intros s s' x [= <- _]. Qed.

Lemma quiet_pure {Y} (m : outcome Y) : quiet f (pure m).
Proof. split; [|done]. intros s s' x. simpl. by destruct m; intros [= <- _]. Qed.

Lemma quiet_store (g : S → S) : (∀ s, f (g s) = f s) → quiet f (store g).
Proof. intros Hg. split; [|done]. by intros s s' x [= <- _]. Qed.

Lemma quiet_update (g : S → outcome S) :
  (∀ s s', g s = Ret s' → f s' = f s) → quiet f (update g).
Proof.
  intros Hg. split; [|done]. intros s s' x. simpl. destruct (g s) eqn:E; intros [= <- _]. by apply Hg.
Qed.

Lemma quiet_for_each {Y} (l : list Y) body : (∀ y, quiet f (body y)) → quiet f (for_each l body).
Proof. intros Hb. induction l; [done|]. apply quiet_bind; [apply Hb|done]. Qed.

Lemma quiet_collect {Y Z} (l : list Y) (body : Y → prog S (list Z)) :
  (∀ y, quiet f (body y)) → quiet f (collect l body).
Proof.
  intros Hb. induction l; [done|]. apply quiet_bind; [apply Hb|]. intros r.
  by apply quiet_bind.
Qed.
End quiet.
End operations.

(** A program of a part of the shared state, in the whole.  The part may be
    gone, memory that was freed. *)
Fixpoint lift {S T A} (get : S → outcome T) (set : T → S → S) (p : prog T A) : prog S A :=
  match p with
  | done a => done a
  | act f k => act (λ s, t ← get s; '(t', x) ← f t; Ret (set t' s, x)) (λ x, lift get set (k x))
  | await c k => await (λ s,
      match get s with
      | Ret t => t' ← c t; Some (set t' s)
      | Fail _ => None
      end) (lift get set k)
  end.

Lemma lift_bind {S T A B} (get : S → outcome T) set (p : prog T A) (k : A → prog T B) :
  (∀ s, run (lift get set (p ≫= k)) s = run (lift get set p ≫= λ a, lift get set (k a)) s).
Proof.
  induction p as [a|X f j IH|c j IH]; intros s; [done| |]; cbn.
  - destruct (get s) as [t|]; cbn; [|done]. destruct (f t) as [[t' x]|]; cbn; [apply IH|done].
  - destruct (get s) as [t|]; [|done]. destruct (c t) as [t'|]; cbn; [apply IH|done].
Qed.

Lemma run_lift {S T A} (get : S → outcome T) set (p : prog T A) s t :
  (∀ s t t', get s = Ret t → get (set t' s) = Ret t') →
  (∀ s t t', set t (set t' s) = set t s) → (∀ s t, get s = Ret t → set t s = s) →
  get s = Ret t →
  run (lift get set p) s = '(t', a) ← run p t; Ret (set t' s, a).
Proof.
  intros Hgs Hss Hsg. revert s t. induction p as [a|X f k IH|c k IH]; intros s t Ht; cbn [lift run].
  - cbn. by rewrite Hsg.
  - rewrite Ht. cbn. destruct (f t) as [[t' x]|]; cbn; [|done]. rewrite (IH x _ t') by by eapply Hgs.
    destruct (run (k x) t') as [[]|]; cbn; by rewrite ?Hss.
  - rewrite Ht. destruct (c t) as [t'|]; cbn; [|done]. rewrite (IH _ t') by by eapply Hgs.
    destruct (run k t') as [[]|]; cbn; by rewrite ?Hss.
Qed.
Ltac quiet :=
  repeat match goal with
  | |- quiet _ (_ ≫= _) => apply quiet_bind; [|intros ?]
  | |- quiet _ (load _) => apply quiet_load
  | |- quiet _ (access _) => apply quiet_access
  | |- quiet _ (pure _) => apply quiet_pure
  | |- quiet _ (store _) => apply quiet_store; intros; reflexivity
  | |- quiet _ (for_each _ _) => apply quiet_for_each; intros ?
  | |- quiet _ (collect _ _) => apply quiet_collect; intros ?
  | |- quiet _ (mret _) => exact I
  | |- quiet _ (done _) => exact I
  | H : context [quiet _ _] |- quiet _ _ => apply H
  | |- quiet _ (match ?x with _ => _ end) => destruct x
  end.

(** ** The logic

    What a proof about threads is given relative to: the invariant [I], which
    may depend on the number of steps, and what each thread relies on. *)
Class Protocol {S G : Type} (I : nat → S → G → Prop) (R : nat → S → G → S → G → Prop) : Prop := {
  rely_reflexive i s g : R i s g s g;
  rely_transitive i s g s1 g1 s2 g2 : R i s g s1 g1 → R i s1 g1 s2 g2 → R i s g s2 g2;
  inv_next n s g : I n s g → I (Datatypes.S n) s g;
}.

(** The laws as hypotheses, for [eauto]. *)
Ltac protocol I R :=
  pose proof (rely_reflexive (I := I) (R := R)) as R_refl;
  pose proof (rely_transitive (I := I) (R := R)) as R_trans;
  pose proof (inv_next (I := I) (R := R)) as I_next.

Section logic.
Context {S G : Type}.
(** [I n] holds after [n] steps; [R i] is what the other threads may do to the
    state and the ghost state as the thread [i] sees it; [T] bounds the steps. *)
Variables (I : nat → S → G → Prop) (R : nat → S → G → S → G → Prop) (T : Z).

Definition keeps (i : nat) (s : S) (g : G) (s' : S) (g' : G) : Prop :=
  ∀ j, j ≠ i → R j s g s' g'.

Fixpoint rg {A} (i : nat) (p : prog S A) (Q : A → S → G → Prop) (s : S) (g : G) : Prop :=
  match p with
  | done a => ∀ n s1 g1, I n s1 g1 → R i s g s1 g1 → Q a s1 g1
  | act f k => ∀ n s1 g1, Z.of_nat n < T → I n s1 g1 → R i s g s1 g1 →
      ∃ s2 x g2, f s1 = Ret (s2, x) ∧ I (Datatypes.S n) s2 g2 ∧ keeps i s1 g1 s2 g2 ∧
        rg i (k x) Q s2 g2
  | await c k => ∀ n s1 g1 s2, Z.of_nat n < T → I n s1 g1 → R i s g s1 g1 → c s1 = Some s2 →
      ∃ g2, I (Datatypes.S n) s2 g2 ∧ keeps i s1 g1 s2 g2 ∧ rg i k Q s2 g2
  end.

Context `{!Protocol I R}.

Lemma rg_stable {A} i (p : prog S A) Q s g s1 g1 :
  rg i p Q s g → R i s g s1 g1 → rg i p Q s1 g1.
Proof. protocol I R. destruct p; simpl; intros H HR; intros; eapply H; eauto. Qed.

(** Proving a program from the state after some interference. *)
Lemma rg_now {A} i (p : prog S A) Q s g :
  (∀ n s1 g1, I n s1 g1 → R i s g s1 g1 → rg i p Q s1 g1) → rg i p Q s g.
Proof. protocol I R.
  destruct p; simpl; intros H; intros; eapply H; eauto.
Qed.

Lemma rg_bind {A B} i (p : prog S A) (k : A → prog S B) Q s g :
  rg i p (λ a s' g', rg i (k a) Q s' g') s g → rg i (p ≫= k) Q s g.
Proof. protocol I R.
  revert s g. induction p as [a|X f j IH|c j IH]; intros s g H.
  - apply rg_now. intros n s1 g1 HI HR. exact (H n s1 g1 HI HR).
  - cbn. intros n s1 g1 Hn HI HR. destruct (H n s1 g1 Hn HI HR) as (s2 & x & g2 & ? & ? & ? & ?).
    exists s2, x, g2. split_and!; [done..|]. by apply IH.
  - cbn. intros n s1 g1 s2 Hn HI HR Hc. destruct (H n s1 g1 s2 Hn HI HR Hc) as (g2 & ? & ? & ?).
    exists g2. split_and!; [done..|]. by apply IH.
Qed.

Lemma rg_mono {A} i (p : prog S A) (Q Q' : A → S → G → Prop) s g :
  rg i p Q s g → (∀ n a s g, I n s g → Q a s g → Q' a s g) → rg i p Q' s g.
Proof.
  intros H HQ. revert s g H. induction p as [a|X f k IH|c k IH]; simpl; intros s g H.
  - intros. eapply HQ; eauto.
  - intros n s1 g1 Hn HI HR. destruct (H n s1 g1 Hn HI HR) as (s2 & x & g2 & ? & ? & ? & ?).
    exists s2, x, g2. eauto 10.
  - intros n s1 g1 s2 Hn HI HR Hc. destruct (H n s1 g1 s2 Hn HI HR Hc) as (g2 & ? & ? & ?).
    exists g2. eauto.
Qed.

(** What the thread [i] can rely on to stay as it is. *)
Definition stable (i : nat) (P : S → G → Prop) : Prop :=
  ∀ n s g s1 g1, P s g → I n s1 g1 → R i s g s1 g1 → P s1 g1.

Lemma rg_ret {A} i (a : A) (Q : A → S → G → Prop) s g :
  stable i (Q a) → Q a s g → rg i (done a) Q s g.
Proof. intros Hs HQ n s1 g1 HI HR. by eapply Hs. Qed.

(** Symbolic execution: a continuation needs to be proved for the state at the
    access only, since its proof survives interference. *)
Lemma rg_access_bind {X A} i (f : S → outcome X) (k : X → prog S A) Q s g :
  (∀ n s1 g1, Z.of_nat n < T → I n s1 g1 → R i s g s1 g1 →
     ∃ x, f s1 = Ret x ∧ rg i (k x) Q s1 g1) → rg i (access f ≫= k) Q s g.
Proof. protocol I R.
  intros H n s1 g1 Hn HI HR. destruct (H n s1 g1 Hn HI HR) as (x & Hx & ?).
  exists s1, x, g1. rewrite Hx. unfold keeps. split_and!; eauto.
Qed.

Lemma rg_load_bind {X A} i (f : S → X) (k : X → prog S A) Q s g :
  (∀ n s1 g1, Z.of_nat n < T → I n s1 g1 → R i s g s1 g1 → rg i (k (f s1)) Q s1 g1) →
  rg i (load f ≫= k) Q s g.
Proof. protocol I R.
  intros H n s1 g1 Hn HI HR. exists s1, (f s1), g1. unfold keeps. split_and!; eauto.
Qed.

Lemma rg_pure_bind {X A} i (m : outcome X) x (k : X → prog S A) Q s g :
  m = Ret x → rg i (k x) Q s g → rg i (pure m ≫= k) Q s g.
Proof. protocol I R.
  intros -> H n s1 g1 Hn HI HR. exists s1, x, g1. unfold keeps. split_and!; eauto.
  by eapply rg_stable.
Qed.

Lemma rg_act_bind {X A} i (f : S → outcome (S * X)) (k : X → prog S A) Q s g :
  (∀ n s1 g1, Z.of_nat n < T → I n s1 g1 → R i s g s1 g1 →
     ∃ s2 x g2, f s1 = Ret (s2, x) ∧ I (Datatypes.S n) s2 g2 ∧ keeps i s1 g1 s2 g2 ∧
       rg i (k x) Q s2 g2) →
  rg i (act f done ≫= k) Q s g.
Proof. done. Qed.

Lemma rg_update_bind {A} i (f : S → outcome S) (k : unit → prog S A) Q s g :
  (∀ n s1 g1, Z.of_nat n < T → I n s1 g1 → R i s g s1 g1 →
     ∃ s2 g2, f s1 = Ret s2 ∧ I (Datatypes.S n) s2 g2 ∧ keeps i s1 g1 s2 g2 ∧ rg i (k tt) Q s2 g2) →
  rg i (update f ≫= k) Q s g.
Proof.
  intros H n s1 g1 Hn HI HR. destruct (H n s1 g1 Hn HI HR) as (s2 & g2 & Hx & ? & ? & ?).
  exists s2, tt, g2. by rewrite Hx.
Qed.

Lemma rg_store_bind {A} i (f : S → S) (k : unit → prog S A) Q s g :
  (∀ n s1 g1, Z.of_nat n < T → I n s1 g1 → R i s g s1 g1 →
     ∃ g2, I (Datatypes.S n) (f s1) g2 ∧ keeps i s1 g1 (f s1) g2 ∧ rg i (k tt) Q (f s1) g2) →
  rg i (store f ≫= k) Q s g.
Proof.
  intros H n s1 g1 Hn HI HR. destruct (H n s1 g1 Hn HI HR) as (g2 & ? & ? & ?).
  exists (f s1), tt, g2. done.
Qed.

(** Waiting without taking anything. *)
Lemma rg_spin_bind {A} i (c : S → bool) (k : unit → prog S A) Q s g :
  (∀ n s1 g1, Z.of_nat n < T → I n s1 g1 → R i s g s1 g1 → c s1 = true → rg i (k tt) Q s1 g1) →
  rg i (spin c ≫= k) Q s g.
Proof. protocol I R.
  intros H n s1 g1 s2 Hn HI HR Hc. destruct (c s1) eqn:E; [|done]. injection Hc as <-.
  exists g1. unfold keeps. split_and!; eauto.
Qed.

Lemma rg_await_bind {A} i (c : S → option S) (k : unit → prog S A) Q s g :
  (∀ n s1 g1 s2, Z.of_nat n < T → I n s1 g1 → R i s g s1 g1 → c s1 = Some s2 →
     ∃ g2, I (Datatypes.S n) s2 g2 ∧ keeps i s1 g1 s2 g2 ∧ rg i (k tt) Q s2 g2) →
  rg i (await c (done tt) ≫= k) Q s g.
Proof. done. Qed.

(** Counting loops. *)
Lemma rg_for_each i (P : Z → S → G → Prop) (body : Z → prog S unit) lo n hi s g :
  (∀ k, stable i (P k)) → 0 ≤ n → hi = lo + n → P lo s g →
  (∀ k s g, lo ≤ k < lo + n → P k s g → rg i (body k) (λ _, P (k + 1)) s g) →
  rg i (for_each (seqZ lo n) body) (λ _, P hi) s g.
Proof. protocol I R.
  intros Hs Hn -> HP Hbody. remember (Z.to_nat n) as m eqn:Hm. revert lo n Hm Hn s g HP Hbody.
  induction m as [|m IH]; intros lo n Hm Hn s g HP Hbody.
  - rewrite seqZ_nil by lia. apply rg_ret; [apply Hs|]. by replace (lo + n) with lo by lia.
  - rewrite seqZ_cons by lia. cbn [for_each]. apply rg_bind.
    eapply rg_mono; [apply Hbody; [lia|done]|]. intros n1 [] s1 g1 _ H1. cbn beta.
    replace (lo + n) with (Z.succ lo + Z.pred n) by lia.
    apply IH; [lia|lia|exact H1|]. intros. apply Hbody; [lia|done].
Qed.

Lemma rg_collect {Y} i (P : Z → list Y → S → G → Prop) (body : Z → prog S (list Y)) lo n hi ys s g :
  (∀ k r, stable i (P k r)) → 0 ≤ n → hi = lo + n → P lo ys s g →
  (∀ k ys s g, lo ≤ k < lo + n → P k ys s g →
     rg i (body k) (λ r, P (k + 1) (ys ++ r)) s g) →
  rg i (collect (seqZ lo n) body) (λ r, P hi (ys ++ r)) s g.
Proof. protocol I R.
  intros Hs Hn -> HP Hbody. remember (Z.to_nat n) as m eqn:Hm. revert lo n ys Hm Hn s g HP Hbody.
  induction m as [|m IH]; intros lo n ys Hm Hn s g HP Hbody.
  - rewrite seqZ_nil by lia. apply rg_ret; [apply Hs|]. rewrite app_nil_r.
    by replace (lo + n) with lo by lia.
  - rewrite seqZ_cons by lia. cbn [collect]. apply rg_bind.
    eapply rg_mono; [apply Hbody; [lia|done]|]. intros n1 r s1 g1 _ H1. cbn beta.
    apply rg_bind. replace (lo + n) with (Z.succ lo + Z.pred n) by lia.
    eapply rg_mono; [apply (IH _ _ (ys ++ r)); [lia|lia|exact H1|]|].
    + intros. apply Hbody; [lia|done].
    + intros n2 rs s2 g2 _ H2. apply rg_ret; [apply Hs|]. by rewrite app_assoc.
Qed.

Lemma rg_stopped {A} i (Q : A → S → G → Prop) s g : rg i stopped Q s g.
Proof. simpl. done. Qed.

(** What holds of each thread alone holds of the threads together. *)
Definition all_rg {A} (ps : list (prog S A)) (Q : nat → A → S → G → Prop) (s : S) (g : G) : Prop :=
  ∀ i p, ps !! i = Some p → rg i p (Q i) s g.

Lemma rg_next {A} i (p : prog S A) Q s g n :
  Z.of_nat n < T → I n s g → rg i p Q s g →
  ∃ s' p' g', next p s = Ret (s', p') ∧ I (Datatypes.S n) s' g' ∧ keeps i s g s' g' ∧ rg i p' Q s' g'.
Proof. protocol I R.
  intros Hn HI H. destruct p as [a|X f k|c k]; cbn [next].
  - exists s, (done a), g. unfold keeps. eauto 10.
  - destruct (H n s g Hn HI (rely_reflexive i s g)) as (s2 & x & g2 & -> & ? & ? & ?). simpl. eauto 10.
  - destruct (c s) as [s2|] eqn:Hc.
    + destruct (H n s g s2 Hn HI (rely_reflexive i s g) Hc) as (g2 & ? & ? & ?). eauto 10.
    + exists s, (await c k), g. unfold keeps. eauto 10.
Qed.

Lemma rg_steps {A} n s (ps : list (prog S A)) s' ps' Q g :
  nsteps step n (s, ps) (s', ps') → Z.of_nat n ≤ T → I 0 s g → all_rg ps Q s g →
  ∃ g', I n s' g' ∧ all_rg ps' Q s' g'.
Proof. protocol I R.
  intros Hsteps Hn HI Hps. revert s' ps' Hsteps Hn. induction n as [|n IH]; intros s' ps' Hsteps Hn.
  - inversion Hsteps; subst. eauto.
  - apply nsteps_inv_r in Hsteps as ([s1 ps1] & Hsteps & Hstep).
    inversion Hstep as [i ? ? p s2 p' Hp Hnext]; subst.
    destruct (IH s1 ps1 Hsteps) as (g1 & HI1 & Hps1); [lia|].
    destruct (rg_next i p (Q i) s1 g1 n) as (s3 & p3 & g3 & Heq & HI3 & Hk & Hp3);
      [lia|done|by apply Hps1|].
    rewrite Hnext in Heq. injection Heq as <- <-. exists g3. split; [done|].
    intros j q Hq. destruct (decide (j = i)) as [->|Hji].
    + rewrite list_lookup_insert_eq in Hq by (by eapply lookup_lt_Some). by injection Hq as <-.
    + rewrite list_lookup_insert_ne in Hq by done. eapply rg_stable; [by apply Hps1|]. by apply Hk.
Qed.

Theorem rg_adequate {A} n s (ps : list (prog S A)) s' ps' Q g :
  I 0 s g → all_rg ps Q s g → nsteps step n (s, ps) (s', ps') → Z.of_nat n < T →
  ¬ faults (s', ps') ∧ ∃ g', I n s' g' ∧ ∀ i a, finished ps' i a → Q i a s' g'.
Proof.
  intros HI Hps Hsteps Hn.
  destruct (rg_steps n s ps s' ps' Q g Hsteps) as (g' & HI' & Hps'); [lia|done..|].
  split.
  - intros (i & p & e & Hp & He). cbn [fst snd] in *.
    destruct (rg_next i p (Q i) s' g' n) as (? & ? & ? & Heq & _); [done..|by apply Hps'|].
    by rewrite He in Heq.
  - exists g'. split; [done|]. intros i a Ha. exact (Hps' i _ Ha n s' g' HI' (rely_reflexive _ _ _)).
Qed.

Lemma rg_run {A X} i (f : S → X) (p : prog S A) Q s g n :
  (∀ n m s g, I n s g → I m s g) → 0 < T → quiet f p → I n s g → rg i p Q s g →
  wp (run p s) (λ '(s', a), f s' = f s ∧ ∃ g', I n s' g' ∧ Q a s' g').
Proof. protocol I R.
  intros Hany HT. revert s g.
  induction p as [a|Y h k IH|c k IH]; intros s g Hq HI H; cbn [run]; [| |done].
  - split; [done|]. exists g. split; [done|]. eapply H; eauto.
  - destruct (H 0%nat s g) as (s2 & x & g2 & Heq & HI2 & _ & Hk); [done|by eapply Hany|done|].
    destruct Hq as [Hh Hq]. rewrite Heq. cbn [mbind outcome_bind].
    eapply wp_mono; [eapply IH; [apply Hq|by eapply Hany|done]|].
    intros [s' a] (Hf & ?). split; [|done]. rewrite Hf. by eapply Hh.
Qed.
End logic.

(** Steps of a proof in the logic. *)
Ltac rg_access := apply rg_access_bind; [apply _|].
Ltac rg_load := apply rg_load_bind; [apply _|].
Ltac rg_pure H := eapply rg_pure_bind; [apply _|exact H|].
Ltac rg_update := apply rg_update_bind.
Ltac rg_store := apply rg_store_bind.
Ltac rg_spin := apply rg_spin_bind; [apply _|].
Ltac rg_bind H := apply rg_bind; [apply _|]; eapply rg_mono; [eapply H|].
