(* ===== verification/Clock.v ===== *)
(** The clock of [src/time/clock.c]: the conversions of what the system's clock
    answers.  The answers themselves are arguments. *)
From S2P Require Import Prelude.
#[global] Open Scope Z_scope.

Record timespec : Type := mkTime { tv_sec : Z; tv_nsec : Z }.

(** [clock_gettime] answered [now].  [time_t] and [long] have 64 bits. *)
Definition get_absolute_time_us (now : timespec) : Z :=
  u64 (tv_sec now * 1000000 + Z.quot (tv_nsec now) 1000).

Definition get_relative_time_ns (time : timespec) : outcome Z :=
  let sec := u64 (tv_sec time) in
  if Z.quot UINT64_MAX 1000000000 <? sec then Fail Aborted
  else
    let res := u64 (sec * 1000000000) in
    let nsec := u64 (tv_nsec time) in
    if u64 (UINT64_MAX - nsec) <? res then Fail Aborted
    else Ret (u64 (res + nsec)).

(** A time of day, after 1970 and before 2500, say. *)
Definition plausible (t : timespec) : Prop := 0 ≤ tv_sec t < 2 ^ 34 ∧ 0 ≤ tv_nsec t < 1000000000.

(** Milliseconds from 1970 on. *)
Definition ms (t : timespec) : Z := tv_sec t * 1000 + tv_nsec t / 1000000.

Lemma get_absolute_time_ms t : plausible t → get_absolute_time_us t / 1000 = ms t.
Proof.
  intros [[??] [??]]. unfold get_absolute_time_us, ms. rewrite Z.quot_div_nonneg by lia.
  assert (0 ≤ tv_nsec t / 1000 < 1000000) by (split; [by apply Z.div_pos|by apply Z.div_lt_upper_bound]).
  rewrite u64_small by lia.
  replace (tv_sec t * 1000000) with ((tv_sec t * 1000) * 1000) by lia.
  rewrite Z.div_add_l by lia. f_equal. by rewrite Zdiv_Zdiv by lia.
Qed.

Lemma get_relative_time_ok t :
  plausible t → get_relative_time_ns t = Ret (tv_sec t * 1000000000 + tv_nsec t).
Proof.
  intros [[??] [??]]. unfold get_relative_time_ns, UINT64_MAX. rewrite !(u64_small (tv_sec t)) by lia.
  assert (Z.quot (2 ^ 64 - 1) 1000000000 = 18446744073) as -> by reflexivity.
  destruct (Z.ltb_spec 18446744073 (tv_sec t)); [lia|].
  rewrite (u64_small (tv_nsec t)), (u64_small (tv_sec t * _)) by lia. rewrite !u64_small by lia.
  destruct (Z.ltb_spec (2 ^ 64 - 1 - tv_nsec t) (tv_sec t * 1000000000)); [lia|done].
Qed.

Lemma get_relative_time_ms t :
  plausible t → ∃ ns, get_relative_time_ns t = Ret ns ∧ ns / 1000000 = ms t.
Proof.
  intros Ht. rewrite get_relative_time_ok by done. eexists. split; [done|]. unfold ms.
  replace (tv_sec t * 1000000000) with ((tv_sec t * 1000) * 1000000) by lia. by rewrite Z.div_add_l by lia.
Qed.
