(* ===== verification/Sync.v ===== *)
(** The mutexes, condition variables and semaphores of [src/thread/sync.c] on
    Linux, as programs over the shared structures. *)
From S2P Require Import Prelude Conc Clock.
#[global] Open Scope Z_scope.

(** ** Mutexes and condition variables

    What POSIX says of a default mutex, [true] when locked: locking waits, a
    thread does not unlock what is not locked. *)
Definition os_mutex_t : Type := bool.

Definition os_mutex_create : os_mutex_t := false.
Definition os_mutex_delete (mutex : os_mutex_t) : outcome unit :=
  if mutex then Fail Undefined else Ret tt.
Definition os_mutex_lock : prog os_mutex_t unit :=
  await (λ m : bool, if m then None else Some true) (done tt).
Definition os_mutex_unlock : prog os_mutex_t unit :=
  update (λ m : bool, if m then Ret false else Fail Undefined).

(** The threads that sleep on the variable, each by the number of its sleep. *)
Record os_condvar_t : Type := mkCond {
  next_sleep : nat;
  sleepers : list nat;
}.

Definition os_condvar_create : os_condvar_t := mkCond 0 [].
Definition os_condvar_delete (condvar : os_condvar_t) : outcome unit :=
  if bool_decide (sleepers condvar = []) then Ret tt else Fail Undefined.

(** Why a sleep ends: by a signal, for no reason, or late, at the time [now]. *)
Inductive wakeup : Type :=
  | Signalled
  | Spurious
  | Late (now : timespec).

(** Unlocking the mutex and falling asleep, in one step. *)
Definition fall_asleep : prog (os_mutex_t * os_condvar_t) nat :=
  act (λ '(m, c),
    if m : bool then Ret ((false, mkCond (S (next_sleep c)) (sleepers c ++ [next_sleep c])), next_sleep c)
    else Fail Undefined) done.

(** Waking up, for which the mutex must be free. *)
Definition wake_up (sleep : nat) (signalled : bool) : prog (os_mutex_t * os_condvar_t) unit :=
  await (λ '(m, c),
    if (m : bool) || (signalled && bool_decide (sleep ∈ sleepers c)) then None
    else Some (true, mkCond (next_sleep c) (filter (.≠ sleep) (sleepers c)))) (done tt).

Definition before (t u : timespec) : bool :=
  (tv_sec t <? tv_sec u) || ((tv_sec t =? tv_sec u) && (tv_nsec t <=? tv_nsec u)).

(** The answer says whether the time was over, ETIMEDOUT.  Without a deadline a
    sleep is never late. *)
Definition pthread_cond_wait (deadline : option timespec) (w : wakeup)
    : prog (os_mutex_t * os_condvar_t) bool :=
  sleep ← fall_asleep;
  match w, deadline with
  | Signalled, _ => wake_up sleep true;; mret false
  | Spurious, _ => wake_up sleep false;; mret false
  | Late now, Some abstime =>
      if before abstime now then wake_up sleep false;; mret true else stopped
  | Late _, None => stopped
  end.

Definition os_condvar_wait (timeout_ms : Z) (now : timespec) (w : wakeup)
    : prog (os_mutex_t * os_condvar_t) bool :=
  err ← (if timeout_ms <? 0 then pthread_cond_wait None w
         else
           let wakeup_ms := u64 (u64 timeout_ms + get_absolute_time_us now / 1000) in
           pthread_cond_wait (Some (mkTime (wakeup_ms / 1000) (wakeup_ms mod 1000 * 1000000))) w);
  mret (negb err).

(** One of the sleepers wakes, POSIX does not say which: [pick]. *)
Definition os_condvar_signal (pick : nat) : prog os_condvar_t unit :=
  store (λ c, mkCond (next_sleep c) (delete (pick mod length (sleepers c))%nat (sleepers c))).

(** ** Semaphores *)

Record semaphore_t : Type := mkSem {
  count : Z;
  mutex : os_mutex_t;
  cond : os_condvar_t;
}.

Definition with_count (s : semaphore_t) (c : Z) : semaphore_t := mkSem c (mutex s) (cond s).

Definition on_mutex {A} : prog os_mutex_t A → prog semaphore_t A :=
  lift (λ s, Ret (mutex s)) (λ m s, mkSem (count s) m (cond s)).
Definition on_cond {A} : prog os_condvar_t A → prog semaphore_t A :=
  lift (λ s, Ret (cond s)) (λ c s, mkSem (count s) (mutex s) c).
Definition on_both {A} : prog (os_mutex_t * os_condvar_t) A → prog semaphore_t A :=
  lift (λ s, Ret (mutex s, cond s)) (λ p s, mkSem (count s) p.1 p.2).

Definition semaphore_create (cnt : Z) : semaphore_t :=
  mkSem cnt os_mutex_create os_condvar_create.

Definition semaphore_delete (sem : semaphore_t) : outcome unit :=
  os_mutex_delete (mutex sem);;
  os_condvar_delete (cond sem).

(** One time around the loop: the two readings of the clock, and how the sleep
    ends.  A thread that is out of rounds is not scheduled again. *)
Record round : Type := mkRound { relative_now : timespec; absolute_now : timespec; how : wakeup }.

Fixpoint semaphore_wait_loop (cnt timeout_ms start_time_ms : Z) (rounds : list round)
    : prog semaphore_t bool :=
  c ← load count;
  if c <? cnt then
    match rounds with
    | [] => stopped
    | mkRound rel abs w :: rounds =>
        ns ← pure (get_relative_time_ns rel);
        let current_time_ms := ns / 1000000 in
        remaining_ms ← pure (if 0 <=? timeout_ms
                             then int (timeout_ms - s32 (u64 (current_time_ms - start_time_ms)))
                             else Ret (-1));
        ok ← on_both (os_condvar_wait remaining_ms abs w);
        if ok : bool then semaphore_wait_loop cnt timeout_ms start_time_ms rounds
        else on_mutex os_mutex_unlock;; mret false
    end
  else
    c ← load count;
    c ← pure (int (c - cnt));
    store (λ s, with_count s c);;
    on_mutex os_mutex_unlock;;
    mret true.

Definition semaphore_wait (cnt timeout_ms : Z) (start : timespec) (rounds : list round)
    : prog semaphore_t bool :=
  pure (c_assert (0 <? cnt));;
  ns ← pure (get_relative_time_ns start);
  on_mutex os_mutex_lock;;
  semaphore_wait_loop cnt timeout_ms (ns / 1000000) rounds.

Definition semaphore_signal (cnt : Z) (pick : nat) : prog semaphore_t unit :=
  pure (c_assert (0 <? cnt));;
  on_mutex os_mutex_lock;;
  c ← load count;
  c ← pure (int (c + cnt));
  store (λ s, with_count s c);;
  c ← load count;
  (if 0 <? c then on_cond (os_condvar_signal pick) else mret tt);;
  on_mutex os_mutex_unlock.

(** ** Clients *)

Inductive sem_op : Type :=
  | Wait (cnt timeout_ms : Z) (start : timespec) (rounds : list round)
  | Signal (cnt : Z) (pick : nat).

Definition do_op (o : sem_op) : prog semaphore_t bool :=
  match o with
  | Wait cnt timeout_ms start rounds => semaphore_wait cnt timeout_ms start rounds
  | Signal cnt pick => semaphore_signal cnt pick;; mret true
  end.

(** What an operation that gave this answer did to the count. *)
Definition effect (e : sem_op * bool) : list Z :=
  match e with
  | (Wait cnt _ _ _, true) => [- cnt]
  | (Signal cnt _, _) => [cnt]
  | _ => []
  end.

(** The clock neither runs backwards between the readings of a wait nor jumps
    by more than 24 days. *)
Definition op_valid (o : sem_op) : Prop :=
  match o with
  | Wait cnt timeout_ms start rounds =>
      0 < cnt ≤ INT_MAX ∧ timeout_ms ≤ INT_MAX ∧ plausible start ∧
      Forall (λ r, plausible (relative_now r) ∧ ms start ≤ ms (relative_now r) ≤ ms start + INT_MAX) rounds
  | Signal cnt _ => 0 < cnt ≤ INT_MAX
  end.

Definition gains (ds : list Z) : Z := foldr (λ d z, Z.max 0 d + z) 0 ds.
Definition signals (os : list sem_op) : Z :=
  gains ((λ o, match o with Signal cnt _ => cnt | _ => 0 end) <$> os).

(** ** The invariant

    The ghost state is the thread that has the lock, and the ledger: each change
    of the count with the thread that made it, in order. *)
Record ghost : Type := mkGhost {
  owner : option nat;
  ledger : list (nat * Z);
}.

Definition total (ds : list Z) : Z := foldr Z.add 0 ds.
Definition moves (t : nat) (l : list (nat * Z)) : list Z := (filter (λ e, e.1 = t) l).*2.

(** Nobody takes what is not there. *)
Fixpoint permits (c : Z) (ds : list Z) : Prop :=
  match ds with
  | [] => True
  | d :: ds => (d < 0 → 0 ≤ c + d) ∧ permits (c + d) ds
  end.

Lemma total_app ds es : total (ds ++ es) = total ds + total es.
Proof. induction ds as [|d ds IH]; simpl; [done|]. unfold total in *. simpl. lia. Qed.
Lemma gains_app ds es : gains (ds ++ es) = gains ds + gains es.
Proof. induction ds as [|d ds IH]; simpl; [done|]. unfold gains in *. simpl. lia. Qed.
Lemma gains_nonneg ds : 0 ≤ gains ds.
Proof. induction ds as [|d ds IH]; simpl; unfold gains in *; simpl; lia. Qed.
Lemma total_gains ds : total ds ≤ gains ds.
Proof. induction ds as [|d ds IH]; simpl; unfold total, gains in *; simpl; lia. Qed.

Lemma permits_snoc c ds d : permits c ds → (d < 0 → 0 ≤ c + total ds + d) → permits c (ds ++ [d]).
Proof.
  revert c. induction ds as [|e ds IH]; intros c; simpl; unfold total in *; simpl.
  - intros _ H. split; [|done]. intros. rewrite Z.add_0_r in H. auto.
  - intros [He Hds] H. split; [done|]. apply IH; [done|]. intros Hd. specialize (H Hd). lia.
Qed.

Lemma permits_min c ds : permits c ds → Z.min c 0 ≤ c + total ds.
Proof.
  revert c. induction ds as [|d ds IH]; intros c; unfold total in *; simpl; [lia|].
  intros [Hd Hds%IH]. destruct (decide (d < 0)); [specialize (Hd ltac:(done))|]; lia.
Qed.

Lemma moves_app t l k : moves t (l ++ k) = moves t l ++ moves t k.
Proof. unfold moves. by rewrite filter_app, fmap_app. Qed.
Lemma moves_others t k : Forall (λ e, e.1 ≠ t) k → moves t k = [].
Proof. intros Hk. unfold moves. by rewrite filter_others. Qed.
Lemma moves_one t d : moves t [(t, d)] = [d].
Proof. unfold moves. by rewrite filter_cons_True. Qed.

Lemma total_mono (f h : nat → Z) us : (∀ u, f u ≤ h u) → total (f <$> us) ≤ total (h <$> us).
Proof.
  intros Hfh. induction us as [|u us IH]; [done|]. rewrite !fmap_cons.
  unfold total in *. cbn [foldr]. apply Z.add_le_mono; [apply Hfh|exact IH].
Qed.

Lemma total_point (f : nat → Z) t d k n :
  (k ≤ t < k + n)%nat →
  total ((λ u, f u + (if decide (u = t) then d else 0)) <$> seq k n) = total (f <$> seq k n) + d.
Proof.
  revert k. induction n as [|n IH]; intros k Ht; [lia|].
  cbn [seq]. rewrite !fmap_cons. unfold total in *. cbn [foldr]. destruct (decide (k = t)) as [->|Hne].
  - assert ((λ u, f u + (if decide (u = t) then d else 0)) <$> seq (S t) n = f <$> seq (S t) n) as ->; [|lia].
    apply list_fmap_ext. intros i u [-> ?]%lookup_seq. case_decide; lia.
  - rewrite IH by lia. lia.
Qed.

Lemma gains_split N (l : list (nat * Z)) :
  Forall (λ e, (e.1 < N)%nat) l → gains l.*2 = total ((λ t, gains (moves t l)) <$> seq 0 N).
Proof.
  induction 1 as [|[t d] l Ht Hl IH].
  - induction (seq 0 N) as [|u us IH]; [done|]. rewrite fmap_cons. unfold total in *. cbn [foldr]. by rewrite <- IH.
  - simpl in Ht. rewrite fmap_cons. unfold gains at 1. cbn [foldr fst snd]. fold (gains l.*2). rewrite IH.
    rewrite Z.add_comm, <- (total_point _ t (Z.max 0 d) 0%nat N) by lia. f_equal.
    apply list_fmap_ext. intros _ u _. change ((t, d) :: l) with ([(t, d)] ++ l). rewrite moves_app, gains_app.
    case_decide as Hut; [subst u; rewrite moves_one|rewrite (moves_others u [_]) by (constructor; [simpl; congruence|done])].
    + change (gains [d]) with (Z.max 0 d + 0). lia.
    + change (gains []) with 0. lia.
Qed.

Lemma int_ok x : INT_MIN ≤ x ≤ INT_MAX → int x = Ret x.
Proof. intros ?. unfold int. destruct (Z.leb_spec INT_MIN x), (Z.leb_spec x INT_MAX); [done|lia..]. Qed.

Section semaphore.
(** The number of threads, the first count, and how much each thread may signal. *)
Variables (N : nat) (c0 : Z) (allowed : nat → Z) (T : Z).
Hypothesis room : INT_MIN ≤ c0 ∧ c0 + total (allowed <$> seq 0 N) ≤ INT_MAX.

Record inv (n : nat) (s : semaphore_t) (g : ghost) : Prop := {
  inv_mutex : mutex s = bool_decide (is_Some (owner g));
  inv_count : count s = c0 + total (ledger g).*2;
  inv_permits : permits c0 (ledger g).*2;
  inv_threads : Forall (λ e, (e.1 < N)%nat) (ledger g);
  inv_allowed t : gains (moves t (ledger g)) ≤ allowed t;
  inv_owner t : owner g = Some t → (t < N)%nat;
}.

(** What the others leave to the thread [t]: its part of the ledger, the lock
    if it has it, and with the lock the count. *)
Record rely (t : nat) (s : semaphore_t) (g : ghost) (s' : semaphore_t) (g' : ghost) : Prop := {
  rely_ledger : ∃ K, ledger g' = ledger g ++ K ∧ Forall (λ e, e.1 ≠ t) K;
  rely_owner : owner g = Some t ↔ owner g' = Some t;
  rely_held : owner g = Some t → count s' = count s ∧ ledger g' = ledger g;
}.

#[export] Instance semaphore_protocol : Protocol inv rely.
Proof.
  split.
  - intros t s g. split; [|done|done]. exists []. by rewrite app_nil_r.
  - intros t s g s1 g1 s2 g2 [(K & HK & ?) Ho Hh] [(K' & HK' & ?) Ho' Hh'].
    split; [|by rewrite Ho|].
    + exists (K ++ K'). rewrite HK', HK, app_assoc. split; [done|]. by apply Forall_app.
    + intros Hown. destruct (Hh Hown), (Hh' (proj1 Ho Hown)). split; congruence.
  - intros n s g [? ? ? ? ? ?]. by split.
Qed.

Lemma count_range n s g : inv n s g → INT_MIN ≤ count s ≤ INT_MAX.
Proof.
  intros [_ -> Hp Ht Ha _]. pose proof (permits_min _ _ Hp). pose proof (total_gains (ledger g).*2) as Hg.
  rewrite (gains_split N _ Ht) in Hg.
  pose proof (total_mono (λ t, gains (moves t (ledger g))) allowed (seq 0 N) Ha).
  unfold INT_MIN in *. lia.
Qed.

(** What a thread knows: outside of an operation, and with the lock. *)
Definition outside (t : nat) (l : list Z) (s : semaphore_t) (g : ghost) : Prop :=
  owner g ≠ Some t ∧ moves t (ledger g) = l.
Definition holding (t : nat) (l : list Z) (s : semaphore_t) (g : ghost) : Prop :=
  owner g = Some t ∧ moves t (ledger g) = l.

Lemma rely_moves t s g s' g' : rely t s g s' g' → moves t (ledger g') = moves t (ledger g).
Proof.
  intros HR. destruct (rely_ledger _ _ _ _ _ HR) as (K & -> & HK).
  by rewrite moves_app, (moves_others t K), app_nil_r.
Qed.

Lemma outside_stable t l : stable inv rely t (outside t l).
Proof.
  intros n s g s1 g1 [Ho Hl] _ HR. pose proof (rely_owner _ _ _ _ _ HR).
  split; [by intros ?%H|]. by rewrite (rely_moves _ _ _ _ _ HR).
Qed.
Lemma holding_stable t l : stable inv rely t (holding t l).
Proof.
  intros n s g s1 g1 [Ho Hl] _ HR. pose proof (rely_owner _ _ _ _ _ HR).
  split; [by apply H|]. by rewrite (rely_moves _ _ _ _ _ HR).
Qed.

(** A step by which the owner of the lock, [o] before and [o'] after it, and
    nothing else changes: locking, unlocking, waking and sleeping. *)
Lemma change_owner n s g t o' (cd : os_condvar_t) :
  inv n s g → (t < N)%nat → (owner g = None ∨ owner g = Some t) → (o' = None ∨ o' = Some t) →
  let s' := mkSem (count s) (bool_decide (is_Some o')) cd in
  let g' := mkGhost o' (ledger g) in
  inv (S n) s' g' ∧ keeps rely t s g s' g'.
Proof.
  intros [Hm Hc Hp Ht Ha _] HtN Ho Ho' s' g'. split; [split; try done; naive_solver|].
  intros u Hu. split; [exists []; by rewrite app_nil_r| |done].
  simpl. naive_solver.
Qed.

Lemma sem_lock_ok t l s g :
  (t < N)%nat → outside t l s g → rg inv rely T t (on_mutex os_mutex_lock) (λ _, holding t l) s g.
Proof.
  intros HtN Hout n s1 g1 s2 _ Hi HR Hlock.
  pose proof (outside_stable _ _ _ _ _ _ _ Hout Hi HR) as [Ho Hl].
  simpl in Hlock. destruct (mutex s1) eqn:Hm; [done|]. injection Hlock as <-.
  assert (owner g1 = None) as Hnone.
  { rewrite (inv_mutex _ _ _ Hi) in Hm. destruct (owner g1); [done|done]. }
  destruct (change_owner n s1 g1 t (Some t) (cond s1) Hi HtN) as [Hi2 Hk]; [by left|by right|].
  eexists. split; [exact Hi2|]. split; [exact Hk|]. apply rg_ret; [apply holding_stable|by split].
Qed.

Lemma unlock_ok t l s g :
  (t < N)%nat → holding t l s g → rg inv rely T t (on_mutex os_mutex_unlock) (λ _, outside t l) s g.
Proof.
  intros HtN Hh n s1 g1 _ Hi HR. pose proof (holding_stable _ _ _ _ _ _ _ Hh Hi HR) as [Ho Hl].
  simpl. rewrite (inv_mutex _ _ _ Hi), Ho. simpl.
  destruct (change_owner n s1 g1 t None (cond s1) Hi HtN) as [Hi2 Hk2]; [by right|by left|].
  eexists _, _, _. split; [reflexivity|]. split; [exact Hi2|]. split; [exact Hk2|].
  apply (rg_ret _ _ T t tt (λ _, outside t l)); [apply outside_stable|by split].
Qed.

(** The sleep gives the lock up and has it again at the end, however it ends. *)
Lemma wake_up_ok {A} t l sleep b (a : A) s g :
  (t < N)%nat → outside t l s g →
  rg inv rely T t (on_both (wake_up sleep b;; mret a)) (λ _, holding t l) s g.
Proof.
  intros HtN Hout n s1 g1 s2 _ Hi HR Hw.
  pose proof (outside_stable _ _ _ _ _ _ _ Hout Hi HR) as [Ho Hl].
  simpl in Hw. destruct (mutex s1) eqn:Hm; [done|]. simpl in Hw.
  destruct (b && _); [done|]. injection Hw as <-.
  assert (owner g1 = None) as Hnone.
  { rewrite (inv_mutex _ _ _ Hi) in Hm. destruct (owner g1); [done|done]. }
  edestruct (change_owner n s1 g1 t (Some t)) as [Hi2 Hk]; [exact Hi|exact HtN|by left|by right|].
  eexists. split; [exact Hi2|]. split; [exact Hk|]. apply rg_ret; [apply holding_stable|by split].
Qed.

Lemma condvar_wait_ok t l deadline w s g :
  (t < N)%nat → holding t l s g →
  rg inv rely T t (on_both (err ← pthread_cond_wait deadline w; mret (negb err))) (λ _, holding t l) s g.
Proof.
  intros HtN Hh n s1 g1 _ Hi HR. pose proof (holding_stable _ _ _ _ _ _ _ Hh Hi HR) as [Ho Hl].
  simpl. rewrite (inv_mutex _ _ _ Hi), Ho. simpl.
  edestruct (change_owner n s1 g1 t None) as [Hi2 Hk]; [exact Hi|exact HtN|by right|by left|].
  eexists _, _, _. split; [reflexivity|]. split; [exact Hi2|]. split; [exact Hk|].
  assert (outside t l (mkSem (count s1) false
    (mkCond (S (next_sleep (cond s1))) (sleepers (cond s1) ++ [next_sleep (cond s1)])))
    (mkGhost None (ledger g1))) as Hout by by split.
  destruct w as [| |now]; [by apply (wake_up_ok t l _ true true)|by apply (wake_up_ok t l _ false true)|].
  destruct deadline as [abstime|]; [|done].
  destruct (before abstime now); [by apply (wake_up_ok t l _ false false)|done].
Qed.

Lemma os_condvar_wait_ok t l timeout_ms now w s g :
  (t < N)%nat → holding t l s g →
  rg inv rely T t (on_both (os_condvar_wait timeout_ms now w)) (λ _, holding t l) s g.
Proof. intros. unfold os_condvar_wait. destruct (timeout_ms <? 0); by apply condvar_wait_ok. Qed.

(** The owner of the lock moves the count. *)
Lemma move_ok n s g t l d :
  inv n s g → holding t l s g → (t < N)%nat → (d < 0 → 0 ≤ count s + d) →
  gains (l ++ [d]) ≤ allowed t →
  let s' := with_count s (count s + d) in
  let g' := mkGhost (owner g) (ledger g ++ [(t, d)]) in
  inv (S n) s' g' ∧ keeps rely t s g s' g' ∧ holding t (l ++ [d]) s' g'.
Proof.
  intros [Hm Hc Hp Ht Ha Hw] [Ho Hl] HtN Hd Hgain s' g'. split_and!.
  - split; [done| | | | |exact Hw]; simpl.
    + rewrite fmap_app, total_app, Hc. unfold total; simpl. lia.
    + rewrite fmap_app. apply permits_snoc; [done|]. rewrite <- Hc. done.
    + apply Forall_app. split; [done|]. by repeat constructor.
    + intros u. rewrite moves_app. destruct (decide (u = t)) as [->|Hu].
      * by rewrite moves_one, Hl.
      * rewrite (moves_others u [_]), app_nil_r by (constructor; [simpl; congruence|done]). apply Ha.
  - intros u Hu. split; [|done|].
    + exists [(t, d)]. split; [done|]. constructor; [simpl; congruence|done].
    + rewrite Ho. intros [= ->]. done.
  - split; [done|]. simpl. by rewrite moves_app, moves_one, Hl.
Qed.

(** [sem->count -= cnt], [sem->count += cnt]: the count does not change between
    the load and the store. *)
Lemma change_count {A} t l d (k : prog semaphore_t A) (Q : A → semaphore_t → ghost → Prop) c s g :
  holding t l s g → count s = c → (t < N)%nat → INT_MIN ≤ c + d ≤ INT_MAX → (d < 0 → 0 ≤ c + d) →
  gains (l ++ [d]) ≤ allowed t →
  (∀ s g, holding t (l ++ [d]) s g → rg inv rely T t k Q s g) →
  rg inv rely T t (c ← pure (int (c + d)); store (λ s, with_count s c);; k) Q s g.
Proof.
  intros Hh Hc HtN Hint Hd Hg Hk.
  rg_pure (int_ok _ Hint). rg_store. intros n s1 g1 _ Hi HR.
  pose proof (holding_stable _ _ _ _ _ _ _ Hh Hi HR) as Hh1.
  destruct (rely_held _ _ _ _ _ HR (proj1 Hh)) as [Hc1 _]. rewrite Hc in Hc1.
  destruct (move_ok n s1 g1 t l d Hi Hh1 HtN) as (Hi2 & Hk2 & Hh2); [by rewrite Hc1|done|].
  rewrite Hc1 in *. eexists. split; [exact Hi2|]. split; [exact Hk2|]. by apply Hk.
Qed.

Lemma unlock_ret {A} t l (a : A) (Q : A → list Z) s g :
  (t < N)%nat → holding t l s g → Q a = l →
  rg inv rely T t (on_mutex os_mutex_unlock;; mret a) (λ a, outside t (Q a)) s g.
Proof.
  intros HtN Hh Ha. rg_bind unlock_ok; [exact HtN|exact Hh|].
  intros n [] s1 g1 _ Hout. apply rg_ret; [apply outside_stable|by rewrite Ha].
Qed.

(** The time that is left of a wait fits an [int]. *)
Lemma remaining_ok timeout_ms start rel ns :
  timeout_ms ≤ INT_MAX → ms start ≤ ms rel ≤ ms start + INT_MAX → ns / 1000000 = ms rel →
  ∃ r, (if 0 <=? timeout_ms then int (timeout_ms - s32 (u64 (ns / 1000000 - ms start))) else Ret (-1)) = Ret r.
Proof.
  unfold INT_MAX. intros Ht Hms ->. destruct (Z.leb_spec 0 timeout_ms); [|by eexists].
  rewrite u64_small, s32_small by lia. unfold int, INT_MIN, INT_MAX.
  destruct (Z.leb_spec (- 2 ^ 31) (timeout_ms - (ms rel - ms start))); [|lia].
  destruct (Z.leb_spec (timeout_ms - (ms rel - ms start)) (2 ^ 31 - 1)); [by eexists|lia].
Qed.

Lemma take_ok t l cnt s g :
  (t < N)%nat → 0 < cnt → gains l ≤ allowed t → holding t l s g → cnt ≤ count s →
  rg inv rely T t
    (c ← load count; c ← pure (int (c - cnt)); store (λ s, with_count s c);;
     on_mutex os_mutex_unlock;; mret true)
    (λ b : bool, outside t (if b then l ++ [- cnt] else l)) s g.
Proof.
  intros HtN Hcnt Hg Hh Hle. rg_load. intros n s1 g1 _ Hi HR.
  pose proof (holding_stable _ _ _ _ _ _ _ Hh Hi HR) as Hh1.
  destruct (rely_held _ _ _ _ _ HR (proj1 Hh)) as [Hc _]. pose proof (count_range _ _ _ Hi).
  apply (change_count t l (- cnt)); [done|done|done|unfold INT_MIN, INT_MAX in *; lia|lia| |].
  - rewrite gains_app. change (gains [- cnt]) with (Z.max 0 (- cnt) + 0). lia.
  - intros s2 g2 Hh2. by apply (unlock_ret t (l ++ [- cnt]) true (λ b : bool, if b then l ++ [- cnt] else l)).
Qed.

Lemma wait_loop_ok t l cnt timeout_ms start rounds s g :
  (t < N)%nat → 0 < cnt → timeout_ms ≤ INT_MAX →
  Forall (λ r, plausible (relative_now r) ∧ ms start ≤ ms (relative_now r) ≤ ms start + INT_MAX) rounds →
  gains l ≤ allowed t → holding t l s g →
  rg inv rely T t (semaphore_wait_loop cnt timeout_ms (ms start) rounds)
    (λ b : bool, outside t (if b then l ++ [- cnt] else l)) s g.
Proof.
  intros HtN Hcnt Hto Hv Hg. revert s g. induction Hv as [|[rel abs w] rounds [Hp Hms] Hv IH];
    intros s g Hh; cbn [semaphore_wait_loop]; rg_load; intros n1 s1 g1 _ Hi1 HR1;
    pose proof (holding_stable _ _ _ _ _ _ _ Hh Hi1 HR1) as Hh1;
    destruct (Z.ltb_spec (count s1) cnt) as [Hfew|Henough].
  - apply rg_stopped.
  - by apply take_ok.
  - destruct (get_relative_time_ms rel Hp) as (ns & Hns & Hdiv). rg_pure Hns.
    destruct (remaining_ok timeout_ms start rel ns Hto Hms Hdiv) as [r Hr]. rg_pure Hr.
    rg_bind (os_condvar_wait_ok t l r abs w); [done|exact Hh1|].
    intros n2 [] s2 g2 Hi2 Hh2; cbn beta; [by apply IH|].
    apply (unlock_ret t l false (λ b : bool, if b then l ++ [- cnt] else l)); done.
  - by apply take_ok.
Qed.

Lemma wait_ok t l cnt timeout_ms start rounds s g :
  (t < N)%nat → op_valid (Wait cnt timeout_ms start rounds) → gains l ≤ allowed t → outside t l s g →
  rg inv rely T t (semaphore_wait cnt timeout_ms start rounds)
    (λ b : bool, outside t (if b then l ++ [- cnt] else l)) s g.
Proof.
  intros HtN (Hcnt & Hto & Hp & Hv) Hg Hout. unfold semaphore_wait.
  assert (c_assert (0 <? cnt) = Ret tt) as Ha by (destruct (Z.ltb_spec 0 cnt); [done|lia]).
  rg_pure Ha. destruct (get_relative_time_ms start Hp) as (ns & Hns & Hdiv). rg_pure Hns. rewrite Hdiv.
  rg_bind sem_lock_ok; [done|exact Hout|]. intros n [] s1 g1 _ Hh. apply wait_loop_ok; try done. lia.
Qed.

Lemma signal_ok t l cnt pick s g :
  (t < N)%nat → 0 < cnt → gains (l ++ [cnt]) ≤ allowed t → outside t l s g →
  rg inv rely T t (semaphore_signal cnt pick) (λ _, outside t (l ++ [cnt])) s g.
Proof.
  intros HtN Hcnt Hg Hout. unfold semaphore_signal.
  assert (c_assert (0 <? cnt) = Ret tt) as Ha by (destruct (Z.ltb_spec 0 cnt); [done|lia]).
  rg_pure Ha. rg_bind sem_lock_ok; [done|exact Hout|]. intros n1 [] s1 g1 _ Hh1. cbn beta.
  rg_load. intros n2 s2 g2 _ Hi2 HR2. pose proof (holding_stable _ _ _ _ _ _ _ Hh1 Hi2 HR2) as Hh2.
  destruct (move_ok n2 s2 g2 t l cnt Hi2 Hh2 HtN) as (Hi & _ & _); [lia|done|].
  pose proof (count_range _ _ _ Hi) as Hr. simpl in Hr.
  apply (change_count t l cnt); [done|done|done|done|lia|done|]. intros s3 g3 Hh3.
  rg_load. intros n4 s4 g4 _ Hi4 HR4. pose proof (holding_stable _ _ _ _ _ _ _ Hh3 Hi4 HR4) as Hh4.
  apply rg_bind; [apply _|]. apply (rg_mono _ _ _ _ _ (λ _, holding t (l ++ [cnt]))).
  - destruct (0 <? count s4); [|by apply rg_ret; [apply holding_stable|]].
    intros n5 s5 g5 _ Hi5 HR5. eexists _, _, g5. split; [reflexivity|].
    destruct Hi5 as [? ? ? ? ? ?] eqn:E. split; [by split|]. clear E.
    split; [intros u _; split; [exists []; by rewrite app_nil_r|done|done]|].
    apply rg_ret; [apply holding_stable|]. by apply (holding_stable _ _ _ _ _ _ _ Hh4 Hi5 HR5).
  - intros n5 [] s5 g5 _ Hh5. by apply unlock_ok.
Qed.

Lemma do_op_ok o t l s g :
  (t < N)%nat → op_valid o → gains l + signals [o] ≤ allowed t → outside t l s g →
  rg inv rely T t (do_op o) (λ b, outside t (l ++ effect (o, b))) s g.
Proof.
  intros HtN Hv Hg Hout. destruct o as [cnt timeout_ms start rounds|cnt pick]; cbn [do_op].
  - change (signals _) with 0 in Hg. eapply rg_mono; [apply (wait_ok t l); [done|done|lia|done]|].
    intros n [] s1 g1 _ H1; simpl; [done|]. by rewrite app_nil_r.
  - change (signals _) with (Z.max 0 cnt + 0) in Hg.
    rg_bind (signal_ok t l cnt pick); [done|apply Hv| |done|].
    + rewrite gains_app. change (gains [cnt]) with (Z.max 0 cnt + 0). lia.
    + intros n [] s1 g1 _ H1. by apply rg_ret; [apply outside_stable|].
Qed.

Definition client_post t (l : list Z) os (rs : list (sem_op * bool)) (s : semaphore_t) (g : ghost) : Prop :=
  rs.*1 = os ∧ outside t (l ++ (rs ≫= effect)) s g.

Lemma client_stable t l os rs : stable inv rely t (client_post t l os rs).
Proof. intros n s g s1 g1 [? ?] Hi HR. split; [done|]. by eapply outside_stable. Qed.

Lemma client_ok os t l s g :
  (t < N)%nat → Forall op_valid os → gains l + signals os ≤ allowed t → outside t l s g →
  rg inv rely T t (script do_op os) (client_post t l os) s g.
Proof.
  intros HtN Hv. revert l s g. induction Hv as [|o os Ho Hos IH]; intros l s g Hg Hout.
  - apply rg_ret; [apply client_stable|]. split; [done|]. by rewrite app_nil_r.
  - assert (signals (o :: os) = signals [o] + signals os) as Hsig.
    { unfold signals. by rewrite (fmap_app _ [o] os), gains_app. }
    assert (0 ≤ signals os) by apply gains_nonneg.
    assert (0 ≤ signals [o]) by apply gains_nonneg.
    cbn [script]. rg_bind (do_op_ok o t l); [done|done|lia|exact Hout|]. intros n a s1 g1 Hi1 Hout1. cbn beta.
    rg_bind (IH (l ++ effect (o, a))); [|exact Hout1|].
    + rewrite gains_app. pose proof (gains_nonneg l). assert (gains (effect (o, a)) ≤ signals [o]); [|lia].
      destruct o as [cnt ? ? ?|cnt ?], a; unfold signals, gains; simpl; simpl in Ho; lia.
    + intros n2 rs s2 g2 _ [Hrs Hout2]. apply rg_ret; [apply client_stable|].
      split; [by rewrite fmap_cons, Hrs|]. by rewrite bind_cons, app_assoc.
Qed.

Lemma create_inv : (∀ t, 0 ≤ allowed t) → inv 0 (semaphore_create c0) (mkGhost None []).
Proof. intros Ha. split; simpl; [done|unfold total; simpl; lia|done|done|intros t; apply Ha|done]. Qed.
End semaphore.

(** ** Without interference *)

Lemma wait_alone cnt timeout_ms start rounds s :
  0 < cnt → plausible start → mutex s = false → cnt ≤ count s ≤ INT_MAX →
  run (semaphore_wait cnt timeout_ms start rounds) s = Ret (mkSem (count s - cnt) false (cond s), true).
Proof.
  intros Hcnt Hp Hm Hc. destruct (get_relative_time_ms start Hp) as (ns & Hns & _).
  unfold semaphore_wait. rewrite run_pure_bind. destruct (Z.ltb_spec 0 cnt); [|lia]. cbn [c_assert mbind outcome_bind].
  rewrite run_pure_bind, Hns. cbn [mbind outcome_bind]. cbn -[semaphore_wait_loop]. rewrite Hm.
  cbn [mbind option_bind].
  assert (∀ m, run (semaphore_wait_loop cnt timeout_ms m rounds) (mkSem (count s) true (cond s)) =
    Ret (mkSem (count s - cnt) false (cond s), true)) as ->; [|done].
  intros m. destruct rounds as [|r rounds]; cbn [semaphore_wait_loop]; rewrite run_load_bind; cbn [count];
    (destruct (Z.ltb_spec (count s) cnt); [lia|]);
    rewrite run_load_bind, run_pure_bind; cbn [count]; rewrite int_ok by (unfold INT_MIN, INT_MAX in *; lia); done.
Qed.

Lemma signal_alone cnt pick s :
  0 < cnt → mutex s = false → INT_MIN ≤ count s + cnt ≤ INT_MAX →
  ∃ c, run (semaphore_signal cnt pick) s = Ret (mkSem (count s + cnt) false c, tt).
Proof.
  intros Hcnt Hm Hc. unfold semaphore_signal. rewrite run_pure_bind.
  destruct (Z.ltb_spec 0 cnt); [|lia]. cbn. rewrite Hm. cbn. rewrite int_ok by done. cbn.
  destruct (0 <? count s + cnt); cbn; by eexists.
Qed.

(** ** Properties *)

Definition may_signal (clients : list (list sem_op)) (t : nat) : Z := default 0 (signals <$> clients !! t).

Lemma may_signal_all clients : may_signal clients <$> seq 0 (length clients) = signals <$> clients.
Proof.
  apply list_eq. intros i. rewrite !list_lookup_fmap. unfold may_signal.
  destruct (decide (i < length clients)%nat) as [Hi|Hi].
  - rewrite lookup_seq_lt by done. simpl. destruct (lookup_lt_is_Some_2 clients i Hi) as [os ->]. done.
  - rewrite lookup_seq_ge, lookup_ge_None_2 by lia. done.
Qed.

(** C33. Under Linux, let the first count and all the signals that the threads
    ever make add up to no more than [INT_MAX].  However their waits and
    signals interleave, whatever wakes the sleepers and whichever sleeper a
    signal picks: no assertion fails, no mutex is misused and the count does
    not overflow.  The count is the first one changed by one ledger, in which
    the waits that succeeded took what they asked for and what was there, the
    signals gave their number, and the waits that timed out did nothing, each
    thread's in its order; and when all threads are done nobody holds the
    mutex.  That a sleeper wakes up when the count suffices for it is not
    promised, and not so: [one_waiter_woken]. *)
Theorem semaphore_permits c0 clients n s ts :
  INT_MIN ≤ c0 → c0 + total (signals <$> clients) ≤ INT_MAX →
  Forall (Forall op_valid) clients →
  nsteps step n (semaphore_create c0, script do_op <$> clients) (s, ts) →
  ¬ faults (s, ts) ∧ ∃ l, count s = c0 + total l.*2 ∧ permits c0 l.*2 ∧
    (∀ t rs, finished ts t rs → Some rs.*1 = clients !! t ∧ moves t l = (rs ≫= effect)) ∧
    ((∀ t, (t < length clients)%nat → ∃ rs, finished ts t rs) → mutex s = false).
Proof.
  intros Hmin Hmax Hv Hsteps.
  set (N := length clients). set (allowed := may_signal clients). set (T := Z.of_nat n + 1).
  assert (INT_MIN ≤ c0 ∧ c0 + total (allowed <$> seq 0 N) ≤ INT_MAX) as Hroom.
  { unfold allowed, N. by rewrite may_signal_all. }
  assert (∀ t, 0 ≤ allowed t) as Ha.
  { intros t. unfold allowed, may_signal. destruct (clients !! t); [apply gains_nonneg|done]. }
  pose (Q := λ (t : nat) (rs : list (sem_op * bool)) (s : semaphore_t) (g : ghost),
    ∃ os, clients !! t = Some os ∧ client_post t [] os rs s g).
  destruct (rg_adequate (inv N c0 allowed) rely T n (semaphore_create c0) (script do_op <$> clients) s ts Q
    (mkGhost None [])) as (Hok & g & HI & Hdone); [by apply create_inv| |done|unfold T; lia|].
  { intros t p Hp. rewrite list_lookup_fmap in Hp. destruct (clients !! t) as [os|] eqn:Hos; [|done].
    injection Hp as <-. eapply rg_mono; [apply (client_ok N c0 allowed T Hroom os t [])|].
    - by eapply lookup_lt_Some.
    - rewrite Forall_lookup in Hv. by eapply Hv.
    - unfold allowed, may_signal. rewrite Hos. simpl. lia.
    - by split.
    - intros n1 rs s1 g1 _ ?. by exists os. }
  split; [done|]. exists (ledger g). split; [apply HI|]. split; [apply HI|]. split.
  - intros t rs Hf. destruct (Hdone t rs Hf) as (os & Hos & Hrs & Hout).
    split; [by rewrite Hos, Hrs|]. apply Hout.
  - intros Hall. rewrite (inv_mutex _ _ _ _ _ _ HI). destruct (owner g) as [t|] eqn:Ho; [exfalso|done].
    destruct (Hall t) as [rs Hf]; [by apply (inv_owner _ _ _ _ _ _ HI)|].
    destruct (Hdone t rs Hf) as (os & _ & _ & Hout). by apply (proj1 Hout).
Qed.

Definition at_ms (n : Z) : timespec := mkTime (n / 1000) (n mod 1000 * 1000000).

(** After 11 ms of a wait for 10 the time that is left is -1, which means for
    ever: without a signal the wait does not come back.  After 10 ms it does. *)
Lemma late_wait_forever now :
  run (semaphore_wait 1 10 (at_ms 0) [mkRound (at_ms 11) (at_ms 1011) (Late now)]) (semaphore_create 0)
    = Fail Deadlock ∧
  run (semaphore_wait 1 10 (at_ms 0) [mkRound (at_ms 10) (at_ms 1010) (Late (at_ms 1010))]) (semaphore_create 0)
    = Ret (mkSem 0 false (mkCond 1 []), false).
Proof. split; vm_compute; reflexivity. Qed.

(** A signal of 2 wakes one of two threads that wait for 1; the other sleeps on
    although the count is 1. *)
Definition two_waiters : list (prog semaphore_t bool) :=
  let w := semaphore_wait 1 (-1) (at_ms 0) [mkRound (at_ms 0) (at_ms 0) Signalled] in
  [w; w; semaphore_signal 2 0;; mret true].

Lemma one_waiter_woken :
  wp (exec (concat (replicate 10 <$> [0; 1; 2; 0; 1])%nat) (semaphore_create 0, two_waiters)) (λ '(s, ts),
    count s = 1 ∧ mutex s = false ∧ (λ p, blocked p s) <$> ts = [false; true; false]).
Proof. vm_compute. done. Qed.

(** ** The theorem at work *)

Definition example_clients : list (list sem_op) :=
  [[Wait 2 (-1) (at_ms 0) [mkRound (at_ms 0) (at_ms 1000) Spurious; mkRound (at_ms 5) (at_ms 1005) Signalled];
    Wait 1 10 (at_ms 0) [mkRound (at_ms 2) (at_ms 1002) (Late (at_ms 1012))]];
   [Signal 1 0; Signal 1 0]].
Definition example_answers : list (list (sem_op * bool)) :=
  [zip (nth 0 example_clients []) [true; false]; zip (nth 1 example_clients []) [true; true]].
Definition example_end : semaphore_t := mkSem 0 false (mkCond 2 []).

Lemma semaphore_example_run :
  exec (concat (replicate 60 [0; 1])%nat) (semaphore_create 0, script do_op <$> example_clients) =
  Ret (example_end, done <$> example_answers).
Proof. vm_compute. reflexivity. Qed.

Lemma semaphore_permits_witness :
  ¬ faults (example_end, done (S := semaphore_t) <$> example_answers) ∧
  ∃ l, count example_end = 0 + total l.*2 ∧ permits 0 l.*2 ∧
    (∀ t rs, finished (S := semaphore_t) (done <$> example_answers) t rs →
       Some rs.*1 = example_clients !! t ∧ moves t l = (rs ≫= effect)) ∧
    ((∀ t, (t < 2)%nat → ∃ rs, finished (S := semaphore_t) (done <$> example_answers) t rs) →
     mutex example_end = false).
Proof.
  apply (semaphore_permits 0 example_clients 120).
  - vm_compute. discriminate.
  - vm_compute. discriminate.
  - repeat constructor; vm_compute; discriminate.
  - exact (exec_steps _ _ _ semaphore_example_run).
Defined.
