(* ===== verification/Spsc.v ===== *)
(** The queue of one producer and one consumer of [src/lockfree/spsc_queue.c]:
    its operations as programs over the shared structure, and the FIFO order
    that holds in every interleaving of the two threads. *)
From S2P Require Import Prelude Conc.
#[global] Open Scope Z_scope.

(** ** The code *)

(** [items] is the memory of the slots, byte by byte. *)
Record spsc_queue_t : Type := mkSpsc {
  items : list Z;
  item_size : Z;
  cap_log2 : Z;
  head : Z;
  tail : Z;
}.

Definition with_items (q : spsc_queue_t) (d : list Z) : spsc_queue_t :=
  mkSpsc d (item_size q) (cap_log2 q) (head q) (tail q).
Definition with_head (q : spsc_queue_t) (h : Z) : spsc_queue_t :=
  mkSpsc (items q) (item_size q) (cap_log2 q) h (tail q).
Definition with_tail (q : spsc_queue_t) (t : Z) : spsc_queue_t :=
  mkSpsc (items q) (item_size q) (cap_log2 q) (head q) t.

Definition spsc_queue_init (mem : list Z) (num_items_log2 isize : Z) : spsc_queue_t :=
  mkSpsc mem (u32 isize) (u32 num_items_log2) 0 0.

(** [1U << cap_log2] *)
Definition one_shl (n : Z) : outcome Z :=
  if n <? 32 then Ret (u32 (Z.shiftl 1 n)) else Fail BadShift.
Definition get_cap : prog spsc_queue_t Z := access (λ q, one_shl (cap_log2 q)).

Definition spsc_queue_capacity : prog spsc_queue_t Z := cap ← get_cap; mret (s32 cap).

Definition spsc_queue_size : prog spsc_queue_t Z :=
  h ← load head;
  t ← load tail;
  mret (s32 (u64 (t - h))).

(** The offset of a slot in [items]; [index * item_size] is unsigned. *)
Definition item_addr (q : spsc_queue_t) (index : Z) : Z := u32 (u32 index * item_size q).

Definition index_ok (q : spsc_queue_t) (index : Z) : outcome unit :=
  if cap_log2 q <? 64 then
    c_assert ((0 <=? index) && (index <? s32 (u64 (Z.shiftl 1 (cap_log2 q)))))
  else Fail BadShift.

(** [memcpy(item_addr(index), src + off, item_size)] *)
Definition store_item (index : Z) (src : list Z) (off : Z) : prog spsc_queue_t unit :=
  access (λ q, index_ok q index);;
  n ← load item_size;
  for_each (seqZ 0 n) (λ j,
    b ← pure (rd src (off + j));
    update (λ q, d ← wr (items q) (item_addr q index + j) b; Ret (with_items q d));;
    mret tt).

Definition read_item (index : Z) : prog spsc_queue_t (list Z) :=
  access (λ q, index_ok q index);;
  n ← load item_size;
  collect (seqZ 0 n) (λ j,
    b ← access (λ q, rd (items q) (item_addr q index + j));
    mret [b]).

(** [src] and [dst] may be NULL: [None] and [false]. *)
Definition spsc_queue_push (src : option (list Z)) : prog spsc_queue_t bool :=
  cap ← get_cap;
  let mask := u32 (cap - 1) in
  h ← load head;
  t ← load tail;
  let used := u32 (t - h) in
  if used =? cap then mret false
  else
    match src with
    | Some src => store_item (s32 (Z.land t mask)) src 0
    | None => mret tt
    end;;
    t' ← load tail;
    pure (c_assert (t' <? UINT64_MAX));;
    t' ← load tail;
    store (λ q, with_tail q (u64 (t' + 1)));;
    mret true.

Definition spsc_queue_multi_push (arr : option (list Z)) (num : Z) : prog spsc_queue_t bool :=
  pure (c_assert (0 <=? num));;
  cap ← get_cap;
  let mask := u32 (cap - 1) in
  h ← load head;
  t ← load tail;
  let used := u32 (t - h) in
  if cap <? u32 (used + u32 num) then mret false
  else
    pure (c_assert (t <? u64 (UINT64_MAX - num)));;
    match arr with
    | Some arr =>
        for_each (seqZ 0 num) (λ i,
          n ← load item_size;
          store_item (s32 (Z.land (u64 (t + i)) mask)) arr (u32 (i * n)))
    | None => mret tt
    end;;
    store (λ q, with_tail q (u64 (t + u64 num)));;
    mret true.

Definition spsc_queue_pop (dst : bool) : prog spsc_queue_t (option (list Z)) :=
  cap ← get_cap;
  let mask := u32 (cap - 1) in
  h ← load head;
  t ← load tail;
  let used := u32 (t - h) in
  if used =? 0 then mret None
  else
    r ← (if dst then read_item (s32 (Z.land h mask)) else mret []);
    pure (c_assert (h <? UINT64_MAX));;
    store (λ q, with_head q (u64 (h + 1)));;
    mret (Some r).

Definition spsc_queue_multi_pop (arr : bool) (num : Z) : prog spsc_queue_t (option (list Z)) :=
  pure (c_assert (0 <=? num));;
  cap ← get_cap;
  let mask := u32 (cap - 1) in
  h ← load head;
  t ← load tail;
  let used := u32 (t - h) in
  if used <? u32 num then mret None
  else
    pure (c_assert (h <=? u64 (UINT64_MAX - num)));;
    r ← (if arr then
           collect (seqZ 0 num) (λ i, read_item (s32 (Z.land (u64 (h + i)) mask)))
         else mret []);
    store (λ q, with_head q (u64 (h + u64 num)));;
    mret (Some r).

(** The answer is the offset in [items] that [*src] points to, [None] for NULL,
    and [*num]. *)
Definition spsc_queue_peek_0 : prog spsc_queue_t (option Z * Z) :=
  cap ← get_cap;
  let mask := u32 (cap - 1) in
  h ← load head;
  t ← load tail;
  if h =? t then mret (None, 0)
  else
    let masked_head := u32 (Z.land h mask) in
    let masked_tail := u32 (Z.land t mask) in
    p ← load (λ q, item_addr q (s32 masked_head));
    if masked_head <? masked_tail then mret (Some p, s32 (masked_tail - masked_head))
    else mret (Some p, s32 (u32 (cap - masked_head))).

Definition spsc_queue_peek_1 : prog spsc_queue_t (option Z * Z) :=
  cap ← get_cap;
  let mask := u32 (cap - 1) in
  h ← load head;
  t ← load tail;
  if h =? t then mret (None, 0)
  else
    let masked_head := u32 (Z.land h mask) in
    let masked_tail := u32 (Z.land t mask) in
    if masked_head <? masked_tail then mret (None, 0)
    else
      p ← load (λ q, item_addr q 0);
      mret (Some p, s32 masked_tail).

(** ** The invariant

    The ghost state is the history: the items of all pushes so far, in order,
    so that [tail] is its length and [head] the number of items popped. *)
Definition cap (q : spsc_queue_t) : Z := 2 ^ cap_log2 q.

Definition slot (q : spsc_queue_t) (j : Z) : outcome (list Z) :=
  rd_range (items q) (j * item_size q) (item_size q).

Record inv (q : spsc_queue_t) (H : list (list Z)) : Prop := {
  inv_cap : 0 ≤ cap_log2 q ≤ 30;
  inv_size : 0 ≤ item_size q;
  inv_room : cap q * item_size q ≤ 2 ^ 32;
  inv_items : zlen (items q) = cap q * item_size q;
  inv_head : 0 ≤ head q ≤ tail q;
  inv_tail : tail q ≤ head q + cap q;
  inv_u64 : tail q < 2 ^ 64;
  inv_hist : zlen H = tail q;
  inv_slots i x : head q ≤ i < tail q → H !! Z.to_nat i = Some x → slot q (i mod cap q) = Ret x;
}.

Definition same_shape (q q' : spsc_queue_t) : Prop :=
  cap_log2 q' = cap_log2 q ∧ item_size q' = item_size q.

(** What the producer (0) and the consumer (1) leave to each other. *)
Definition rely (i : nat) (q : spsc_queue_t) (H : list (list Z)) (q' : spsc_queue_t)
    (H' : list (list Z)) : Prop :=
  match i with
  | O => same_shape q q' ∧ items q' = items q ∧ tail q' = tail q ∧ H' = H ∧ head q ≤ head q'
  | S O => same_shape q q' ∧ head q' = head q ∧ tail q ≤ tail q' ∧ ∃ K, H' = H ++ K
  | _ => True
  end.

Lemma rely_refl i q H : rely i q H q H.
Proof.
  destruct i as [|[|i]]; simpl; [done| |done]. split_and!; [done|done|done|].
  exists []. by rewrite app_nil_r.
Qed.

Lemma rely_trans i q H q1 H1 q2 H2 : rely i q H q1 H1 → rely i q1 H1 q2 H2 → rely i q H q2 H2.
Proof.
  destruct i as [|[|i]]; simpl; unfold same_shape; [| |done].
  { intros ([??] & ? & ? & -> & ?) ([??] & ? & ? & -> & ?). split_and!; [congruence..|done|lia]. }
  intros ([??] & ? & ? & K & ->) ([??] & ? & ? & K' & ->). split_and!; [congruence..|lia|].
  exists (K ++ K'). by rewrite app_assoc.
Qed.

Definition ginv (n : nat) (q : spsc_queue_t) (H : list (list Z)) : Prop := inv q H.

#[export] Instance spsc_protocol : Protocol ginv rely.
Proof. split; [apply rely_refl|apply rely_trans|done]. Qed.

Lemma cap_pos q H : inv q H → 1 ≤ cap q ≤ 2 ^ 30.
Proof.
  intros [[??] ? ? ? ? ? ? ? ?]. unfold cap. split; [|by apply Z.pow_le_mono_r].
  pose proof (Z.pow_pos_nonneg 2 (cap_log2 q)). lia.
Qed.

Lemma get_cap_ok q H : inv q H → one_shl (cap_log2 q) = Ret (cap q).
Proof.
  intros Hi. pose proof (cap_pos q H Hi). destruct Hi as [[??] ? ? ? ? ? ? ? ?]. unfold one_shl.
  destruct (Z.ltb_spec (cap_log2 q) 32); [|lia]. rewrite Z.shiftl_1_l. fold (cap q).
  by rewrite u32_small by lia.
Qed.

Lemma masked q H t : inv q H → Z.land t (u32 (cap q - 1)) = t mod cap q.
Proof.
  intros Hi. pose proof (cap_pos q H Hi). destruct Hi as [[??] ? ? ? ? ? ? ? ?].
  rewrite u32_small by lia. unfold cap.
  replace (2 ^ cap_log2 q - 1) with (Z.ones (cap_log2 q)) by (rewrite Z.ones_equiv; lia).
  by rewrite Z.land_ones by lia.
Qed.

Lemma index_range q H t : inv q H → 0 ≤ t mod cap q < cap q ∧ s32 (t mod cap q) = t mod cap q.
Proof.
  intros Hi. pose proof (cap_pos q H Hi). pose proof (Z.mod_pos_bound t (cap q)).
  split; [lia|]. apply s32_small. lia.
Qed.

Lemma index_ok_ok q H j : inv q H → 0 ≤ j < cap q → index_ok q j = Ret tt.
Proof.
  intros Hi Hj. pose proof (cap_pos q H Hi). destruct Hi as [[??] ? ? ? ? ? ? ? ?]. unfold index_ok.
  destruct (Z.ltb_spec (cap_log2 q) 64); [|lia]. rewrite Z.shiftl_1_l. fold (cap q).
  rewrite u64_small, s32_small by lia.
  by destruct (Z.leb_spec 0 j), (Z.ltb_spec j (cap q)); [|lia..].
Qed.

Lemma addr_bound q H j k :
  inv q H → 0 ≤ j < cap q → 0 ≤ k < item_size q → 0 ≤ j * item_size q + k < zlen (items q).
Proof. intros Hi ??. rewrite (inv_items _ _ Hi). nia. Qed.

Lemma item_addr_ok q H j : inv q H → 0 ≤ j < cap q → item_addr q j = j * item_size q.
Proof.
  intros Hi Hj. pose proof (cap_pos q H Hi). pose proof (inv_size _ _ Hi).
  pose proof (inv_room _ _ Hi). unfold item_addr. rewrite (u32_small j) by lia.
  apply u32_small. nia.
Qed.

(** The producer's write into a free slot. *)
Lemma inv_write q H p k b :
  inv q H → tail q ≤ p < head q + cap q → 0 ≤ k < item_size q →
  let a := p mod cap q * item_size q + k in
  let q' := with_items q (<[Z.to_nat a := b]> (items q)) in
  wr (items q) (item_addr q (p mod cap q) + k) b = Ret (items q') ∧
  inv q' H ∧ keeps rely 0 q H q' H ∧
  ∀ j, 0 ≤ j → j ≠ p mod cap q → slot q' j = slot q j.
Proof.
  intros Hi Hp Hk a q'. pose proof (cap_pos q H Hi). pose proof (inv_size _ _ Hi).
  destruct (index_range q H p Hi) as [Hj _].
  pose proof (addr_bound q H _ k Hi Hj Hk) as Ha. fold a in Ha.
  assert (∀ j, 0 ≤ j → j ≠ p mod cap q → slot q' j = slot q j) as Hother.
  { intros j ? Hne. unfold slot. subst q'. simpl. apply rd_range_insert_ne; [lia|]. subst a.
    destruct (decide (j < p mod cap q)); [right|left]; nia. }
  split_and!; [|destruct Hi; split; try done| |done].
  - rewrite (item_addr_ok q H) by done. by rewrite wr_ok by done.
  - subst q'. simpl. by rewrite zlen_insert.
  - intros i x Hhi HH. change (cap q') with (cap q). simpl in Hhi.
    rewrite Hother; [auto|apply Z.mod_pos_bound; lia|]. apply slots_apart; lia.
  - intros [|[|j]] Hne; [done| |done]. simpl. split_and!; [done|done|lia|].
    exists []. by rewrite app_nil_r.
Qed.

Section producer.
Variable T : Z.

(** How the structure stands after steps of the producer that move no tail. *)
Definition working (q : spsc_queue_t) (H : list (list Z)) (q' : spsc_queue_t) (H' : list (list Z)) : Prop :=
  same_shape q q' ∧ tail q' = tail q ∧ H' = H ∧ head q ≤ head q'.

Lemma working_rely q H q1 H1 q2 H2 :
  working q H q1 H1 → rely 0 q1 H1 q2 H2 → working q H q2 H2.
Proof.
  unfold working, same_shape. simpl. intros ([??] & ? & -> & ?) ([??] & ? & ? & -> & ?).
  split_and!; [congruence..|done|lia].
Qed.

(** The first [k] bytes of the slot of [p] are stored. *)
Definition storing (q : spsc_queue_t) H p (src : list Z) (off k : Z) (q' : spsc_queue_t) H' : Prop :=
  working q H q' H' ∧
  rd_range (items q') (p mod cap q * item_size q) k = rd_range src off k ∧
  ∀ j, 0 ≤ j → j ≠ p mod cap q → slot q' j = slot q j.

Lemma storing_stable q H p src off k : stable ginv rely 0 (storing q H p src off k).
Proof.
  intros n q1 H1 q2 H2 (Hw & Hk & Hother) _ HR. destruct HR as ((Hc & Hs) & Hd & HR).
  split_and!; [by eapply working_rely| |]; unfold slot in *; rewrite ?Hd, ?Hs; auto.
Qed.

Lemma store_item_ok q H p src off :
  inv q H → tail q ≤ p < head q + cap q → 0 ≤ off → off + item_size q ≤ zlen src →
  rg ginv rely T 0 (store_item (p mod cap q) src off)
    (λ _, storing q H p src off (item_size q)) q H.
Proof.
  intros Hi Hp Hoff Hsrc. pose proof (index_range q H p Hi) as [Hj _].
  unfold store_item. rg_access.
  intros n1 q1 H1 _ Hi1 ((Hc & Hs) & Hd & Ht & -> & Hh). exists tt.
  split; [apply (index_ok_ok q1 H); [done|]; unfold cap in *; by rewrite Hc|].
  rg_load.
  intros n2 q2 H2 _ Hi2 ((Hc2 & Hs2) & Hd2 & Ht2 & -> & Hh2).
  assert (item_size q2 = item_size q) as -> by congruence.
  apply rg_for_each; [apply _|intros; apply storing_stable|apply Hi|done| |].
  - split_and!; [split_and!; [split; congruence|congruence|done|lia]| |].
    + rewrite Hd2, Hd. transitivity (Ret (@nil Z)); [|symmetry]; apply rd_range_elements.
      * rewrite (inv_items _ _ Hi). pose proof (inv_size _ _ Hi). split_and!; [nia|nia|done|lia].
      * pose proof (inv_size _ _ Hi). split_and!; [lia|lia|done|lia].
    + intros. unfold slot. congruence.
  - intros k q3 H3 Hk Hst. destruct (rd_ok src (off + k)) as (b & Hb & _); [lia|].
    rg_pure Hb.
    rg_update. intros n4 q4 H4 _ Hi4 HR4.
    pose proof (storing_stable _ _ _ _ _ _ 0%nat _ _ _ _ Hst Hi4 HR4) as ((HS & Ht4 & -> & Hh4) & Hpre & Hother).
    destruct HS as [Hc4 Hs4]. assert (cap q4 = cap q) as Hcap by (unfold cap; congruence).
    destruct (inv_write q4 H p k b) as (Hwr & Hi5 & Hkeep & Hother5); [done|lia|lia|].
    rewrite Hcap in Hwr, Hi5, Hkeep, Hother5. rewrite Hs4 in Hwr, Hi5, Hkeep, Hother5.
    eexists _, H. rewrite Hwr. split; [done|]. split; [exact Hi5|]. split; [exact Hkeep|].
    apply rg_ret; [apply storing_stable|]. split_and!; [done| |].
    + simpl. destruct (rd_range src off k) as [ks|] eqn:Hks.
      * apply rd_range_elements in Hpre as Hlen. destruct Hlen as (_ & _ & Hlen & _).
        rewrite (rd_range_snoc src off k ks b) by done. rewrite <- Hlen.
        apply rd_range_insert_snoc; [by rewrite Hlen|].
        rewrite Hlen, <- Hs4, <- Hcap. apply (addr_bound q4 H); [done|by rewrite Hcap|lia].
      * exfalso. rewrite rd_range_ok in Hks by lia. done.
    + intros j ??. rewrite Hother5 by done. by apply Hother.
Qed.

(** The items that a push takes from the array [arr]; with NULL they are what
    the slots hold. *)
Definition offered (q : spsc_queue_t) (arr : option (list Z)) (num : Z) (xs : list (list Z)) : Prop :=
  zlen xs = num ∧ ∀ k x, 0 ≤ k → xs !! Z.to_nat k = Some x →
    match arr with
    | Some a => rd_range a (k * item_size q) (item_size q) = Ret x
    | None => zlen x = item_size q
    end.

Definition push_post (q : spsc_queue_t) (H : list (list Z)) arr num (b : bool)
    (q' : spsc_queue_t) (H' : list (list Z)) : Prop :=
  same_shape q q' ∧ head q ≤ head q' ∧
  if b then ∃ xs, offered q arr num xs ∧ H' = H ++ xs
  else H' = H ∧ cap q < tail q - head q + num.

Lemma push_post_stable q H arr num b : stable ginv rely 0 (push_post q H arr num b).
Proof.
  intros n q1 H1 q2 H2 (HS & Hh & Hb) _ ((? & ?) & ? & ? & -> & ?). destruct HS as [??].
  split_and!; [split; congruence|lia|]. destruct b; [done|]. exact Hb.
Qed.

(** Moving the tail over slots that are filled. *)
Lemma inv_publish q H xs :
  inv q H → tail q + zlen xs ≤ head q + cap q → tail q + zlen xs < 2 ^ 64 →
  (∀ k x, 0 ≤ k → xs !! Z.to_nat k = Some x → slot q ((tail q + k) mod cap q) = Ret x) →
  inv (with_tail q (tail q + zlen xs)) (H ++ xs) ∧
  keeps rely 0 q H (with_tail q (tail q + zlen xs)) (H ++ xs).
Proof.
  intros Hi Hroom H64 Hxs. pose proof (zlen_nonneg xs). split.
  - destruct Hi as [? ? ? ? ? ? ? Hlen Hold]. split; try done; simpl; [lia| |].
    + rewrite zlen_app. lia.
    + intros i x Hhi Hx. change (cap (with_tail q (tail q + zlen xs))) with (cap q).
      change (slot (with_tail q (tail q + zlen xs))) with (slot q). unfold zlen in Hlen.
      destruct (decide (i < tail q)) as [Hlt|Hge].
      * rewrite lookup_app_l in Hx by lia. apply Hold; [lia|done].
      * rewrite lookup_app_r in Hx by lia.
        replace i with (tail q + (i - tail q)) by lia. apply Hxs; [lia|].
        rewrite <- Hx. f_equal. lia.
  - intros [|[|j]] ?; [done| |done]. simpl. split_and!; [done|done|lia|]. by exists xs.
Qed.

(** The bytes of [num] slots, from the tail on. *)
Definition filled (q : spsc_queue_t) H arr (i : Z) (q' : spsc_queue_t) H' : Prop :=
  working q H q' H' ∧ ∀ k, 0 ≤ k < i →
    slot q' ((tail q + k) mod cap q) = rd_range arr (k * item_size q) (item_size q).

Lemma filled_stable q H arr i : stable ginv rely 0 (filled q H arr i).
Proof.
  intros n q1 H1 q2 H2 (Hw & Hk) _ HR. destruct HR as ((? & Hs) & Hd & HR).
  split; [by eapply working_rely|]. intros k ?. unfold slot. rewrite Hd, Hs. by apply Hk.
Qed.

(** The list of results of a function known to succeed on [0..n-1]. *)
Lemma results {A} (f : Z → outcome A) n :
  (∀ k, 0 ≤ k < Z.of_nat n → ∃ x, f k = Ret x) →
  ∃ xs, zlen xs = Z.of_nat n ∧ ∀ k x, 0 ≤ k → xs !! Z.to_nat k = Some x → f k = Ret x.
Proof.
  induction n as [|n IH]; intros Hf.
  - exists []. split; [done|]. intros k x _ Hx. by rewrite lookup_nil in Hx.
  - destruct IH as (xs & Hlen & Hxs); [intros; apply Hf; lia|].
    destruct (Hf (Z.of_nat n)) as [x Hx]; [lia|]. exists (xs ++ [x]).
    split; [rewrite zlen_app; change (zlen [x]) with 1; lia|]. intros k y ? Hy.
    unfold zlen in Hlen. apply lookup_app_Some in Hy as [Hy|(Hge & Hy)]; [by apply Hxs|].
    apply list_lookup_singleton_Some in Hy as [? <-]. by replace k with (Z.of_nat n) by lia.
Qed.

Lemma slot_total q H j : inv q H → 0 ≤ j < cap q → ∃ x, slot q j = Ret x ∧ zlen x = item_size q.
Proof.
  intros Hi Hj. pose proof (inv_size _ _ Hi). pose proof (inv_items _ _ Hi). unfold slot.
  rewrite rd_range_ok by nia. eexists. split; [done|].
  rewrite zlen_take; [done|]. rewrite zlen_drop; nia.
Qed.

(** The end of both pushes. *)
Lemma publish_ok q H arr num q1 :
  inv q1 H → working q H q1 H → 0 ≤ num → tail q + num ≤ head q1 + cap q → tail q + num < 2 ^ 64 →
  match arr with Some a => num * item_size q ≤ zlen a ∧ filled q H a num q1 H | None => True end →
  ∃ H', inv (with_tail q1 (tail q + num)) H' ∧ keeps rely 0 q1 H (with_tail q1 (tail q + num)) H' ∧
    push_post q H arr num true (with_tail q1 (tail q + num)) H'.
Proof.
  intros Hi ((Hc & Hs) & Ht & _ & Hh) Hn Hroom H64 Harr.
  assert (cap q1 = cap q) as Hcap by (unfold cap; congruence).
  destruct (results (λ k, slot q1 ((tail q + k) mod cap q)) (Z.to_nat num)) as (xs & Hlen & Hxs).
  { intros k Hk. destruct (slot_total q1 H ((tail q + k) mod cap q)) as (x & ? & _); [done| |by exists x].
    rewrite Hcap. apply Z.mod_pos_bound. pose proof (cap_pos _ _ Hi). lia. }
  rewrite Z2Nat.id in Hlen by done. exists (H ++ xs). rewrite <- Ht, <- Hlen.
  destruct (inv_publish q1 H xs) as [Hinv Hk]; [done|lia|lia| |].
  { intros k x ??. rewrite Ht, Hcap. by apply Hxs. }
  split_and!; [done|done|]. rewrite Hlen. split_and!; [done|done|]. exists xs. split; [|done].
  split; [done|]. intros k x Hk0 Hx. pose proof (Hxs k x Hk0 Hx) as Hsl.
  apply lookup_lt_Some in Hx as Hlt. unfold zlen in Hlen. destruct arr as [a|].
  - destruct Harr as (_ & _ & Hf). rewrite <- Hf by lia. done.
  - unfold slot in Hsl. apply rd_range_elements in Hsl as (_ & _ & -> & _). done.
Qed.

(** The state after the loads of [head] and [tail]. *)
Lemma used_ok q H h :
  inv q H → head q ≤ h → h ≤ tail q → u32 (tail q - h) = tail q - h.
Proof.
  intros Hi ??. pose proof (cap_pos q H Hi). pose proof (inv_tail _ _ Hi). apply u32_small. lia.
Qed.

Definition staged (q : spsc_queue_t) H (arr : option (list Z)) num (q' : spsc_queue_t) H' : Prop :=
  working q H q' H' ∧ match arr with Some a => filled q H a num q' H' | None => True end.

Lemma staged_stable q H arr num : stable ginv rely 0 (staged q H arr num).
Proof.
  intros n q1 H1 q2 H2 (Hw & Ha) Hi HR. split; [by eapply working_rely|].
  destruct arr; [|done]. by eapply filled_stable.
Qed.

Lemma working_refl q H : working q H q H.
Proof. by repeat split. Qed.

Lemma push_post_working q H arr num q1 q' H' :
  working q H q1 H → push_post q1 H arr num true q' H' → push_post q H arr num true q' H'.
Proof.
  intros ((? & Hs) & ? & _ & ?) ((? & ?) & ? & xs & (Hn & Hoff) & ->).
  split_and!; [split; congruence|lia|]. exists xs. split; [|done]. split; [done|].
  intros k x Hk Hx. specialize (Hoff k x Hk Hx). by rewrite Hs in Hoff.
Qed.

(** A push that finds too little room was called on a queue that full. *)
Lemma push_refused q H arr num q1 h :
  inv q H → working q H q1 H → head q ≤ h → cap q < tail q - h + num →
  rg ginv rely T 0 (done false) (push_post q H arr num) q1 H.
Proof.
  intros Hi (? & ? & _ & ?) ??. apply rg_ret; [apply push_post_stable|].
  split_and!; [done|done|done|lia].
Qed.

Lemma store_one_ok q H src :
  inv q H → tail q < head q + cap q →
  match src with Some s => item_size q ≤ zlen s | None => True end →
  rg ginv rely T 0
    match src with
    | Some src => store_item (s32 (Z.land (tail q) (u32 (cap q - 1)))) src 0
    | None => mret tt
    end (λ _, staged q H src 1) q H.
Proof.
  intros Hi Hroom Hsrc. destruct src as [src|].
  - rewrite (masked q H) by done. destruct (index_range q H (tail q) Hi) as [_ ->].
    eapply rg_mono; [apply store_item_ok; [done|lia|done|lia]|].
    intros n [] q1 H1 _ (Hw & Hrd & _). split; [done|]. split; [done|].
    intros k Hk. replace k with 0 by lia. rewrite Z.add_0_r, Z.mul_0_l, <- Hrd. unfold slot.
    by destruct Hw as ((_ & ->) & _).
  - apply rg_ret; [apply staged_stable|]. split; [apply working_refl|done].
Qed.

(** The loads that both pushes start with. *)
Lemma push_prologue {A} q H (K : Z → Z → Z → prog spsc_queue_t A) Q :
  inv q H →
  (∀ q1 h, inv q1 H → working q H q1 H → head q ≤ h ≤ head q1 →
     rg ginv rely T 0 (K (cap q) h (tail q)) Q q1 H) →
  rg ginv rely T 0 (c ← get_cap; h ← load head; t ← load tail; K c h t) Q q H.
Proof.
  intros Hi HK. unfold get_cap.
  rg_access. intros n1 q1 H1 _ Hi1 HR1. exists (cap q1). split; [by eapply get_cap_ok|].
  rg_load. intros n2 q2 H2 _ Hi2 HR2. rg_load. intros n3 q3 H3 _ Hi3 HR3.
  pose proof (working_rely _ _ _ _ _ _ (working_refl q H) HR1) as Hw1.
  pose proof (working_rely _ _ _ _ _ _ Hw1 HR2) as Hw2.
  pose proof (working_rely _ _ _ _ _ _ Hw2 HR3) as Hw3.
  assert (cap q1 = cap q) as -> by (unfold cap; by destruct Hw1 as ((-> & _) & _)).
  pose proof Hw3 as (_ & -> & -> & _). apply HK; [done|done|].
  destruct Hw2 as (_ & _ & _ & ?), HR3 as (_ & _ & _ & _ & ?). done.
Qed.

Lemma staged_publish q H arr num q1 H1 :
  inv q H → staged q H arr num q1 H1 → 0 ≤ num → tail q + num ≤ head q + cap q →
  tail q + num < 2 ^ 64 →
  match arr with Some a => num * item_size q ≤ zlen a | None => True end →
  rg ginv rely T 0 (store (λ q', with_tail q' (tail q + num));; mret true)
    (push_post q H arr num) q1 H1.
Proof.
  intros Hi Hst ????. rg_store. intros n2 q2 K2 _ Hi2 HR2.
  pose proof (staged_stable _ _ _ _ n2 _ _ _ _ Hst Hi2 HR2) as (Hw & Hf).
  pose proof Hw as (_ & _ & -> & ?).
  destruct (publish_ok q H arr num q2) as (H' & ? & ? & Hpost); [done|done|done|lia|done|by destruct arr|].
  exists H'. split; [done|]. split; [done|]. apply rg_ret; [apply push_post_stable|done].
Qed.

Lemma push_ok q H src :
  inv q H → tail q < UINT64_MAX →
  match src with Some s => item_size q ≤ zlen s | None => True end →
  rg ginv rely T 0 (spsc_queue_push src) (push_post q H src 1) q H.
Proof.
  intros Hi H64 Hsrc. unfold spsc_queue_push. apply push_prologue; [done|].
  intros q1 h Hi1 Hw Hh. pose proof Hw as ((Hc & Hs) & Ht & _ & _).
  assert (cap q1 = cap q) as Hcap by (unfold cap; congruence).
  pose proof (inv_head _ _ Hi1). pose proof (inv_tail _ _ Hi1). rewrite (used_ok q H) by (done || lia).
  destruct (Z.eqb_spec (tail q - h) (cap q)) as [Hfull|Hfree].
  { apply push_refused with h; [done|done|lia|lia]. }
  pose proof (inv_tail _ _ Hi). rewrite <- Hcap, <- Ht.
  apply rg_bind; [apply _|]. eapply rg_mono; [apply store_one_ok; [done|lia|by rewrite Hs]|].
  intros n2 [] q2 K2 Hi2 Hst. cbn beta.
  rg_load. intros n3 q3 K3 _ Hi3 HR3. pose proof (staged_stable _ _ _ _ n3 _ _ _ _ Hst Hi3 HR3) as Hst3.
  assert (tail q3 = tail q) as -> by (destruct Hst3 as ((_ & ? & _) & _); congruence).
  assert (c_assert (tail q <? UINT64_MAX) = Ret tt) as Ha
    by (destruct (Z.ltb_spec (tail q) UINT64_MAX); [done|lia]).
  rg_pure Ha. rg_load. intros n4 q4 K4 _ Hi4 HR4.
  pose proof (staged_stable _ _ _ _ n4 _ _ _ _ Hst3 Hi4 HR4) as Hst4.
  assert (tail q4 = tail q1) as -> by (by destruct Hst4 as ((_ & ? & _) & _)).
  unfold UINT64_MAX in H64. rewrite u64_small by lia. eapply rg_mono.
  - apply staged_publish; try done; [lia..|]. destruct src; [rewrite Hs; lia|done].
  - intros n5 b q5 K5 _ Hpost. destruct b; [by eapply push_post_working|].
    destruct Hpost as (HS & ? & -> & ?). exfalso. lia.
Qed.

Lemma working_trans q H q1 H1 q2 H2 :
  working q H q1 H1 → working q1 H1 q2 H2 → working q H q2 H2.
Proof.
  intros ((? & ?) & ? & -> & ?) ((? & ?) & ? & -> & ?). repeat split; (congruence || lia).
Qed.

Lemma filled_snoc q H arr i q1 q2 H2 :
  inv q H → filled q H arr i q1 H → 0 ≤ i < cap q →
  storing q1 H (tail q + i) arr (i * item_size q) (item_size q) q2 H2 →
  filled q H arr (i + 1) q2 H2.
Proof.
  intros Hi (Hw & Hf) Hic (Hw2 & Hrd & Hother). pose proof (cap_pos q H Hi).
  pose proof Hw as ((Hc & Hs) & Ht & _ & _).
  assert (cap q1 = cap q) as Hcap by (unfold cap; congruence). rewrite Hcap in Hrd, Hother.
  split; [by eapply working_trans|]. intros k Hk. destruct (decide (k = i)) as [->|].
  - rewrite <- Hrd. unfold slot. destruct Hw2 as ((_ & ->) & _). by rewrite Hs.
  - rewrite Hother; [apply Hf; lia|apply Z.mod_pos_bound; lia|]. apply slots_apart; lia.
Qed.

Lemma store_all_ok q H arr num :
  inv q H → 0 ≤ num → tail q + num ≤ head q + cap q → tail q + num < 2 ^ 64 →
  num * item_size q ≤ zlen arr →
  rg ginv rely T 0
    (for_each (seqZ 0 num) (λ i,
      n ← load item_size;
      store_item (s32 (Z.land (u64 (tail q + i)) (u32 (cap q - 1)))) arr (u32 (i * n))))
    (λ _, filled q H arr num) q H.
Proof.
  intros Hi Hn Hroom H64 Harr. pose proof (cap_pos q H Hi). pose proof (inv_head _ _ Hi).
  pose proof (inv_size _ _ Hi). pose proof (inv_room _ _ Hi).
  apply rg_for_each; [apply _|intros; apply filled_stable|done|done| |].
  - split; [apply working_refl|]. lia.
  - intros i q1 K1 Hi1 Hf. rg_load. intros n2 q2 K2 _ Hi2 HR2.
    pose proof (filled_stable _ _ _ _ n2 _ _ _ _ Hf Hi2 HR2) as Hf2.
    pose proof Hf2 as (((Hc & Hs) & Ht & -> & Hh) & _).
    assert (cap q2 = cap q) as Hcap by (unfold cap; congruence).
    rewrite Hs, u64_small by lia. rewrite (masked q H) by done. rewrite u32_small by nia.
    destruct (index_range q H (tail q + i) Hi) as [_ ->]. rewrite <- Hcap.
    eapply rg_mono; [apply store_item_ok; [done|lia|nia|rewrite Hs; nia]|].
    intros n3 [] q3 K3 _ Hst. rewrite Hs in Hst. eapply filled_snoc; [done|done|lia|done].
Qed.

Lemma multi_push_ok q H arr num :
  inv q H → 0 ≤ num ≤ INT_MAX → tail q + num < UINT64_MAX →
  match arr with Some a => num * item_size q ≤ zlen a | None => True end →
  rg ginv rely T 0 (spsc_queue_multi_push arr num) (push_post q H arr num) q H.
Proof.
  unfold INT_MAX, UINT64_MAX. intros Hi Hn H64 Harr. unfold spsc_queue_multi_push.
  assert (c_assert (0 <=? num) = Ret tt) as Ha by (destruct (Z.leb_spec 0 num); [done|lia]).
  rg_pure Ha. apply push_prologue; [done|].
  intros q1 h Hi1 Hw Hh. pose proof Hw as ((Hc & Hs) & Ht & _ & _).
  assert (cap q1 = cap q) as Hcap by (unfold cap; congruence). pose proof (cap_pos q H Hi).
  pose proof (inv_head _ _ Hi1). pose proof (inv_tail _ _ Hi1). rewrite (used_ok q H) by (done || lia).
  pose proof (inv_tail _ _ Hi). rewrite (u32_small num), u32_small by lia.
  destruct (Z.ltb_spec (cap q) (tail q - h + num)) as [Hfull|Hfree].
  { apply push_refused with h; [done|done|lia|done]. }
  assert (c_assert (tail q <? u64 (UINT64_MAX - num)) = Ret tt) as Hb.
  { unfold UINT64_MAX. rewrite u64_small by lia. destruct (Z.ltb_spec (tail q) (2 ^ 64 - 1 - num)); [done|lia]. }
  rg_pure Hb. rewrite <- Hcap, <- Ht. rewrite (u64_small num), u64_small by lia.
  apply rg_bind; [apply _|]. eapply (rg_mono _ _ _ _ _ (λ _, staged q1 H arr num)).
  - destruct arr as [a|].
    + eapply rg_mono; [apply store_all_ok; [done|lia|lia|lia|by rewrite Hs]|].
      intros n3 [] q3 K3 _ Hf. split; [apply Hf|done].
    + apply rg_ret; [apply staged_stable|]. split; [apply working_refl|done].
  - intros n3 [] q3 K3 _ Hst. eapply rg_mono.
    + apply staged_publish; try done; [lia..|]. destruct arr; [by rewrite Hs|done].
    + intros n5 b q5 K5 _ Hpost. destruct b; [by eapply push_post_working|].
      destruct Hpost as (HS & ? & -> & ?). exfalso. lia.
Qed.
End producer.

Section consumer.
Variable T : Z.

(** The items that a pop of [num] takes from the history. *)
Definition taken (h num : Z) (H : list (list Z)) : list (list Z) :=
  take (Z.to_nat num) (drop (Z.to_nat h) H).

Definition pop_post (q : spsc_queue_t) (H : list (list Z)) (dst : bool) num (r : option (list Z))
    (q' : spsc_queue_t) (H' : list (list Z)) : Prop :=
  same_shape q q' ∧ tail q ≤ tail q' ∧ (∃ K, H' = H ++ K) ∧
  match r with
  | Some bytes => head q' = head q + num ∧ head q + num ≤ zlen H' ∧
      bytes = if dst then concat (taken (head q) num H') else []
  | None => head q' = head q ∧ tail q - head q < num
  end.

Lemma taken_app h num H K :
  0 ≤ h → 0 ≤ num → h + num ≤ zlen H → taken h num (H ++ K) = taken h num H.
Proof.
  unfold zlen, taken. intros. rewrite drop_app_le by lia.
  rewrite take_app_le; [done|]. rewrite length_drop. lia.
Qed.

Lemma pop_post_stable q H dst num r : 0 ≤ head q → 0 ≤ num → stable ginv rely 1 (pop_post q H dst num r).
Proof.
  intros Hh Hn n q1 H1 q2 H2 ((Hc & Hs) & Ht & (K & ->) & Hr) _ ((? & ?) & ? & ? & K' & ->).
  split_and!; [split; congruence|lia|exists (K ++ K'); by rewrite app_assoc|].
  destruct r as [bs|]; [|lia]. destruct Hr as (? & ? & ->). pose proof (zlen_nonneg K').
  split_and!; [lia|rewrite zlen_app; lia|]. destruct dst; [|done]. f_equal. symmetry. by apply taken_app.
Qed.

Lemma rely1_trans q H q1 H1 q2 H2 :
  rely 1 q H q1 H1 → rely 1 q1 H1 q2 H2 → rely 1 q H q2 H2.
Proof. apply rely_trans. Qed.

(** An item of the history that is still in the queue, after some pushes. *)
Lemma slot_later q H q1 H1 p x :
  inv q H → inv q1 H1 → rely 1 q H q1 H1 → head q ≤ p < tail q → H !! Z.to_nat p = Some x →
  cap q1 = cap q ∧ slot q1 (p mod cap q) = Ret x.
Proof.
  intros Hi Hi1 ((Hc & Hs) & Hh & Ht & K & ->) Hp Hx.
  assert (cap q1 = cap q) as Hcap by (unfold cap; congruence). split; [done|].
  rewrite <- Hcap. apply (inv_slots _ _ Hi1); [lia|]. by apply lookup_app_l_Some.
Qed.

Lemma read_item_ok q H p x :
  inv q H → head q ≤ p < tail q → H !! Z.to_nat p = Some x →
  rg ginv rely T 1 (read_item (p mod cap q)) (λ r q' H', rely 1 q H q' H' ∧ r = x) q H.
Proof.
  intros Hi Hp Hx. destruct (index_range q H p Hi) as [Hj _]. unfold read_item.
  rg_access. intros n1 q1 H1 _ Hi1 HR1. exists tt.
  destruct (slot_later q H q1 H1 p x) as [Hcap Hsl]; [done..|].
  split; [apply (index_ok_ok q1 H1); [done|by rewrite Hcap]|].
  rg_load. intros n2 q2 K2 _ Hi2 HR2. pose proof (rely1_trans _ _ _ _ _ _ HR1 HR2) as HR.
  assert (item_size q2 = item_size q) as -> by apply HR.
  assert (zlen x = item_size q) as Hlen.
  { unfold slot in Hsl. apply rd_range_elements in Hsl as (_ & _ & -> & _). apply HR1. }
  eapply rg_mono.
  - apply (rg_collect _ _ _ _ (λ k r q' H', rely 1 q H q' H' ∧ rd_range x 0 k = Ret r)) with (ys := []).
    + intros k r n q3 K3 q4 K4 [HR3 Hr] _ HR4. split; [by eapply rely1_trans|done].
    + apply Hi.
    + done.
    + split; [done|]. apply rd_range_elements. pose proof (zlen_nonneg x). split_and!; [done|lia|done|lia].
    + intros k ys q3 K3 Hk [HR3 Hr]. rg_access. intros n4 q4 K4 _ Hi4 HR4.
      pose proof (rely1_trans _ _ _ _ _ _ HR3 HR4) as HR5.
      destruct (slot_later q H q4 K4 p x) as [Hcap4 Hsl4]; [done..|].
      destruct (rd_ok x k) as (b & Hb & _); [lia|]. exists b.
      rewrite (item_addr_ok q4 K4) by (done || by rewrite Hcap4).
      unfold slot in Hsl4. assert (item_size q4 = item_size q) as Hs4 by apply HR5. rewrite Hs4 in *.
      apply rd_range_elements in Hsl4 as (_ & _ & _ & Hel). split; [by rewrite Hel by lia|].
      apply rg_ret; [|split; [done|by apply rd_range_snoc]].
      intros n q5 K5 q6 K6 [? ?] _ ?. split; [by eapply rely1_trans|done].
  - intros n r q3 K3 _ [HR3 Hr]. split; [done|]. simpl in Hr.
    pose proof (zlen_nonneg x). rewrite rd_range_ok in Hr by lia. injection Hr as <-.
    rewrite drop_0. apply take_ge. unfold zlen. lia.
Qed.

Lemma pop_prologue {A} q H (K : Z → Z → Z → prog spsc_queue_t A) Q :
  inv q H →
  (∀ q1 H1 t, inv q1 H1 → rely 1 q H q1 H1 → tail q ≤ t ≤ tail q1 →
     rg ginv rely T 1 (K (cap q) (head q) t) Q q1 H1) →
  rg ginv rely T 1 (c ← get_cap; h ← load head; t ← load tail; K c h t) Q q H.
Proof.
  intros Hi HK. unfold get_cap.
  rg_access. intros n1 q1 K1 _ Hi1 HR1. exists (cap q1). split; [by eapply get_cap_ok|].
  rg_load. intros n2 q2 K2 _ Hi2 HR2. rg_load. intros n3 q3 K3 _ Hi3 HR3.
  pose proof (rely1_trans _ _ _ _ _ _ HR1 HR2) as HR12.
  pose proof (rely1_trans _ _ _ _ _ _ HR12 HR3) as HR13.
  assert (cap q1 = cap q) as -> by (unfold cap; by destruct HR1 as ((-> & _) & _)).
  assert (head q2 = head q) as -> by apply HR12.
  apply HK; [done|done|]. destruct HR13 as (_ & _ & ? & _). done.
Qed.

(** The end of both pops: moving the head over items that were read. *)
Lemma retire_ok q H dst num bytes q1 H1 :
  inv q H → inv q1 H1 → rely 1 q H q1 H1 → 0 ≤ num → head q + num ≤ tail q1 →
  bytes = (if dst : bool then concat (taken (head q) num H1) else []) →
  rg ginv rely T 1 (store (λ q', with_head q' (head q + num));; mret (Some bytes))
    (pop_post q H dst num) q1 H1.
Proof.
  intros Hi Hi1 HR1 Hn Hle ->. pose proof (inv_head _ _ Hi).
  rg_store. intros n2 q2 K2 _ Hi2 HR2. pose proof (rely1_trans _ _ _ _ _ _ HR1 HR2) as HR.
  destruct HR2 as (_ & _ & ? & K & ->). exists (H1 ++ K).
  pose proof HR as (HS & Hh & Ht & HK).
  assert (head q + num ≤ zlen H1) by (rewrite (inv_hist _ _ Hi1); lia). pose proof (zlen_nonneg K).
  split_and!.
  - destruct Hi2 as [? ? ? ? ? ? ? ? Hsl].
    split; try done; change (cap (with_head q2 (head q + num))) with (cap q2); simpl; [lia|lia|].
    intros i x Hix Hx. apply Hsl; [lia|done].
  - intros [|[|j]] ?; [|done|done]. simpl. split_and!; [done|done|done|done|lia].
  - apply rg_ret; [by apply pop_post_stable; lia|].
    split_and!; [done|done|done|done|rewrite zlen_app; lia|].
    destruct dst; [|done]. by rewrite taken_app by lia.
Qed.

(** A pop that finds too few items was called on a queue with too few. *)
Lemma pop_refused q H dst num q1 H1 t :
  inv q H → 0 ≤ num → rely 1 q H q1 H1 → tail q ≤ t → t - head q < num →
  rg ginv rely T 1 (done None) (pop_post q H dst num) q1 H1.
Proof.
  intros Hi ? (? & ? & ? & ?) ??. apply rg_ret; [apply pop_post_stable; [apply Hi|done]|].
  split_and!; [done|done|done|done|lia].
Qed.

Lemma pop_used q H q1 H1 t :
  inv q H → inv q1 H1 → rely 1 q H q1 H1 → tail q ≤ t ≤ tail q1 → u32 (t - head q) = t - head q.
Proof.
  intros Hi Hi1 ((Hc & _) & Hh & _) Ht. pose proof (cap_pos _ _ Hi). pose proof (inv_head _ _ Hi).
  pose proof (inv_tail _ _ Hi1). apply u32_small. unfold cap in *. rewrite Hc in *. lia.
Qed.

Lemma single_pop_ok q H dst :
  inv q H → rg ginv rely T 1 (spsc_queue_pop dst) (pop_post q H dst 1) q H.
Proof.
  intros Hi. unfold spsc_queue_pop. apply pop_prologue; [done|]. intros q1 H1 t Hi1 HR1 Ht.
  rewrite (pop_used q H q1 H1) by done. pose proof (inv_u64 _ _ Hi1). pose proof (inv_head _ _ Hi).
  pose proof HR1 as (_ & Hh & _).
  destruct (Z.eqb_spec (t - head q) 0) as [|Hne].
  { apply pop_refused with t; (done || lia). }
  assert (c_assert (head q <? UINT64_MAX) = Ret tt) as Ha
    by (unfold UINT64_MAX; destruct (Z.ltb_spec (head q) (2 ^ 64 - 1)); [done|lia]).
  destruct (lookup_lt_is_Some_2 H1 (Z.to_nat (head q))) as [x Hx].
  { pose proof (inv_hist _ _ Hi1) as HL. unfold zlen in HL. lia. }
  apply rg_bind; [apply _|].
  eapply (rg_mono _ _ _ _ _ (λ r q' H', rely 1 q1 H1 q' H' ∧ r = if dst then x else [])).
  - assert (cap q1 = cap q) as Hcap by (unfold cap; by destruct HR1 as ((-> & _) & _)).
    destruct dst.
    + rewrite (masked q H) by done. destruct (index_range q H (head q) Hi) as [_ ->].
      rewrite <- Hcap, <- Hh. apply read_item_ok; [done|lia|by rewrite Hh].
    + apply rg_ret; [|split; [apply rely_reflexive|done]].
      intros n q5 K5 q6 K6 [? ?] _ ?. split; [by eapply rely1_trans|done].
  - intros n r q2 K2 Hi2 [HR2 ->]. cbn beta. rg_pure Ha. rewrite u64_small by lia.
    assert (tail q1 ≤ tail q2) by apply HR2.
    apply retire_ok; [done|done|by eapply rely1_trans|lia|lia|].
    destruct dst; [|done]. destruct HR2 as (_ & _ & _ & K & ->).
    rewrite taken_app by (rewrite ?(inv_hist _ _ Hi1); lia). unfold taken.
    rewrite (drop_S _ x) by done. simpl. by rewrite app_nil_r.
Qed.

Lemma taken_S h k H x :
  0 ≤ h → 0 ≤ k → H !! Z.to_nat (h + k) = Some x → taken h (k + 1) H = taken h k H ++ [x].
Proof.
  intros ?? Hx. unfold taken. replace (Z.to_nat (k + 1)) with (S (Z.to_nat k)) by lia.
  apply take_S_r. rewrite lookup_drop. rewrite <- Hx. f_equal. lia.
Qed.

Lemma read_all_ok q H num :
  inv q H → 0 ≤ num → head q + num ≤ tail q →
  rg ginv rely T 1
    (collect (seqZ 0 num) (λ i, read_item (s32 (Z.land (u64 (head q + i)) (u32 (cap q - 1))))))
    (λ r q' H', rely 1 q H q' H' ∧ r = concat (taken (head q) num H)) q H.
Proof.
  intros Hi Hn Hle. pose proof (inv_u64 _ _ Hi). pose proof (inv_head _ _ Hi).
  apply (rg_collect _ _ _ _ (λ k r q' H', rely 1 q H q' H' ∧ r = concat (taken (head q) k H)))
    with (ys := []).
  - intros k r n q3 K3 q4 K4 [HR3 Hr] _ HR4. split; [by eapply rely1_trans|done].
  - done.
  - done.
  - split; [apply rely_reflexive|done].
  - intros k ys q1 K1 Hk [HR1 ->]. apply rg_now; [apply _|]. intros n2 q2 K2 Hi2 HR2.
    pose proof (rely1_trans _ _ _ _ _ _ HR1 HR2) as HR.
    pose proof HR as ((Hc & _) & Hh & Ht & K & HK). simpl in HK. subst K2.
    assert (cap q2 = cap q) as Hcap by (unfold cap; congruence).
    destruct (lookup_lt_is_Some_2 H (Z.to_nat (head q + k))) as [x Hx].
    { pose proof (inv_hist _ _ Hi) as HL. unfold zlen in HL. lia. }
    rewrite u64_small by lia. rewrite (masked q H) by done.
    destruct (index_range q H (head q + k) Hi) as [_ ->]. rewrite <- Hcap.
    eapply rg_mono; [apply (read_item_ok _ _ _ x); [done|lia|by apply lookup_app_l_Some]|].
    intros n3 r q3 K3 _ [HR3 ->]. split; [by eapply rely1_trans|].
    rewrite (taken_S _ _ _ x), concat_app by (done || lia). simpl. by rewrite app_nil_r.
Qed.

Lemma multi_pop_ok q H dst num :
  inv q H → 0 ≤ num ≤ INT_MAX →
  rg ginv rely T 1 (spsc_queue_multi_pop dst num) (pop_post q H dst num) q H.
Proof.
  unfold INT_MAX. intros Hi Hn. unfold spsc_queue_multi_pop.
  assert (c_assert (0 <=? num) = Ret tt) as Ha by (destruct (Z.leb_spec 0 num); [done|lia]).
  rg_pure Ha. apply pop_prologue; [done|]. intros q1 H1 t Hi1 HR1 Ht.
  rewrite (pop_used q H q1 H1), (u32_small num) by (done || lia).
  pose proof (inv_u64 _ _ Hi1). pose proof (inv_head _ _ Hi). pose proof HR1 as (_ & Hh & _).
  destruct (Z.ltb_spec (t - head q) num) as [|Hge].
  { apply pop_refused with t; (done || lia). }
  assert (c_assert (head q <=? u64 (UINT64_MAX - num)) = Ret tt) as Hb.
  { unfold UINT64_MAX. rewrite u64_small by lia.
    destruct (Z.leb_spec (head q) (2 ^ 64 - 1 - num)); [done|lia]. }
  rg_pure Hb. apply rg_bind; [apply _|].
  eapply (rg_mono _ _ _ _ _ (λ r q' H', rely 1 q1 H1 q' H' ∧
    r = if dst then concat (taken (head q) num H1) else [])).
  - assert (cap q1 = cap q) as Hcap by (unfold cap; by destruct HR1 as ((-> & _) & _)).
    destruct dst.
    + rewrite <- Hcap, <- Hh. apply read_all_ok; [done|lia|lia].
    + apply rg_ret; [|split; [apply rely_reflexive|done]].
      intros n q5 K5 q6 K6 [? ?] _ ?. split; [by eapply rely1_trans|done].
  - intros n r q2 K2 Hi2 [HR2 ->]. cbn beta. rewrite (u64_small num), u64_small by lia.
    assert (tail q1 ≤ tail q2) by apply HR2.
    apply retire_ok; [done|done|by eapply rely1_trans|lia|lia|].
    destruct dst; [|done]. destruct HR2 as (_ & _ & _ & K & ->).
    by rewrite taken_app by (rewrite ?(inv_hist _ _ Hi1); lia).
Qed.
End consumer.

(** ** Clients *)

Inductive push_op : Type :=
  | Push (src : option (list Z))
  | MultiPush (arr : option (list Z)) (num : Z).

Inductive pop_op : Type :=
  | Pop (dst : bool)
  | MultiPop (arr : bool) (num : Z).

Definition do_push (o : push_op) : prog spsc_queue_t bool :=
  match o with
  | Push src => spsc_queue_push src
  | MultiPush arr num => spsc_queue_multi_push arr num
  end.

Definition do_pop (o : pop_op) : prog spsc_queue_t (option (list Z)) :=
  match o with
  | Pop dst => spsc_queue_pop dst
  | MultiPop arr num => spsc_queue_multi_pop arr num
  end.

Definition push_source (o : push_op) : option (list Z) :=
  match o with Push src => src | MultiPush arr _ => arr end.
Definition push_count (o : push_op) : Z := match o with Push _ => 1 | MultiPush _ num => num end.
Definition pop_dst (o : pop_op) : bool := match o with Pop dst => dst | MultiPop arr _ => arr end.
Definition pop_count (o : pop_op) : Z := match o with Pop _ => 1 | MultiPop _ num => num end.

(** What a client has to pay attention to: arrays as long as it says. *)
Definition push_valid (isize : Z) (o : push_op) : Prop :=
  0 ≤ push_count o ≤ INT_MAX ∧
  match push_source o with Some a => push_count o * isize ≤ zlen a | None => True end.
Definition pop_valid (o : pop_op) : Prop := 0 ≤ pop_count o ≤ INT_MAX.

Definition producer (os : list push_op) : prog spsc_queue_t (list (push_op * bool) + list (pop_op * option (list Z))) :=
  rs ← script do_push os; mret (inl rs).
Definition consumer (os : list pop_op) : prog spsc_queue_t (list (push_op * bool) + list (pop_op * option (list Z))) :=
  rs ← script do_pop os; mret (inr rs).

Lemma do_push_ok T q H o :
  inv q H → push_valid (item_size q) o → tail q + push_count o < UINT64_MAX →
  rg ginv rely T 0 (do_push o) (push_post q H (push_source o) (push_count o)) q H.
Proof.
  intros Hi (Hn & Hs) H64. destruct o as [src|arr num]; simpl in *.
  - apply push_ok; [done|lia|]. destruct src; [lia|done].
  - by apply multi_push_ok.
Qed.

Lemma do_pop_ok T q H o :
  inv q H → pop_valid o → rg ginv rely T 1 (do_pop o) (pop_post q H (pop_dst o) (pop_count o)) q H.
Proof.
  intros Hi Hn. destruct o as [dst|arr num]; simpl in *; [by apply single_pop_ok|by apply multi_pop_ok].
Qed.

(** The items of the successful pushes among [rs], in order. *)
Fixpoint pushed (isize : Z) (rs : list (push_op * bool)) (xs : list (list Z)) : Prop :=
  match rs with
  | [] => xs = []
  | (o, b) :: rs => ∃ ys zs, xs = ys ++ zs ∧ pushed isize rs zs ∧
      if b : bool then
        zlen ys = push_count o ∧ ∀ k x, 0 ≤ k → ys !! Z.to_nat k = Some x →
          match push_source o with
          | Some a => rd_range a (k * isize) isize = Ret x
          | None => zlen x = isize
          end
      else ys = []
  end.

(** The answers [outs] are the items of [H] from the position [h] on, up to [h']. *)
Fixpoint retrieved (H : list (list Z)) (h : Z) (outs : list (pop_op * option (list Z))) (h' : Z) : Prop :=
  match outs with
  | [] => h' = h
  | (o, None) :: outs => retrieved H h outs h'
  | (o, Some bytes) :: outs =>
      h + pop_count o ≤ zlen H ∧
      bytes = (if pop_dst o then concat (taken h (pop_count o) H) else []) ∧
      retrieved H (h + pop_count o) outs h'
  end.

Definition push_total (os : list push_op) : Z := foldr (λ o n, push_count o + n) 0 os.

Lemma push_total_nonneg isize os : Forall (push_valid isize) os → 0 ≤ push_total os.
Proof. induction 1 as [|o os [??] _ IH]; simpl; lia. Qed.

Lemma retrieved_app H K h outs h' :
  0 ≤ h → Forall pop_valid outs.*1 → retrieved H h outs h' → retrieved (H ++ K) h outs h'.
Proof.
  revert h. induction outs as [|[o [bytes|]] outs IH]; simpl; intros h Hh Hv; [done| |].
  - inversion Hv as [|? ? [??] ?]; subst. intros (? & -> & ?). pose proof (zlen_nonneg K).
    split_and!; [rewrite zlen_app; lia|by rewrite taken_app|apply IH; [lia|done|done]].
  - inversion Hv; subst. by apply IH.
Qed.

Section clients.
Variable T : Z.

Definition produced (q : spsc_queue_t) H (os : list push_op) (rs : list (push_op * bool))
    (q' : spsc_queue_t) (H' : list (list Z)) : Prop :=
  same_shape q q' ∧ rs.*1 = os ∧ ∃ xs, pushed (item_size q) rs xs ∧ H' = H ++ xs.

Lemma produced_stable q H os rs : stable ginv rely 0 (produced q H os rs).
Proof.
  intros n q1 H1 q2 H2 ((? & ?) & Hrs & xs & Hp & ->) _ ((? & ?) & ? & ? & -> & ?).
  split_and!; [split; congruence|done|by exists xs].
Qed.

Lemma produce_ok q H os :
  inv q H → Forall (push_valid (item_size q)) os → tail q + push_total os < UINT64_MAX →
  rg ginv rely T 0 (script do_push os) (produced q H os) q H.
Proof.
  revert q H. induction os as [|o os IH]; intros q H Hi Hv H64.
  - apply rg_ret; [apply produced_stable|]. split_and!; [done|done|]. exists [].
    split; [done|by rewrite app_nil_r].
  - inversion Hv; subst. pose proof (push_total_nonneg _ os ltac:(done)). cbn [script push_total foldr] in *.
    fold (push_total os) in H64.
    rg_bind do_push_ok; [done|done|lia|]. intros n b q1 H1 Hi1 Hpost. cbn beta.
    assert (same_shape q q1) as (Hc & Hs) by apply Hpost.
    rg_bind IH; [done|by rewrite Hs| |].
    + rewrite <- (inv_hist _ _ Hi1). pose proof (inv_hist _ _ Hi) as Hlen. destruct Hpost as (_ & _ & Hb).
      destruct b; [destruct Hb as (xs & (? & _) & ->)|destruct Hb as (-> & _)]; rewrite ?zlen_app; [lia|].
      destruct H2. lia.
    + intros n2 rs q2 K2 _ ((? & ?) & Hrs & xs & Hp & ->).
      apply rg_ret; [apply produced_stable|]. split_and!; [split; congruence|by rewrite fmap_cons, Hrs|].
      rewrite Hs in Hp. destruct Hpost as (_ & _ & Hb). destruct b.
      * destruct Hb as (ys & Hoff & ->). exists (ys ++ xs). rewrite app_assoc. split; [|done].
        exists ys, xs. done.
      * destruct Hb as (-> & _). exists xs. split; [|done]. exists [], xs. done.
Qed.

Definition consumed (q : spsc_queue_t) H (os : list pop_op) (outs : list (pop_op * option (list Z)))
    (q' : spsc_queue_t) (H' : list (list Z)) : Prop :=
  same_shape q q' ∧ outs.*1 = os ∧ (∃ K, H' = H ++ K) ∧ retrieved H' (head q) outs (head q').

Lemma consumed_stable q H os outs :
  0 ≤ head q → Forall pop_valid os → stable ginv rely 1 (consumed q H os outs).
Proof.
  intros ?? n q1 H1 q2 H2 ((? & ?) & Hrs & (K & ->) & Hr) _ ((? & ?) & Hh & ? & K' & ->).
  split_and!; [split; congruence|done|exists (K ++ K'); by rewrite app_assoc|].
  rewrite Hh. apply retrieved_app; [done|by rewrite Hrs|done].
Qed.

Lemma consume_ok q H os :
  inv q H → Forall pop_valid os → rg ginv rely T 1 (script do_pop os) (consumed q H os) q H.
Proof.
  revert q H. induction os as [|o os IH]; intros q H Hi Hv; pose proof (inv_head _ _ Hi).
  - apply rg_ret; [by apply consumed_stable; [lia|]|]. split_and!; [done|done| |done]. exists [].
    by rewrite app_nil_r.
  - inversion Hv as [|? ? Hvo Hvs]; subst. pose proof Hvo as [Hc0 _].
    cbn [script]. rg_bind do_pop_ok; [done|done|].
    intros n r q1 H1 Hi1 Hpost. cbn beta.
    rg_bind IH; [done|done|]. intros n2 outs q2 K2 _ ((? & ?) & Hrs & (K & ->) & Hr).
    apply rg_ret; [by apply consumed_stable; [lia|]|].
    destruct Hpost as ((? & ?) & _ & (K1 & ->) & Hres).
    split_and!; [split; congruence|by rewrite fmap_cons, Hrs|exists (K1 ++ K); by rewrite app_assoc|].
    destruct r as [bytes|]; simpl.
    + destruct Hres as (Hh & Hle & ->). rewrite Hh in Hr. pose proof (zlen_nonneg K).
      split_and!; [rewrite zlen_app; lia| |done]. destruct (pop_dst o); [|done].
      f_equal. symmetry. apply taken_app; [lia|lia|done].
    + destruct Hres as (Hh & _). by rewrite Hh in Hr.
Qed.
End clients.

(** ** Properties *)

Definition memory_fits (mem : list Z) (log2 isize : Z) : Prop :=
  0 ≤ log2 ≤ 30 ∧ 0 ≤ isize ∧ 2 ^ log2 * isize ≤ 2 ^ 32 - 1 ∧ zlen mem = 2 ^ log2 * isize.

Lemma init_inv mem log2 isize :
  memory_fits mem log2 isize → inv (spsc_queue_init mem log2 isize) [] ∧
    item_size (spsc_queue_init mem log2 isize) = isize.
Proof.
  intros (Hl & Hs & Hroom & Hmem). assert (1 ≤ 2 ^ log2) by (pose proof (Z.pow_pos_nonneg 2 log2); lia).
  assert (u32 isize = isize) as Hi by (apply u32_small; nia).
  assert (u32 log2 = log2) as Hu by (apply u32_small; lia).
  unfold spsc_queue_init. rewrite Hi, Hu. split; [|done].
  split; unfold cap; simpl; try lia; try done.
Qed.

(** C28. However the steps of a producer and a consumer interleave, no
    assertion fails and no access leaves the memory of the queue; there is one
    history, the items of the successful pushes in their order, and the
    consumer's answers are its items, from the first on, none lost, none twice
    and none out of order. *)
Theorem spsc_fifo mem log2 isize ps cs n q ts :
  memory_fits mem log2 isize → Forall (push_valid isize) ps → Forall pop_valid cs →
  push_total ps < UINT64_MAX →
  nsteps step n (spsc_queue_init mem log2 isize, [producer ps; consumer cs]) (q, ts) →
  ¬ faults (q, ts) ∧ ∃ H, inv q H ∧
    (∀ rs, finished ts 0 (inl rs) → rs.*1 = ps ∧ pushed isize rs H) ∧
    (∀ outs, finished ts 1 (inr outs) → outs.*1 = cs ∧ retrieved H 0 outs (head q)).
Proof.
  intros Hmem Hps Hcs Htot Hsteps. destruct (init_inv _ _ _ Hmem) as [Hi Hsz].
  set (q0 := spsc_queue_init mem log2 isize) in *.
  pose (Qs := λ i : nat, match i with
    | O => λ a q H, ∀ rs, a = inl rs → produced q0 [] ps rs q H
    | _ => λ a q H, ∀ outs, a = inr outs → consumed q0 [] cs outs q H end).
  destruct (rg_adequate ginv rely (Z.of_nat n + 1) n q0 [producer ps; consumer cs] q ts Qs [])
    as (Hok & H & HI & Hdone).
  - exact Hi.
  - intros [|[|i]] p Hp; [injection Hp as <-..|done].
    + rg_bind produce_ok; [done|by rewrite Hsz|done|]. intros n1 rs q1 H1 _ Hpost.
      apply rg_ret; [|by intros ? [= <-]]. intros n2 q2 H2 q3 H3 HQ HI3 HR rs' Hrs.
      exact (produced_stable q0 [] ps rs' n2 _ _ _ _ (HQ _ Hrs) HI3 HR).
    + rg_bind consume_ok; [done|done|]. intros n1 rs q1 H1 _ Hpost.
      apply rg_ret; [|by intros ? [= <-]]. intros n2 q2 H2 q3 H3 HQ HI3 HR rs' Hrs.
      refine (consumed_stable q0 [] cs rs' _ Hcs n2 _ _ _ _ (HQ _ Hrs) HI3 HR). done.
  - exact Hsteps.
  - lia.
  - split; [done|]. exists H. split; [done|]. split.
    + intros rs Hf. destruct (Hdone 0%nat _ Hf rs eq_refl) as (_ & Hrs & xs & Hp & ->).
      rewrite Hsz in Hp. done.
    + intros outs Hf. destruct (Hdone 1%nat _ Hf outs eq_refl) as (_ & Hrs & _ & Hr). done.
Qed.

(** Each operation leaves the other thread's counter alone. *)
Lemma quiet_push o : quiet head (do_push o).
Proof.
  assert (∀ i s off, quiet head (store_item i s off)) as Hstore.
  { intros. unfold store_item. quiet. apply quiet_update. intros s0 s'.
    destruct (wr _ _ _); intros [= <-]. done. }
  destruct o; cbn [do_push]; unfold spsc_queue_push, spsc_queue_multi_push, get_cap; quiet.
Qed.

Lemma quiet_pop o : quiet tail (do_pop o).
Proof.
  destruct o; cbn [do_pop]; unfold spsc_queue_pop, spsc_queue_multi_pop, get_cap, read_item; quiet.
Qed.

Lemma push_alone q H o :
  inv q H → push_valid (item_size q) o → tail q + push_count o < UINT64_MAX →
  wp (run (do_push o) q) (λ '(q', b),
    same_shape q q' ∧ head q' = head q ∧ b = bool_decide (tail q - head q + push_count o ≤ cap q) ∧
    ∃ xs, inv q' (H ++ xs) ∧
      if b then offered q (push_source o) (push_count o) xs else xs = []).
Proof.
  intros Hi Hv H64. eapply wp_mono.
  { eapply (rg_run ginv rely 1 0 head _ _ q H 0%nat);
      [by intros|lia|apply quiet_push|exact Hi|by apply do_push_ok]. }
  intros [q' b] (Hh & H' & HI & (Hc & Hs) & _ & Hb). split; [done|]. split; [done|].
  assert (cap q' = cap q) as Hcap by (unfold cap; congruence).
  pose proof (inv_tail _ _ HI) as Ht. rewrite <- (inv_hist _ _ HI) in Ht.
  pose proof (inv_hist _ _ Hi) as Hl. destruct b.
  - destruct Hb as (xs & Hoff & ->). rewrite zlen_app in Ht. pose proof Hoff as [Hn _].
    rewrite bool_decide_eq_true_2 by lia. split; [done|]. by exists xs.
  - destruct Hb as (-> & ?). rewrite bool_decide_eq_false_2 by lia. split; [done|].
    exists []. by rewrite app_nil_r.
Qed.

Lemma pop_alone q H o :
  inv q H → pop_valid o →
  wp (run (do_pop o) q) (λ '(q', r),
    same_shape q q' ∧ inv q' H ∧
    if decide (pop_count o ≤ tail q - head q) then
      head q' = head q + pop_count o ∧
      r = Some (if pop_dst o then concat (taken (head q) (pop_count o) H) else [])
    else head q' = head q ∧ r = None).
Proof.
  intros Hi Hv. eapply wp_mono.
  { eapply (rg_run ginv rely 1 1 tail _ _ q H 0%nat);
      [by intros|lia|apply quiet_pop|exact Hi|by apply do_pop_ok]. }
  intros [q' r] (Ht & H' & HI & (Hc & Hs) & _ & (K & ->) & Hr).
  assert (K = []) as ->.
  { pose proof (inv_hist _ _ HI) as Hl. rewrite zlen_app, (inv_hist _ _ Hi) in Hl.
    apply zlen_0_inv. lia. }
  rewrite app_nil_r in *. split; [done|]. split; [done|]. pose proof (inv_hist _ _ Hi).
  destruct r as [bs|].
  - destruct Hr as (? & ? & ->). by rewrite decide_True by lia.
  - destruct Hr as (? & ?). rewrite decide_False by lia. done.
Qed.

(** An operation that nobody interferes with ends: a push appends its items
    exactly if there is room for all of them, a pop takes as many items from
    the front as it was asked for, or none if there are fewer. *)
Theorem spsc_operations_alone q H :
  inv q H →
  (∀ o, push_valid (item_size q) o → tail q + push_count o < UINT64_MAX →
     wp (run (do_push o) q) (λ '(q', b),
       same_shape q q' ∧ head q' = head q ∧ b = bool_decide (tail q - head q + push_count o ≤ cap q) ∧
       ∃ xs, inv q' (H ++ xs) ∧
         if b then offered q (push_source o) (push_count o) xs else xs = [])) ∧
  (∀ o, pop_valid o →
     wp (run (do_pop o) q) (λ '(q', r),
       same_shape q q' ∧ inv q' H ∧
       if decide (pop_count o ≤ tail q - head q) then
         head q' = head q + pop_count o ∧
         r = Some (if pop_dst o then concat (taken (head q) (pop_count o) H) else [])
       else head q' = head q ∧ r = None)).
Proof.
  intros Hi. split; [by intros; apply push_alone|by intros; apply pop_alone].
Qed.

(** The bytes of the region that a peek returned. *)
Definition region (q : spsc_queue_t) (r : option Z * Z) : outcome (list Z) :=
  match r.1 with
  | Some off => rd_range (items q) off (r.2 * item_size q)
  | None => Ret []
  end.

Lemma region_length q r x : region q r = Ret x → (r.1 = None → r.2 = 0) → zlen x = r.2 * item_size q.
Proof.
  unfold region. destruct (r.1) as [off|].
  - by intros (_ & _ & ? & _)%rd_range_elements.
  - intros [= <-] ->; done.
Qed.

(** Neighbouring slots, read at once. *)
Lemma slots_range q H j xs :
  inv q H → 0 ≤ j → j + zlen xs ≤ cap q →
  (∀ k x, 0 ≤ k → xs !! Z.to_nat k = Some x → slot q (j + k) = Ret x) →
  rd_range (items q) (j * item_size q) (zlen xs * item_size q) = Ret (concat xs).
Proof.
  intros Hi Hj. pose proof (inv_size _ _ Hi). induction xs as [|x xs IH] using rev_ind; intros Hle Hxs.
  - apply rd_range_elements. rewrite (inv_items _ _ Hi). change (zlen (@nil (list Z))) with 0 in *.
    split_and!; [nia|nia|done|lia].
  - rewrite zlen_app in *. change (zlen [x]) with 1 in *. pose proof (zlen_nonneg xs).
    assert (slot q (j + zlen xs) = Ret x) as Hx.
    { apply Hxs; [done|]. unfold zlen. rewrite Nat2Z.id. by rewrite lookup_app_r, Nat.sub_diag. }
    assert (rd_range (items q) (j * item_size q) (zlen xs * item_size q) = Ret (concat xs)) as IHx.
    { apply IH; [lia|]. intros k y ? Hy. apply Hxs; [done|]. by apply lookup_app_l_Some. }
    unfold slot in Hx. apply rd_range_elements in IHx as (_ & _ & Hl & _).
    apply rd_range_elements in Hx as (_ & _ & Hlx & _).
    replace ((zlen xs + 1) * item_size q) with (zlen (concat xs) + zlen x) by lia.
    rewrite concat_app. simpl. rewrite app_nil_r. apply rd_range_concat.
    + rewrite Hl. apply IH; [lia|]. intros k y ? Hy. apply Hxs; [done|]. by apply lookup_app_l_Some.
    + rewrite Hl, Hlx. replace (j * item_size q + zlen xs * item_size q) with ((j + zlen xs) * item_size q) by lia.
      apply Hxs; [done|]. unfold zlen. rewrite Nat2Z.id. by rewrite lookup_app_r, Nat.sub_diag.
Qed.

(** A part of the content that does not go round the end of the memory. *)
Lemma content_range q H i n :
  inv q H → head q ≤ i → 0 ≤ n → i + n ≤ tail q → i mod cap q + n ≤ cap q →
  rd_range (items q) (i mod cap q * item_size q) (n * item_size q) = Ret (concat (taken i n H)).
Proof.
  intros Hi ????. pose proof (cap_pos _ _ Hi). pose proof (inv_head _ _ Hi).
  pose proof (inv_hist _ _ Hi) as Hl.
  assert (zlen (taken i n H) = n) as Hn.
  { unfold taken. rewrite zlen_take; [done|]. rewrite zlen_drop; lia. }
  pose proof (Z.mod_pos_bound i (cap q)). rewrite <- Hn at 1. apply (slots_range q H); [done|lia|lia|].
  intros k x Hk Hx. apply lookup_lt_Some in Hx as Hlt. unfold zlen in Hn.
  unfold taken in Hx. apply lookup_take_Some in Hx as [Hx _]. rewrite lookup_drop in Hx.
  replace (Z.to_nat i + Z.to_nat k)%nat with (Z.to_nat (i + k)) in Hx by lia.
  apply (inv_slots _ _ Hi) in Hx; [|lia]. rewrite <- Hx. f_equal.
  rewrite <- (Z.mod_small (i mod cap q + k) (cap q)) by lia. by rewrite Zplus_mod_idemp_l.
Qed.

Lemma run_get_cap {A} q H (k : Z → prog spsc_queue_t A) :
  inv q H → run (c ← get_cap; k c) q = run (k (cap q)) q.
Proof. intros Hi. unfold get_cap. cbn [run mbind prog_bind access]. by rewrite (get_cap_ok q H). Qed.

(** Where the content lies: in one stretch, or in two when it goes round. *)
Lemma laps q H :
  inv q H → head q < tail q →
  let h := head q mod cap q in let t := tail q mod cap q in
  if decide (h < t) then t - h = tail q - head q
  else cap q - h + t = tail q - head q ∧ (head q + (cap q - h)) mod cap q = 0.
Proof.
  intros Hi Hlt. cbv zeta. pose proof (cap_pos _ _ Hi). pose proof (inv_tail _ _ Hi).
  pose proof (Z.mod_pos_bound (head q) (cap q) ltac:(lia)).
  pose proof (Z.mod_pos_bound (tail q) (cap q) ltac:(lia)).
  pose proof (Z.div_mod (head q) (cap q) ltac:(lia)). pose proof (Z.div_mod (tail q) (cap q) ltac:(lia)).
  assert ((head q + (cap q - head q mod cap q)) mod cap q = 0) as Hz.
  { replace (head q + (cap q - head q mod cap q)) with ((head q / cap q + 1) * cap q) by lia.
    by rewrite Z_mod_mult. }
  rewrite Hz. remember (head q / cap q) as a. remember (tail q / cap q) as b.
  remember (head q mod cap q) as h. remember (tail q mod cap q) as t.
  assert (b - a < 2) by (apply (Z.mul_lt_mono_pos_l (cap q)); lia).
  assert (-1 < b - a) by (apply (Z.mul_lt_mono_pos_l (cap q)); lia).
  assert (b = a ∨ b = a + 1) as [Hb|Hb] by lia; rewrite Hb in *; case_decide; lia.
Qed.

(** The two peeks show the whole content in place: their regions, one
    behind the other, are the items from the head to the tail. *)
Lemma peeks_cover q H :
  inv q H → ∃ r0 r1 x0 x1,
    run spsc_queue_peek_0 q = Ret (q, r0) ∧ run spsc_queue_peek_1 q = Ret (q, r1) ∧
    r0.2 + r1.2 = tail q - head q ∧ region q r0 = Ret x0 ∧ region q r1 = Ret x1 ∧
    x0 ++ x1 = concat (drop (Z.to_nat (head q)) H) ∧
    zlen x0 = r0.2 * item_size q ∧ zlen x1 = r1.2 * item_size q.
Proof.
  intros Hi. cut (∃ r0 r1 x0 x1,
    run spsc_queue_peek_0 q = Ret (q, r0) ∧ run spsc_queue_peek_1 q = Ret (q, r1) ∧
    r0.2 + r1.2 = tail q - head q ∧ region q r0 = Ret x0 ∧ region q r1 = Ret x1 ∧
    x0 ++ x1 = concat (drop (Z.to_nat (head q)) H) ∧ (r0.1 = None → r0.2 = 0) ∧ (r1.1 = None → r1.2 = 0)).
  { intros (r0 & r1 & x0 & x1 & ? & ? & ? & Hx0 & Hx1 & ? & Hr0 & Hr1). exists r0, r1, x0, x1.
    split_and!; [done..| |]; [apply (region_length q r0)|apply (region_length q r1)]; done. }
  unfold spsc_queue_peek_0, spsc_queue_peek_1. rewrite !(run_get_cap q H) by done.
  cbn [run mbind prog_bind load outcome_bind].
  pose proof (cap_pos _ _ Hi). pose proof (inv_head _ _ Hi). pose proof (inv_tail _ _ Hi).
  pose proof (inv_hist _ _ Hi) as Hl. rewrite !(masked q H) by done.
  pose proof (Z.mod_pos_bound (head q) (cap q) ltac:(lia)).
  pose proof (Z.mod_pos_bound (tail q) (cap q) ltac:(lia)).
  destruct (Z.eqb_spec (head q) (tail q)) as [Heq|Hne].
  { exists (None, 0), (None, 0), [], []. split_and!; try done; [simpl; lia|].
    rewrite drop_ge; [done|]. unfold zlen in Hl. lia. }
  rewrite !(u32_small (_ mod _)) by lia. pose proof (laps q H Hi ltac:(lia)) as Hlap.
  cbv zeta in Hlap.
  assert (taken (head q) (tail q - head q) H = drop (Z.to_nat (head q)) H) as Hall.
  { unfold taken. apply take_ge. rewrite length_drop. unfold zlen in Hl. lia. }
  case_decide as Hd.
  - destruct (Z.ltb_spec (head q mod cap q) (tail q mod cap q)) as [_|]; [|lia].
    cbn [run mbind prog_bind load outcome_bind mret prog_ret].
    eexists _, _, _, _. split; [done|]. split; [done|]. simpl. rewrite !s32_small by lia.
    split_and!; [lia| |done| |done|done].
    + unfold region. simpl. rewrite (item_addr_ok q H) by (done || lia).
      rewrite Hlap. apply (content_range q H); [done|lia|lia|lia|lia].
    + rewrite app_nil_r. by rewrite Hall.
  - destruct (Z.ltb_spec (head q mod cap q) (tail q mod cap q)) as [|_]; [lia|].
    cbn [run mbind prog_bind load outcome_bind mret prog_ret]. destruct Hlap as (Hsum & Hz).
    eexists _, _, _, _. split; [done|]. split; [done|]. simpl.
    rewrite (u32_small (cap q - _)), !s32_small by lia. split_and!; [lia| | | |done|done].
    + unfold region. simpl. rewrite (item_addr_ok q H) by (done || lia).
      apply (content_range q H); [done|lia|lia|lia|lia].
    + unfold region. simpl. rewrite (item_addr_ok q H) by (done || lia).
      replace (0 * item_size q) with ((head q + (cap q - head q mod cap q)) mod cap q * item_size q) by (rewrite Hz; lia).
      apply (content_range q H); [done|lia|lia|lia|rewrite Hz; lia].
    + rewrite <- concat_app, <- Hall. f_equal. unfold taken.
      rewrite <- Hsum. rewrite (Z2Nat.inj_add (head q)) by lia. rewrite <- drop_drop.
      rewrite (Z2Nat.inj_add (cap q - _)) by lia. apply take_take_drop.
Qed.

(** ** The theorems at work *)

Definition example_pushes : list push_op :=
  [Push (Some [1; 2]); MultiPush (Some [3; 4; 5; 6]) 2; Push (Some [7; 8])].
Definition example_pops : list pop_op := [Pop true; MultiPop true 2; Pop true].
Definition example_queue : spsc_queue_t := mkSpsc [1; 2; 7; 8] 2 1 1 2.
Definition example_pushed : list (push_op * bool) := zip example_pushes [true; false; true].
Definition example_popped : list (pop_op * option (list Z)) := zip example_pops [Some [1; 2]; None; None].

(** The consumer finds one item after the first push, and then too few twice. *)
Lemma example_run :
  exec (replicate 20 0%nat ++ replicate 12 1%nat ++ replicate 3 0%nat ++ replicate 20 1%nat ++
        replicate 40 0%nat)
    (spsc_queue_init (replicate 4 0) 1 2, [producer example_pushes; consumer example_pops]) =
  Ret (example_queue, [done (inl example_pushed); done (inr example_popped)]).
Proof. vm_compute. reflexivity. Qed.

Lemma spsc_fifo_witness :
  let ts := [done (inl example_pushed); done (inr example_popped)] in
  ¬ faults (example_queue, ts) ∧ ∃ H, inv example_queue H ∧
    (∀ rs, finished ts 0 (inl rs) → rs.*1 = example_pushes ∧ pushed 2 rs H) ∧
    (∀ outs, finished ts 1 (inr outs) → outs.*1 = example_pops ∧ retrieved H 0 outs (head example_queue)).
Proof.
  eapply (spsc_fifo (replicate 4 0) 1 2 example_pushes example_pops).
  - unfold memory_fits. vm_compute. intuition discriminate.
  - repeat constructor; vm_compute; discriminate.
  - repeat constructor; vm_compute; discriminate.
  - reflexivity.
  - apply (exec_steps _ _ _ example_run).
Defined.

Lemma spsc_example_inv : inv (mkSpsc [5; 6; 3; 4] 2 1 1 3) [[1; 2]; [3; 4]; [5; 6]].
Proof.
  split; try (vm_compute; intuition discriminate).
  intros i x Hi Hx. simpl in Hi. assert (i = 1 ∨ i = 2) as [-> | ->] by lia; injection Hx as <-; reflexivity.
Qed.

Lemma spsc_operations_alone_witness :
  wp (run (do_push (Push (Some [7; 8]))) (mkSpsc [5; 6; 3; 4] 2 1 1 3)) (λ '(q', b), b = false) ∧
  wp (run (do_pop (MultiPop true 2)) (mkSpsc [5; 6; 3; 4] 2 1 1 3)) (λ '(q', r), r = Some [3; 4; 5; 6]).
Proof.
  destruct (spsc_operations_alone _ _ spsc_example_inv) as [Hpush Hpop]. split.
  - eapply wp_mono; [apply Hpush; vm_compute; intuition discriminate|].
    intros [q' b] (_ & _ & -> & _). reflexivity.
  - eapply wp_mono; [apply Hpop; vm_compute; intuition discriminate|].
    intros [q' r] (_ & _ & _ & ->). reflexivity.
Defined.
