(* ===== verification/Log.v ===== *)
(** The log of [src/misc/log.c]: each thread writes into a buffer of its own, a
    queue with a semaphore for its room, and one thread flushes the buffers
    into a file. *)
From S2P Require Import Prelude Conc Clock Sync Spsc.
#[global] Open Scope Z_scope.

(** ** The state *)

(** [data] is the memory of the queue, [items]. *)
Record thread_buffer_t : Type := mkBuffer {
  next : option nat;
  sem : semaphore_t;
  queue : spsc_queue_t;
}.

Record config : Type := mkConfig {
  config_changed : bool;
  config_timeout_ms : Z;
  config_dest_file : list Z;
}.

(** The static variables, the memory of [malloc], where a pointer is a number
    that is not used again, and the files by name.  [flush_running] says whether
    the flush thread has been started and has not returned. *)
Record logger : Type := mkLogger {
  heap : gmap nat thread_buffer_t;
  next_pointer : nat;
  global_thread_local_buffer_list : option nat;
  thread_local_buffer : gmap nat nat;
  can_terminate : bool;
  can_flush_event : os_condvar_t;
  can_flush_mutex : os_mutex_t;
  config_mutex : os_mutex_t;
  the_config : config;
  flush_running : bool;
  files : gmap (list Z) (list Z);
}.

Definition with_heap (s : logger) (h : gmap nat thread_buffer_t) : logger :=
  mkLogger h (next_pointer s) (global_thread_local_buffer_list s) (thread_local_buffer s)
    (can_terminate s) (can_flush_event s) (can_flush_mutex s) (config_mutex s) (the_config s)
    (flush_running s) (files s).
Definition with_list (s : logger) (l : option nat) : logger :=
  mkLogger (heap s) (next_pointer s) l (thread_local_buffer s)
    (can_terminate s) (can_flush_event s) (can_flush_mutex s) (config_mutex s) (the_config s)
    (flush_running s) (files s).
Definition with_local (s : logger) (me p : nat) : logger :=
  mkLogger (heap s) (next_pointer s) (global_thread_local_buffer_list s) (<[me := p]> (thread_local_buffer s))
    (can_terminate s) (can_flush_event s) (can_flush_mutex s) (config_mutex s) (the_config s)
    (flush_running s) (files s).
Definition with_terminate (s : logger) (b : bool) : logger :=
  mkLogger (heap s) (next_pointer s) (global_thread_local_buffer_list s) (thread_local_buffer s)
    b (can_flush_event s) (can_flush_mutex s) (config_mutex s) (the_config s)
    (flush_running s) (files s).
Definition with_flush (s : logger) (m : os_mutex_t) (c : os_condvar_t) : logger :=
  mkLogger (heap s) (next_pointer s) (global_thread_local_buffer_list s) (thread_local_buffer s)
    (can_terminate s) c m (config_mutex s) (the_config s) (flush_running s) (files s).
Definition with_config (s : logger) (m : os_mutex_t) (c : config) : logger :=
  mkLogger (heap s) (next_pointer s) (global_thread_local_buffer_list s) (thread_local_buffer s)
    (can_terminate s) (can_flush_event s) (can_flush_mutex s) m c (flush_running s) (files s).
Definition with_running (s : logger) (b : bool) : logger :=
  mkLogger (heap s) (next_pointer s) (global_thread_local_buffer_list s) (thread_local_buffer s)
    (can_terminate s) (can_flush_event s) (can_flush_mutex s) (config_mutex s) (the_config s)
    b (files s).
Definition with_files (s : logger) (f : gmap (list Z) (list Z)) : logger :=
  mkLogger (heap s) (next_pointer s) (global_thread_local_buffer_list s) (thread_local_buffer s)
    (can_terminate s) (can_flush_event s) (can_flush_mutex s) (config_mutex s) (the_config s)
    (flush_running s) f.

(** ** The parts of the state *)

Definition deref (s : logger) (p : nat) : outcome thread_buffer_t :=
  match heap s !! p with Some b => Ret b | None => Fail OutOfBounds end.
Definition set_buffer (p : nat) (b : thread_buffer_t) (s : logger) : logger :=
  with_heap s (<[p := b]> (heap s)).

Definition on_buffer {A} (p : nat) : prog thread_buffer_t A → prog logger A :=
  lift (λ s, deref s p) (set_buffer p).
Definition on_sem {A} : prog semaphore_t A → prog thread_buffer_t A :=
  lift (λ b, Ret (sem b)) (λ m b, mkBuffer (next b) m (queue b)).
Definition on_queue {A} : prog spsc_queue_t A → prog thread_buffer_t A :=
  lift (λ b, Ret (queue b)) (λ q b, mkBuffer (next b) (sem b) q).
Definition on_flush_mutex {A} : prog os_mutex_t A → prog logger A :=
  lift (λ s, Ret (can_flush_mutex s)) (λ m s, with_flush s m (can_flush_event s)).
Definition on_flush_event {A} : prog os_condvar_t A → prog logger A :=
  lift (λ s, Ret (can_flush_event s)) (λ c s, with_flush s (can_flush_mutex s) c).
Definition on_flush {A} : prog (os_mutex_t * os_condvar_t) A → prog logger A :=
  lift (λ s, Ret (can_flush_mutex s, can_flush_event s)) (λ p s, with_flush s p.1 p.2).
Definition on_config_mutex {A} : prog os_mutex_t A → prog logger A :=
  lift (λ s, Ret (config_mutex s)) (λ m s, with_config s m (the_config s)).

(** ** The file *)

Definition DEST_FILE_NAME_MAX : Z := 4096.

(** [open] for appending; it may fail. *)
Definition os_open (file : list Z) (opens : bool) : prog logger unit :=
  if opens then
    store (λ s, with_files s (<[file := default [] (files s !! file)]> (files s)))
  else pure (Fail Aborted).

(** What [write] answers: a number of bytes, at most those it was given, an
    interruption or an error. *)
Inductive write_answer : Type :=
  | Wrote (n : nat)
  | Interrupted
  | Failed.

(** A pointer into the memory of a queue, [None] for NULL. *)
Definition read_at (s : logger) (data : option (nat * Z)) (off n : Z) : outcome (list Z) :=
  match data with
  | Some (p, o) => b ← deref s p; rd_range (items (queue b)) (o + off) n
  | None => if n =? 0 then Ret [] else Fail NullDeref
  end.

(** A thread that is out of answers waits for [write]. *)
Fixpoint os_write (handle : list Z) (data : option (nat * Z)) (written size : Z)
    (answers : list write_answer) : prog logger Z :=
  match answers with
  | [] => stopped
  | a :: answers =>
      match a with
      | Failed => mret (-1)
      | _ =>
          let n := match a with Wrote n => Z.min (Z.of_nat n) (size - written) | _ => 0 end in
          update (λ s,
            bytes ← read_at s data written n;
            Ret (with_files s (<[handle := default [] (files s !! handle) ++ bytes]> (files s))));;
          let written := written + n in
          if written <? size then os_write handle data written size answers else mret written
      end
  end.

(** ** The flush thread *)

(** What happens at a buffer: the answers to the two writes, and which sleeper
    the signal wakes. *)
Record visit : Type := mkVisit {
  answers1 : list write_answer;
  answers2 : list write_answer;
  picked : nat;
}.

Definition flush_buffer (handle : list Z) (p : nat) (v : visit) : prog logger unit :=
  '(ptr1, num1) ← on_buffer p (on_queue spsc_queue_peek_0);
  '(ptr2, num2) ← on_buffer p (on_queue spsc_queue_peek_1);
  num ← pure (int (num1 + num2));
  if 0 <? num then
    w1 ← os_write handle ((p,.) <$> ptr1) 0 num1 (answers1 v);
    pure (if w1 =? num1 then Ret tt else Fail Aborted);;
    w2 ← os_write handle ((p,.) <$> ptr2) 0 num2 (answers2 v);
    pure (if w2 =? num2 then Ret tt else Fail Aborted);;
    on_buffer p (on_queue (spsc_queue_multi_pop false num));;
    on_buffer p (on_sem (semaphore_signal num (picked v)))
  else mret tt.

Fixpoint flush_buffers (handle : list Z) (cursor : option nat) (visits : list visit) : prog logger unit :=
  match cursor with
  | None => mret tt
  | Some p =>
      match visits with
      | [] => stopped
      | v :: visits =>
          flush_buffer handle p v;;
          cursor ← access (λ s, b ← deref s p; Ret (next b));
          flush_buffers handle cursor visits
      end
  end.

Definition flush_thread_local_buffers (handle : list Z) (visits : list visit) : prog logger unit :=
  cursor ← load global_thread_local_buffer_list;
  flush_buffers handle cursor visits.

Record flush_round : Type := mkFlush {
  woken_at : timespec;
  woken_how : wakeup;
  opens : bool;
  visited : list visit;
}.

Definition flush_to (dest_file : list Z) (opens : bool) (visits : list visit) : prog logger unit :=
  os_open dest_file opens;;
  flush_thread_local_buffers dest_file visits.

(** The loop, up to the last name of the file. *)
Fixpoint flush_loop (timeout_ms : Z) (dest_file : list Z) (rounds : list flush_round) : prog logger (list Z) :=
  stop ← load can_terminate;
  if stop : bool then mret dest_file
  else
    match rounds with
    | [] => stopped
    | r :: rounds =>
        on_flush_mutex os_mutex_lock;;
        on_flush (os_condvar_wait timeout_ms (woken_at r) (woken_how r));;
        on_flush_mutex os_mutex_unlock;;
        on_config_mutex os_mutex_lock;;
        c ← load the_config;
        (if config_changed c then
           store (λ s, with_config s (config_mutex s)
             (mkConfig false (config_timeout_ms (the_config s)) (config_dest_file (the_config s))))
         else mret tt);;
        on_config_mutex os_mutex_unlock;;
        let timeout_ms := if config_changed c then config_timeout_ms c else timeout_ms in
        let dest_file := if config_changed c then config_dest_file c else dest_file in
        flush_to dest_file (opens r) (visited r);;
        flush_loop timeout_ms dest_file rounds
    end.

Definition flush_routine (rounds : list flush_round) (last : flush_round) : prog logger unit :=
  on_config_mutex os_mutex_lock;;
  c ← load the_config;
  on_config_mutex os_mutex_unlock;;
  dest_file ← flush_loop (config_timeout_ms c) (config_dest_file c) rounds;
  flush_to dest_file (opens last) (visited last);;
  store (λ s, with_running s false).

(** ** The interface *)

Definition log_set_flush_timeout (timeout_ms : Z) : prog logger unit :=
  on_config_mutex os_mutex_lock;;
  store (λ s, with_config s (config_mutex s) (mkConfig true timeout_ms (config_dest_file (the_config s))));;
  on_config_mutex os_mutex_unlock.

Definition log_set_dest_file (dest_file : list Z) : prog logger unit :=
  if DEST_FILE_NAME_MAX <=? zlen dest_file then pure (Fail Aborted)
  else
    on_config_mutex os_mutex_lock;;
    store (λ s, with_config s (config_mutex s) (mkConfig true (config_timeout_ms (the_config s)) dest_file));;
    on_config_mutex os_mutex_unlock.

Definition wakeup_flush_routine (pick : nat) : prog logger unit :=
  on_flush_mutex os_mutex_lock;;
  on_flush_event (os_condvar_signal pick);;
  on_flush_mutex os_mutex_unlock.

Section writers.
Variable LOG_BUFFER_LOG2 : Z.

Definition LOG_BUFFER_SIZE : Z := 2 ^ LOG_BUFFER_LOG2.

(** [malloc] answers NULL or memory with the bytes [mem] for the queue. *)
Definition new_buffer (malloc : option (list Z)) : prog logger nat :=
  match malloc with
  | None => pure (Fail Aborted)
  | Some mem =>
      let b := mkBuffer None (semaphore_create (s32 LOG_BUFFER_SIZE)) (spsc_queue_init mem LOG_BUFFER_LOG2 1) in
      act (λ s, Ret (mkLogger (<[next_pointer s := b]> (heap s)) (S (next_pointer s))
        (global_thread_local_buffer_list s) (thread_local_buffer s) (can_terminate s) (can_flush_event s)
        (can_flush_mutex s) (config_mutex s) (the_config s) (flush_running s) (files s), next_pointer s)) done
  end.

(** [atomic_compare_exchange_weak] of the list, which may fail for no reason. *)
Definition exchange_list (old_head : option nat) (b : nat) (spurious : bool) : prog logger bool :=
  act (λ s,
    if negb spurious && bool_decide (global_thread_local_buffer_list s = old_head)
    then Ret (with_list s (Some b), true) else Ret (s, false)) done.

(** The loop that puts the buffer in front of the list; [spurious] says which
    of its exchanges fail for no reason. *)
Fixpoint publish_buffer (b : nat) (spurious : list bool) : prog logger unit :=
  match spurious with
  | [] => stopped
  | sp :: spurious =>
      old_head ← load global_thread_local_buffer_list;
      on_buffer b (store (λ b, mkBuffer old_head (sem b) (queue b)));;
      ok ← exchange_list old_head b sp;
      if ok : bool then mret tt else publish_buffer b spurious
  end.

(** What a write comes upon: the memory from [malloc], failing exchanges, the
    sleeper that is woken, the clock when it waits and how its sleeps end. *)
Record write_luck : Type := mkLuck {
  malloced : option (list Z);
  failing : list bool;
  woken : nat;
  started : timespec;
  sleeps : list round;
}.

Definition get_buffer (me : nat) (w : write_luck) : prog logger nat :=
  mine ← load (λ s, thread_local_buffer s !! me);
  match mine with
  | Some p => mret p
  | None =>
      b ← new_buffer (malloced w);
      publish_buffer b (failing w);;
      store (λ s, with_local s me b);;
      mret b
  end.

Definition log_write2 (me : nat) (data : list Z) (size : Z) (w : write_luck) : prog logger unit :=
  if LOG_BUFFER_SIZE <? size then pure (Fail Aborted)
  else
    p ← get_buffer me w;
    capacity ← on_buffer p (on_queue spsc_queue_capacity);
    used ← on_buffer p (on_queue spsc_queue_size);
    free ← pure (int (capacity - used));
    (if u64 free <? size then wakeup_flush_routine (woken w) else mret tt);;
    on_buffer p (on_sem (semaphore_wait (s32 size) (-1) (started w) (sleeps w)));;
    on_buffer p (on_queue (spsc_queue_multi_push (Some data) (s32 size)));;
    mret tt.

(** [data] are the characters before the one that ends them. *)
Definition log_write (me : nat) (data : list Z) (w : write_luck) : prog logger unit :=
  log_write2 me data (zlen data) w.

(** [vsnprintf] answered [len] for the text [text]. *)
Definition log_writefv (me : nat) (len : Z) (text : list Z) (w : write_luck) : prog logger unit :=
  if len <? 0 then pure (Fail Aborted)
  else if 4096 <=? len then pure (Fail Aborted)
  else log_write2 me text len w.
End writers.

(** [None] is NULL. *)
Definition log_init (dest_file : option (list Z)) : prog logger unit :=
  match dest_file with
  | None => pure (Fail Aborted)
  | Some dest_file =>
      if DEST_FILE_NAME_MAX <=? zlen dest_file then pure (Fail Aborted)
      else
        store (λ s, with_terminate s false);;
        store (λ s, with_config s os_mutex_create (mkConfig false 1000 dest_file));;
        store (λ s, with_flush s os_mutex_create os_condvar_create);;
        store (λ s, with_list s None);;
        store (λ s, with_running s true)
  end.

(** The loop of [log_quit]; it is given as many rounds as there are buffers. *)
Fixpoint free_buffers (rounds : nat) (cursor : option nat) : prog logger unit :=
  match cursor, rounds with
  | None, _ => mret tt
  | Some _, O => pure (Fail OutOfFuel)
  | Some p, S rounds =>
      nx ← access (λ s, b ← deref s p; Ret (next b));
      access (λ s, b ← deref s p; semaphore_delete (sem b));;
      store (λ s, with_heap s (delete p (heap s)));;
      free_buffers rounds nx
  end.

Definition log_quit (pick : nat) : prog logger unit :=
  store (λ s, with_terminate s true);;
  wakeup_flush_routine pick;;
  spin (λ s, negb (flush_running s));;
  n ← load (λ s, size (heap s));
  cursor ← load global_thread_local_buffer_list;
  free_buffers n cursor;;
  store (λ s, with_list s None);;
  access (λ s, os_condvar_delete (can_flush_event s));;
  access (λ s, os_mutex_delete (can_flush_mutex s));;
  access (λ s, os_mutex_delete (config_mutex s)).

(** ** Running on a part of the state *)

Lemma run_on_buffer {A} p (pr : prog thread_buffer_t A) s b :
  heap s !! p = Some b →
  run (on_buffer p pr) s = '(b', a) ← run pr b; Ret (set_buffer p b' s, a).
Proof.
  intros Hb. unfold on_buffer. apply run_lift; [| | |unfold deref; by rewrite Hb].
  - intros s0 t t' _. unfold deref, set_buffer. simpl. by rewrite lookup_insert_eq.
  - intros s0 t t'. unfold set_buffer, with_heap. simpl. by rewrite insert_insert_eq.
  - intros s0 t Ht. unfold deref in Ht. destruct (heap s0 !! p) eqn:E; [|done]. injection Ht as ->.
    unfold set_buffer, with_heap. rewrite insert_id by done. by destruct s0.
Qed.

Lemma run_on_queue {A} p (pr : prog spsc_queue_t A) s b :
  heap s !! p = Some b →
  run (on_buffer p (on_queue pr)) s =
    '(q, a) ← run pr (queue b); Ret (set_buffer p (mkBuffer (next b) (sem b) q) s, a).
Proof.
  intros Hb. rewrite (run_on_buffer _ _ _ b) by done. unfold on_queue.
  rewrite (run_lift _ _ _ b (queue b)); [|by intros ? ? ? [= <-]|done|by intros [? ? ?] ? [= <-]|done].
  by destruct (run pr (queue b)) as [[]|].
Qed.

Lemma run_on_sem {A} p (pr : prog semaphore_t A) s b :
  heap s !! p = Some b →
  run (on_buffer p (on_sem pr)) s =
    '(m, a) ← run pr (sem b); Ret (set_buffer p (mkBuffer (next b) m (queue b)) s, a).
Proof.
  intros Hb. rewrite (run_on_buffer _ _ _ b) by done. unfold on_sem.
  rewrite (run_lift _ _ _ b (sem b)); [|by intros ? ? ? [= <-]|done|by intros [? ? ?] ? [= <-]|done].
  by destruct (run pr (sem b)) as [[]|].
Qed.

Lemma set_buffer_same p s b : heap s !! p = Some b → set_buffer p b s = s.
Proof. intros Hb. unfold set_buffer, with_heap. rewrite insert_id by done. by destruct s. Qed.

(** ** Writing to the file *)

Definition append (file bytes : list Z) (s : logger) : logger :=
  with_files s (<[file := default [] (files s !! file) ++ bytes]> (files s)).

Lemma append_append file bs bs' s : append file bs' (append file bs s) = append file (bs ++ bs') s.
Proof.
  unfold append, with_files. simpl. rewrite lookup_insert_eq, insert_insert_eq. simpl. by rewrite app_assoc.
Qed.

(** Answers that take [n] bytes in the end. *)
Definition bytes_of (a : write_answer) : Z := match a with Wrote n => Z.of_nat n | _ => 0 end.
Definition bytes_taken (answers : list write_answer) : Z := foldr (λ a n, bytes_of a + n) 0 answers.
Definition enough (answers : list write_answer) (n : Z) : Prop :=
  answers ≠ [] ∧ (Failed ∉ answers) ∧ n ≤ bytes_taken answers.

Lemma bytes_taken_nonneg answers : 0 ≤ bytes_taken answers.
Proof. induction answers as [|[] ? IH]; unfold bytes_taken in *; simpl; lia. Qed.

Lemma os_write_from handle data bytes answers s w :
  (∀ off n, 0 ≤ off → 0 ≤ n → off + n ≤ zlen bytes →
     read_at s data off n = Ret (take (Z.to_nat n) (drop (Z.to_nat off) bytes))) →
  0 ≤ w ≤ zlen bytes → enough answers (zlen bytes - w) →
  run (os_write handle data w (zlen bytes) answers) s =
    Ret (append handle (drop (Z.to_nat w) bytes) s, zlen bytes).
Proof.
  revert s w. induction answers as [|a answers IH]; intros s w Hread Hw (Hne & Hok & Hsum); [done|].
  set (n := match a with Wrote n => Z.min (Z.of_nat n) (zlen bytes - w) | _ => 0 end).
  assert (0 ≤ n ≤ zlen bytes - w) as Hn by (unfold n; destruct a; lia).
  assert (run (os_write handle data w (zlen bytes) (a :: answers)) s =
    run (if w + n <? zlen bytes then os_write handle data (w + n) (zlen bytes) answers else mret (w + n))
      (append handle (take (Z.to_nat n) (drop (Z.to_nat w) bytes)) s)) as ->.
  { destruct a; [| |by destruct Hok; constructor]; cbn [os_write]; rewrite run_update_bind;
      fold n; rewrite Hread by lia; done. }
  assert (zlen bytes - w ≤ n + bytes_taken answers ∨ w + n = zlen bytes) as Hrest.
  { unfold n. destruct a; unfold bytes_taken in *; simpl in Hsum; lia. }
  destruct (Z.ltb_spec (w + n) (zlen bytes)) as [Hlt|Hge].
  - rewrite IH.
    + rewrite append_append, Z2Nat.inj_add by lia. rewrite <- drop_drop, take_drop. done.
    + exact Hread.
    + lia.
    + split; [|split; [by intros ?; apply Hok; constructor|lia]].
      intros ->. unfold bytes_taken in Hrest. simpl in Hrest. lia.
  - cbn [run mret prog_ret]. rewrite take_ge; [do 2 f_equal; lia|]. rewrite length_drop. unfold zlen in *. lia.
Qed.

(** ** The invariant between the operations *)

Section writers.
Variable LOG_BUFFER_LOG2 : Z.

(** A buffer that nobody is at holds the bytes [x], and its semaphore counts
    the room that is left. *)
Definition buffer_ok (b : thread_buffer_t) (x : list Z) : Prop :=
  ∃ H, Spsc.inv (queue b) H ∧ item_size (queue b) = 1 ∧ cap_log2 (queue b) = LOG_BUFFER_LOG2 ∧
    concat (drop (Z.to_nat (head (queue b))) H) = x ∧
    mutex (sem b) = false ∧ count (sem b) = LOG_BUFFER_SIZE LOG_BUFFER_LOG2 - zlen x.

(** The list from [o] on: the buffers with their contents. *)
Fixpoint chain (h : gmap nat thread_buffer_t) (o : option nat) (l : list (nat * list Z)) : Prop :=
  match l with
  | [] => o = None
  | (p, x) :: l => o = Some p ∧ ∃ b, h !! p = Some b ∧ buffer_ok b x ∧ chain h (next b) l
  end.

Record log_ok (s : logger) (l : list (nat * list Z)) : Prop := {
  ok_chain : chain (heap s) (global_thread_local_buffer_list s) l;
  ok_apart : NoDup l.*1;
  ok_local me p : thread_local_buffer s !! me = Some p → p ∈ l.*1;
  ok_fresh p : p ∈ l.*1 → (p < next_pointer s)%nat;
}.

Lemma chain_frame h h' o l : (∀ p, p ∈ l.*1 → h' !! p = h !! p) → chain h o l → chain h' o l.
Proof.
  revert o. induction l as [|[p x] l IH]; intros o Hh; [done|]. intros (-> & b & Hb & Hok & Hl).
  split; [done|]. exists b. rewrite Hh by (simpl; constructor). split_and!; [done|done|].
  apply IH; [|done]. intros p' ?. apply Hh. simpl. by constructor.
Qed.

(** Bytes are items of one byte. *)
Lemma content_length q H :
  Spsc.inv q H → item_size q = 1 → zlen (concat (drop (Z.to_nat (head q)) H)) = tail q - head q.
Proof.
  intros Hi Hs. destruct (peeks_cover q H Hi) as (r0 & r1 & x0 & x1 & _ & _ & Hsum & _ & _ & <- & Hl0 & Hl1).
  rewrite zlen_app. lia.
Qed.

Lemma enough_le answers n m : m ≤ n → enough answers n → enough answers m.
Proof. intros ? (? & ? & ?). split_and!; [done|done|lia]. Qed.

(** The bytes of a region of the queue, as a write reads them. *)
Lemma read_region s p b r x off n :
  heap s !! p = Some b → item_size (queue b) = 1 → region (queue b) r = Ret x → zlen x = r.2 →
  0 ≤ off → 0 ≤ n → off + n ≤ zlen x →
  read_at s ((p,.) <$> r.1) off n = Ret (take (Z.to_nat n) (drop (Z.to_nat off) x)).
Proof.
  intros Hb Hs Hr Hl Hoff Hn Hle. unfold region in Hr. destruct (r.1) as [o|]; simpl.
  - unfold deref. rewrite Hb. cbn [mbind outcome_bind]. rewrite Hs, Z.mul_1_r in Hr.
    apply (rd_range_part _ _ _ _ _ _ Hr); lia.
  - injection Hr as <-. change (zlen (@nil Z)) with 0 in *. assert (n = 0) as -> by lia.
    by rewrite drop_nil.
Qed.

Lemma buffer_bounds b x :
  buffer_ok b x → zlen x ≤ LOG_BUFFER_SIZE LOG_BUFFER_LOG2 ≤ 2 ^ 30 ∧
    cap (queue b) = LOG_BUFFER_SIZE LOG_BUFFER_LOG2.
Proof.
  intros (H & Hi & Hs & Hc & <- & _). rewrite (content_length _ _ Hi Hs).
  pose proof (cap_pos _ _ Hi). pose proof (inv_tail _ _ Hi).
  assert (cap (queue b) = LOG_BUFFER_SIZE LOG_BUFFER_LOG2) as <- by (unfold cap, LOG_BUFFER_SIZE; congruence).
  split_and!; lia.
Qed.

(** Taking everything out of the queue, and giving the room back. *)
Lemma drain_ok s p b x pick :
  heap s !! p = Some b → buffer_ok b x → x ≠ [] →
  ∃ b', next b' = next b ∧ buffer_ok b' [] ∧
    run (on_buffer p (on_queue (spsc_queue_multi_pop false (zlen x)));;
         on_buffer p (on_sem (semaphore_signal (zlen x) pick))) s = Ret (set_buffer p b' s, tt).
Proof.
  intros Hb Hok Hx. pose proof (buffer_bounds _ _ Hok) as [Hle Hcap].
  destruct Hok as (H & Hi & Hs & Hc & Hcont & Hm & Hcnt).
  pose proof (content_length _ _ Hi Hs) as Hl. rewrite Hcont in Hl.
  assert (0 < zlen x) as Hpos by (destruct x; [done|rewrite zlen_cons; pose proof (zlen_nonneg x); lia]).
  pose proof (pop_alone _ _ (MultiPop false (zlen x)) Hi) as Hpop.
  destruct (wp_inv _ _ (Hpop ltac:(unfold pop_valid, INT_MAX; simpl; lia))) as ([q' r] & Hrun & [Hc' Hs'] & Hi' & Hr).
  rewrite decide_True in Hr by (simpl; lia). destruct Hr as [Hh _]. cbn [do_pop] in Hrun. cbn [pop_count] in Hh.
  rewrite run_bind, (run_on_queue _ _ _ b) by done. rewrite Hrun. cbn [mbind outcome_bind].
  destruct (signal_alone (zlen x) pick (sem b)) as [c Hsig]; [done|done|unfold INT_MIN, INT_MAX; lia|].
  rewrite (run_on_sem _ _ _ (mkBuffer (next b) (sem b) q')) by apply lookup_insert_eq.
  simpl sem. rewrite Hsig. cbn [mbind outcome_bind].
  exists (mkBuffer (next b) (mkSem (count (sem b) + zlen x) false c) q'). split; [done|]. split.
  - exists H. simpl. split_and!; [done|congruence|congruence| |done|].
    + pose proof (inv_hist _ _ Hi). rewrite drop_ge; [done|]. unfold zlen in *. lia.
    + change (zlen (@nil Z)) with 0. lia.
  - do 2 f_equal. unfold set_buffer, with_heap. simpl. by rewrite insert_insert_eq.
Qed.

Lemma append_nil file s : is_Some (files s !! file) → append file [] s = s.
Proof.
  intros [f Hf]. unfold append, with_files. rewrite Hf. simpl. rewrite app_nil_r, insert_id by done. by destruct s.
Qed.

Lemma flush_buffer_ok file p v s b x :
  heap s !! p = Some b → buffer_ok b x → is_Some (files s !! file) →
  enough (answers1 v) (zlen x) → enough (answers2 v) (zlen x) →
  ∃ b', next b' = next b ∧ buffer_ok b' [] ∧
    run (flush_buffer file p v) s = Ret (set_buffer p b' (append file x s), tt).
Proof.
  intros Hb Hok Hf Ha1 Ha2. pose proof (buffer_bounds _ _ Hok) as [Hle _].
  pose proof Hok as (H & Hi & Hs & _ & Hx & _).
  destruct (peeks_cover _ H Hi) as (r0 & r1 & x0 & x1 & Hr0 & Hr1 & Hsum & Hx0 & Hx1 & Hcat & Hl0 & Hl1).
  rewrite Hx in Hcat. rewrite Hs, Z.mul_1_r in Hl0, Hl1. clear Hx. subst x.
  unfold flush_buffer. rewrite run_bind, (run_on_queue _ _ _ b), Hr0 by done. cbn [mbind outcome_bind].
  assert (set_buffer p (mkBuffer (next b) (sem b) (queue b)) s = s) as ->.
  { apply set_buffer_same. by destruct b. }
  destruct r0 as [ptr1 num1], r1 as [ptr2 num2]. rewrite run_bind, (run_on_queue _ _ _ b), Hr1 by done.
  cbn [mbind outcome_bind].
  assert (set_buffer p (mkBuffer (next b) (sem b) (queue b)) s = s) as ->.
  { apply set_buffer_same. by destruct b. }
  cbn [fst snd] in *. rewrite zlen_app in *. pose proof (zlen_nonneg x0). pose proof (zlen_nonneg x1).
  rewrite run_pure_bind, int_ok by (unfold INT_MIN, INT_MAX; lia). cbn [mbind outcome_bind].
  destruct (Z.ltb_spec 0 (num1 + num2)).
  - replace (num1 + num2) with (zlen (x0 ++ x1)) by (rewrite zlen_app; lia). rewrite <- Hl0, <- Hl1.
    rewrite run_bind, (os_write_from _ _ x0).
    2:{ intros. by apply (read_region s p b (ptr1, num1)). }
    2:{ lia. }
    2:{ eapply enough_le; [|exact Ha1]. lia. }
    cbn [mbind outcome_bind]. rewrite run_pure_bind, Z.eqb_refl. cbn [mbind outcome_bind].
    rewrite run_bind, (os_write_from _ _ x1).
    2:{ intros. by apply (read_region (append _ _ s) p b (ptr2, num2)). }
    2:{ lia. }
    2:{ eapply enough_le; [|exact Ha2]. lia. }
    cbn [mbind outcome_bind]. rewrite run_pure_bind, Z.eqb_refl. cbn [mbind outcome_bind].
    rewrite append_append. change (drop (Z.to_nat 0) x0) with x0. change (drop (Z.to_nat 0) x1) with x1.
    destruct (drain_ok (append file (x0 ++ x1) s) p b (x0 ++ x1) (picked v)) as (b' & ? & ? & Hrun); [done|done| |].
    { intros [-> ->]%app_eq_nil. change (zlen (@nil Z)) with 0 in *. lia. }
    exists b'. split_and!; done.
  - assert (x0 = [] ∧ x1 = []) as [-> ->] by (split; apply zlen_0_inv; lia).
    exists b. split_and!; [done|done|]. rewrite append_nil, set_buffer_same by done. done.
Qed.

Definition enough_for (e : nat * list Z) (v : visit) : Prop :=
  enough (answers1 v) (zlen e.2) ∧ enough (answers2 v) (zlen e.2).
Definition emptied (l : list (nat * list Z)) : list (nat * list Z) := (λ e, (e.1, [])) <$> l.

Lemma flush_buffers_ok file l o visits s :
  chain (heap s) o l → NoDup l.*1 → is_Some (files s !! file) → Forall2 enough_for l visits →
  ∃ h, run (flush_buffers file o visits) s = Ret (append file (concat l.*2) (with_heap s h), tt) ∧
    chain h o (emptied l) ∧ ∀ p, p ∉ l.*1 → h !! p = heap s !! p.
Proof.
  intros Hch Hnd Hf Hv. revert o s Hch Hnd Hf.
  induction Hv as [|[p x] v l visits [Ha1 Ha2] Hv IH]; intros o s Hch Hnd Hf.
  - simpl in Hch. subst o. exists (heap s). split_and!; [|done|done].
    cbn [flush_buffers fmap list_fmap concat]. rewrite append_nil by done. by destruct s.
  - destruct Hch as (-> & b & Hb & Hok & Hch). rewrite fmap_cons in Hnd.
    apply NoDup_cons in Hnd as [Hp Hnd]. cbn [fst snd] in *.
    destruct (flush_buffer_ok file p v s b x) as (b' & Hnext & Hok' & Hrun); [done..|].
    set (s1 := set_buffer p b' (append file x s)) in *.
    assert (∀ p', p' ≠ p → heap s1 !! p' = heap s !! p') as Hother.
    { intros p' ?. unfold s1. simpl. by rewrite lookup_insert_ne. }
    destruct (IH (next b) s1) as (h & Hrest & Hch' & Hout).
    + eapply chain_frame; [|exact Hch]. intros p' Hp'. apply Hother. by intros ->.
    + done.
    + unfold s1. simpl. rewrite lookup_insert_eq. by eexists.
    + exists h. assert (h !! p = Some b') as Hhp.
      { rewrite Hout by done. unfold s1. simpl. by rewrite lookup_insert_eq. }
      split_and!.
      * cbn [flush_buffers]. rewrite run_bind, Hrun. cbn [mbind outcome_bind]. rewrite run_access_bind.
        assert (deref s1 p = Ret b') as Hd by (unfold deref, s1; simpl; by rewrite lookup_insert_eq).
        rewrite Hd. cbn [mbind outcome_bind]. rewrite Hnext, Hrest.
        change (with_heap s1 h) with (append file x (with_heap s h)). by rewrite append_append.
      * split; [done|]. exists b'. rewrite Hnext. by split_and!.
      * intros p' Hp'. rewrite fmap_cons, not_elem_of_cons in Hp'. destruct Hp' as [? ?].
        rewrite Hout by done. by apply Hother.
Qed.

(** An item of one byte for each byte of the array. *)
Lemma offered_bytes q a n xs :
  item_size q = 1 → 0 ≤ n ≤ zlen a → offered q (Some a) n xs → concat xs = take (Z.to_nat n) a.
Proof.
  intros Hs Hn [Hl Hxs]. rewrite Hs in Hxs.
  assert (xs = (λ z, [z]) <$> take (Z.to_nat n) a) as ->.
  { apply list_eq. intros i. rewrite list_lookup_fmap. unfold zlen in *.
    destruct (decide (i < length xs)%nat) as [Hi|Hi].
    - destruct (lookup_lt_is_Some_2 xs i Hi) as [x Hx]. rewrite Hx.
      rewrite <- (Nat2Z.id i) in Hx. pose proof (Hxs (Z.of_nat i) x ltac:(lia) Hx) as Hr.
      rewrite Z.mul_1_r in Hr. rewrite rd_range_ok in Hr by (unfold zlen; lia).
      destruct (lookup_lt_is_Some_2 a i) as [z Hz]; [lia|].
      rewrite lookup_take_lt, Hz by lia. rewrite Nat2Z.id, (drop_S _ z) in Hr by done. by injection Hr as <-.
    - rewrite lookup_ge_None_2 by lia. rewrite lookup_ge_None_2; [done|]. rewrite length_take. lia. }
  generalize (take (Z.to_nat n) a) as ys. induction ys as [|y ys IH]; [done|].
  rewrite fmap_cons. simpl. by f_equal.
Qed.

Lemma run_queue_free b x s p :
  heap s !! p = Some b → buffer_ok b x →
  run (on_buffer p (on_queue spsc_queue_capacity)) s = Ret (s, LOG_BUFFER_SIZE LOG_BUFFER_LOG2) ∧
  run (on_buffer p (on_queue spsc_queue_size)) s = Ret (s, zlen x).
Proof.
  intros Hb Hok. pose proof (buffer_bounds _ _ Hok) as [Hle Hcap].
  destruct Hok as (H & Hi & Hs & Hc & Hcont & _). pose proof (content_length _ _ Hi Hs) as Hl. rewrite Hcont in Hl.
  pose proof (cap_pos _ _ Hi). pose proof (zlen_nonneg x).
  assert (set_buffer p (mkBuffer (next b) (sem b) (queue b)) s = s) as Hsame.
  { apply set_buffer_same. by destruct b. }
  rewrite !(run_on_queue _ _ _ b) by done. unfold spsc_queue_capacity, spsc_queue_size.
  rewrite (run_get_cap _ H) by done. rewrite !run_load_bind. cbn [run mret prog_ret mbind outcome_bind].
  rewrite <- Hl, u64_small, !s32_small by lia. by rewrite Hsame, Hcap.
Qed.

(** The write into a buffer with room. *)
Definition write_into (p : nat) (data : list Z) (size : Z) (w : write_luck) : prog logger unit :=
  on_buffer p (on_sem (semaphore_wait (s32 size) (-1) (started w) (sleeps w)));;
  on_buffer p (on_queue (spsc_queue_multi_push (Some data) (s32 size)));;
  mret tt.

Lemma write_into_ok s p b x data size w :
  heap s !! p = Some b → buffer_ok b x → 0 < size ≤ zlen data →
  zlen x + size ≤ LOG_BUFFER_SIZE LOG_BUFFER_LOG2 → tail (queue b) + size < UINT64_MAX → plausible (started w) →
  ∃ b', next b' = next b ∧ buffer_ok b' (x ++ take (Z.to_nat size) data) ∧
    run (write_into p data size w) s = Ret (set_buffer p b' s, tt).
Proof.
  intros Hb Hok Hsize Hroom H64 Hp. pose proof (buffer_bounds _ _ Hok) as [Hle Hcap].
  destruct Hok as (H & Hi & Hs & Hc & Hcont & Hm & Hcnt). pose proof (zlen_nonneg x).
  pose proof (content_length _ _ Hi Hs) as Hl. rewrite Hcont in Hl. pose proof (inv_head _ _ Hi).
  unfold write_into. rewrite s32_small by lia.
  rewrite run_bind, (run_on_sem _ _ _ b), wait_alone by (done || lia || (unfold INT_MAX; lia)).
  cbn [mbind outcome_bind].
  destruct (wp_inv _ _ (push_alone _ _ (MultiPush (Some data) size) Hi
    ltac:(unfold push_valid, INT_MAX; rewrite Hs; simpl; lia) H64))
    as ([q' r] & Hrun & [Hc' Hs'] & Hh & -> & xs & Hi' & Hxs).
  cbn [do_push push_count push_source] in *. rewrite bool_decide_eq_true_2 in Hrun, Hxs by lia.
  rewrite run_bind, (run_on_queue _ _ _ (mkBuffer (next b) (mkSem (count (sem b) - size) false (cond (sem b))) (queue b)))
    by apply lookup_insert_eq.
  simpl queue. rewrite Hrun. cbn [mbind outcome_bind run mret prog_ret].
  exists (mkBuffer (next b) (mkSem (count (sem b) - size) false (cond (sem b))) q'). split; [done|]. split.
  - exists (H ++ xs). simpl. split_and!; [done|congruence|congruence| |done|].
    + pose proof (inv_hist _ _ Hi). unfold zlen in *. rewrite Hh, drop_app_le by lia.
      rewrite concat_app, Hcont. f_equal. apply (offered_bytes (queue b)); [done|unfold zlen; lia|done].
    + rewrite zlen_app, zlen_take by lia. lia.
  - do 2 f_equal. unfold set_buffer, with_heap. simpl. by rewrite insert_insert_eq.
Qed.

Lemma log_publish_ok p spurious s b :
  heap s !! p = Some b → false ∈ spurious →
  run (publish_buffer p spurious) s =
    Ret (with_list (set_buffer p (mkBuffer (global_thread_local_buffer_list s) (sem b) (queue b)) s) (Some p), tt).
Proof.
  revert s b. induction spurious as [|sp spurious IH]; intros s b Hb Hin; [by apply elem_of_nil in Hin|].
  cbn [publish_buffer]. rewrite run_load_bind, run_bind, (run_on_buffer _ _ _ b), run_store by done.
  cbn [mbind outcome_bind]. rewrite run_bind. unfold exchange_list at 1. cbn [run].
  set (s1 := set_buffer p (mkBuffer _ (sem b) (queue b)) s).
  change (global_thread_local_buffer_list s1) with (global_thread_local_buffer_list s).
  destruct sp; cbn [negb andb mbind outcome_bind].
  - apply elem_of_cons in Hin as [|Hin]; [done|].
    rewrite (IH s1 (mkBuffer (global_thread_local_buffer_list s) (sem b) (queue b)));
      [|unfold s1; simpl; by rewrite lookup_insert_eq|done].
    do 2 f_equal. unfold s1, set_buffer, with_heap, with_list. simpl. by rewrite insert_insert_eq.
  - rewrite bool_decide_eq_true_2 by done. done.
Qed.

Lemma fresh_buffer mem :
  0 ≤ LOG_BUFFER_LOG2 ≤ 30 → zlen mem = LOG_BUFFER_SIZE LOG_BUFFER_LOG2 →
  ∀ o, buffer_ok (mkBuffer o (semaphore_create (s32 (LOG_BUFFER_SIZE LOG_BUFFER_LOG2)))
    (spsc_queue_init mem LOG_BUFFER_LOG2 1)) [].
Proof.
  unfold LOG_BUFFER_SIZE. intros Hl Hmem o. assert (1 ≤ 2 ^ LOG_BUFFER_LOG2 ≤ 2 ^ 30).
  { split; [pose proof (Z.pow_pos_nonneg 2 LOG_BUFFER_LOG2); lia|apply Z.pow_le_mono_r; lia]. }
  destruct (init_inv mem LOG_BUFFER_LOG2 1) as [Hi Hs]; [split_and!; lia|].
  exists []. split_and!; [exact Hi|exact Hs| |done|done|].
  - simpl. apply u32_small. lia.
  - cbn [sem semaphore_create count]. unfold LOG_BUFFER_SIZE. rewrite s32_small by lia. change (zlen (@nil Z)) with 0. lia.
Qed.

(** A write of [size] bytes is served at once: there is room in the thread's
    buffer, or memory for a new one. *)
Definition served (s : logger) (l : list (nat * list Z)) (me : nat) (size : Z) (w : write_luck) : Prop :=
  plausible (started w) ∧
  match thread_local_buffer s !! me with
  | Some p => ∀ b x, heap s !! p = Some b → (p, x) ∈ l →
      zlen x + size ≤ LOG_BUFFER_SIZE LOG_BUFFER_LOG2 ∧ tail (queue b) + size < UINT64_MAX
  | None => false ∈ failing w ∧ size ≤ LOG_BUFFER_SIZE LOG_BUFFER_LOG2 ∧
      ∃ mem, malloced w = Some mem ∧ zlen mem = LOG_BUFFER_SIZE LOG_BUFFER_LOG2
  end.

Lemma get_buffer_ok s l me size w :
  0 ≤ LOG_BUFFER_LOG2 ≤ 30 → log_ok s l → served s l me size w →
  ∃ s' p l', run (get_buffer LOG_BUFFER_LOG2 me w) s = Ret (s', p) ∧ log_ok s' l' ∧ files s' = files s ∧
    thread_local_buffer s' !! me = Some p ∧ served s' l' me size w ∧
    l' = match thread_local_buffer s !! me with Some _ => l | None => (p, []) :: l end.
Proof.
  intros Hlog Hok [Hp Hs]. unfold get_buffer. rewrite run_load_bind.
  destruct (thread_local_buffer s !! me) as [p|] eqn:Hme.
  { exists s, p, l. split_and!; try done. split; [done|]. by rewrite Hme. }
  destruct Hs as (Hsp & Hsize & mem & Hmem & Hlen). unfold new_buffer. rewrite Hmem, run_act_bind.
  set (p := next_pointer s). set (b := mkBuffer None _ _). cbn [mbind outcome_bind].
  rewrite run_bind, (log_publish_ok _ _ _ b) by (done || apply lookup_insert_eq).
  cbn [mbind outcome_bind]. rewrite run_store_bind. cbn [run mret prog_ret].
  eexists _, p, ((p, []) :: l). split; [reflexivity|].
  assert (p ∉ l.*1) as Hnew by (intros Hin; pose proof (ok_fresh _ _ Hok p Hin); unfold p in *; lia).
  unfold set_buffer, with_heap, with_list, with_local.
  split_and!; [split| | | |]; cbn [heap next_pointer global_thread_local_buffer_list thread_local_buffer files].
  - split; [done|]. eexists. rewrite lookup_insert_eq. split; [done|]. split; [by apply fresh_buffer|].
    simpl. eapply chain_frame; [|apply Hok]. intros p' Hp'. rewrite !lookup_insert_ne by (by intros <-). done.
  - rewrite fmap_cons. apply NoDup_cons. split; [done|apply Hok].
  - intros me' p'. rewrite fmap_cons, elem_of_cons. destruct (decide (me' = me)) as [->|Hne].
    + rewrite lookup_insert_eq. intros [= <-]. by left.
    + rewrite lookup_insert_ne by done. intros ?%(ok_local _ _ Hok). by right.
  - intros p'. rewrite fmap_cons, elem_of_cons. cbn [fst]. intros [->|Hp']; [unfold p; lia|].
    pose proof (ok_fresh _ _ Hok _ Hp'). lia.
  - done.
  - apply lookup_insert_eq.
  - split; [done|]. cbn [thread_local_buffer heap]. rewrite lookup_insert_eq. intros b' x. rewrite lookup_insert_eq.
    intros [= <-]. rewrite elem_of_cons. intros [[= ->]|Hx].
    + split; [done|]. simpl. unfold LOG_BUFFER_SIZE in Hsize.
      assert (2 ^ LOG_BUFFER_LOG2 ≤ 2 ^ 30) by (apply Z.pow_le_mono_r; lia). unfold UINT64_MAX. lia.
    + destruct Hnew. apply (list_elem_of_fmap_2 fst) in Hx. done.
  - done.
Qed.

(** What the bytes [bs], written to [p], make of the contents. *)
Definition add_bytes (p : nat) (bs : list Z) (l : list (nat * list Z)) : list (nat * list Z) :=
  (λ e, if decide (e.1 = p) then (p, e.2 ++ bs) else e) <$> l.

Lemma add_bytes_keys p bs l : (add_bytes p bs l).*1 = l.*1.
Proof.
  unfold add_bytes. rewrite <- list_fmap_compose. apply list_fmap_ext. intros i [q x] _. simpl. by case_decide.
Qed.

Lemma chain_lookup h o l p :
  chain h o l → p ∈ l.*1 → ∃ b x, h !! p = Some b ∧ (p, x) ∈ l ∧ buffer_ok b x.
Proof.
  revert o. induction l as [|[q x] l IH]; intros o Hch Hp; [by apply elem_of_nil in Hp|].
  destruct Hch as (-> & b & Hb & Hok & Hch). rewrite fmap_cons, elem_of_cons in Hp. destruct Hp as [->|Hp].
  - exists b, x. split_and!; [done|constructor|done].
  - destruct (IH _ Hch Hp) as (b' & x' & ? & ? & ?). exists b', x'. split_and!; [done|by constructor|done].
Qed.

Lemma chain_update h o l p b b' x bs :
  chain h o l → NoDup l.*1 → h !! p = Some b → next b' = next b → (p, x) ∈ l → buffer_ok b' (x ++ bs) →
  chain (<[p := b']> h) o (add_bytes p bs l).
Proof.
  intros Hch Hnd Hb Hnext Hx Hok. revert o Hch. induction l as [|[q y] l IH]; intros o Hch; [done|].
  destruct Hch as (-> & c & Hc & Hcok & Hch). rewrite fmap_cons in Hnd. apply NoDup_cons in Hnd as [Hq Hnd].
  cbn [fst] in Hq. unfold add_bytes. rewrite fmap_cons. fold (add_bytes p bs l). cbn [fst snd].
  apply elem_of_cons in Hx as [[= <- <-]|Hx].
  - rewrite decide_True by done. rewrite Hb in Hc. injection Hc as <-.
    assert (add_bytes p bs l = l) as ->.
    { unfold add_bytes. rewrite <- (list_fmap_id l) at 2. apply list_fmap_ext. intros i e He. apply list_elem_of_lookup_2 in He.
      rewrite decide_False; [done|]. intros <-. apply Hq. by apply (list_elem_of_fmap_2 fst) in He. }
    split; [done|]. exists b'. rewrite lookup_insert_eq, Hnext. split_and!; [done|done|].
    eapply chain_frame; [|exact Hch]. intros p' ?. apply lookup_insert_ne. by intros ->.
  - assert (q ≠ p). { intros ->. apply Hq. by apply (list_elem_of_fmap_2 fst) in Hx. }
    rewrite decide_False by done. split; [done|]. exists c. rewrite lookup_insert_ne by done.
    split_and!; [done|done|]. by apply IH.
Qed.

End writers.

(** ** The theorem at work, and where the log goes wrong

    Buffers of four bytes, thread 7, one file. *)
Definition example_file : list Z := [102; 46; 108; 111; 103].
Definition no_log : logger :=
  mkLogger ∅ 0 None ∅ false os_condvar_create false false (mkConfig false 0 []) false ∅.
Definition example_luck : write_luck := mkLuck (Some [0; 0; 0; 0]) [true; false] 0 (mkTime 0 0) [].
Definition example_visit : visit := mkVisit [Wrote 1; Interrupted; Wrote 9] [Wrote 9] 0.
Definition example_write (data : list Z) : prog logger unit := log_write 2 7 data example_luck.
Definition example_flush : prog logger unit := flush_to example_file true [example_visit].

Lemma no_log_ok : log_ok 2 (with_files no_log {[example_file := [9]]}) [].
Proof. split; [done|constructor|done|]. intros p Hp. by apply elem_of_nil in Hp. Qed.

Lemma example_enough p : enough_for (p, [1; 2; 3]) example_visit.
Proof.
  split; (split; [done|split; [|vm_compute; discriminate]]); simpl;
    repeat (apply not_elem_of_cons; split; [discriminate|]); apply not_elem_of_nil.
Qed.


(** A write of no bytes asks the semaphore for nothing, which it asserts not to
    be asked. *)
Lemma empty_write_asserts :
  run (log_init (Some example_file);; example_write []) no_log = Fail AssertFail.
Proof. vm_compute. reflexivity. Qed.

(** [log_quit] frees the buffers, but the threads keep their pointers: after
    the next [log_init] a write goes to freed memory. *)
Lemma write_after_quit :
  run (log_init (Some example_file);; example_write [1];; store (λ s, with_running s false);; log_quit 0;;
       log_init (Some example_file);; example_write [2]) no_log = Fail OutOfBounds.
Proof. vm_compute. reflexivity. Qed.

(** A write that goes round the end of the buffer between the two peeks of a
    flush: the flush leaves out the fourth byte, and writes the fifth twice. *)
Definition before_race : prog logger unit :=
  log_init (Some example_file);; example_write [1];; example_flush;; example_write [2; 3].

Lemma flush_race :
  wp (run before_race no_log) (λ '(s, _),
    wp (exec (concat [replicate 6 1; replicate 60 0; replicate 60 1]%nat)
      (s, [example_write [4; 5]; example_flush;; example_flush])) (λ '(s', ts),
      files s' !! example_file = Some [1; 2; 3; 5; 5])).
Proof. vm_compute. reflexivity. Qed.
