(* ===== verification/Mpmc.v ===== *)
(** The queue of many producers and many consumers of
    [src/lockfree/mpmc_queue.c], as programs over the shared structure. *)
From S2P Require Import Prelude Conc.
#[global] Open Scope Z_scope.

(** ** The code *)

Record mpmc_queue : Type := mkMpmc {
  head : Z;
  tail : Z;
  temp_head : Z;
  temp_tail : Z;
  size : Z;
  cell : Z;
  base : list Z;
}.

Definition with_head (q : mpmc_queue) (h : Z) : mpmc_queue :=
  mkMpmc h (tail q) (temp_head q) (temp_tail q) (size q) (cell q) (base q).
Definition with_tail (q : mpmc_queue) (t : Z) : mpmc_queue :=
  mkMpmc (head q) t (temp_head q) (temp_tail q) (size q) (cell q) (base q).
Definition with_temp_head (q : mpmc_queue) (h : Z) : mpmc_queue :=
  mkMpmc (head q) (tail q) h (temp_tail q) (size q) (cell q) (base q).
Definition with_temp_tail (q : mpmc_queue) (t : Z) : mpmc_queue :=
  mkMpmc (head q) (tail q) (temp_head q) t (size q) (cell q) (base q).
Definition with_base (q : mpmc_queue) (b : list Z) : mpmc_queue :=
  mkMpmc (head q) (tail q) (temp_head q) (temp_tail q) (size q) (cell q) b.

Definition mpmc_queue_init (arrptr : list Z) (arrlen cell : Z) : outcome mpmc_queue :=
  c_assert (Z.rem arrlen cell =? 0);;
  Ret (mkMpmc 0 0 0 0 (u64 (Z.quot arrlen cell)) (u64 cell) arrptr).

(** The offset of a slot in [base].  The index is passed as an [int], and
    converted back for the remainder. *)
Definition item_addr (q : mpmc_queue) (index : Z) : Z :=
  u64 (cell q * (u64 (s32 index) mod size q)).

(** [atomic_compare_exchange_weak]: it may fail for no reason, [spurious]. *)
Definition compare_exchange (get : mpmc_queue → Z) (set : mpmc_queue → Z → mpmc_queue)
    (old new : Z) (spurious : bool) : prog mpmc_queue bool :=
  act (λ q, if negb spurious && (get q =? old) then Ret (set q new, true) else Ret (q, false)) done.

(** The loops that compare and exchange are given which of their attempts fail
    spuriously; a thread that is out of attempts stops. *)
Fixpoint acquire_push_location (spurious : list bool) : prog mpmc_queue Z :=
  match spurious with
  | [] => stopped
  | sp :: spurious =>
      old_temp_tail ← load temp_tail;
      old_temp_head ← load temp_head;
      sz ← load size;
      if u64 (old_temp_head + sz) =? old_temp_tail then mret UINT64_MAX
      else
        pure (c_assert (old_temp_tail <? u64 (old_temp_head + sz)));;
        let new_temp_tail := u64 (old_temp_tail + 1) in
        ok ← compare_exchange temp_tail with_temp_tail old_temp_tail new_temp_tail sp;
        if ok : bool then mret old_temp_tail else acquire_push_location spurious
  end.

Definition release_push_location (index : Z) : prog mpmc_queue unit :=
  spin (λ q, tail q =? index);;
  store (λ q, with_tail q (u64 (tail q + 1)));;
  mret tt.

(** [memcpy(item_addr(q, index), src, q->cell)] and the way back. *)
Definition write_item (index : Z) (src : list Z) : prog mpmc_queue unit :=
  n ← load cell;
  for_each (seqZ 0 n) (λ j,
    b ← pure (rd src j);
    update (λ q, d ← wr (base q) (item_addr q index + j) b; Ret (with_base q d));;
    mret tt).

Definition read_item (index : Z) : prog mpmc_queue (list Z) :=
  n ← load cell;
  collect (seqZ 0 n) (λ j,
    b ← access (λ q, rd (base q) (item_addr q index + j));
    mret [b]).

Definition mpmc_queue_try_push (spurious : list bool) (src : list Z) : prog mpmc_queue bool :=
  index ← acquire_push_location spurious;
  if index =? UINT64_MAX then mret false
  else
    write_item index src;;
    release_push_location index;;
    mret true.

(** Each attempt of the loop with its own luck. *)
Fixpoint mpmc_queue_push (spurious : list (list bool)) (src : list Z) : prog mpmc_queue unit :=
  match spurious with
  | [] => stopped
  | sp :: spurious =>
      r ← mpmc_queue_try_push sp src;
      if r : bool then mret tt else mpmc_queue_push spurious src
  end.

Fixpoint acquire_pop_location (spurious : list bool) : prog mpmc_queue Z :=
  match spurious with
  | [] => stopped
  | sp :: spurious =>
      old_head ← load head;
      old_tail ← load tail;
      if old_head =? old_tail then mret UINT64_MAX
      else
        pure (c_assert (old_head <? old_tail));;
        let new_head := u64 (old_head + 1) in
        ok ← compare_exchange head with_head old_head new_head sp;
        if ok : bool then mret old_head else acquire_pop_location spurious
  end.

Definition release_pop_location (index : Z) : prog mpmc_queue unit :=
  spin (λ q, temp_head q =? index);;
  store (λ q, with_temp_head q (u64 (temp_head q + 1)));;
  mret tt.

Definition mpmc_queue_try_pop (spurious : list bool) : prog mpmc_queue (option (list Z)) :=
  index ← acquire_pop_location spurious;
  if index =? UINT64_MAX then mret None
  else
    dst ← read_item index;
    release_pop_location index;;
    mret (Some dst).

Fixpoint mpmc_queue_pop (spurious : list (list bool)) : prog mpmc_queue (list Z) :=
  match spurious with
  | [] => stopped
  | sp :: spurious =>
      r ← mpmc_queue_try_pop sp;
      match r with Some dst => mret dst | None => mpmc_queue_pop spurious end
  end.

(** ** The invariant

    The ghost state is the history: for each position that was taken for a
    push the thread and the item, for each that was taken for a pop the
    thread. *)
Record ghost : Type := mkGhost {
  hist : list (nat * list Z);
  pops : list nat;
}.

Definition slot (q : mpmc_queue) (i : Z) : outcome (list Z) :=
  rd_range (base q) (cell q * (i mod size q)) (cell q).

Section queue.
(** The number of threads, and a bound of the steps: the [int] index is right
    up to 2^31 positions, or for as long as counters do not wrap if the size
    divides 2^32. *)
Variables (N : nat) (T : Z).

Record inv (n : nat) (q : mpmc_queue) (g : ghost) : Prop := {
  inv_bound : temp_tail q ≤ Z.of_nat n;
  inv_index : T ≤ 2 ^ 31 ∨ (2 ^ 32 mod size q = 0 ∧ T ≤ 2 ^ 62);
  inv_size : 0 < size q ≤ 2 ^ 31;
  inv_cell : 0 ≤ cell q;
  inv_base : zlen (base q) = cell q * size q;
  inv_room : cell q * size q < 2 ^ 63;
  inv_head : 0 ≤ temp_head q ≤ head q;
  inv_tail : head q ≤ tail q;
  inv_temp_tail : tail q ≤ temp_tail q;
  inv_lap : temp_tail q ≤ temp_head q + size q;
  inv_hist : zlen (hist g) = temp_tail q;
  inv_pops : zlen (pops g) = head q;
  inv_owners : Forall (λ e, (e.1 < N)%nat ∧ zlen e.2 = cell q) (hist g);
  inv_poppers : Forall (λ t, (t < N)%nat) (pops g);
  inv_slots i t x : temp_head q ≤ i < tail q → hist g !! Z.to_nat i = Some (t, x) → slot q i = Ret x;
}.

Definition same_shape (q q' : mpmc_queue) : Prop := size q' = size q ∧ cell q' = cell q.

(** What the others leave to the thread [t]: the counters only grow, the
    positions of [t] in the history are its own, and a position that [t] has
    taken and not released is not passed, nor its slot written. *)
Record rely (t : nat) (q : mpmc_queue) (g : ghost) (q' : mpmc_queue) (g' : ghost) : Prop := {
  rely_shape : same_shape q q';
  rely_head : head q ≤ head q';
  rely_tail : tail q ≤ tail q';
  rely_temp_head : temp_head q ≤ temp_head q';
  rely_temp_tail : temp_tail q ≤ temp_tail q';
  rely_hist : ∃ K, hist g' = hist g ++ K ∧ Forall (λ e, e.1 ≠ t) K;
  rely_pops : ∃ L, pops g' = pops g ++ L ∧ Forall (λ u, u ≠ t) L;
  rely_push i x : tail q ≤ i → hist g !! Z.to_nat i = Some (t, x) → tail q' ≤ i ∧ slot q' i = slot q i;
  rely_pop i : temp_head q ≤ i → pops g !! Z.to_nat i = Some t → temp_head q' ≤ i;
}.

#[export] Instance mpmc_protocol : Protocol inv rely.
Proof.
  split.
  - intros t q g. split; try done; exists []; by rewrite app_nil_r.
  - intros t q g q1 g1 q2 g2 [[? ?] ? ? ? ? (K & HK & ?) (L & HL & ?) Hpush Hpop]
      [[? ?] ? ? ? ? (K' & HK' & ?) (L' & HL' & ?) Hpush' Hpop'].
    split; [split; congruence|lia..| | | |].
    + exists (K ++ K'). rewrite HK', HK, app_assoc. split; [done|]. by apply Forall_app.
    + exists (L ++ L'). rewrite HL', HL, app_assoc. split; [done|]. by apply Forall_app.
    + intros i x Hi Hx. destruct (Hpush i x Hi Hx) as [? <-].
      apply (Hpush' i x); [done|]. rewrite HK. by apply lookup_app_l_Some.
    + intros i Hi Hx. apply Hpop'; [by apply Hpop|]. rewrite HL. by apply lookup_app_l_Some.
  - intros n q g []. split; try done. lia.
Qed.

Lemma counters n q g : inv n q g → Z.of_nat n ≤ T →
  0 ≤ temp_head q ≤ head q ∧ head q ≤ tail q ≤ temp_tail q ∧ temp_tail q ≤ 2 ^ 62 ∧
  temp_tail q ≤ temp_head q + size q ∧ 0 < size q ≤ 2 ^ 31.
Proof. intros [? [?|[? ?]] ? ? ? ? ? ? ? ? ? ? ? ? ?] ?; lia. Qed.

(** The [int] index leads to the slot of the position. *)
Lemma mpmc_item_addr_ok n q g i :
  inv n q g → Z.of_nat n ≤ T → 0 ≤ i < temp_tail q → item_addr q i = cell q * (i mod size q).
Proof.
  intros Hi Hn Hit. pose proof (inv_bound _ _ _ Hi). pose proof (inv_size _ _ _ Hi) as Hsz.
  pose proof (inv_cell _ _ _ Hi). pose proof (inv_room _ _ _ Hi).
  assert (u64 (s32 i) mod size q = i mod size q) as Heq.
  { destruct (inv_index _ _ _ Hi) as [?|[Hdiv ?]].
    - by rewrite s32_small, u64_small by lia.
    - assert (size q | 2 ^ 32) as Hd by (apply Z.mod_divide; [lia|done]).
      assert (size q | 2 ^ 64) as Hd' by (change (2 ^ 64) with (2 ^ 32 * 2 ^ 32); by apply Z.divide_mul_l).
      unfold u64, s32. rewrite Z.mod_mod_divide by done.
      rewrite Zminus_mod, (Z.mod_mod_divide _ (2 ^ 32)) by done. rewrite <- Zminus_mod. f_equal. lia. }
  unfold item_addr. rewrite Heq. pose proof (Z.mod_pos_bound i (size q)). apply u64_small. nia.
Qed.

Definition pushed_by (t : nat) (g : ghost) : list (list Z) :=
  (filter (λ e, e.1 = t) (hist g)).*2.
Definition popped_by (t : nat) (g : ghost) : list (list Z) :=
  (filter (λ e, e.1 = t) (zip (pops g) (hist g).*2)).*2.

Lemma rely_pushed_by t q g q' g' : rely t q g q' g' → pushed_by t g' = pushed_by t g.
Proof.
  intros HR. destruct (rely_hist _ _ _ _ _ HR) as (K & HK & Hne). unfold pushed_by.
  by rewrite HK, filter_app, (filter_others t K), app_nil_r.
Qed.

Lemma zip_app_r {A B} (l : list A) (k k' : list B) :
  (length l ≤ length k)%nat → zip l (k ++ k') = zip l k.
Proof.
  revert k. induction l as [|x l IH]; intros [|y k]; simpl; intros; try lia; [done..|].
  f_equal. apply IH. lia.
Qed.

Lemma rely_popped_by t q g q' g' :
  (length (pops g) ≤ length (hist g))%nat → rely t q g q' g' → popped_by t g' = popped_by t g.
Proof.
  intros Hle HR. destruct (rely_hist _ _ _ _ _ HR) as (K & HK & _).
  destruct (rely_pops _ _ _ _ _ HR) as (L & HL & Hne). unfold popped_by.
  rewrite HK, HL, fmap_app. rewrite <- (zip_app_r (pops g) (hist g).*2 K.*2) by (rewrite length_fmap; lia).
  set (h := (hist g).*2 ++ K.*2). assert (length (pops g) ≤ length h)%nat.
  { unfold h. rewrite length_app, length_fmap. lia. }
  rewrite <- (take_drop (length (pops g)) h) at 1.
  rewrite zip_with_app by (rewrite length_take; lia).
  rewrite filter_app, fmap_app, (filter_others t (zip L _)), app_nil_r.
  - f_equal. f_equal. symmetry. rewrite <- (take_drop (length (pops g)) h) at 1.
    apply zip_app_r. rewrite length_take. lia.
  - clear -Hne. generalize (drop (length (pops g)) h) as ys. induction Hne; intros [|y ys]; simpl; by constructor.
Qed.

(** ** What a thread knows of its own operations

    [owns t c P C i]: the thread pushed the items [P] and popped [C], each of
    [c] bytes, and has released all its positions but, maybe, [i]. *)
Record owns (t : nat) (c : Z) (P C : list (list Z)) (pi ci : option Z) (q : mpmc_queue) (g : ghost)
    : Prop := {
  owns_cell : cell q = c;
  owns_len : (length (pops g) ≤ length (hist g))%nat;
  owns_pushed : pushed_by t g = P;
  owns_popped : popped_by t g = C;
  owns_push i x : 0 ≤ i → hist g !! Z.to_nat i = Some (t, x) → i < tail q ∨ pi = Some i;
  owns_pop i : 0 ≤ i → pops g !! Z.to_nat i = Some t → i < temp_head q ∨ ci = Some i;
}.

Lemma lookup_others {A} (l k : list A) i x (P : A → Prop) :
  (l ++ k) !! i = Some x → Forall (λ y, ¬ P y) k → P x → l !! i = Some x.
Proof.
  intros Hx Hk HP. apply lookup_app_Some in Hx as [?|[_ Hx]]; [done|].
  apply list_elem_of_lookup_2 in Hx. rewrite Forall_forall in Hk. by destruct (Hk x Hx).
Qed.

Lemma owns_stable t c P C pi ci : stable inv rely t (owns t c P C pi ci).
Proof.
  intros n q g q1 g1 [Hc Hl HP HC Hpush Hpop] Hi HR.
  pose proof (rely_pushed_by _ _ _ _ _ HR). pose proof (rely_popped_by _ _ _ _ _ Hl HR).
  pose proof (inv_hist _ _ _ Hi). pose proof (inv_pops _ _ _ Hi). pose proof (inv_tail _ _ _ Hi).
  pose proof (inv_temp_tail _ _ _ Hi). unfold zlen in *.
  destruct HR as [[_ Hc'] ? ? ? ? (K & HK & HKt) (L & HL & HLt) _ _].
  split; [congruence|lia|congruence|congruence| |].
  - intros i x Hi0 Hx. rewrite HK in Hx. apply (lookup_others _ _ _ _ (λ e, e.1 = t)) in Hx; [|done|done].
    destruct (Hpush i x Hi0 Hx); [left; lia|by right].
  - intros i Hi0 Hx. rewrite HL in Hx. apply (lookup_others _ _ _ _ (λ u, u = t)) in Hx; [|done|done].
    destruct (Hpop i Hi0 Hx); [left; lia|by right].
Qed.

(** The position [i], taken for the push of [x], with [k] bytes written. *)
Definition pushing (t : nat) (i : Z) (x : list Z) (k : Z) (q : mpmc_queue) (g : ghost) : Prop :=
  0 ≤ i ∧ tail q ≤ i ∧ hist g !! Z.to_nat i = Some (t, x) ∧ 0 ≤ k ≤ cell q ∧
  rd_range (base q) (cell q * (i mod size q)) k = rd_range x 0 k.

Lemma rd_range_prefix (l l' : list Z) off n k r :
  rd_range l off n = Ret r → rd_range l' off n = Ret r → 0 ≤ k ≤ n →
  rd_range l' off k = rd_range l off k.
Proof.
  intros Hl Hl' Hk. apply rd_range_elements in Hl as (? & ? & ? & Hl).
  apply rd_range_elements in Hl' as (? & ? & ? & Hl').
  destruct (rd_range l off k) as [x|] eqn:E.
  - apply rd_range_elements in E as (? & ? & ? & E). apply rd_range_elements.
    split_and!; [lia..|]. intros i Hi. rewrite Hl', <- Hl by lia. by apply E.
  - rewrite rd_range_ok in E by lia. done.
Qed.

Lemma rd_range_nil (l : list Z) off : 0 ≤ off ≤ zlen l → rd_range l off 0 = Ret [].
Proof. intros. by rewrite rd_range_ok by lia. Qed.

Lemma mpmc_slot_total n q g i : inv n q g → ∃ x, slot q i = Ret x.
Proof.
  intros Hi. pose proof (inv_cell _ _ _ Hi). pose proof (inv_size _ _ _ Hi).
  pose proof (inv_base _ _ _ Hi). pose proof (Z.mod_pos_bound i (size q)). unfold slot.
  rewrite rd_range_ok by nia. by eexists.
Qed.

Lemma pushing_rely t i x k n q g q1 g1 :
  inv n q1 g1 → pushing t i x k q g → rely t q g q1 g1 → pushing t i x k q1 g1.
Proof.
  intros Hi (Hi0 & Ht & Hx & Hk & Hb) HR.
  destruct (rely_push _ _ _ _ _ HR i x Ht Hx) as [Ht' Hslot].
  destruct (rely_hist _ _ _ _ _ HR) as (K & HK & _). destruct (rely_shape _ _ _ _ _ HR) as [Hs Hc].
  split_and!; [done|done|rewrite HK; by apply lookup_app_l_Some|lia|lia|].
  rewrite <- Hb. destruct (mpmc_slot_total _ _ _ i Hi) as [r Hr]. rewrite Hr in Hslot. symmetry in Hslot.
  unfold slot in *. rewrite Hs, Hc in *. by eapply rd_range_prefix.
Qed.

(** The position [i], taken for a pop of [x]. *)
Definition popping (t : nat) (i : Z) (x : list Z) (q : mpmc_queue) (g : ghost) : Prop :=
  0 ≤ i ∧ temp_head q ≤ i ∧ pops g !! Z.to_nat i = Some t ∧ ∃ u, hist g !! Z.to_nat i = Some (u, x).

Lemma popping_rely t i x q g q1 g1 :
  popping t i x q g → rely t q g q1 g1 → popping t i x q1 g1.
Proof.
  intros (Hi0 & Ht & Hp & u & Hx) HR. destruct (rely_hist _ _ _ _ _ HR) as (K & HK & _).
  destruct (rely_pops _ _ _ _ _ HR) as (L & HL & _). split_and!; [done| | |exists u].
  - by apply (rely_pop _ _ _ _ _ HR).
  - rewrite HL. by apply lookup_app_l_Some.
  - rewrite HK. by apply lookup_app_l_Some.
Qed.

Lemma popping_slot n q g t i x : inv n q g → popping t i x q g → slot q i = Ret x.
Proof.
  intros Hi (? & ? & Hp & u & Hx). apply (inv_slots _ _ _ Hi i u x); [|done].
  apply lookup_lt_Some in Hp. pose proof (inv_pops _ _ _ Hi) as Hl. unfold zlen in Hl.
  pose proof (inv_tail _ _ _ Hi). lia.
Qed.

(** ** The atomic steps *)

(** A failed or superfluous access. *)
Lemma step_nothing n q g t : inv n q g → inv (S n) q g ∧ keeps rely t q g q g.
Proof. intros Hi. split; [by apply inv_next|]. intros u _. apply rely_reflexive. Qed.

Lemma step_take_push n q g t x c P C :
  inv n q g → (t < N)%nat → zlen x = cell q → temp_tail q < temp_head q + size q →
  owns t c P C None None q g →
  let q' := with_temp_tail q (temp_tail q + 1) in
  let g' := mkGhost (hist g ++ [(t, x)]) (pops g) in
  inv (S n) q' g' ∧ keeps rely t q g q' g' ∧
  owns t c (P ++ [x]) C (Some (temp_tail q)) None q' g' ∧ pushing t (temp_tail q) x 0 q' g'.
Proof.
  intros Hi HtN Hx Hroom Hown q' g'. pose proof (inv_hist _ _ _ Hi) as Hlen.
  pose proof (inv_pops _ _ _ Hi) as Hplen. destruct Hi as [? ? ? ? ? ? ? ? ? ? _ ? Ho ? Hsl].
  assert (0 ≤ temp_tail q) by lia. unfold zlen in Hlen.
  assert ((hist g ++ [(t, x)]) !! Z.to_nat (temp_tail q) = Some (t, x)) as Hnew.
  { apply list_lookup_middle. lia. }
  split_and!.
  - split; try done; simpl; [lia|lia|lia|rewrite zlen_app; unfold zlen; simpl; lia| |].
    + apply Forall_app. split; [done|]. by repeat constructor.
    + intros i u y Hiy Hy. apply (Hsl i u y); [done|]. rewrite lookup_app_l in Hy by lia. done.
  - intros u Hu. split; simpl; try done; [lia| |].
    + exists [(t, x)]. split; [done|]. repeat constructor. simpl. congruence.
    + exists []. by rewrite app_nil_r.
  - destruct Hown as [? ? HP HC Hpush Hpop]. split; simpl; try done.
    + rewrite length_app. simpl. lia.
    + unfold pushed_by in *. simpl. rewrite filter_app, fmap_app, HP. f_equal.
      by rewrite filter_cons_True.
    + unfold popped_by in *. simpl. rewrite fmap_app, zip_app_r; [done|]. by rewrite length_fmap.
    + intros i y Hi0 Hy. apply lookup_app_Some in Hy as [Hy|[Hge Hy]].
      * destruct (Hpush i y Hi0 Hy); [by left|done].
      * right. f_equal. apply lookup_lt_Some in Hy. simpl in Hy. lia.
  - pose proof (Z.mod_pos_bound (temp_tail q) (size q) ltac:(lia)).
    split_and!; simpl; try done; try lia. rewrite !rd_range_nil; [done|lia|nia].
Qed.

Lemma pushing_bounds n q g t i x k :
  inv n q g → pushing t i x k q g →
  0 ≤ i < temp_tail q ∧ i < temp_head q + size q ∧ zlen x = cell q ∧ 0 ≤ i mod size q < size q ∧
  ∀ j, 0 ≤ j < cell q → 0 ≤ cell q * (i mod size q) + j < zlen (base q).
Proof.
  intros Hi (Hi0 & _ & Hx & _ & _). pose proof (inv_hist _ _ _ Hi) as Hl. unfold zlen in Hl.
  pose proof (inv_size _ _ _ Hi). pose proof (inv_lap _ _ _ Hi). pose proof (inv_base _ _ _ Hi).
  pose proof (Z.mod_pos_bound i (size q) ltac:(lia)).
  pose proof (inv_owners _ _ _ Hi) as Ho. rewrite Forall_lookup in Ho. destruct (Ho _ _ Hx) as [_ ?].
  apply lookup_lt_Some in Hx. split_and!; try lia; try done. intros j Hj. nia.
Qed.

(** A byte of one's own slot does not touch the others'. *)
Lemma other_slot q i j k b :
  0 < size q → 0 ≤ k < cell q → i ≠ j → i < j + size q → j < i + size q →
  slot (with_base q (<[Z.to_nat (cell q * (i mod size q) + k) := b]> (base q))) j = slot q j.
Proof.
  intros Hs Hk Hne Hij Hji. unfold slot. simpl.
  pose proof (Z.mod_pos_bound i (size q) Hs). pose proof (Z.mod_pos_bound j (size q) Hs).
  assert (i mod size q ≠ j mod size q) as Hmod.
  { intros Heq. assert ((i - j) mod size q = 0) as Hz.
    { rewrite Zminus_mod, Heq, Z.sub_diag. by rewrite Zmod_0_l. }
    assert ((j - i) mod size q = 0) as Hz'.
    { rewrite Zminus_mod, <- Heq, Z.sub_diag. by rewrite Zmod_0_l. }
    destruct (decide (i < j)); [rewrite Z.mod_small in Hz' by lia|rewrite Z.mod_small in Hz by lia]; lia. }
  apply rd_range_insert_ne; [nia|]. destruct (decide (i mod size q < j mod size q)); [left|right]; nia.
Qed.

Lemma step_write n q g t i x k b c P C :
  inv n q g → owns t c P C (Some i) None q g → pushing t i x k q g → k < cell q → rd x k = Ret b →
  let q' := with_base q (<[Z.to_nat (cell q * (i mod size q) + k) := b]> (base q)) in
  inv (S n) q' g ∧ keeps rely t q g q' g ∧
  owns t c P C (Some i) None q' g ∧ pushing t i x (k + 1) q' g.
Proof.
  intros Hi Hown Hp Hk Hb q'. destruct (pushing_bounds _ _ _ _ _ _ _ Hi Hp) as (Hi0 & Hlap & Hx & Hm & Ha).
  pose proof Hp as (_ & Ht & Hh & Hk0 & Hpre). pose proof (inv_lap _ _ _ Hi). pose proof (inv_size _ _ _ Hi).
  pose proof (inv_hist _ _ _ Hi) as Hlen. unfold zlen in Hlen.
  pose proof (inv_head _ _ _ Hi). pose proof (inv_tail _ _ _ Hi).
  split_and!.
  - destruct Hi as [? ? ? ? ? ? ? ? ? ? ? ? ? ? Hsl]. split; try done; simpl; [lia|by rewrite zlen_insert|].
    intros j u y Hj Hy. unfold q'. rewrite other_slot by lia. by eapply Hsl.
  - intros u Hu. split; simpl; try done; try lia; [exists []; by rewrite app_nil_r..|].
    intros j y Hj Hy. split; [done|]. apply other_slot; [lia|lia| | |].
    + intros <-. rewrite Hh in Hy. congruence.
    + apply lookup_lt_Some in Hy. lia.
    + apply lookup_lt_Some in Hy. lia.
  - by destruct Hown.
  - split_and!; simpl; try done; try lia. rewrite (rd_range_snoc x 0 k (take (Z.to_nat k) x) b); [| |by rewrite Z.add_0_l].
    + assert (zlen (take (Z.to_nat k) x) = k) as Hkl by (rewrite zlen_take; lia).
      pose proof (rd_range_insert_snoc (base q) (cell q * (i mod size q)) (take (Z.to_nat k) x) b) as Hsn.
      rewrite Hkl in Hsn. apply Hsn; [|apply Ha; lia].
      rewrite Hpre, rd_range_ok by lia. by rewrite drop_0.
    + rewrite rd_range_ok by lia. by rewrite drop_0.
Qed.

Lemma step_release_push n q g t x c P C :
  inv n q g → owns t c P C (Some (tail q)) None q g → pushing t (tail q) x (cell q) q g →
  let q' := with_tail q (tail q + 1) in
  inv (S n) q' g ∧ keeps rely t q g q' g ∧ owns t c P C None None q' g.
Proof.
  intros Hi Hown Hp q'. destruct (pushing_bounds _ _ _ _ _ _ _ Hi Hp) as (Hi0 & Hlap & Hx & Hm & Ha).
  destruct Hp as (_ & _ & Hh & _ & Hpre). pose proof (inv_size _ _ _ Hi).
  assert (slot q (tail q) = Ret x) as Hslot.
  { pose proof (inv_cell _ _ _ Hi). unfold slot. rewrite Hpre, rd_range_ok by lia. rewrite drop_0, take_ge; [done|]. unfold zlen in Hx. lia. }
  split_and!.
  - destruct Hi as [? ? ? ? ? ? ? ? ? ? ? ? ? ? Hsl]. split; try done; simpl; [lia|lia|lia|].
    intros j u y Hj Hy. change (slot q' j) with (slot q j). simpl in Hj. destruct (decide (j = tail q)) as [->|].
    + rewrite Hh in Hy. by injection Hy as _ <-.
    + apply (Hsl j u y); [lia|done].
  - intros u Hu. split; simpl; try done; try lia; [exists []; by rewrite app_nil_r..|].
    intros j y Hj Hy. split; [|done]. destruct (decide (j = tail q)) as [->|]; [|lia].
    rewrite Hh in Hy. congruence.
  - destruct Hown as [? ? ? ? Hpush Hpop]. split; simpl; try done. intros i y Hi1 Hy. left.
    destruct (Hpush i y Hi1 Hy) as [|[= ->]]; lia.
Qed.

Lemma zip_snoc {A B} (l : list A) (k : list B) x y :
  k !! length l = Some y → zip (l ++ [x]) k = zip l k ++ [(x, y)].
Proof.
  revert k. induction l as [|z l IH]; intros [|w k]; simpl; intros H; try done; [by injection H as ->|].
  f_equal. by apply IH.
Qed.

Lemma step_take_pop n q g t c P C :
  inv n q g → (t < N)%nat → head q < tail q → owns t c P C None None q g →
  ∃ x, let q' := with_head q (head q + 1) in
  let g' := mkGhost (hist g) (pops g ++ [t]) in
  inv (S n) q' g' ∧ keeps rely t q g q' g' ∧
  owns t c P (C ++ [x]) None (Some (head q)) q' g' ∧ popping t (head q) x q' g'.
Proof.
  intros Hi HtN Hlt Hown. pose proof (inv_hist _ _ _ Hi) as Hlen. pose proof (inv_pops _ _ _ Hi) as Hplen.
  unfold zlen in Hlen, Hplen. pose proof (inv_temp_tail _ _ _ Hi). pose proof (inv_head _ _ _ Hi).
  destruct (lookup_lt_is_Some_2 (hist g) (Z.to_nat (head q))) as [[u x] Hx]; [lia|].
  exists x. intros q' g'. split_and!.
  - destruct Hi. split; try done; simpl; [lia|lia|lia|rewrite zlen_app; unfold zlen; simpl; lia|].
    apply Forall_app. split; [done|]. by repeat constructor.
  - intros v Hv. split; simpl; try done; [lia| |].
    + exists []. by rewrite app_nil_r.
    + exists [t]. split; [done|]. repeat constructor. congruence.
  - destruct Hown as [? ? HP HC Hpush Hpop]. split; simpl; try done.
    + rewrite length_app. simpl. lia.
    + unfold popped_by in *. simpl. rewrite (zip_snoc _ _ _ x).
      * rewrite filter_app, fmap_app, HC. f_equal. by rewrite filter_cons_True.
      * replace (length (pops g)) with (Z.to_nat (head q)) by lia. by rewrite list_lookup_fmap, Hx.
    + intros i Hi0 Hy. apply lookup_app_Some in Hy as [Hy|[Hge Hy]].
      * destruct (Hpop i Hi0 Hy); [by left|done].
      * right. f_equal. apply lookup_lt_Some in Hy. simpl in Hy. lia.
  - split_and!; simpl; [lia|lia|apply list_lookup_middle; lia|by exists u].
Qed.

Lemma step_release_pop n q g t x c P C :
  inv n q g → owns t c P C None (Some (temp_head q)) q g → popping t (temp_head q) x q g →
  let q' := with_temp_head q (temp_head q + 1) in
  inv (S n) q' g ∧ keeps rely t q g q' g ∧ owns t c P C None None q' g.
Proof.
  intros Hi Hown (Hi0 & _ & Hh & _) q'. pose proof (inv_pops _ _ _ Hi) as Hplen. unfold zlen in Hplen.
  apply lookup_lt_Some in Hh as Hlt. split_and!.
  - destruct Hi as [? ? ? ? ? ? ? ? ? ? ? ? ? ? Hsl]. split; try done; simpl; [lia|lia|lia|].
    intros j u y Hj Hy. apply (Hsl j u y); [simpl in Hj; lia|done].
  - intros u Hu. split; simpl; try done; try lia; [exists []; by rewrite app_nil_r..|].
    intros j Hj Hy. destruct (decide (j = temp_head q)) as [->|]; [|lia]. rewrite Hh in Hy. congruence.
  - destruct Hown as [? ? ? ? Hpush Hpop]. split; simpl; try done. intros i Hi1 Hy. left.
    destruct (Hpop i Hi1 Hy) as [|[= ->]]; lia.
Qed.

(** ** The operations *)

Definition push_taken t c P C x (idx : Z) (q : mpmc_queue) (g : ghost) : Prop :=
  if idx =? UINT64_MAX then owns t c P C None None q g
  else owns t c (P ++ [x]) C (Some idx) None q g ∧ pushing t idx x 0 q g.

Lemma push_taken_stable t c P C x idx : stable inv rely t (push_taken t c P C x idx).
Proof.
  intros n q g q1 g1 H Hi HR. unfold push_taken in *. destruct (idx =? _).
  - by eapply owns_stable.
  - destruct H. split; [by eapply owns_stable|by eapply pushing_rely].
Qed.

Lemma acquire_push_ok sp t c P C x q g :
  (t < N)%nat → zlen x = c → owns t c P C None None q g →
  rg inv rely T t (acquire_push_location sp) (push_taken t c P C x) q g.
Proof.
  intros Ht Hx. revert q g. induction sp as [|b sp IH]; intros q g Hown; [apply rg_stopped|].
  cbn [acquire_push_location].
  rg_load. intros n1 q1 g1 Hn1 Hi1 HR1. pose proof (owns_stable _ _ _ _ _ _ _ _ _ _ _ Hown Hi1 HR1) as Hown1.
  rg_load. intros n2 q2 g2 Hn2 Hi2 HR2. pose proof (owns_stable _ _ _ _ _ _ _ _ _ _ _ Hown1 Hi2 HR2) as Hown2.
  rg_load. intros n3 q3 g3 Hn3 Hi3 HR3. pose proof (owns_stable _ _ _ _ _ _ _ _ _ _ _ Hown2 Hi3 HR3) as Hown3.
  pose proof (counters _ _ _ Hi1 ltac:(lia)) as (?&?&?&?&?).
  pose proof (counters _ _ _ Hi2 ltac:(lia)) as (?&?&?&?&?).
  pose proof (rely_shape _ _ _ _ _ HR2) as [Hs2 _]. pose proof (rely_shape _ _ _ _ _ HR3) as [Hs3 _].
  pose proof (rely_temp_head _ _ _ _ _ HR2). pose proof (rely_temp_head _ _ _ _ _ HR3).
  rewrite u64_small by lia.
  destruct (Z.eqb_spec (temp_head q2 + size q3) (temp_tail q1)) as [Hfull|Hroom].
  { apply rg_ret; [apply push_taken_stable|done]. }
  assert (c_assert (temp_tail q1 <? temp_head q2 + size q3) = Ret tt) as Ha.
  { destruct (Z.ltb_spec (temp_tail q1) (temp_head q2 + size q3)); [done|lia]. }
  rg_pure Ha. rewrite u64_small by lia. apply rg_act_bind. intros n4 q4 g4 Hn4 Hi4 HR4.
  pose proof (owns_stable _ _ _ _ _ _ _ _ _ _ _ Hown3 Hi4 HR4) as Hown4.
  pose proof (rely_shape _ _ _ _ _ HR4) as [Hs4 _]. pose proof (rely_temp_head _ _ _ _ _ HR4).
  destruct (negb b && (temp_tail q4 =? temp_tail q1)) eqn:Hcas.
  - apply andb_prop in Hcas as [_ Heq%Z.eqb_eq]. rewrite <- Heq.
    destruct (step_take_push n4 q4 g4 t x c P C) as (Hi5 & Hk & Hown5 & Hp);
      [done|done|rewrite (owns_cell _ _ _ _ _ _ _ _ Hown4); done|lia|done|].
    eexists _, _, _. split; [done|]. split; [exact Hi5|]. split; [exact Hk|].
    apply rg_ret; [apply push_taken_stable|]. unfold push_taken, UINT64_MAX.
    destruct (Z.eqb_spec (temp_tail q4) (2 ^ 64 - 1)); [lia|done].
  - eexists _, _, g4. split; [done|]. destruct (step_nothing n4 q4 g4 t Hi4) as [? ?].
    split; [done|]. split; [done|]. by apply IH.
Qed.

Lemma write_item_ok t c P C i x src q g :
  x = take (Z.to_nat c) src → c ≤ zlen src →
  owns t c P C (Some i) None q g → pushing t i x 0 q g →
  rg inv rely T t (write_item i src)
    (λ _ q g, owns t c P C (Some i) None q g ∧ pushing t i x c q g) q g.
Proof.
  intros Hx Hsrc Hown Hp. unfold write_item.
  rg_load. intros n1 q1 g1 Hn1 Hi1 HR1.
  pose proof (owns_stable _ _ _ _ _ _ _ _ _ _ _ Hown Hi1 HR1) as Hown1.
  rewrite (owns_cell _ _ _ _ _ _ _ _ Hown1). pose proof (inv_cell _ _ _ Hi1) as Hc0.
  rewrite (owns_cell _ _ _ _ _ _ _ _ Hown1) in Hc0.
  assert (∀ k, stable inv rely t (λ q g, owns t c P C (Some i) None q g ∧ pushing t i x k q g)) as Hst.
  { intros k n q2 g2 q3 g3 [??] ??. split; [by eapply owns_stable|by eapply pushing_rely]. }
  apply rg_for_each with (P := λ k q g, owns t c P C (Some i) None q g ∧ pushing t i x k q g);
    [apply _|exact Hst|done|done| |].
  { split; [done|by eapply pushing_rely]. }
  intros k q2 g2 Hk HP. destruct (rd_ok src k) as (b & Hb & _); [lia|]. rg_pure Hb.
  rg_update. intros n4 q4 g4 Hn4 Hi4 HR4. destruct (Hst k _ _ _ _ _ HP Hi4 HR4) as [Hown4 Hp4].
  pose proof (owns_cell _ _ _ _ _ _ _ _ Hown4) as Hc4.
  destruct (pushing_bounds _ _ _ _ _ _ _ Hi4 Hp4) as (Hi0 & _ & Hxl & _ & Ha).
  destruct (step_write n4 q4 g4 t i x k b c P C) as (Hi5 & Hkeep & Hown5 & Hp5); [done|done|done|lia| |].
  { rewrite Hx. rewrite <- Hb. rewrite <- (take_drop (Z.to_nat c) src) at 2. symmetry. apply rd_app_l.
    rewrite zlen_take; lia. }
  eexists _, g4. rewrite (mpmc_item_addr_ok n4 q4 g4) by (done || lia).
  rewrite wr_ok by (apply Ha; lia). split; [done|]. split; [exact Hi5|]. split; [exact Hkeep|].
  apply rg_ret; [apply Hst|done].
Qed.

Lemma try_push_ok sp src t c P C q g :
  (t < N)%nat → 0 ≤ c ≤ zlen src → owns t c P C None None q g →
  rg inv rely T t (mpmc_queue_try_push sp src)
    (λ b : bool, owns t c (if b then P ++ [take (Z.to_nat c) src] else P) C None None) q g.
Proof.
  intros Ht Hsrc Hown. unfold mpmc_queue_try_push.
  rg_bind acquire_push_ok; [done|by apply zlen_take|done|].
  intros n1 idx q1 g1 Hi1 Htaken. cbn beta. unfold push_taken in Htaken.
  destruct (idx =? UINT64_MAX); [by apply rg_ret; [apply owns_stable|]|].
  destruct Htaken as [Hown1 Hp1].
  rg_bind (write_item_ok t c (P ++ [take (Z.to_nat c) src]) C idx (take (Z.to_nat c) src) src);
    [done|lia|done|done|].
  intros n2 [] q2 g2 Hi2 [Hown2 Hp2]. cbn beta. unfold release_push_location.
  apply rg_bind; [apply _|]. rg_spin. intros n3 q3 g3 Hn3 Hi3 HR3 Heq%Z.eqb_eq.
  pose proof (owns_stable _ _ _ _ _ _ _ _ _ _ _ Hown2 Hi3 HR3) as Hown3.
  pose proof (pushing_rely _ _ _ _ _ _ _ _ _ Hi3 Hp2 HR3) as Hp3.
  apply rg_store_bind. intros n4 q4 g4 Hn4 Hi4 HR4.
  pose proof (owns_stable _ _ _ _ _ _ _ _ _ _ _ Hown3 Hi4 HR4) as Hown4.
  pose proof (pushing_rely _ _ _ _ _ _ _ _ _ Hi4 Hp3 HR4) as Hp4.
  assert (tail q4 = idx) as <-.
  { pose proof (rely_tail _ _ _ _ _ HR4). destruct Hp4 as (_ & ? & _). lia. }
  pose proof (owns_cell _ _ _ _ _ _ _ _ Hown4) as Hc4. subst c.
  destruct (step_release_push _ _ _ _ _ _ _ _ Hi4 Hown4 Hp4) as (Hi5 & Hk & Hown5).
  pose proof (counters _ _ _ Hi4 ltac:(lia)) as (?&?&?&?&?). rewrite u64_small by lia.
  exists g4. split; [done|]. split; [done|].
  intros n5 q5 g5 Hi6 HR5. apply rg_ret; [apply owns_stable|]. by apply (owns_stable _ _ _ _ _ _ _ _ _ _ _ Hown5 Hi6 HR5).
Qed.

Definition pop_taken t c P C (idx : Z) (q : mpmc_queue) (g : ghost) : Prop :=
  if idx =? UINT64_MAX then owns t c P C None None q g
  else ∃ x, owns t c P (C ++ [x]) None (Some idx) q g ∧ popping t idx x q g.

Lemma pop_taken_stable t c P C idx : stable inv rely t (pop_taken t c P C idx).
Proof.
  intros n q g q1 g1 H Hi HR. unfold pop_taken in *. destruct (idx =? _).
  - by eapply owns_stable.
  - destruct H as (x & ? & ?). exists x. split; [by eapply owns_stable|by eapply popping_rely].
Qed.

Lemma acquire_pop_ok sp t c P C q g :
  (t < N)%nat → owns t c P C None None q g →
  rg inv rely T t (acquire_pop_location sp) (pop_taken t c P C) q g.
Proof.
  intros Ht. revert q g. induction sp as [|b sp IH]; intros q g Hown; [apply rg_stopped|].
  cbn [acquire_pop_location].
  rg_load. intros n1 q1 g1 Hn1 Hi1 HR1. pose proof (owns_stable _ _ _ _ _ _ _ _ _ _ _ Hown Hi1 HR1) as Hown1.
  rg_load. intros n2 q2 g2 Hn2 Hi2 HR2. pose proof (owns_stable _ _ _ _ _ _ _ _ _ _ _ Hown1 Hi2 HR2) as Hown2.
  destruct (Z.eqb_spec (head q1) (tail q2)) as [Hempty|Hsome].
  { apply rg_ret; [apply pop_taken_stable|done]. }
  pose proof (counters _ _ _ Hi1 ltac:(lia)) as (?&?&?&?&?).
  pose proof (counters _ _ _ Hi2 ltac:(lia)) as (?&?&?&?&?). pose proof (rely_tail _ _ _ _ _ HR2).
  assert (c_assert (head q1 <? tail q2) = Ret tt) as Ha.
  { destruct (Z.ltb_spec (head q1) (tail q2)); [done|lia]. }
  rg_pure Ha. rewrite u64_small by lia. apply rg_act_bind. intros n4 q4 g4 Hn4 Hi4 HR4.
  pose proof (owns_stable _ _ _ _ _ _ _ _ _ _ _ Hown2 Hi4 HR4) as Hown4.
  pose proof (rely_tail _ _ _ _ _ HR4).
  destruct (negb b && (head q4 =? head q1)) eqn:Hcas.
  - apply andb_prop in Hcas as [_ Heq%Z.eqb_eq]. rewrite <- Heq.
    destruct (step_take_pop n4 q4 g4 t c P C) as (x & Hi5 & Hk & Hown5 & Hp); [done|done|lia|done|].
    eexists _, _, _. split; [done|]. split; [exact Hi5|]. split; [exact Hk|].
    apply rg_ret; [apply pop_taken_stable|]. unfold pop_taken, UINT64_MAX.
    destruct (Z.eqb_spec (head q4) (2 ^ 64 - 1)); [lia|]. by exists x.
  - eexists _, _, g4. split; [done|]. destruct (step_nothing n4 q4 g4 t Hi4) as [? ?].
    split; [done|]. split; [done|]. by apply IH.
Qed.

Lemma mpmc_read_item_ok t c P C i x q g :
  owns t c P C None (Some i) q g → popping t i x q g →
  rg inv rely T t (read_item i)
    (λ r q g, owns t c P C None (Some i) q g ∧ popping t i x q g ∧ r = x) q g.
Proof.
  intros Hown Hp. unfold read_item. rg_load. intros n1 q1 g1 Hn1 Hi1 HR1.
  pose proof (owns_stable _ _ _ _ _ _ _ _ _ _ _ Hown Hi1 HR1) as Hown1.
  pose proof (popping_rely _ _ _ _ _ _ _ Hp HR1) as Hp1. pose proof (inv_cell _ _ _ Hi1) as Hc0.
  rewrite (owns_cell _ _ _ _ _ _ _ _ Hown1) in *.
  assert (zlen x = c) as Hx.
  { pose proof (popping_slot _ _ _ _ _ _ Hi1 Hp1) as Hsl. unfold slot in Hsl.
    apply rd_range_elements in Hsl as (_ & _ & -> & _). apply Hown1. }
  set (P' := λ k r q g, owns t c P C None (Some i) q g ∧ popping t i x q g ∧ rd_range x 0 k = Ret r).
  assert (∀ k r, stable inv rely t (P' k r)) as Hst.
  { intros k r n q2 g2 q3 g3 (? & ? & ?) ??.
    split_and!; [by eapply owns_stable|by eapply popping_rely|done]. }
  eapply rg_mono.
  - apply (rg_collect _ _ _ _ P') with (ys := []); [exact Hst|done|done| |].
    + split_and!; [done|done|]. rewrite rd_range_ok by lia. done.
    + intros k ys q2 g2 Hk HP. rg_access. intros n3 q3 g3 Hn3 Hi3 HR3.
      destruct (Hst _ _ _ _ _ _ _ HP Hi3 HR3) as (Hown3 & Hp3 & Hr).
      pose proof (popping_slot _ _ _ _ _ _ Hi3 Hp3) as Hsl. unfold slot in Hsl.
      pose proof (owns_cell _ _ _ _ _ _ _ _ Hown3) as Hc3.
      pose proof (counters _ _ _ Hi3 ltac:(lia)) as (?&?&?&?&?).
      assert (i < temp_tail q3).
      { destruct Hp3 as (? & _ & _ & u & Hu). apply lookup_lt_Some in Hu.
        pose proof (inv_hist _ _ _ Hi3) as Hl. unfold zlen in Hl. lia. }
      rewrite (mpmc_item_addr_ok n3 q3 g3) by (done || lia || (split; [apply Hp3|done])).
      apply rd_range_elements in Hsl as (_ & _ & _ & Hel). rewrite Hel by lia.
      destruct (rd_ok x k) as (b & Hb & _); [lia|]. exists b. split; [done|].
      apply rg_ret; [apply Hst|]. split_and!; [done|done|by apply rd_range_snoc].
  - intros n r q2 g2 Hi2 (? & ? & Hr). split_and!; [done|done|]. simpl in Hr.
    rewrite rd_range_ok in Hr by lia. injection Hr as <-. rewrite drop_0. apply take_ge.
    unfold zlen. lia.
Qed.

Lemma try_pop_ok sp t c P C q g :
  (t < N)%nat → owns t c P C None None q g →
  rg inv rely T t (mpmc_queue_try_pop sp)
    (λ r, owns t c P (match r with Some x => C ++ [x] | None => C end) None None) q g.
Proof.
  intros Ht Hown. unfold mpmc_queue_try_pop. rg_bind acquire_pop_ok; [done|done|].
  intros n1 idx q1 g1 Hi1 Htaken. cbn beta. unfold pop_taken in Htaken.
  destruct (idx =? UINT64_MAX); [by apply rg_ret; [apply owns_stable|]|].
  destruct Htaken as (x & Hown1 & Hp1). rg_bind mpmc_read_item_ok; [done|done|].
  intros n2 r q2 g2 Hi2 (Hown2 & Hp2 & ->). cbn beta. unfold release_pop_location.
  apply rg_bind; [apply _|]. rg_spin. intros n3 q3 g3 Hn3 Hi3 HR3 Heq%Z.eqb_eq.
  pose proof (owns_stable _ _ _ _ _ _ _ _ _ _ _ Hown2 Hi3 HR3) as Hown3.
  pose proof (popping_rely _ _ _ _ _ _ _ Hp2 HR3) as Hp3.
  apply rg_store_bind. intros n4 q4 g4 Hn4 Hi4 HR4.
  pose proof (owns_stable _ _ _ _ _ _ _ _ _ _ _ Hown3 Hi4 HR4) as Hown4.
  pose proof (popping_rely _ _ _ _ _ _ _ Hp3 HR4) as Hp4.
  assert (temp_head q4 = idx) as <-.
  { pose proof (rely_temp_head _ _ _ _ _ HR4). destruct Hp4 as (_ & ? & _). lia. }
  destruct (step_release_pop _ _ _ _ _ _ _ _ Hi4 Hown4 Hp4) as (Hi5 & Hk & Hown5).
  pose proof (counters _ _ _ Hi4 ltac:(lia)) as (?&?&?&?&?). rewrite u64_small by lia.
  exists g4. split; [done|]. split; [done|].
  intros n5 q5 g5 Hi6 HR5. apply rg_ret; [apply owns_stable|]. by apply (owns_stable _ _ _ _ _ _ _ _ _ _ _ Hown5 Hi6 HR5).
Qed.

Lemma push_loop_ok sps src t c P C q g :
  (t < N)%nat → 0 ≤ c ≤ zlen src → owns t c P C None None q g →
  rg inv rely T t (mpmc_queue_push sps src)
    (λ _, owns t c (P ++ [take (Z.to_nat c) src]) C None None) q g.
Proof.
  intros Ht Hc. revert q g. induction sps as [|sp sps IH]; intros q g Hown; [apply rg_stopped|].
  cbn [mpmc_queue_push]. rg_bind try_push_ok; [done|done|done|].
  intros n1 [] q1 g1 Hi1 Hown1; cbn beta; [|by apply IH]. apply rg_ret; [apply owns_stable|done].
Qed.

Lemma pop_loop_ok sps t c P C q g :
  (t < N)%nat → owns t c P C None None q g →
  rg inv rely T t (mpmc_queue_pop sps) (λ x, owns t c P (C ++ [x]) None None) q g.
Proof.
  intros Ht. revert q g. induction sps as [|sp sps IH]; intros q g Hown; [apply rg_stopped|].
  cbn [mpmc_queue_pop]. rg_bind try_pop_ok; [done|done|].
  intros n1 [x|] q1 g1 Hi1 Hown1; cbn beta; [|by apply IH]. apply rg_ret; [apply owns_stable|done].
Qed.

(** ** An operation that nobody interferes with ends *)

Lemma write_item_alone n t c P C i x src q g :
  x = take (Z.to_nat c) src → c ≤ zlen src → Z.of_nat n + c ≤ T → inv n q g → tail q = i →
  owns t c P C (Some i) None q g → pushing t i x 0 q g →
  wp (run (write_item i src) q) (λ '(q', _), ∃ n', Z.of_nat n' ≤ Z.of_nat n + c ∧ inv n' q' g ∧
    tail q' = i ∧ temp_tail q' = temp_tail q ∧ owns t c P C (Some i) None q' g ∧ pushing t i x c q' g).
Proof.
  intros Hx Hsrc Hn Hi Htl Hown Hp. unfold write_item. rewrite run_load_bind.
  rewrite (owns_cell _ _ _ _ _ _ _ _ Hown). pose proof (inv_cell _ _ _ Hi) as Hc0.
  rewrite (owns_cell _ _ _ _ _ _ _ _ Hown) in Hc0.
  eapply wp_mono.
  - apply (wp_run_for_each (λ k q', ∃ n', Z.of_nat n' ≤ Z.of_nat n + k ∧ inv n' q' g ∧ tail q' = i ∧
      temp_tail q' = temp_tail q ∧ owns t c P C (Some i) None q' g ∧ pushing t i x k q' g)); [done| |].
    + exists n. split_and!; (done || lia).
    + intros k q1 Hk (n1 & Hn1 & Hi1 & Htl1 & Htt1 & Hown1 & Hp1).
      destruct (rd_ok src k) as (b & Hb & _); [lia|].
      rewrite run_pure_bind, Hb. cbn [mbind outcome_bind]. rewrite run_update_bind.
      pose proof (owns_cell _ _ _ _ _ _ _ _ Hown1) as Hc1.
      destruct (pushing_bounds _ _ _ _ _ _ _ Hi1 Hp1) as (Hi0 & _ & Hxl & _ & Ha).
      destruct (step_write n1 q1 g t i x k b c P C) as (Hi5 & _ & Hown5 & Hp5); [done|done|done|lia| |].
      { rewrite Hx. rewrite <- Hb. rewrite <- (take_drop (Z.to_nat c) src) at 2. symmetry. apply rd_app_l.
        rewrite zlen_take; lia. }
      rewrite (mpmc_item_addr_ok n1 q1 g) by (done || lia). rewrite wr_ok by (apply Ha; lia).
      cbn [run mbind outcome_bind mret prog_ret wp]. exists (S n1). split_and!; (done || lia).
  - intros [q' []]. done.
Qed.

(** [settled]: no thread is in the middle of an operation. *)
Definition settled (q : mpmc_queue) : Prop := tail q = temp_tail q ∧ temp_head q = head q.

Lemma try_push_alone n t c P C sp src q g :
  inv n q g → Z.of_nat n + c + 3 ≤ T → (t < N)%nat → 0 ≤ c ≤ zlen src →
  owns t c P C None None q g → tail q = temp_tail q →
  wp (run (mpmc_queue_try_push (false :: sp) src) q) (λ '(q', b),
    b = bool_decide (temp_tail q < temp_head q + size q) ∧ tail q' = temp_tail q' ∧
    ∃ n' g', Z.of_nat n' ≤ Z.of_nat n + c + 3 ∧ inv n' q' g' ∧
      owns t c (if b then P ++ [take (Z.to_nat c) src] else P) C None None q' g').
Proof.
  intros Hi HT Ht Hsrc Hown Hq. pose proof (counters _ _ _ Hi ltac:(lia)) as (?&?&?&?&?).
  unfold mpmc_queue_try_push. apply wp_run_bind. cbn [acquire_push_location].
  rewrite !run_load_bind, u64_small by lia.
  destruct (Z.eqb_spec (temp_head q + size q) (temp_tail q)) as [Hfull|Hroom].
  - simpl. rewrite bool_decide_eq_false_2 by lia. split_and!; [done|done|]. exists n, g.
    split_and!; (done || lia).
  - rewrite bool_decide_eq_true_2 by lia. rewrite run_pure_bind.
    destruct (Z.ltb_spec (temp_tail q) (temp_head q + size q)) as [|]; [|lia].
    cbn [c_assert mbind outcome_bind]. unfold compare_exchange. rewrite run_act_bind, Z.eqb_refl, u64_small by lia.
    cbn [negb andb mbind outcome_bind run wp mret prog_ret].
    unfold UINT64_MAX. destruct (Z.eqb_spec (temp_tail q) (2 ^ 64 - 1)); [lia|].
    destruct (step_take_push n q g t (take (Z.to_nat c) src) c P C) as (Hi1 & _ & Hown1 & Hp1);
      [done|done|rewrite (owns_cell _ _ _ _ _ _ _ _ Hown); apply zlen_take; lia|lia|done|].
    apply wp_run_bind. eapply wp_mono.
    { eapply (write_item_alone (S n) t c _ C (temp_tail q) _ src _ _ eq_refl); [lia|lia|exact Hi1|done|exact Hown1|exact Hp1]. }
    intros [q2 []] (n2 & Hn2 & Hi2 & Htl2 & Htt2 & Hown2 & Hp2). apply wp_run_bind.
    unfold release_push_location. rewrite run_spin_bind, run_store_bind by (by apply Z.eqb_eq).
    pose proof (owns_cell _ _ _ _ _ _ _ _ Hown2) as Hc2. simpl in Htt2.
    rewrite <- Htl2 in Hown2, Hp2. rewrite <- Hc2 in Hp2 at 2.
    destruct (step_release_push _ _ _ _ _ _ _ _ Hi2 Hown2 Hp2) as (Hi5 & _ & Hown5).
    pose proof (counters _ _ _ Hi2 ltac:(lia)) as (?&?&?&?&?).
    cbn [run mret prog_ret wp]. rewrite u64_small by lia.
    split_and!; [done|simpl; lia|]. exists (S n2), (mkGhost (hist g ++ [(t, take (Z.to_nat c) src)]) (pops g)).
    split_and!; [lia|done|done].
Qed.

Lemma read_item_alone n t i x q g :
  inv n q g → Z.of_nat n ≤ T → popping t i x q g → i < temp_tail q →
  run (read_item i) q = Ret (q, x).
Proof.
  intros Hi HT Hp Hlt. unfold read_item. rewrite run_load_bind.
  pose proof (popping_slot _ _ _ _ _ _ Hi Hp) as Hsl. unfold slot in Hsl.
  apply rd_range_elements in Hsl as (_ & _ & Hx & Hel). pose proof (inv_cell _ _ _ Hi).
  apply wp_eq_inv. eapply wp_mono.
  - apply (wp_run_collect (λ k r q', q' = q ∧ rd_range x 0 k = Ret r) _ _ _ []); [lia| |].
    + split; [done|]. rewrite rd_range_ok by lia. done.
    + intros k ys q1 Hk [-> Hr]. rewrite run_access_bind.
      rewrite (mpmc_item_addr_ok n q g) by (done || (split; [apply Hp|done])). rewrite Hel by lia.
      destruct (rd_ok x k) as (b & Hb & _); [lia|]. rewrite Hb.
      cbn [mbind outcome_bind run mret prog_ret wp]. split; [done|]. by apply rd_range_snoc.
  - intros [q' r] [-> Hr]. simpl in Hr. f_equal. rewrite rd_range_ok in Hr by lia. injection Hr as <-.
    rewrite drop_0. apply take_ge. unfold zlen in Hx. lia.
Qed.

Lemma try_pop_alone n t c P C sp q g :
  inv n q g → Z.of_nat n + 2 ≤ T → (t < N)%nat → owns t c P C None None q g → temp_head q = head q →
  wp (run (mpmc_queue_try_pop (false :: sp)) q) (λ '(q', r),
    bool_decide (is_Some r) = bool_decide (head q < tail q) ∧ temp_head q' = head q' ∧
    ∃ n' g', Z.of_nat n' ≤ Z.of_nat n + 2 ∧ inv n' q' g' ∧
      owns t c P (match r with Some x => C ++ [x] | None => C end) None None q' g').
Proof.
  intros Hi HT Ht Hown Hq. pose proof (counters _ _ _ Hi ltac:(lia)) as (?&?&?&?&?).
  unfold mpmc_queue_try_pop. apply wp_run_bind. cbn [acquire_pop_location]. rewrite !run_load_bind.
  destruct (Z.eqb_spec (head q) (tail q)) as [Hempty|Hsome].
  - simpl. rewrite (bool_decide_eq_false_2 (head q < tail q)) by lia. split_and!; [done|done|].
    exists n, g. split_and!; (done || lia).
  - rewrite (bool_decide_eq_true_2 (head q < tail q)) by lia. rewrite run_pure_bind.
    destruct (Z.ltb_spec (head q) (tail q)) as [|]; [|lia].
    cbn [c_assert mbind outcome_bind]. unfold compare_exchange. rewrite run_act_bind, Z.eqb_refl, u64_small by lia.
    cbn [negb andb mbind outcome_bind run wp mret prog_ret].
    unfold UINT64_MAX. destruct (Z.eqb_spec (head q) (2 ^ 64 - 1)); [lia|].
    destruct (step_take_pop n q g t c P C) as (x & Hi1 & _ & Hown1 & Hp1); [done|done|lia|done|].
    assert (head q + 1 ≤ tail q) as Hle by lia. assert (temp_head q + 1 = head q + 1) as Hth1 by lia.
    remember (with_head q (head q + 1)) as q1 eqn:Hq1.
    assert (temp_head q1 = head q ∧ head q1 = head q + 1 ∧ temp_tail q1 = temp_tail q) as (Hth & Hhd & Htt)
      by (subst q1; split_and!; done).
    rewrite run_bind, (read_item_alone _ _ _ x _ _ Hi1) by (done || lia).
    cbn [mbind outcome_bind]. unfold release_pop_location. rewrite run_bind, run_spin_bind by (by apply Z.eqb_eq).
    rewrite run_store_bind. rewrite <- Hth in Hown1, Hp1.
    destruct (step_release_pop _ _ _ _ _ _ _ _ Hi1 Hown1 Hp1) as (Hi5 & _ & Hown5).
    cbn [run mret prog_ret wp mbind outcome_bind]. rewrite u64_small by lia.
    split_and!; [done|simpl; lia|]. eexists _, _. split_and!; [|exact Hi5|exact Hown5]. lia.
Qed.
End queue.

(** ** Clients *)

Inductive queue_op : Type :=
  | TryPush (spurious : list bool) (src : list Z)
  | PushWait (spurious : list (list bool)) (src : list Z)
  | TryPop (spurious : list bool)
  | PopWait (spurious : list (list bool)).

Inductive answer : Type :=
  | Pushed (b : bool)
  | Popped (r : option (list Z)).

Definition do_op (o : queue_op) : prog mpmc_queue answer :=
  match o with
  | TryPush sp src => b ← mpmc_queue_try_push sp src; mret (Pushed b)
  | PushWait sps src => mpmc_queue_push sps src;; mret (Pushed true)
  | TryPop sp => r ← mpmc_queue_try_pop sp; mret (Popped r)
  | PopWait sps => x ← mpmc_queue_pop sps; mret (Popped (Some x))
  end.

(** What an operation put into the queue, and what it took out. *)
Definition gave (c : Z) (e : queue_op * answer) : list (list Z) :=
  match e with
  | (TryPush _ src, Pushed true) | (PushWait _ src, Pushed true) => [take (Z.to_nat c) src]
  | _ => []
  end.
Definition got (e : queue_op * answer) : list (list Z) :=
  match e.2 with Popped (Some x) => [x] | _ => [] end.

Definition op_valid (c : Z) (o : queue_op) : Prop :=
  match o with TryPush _ src | PushWait _ src => c ≤ zlen src | _ => True end.

Section clients.
Variables (N : nat) (T : Z).

Lemma mpmc_do_op_ok o t c P C q g :
  (t < N)%nat → 0 ≤ c → op_valid c o → owns t c P C None None q g →
  rg (inv N T) rely T t (do_op o)
    (λ a, owns t c (P ++ gave c (o, a)) (C ++ got (o, a)) None None) q g.
Proof.
  intros Ht Hc Hv Hown.
  assert (∀ P' C', stable (inv N T) rely t (owns t c P' C' None None)) as Hst by (intros; apply owns_stable).
  destruct o as [sp src|sps src|sp|sps]; cbn [do_op].
  - rg_bind try_push_ok; [done|done|done|]. intros n [] q1 g1 _ H1; apply rg_ret; simpl; rewrite ?app_nil_r; auto.
  - rg_bind push_loop_ok; [done|done|done|]. intros n [] q1 g1 _ H1; apply rg_ret; simpl; rewrite ?app_nil_r; auto.
  - rg_bind try_pop_ok; [done|done|]. intros n [x|] q1 g1 _ H1; apply rg_ret; simpl; rewrite ?app_nil_r; auto.
  - rg_bind pop_loop_ok; [done|done|]. intros n x q1 g1 _ H1; apply rg_ret; simpl; rewrite ?app_nil_r; auto.
Qed.

Definition client_post t c P C os (rs : list (queue_op * answer)) (q : mpmc_queue) (g : ghost) : Prop :=
  rs.*1 = os ∧ owns t c (P ++ (rs ≫= gave c)) (C ++ (rs ≫= got)) None None q g.

Lemma mpmc_client_ok os t c P C q g :
  (t < N)%nat → 0 ≤ c → Forall (op_valid c) os → owns t c P C None None q g →
  rg (inv N T) rely T t (script do_op os) (client_post t c P C os) q g.
Proof.
  intros Ht Hc Hv. revert P C q g. induction Hv as [|o os Ho Hos IH]; intros P C q g Hown.
  - apply rg_ret; [|split; [done|by rewrite !app_nil_r]].
    intros n q1 g1 q2 g2 [? ?] ??. split; [done|]. by eapply owns_stable.
  - cbn [script]. rg_bind mpmc_do_op_ok; [done|done|done|done|]. intros n a q1 g1 Hi1 Hown1. cbn beta.
    rg_bind IH; [exact Hown1|]. intros n2 rs q2 g2 _ [Hrs Hown2]. apply rg_ret.
    + intros n3 q3 g3 q4 g4 [? ?] ??. split; [done|]. by eapply owns_stable.
    + split; [by rewrite fmap_cons, Hrs|]. rewrite !bind_cons, !app_assoc. exact Hown2.
Qed.
End clients.

(** ** Properties *)

Definition start_ok (T : Z) (arr : list Z) (arrlen cell : Z) : Prop :=
  0 < cell ≤ arrlen ∧ arrlen ≤ INT_MAX ∧ zlen arr = arrlen ∧
  (T ≤ 2 ^ 31 ∨ 2 ^ 32 mod (arrlen / cell) = 0 ∧ T ≤ 2 ^ 62).

Lemma mpmc_init_inv N T arr arrlen c q :
  start_ok T arr arrlen c → mpmc_queue_init arr arrlen c = Ret q →
  inv N T 0 q (mkGhost [] []) ∧ cell q = c ∧ ∀ t, owns t c [] [] None None q (mkGhost [] []).
Proof.
  unfold start_ok, INT_MAX. intros (Hc & Hl & Harr & HT). unfold mpmc_queue_init.
  destruct (Z.eqb_spec (Z.rem arrlen c) 0) as [Hrem|]; [|done]. intros [= <-].
  rewrite Z.rem_mod_nonneg in Hrem by lia. rewrite Z.quot_div_nonneg by lia.
  pose proof (Z.div_mod arrlen c ltac:(lia)) as Hdm.
  assert (0 < arrlen / c ≤ arrlen) by (split; [apply Z.div_str_pos; lia|apply Z.div_le_upper_bound; nia]).
  rewrite !u64_small by lia. split_and!; [|done|].
  - split; simpl; try done; lia.
  - intros t. split; simpl; try done; intros; by rewrite lookup_nil in *.
Qed.

(** C29. Let the number of slots divide 2^32, or the run have fewer than 2^31
    steps (in any case fewer than 2^62): otherwise the [int] index of a slot
    jumps, see [index_jumps].  However the steps of any number of threads
    interleave, failing exchanges included, no assertion fails and no access
    leaves the array.
    There is one history of pushes and one of pops: the i-th pop got the i-th
    item that was pushed, whole; each thread's pushes and pops stand in them in
    the thread's order; and when all threads are done no position is left in
    between. *)
Theorem mpmc_fifo T arr arrlen c q0 clients n q ts :
  start_ok T arr arrlen c → mpmc_queue_init arr arrlen c = Ret q0 →
  Forall (Forall (op_valid c)) clients →
  nsteps step n (q0, script do_op <$> clients) (q, ts) → Z.of_nat n < T →
  ¬ faults (q, ts) ∧ ∃ g, inv (length clients) T n q g ∧
    (∀ t rs, finished ts t rs → Some rs.*1 = clients !! t ∧
       pushed_by t g = (rs ≫= gave c) ∧ popped_by t g = (rs ≫= got)) ∧
    ((∀ t, (t < length clients)%nat → ∃ rs, finished ts t rs) → settled q).
Proof.
  intros Hs Hinit Hv Hsteps Hn. pose proof Hs as (Hc & _).
  destruct (mpmc_init_inv (length clients) T _ _ _ _ Hs Hinit) as (Hi & Hcell & Hown).
  pose (Q := λ (t : nat) (rs : list (queue_op * answer)) (q : mpmc_queue) (g : ghost),
    ∃ os, clients !! t = Some os ∧ client_post t c [] [] os rs q g).
  destruct (rg_adequate (inv (length clients) T) rely T n q0 (script do_op <$> clients) q ts Q (mkGhost [] []))
    as (Hok & g & HI & Hdone); [done| |done|done|].
  { intros t p Hp. rewrite list_lookup_fmap in Hp. destruct (clients !! t) as [os|] eqn:Hos; [|done].
    injection Hp as <-. eapply rg_mono; [apply (mpmc_client_ok _ _ os t c [] [])|].
    - by eapply lookup_lt_Some.
    - lia.
    - rewrite Forall_lookup in Hv. by eapply Hv.
    - apply Hown.
    - intros n1 rs q1 g1 _ ?. by exists os. }
  split; [done|]. exists g. split; [done|]. split.
  - intros t rs Hf. destruct (Hdone t rs Hf) as (os & Hos & Hrs & Hcl).
    split; [by rewrite Hos, Hrs|]. by destruct Hcl as [_ _ ? ? _ _].
  - intros Hall. pose proof (inv_hist _ _ _ _ _ HI) as Hl. pose proof (inv_pops _ _ _ _ _ HI) as Hpl.
    unfold zlen in *. pose proof (inv_temp_tail _ _ _ _ _ HI). pose proof (inv_tail _ _ _ _ _ HI).
    pose proof (inv_head _ _ _ _ _ HI). split.
    + destruct (decide (tail q = temp_tail q)); [done|exfalso].
      destruct (lookup_lt_is_Some_2 (hist g) (Z.to_nat (tail q))) as [[t x] Hx]; [lia|].
      pose proof (inv_owners _ _ _ _ _ HI) as Ho. rewrite Forall_lookup in Ho.
      destruct (Hall t) as [rs Hf]; [by apply (Ho _ _ Hx)|].
      destruct (Hdone t rs Hf) as (os & _ & _ & Hcl). destruct (owns_push _ _ _ _ _ _ _ _ Hcl (tail q) x); [lia|done|lia|done].
    + destruct (decide (temp_head q = head q)); [done|exfalso].
      destruct (lookup_lt_is_Some_2 (pops g) (Z.to_nat (temp_head q))) as [t Hx]; [lia|].
      pose proof (inv_poppers _ _ _ _ _ HI) as Ho. rewrite Forall_lookup in Ho.
      destruct (Hall t) as [rs Hf]; [by apply (Ho _ _ Hx)|].
      destruct (Hdone t rs Hf) as (os & _ & _ & Hcl). destruct (owns_pop _ _ _ _ _ _ _ _ Hcl (temp_head q)); [lia|done|lia|done].
Qed.

(** When no other thread is in the middle of an operation, and none
    interferes, an attempt to push or pop ends: the push succeeds exactly if
    the queue is not full, the pop exactly if it is not empty. *)
Theorem mpmc_alone N T n t c P C src q g :
  inv N T n q g → Z.of_nat n + c + 3 ≤ T → (t < N)%nat → 0 ≤ c ≤ zlen src → settled q →
  owns t c P C None None q g →
  wp (run (mpmc_queue_try_push [false] src) q) (λ '(q', b),
    b = bool_decide (tail q < head q + size q) ∧ tail q' = temp_tail q' ∧
    ∃ n' g', inv N T n' q' g' ∧
      owns t c (if b then P ++ [take (Z.to_nat c) src] else P) C None None q' g') ∧
  wp (run (mpmc_queue_try_pop [false]) q) (λ '(q', r),
    bool_decide (is_Some r) = bool_decide (head q < tail q) ∧ temp_head q' = head q' ∧
    ∃ n' g', inv N T n' q' g' ∧
      owns t c P (match r with Some x => C ++ [x] | None => C end) None None q' g').
Proof.
  intros Hi HT Ht Hsrc [Htl Hhd] Hown. split.
  - eapply wp_mono; [by apply (try_push_alone N T n t c P C [] src q g)|].
    intros [q' b] (-> & ? & n' & g' & _ & ? & ?). rewrite Htl, <- Hhd. eauto 10.
  - eapply wp_mono; [apply (try_pop_alone N T n t c P C [] q g); try done; lia|].
    intros [q' r] (? & ? & n' & g' & _ & ? & ?). eauto 10.
Qed.

(** For a size that does not divide 2^32 the [int] index jumps at 2^31: the
    next position is not in the next slot, but in one that can still be full. *)
Lemma index_jumps :
  let q := mkMpmc 2147483645 2147483648 2147483645 2147483648 7 1 [1; 2; 3; 4; 5; 6; 7] in
  item_addr q 2147483647 = 1 ∧ item_addr q 2147483648 = 0 ∧ item_addr q 2147483646 = 0.
Proof. vm_compute. done. Qed.

(** ** The theorems at work *)

Definition example_clients : list (list queue_op) :=
  [[TryPush [false; false] [1; 2]; TryPop [false]];
   [TryPush [true; false; false] [3; 4]; TryPush [false] [5; 6]; PopWait [[false]; [false]; [false; false]]]].
Definition example_answers : list (list (queue_op * answer)) :=
  [zip (nth 0 example_clients []) [Pushed true; Popped (Some [1; 2])];
   zip (nth 1 example_clients []) [Pushed true; Pushed false; Popped (Some [3; 4])]].
Definition example_start : mpmc_queue := mkMpmc 0 0 0 0 2 2 [0; 0; 0; 0].
Definition example_end : mpmc_queue := mkMpmc 2 2 2 2 2 2 [1; 2; 3; 4].

(** The two threads take turns; the second finds its first exchange failing and
    its second push refused. *)
Lemma mpmc_example_run :
  exec (concat (replicate 40 [0%nat; 1%nat])) (example_start, script do_op <$> example_clients) =
  Ret (example_end, done <$> example_answers).
Proof. vm_compute. reflexivity. Qed.

Lemma mpmc_fifo_witness :
  ¬ faults (example_end, done (S := mpmc_queue) <$> example_answers) ∧
  ∃ g, inv 2 (2 ^ 62) 80 example_end g ∧
    (∀ t rs, finished (S := mpmc_queue) (done <$> example_answers) t rs → Some rs.*1 = example_clients !! t ∧
       pushed_by t g = (rs ≫= gave 2) ∧ popped_by t g = (rs ≫= got)) ∧
    ((∀ t, (t < 2)%nat → ∃ rs, finished (S := mpmc_queue) (done <$> example_answers) t rs) → settled example_end).
Proof.
  apply (mpmc_fifo (2 ^ 62) [0; 0; 0; 0] 4 2 example_start example_clients 80).
  - split; [lia|]. split; [vm_compute; discriminate|]. split; [reflexivity|]. right. split; [reflexivity|lia].
  - reflexivity.
  - repeat constructor; vm_compute; discriminate.
  - exact (exec_steps _ _ _ mpmc_example_run).
  - reflexivity.
Defined.

Lemma mpmc_example_inv : inv 1 (2 ^ 62) 0 example_start (mkGhost [] []).
Proof. apply (mpmc_init_inv 1 (2 ^ 62) [0; 0; 0; 0] 4 2); [|reflexivity]. split; [lia|]. split; [vm_compute; discriminate|]. split; [reflexivity|]. right. split; [reflexivity|lia]. Qed.

Lemma mpmc_alone_witness :
  wp (run (mpmc_queue_try_push [false] [7; 8]) example_start) (λ '(_, b), b = true) ∧
  wp (run (mpmc_queue_try_pop [false]) example_start) (λ '(_, r), r = None).
Proof.
  destruct (mpmc_alone 1 (2 ^ 62) 0 0 2 [] [] [7; 8] example_start (mkGhost [] [])) as [Hpush Hpop].
  - exact mpmc_example_inv.
  - lia.
  - lia.
  - vm_compute. split; discriminate.
  - split; reflexivity.
  - split; simpl; try done; intros; by rewrite lookup_nil in *.
  - split.
    + eapply wp_mono; [exact Hpush|]. intros [q' b] (-> & _). reflexivity.
    + eapply wp_mono; [exact Hpop|]. intros [q' [x|]] (Hr & _); [discriminate Hr|reflexivity].
Defined.
