(* ===== verification/Spmc.v ===== *)
(** The queue of one producer and many consumers of
    [src/lockfree/spmc_queue.c]. *)
From S2P Require Import Prelude Conc.
#[global] Open Scope Z_scope.

(** ** The code *)

Record spmc_queue : Type := mkSpmc {
  data : list Z;
  item_size : Z;
  capacity_log2 : Z;
  head : Z;
  tail : Z;
}.

Definition with_data (q : spmc_queue) (d : list Z) : spmc_queue :=
  mkSpmc d (item_size q) (capacity_log2 q) (head q) (tail q).
Definition with_head (q : spmc_queue) (h : Z) : spmc_queue :=
  mkSpmc (data q) (item_size q) (capacity_log2 q) h (tail q).
Definition with_tail (q : spmc_queue) (t : Z) : spmc_queue :=
  mkSpmc (data q) (item_size q) (capacity_log2 q) (head q) t.

Definition spmc_queue_create (mem : list Z) (isize cap_log2 : Z) : spmc_queue :=
  mkSpmc mem isize cap_log2 0 0.

Definition capacity (q : spmc_queue) : outcome Z :=
  if capacity_log2 q <? 32 then Ret (u32 (Z.shiftl 1 (capacity_log2 q))) else Fail BadShift.

Definition spmc_queue_push (item : list Z) : prog spmc_queue bool :=
  capacity ← access capacity;
  let mask := u32 (capacity - 1) in
  h ← load head;
  t ← load tail;
  pure (c_assert (u64 (t - h) <=? capacity));;
  if u64 (t - h) =? capacity then mret false
  else
    let tail_index := u32 (Z.land t mask) in
    n ← load item_size;
    for_each (seqZ 0 n) (λ j,
      b ← pure (rd item j);
      update (λ q, d ← wr (data q) (u64 (tail_index * item_size q) + j) b; Ret (with_data q d));;
      mret tt);;
    pure (c_assert (t <? UINT64_MAX));;
    let t := u64 (t + 1) in
    (* atomic_fetch_add(&queue->tail, tail) *)
    store (λ q, with_tail q (u64 (tail q + t)));;
    mret true.

(** [spurious]: which of the loop's exchanges fail for no reason. *)
Fixpoint spmc_queue_pop (spurious : list bool) : prog spmc_queue (option (list Z)) :=
  match spurious with
  | [] => stopped
  | sp :: spurious =>
      capacity ← access capacity;
      let mask := u32 (capacity - 1) in
      t ← load tail;
      h ← load head;
      if t <=? h then mret None
      else
        let head_index := u32 (Z.land h mask) in
        n ← load item_size;
        item ← collect (seqZ 0 n) (λ j,
          b ← access (λ q, rd (data q) (u64 (head_index * item_size q) + j));
          mret [b]);
        ok ← act (λ q, if negb sp && (head q =? h) then Ret (with_head q (u64 (h + 1)), true)
                       else Ret (q, false)) done;
        if ok : bool then mret (Some item) else spmc_queue_pop spurious
  end.

(** ** What a push does *)

Definition cap (q : spmc_queue) : Z := 2 ^ capacity_log2 q.

Definition shape (q : spmc_queue) : Prop :=
  0 ≤ capacity_log2 q ≤ 31 ∧ 0 ≤ item_size q ∧ zlen (data q) = cap q * item_size q ∧
  zlen (data q) < 2 ^ 63.

Lemma capacity_ok q : shape q → capacity q = Ret (cap q) ∧ 1 ≤ cap q ≤ 2 ^ 31.
Proof.
  intros (? & _). assert (1 ≤ cap q ≤ 2 ^ 31).
  { unfold cap. split; [|apply Z.pow_le_mono_r; lia]. pose proof (Z.pow_pos_nonneg 2 (capacity_log2 q)). lia. }
  split; [|done]. unfold capacity. destruct (Z.ltb_spec (capacity_log2 q) 32); [|lia].
  rewrite Z.shiftl_1_l. fold (cap q). by rewrite u32_small by lia.
Qed.

Lemma index_ok q t : shape q → 0 ≤ t → u32 (Z.land t (u32 (cap q - 1))) = t mod cap q.
Proof.
  intros Hs Ht. destruct (capacity_ok q Hs) as [_ ?]. destruct Hs as (? & _).
  rewrite (u32_small (cap q - 1)) by lia.
  replace (cap q - 1) with (Z.ones (capacity_log2 q)) by (rewrite Z.ones_equiv; unfold cap; lia).
  rewrite Z.land_ones by lia. fold (cap q). apply u32_small.
  pose proof (Z.mod_pos_bound t (cap q)). lia.
Qed.

(** A push adds not one but its new tail to the tail: it stores its item in
    the slot of the tail [t] and leaves the tail at [2 t + 1].  Only on a new
    queue, where [t] is 0, this is one item more. *)
Theorem spmc_push_skips q item :
  shape q → 0 ≤ head q ≤ tail q → tail q < head q + cap q → tail q < 2 ^ 62 → item_size q ≤ zlen item →
  wp (run (spmc_queue_push item) q) (λ '(q', b),
    b = true ∧ tail q' = 2 * tail q + 1 ∧ head q' = head q ∧
    rd_range (data q') (tail q mod cap q * item_size q) (item_size q) =
      rd_range item 0 (item_size q)).
Proof.
  intros Hs Hh Hroom H62 Hitem. destruct (capacity_ok q Hs) as [Hc ?].
  pose proof Hs as (_ & Hsz & Hd & Hd63). unfold spmc_queue_push.
  rewrite run_access_bind, Hc. cbn [mbind outcome_bind]. rewrite !run_load_bind, run_pure_bind.
  rewrite u64_small by lia. destruct (Z.leb_spec (tail q - head q) (cap q)); [|lia].
  cbn [c_assert mbind outcome_bind]. destruct (Z.eqb_spec (tail q - head q) (cap q)); [lia|].
  rewrite run_load_bind, index_ok by (done || lia).
  pose proof (Z.mod_pos_bound (tail q) (cap q) ltac:(lia)) as Hm.
  apply wp_run_bind. eapply wp_mono.
  - apply (wp_run_for_each (λ k q', q' = with_data q (data q') ∧ zlen (data q') = zlen (data q) ∧
      rd_range (data q') (tail q mod cap q * item_size q) k = Ret (take (Z.to_nat k) item))); [done| |].
    + split_and!; [by destruct q|done|]. rewrite rd_range_ok by nia. done.
    + intros k q1 Hk (Hq1 & Hl1 & Hr). destruct (rd_ok item k) as (b & Hb & Hbk); [lia|].
      rewrite run_pure_bind, Hb. cbn [mbind outcome_bind]. rewrite run_update_bind.
      assert (item_size q1 = item_size q) as -> by (by rewrite Hq1).
      rewrite u64_small by nia. rewrite wr_ok by nia. cbn [mbind outcome_bind run mret prog_ret wp].
      split_and!; [by rewrite Hq1|simpl; by rewrite zlen_insert|]. simpl.
      assert (zlen (take (Z.to_nat k) item) = k) as Hkl by (rewrite zlen_take; lia).
      pose proof (rd_range_insert_snoc (data q1) (tail q mod cap q * item_size q) (take (Z.to_nat k) item) b) as Hsn.
      rewrite Hkl in Hsn. rewrite Hsn by (done || nia).
      replace (Z.to_nat (k + 1)) with (S (Z.to_nat k)) by lia. by rewrite (take_S_r _ _ b).
  - intros [q1 []] (Hq1 & Hl1 & Hr). rewrite run_pure_bind.
    destruct (Z.ltb_spec (tail q) UINT64_MAX) as [_|]; [|unfold UINT64_MAX in *; lia].
    cbn [c_assert mbind outcome_bind]. rewrite run_store_bind. cbn [run mret prog_ret wp].
    assert (tail q1 = tail q ∧ head q1 = head q) as [Ht1 Hh1] by (by rewrite Hq1).
    split_and!; [done|simpl; rewrite Ht1, (u64_small (tail q + 1)), u64_small; lia|done|]. simpl.
    rewrite Z.add_0_l in Hr. rewrite Hr, (rd_range_ok item) by lia. by rewrite drop_0.
Qed.

(** Three pops after two pushes: the third gives a slot that nobody wrote. *)
Lemma spmc_pops_garbage :
  run (spmc_queue_push [1];; spmc_queue_push [2];;
       a ← spmc_queue_pop [false]; b ← spmc_queue_pop [false]; c ← spmc_queue_pop [false]; mret (a, b, c))
    (spmc_queue_create [7; 8; 9; 10] 1 2) =
  Ret (mkSpmc [1; 2; 9; 10] 1 2 3 3, (Some [1], Some [2], Some [9])).
Proof. vm_compute. reflexivity. Qed.

(** The fourth push on a queue of four aborts. *)
Lemma spmc_fourth_push_aborts :
  run (spmc_queue_push [1];; spmc_queue_push [2];; spmc_queue_push [3];; spmc_queue_push [4])
    (spmc_queue_create [0; 0; 0; 0] 1 2) = Fail AssertFail.
Proof. vm_compute. reflexivity. Qed.

Lemma spmc_push_skips_witness :
  wp (run (spmc_queue_push [5; 6]) (mkSpmc [1; 2; 0; 0; 0; 0; 0; 0] 2 2 0 1)) (λ '(q', b),
    b = true ∧ tail q' = 2 * 1 + 1 ∧ head q' = 0 ∧
    rd_range (data q') (1 mod 4 * 2) 2 = rd_range [5; 6] 0 2).
Proof.
  apply (spmc_push_skips (mkSpmc [1; 2; 0; 0; 0; 0; 0; 0] 2 2 0 1) [5; 6]);
    try (vm_compute; intuition discriminate); vm_compute; reflexivity.
Defined.
