(* ===== verification/Pool.v ===== *)
(** The pool allocator of [src/alloc/pool.c]: pages of equal slots, the free
    slots of a page in a list through the slots. *)
From S2P Require Import Prelude.
#[global] Open Scope Z_scope.

(** ** The code *)

(** What a [struct page_header **] points to: one of the list heads of the
    pool, or the [next] of a page. *)
Inductive page_link : Set :=
  | ListPartiallyFull
  | ListFull
  | NextOf (page : Z).

Record page_header : Set := mkHeader {
  prev : page_link;
  next : Z;
  slots : Z;
  allocated_count : Z;
}.

(** [pages] holds the headers of the pages that the system has given, by
    address; [words] the [next] of the free slots.  0 is NULL. *)
Record pool_alloc : Type := mkPool {
  list_partially_full : Z;
  list_full : Z;
  item_size : Z;
  item_align : Z;
  slots_per_page : Z;
  pages : gmap Z page_header;
  words : gmap Z Z;
}.

Definition with_lists (a : pool_alloc) (p f : Z) : pool_alloc :=
  mkPool p f (item_size a) (item_align a) (slots_per_page a) (pages a) (words a).
Definition with_pages (a : pool_alloc) (h : gmap Z page_header) : pool_alloc :=
  mkPool (list_partially_full a) (list_full a) (item_size a) (item_align a) (slots_per_page a) h (words a).
Definition with_words (a : pool_alloc) (w : gmap Z Z) : pool_alloc :=
  mkPool (list_partially_full a) (list_full a) (item_size a) (item_align a) (slots_per_page a) (pages a) w.

Definition deref {A} (h : gmap Z A) (p : Z) : outcome A :=
  if p =? 0 then Fail NullDeref
  else match h !! p with Some x => Ret x | None => Fail OutOfBounds end.

Definition set_page (a : pool_alloc) (p : Z) (h : page_header) : outcome pool_alloc :=
  deref (pages a) p;; Ret (with_pages a (<[p := h]> (pages a))).

(** [*link = page] *)
Definition set_link (a : pool_alloc) (l : page_link) (page : Z) : outcome pool_alloc :=
  match l with
  | ListPartiallyFull => Ret (with_lists a page (list_full a))
  | ListFull => Ret (with_lists a (list_partially_full a) page)
  | NextOf q => h ← deref (pages a) q; set_page a q (mkHeader (prev h) page (slots h) (allocated_count h))
  end.

Definition sizeof_page_header : Z := 32.

(** [-cur & mask] on [size_t]. *)
Definition padding (cur align : Z) : Z := Z.land (u64 (- cur)) (u64 (align - 1)).

(** [osfree]: the page's memory, slots included, is gone. *)
Definition osfree (mask : Z) (a : pool_alloc) (page : Z) : pool_alloc :=
  with_words (with_pages a (delete page (pages a)))
    (filter (λ w, Z.land w.1 mask ≠ page) (words a)).

Section pool.
(** The page size of the system, and the address of a new page. *)
Variables (page_size : Z) (osalloc : gmap Z page_header → Z).

Definition count_slots (isize align : Z) : outcome Z :=
  loop (S (Z.to_nat page_size)) (λ '(cur, n),
    let cur := u64 (cur + padding cur align) in
    if page_size <=? cur then break n
    else
      let cur := u64 (cur + isize) in
      if page_size <=? cur then break n
      else continue (cur, n + 1)) (sizeof_page_header, 0).

Definition pool_alloc_create (isize align : Z) : outcome pool_alloc :=
  c_assert (8 <=? isize);;
  c_assert (isize <=? page_size - sizeof_page_header);;
  n ← count_slots isize align;
  c_assert (0 <? n);;
  Ret (mkPool 0 0 isize align n ∅ ∅).

(** [while (cursor) { next = cursor->next; osfree(cursor); cursor = next; }] *)
Definition free_pages (a : pool_alloc) (cursor : Z) : outcome pool_alloc :=
  loop (S (size (pages a))) (λ '(a, cursor),
    if cursor =? 0 then break a
    else
      h ← deref (pages a) cursor;
      continue (osfree (u64 (- page_size)) a cursor, next h)) (a, cursor).

Definition pool_alloc_delete (a : pool_alloc) : outcome pool_alloc :=
  let cursor := list_partially_full a in
  a ← free_pages (with_lists a 0 (list_full a)) cursor;
  let cursor := list_full a in
  free_pages (with_lists a (list_partially_full a) 0) cursor.

(** The loop that makes the list of a page's slots: [tail] is [&slots], or
    [&slot->next] of a slot, [cursor] is only ever moved by the padding. *)
Fixpoint link_slots (n : nat) (align stop cursor : Z) (tail : option Z) (first : Z)
    (words : gmap Z Z) : option Z * Z * gmap Z Z :=
  match n with
  | O => (tail, first, words)
  | S n =>
      let cursor := u64 (cursor + padding cursor align) in
      if stop <=? cursor then (tail, first, words)
      else
        let slot := cursor in
        match tail with
        | None => link_slots n align stop cursor (Some slot) slot words
        | Some s => link_slots n align stop cursor (Some slot) first (<[s := slot]> words)
        end
  end.

Definition ensure_partially_full_page_available (a : pool_alloc) : outcome pool_alloc :=
  if list_partially_full a =? 0 then
    let page := osalloc (pages a) in
    let '(tail, first, ws) :=
      link_slots (Z.to_nat (slots_per_page a)) (item_align a) (u64 (page + page_size))
        (u64 (page + sizeof_page_header)) None 0 (words a) in
    let '(first, ws) := match tail with None => (0, ws) | Some s => (first, <[s := 0]> ws) end in
    if page =? 0 then Fail NullDeref
    else
      let h := mkHeader ListPartiallyFull (list_partially_full a) first 0 in
      Ret (with_lists (with_pages (with_words a ws) (<[page := h]> (pages a))) page (list_full a))
  else Ret a.

Definition pool_alloc_get (a : pool_alloc) : outcome (pool_alloc * Z) :=
  a ← ensure_partially_full_page_available a;
  let page := list_partially_full a in
  h ← deref (pages a) page;
  let slot := slots h in
  nx ← deref (words a) slot;
  let count := s32 (allocated_count h + 1) in
  a ← set_page a page (mkHeader (prev h) (next h) nx count);
  if u64 count =? slots_per_page a then
    a ← set_link a (prev h) (next h);
    a ← set_page a page (mkHeader ListFull (list_full a) nx count);
    Ret (with_lists a (list_partially_full a) page, slot)
  else Ret (a, slot).

Definition pool_alloc_put (a : pool_alloc) (ptr : Z) : outcome pool_alloc :=
  let page := Z.land ptr (u64 (- page_size)) in
  let slot := ptr in
  h ← deref (pages a) page;
  let a := with_words a (<[slot := slots h]> (words a)) in
  c_assert (0 <? allocated_count h);;
  let count := s32 (allocated_count h - 1) in
  a ← set_page a page (mkHeader (prev h) (next h) slot count);
  if count =? 0 then
    a ← set_link a (prev h) (next h);
    Ret (osfree (u64 (- page_size)) a page)
  else if u64 count =? u64 (slots_per_page a - 1) then
    a ← set_link a (prev h) (next h);
    a ← set_page a page (mkHeader ListPartiallyFull (list_partially_full a) slot count);
    Ret (with_lists a page (list_full a))
  else Ret a.
End pool.

(** ** Making a pool *)

Lemma deref_ok {A} (h : gmap Z A) p x : p ≠ 0 → h !! p = Some x → deref h p = Ret x.
Proof. intros Hp Hx. unfold deref. destruct (Z.eqb_spec p 0); [done|]. by rewrite Hx. Qed.

Lemma slot_padding_mod cur k : 0 ≤ k < 64 → padding cur (2 ^ k) = (- cur) mod 2 ^ k.
Proof.
  intros Hk. assert (1 ≤ 2 ^ k < 2 ^ 64).
  { split; [|apply Z.pow_lt_mono_r; lia]. pose proof (Z.pow_pos_nonneg 2 k). lia. }
  unfold padding. rewrite (u64_small (2 ^ k - 1)) by lia.
  replace (2 ^ k - 1) with (Z.ones k) by (rewrite Z.ones_equiv; lia). rewrite Z.land_ones by lia.
  unfold u64. apply Z.mod_mod_divide. exists (2 ^ (64 - k)). rewrite <- Z.pow_add_r by lia. f_equal. lia.
Qed.

(** The next multiple of the alignment. *)
Definition align_up (cur align : Z) : Z := cur + (- cur) mod align.

Lemma align_up_bounds cur align :
  0 < align → cur ≤ align_up cur align < cur + align ∧ align_up cur align mod align = 0.
Proof.
  intros Ha. unfold align_up. pose proof (Z.mod_pos_bound (- cur) align Ha). split; [lia|].
  rewrite Zplus_mod_idemp_r. replace (cur + - cur) with 0 by lia. by apply Zmod_0_l.
Qed.

(** The offset of the slot [i] of a page. *)
Fixpoint slot_offset (isize align : Z) (i : nat) : Z :=
  match i with
  | O => align_up sizeof_page_header align
  | S i => align_up (slot_offset isize align i + isize) align
  end.

Section create.
Variables (page_size isize k : Z).
Hypothesis Hps : 0 ≤ page_size ≤ 2 ^ 31 - 1.
Hypothesis Hk : 0 ≤ k ≤ 31.
Hypothesis Hisize : 8 ≤ isize ≤ page_size.

Lemma count_slots_ok :
  wp (count_slots page_size isize (2 ^ k)) (λ n, 0 ≤ n ∧
    (∀ i, (Z.of_nat i < n) → slot_offset isize (2 ^ k) i + isize < page_size) ∧
    page_size ≤ slot_offset isize (2 ^ k) (Z.to_nat n) + isize).
Proof using Hps Hk Hisize.
  assert (1 ≤ 2 ^ k ≤ 2 ^ 31).
  { split; [|apply Z.pow_le_mono_r; lia]. pose proof (Z.pow_pos_nonneg 2 k). lia. }
  unfold count_slots.
  apply wp_loop with (m := λ '(cur, n), Z.to_nat (page_size - cur))
    (I := λ '(cur, n), 0 ≤ n ∧ 0 ≤ cur ∧ (n = 0 → cur = sizeof_page_header) ∧ (0 < n → cur < page_size) ∧
      align_up cur (2 ^ k) = slot_offset isize (2 ^ k) (Z.to_nat n) ∧
      ∀ i, Z.of_nat i < n → slot_offset isize (2 ^ k) i + isize < page_size).
  - unfold sizeof_page_header. split_and!; try lia. done.
  - unfold sizeof_page_header. lia.
  - intros [cur n] (Hn & Hc & H0 & Hpos & Hup & Hall).
    assert (cur < 2 ^ 32) as Hc32 by (unfold sizeof_page_header in *; destruct (decide (n = 0)); lia).
    rewrite slot_padding_mod by lia. fold (align_up cur (2 ^ k)). rewrite Hup.
    pose proof (align_up_bounds cur (2 ^ k) ltac:(lia)) as [Hb _]. rewrite Hup in Hb.
    rewrite (u64_small (slot_offset _ _ _)) by lia.
    destruct (Z.leb_spec page_size (slot_offset isize (2 ^ k) (Z.to_nat n))) as [Hge|Hlt].
    { simpl. split_and!; [done|done|lia]. }
    rewrite u64_small by lia.
    destruct (Z.leb_spec page_size (slot_offset isize (2 ^ k) (Z.to_nat n) + isize)) as [Hge2|Hlt2].
    { simpl. split_and!; [done|done|lia]. }
    simpl. replace (Z.to_nat (n + 1)) with (S (Z.to_nat n)) by lia.
    split_and!; try lia; [done|]. intros i Hi. destruct (decide (Z.of_nat i < n)); [by apply Hall|].
    by replace i with (Z.to_nat n) by lia.
Qed.
End create.

(** [pool_alloc_create] ends, and counts as many slots for a page as fit
    behind its header, each at its alignment; a last slot that would end
    exactly with the page is left out. *)
Theorem pool_create_correct page_size isize k :
  0 ≤ page_size ≤ 2 ^ 31 - 1 → 0 ≤ k ≤ 31 → 8 ≤ isize →
  align_up sizeof_page_header (2 ^ k) + isize < page_size →
  wp (pool_alloc_create page_size isize (2 ^ k)) (λ a,
    item_size a = isize ∧ item_align a = 2 ^ k ∧ 0 < slots_per_page a ∧ pages a = ∅ ∧
    (∀ i, Z.of_nat i < slots_per_page a →
       slot_offset isize (2 ^ k) i mod 2 ^ k = 0 ∧
       sizeof_page_header ≤ slot_offset isize (2 ^ k) i ∧
       slot_offset isize (2 ^ k) i + isize < page_size) ∧
    page_size ≤ slot_offset isize (2 ^ k) (Z.to_nat (slots_per_page a)) + isize).
Proof.
  intros Hps Hk Hsz Hfit. assert (0 < 2 ^ k) by (apply Z.pow_pos_nonneg; lia).
  pose proof (align_up_bounds sizeof_page_header (2 ^ k) ltac:(lia)) as [? _].
  unfold sizeof_page_header in *. unfold pool_alloc_create.
  do 2 (apply wp_bind, wp_assert; [apply Z.leb_le; unfold sizeof_page_header; lia|]).
  apply wp_bind. eapply wp_mono; [apply count_slots_ok; lia|]. intros n (Hn & Hall & Hlast).
  assert (0 < n).
  { destruct (decide (n = 0)) as [->|]; [|lia]. simpl in Hlast. unfold sizeof_page_header in Hlast. lia. }
  apply wp_bind, wp_assert; [destruct (Z.ltb_spec 0 n); [done|lia]|]. simpl.
  split_and!; try done. intros i Hi. split_and!; [|clear -H Hsz|by apply Hall].
  - destruct i; simpl; by apply align_up_bounds.
  - induction i as [|i IH]; simpl; pose proof (align_up_bounds 32 (2 ^ k) H) as [? _]; [unfold sizeof_page_header; lia|].
    pose proof (align_up_bounds (slot_offset isize (2 ^ k) i + isize) (2 ^ k) H) as [? _]. lia.
Qed.

(** ** The slots of a new page *)

Lemma padding_aligned cur k : 0 ≤ k < 64 → cur mod 2 ^ k = 0 → padding cur (2 ^ k) = 0.
Proof.
  intros Hk Hc. rewrite slot_padding_mod by done. apply Z.mod_opp_l_z; [|done].
  pose proof (Z.pow_pos_nonneg 2 k). lia.
Qed.

(** The cursor does not move on: all slots of the list are the first. *)
Lemma link_slots_stuck n k stop c first ws :
  0 ≤ k < 64 → c mod 2 ^ k = 0 → 0 ≤ c < stop → stop < 2 ^ 64 →
  ∃ ws', link_slots n (2 ^ k) stop c (Some c) first ws = (Some c, first, ws').
Proof.
  intros Hk Hc Hs H64. revert ws. induction n as [|n IH]; intros ws; [by exists ws|].
  cbn [link_slots]. rewrite padding_aligned, Z.add_0_r, u64_small by (done || lia).
  destruct (Z.leb_spec stop c); [lia|]. apply IH.
Qed.

Section pool_ok.
Variables (page_size : Z) (osalloc : gmap Z page_header → Z) (k : Z).
Hypothesis Hk : 0 ≤ k < 64.

(** A new page with its only free slot, the first. *)
Definition fresh_page (a a' : pool_alloc) (page slot : Z) : Prop :=
  list_partially_full a' = page ∧ list_full a' = list_full a ∧
  slots_per_page a' = slots_per_page a ∧
  pages a' = <[page := mkHeader ListPartiallyFull 0 slot 0]> (pages a) ∧ words a' !! slot = Some 0.

Lemma new_page_ok a :
  list_partially_full a = 0 → item_align a = 2 ^ k → 0 < slots_per_page a →
  let page := osalloc (pages a) in
  let slot := align_up (page + sizeof_page_header) (2 ^ k) in
  0 < page → slot < page + page_size < 2 ^ 64 →
  wp (ensure_partially_full_page_available page_size osalloc a) (λ a', fresh_page a a' page slot).
Proof using Hk.
  intros Hp Ha Hn page slot Hpage Hfit. unfold ensure_partially_full_page_available.
  rewrite Hp, Z.eqb_refl. cbn zeta. fold page. rewrite Ha.
  assert (0 < 2 ^ k) by (apply Z.pow_pos_nonneg; lia).
  pose proof (align_up_bounds (page + sizeof_page_header) (2 ^ k) ltac:(lia)) as [Hb Hmod]. fold slot in Hb, Hmod.
  unfold sizeof_page_header in *.
  destruct (Z.to_nat (slots_per_page a)) as [|n] eqn:En; [lia|]. cbn [link_slots].
  rewrite (u64_small (page + 32)), (u64_small (page + page_size)) by lia.
  rewrite slot_padding_mod by done. fold (align_up (page + 32) (2 ^ k)). fold slot.
  rewrite u64_small by lia. destruct (Z.leb_spec (page + page_size) slot); [lia|].
  destruct (link_slots_stuck n k (page + page_size) slot slot (words a)) as [ws' ->]; [done|done|lia|lia|].
  destruct (Z.eqb_spec page 0); [lia|]. unfold fresh_page. simpl. split_and!; try done. by rewrite lookup_insert_eq.
Qed.

(** A page never gives a second slot: whatever number of slots the pool
    counted for it, the list holds only the first, and the second request
    follows a null pointer. *)
Theorem pool_second_get_crashes a :
  list_partially_full a = 0 → item_align a = 2 ^ k → 2 ≤ slots_per_page a < 2 ^ 31 →
  0 < osalloc (pages a) →
  align_up (osalloc (pages a) + sizeof_page_header) (2 ^ k) < osalloc (pages a) + page_size < 2 ^ 64 →
  wp (pool_alloc_get page_size osalloc a) (λ '(a', p),
    p = align_up (osalloc (pages a) + sizeof_page_header) (2 ^ k) ∧
    pool_alloc_get page_size osalloc a' = Fail NullDeref).
Proof using Hk.
  intros Hp Ha Hn Hpage Hfit. set (page := osalloc (pages a)) in *.
  set (slot := align_up (page + sizeof_page_header) (2 ^ k)) in *.
  unfold pool_alloc_get at 1. apply wp_bind. eapply wp_mono; [by apply new_page_ok; [..|lia| |]|].
  intros a1 (Hp1 & Hf1 & Hn1 & Hh1 & Hw1). fold page slot in Hp1, Hh1, Hw1.
  assert (slot ≠ 0) as Hslot.
  { pose proof (align_up_bounds (page + sizeof_page_header) (2 ^ k)) as Hb. unfold sizeof_page_header in *.
    assert (0 < 2 ^ k) by (apply Z.pow_pos_nonneg; lia). fold slot in Hb. lia. }
  rewrite Hp1, Hh1, (deref_ok _ page (mkHeader ListPartiallyFull 0 slot 0)) by (lia || apply lookup_insert_eq).
  cbn [mbind outcome_bind slots prev next allocated_count]. rewrite (deref_ok _ slot 0) by done.
  cbn [mbind outcome_bind]. unfold set_page.
  rewrite Hh1, (deref_ok _ page (mkHeader ListPartiallyFull 0 slot 0)) by (lia || apply lookup_insert_eq).
  cbn [mbind outcome_bind]. change (u64 (s32 (0 + 1))) with 1. cbn [slots_per_page with_pages]. rewrite Hn1.
  destruct (Z.eqb_spec 1 (slots_per_page a)); [lia|]. simpl. split; [done|].
  unfold pool_alloc_get, ensure_partially_full_page_available. cbn [list_partially_full with_pages]. rewrite Hp1.
  destruct (Z.eqb_spec page 0); [lia|]. cbn [mbind outcome_bind list_partially_full pages words with_pages].
  rewrite Hp1, (deref_ok _ page (mkHeader ListPartiallyFull 0 0 1)) by (lia || apply lookup_insert_eq).
  done.
Qed.
End pool_ok.

(** The page of an address. *)
Lemma page_of page p m :
  0 ≤ m < 64 → 0 ≤ page → page mod 2 ^ m = 0 → page ≤ p < page + 2 ^ m → p < 2 ^ 64 →
  Z.land p (u64 (- 2 ^ m)) = page.
Proof.
  intros Hm H0 Hal Hp H64. assert (0 < 2 ^ m < 2 ^ 64).
  { split; [apply Z.pow_pos_nonneg; lia|apply Z.pow_lt_mono_r; lia]. }
  assert (u64 (- 2 ^ m) = Z.shiftl (Z.ones (64 - m)) m) as ->.
  { unfold u64. rewrite <- (Z_mod_plus_full _ 1), Z.mod_small by lia.
    rewrite Z.shiftl_mul_pow2, Z.ones_equiv by lia.
    replace (2 ^ 64) with (2 ^ (64 - m) * 2 ^ m) by (rewrite <- Z.pow_add_r by lia; f_equal; lia). lia. }
  assert (p = page / 2 ^ m * 2 ^ m + p mod 2 ^ m) as Hsplit.
  { pose proof (Z.div_mod page (2 ^ m) ltac:(lia)). rewrite Hal in *.
    assert (p = (p - page) + page / 2 ^ m * 2 ^ m) as Hpp by lia.
    rewrite Hpp at 2. rewrite Z_mod_plus_full, Z.mod_small by lia. lia. }
  pose proof (Z.div_mod page (2 ^ m) ltac:(lia)) as Hpg. rewrite Hal in Hpg.
  apply Z.bits_inj'. intros i Hi. rewrite Z.land_spec, Z.shiftl_spec by lia.
  assert (page = Z.shiftl (Z.shiftr p m) m) as Hsh.
  { rewrite Z.shiftl_mul_pow2, Z.shiftr_div_pow2 by lia. rewrite Hsplit at 1.
    rewrite Z.add_comm, Z.div_add by lia. rewrite (Z.div_small (p mod 2 ^ m)) by (apply Z.mod_pos_bound; lia). lia. }
  rewrite Hsh at 1. rewrite Z.shiftl_spec by lia. destruct (Z.ltb_spec i m) as [Hlt|Hge].
  - rewrite !(Z.testbit_neg_r _ (i - m)) by lia. by rewrite andb_false_r.
  - rewrite Z.shiftr_spec by lia. replace (i - m + m) with i by lia.
    destruct (Z.ltb_spec i 64) as [Hlt|Hge64].
    + by rewrite Z.ones_spec_low, andb_true_r by lia.
    + assert (Z.log2 p < i).
      { destruct (decide (p = 0)) as [->|]; [simpl; lia|].
        apply Z.lt_le_trans with 64; [apply Z.log2_lt_pow2; lia|lia]. }
      by rewrite (Z.bits_above_log2 p) by lia.
Qed.

(** A pool of one slot to the page works: a request is served with an
    aligned slot of a new page, and giving it back leaves no page. *)
Theorem pool_single_roundtrip osalloc a k m :
  0 ≤ k < 64 → 0 ≤ m ≤ 31 → list_partially_full a = 0 → list_full a = 0 → pages a = ∅ →
  item_align a = 2 ^ k → slots_per_page a = 1 → 0 < osalloc ∅ → osalloc ∅ mod 2 ^ m = 0 →
  align_up (osalloc ∅ + sizeof_page_header) (2 ^ k) < osalloc ∅ + 2 ^ m < 2 ^ 64 →
  wp (pool_alloc_get (2 ^ m) osalloc a) (λ '(a1, p),
    p = align_up (osalloc ∅ + sizeof_page_header) (2 ^ k) ∧
    pages a1 !! osalloc ∅ = Some (mkHeader ListFull 0 0 1) ∧ list_full a1 = osalloc ∅ ∧
    wp (pool_alloc_put (2 ^ m) a1 p) (λ a2,
      list_partially_full a2 = 0 ∧ list_full a2 = 0 ∧ pages a2 = ∅)).
Proof.
  intros Hk Hm Hp Hf Hpg Ha Hn Hpage Hal Hfit.
  set (page := osalloc ∅) in *. set (slot := align_up (page + sizeof_page_header) (2 ^ k)) in *.
  assert (page + sizeof_page_header ≤ slot) as Hge.
  { apply align_up_bounds. apply Z.pow_pos_nonneg; lia. }
  unfold sizeof_page_header in Hge. unfold pool_alloc_get. apply wp_bind.
  eapply wp_mono; [apply (new_page_ok (2 ^ m) osalloc k Hk); rewrite ?Hpg; (done || lia)|].
  intros a1 (Hp1 & Hf1 & Hn1 & Hh1 & Hw1). rewrite Hpg in *. fold page slot in Hp1, Hh1, Hw1.
  rewrite Hp1, Hh1, (deref_ok _ page (mkHeader ListPartiallyFull 0 slot 0)) by (lia || apply lookup_insert_eq).
  cbn [mbind outcome_bind slots prev next allocated_count]. rewrite (deref_ok _ slot 0) by (lia || done).
  cbn [mbind outcome_bind]. unfold set_page.
  rewrite Hh1, (deref_ok _ page (mkHeader ListPartiallyFull 0 slot 0)) by (lia || apply lookup_insert_eq).
  cbn [mbind outcome_bind]. change (u64 (s32 (0 + 1))) with 1. change (s32 (0 + 1)) with 1.
  cbn [slots_per_page with_pages]. rewrite Hn1, Hn. cbn [Z.eqb Pos.eqb set_link mbind outcome_bind].
  cbn [pages with_lists with_pages list_full].
  rewrite (deref_ok _ page (mkHeader ListPartiallyFull 0 0 1)) by (lia || apply lookup_insert_eq).
  cbn [mbind outcome_bind wp list_partially_full list_full with_lists with_pages pages].
  rewrite Hf1, Hf. split_and!; [done|by rewrite lookup_insert_eq|done|].
  unfold pool_alloc_put. rewrite (page_of page slot m) by lia.
  cbn [pages with_lists with_pages list_full].
  rewrite (deref_ok _ page (mkHeader ListFull 0 0 1)) by (lia || apply lookup_insert_eq).
  cbn [mbind outcome_bind allocated_count slots prev next].
  change (c_assert (0 <? 1)) with (Ret tt). cbn [mbind outcome_bind]. change (s32 (1 - 1)) with 0.
  unfold set_page. cbn [pages with_words with_lists with_pages].
  rewrite (deref_ok _ page (mkHeader ListFull 0 0 1)) by (lia || apply lookup_insert_eq).
  cbn [mbind outcome_bind Z.eqb set_link wp]. unfold osfree.
  cbn [list_partially_full list_full pages with_words with_lists with_pages]. split_and!; [done|done|].
  by rewrite !insert_insert_eq, delete_insert_eq, delete_empty.
Qed.

(** ** The theorems at work *)

(** A system that gives the first of a row of pages that is free. *)
Definition example_osalloc (h : gmap Z page_header) : Z :=
  match h !! 64, h !! 128 with None, _ => 64 | _, None => 128 | _, _ => 192 end.

(** When a page gets in front of another in the list of full pages, the
    other's [prev] is not updated.  Giving back two slots in the order they
    were obtained leaves a freed page in the list, which [pool_alloc_delete]
    follows. *)
Lemma stale_prev_use_after_free :
  (a ← pool_alloc_create 64 24 8;
   '(a, p1) ← pool_alloc_get 64 example_osalloc a;
   '(a, p2) ← pool_alloc_get 64 example_osalloc a;
   a ← pool_alloc_put 64 a p1;
   a ← pool_alloc_put 64 a p2;
   pool_alloc_delete 64 a) = Fail OutOfBounds.
Proof. vm_compute. reflexivity. Qed.

Lemma pool_create_correct_witness :
  wp (pool_alloc_create 4096 48 (2 ^ 4)) (λ a, 0 < slots_per_page a).
Proof.
  eapply wp_mono; [apply (pool_create_correct 4096 48 4); vm_compute; intuition discriminate|].
  intros a (_ & _ & Hn & _). exact Hn.
Defined.

Lemma pool_second_get_crashes_witness :
  wp (pool_alloc_get 4096 (λ _, 8192) (mkPool 0 0 48 (2 ^ 4) 84 ∅ ∅)) (λ '(a', p),
    p = align_up (8192 + 32) (2 ^ 4) ∧ pool_alloc_get 4096 (λ _, 8192) a' = Fail NullDeref).
Proof.
  apply (pool_second_get_crashes 4096 (λ _, 8192) 4);
    try reflexivity; vm_compute; intuition discriminate.
Defined.

Lemma pool_single_roundtrip_witness :
  wp (pool_alloc_get (2 ^ 12) (λ _, 8192) (mkPool 0 0 3000 (2 ^ 4) 1 ∅ ∅)) (λ '(a1, p),
    wp (pool_alloc_put (2 ^ 12) a1 p) (λ a2, pages a2 = ∅)).
Proof.
  eapply wp_mono; [apply (pool_single_roundtrip (λ _, 8192) _ 4 12); try reflexivity; vm_compute; intuition discriminate|].
  intros [a1 p] (_ & _ & _ & Hput). eapply wp_mono; [exact Hput|]. intros a2 (_ & _ & H). exact H.
Defined.
