(* ===== verification/ThreadPool.v ===== *)
(** The parts of [src/thread/thread_pool.c] that do not need the structures of
    the pool, which the repository does not declare: the queue of jobs, the
    handles of jobs and the list of free jobs. *)
From S2P Require Import Prelude Bits Conc.
#[global] Open Scope Z_scope.

(** ** The queue of jobs *)

Record lock_free_queue : Type := mkQueue {
  head : Z;
  tail : Z;
  temp : Z;
  size : Z;
  cell : Z;
  base : list Z;
}.

Definition with_head (q : lock_free_queue) (h : Z) : lock_free_queue :=
  mkQueue h (tail q) (temp q) (size q) (cell q) (base q).
Definition with_tail (q : lock_free_queue) (t : Z) : lock_free_queue :=
  mkQueue (head q) t (temp q) (size q) (cell q) (base q).
Definition with_temp (q : lock_free_queue) (t : Z) : lock_free_queue :=
  mkQueue (head q) (tail q) t (size q) (cell q) (base q).
Definition with_base (q : lock_free_queue) (b : list Z) : lock_free_queue :=
  mkQueue (head q) (tail q) (temp q) (size q) (cell q) b.

Definition lock_free_queue_init (arrptr : list Z) (arrlen cell : Z) : outcome lock_free_queue :=
  c_assert (Z.rem arrlen cell =? 0);;
  Ret (mkQueue 0 0 0 (Z.quot arrlen cell) cell arrptr).

(** The offset of a slot in [base]. *)
Definition item_addr (q : lock_free_queue) (index : Z) : outcome Z :=
  c_assert ((0 <=? index) && (index <? size q));;
  int (cell q * index).

(** An exchange changes the field if it still is [old], and not [spurious]ly
    fails, as the weak one may. *)
Definition exchange (get : lock_free_queue → Z) (set : lock_free_queue → Z → lock_free_queue)
    (old new : Z) (spurious : bool) : prog lock_free_queue bool :=
  act (λ q, if negb spurious && (get q =? old) then Ret (set q new, true) else Ret (q, false)) done.

Definition next_index (q_size index : Z) : outcome Z := i ← int (index + 1); Ret (Z.rem i q_size).

(** The loops run until an exchange succeeds; a thread that is out of [rounds]
    stops. *)
Fixpoint acquire_push_location (rounds : nat) : prog lock_free_queue Z :=
  match rounds with
  | O => stopped
  | S rounds =>
      old_temp ← load temp;
      sz ← load size;
      new_temp ← pure (next_index sz old_temp);
      ok ← exchange temp with_temp old_temp new_temp false;
      if ok : bool then mret old_temp else acquire_push_location rounds
  end.

(** The position does not matter to the loop. *)
Fixpoint release_push_location (index : Z) (spurious : list bool) : prog lock_free_queue unit :=
  match spurious with
  | [] => stopped
  | sp :: spurious =>
      old_tail ← load tail;
      sz ← load size;
      new_tail ← pure (next_index sz old_tail);
      ok ← exchange tail with_tail old_tail new_tail sp;
      if ok : bool then mret tt else release_push_location index spurious
  end.

Definition write_item (index : Z) (src : list Z) : prog lock_free_queue unit :=
  dst ← access (λ q, item_addr q index);
  n ← load cell;
  for_each (seqZ 0 n) (λ j,
    b ← pure (rd src j);
    update (λ q, d ← wr (base q) (dst + j) b; Ret (with_base q d))).

Definition read_item (index : Z) : prog lock_free_queue (list Z) :=
  src ← access (λ q, item_addr q index);
  n ← load cell;
  collect (seqZ 0 n) (λ j, b ← access (λ q, rd (base q) (src + j)); mret [b]).

Definition lock_free_queue_try_push (src : list Z) (rounds : nat) (spurious : list bool)
    : prog lock_free_queue bool :=
  index ← acquire_push_location rounds;
  if index <? 0 then mret false
  else
    write_item index src;;
    release_push_location index spurious;;
    mret true.

(** An attempt of the loop each. *)
Fixpoint lock_free_queue_push (src : list Z) (attempts : list (nat * list bool)) : prog lock_free_queue unit :=
  match attempts with
  | [] => stopped
  | (rounds, spurious) :: attempts =>
      ok ← lock_free_queue_try_push src rounds spurious;
      if ok : bool then mret tt else lock_free_queue_push src attempts
  end.

Fixpoint lock_free_queue_try_pop (rounds : nat) : prog lock_free_queue (list Z) :=
  match rounds with
  | O => stopped
  | S rounds =>
      old_head ← load head;
      sz ← load size;
      new_head ← pure (next_index sz old_head);
      dst ← read_item old_head;
      ok ← exchange head with_head old_head new_head false;
      if ok : bool then mret dst else lock_free_queue_try_pop rounds
  end.

(** [try_pop] has no way to fail. *)
Definition lock_free_queue_pop (rounds : nat) : prog lock_free_queue (list Z) :=
  lock_free_queue_try_pop rounds.

(** ** Handles of jobs *)

Definition PACK_JOB_ID (gen idx : Z) : outcome Z :=
  g ← int (gen + 1);
  i ← int (idx + 1);
  Ret (Z.lor (u64 g) (u64 (Z.shiftl (u64 i) 32))).
Definition UNPACK_GEN_FROM_JOB_ID (job_id : Z) : Z := u32 (u64 (Z.land (u64 job_id) 4294967295 - 1)).
Definition UNPACK_IDX_FROM_JOB_ID (job_id : Z) : Z := u32 (u64 (Z.shiftr (u64 job_id) 32 - 1)).

(** ** The list of free jobs

    Of the jobs, the next free one and the generation; of the pool, the jobs,
    their number and the first free one. *)
Record job_data : Type := mkJob {
  next : option nat;
  gen : Z;
}.
Record thread_pool : Type := mkPool {
  jobs : list job_data;
  free_jobs : option nat;
}.

Definition get_job_id (pool : thread_pool) (job : nat) : outcome Z :=
  match jobs pool !! job with
  | Some j => PACK_JOB_ID (gen j) (Z.of_nat job)
  | None => Fail OutOfBounds
  end.

(** The constant INVALID_JOB is declared elsewhere. *)
Definition get_job_data (INVALID_JOB : Z) (pool : thread_pool) (job_id : Z) : option nat :=
  if job_id =? INVALID_JOB then None
  else
    let idx := UNPACK_IDX_FROM_JOB_ID job_id in
    let g := UNPACK_GEN_FROM_JOB_ID job_id in
    if zlen (jobs pool) <=? idx then None
    else
      match jobs pool !! Z.to_nat idx with
      | Some job => if u32 (gen job) =? g then Some (Z.to_nat idx) else None
      | None => None
      end.

Definition deref (pool : thread_pool) (job : option nat) : outcome job_data :=
  match job with
  | None => Fail NullDeref
  | Some p => match jobs pool !! p with Some j => Ret j | None => Fail OutOfBounds end
  end.
Definition with_free (pool : thread_pool) (f : option nat) : thread_pool := mkPool (jobs pool) f.
Definition set_next (pool : thread_pool) (job : nat) (n : option nat) : outcome thread_pool :=
  j ← deref pool (Some job);
  Ret (mkPool (<[job := mkJob n (gen j)]> (jobs pool)) (free_jobs pool)).

Definition exchange_free (old new : option nat) : prog thread_pool bool :=
  act (λ s, if bool_decide (free_jobs s = old) then Ret (with_free s new, true) else Ret (s, false)) done.

Fixpoint free_list_push (job : nat) (rounds : nat) : prog thread_pool unit :=
  match rounds with
  | O => stopped
  | S rounds =>
      old_head ← load free_jobs;
      update (λ s, set_next s job old_head);;
      ok ← exchange_free old_head (Some job);
      if ok : bool then mret tt else free_list_push job rounds
  end.

Fixpoint free_list_pop (rounds : nat) : prog thread_pool (option nat) :=
  match rounds with
  | O => stopped
  | S rounds =>
      old_head ← load free_jobs;
      new_head ← access (λ s, j ← deref s old_head; Ret (next j));
      ok ← exchange_free old_head new_head;
      if ok : bool then mret old_head else free_list_pop rounds
  end.

(** ** The queue without interference *)

Definition slot (q : lock_free_queue) (i : Z) : outcome (list Z) := rd_range (base q) (cell q * i) (cell q).

Definition sound (q : lock_free_queue) : Prop :=
  0 < size q ∧ 0 < cell q ∧ cell q * size q ≤ INT_MAX ∧ zlen (base q) = cell q * size q.

(** Between operations the queue holds the items [xs]. *)
Record holds (q : lock_free_queue) (xs : list (list Z)) : Prop := {
  holds_sound : sound q;
  holds_head : 0 ≤ head q < size q;
  holds_tail : tail q = (head q + zlen xs) mod size q;
  holds_temp : temp q = tail q;
  holds_fits : zlen xs ≤ size q;
  holds_slots i x : 0 ≤ i → xs !! Z.to_nat i = Some x → slot q ((head q + i) mod size q) = Ret x;
}.

Lemma holds_bounds q xs : holds q xs → 0 ≤ tail q < size q ∧ size q ≤ INT_MAX ∧ cell q ≤ INT_MAX.
Proof.
  intros [(? & ? & ? & ?) ? Ht ? ? ?]. rewrite Ht. pose proof (Z.mod_pos_bound (head q + zlen xs) (size q) ltac:(lia)). nia.
Qed.

Lemma job_item_addr_ok q i :
  sound q → 0 ≤ i < size q → item_addr q i = Ret (cell q * i).
Proof.
  intros (? & ? & ? & _) Hi. unfold item_addr. destruct (Z.leb_spec 0 i), (Z.ltb_spec i (size q)); try lia.
  simpl. unfold int. destruct (Z.leb_spec INT_MIN (cell q * i)), (Z.leb_spec (cell q * i) INT_MAX);
    [done|unfold INT_MIN in *; nia..].
Qed.

Lemma next_index_ok sz i : 0 ≤ i < sz → sz ≤ INT_MAX → next_index sz i = Ret ((i + 1) mod sz).
Proof.
  intros. unfold next_index, int. destruct (Z.leb_spec INT_MIN (i + 1)), (Z.leb_spec (i + 1) INT_MAX);
    [|unfold INT_MIN in *; lia..]. simpl. f_equal. apply Z.rem_mod_nonneg; lia.
Qed.

Lemma job_write_item_alone q i src :
  sound q → 0 ≤ i < size q → cell q ≤ zlen src →
  wp (run (write_item i src) q) (λ '(q', _), ∃ b, q' = with_base q b ∧ zlen b = zlen (base q) ∧
    rd_range b (cell q * i) (cell q) = rd_range src 0 (cell q) ∧
    ∀ j, 0 ≤ j → j ≠ i → rd_range b (cell q * j) (cell q) = slot q j).
Proof.
  intros Hq Hi Hsrc. pose proof Hq as (? & ? & ? & Hbase). unfold write_item.
  rewrite run_access_bind, job_item_addr_ok by done. cbn [mbind outcome_bind]. rewrite run_load_bind.
  apply (wp_run_for_each (λ k q', ∃ b, q' = with_base q b ∧ zlen b = zlen (base q) ∧
    rd_range b (cell q * i) k = rd_range src 0 k ∧
    ∀ j, 0 ≤ j → j ≠ i → rd_range b (cell q * j) (cell q) = slot q j) _ 0).
  - lia.
  - exists (base q). split_and!; [by destruct q|done| |done].
    transitivity (Ret (@nil Z)); [|symmetry]; apply rd_range_elements.
    + change (zlen (@nil Z)) with 0. split_and!; [nia|nia|done|lia].
    + change (zlen (@nil Z)) with 0. split_and!; [lia|lia|done|lia].
  - intros k q' Hk (b & -> & Hb & Hpre & Hother).
    destruct (rd_ok src k) as (x & Hx & _); [lia|]. rewrite run_pure_bind, Hx. cbn [mbind outcome_bind].
    cbn [run update with_base base mbind outcome_bind]. rewrite wr_ok by nia. cbn [mbind outcome_bind wp].
    eexists. split_and!; [reflexivity|by rewrite zlen_insert| |].
    + destruct (rd_range src 0 k) as [ks|] eqn:Hks; [|by rewrite rd_range_ok in Hks by lia].
      apply rd_range_elements in Hpre as Hlen. destruct Hlen as (_ & _ & Hlen & _).
      rewrite (rd_range_snoc src 0 k ks x) by done. rewrite <- Hlen. apply rd_range_insert_snoc; rewrite Hlen; [done|nia].
    + intros j ? Hj. rewrite rd_range_insert_ne; [by apply Hother|nia|].
      destruct (decide (j < i)); [right|left]; nia.
Qed.

Lemma release_alone q i spurious :
  0 ≤ tail q < size q → size q ≤ INT_MAX → false ∈ spurious →
  run (release_push_location i spurious) q = Ret (with_tail q ((tail q + 1) mod size q), tt).
Proof.
  intros Ht Hsz. induction spurious as [|sp spurious IH]; intros Hin; [by apply elem_of_nil in Hin|].
  cbn [release_push_location]. rewrite !run_load_bind, run_pure_bind, next_index_ok by done.
  cbn [mbind outcome_bind]. rewrite run_bind. cbn [run exchange].
  destruct sp; cbn [negb andb].
  - apply elem_of_cons in Hin as [|Hin]; [done|]. by apply IH.
  - by rewrite Z.eqb_refl.
Qed.

Lemma job_push_alone q xs src rounds spurious :
  holds q xs → zlen xs < size q → cell q ≤ zlen src → false ∈ spurious →
  wp (run (lock_free_queue_try_push src (S rounds) spurious) q) (λ '(q', b),
    b = true ∧ size q' = size q ∧ cell q' = cell q ∧ holds q' (xs ++ [take (Z.to_nat (cell q)) src])).
Proof.
  intros Hq Hroom Hsrc Hsp. pose proof (holds_bounds _ _ Hq) as (Ht & Hsz & _).
  destruct Hq as [Hs Hh Htail Htemp Hfits Hslots]. pose proof Hs as (_ & Hcell & _ & _).
  unfold lock_free_queue_try_push. cbn [acquire_push_location].
  apply wp_run_bind. rewrite !run_load_bind, Htemp, run_pure_bind, next_index_ok by done.
  cbn [mbind outcome_bind]. rewrite run_bind. cbn [run exchange negb andb].
  rewrite Htemp, Z.eqb_refl. cbn [mbind outcome_bind run mret prog_ret wp].
  destruct (Z.ltb_spec (tail q) 0) as [|_]; [lia|]. apply wp_run_bind.
  eapply wp_mono; [apply job_write_item_alone; [exact Hs|exact Ht|exact Hsrc]|].
  intros [q1 []] (b & -> & Hb & Hnew & Hother).
  change (rd_range b (cell q * tail q) (cell q) = rd_range src 0 (cell q)) in Hnew.
  change (∀ j, 0 ≤ j → j ≠ tail q → rd_range b (cell q * j) (cell q) = slot q j) in Hother.
  rewrite run_bind, release_alone by done. cbn [mbind outcome_bind run mret prog_ret wp].
  split_and!; [done..|]. pose proof (zlen_nonneg xs).
  assert ((tail q + 1) mod size q = (head q + zlen (xs ++ [take (Z.to_nat (cell q)) src])) mod size q) as Hnext.
  { rewrite zlen_app, Htail, Zplus_mod_idemp_l. f_equal. change (zlen [_]) with 1. lia. }
  split; simpl; [| |exact Hnext|done| |].
  - unfold sound in *. simpl. by rewrite Hb.
  - exact Hh.
  - rewrite zlen_app. change (zlen [_]) with 1. lia.
  - intros i x Hi Hx. unfold slot. simpl. apply lookup_snoc_zlen in Hx as [[Hlt Hx]|[-> ->]]; [| |exact Hi].
    + rewrite Hother; [by apply Hslots|apply Z.mod_pos_bound; clear -Ht; lia|].
      rewrite Htail. apply slots_apart; clear -Hlt Hfits Hroom Hi Ht; lia.
    + rewrite <- Htail, Hnew. by rewrite rd_range_ok by (clear -Hsrc Hcell; lia).
Qed.

Lemma job_read_item_alone q i x : sound q → 0 ≤ i < size q → slot q i = Ret x → run (read_item i) q = Ret (q, x).
Proof.
  intros Hs Hi Hx. pose proof Hs as (_ & Hcell & _ & _). unfold read_item.
  rewrite run_access_bind, job_item_addr_ok by done. cbn [mbind outcome_bind]. rewrite run_load_bind.
  apply rd_range_elements in Hx as (_ & _ & Hl & Hel). apply wp_eq_inv. eapply wp_mono.
  - apply (wp_run_collect (λ k r q', q' = q ∧ rd_range x 0 k = Ret r) _ 0 (cell q) []); [lia| |].
    + split; [done|]. by rewrite rd_range_ok by lia.
    + intros k ys q1 Hk [-> Hr]. rewrite run_access_bind, Hel by lia.
      destruct (rd_ok x k) as (b & Hb & _); [lia|]. rewrite Hb.
      split; [done|]. by apply rd_range_snoc.
  - intros [q' r] [-> Hr]. simpl in Hr. f_equal. rewrite rd_range_ok in Hr by lia. injection Hr as <-.
    rewrite drop_0. apply take_ge. unfold zlen in Hl. lia.
Qed.

Lemma job_pop_alone q x xs rounds :
  holds q (x :: xs) →
  ∃ q', run (lock_free_queue_pop (S rounds)) q = Ret (q', x) ∧ size q' = size q ∧ cell q' = cell q ∧ holds q' xs.
Proof.
  intros Hq. pose proof (holds_bounds _ _ Hq) as (_ & Hsz & _).
  destruct Hq as [Hs Hh Htail Htemp Hfits Hslots]. rewrite zlen_cons in *. pose proof (zlen_nonneg xs).
  unfold lock_free_queue_pop. cbn [lock_free_queue_try_pop].
  rewrite !run_load_bind, run_pure_bind, next_index_ok by done. cbn [mbind outcome_bind].
  pose proof (Hslots 0 x ltac:(lia) eq_refl) as Hx. rewrite Z.add_0_r, Z.mod_small in Hx by lia.
  rewrite run_bind, (job_read_item_alone q (head q) x) by done. cbn [mbind outcome_bind].
  rewrite run_bind. cbn [run exchange negb andb]. rewrite Z.eqb_refl. cbn [mbind outcome_bind run mret prog_ret].
  eexists. split; [done|]. split; [done|]. split; [done|].
  pose proof (Z.mod_pos_bound (head q + 1) (size q) ltac:(lia)).
  split; simpl; [exact Hs|lia| |done|lia|].
  - rewrite Htail, Zplus_mod_idemp_l. f_equal. lia.
  - intros i y Hi Hy. unfold slot. simpl. rewrite Zplus_mod_idemp_l.
    replace (head q + 1 + i) with (head q + (i + 1)) by lia. apply (Hslots (i + 1)); [lia|].
    rewrite Z2Nat.inj_add, Nat.add_1_r by lia. done.
Qed.

(** ** Clients of the queue *)

Inductive job_op : Type :=
  | Put (src : list Z) (attempts : list (nat * list bool))
  | Take (rounds : nat).

Definition do_op (o : job_op) : prog lock_free_queue (option (list Z)) :=
  match o with
  | Put src attempts => lock_free_queue_push src attempts;; mret None
  | Take rounds => x ← lock_free_queue_pop rounds; mret (Some x)
  end.

(** What the thread pool means the queue to be: first in, first out, at most
    [n] items of [c] bytes; it keeps the count with semaphores. *)
Fixpoint fifo (n c : Z) (xs : list (list Z)) (os : list job_op)
    : option (list (option (list Z)) * list (list Z)) :=
  match os with
  | [] => Some ([], xs)
  | Put src _ :: os =>
      if zlen xs <? n then
        '(rs, ys) ← fifo n c (xs ++ [take (Z.to_nat c) src]) os; Some (None :: rs, ys)
      else None
  | Take _ :: os =>
      match xs with
      | [] => None
      | x :: xs => '(rs, ys) ← fifo n c xs os; Some (Some x :: rs, ys)
      end
  end.

(** Items that are long enough, and an exchange that does not fail for ever. *)
Definition op_ready (c : Z) (o : job_op) : Prop :=
  match o with
  | Put src ((S _, spurious) :: _) => c ≤ zlen src ∧ false ∈ spurious
  | Take (S _) => True
  | _ => False
  end.

Lemma script_fifo n c os q xs rs ys :
  holds q xs → size q = n → cell q = c → Forall (op_ready c) os → fifo n c xs os = Some (rs, ys) →
  ∃ q', run (script do_op os) q = Ret (q', zip os rs) ∧ holds q' ys.
Proof.
  intros Hq Hn Hc Hr. revert q xs rs ys Hq Hn Hc.
  induction Hr as [|o os Ho Hr IH]; intros q xs rs ys Hq Hn Hc Hf.
  - injection Hf as <- <-. by exists q.
  - cbn [script]. rewrite run_bind. destruct o as [src attempts|rounds]; cbn [fifo do_op] in *.
    + destruct attempts as [|[[|rounds] spurious] attempts]; [done..|]. destruct Ho as [Hsrc Hsp].
      destruct (Z.ltb_spec (zlen xs) n); [|done].
      destruct (wp_inv _ _ (job_push_alone q xs src rounds spurious Hq ltac:(lia) ltac:(lia) Hsp))
        as ([q1 b] & Hrun & -> & Hn1 & Hc1 & Hq1). rewrite Hc in Hq1.
      destruct (fifo _ _ (xs ++ _) os) as [[rs' ys']|] eqn:Hf'; [|done]. injection Hf as <- <-.
      cbn [lock_free_queue_push]. rewrite !run_bind, Hrun. cbn [mbind outcome_bind run mret prog_ret].
      destruct (IH q1 _ rs' ys' Hq1) as (q' & Hrest & Hq'); [congruence..|done|].
      exists q'. rewrite run_bind, Hrest. done.
    + destruct rounds as [|rounds]; [done|]. destruct xs as [|x xs]; [done|].
      destruct (job_pop_alone q x xs rounds Hq) as (q1 & Hrun & Hn1 & Hc1 & Hq1).
      destruct (fifo _ _ xs os) as [[rs' ys']|] eqn:Hf'; [|done]. injection Hf as <- <-.
      rewrite run_bind, Hrun. cbn [mbind outcome_bind run mret prog_ret].
      destruct (IH q1 xs rs' ys' Hq1) as (q' & Hrest & Hq'); [congruence..|done|].
      exists q'. rewrite run_bind, Hrest. done.
Qed.

Lemma init_holds arr arrlen c q :
  0 < c ≤ arrlen → arrlen ≤ INT_MAX → zlen arr = arrlen → lock_free_queue_init arr arrlen c = Ret q →
  holds q [] ∧ size q = arrlen / c ∧ cell q = c.
Proof.
  intros Hc Hl Harr. unfold lock_free_queue_init. destruct (Z.eqb_spec (Z.rem arrlen c) 0) as [Hrem|]; [|done].
  intros [= <-]. rewrite Z.rem_mod_nonneg in Hrem by lia. rewrite Z.quot_div_nonneg by lia.
  pose proof (Z.div_mod arrlen c ltac:(lia)) as Hdm. rewrite Hrem, Z.add_0_r in Hdm.
  assert (0 < arrlen / c) by (apply Z.div_str_pos; lia). split; [|done].
  split; simpl; try done; [|change (zlen (@nil (list Z))) with 0; lia]. split_and!; simpl; lia.
Qed.

(** Used by one thread at a time and within its capacity, as the pool's
    semaphores are to see to, the queue of jobs is first in, first out: every
    operation of a script returns, and the answers are those of the
    specification, round and round the array. *)
Theorem job_queue_fifo arr arrlen c q0 os rs ys :
  0 < c ≤ arrlen → arrlen ≤ INT_MAX → zlen arr = arrlen →
  lock_free_queue_init arr arrlen c = Ret q0 →
  Forall (op_ready c) os → fifo (arrlen / c) c [] os = Some (rs, ys) →
  ∃ q, run (script do_op os) q0 = Ret (q, zip os rs) ∧ holds q ys.
Proof.
  intros Hc Hl Harr Hinit Hr Hf. destruct (init_holds _ _ _ _ Hc Hl Harr Hinit) as (Hq & Hn & Hcell).
  by apply (script_fifo (arrlen / c) c os q0 []).
Qed.

(** ** Handles of jobs *)

Lemma pack_fields g i :
  0 ≤ g < INT_MAX → 0 ≤ i < INT_MAX → PACK_JOB_ID g i = Ret ((i + 1) * 2 ^ 32 + (g + 1)).
Proof.
  unfold INT_MAX. intros Hg Hi. unfold PACK_JOB_ID, int, INT_MIN, INT_MAX.
  destruct (Z.leb_spec (- 2 ^ 31) (g + 1)), (Z.leb_spec (g + 1) (2 ^ 31 - 1)); try lia.
  destruct (Z.leb_spec (- 2 ^ 31) (i + 1)), (Z.leb_spec (i + 1) (2 ^ 31 - 1)); try lia.
  cbn [andb mbind outcome_bind]. rewrite (u64_small (i + 1)), (u64_small (g + 1)) by lia.
  rewrite u64_small by (rewrite Z.shiftl_mul_pow2 by lia; lia).
  by rewrite Z.lor_comm, lor_shiftl_add by lia.
Qed.

Lemma unpack_fields g i :
  0 ≤ g < INT_MAX → 0 ≤ i < INT_MAX →
  let id := (i + 1) * 2 ^ 32 + (g + 1) in
  UNPACK_GEN_FROM_JOB_ID id = g ∧ UNPACK_IDX_FROM_JOB_ID id = i.
Proof.
  intros Hg Hi id. unfold INT_MAX in *. assert (u64 id = id) as Hid by (apply u64_small; unfold id; lia).
  unfold UNPACK_GEN_FROM_JOB_ID, UNPACK_IDX_FROM_JOB_ID. rewrite Hid.
  change 4294967295 with (Z.ones 32). rewrite Z.land_ones, Z.shiftr_div_pow2 by lia.
  assert (id mod 2 ^ 32 = g + 1) as ->.
  { unfold id. rewrite Z.add_comm, Z_mod_plus_full. apply Z.mod_small. lia. }
  assert (id / 2 ^ 32 = i + 1) as ->.
  { unfold id. rewrite Z.div_add_l by lia. rewrite Z.div_small by lia. lia. }
  rewrite !u64_small by lia. rewrite !u32_small by lia. lia.
Qed.

(** The handle of a job leads to the job for as long as its generation
    lasts, and to nothing, not to another job, once the job was freed and its
    generation changed. *)
Theorem job_handle_roundtrip INVALID_JOB pool job j :
  INVALID_JOB < 2 ^ 32 → zlen (jobs pool) < INT_MAX → jobs pool !! job = Some j → 0 ≤ gen j < INT_MAX →
  ∃ id, get_job_id pool job = Ret id ∧ get_job_data INVALID_JOB pool id = Some job ∧
    ∀ pool' j', jobs pool' !! job = Some j' → u32 (gen j') ≠ gen j → get_job_data INVALID_JOB pool' id = None.
Proof.
  intros Hinv Hlen Hj Hg. pose proof (lookup_lt_Some _ _ _ Hj) as Hlt. unfold zlen, INT_MAX in Hlen.
  assert (0 ≤ Z.of_nat job < INT_MAX) as Hi by (unfold INT_MAX; lia).
  destruct (unpack_fields (gen j) (Z.of_nat job) Hg Hi) as [HG HI]. cbv zeta in HG, HI.
  eexists. split; [unfold get_job_id; rewrite Hj; by apply pack_fields|].
  assert (∀ p k, jobs p !! job = Some k →
    get_job_data INVALID_JOB p ((Z.of_nat job + 1) * 2 ^ 32 + (gen j + 1)) =
    if u32 (gen k) =? gen j then Some job else None) as Hget.
  { intros p k Hk. unfold get_job_data.
    destruct (Z.eqb_spec ((Z.of_nat job + 1) * 2 ^ 32 + (gen j + 1)) INVALID_JOB); [lia|].
    rewrite HG, HI. pose proof (lookup_lt_Some _ _ _ Hk). unfold zlen.
    destruct (Z.leb_spec (Z.of_nat (length (jobs p))) (Z.of_nat job)); [lia|]. by rewrite Nat2Z.id, Hk. }
  split.
  - rewrite (Hget pool j Hj). unfold INT_MAX in Hg. rewrite u32_small by lia. by rewrite Z.eqb_refl.
  - intros pool' j' Hj' Hne. rewrite (Hget pool' j' Hj'). by destruct (Z.eqb_spec (u32 (gen j')) (gen j)).
Qed.

(** ** The list of free jobs *)

(** The free jobs [l], in order. *)
Fixpoint free_list (js : list job_data) (o : option nat) (l : list nat) : Prop :=
  match l with
  | [] => o = None
  | p :: l => o = Some p ∧ ∃ j, js !! p = Some j ∧ free_list js (next j) l
  end.

Lemma free_list_insert js o l p j : p ∉ l → free_list js o l → free_list (<[p := j]> js) o l.
Proof.
  revert o. induction l as [|q l IH]; intros o Hp; [done|]. apply not_elem_of_cons in Hp as [? Hp].
  intros (-> & k & Hk & Hl). split; [done|]. exists k. rewrite list_lookup_insert_ne by done. auto.
Qed.

Lemma free_list_push_alone pool l p r :
  free_list (jobs pool) (free_jobs pool) l → (p < length (jobs pool))%nat → p ∉ l →
  wp (run (free_list_push p (S r)) pool) (λ '(pool', _), free_list (jobs pool') (free_jobs pool') (p :: l)).
Proof.
  intros Hl Hp Hnew. destruct (lookup_lt_is_Some_2 _ _ Hp) as [j Hj].
  cbn [free_list_push]. rewrite run_load_bind, run_update_bind. unfold set_next, deref. rewrite Hj.
  cbn [mbind outcome_bind]. rewrite run_bind. cbn [run exchange_free free_jobs].
  rewrite bool_decide_eq_true_2 by done. cbn [mbind outcome_bind run mret prog_ret wp]. split; [done|].
  exists (mkJob (free_jobs pool) (gen j)). simpl. rewrite list_lookup_insert_eq by done.
  split; [done|]. by apply free_list_insert.
Qed.

Lemma free_list_pop_alone pool p l r :
  free_list (jobs pool) (free_jobs pool) (p :: l) →
  wp (run (free_list_pop (S r)) pool) (λ '(pool', job), job = Some p ∧ free_list (jobs pool') (free_jobs pool') l).
Proof.
  intros (Hf & j & Hj & Hl). cbn [free_list_pop]. rewrite run_load_bind, run_access_bind, Hf.
  unfold deref. rewrite Hj. cbn [mbind outcome_bind]. rewrite run_bind. cbn [run exchange_free].
  rewrite Hf, bool_decide_eq_true_2 by done. by cbn [mbind outcome_bind run mret prog_ret wp].
Qed.

(** ** Where the pool goes wrong *)

(** A thread that read the first free job and its successor is overtaken by one
    that takes both and gives the first back: its exchange succeeds all the
    same, and the successor, which is in use, is free again. *)
Definition two_free : thread_pool := mkPool [mkJob (Some 1%nat) 0; mkJob None 0] (Some 0%nat).

Lemma free_list_aba :
  wp (exec [0; 0; 1; 1; 1; 1; 1; 1; 1; 1; 1; 0]%nat
      (two_free, [free_list_pop 1; p ← free_list_pop 1; q ← free_list_pop 1; free_list_push 0 1;; mret q]))
    (λ '(pool, ts), ts = [done (Some 0%nat); done (Some 1%nat)] ∧ free_jobs pool = Some 1%nat).
Proof. vm_compute. done. Qed.

(** Two threads put an item; the second moves the tail over the slot of the
    first, which is not written yet, and its item's count lets a third thread
    take it: it takes a byte that nobody put. *)
Lemma unwritten_job_taken :
  wp (exec (concat [replicate 4 0; replicate 20 1; replicate 9 2; replicate 20 0]%nat)
      (mkQueue 0 0 0 4 1 [99; 99; 99; 99],
       [do_op (Put [1] [(1%nat, [false])]); do_op (Put [2] [(1%nat, [false])]); do_op (Take 1)]))
    (λ '(q, ts), ts = [done None; done None; done (Some [99])]).
Proof. vm_compute. done. Qed.

(** The queue itself knows neither full nor empty. *)
Lemma full_queue_overwritten :
  wp (run (script do_op [Put [1] [(1%nat, [false])]; Put [2] [(1%nat, [false])]; Take 1]) (mkQueue 0 0 0 1 1 [0]))
    (λ '(q, rs), rs.*2 = [None; None; Some [2]]).
Proof. vm_compute. done. Qed.

(** ** The theorems at work *)

Definition example_jobs : list job_op :=
  [Put [1; 2] [(1%nat, [true; false])]; Put [3; 4] [(2%nat, [false])]; Take 1; Put [5; 6] [(1%nat, [false])]; Take 3].

Lemma job_queue_fifo_witness :
  ∃ q, run (script do_op example_jobs) (mkQueue 0 0 0 2 2 [0; 0; 0; 0]) =
    Ret (q, zip example_jobs [None; None; Some [1; 2]; None; Some [3; 4]]) ∧ holds q [[5; 6]].
Proof.
  apply (job_queue_fifo [0; 0; 0; 0] 4 2).
  - lia.
  - vm_compute. discriminate.
  - reflexivity.
  - reflexivity.
  - repeat constructor; vm_compute; discriminate.
  - reflexivity.
Defined.

Lemma job_handle_roundtrip_witness :
  ∃ id, get_job_id two_free 1 = Ret id ∧ get_job_data 0 two_free id = Some 1%nat ∧
    ∀ pool' j', jobs pool' !! 1%nat = Some j' → u32 (gen j') ≠ 0 → get_job_data 0 pool' id = None.
Proof.
  apply (job_handle_roundtrip 0 two_free 1 (mkJob None 0)).
  - reflexivity.
  - reflexivity.
  - reflexivity.
  - vm_compute. split; [discriminate|reflexivity].
Defined.
