(* ===== verification/Sockets.v ===== *)
(** Sockets as their users see them: what the system answers to [recv] and
    [send] on a connection, and the log of what was sent and closed.  The
    clients are the server of [HttpServer] and the connections of [Tcp]. *)
From S2P Require Import Prelude.

(** What the system saw, the earliest first. *)
Inductive net_event : Type :=
  | Sent (fd : Z) (bytes : list Z)
  | Closed (fd : Z).

(** What [malloc] returns for a size, [None] for NULL. *)
Definition allocator : Type := Z → option (list Z).

(** The input of a connection: the pieces [recv] finds, no more of a piece
    than there is room for (an empty piece: the peer has closed), and whether
    the connection is broken behind them or just has nothing more. *)
Record arrival : Type := mkArrival {
  pieces : list (list Z);
  input_broken : bool;
}.

(** How many bytes each [send] takes at most, and the same question. *)
Record departure : Type := mkDeparture {
  takes : list nat;
  output_broken : bool;
}.

(** One call of [recv] for at most [room] bytes: the bytes, [None] for nothing
    at the moment or a failure, and what is left to answer. *)
Definition recv (a : arrival) (room : Z) : option (list Z) * arrival :=
  match pieces a with
  | [] => (None, a)
  | p :: rest =>
      let left := drop (Z.to_nat room) p in
      (Some (take (Z.to_nat room) p),
       mkArrival (if bool_decide (left = []) then rest else left :: rest) (input_broken a))
  end.

Definition recv_fuel (a : arrival) : nat :=
  S (length (concat (pieces a)) + length (pieces a)).

Definition recv_measure (a : arrival) : nat := (length (concat (pieces a)) + length (pieces a))%nat.

(** One call of [recv] takes the front of what there is to receive. *)
Lemma recv_ok a room p a' :
  0 < room → recv a room = (Some p, a') →
  zlen p ≤ room ∧ concat (pieces a) = p ++ concat (pieces a') ∧ input_broken a' = input_broken a ∧
  (recv_measure a' < recv_measure a)%nat.
Proof.
  intros Hroom. unfold recv, recv_measure. destruct (pieces a) as [|q rest]; [done|]. intros [= <- <-].
  split; [unfold zlen; rewrite length_take; lia|]. cbn [pieces input_broken]. split.
  - case_bool_decide as He; cbn [concat].
    + by rewrite <-(take_drop (Z.to_nat room) q) at 1; rewrite He, app_nil_r.
    + by rewrite app_assoc, take_drop.
  - split; [done|]. case_bool_decide as He; cbn [concat length]; rewrite ?length_app, ?length_drop; [lia|].
    destruct (decide (Z.to_nat room < length q)%nat); [lia|]. exfalso. apply He, drop_ge. lia.
Qed.
