(* ===== verification/Tcp.v ===== *)
(** The connections of [src/tcp/tcp.c]: the code.  A server has an array of
    clients and a ring of events; a client may also stand alone.  Pointers
    into the arrays are indices, handles are the 32-bit words of the code, the
    answers of the system are arguments, and what is sent and closed is kept
    in a log. *)
From S2P Require Import Prelude Sockets ByteQueue.

(** ** Data *)

Definition TCP_INVALID : Z := 2 ^ 32 - 1.

Inductive TCPEventType : Set :=
  | TCP_EVENT_NONE | TCP_EVENT_DATA | TCP_EVENT_CONNECT | TCP_EVENT_DISCONNECT.

Record TCPEvent : Set := mkTCPEvent {
  type : TCPEventType;
  handle : Z;
}.

Definition MAX_SERVERS : Z := 1.
Definition MAX_CLIENTS : Z := 1.
Definition MAX_EVENTS_PER_CLIENT : Z := 3.

Inductive TCPServerState : Set := TCP_SERVER_FREE | TCP_SERVER_USED.

Inductive TCPClientState : Set :=
  | TCP_CLIENT_FREE | TCP_CLIENT_USED | TCP_CLIENT_HANGUP | TCP_CLIENT_CLOSE.

#[global] Instance TCPServerState_eq_dec : EqDecision TCPServerState.
Proof. solve_decision. Defined.
#[global] Instance TCPClientState_eq_dec : EqDecision TCPClientState.
Proof. solve_decision. Defined.

Record TCPClient : Type := mkTCPClient {
  state : TCPClientState;
  event_data : bool;
  event_disconnect : bool;
  gen : Z;
  fd : Z;
  user_ptr : Z;
  input : ByteQueue;
  output : ByteQueue;
}.

(** [s_clients] is [None] while there is no array: before the server is
    created and after it was deleted. *)
Record TCPServer : Type := mkTCPServer {
  s_state : TCPServerState;
  s_gen : Z;
  s_fd : Z;
  s_count : Z;
  s_capacity : Z;
  s_clients : option (list TCPClient);
  s_events_head : Z;
  s_events_count : Z;
  s_events : list TCPEvent;
}.

(** The static variables, and the log. *)
Record tcp : Type := mkTcp {
  servers : list TCPServer;
  clients : list TCPClient;
  net : list net_event;
}.

Definition with_state (c : TCPClient) (x : TCPClientState) : TCPClient :=
  mkTCPClient x (event_data c) (event_disconnect c) (gen c) (fd c) (user_ptr c) (input c) (output c).
Definition with_events (c : TCPClient) (d h : bool) : TCPClient :=
  mkTCPClient (state c) d h (gen c) (fd c) (user_ptr c) (input c) (output c).
Definition with_user_ptr (c : TCPClient) (x : Z) : TCPClient :=
  mkTCPClient (state c) (event_data c) (event_disconnect c) (gen c) (fd c) x (input c) (output c).
Definition with_input (c : TCPClient) (x : ByteQueue) : TCPClient :=
  mkTCPClient (state c) (event_data c) (event_disconnect c) (gen c) (fd c) (user_ptr c) x (output c).
Definition with_output (c : TCPClient) (x : ByteQueue) : TCPClient :=
  mkTCPClient (state c) (event_data c) (event_disconnect c) (gen c) (fd c) (user_ptr c) (input c) x.

Definition with_clients (s : TCPServer) (l : list TCPClient) : TCPServer :=
  mkTCPServer (s_state s) (s_gen s) (s_fd s) (s_count s) (s_capacity s) (Some l)
    (s_events_head s) (s_events_count s) (s_events s).
Definition with_ring (s : TCPServer) (h n : Z) (l : list TCPEvent) : TCPServer :=
  mkTCPServer (s_state s) (s_gen s) (s_fd s) (s_count s) (s_capacity s) (s_clients s) h n l.

Definition log (t : tcp) (e : net_event) : tcp := mkTcp (servers t) (clients t) (net t ++ [e]).

Definition set_server (t : tcp) (si : Z) (s : TCPServer) : outcome tcp :=
  l ← wr (servers t) si s; Ret (mkTcp l (clients t) (net t)).

(** A client: of the server of that index, or one that stands alone. *)
Definition client_ref : Type := option Z * Z.

Definition clients_of (s : TCPServer) : outcome (list TCPClient) :=
  match s_clients s with None => Fail OutOfBounds | Some l => Ret l end.

Definition get_client (t : tcp) (r : client_ref) : outcome TCPClient :=
  match r.1 with
  | None => rd (clients t) r.2
  | Some si => s ← rd (servers t) si; l ← clients_of s; rd l r.2
  end.

Definition set_client (t : tcp) (r : client_ref) (c : TCPClient) : outcome tcp :=
  match r.1 with
  | None => l ← wr (clients t) r.2 c; Ret (mkTcp (servers t) l (net t))
  | Some si =>
      s ← rd (servers t) si; l ← clients_of s; l ← wr l r.2 c; set_server t si (with_clients s l)
  end.

(** ** Handles *)

Definition GEN_UPPER_BOUND : Z := Z.shiftl 1 12.
Definition GEN_MASK : Z := GEN_UPPER_BOUND - 1.

Definition pack_handle (sdx idx gen typ : Z) : outcome Z :=
  _ ← c_assert (typ <? Z.shiftl 1 1);
  _ ← c_assert (sdx <? Z.shiftl 1 4);
  _ ← c_assert (idx <? Z.shiftl 1 14);
  _ ← c_assert (gen <? GEN_UPPER_BOUND);
  Ret (Z.lor (Z.lor (Z.lor (u32 (Z.shiftl typ 31)) (u32 (Z.shiftl sdx 27)))
    (u32 (Z.shiftl idx 12))) (u32 (Z.shiftl gen 1))).

(** The fields [idx], [sdx], [gen] and [typ]. *)
Definition unpack_handle (handle : Z) : Z * Z * Z * Z :=
  (Z.land (Z.shiftr handle 12) 0x3FFF, Z.land (Z.shiftr handle 27) 0xF,
   Z.land (Z.shiftr handle 1) GEN_MASK, Z.shiftr handle 31).

Definition handle_for_server (si : Z) (s : TCPServer) : outcome Z := pack_handle 0 si (s_gen s) 1.

Definition handle_for_client (r : client_ref) (c : TCPClient) : outcome Z :=
  pack_handle (match r.1 with Some si => 1 + si | None => 0 end) r.2 (gen c) 0.

Definition server_from_handle (t : tcp) (handle : Z) : outcome (option Z) :=
  if handle =? TCP_INVALID then Ret None
  else
    let '(idx, sdx, gen, typ) := unpack_handle handle in
    if negb (typ =? 1) then Ret None
    else if MAX_SERVERS <=? idx then Ret None
    else
      s ← rd (servers t) idx;
      if negb (s_gen s =? gen) then Ret None
      else _ ← c_assert (bool_decide (s_state s = TCP_SERVER_USED)); Ret (Some idx).

(** The client, and what the variable [*server] was set to: [None] where it
    was left as it was. *)
Definition client_from_handle (t : tcp) (handle : Z)
    : outcome (option client_ref * option (option Z)) :=
  if handle =? TCP_INVALID then Ret (None, Some None)
  else
    let '(idx, sdx, gen', typ) := unpack_handle handle in
    if negb (typ =? 0) then Ret (None, None)
    else if sdx =? 0 then
      if MAX_CLIENTS <=? idx then Ret (None, None)
      else
        c ← rd (clients t) idx;
        _ ← c_assert (negb (bool_decide (state c = TCP_CLIENT_FREE)));
        Ret (Some (None, idx), Some None)
    else
      let sdx := sdx - 1 in
      if MAX_SERVERS <=? sdx then Ret (None, None)
      else
        s ← rd (servers t) sdx;
        if u32 (s_capacity s) <=? idx then Ret (None, None)
        else
          l ← clients_of s;
          c ← rd l idx;
          if negb (gen' =? gen c) then Ret (None, None)
          else
            _ ← c_assert (negb (bool_decide (state c = TCP_CLIENT_FREE)));
            Ret (Some (Some sdx, idx), Some (Some sdx)).

(** [if (client == NULL) abort();] *)
Definition client_or_abort (t : tcp) (handle : Z) : outcome client_ref :=
  '(r, _) ← client_from_handle t handle;
  match r with None => Fail Aborted | Some r => Ret r end.

Definition server_or_abort (t : tcp) (handle : Z) : outcome Z :=
  r ← server_from_handle t handle;
  match r with None => Fail Aborted | Some si => Ret si end.

(** The first element that is free. *)
Fixpoint first_free {A} (free : A → bool) (l : list A) (i : Z) : outcome Z :=
  match l with
  | [] => Fail Aborted
  | x :: l => if free x then Ret i else first_free free l (i + 1)
  end.

Definition get_server_struct (t : tcp) : outcome Z :=
  first_free (λ s, bool_decide (s_state s = TCP_SERVER_FREE)) (servers t) 0.

Definition get_client_struct (t : tcp) : outcome Z :=
  first_free (λ c, bool_decide (state c = TCP_CLIENT_FREE)) (clients t) 0.

(** ** Servers *)

(** What the calls answer that set a socket up: [socket], whether the address
    can be parsed, [bind] and [listen] (or [connect]) succeed, and the socket
    can be made non-blocking. *)
Record setup : Type := mkSetup {
  socket_fd : Z;
  addr_ok : bool;
  bind_ok : bool;
  listen_ok : bool;
  nonblocking_ok : bool;
}.

(** [mem] is the block that [malloc] returns, as the two arrays. *)
Definition tcp_server_create (t : tcp) (sys : setup) (max_clients : Z)
    (mem : option (list TCPClient * list TCPEvent)) : outcome (tcp * Z) :=
  si ← get_server_struct t;
  if negb (addr_ok sys && bind_ok sys && listen_ok sys && nonblocking_ok sys) then
    Ret (log t (Closed (socket_fd sys)), TCP_INVALID)
  else
    match mem with
    | None => Ret (log t (Closed (socket_fd sys)), TCP_INVALID)
    | Some (cl, evs) =>
        s ← rd (servers t) si;
        let cl := (λ c, mkTCPClient TCP_CLIENT_FREE (event_data c) (event_disconnect c) 1 (-1)
                          (user_ptr c) (input c) (output c)) <$> cl in
        let s := mkTCPServer TCP_SERVER_USED (s_gen s) (socket_fd sys) 0 max_clients (Some cl) 0 0 evs in
        t ← set_server t si s;
        h ← handle_for_server si s;
        Ret (t, h)
    end.

Definition next_gen (g : Z) : Z := let g := u16 (g + 1) in if g =? GEN_UPPER_BOUND then 0 else g.

Definition tcp_server_delete (t : tcp) (handle : Z) : outcome tcp :=
  si ← server_or_abort t handle;
  s ← rd (servers t) si;
  l ← clients_of s;
  l ← rd_range l 0 (Z.max 0 (s_capacity s));
  let closed := omap (λ c, if -1 <? fd c then Some (Closed (fd c)) else None) l in
  let t := mkTcp (servers t) (clients t) (net t ++ closed ++ [Closed (s_fd s)]) in
  set_server t si (mkTCPServer TCP_SERVER_FREE (next_gen (s_gen s)) (s_fd s) (s_count s) (s_capacity s)
    None (s_events_head s) (s_events_count s) (s_events s)).

Definition push_event (t : tcp) (si ci : Z) (type : TCPEventType) : outcome tcp :=
  c ← get_client t (Some si, ci);
  h ← handle_for_client (Some si, ci) c;
  s ← rd (servers t) si;
  events_capacity ← int (s_capacity s * MAX_EVENTS_PER_CLIENT);
  _ ← c_assert (s_events_count s <? events_capacity);
  evs ← wr (s_events s) (Z.rem (s_events_head s + s_events_count s) events_capacity) (mkTCPEvent type h);
  set_server t si (with_ring s (s_events_head s) (s_events_count s + 1) evs).

Definition free_client (t : tcp) (r : client_ref) : outcome tcp :=
  c ← get_client t r;
  set_client (log t (Closed (fd c))) r
    (mkTCPClient TCP_CLIENT_FREE (event_data c) (event_disconnect c) (next_gen (gen c)) (-1) (user_ptr c)
       (byte_queue_free (input c)) (byte_queue_free (output c))).

(** ** Input and output *)

(** The queue, the answer, and [*moved] where it is set. *)
Definition receive_step (malloc : allocator) (st : ByteQueue * arrival)
    : outcome (ByteQueue * arrival + ByteQueue * Z) :=
  let '(q, a) := st in
  '(q, ok) ← byte_queue_ensure_min_free_space malloc q 256;
  if negb ok then break (q, -1)
  else
    match recv a (byte_queue_free_space q) with
    | (None, a) => break (q, if input_broken a then -1 else 1)
    | (Some p, a) =>
        if zlen p =? 0 then break (q, 0)
        else
          d ← wr_range (data q) (byte_queue_start_write q) p;
          continue (byte_queue_end_write (mkByteQueue d (head q) (size q) (capacity q)) (zlen p), a)
    end.

Definition move_bytes_from_socket_to_queue (malloc : allocator) (q : ByteQueue) (a : arrival)
    : outcome (ByteQueue * Z * option Z) :=
  let start := byte_queue_used_space q in
  '(q, ret) ← loop (recv_fuel a) (receive_step malloc) (q, a);
  Ret (q, ret, if ret =? -1 then None else Some (u64 (byte_queue_used_space q - start))).

Definition transmit_step (st : ByteQueue * Z * departure * list Z)
    : outcome (ByteQueue * Z * departure * list Z + ByteQueue * list Z * bool) :=
  let '(q, zeros, d, sent) := st in
  if negb (0 <? byte_queue_used_space q) then break (q, sent, true)
  else
    let src := byte_queue_start_read q in
    let len := byte_queue_used_space q in
    match takes d with
    | [] => break (q, sent, negb (output_broken d))
    | n :: rest =>
        let n := Z.min (Z.of_nat n) len in
        let d := mkDeparture rest (output_broken d) in
        if n =? 0 then
          let zeros := zeros + 1 in
          if zeros =? 10 then break (q, sent, false) else continue (byte_queue_end_read q n, zeros, d, sent)
        else
          bytes ← rd_range (data q) src n;
          continue (byte_queue_end_read q n, 0, d, sent ++ bytes)
    end.

(** The queue, what was sent, and whether the connection is in order. *)
Definition move_bytes_from_queue_to_socket (q : ByteQueue) (d : departure)
    : outcome (ByteQueue * list Z * bool) :=
  loop (S (length (takes d))) transmit_step (q, 0, d, []).

Definition POLLIN : Z := 1.
Definition POLLOUT : Z := 4.
Definition POLLHUP : Z := 16.

Definition flag (bits mask : Z) : bool := negb (Z.land bits mask =? 0).

(** What [accept] answers: a connection, and whether it can be made
    non-blocking, or a failure that is not the end of the waiting ones. *)
Inductive accept_answer : Type :=
  | Accepted (fd : Z) (nonblocking : bool)
  | AcceptFailed.

(** The answers to the calls of one poll: [poll] for the descriptors and the
    events asked for ([None] when it reports none of them), [accept], and by
    client [recv] and [send]; [junk] is in a variable that was never set. *)
Record poll_round : Type := mkPollRound {
  polled : list (Z * Z) → option (list Z);
  accepts : list accept_answer;
  arrivals : Z → arrival;
  departures : Z → departure;
  junk : Z;
}.

(** The events a client is polled for, [None] for one that is not. *)
Definition poll_events (c : TCPClient) : option Z :=
  match state c with
  | TCP_CLIENT_FREE | TCP_CLIENT_HANGUP => None
  | TCP_CLIENT_USED =>
      Some (Z.lor (Z.lor POLLIN POLLHUP) (if 0 <? byte_queue_used_space (output c) then POLLOUT else 0))
  | TCP_CLIENT_CLOSE => Some (Z.lor POLLOUT POLLHUP)
  end.

Definition MAX_POLL : Z := 128.

(** The clients of [l] from [i] on that are polled, with their descriptors;
    [n] are in the array already. *)
Fixpoint poll_clients (l : list TCPClient) (i n : Z) : outcome (list (Z * (Z * Z))) :=
  match l with
  | [] => Ret []
  | c :: l =>
      match poll_events c with
      | None => poll_clients l (i + 1) n
      | Some ev =>
          if MAX_POLL - 1 <=? n then Fail OutOfBounds
          else rest ← poll_clients l (i + 1) (n + 1); Ret ((i, (fd c, ev)) :: rest)
      end
  end.

(** The first free client, under [assert(i < server->capacity)]. *)
Definition free_slot (l : list TCPClient) (capacity : Z) : outcome Z :=
  loop (S (length l))
    (λ i,
       c ← rd l i;
       if bool_decide (state c = TCP_CLIENT_FREE) then break i
       else _ ← c_assert (i + 1 <? capacity); continue (i + 1))
    0.

Definition accept_client (t : tcp) (si : Z) (new_fd : Z) : outcome tcp :=
  s ← rd (servers t) si;
  l ← clients_of s;
  i ← free_slot l (s_capacity s);
  c ← rd l i;
  l ← wr l i (mkTCPClient TCP_CLIENT_USED (event_data c) (event_disconnect c) (gen c) new_fd 0
                byte_queue_init byte_queue_init);
  t ← set_server t si (mkTCPServer (s_state s) (s_gen s) (s_fd s) (s_count s + 1) (s_capacity s) (Some l)
                         (s_events_head s) (s_events_count s) (s_events s));
  push_event t si i TCP_EVENT_CONNECT.

Fixpoint accept_clients (t : tcp) (si : Z) (answers : list accept_answer) : outcome tcp :=
  s ← rd (servers t) si;
  if negb (s_count s <? s_capacity s) then Ret t
  else
    match answers with
    | [] => Ret t
    | AcceptFailed :: answers => accept_clients t si answers
    | Accepted new_fd nonblocking :: answers =>
        if negb nonblocking then accept_clients (log t (Closed new_fd)) si answers
        else t ← accept_client t si new_fd; accept_clients t si answers
    end.

Definition poll_input (malloc : allocator) (r : poll_round) (t : tcp) (si ci revents : Z) : outcome tcp :=
  c ← get_client t (Some si, ci);
  if bool_decide (state c = TCP_CLIENT_FREE) then Ret t
  else if flag revents (Z.lor POLLIN POLLHUP) then
    '(q, ret, moved) ← move_bytes_from_socket_to_queue malloc (input c) (arrivals r ci);
    t ← set_client t (Some si, ci) (with_input c q);
    _ ← c_assert ((ret =? -1) || (ret =? 0) || (ret =? 1));
    t ← (if 0 <? default (junk r) moved then push_event t si ci TCP_EVENT_DATA else Ret t);
    if (ret =? 0) || (ret =? -1) then
      t ← set_client t (Some si, ci) (with_state (with_input c q) TCP_CLIENT_HANGUP);
      push_event t si ci TCP_EVENT_DISCONNECT
    else Ret t
  else Ret t.

Definition poll_output (r : poll_round) (t : tcp) (si ci revents : Z) : outcome tcp :=
  c ← get_client t (Some si, ci);
  if negb (bool_decide (state c = TCP_CLIENT_USED) || bool_decide (state c = TCP_CLIENT_CLOSE)) then Ret t
  else if flag revents POLLOUT then
    '(q, sent, ok) ← move_bytes_from_queue_to_socket (output c) (departures r ci);
    let error := negb ok in
    let c := with_output c q in
    t ← set_client (log t (Sent (fd c) sent)) (Some si, ci) c;
    if bool_decide (state c = TCP_CLIENT_CLOSE) then
      if error || (byte_queue_used_space q =? 0) then free_client t (Some si, ci) else Ret t
    else
      _ ← c_assert (bool_decide (state c = TCP_CLIENT_USED));
      if error then
        t ← set_client t (Some si, ci) (with_state c TCP_CLIENT_HANGUP);
        push_event t si ci TCP_EVENT_DISCONNECT
      else Ret t
  else Ret t.

(** [f] for the polled clients, each with its [revents]. *)
Fixpoint for_polled (f : tcp → Z → Z → outcome tcp) (t : tcp) (cis revents : list Z) : outcome tcp :=
  match cis with
  | [] => Ret t
  | ci :: cis =>
      t ← f t ci (match revents with [] => 0 | e :: _ => e end);
      for_polled f t cis (tail revents)
  end.

Definition tcp_server_poll (malloc : allocator) (t : tcp) (handle : Z) (r : poll_round) : outcome tcp :=
  si ← server_or_abort t handle;
  s ← rd (servers t) si;
  _ ← c_assert (s_events_count s =? 0);
  if MAX_POLL <=? s_count s then Fail Aborted
  else
    l ← clients_of s;
    l ← rd_range l 0 (s_capacity s);
    descs ← poll_clients l 0 0;
    match polled r (descs.*2 ++ [(s_fd s, POLLIN)]) with
    | None => Ret t
    | Some revents =>
        t ← (if flag (nth (length descs) revents 0) POLLIN then accept_clients t si (accepts r) else Ret t);
        t ← for_polled (λ t ci e, poll_input malloc r t si ci e) t descs.*1 revents;
        for_polled (λ t ci e, poll_output r t si ci e) t descs.*1 revents
    end.

Definition tcp_server_event (t : tcp) (handle : Z) : outcome (tcp * TCPEvent) :=
  si ← server_or_abort t handle;
  s ← rd (servers t) si;
  if s_events_count s =? 0 then Ret (t, mkTCPEvent TCP_EVENT_NONE TCP_INVALID)
  else
    event ← rd (s_events s) (s_events_head s);
    events_capacity ← int (s_capacity s * MAX_EVENTS_PER_CLIENT);
    t ← set_server t si (with_ring s (Z.rem (s_events_head s + 1) events_capacity) (s_events_count s - 1) (s_events s));
    Ret (t, event).

(** ** Clients *)

Definition tcp_client_close (t : tcp) (handle : Z) : outcome tcp :=
  r ← client_or_abort t handle;
  c ← get_client t r;
  if bool_decide (state c = TCP_CLIENT_HANGUP) || (byte_queue_used_space (output c) =? 0) then free_client t r
  else
    match r.1 with
    | Some _ => set_client t r (with_state c TCP_CLIENT_CLOSE)
    | None => free_client t r
    end.

(** The offset in the array of the input. *)
Definition tcp_client_get_input_data (t : tcp) (handle : Z) : outcome Z :=
  r ← client_or_abort t handle; c ← get_client t r; Ret (byte_queue_start_read (input c)).

Definition tcp_client_get_input_size (t : tcp) (handle : Z) : outcome Z :=
  r ← client_or_abort t handle; c ← get_client t r; Ret (byte_queue_used_space (input c)).

Definition tcp_client_get_user_ptr (t : tcp) (handle : Z) : outcome Z :=
  r ← client_or_abort t handle; c ← get_client t r; Ret (user_ptr c).

Definition tcp_client_set_user_ptr (t : tcp) (handle ptr : Z) : outcome tcp :=
  r ← client_or_abort t handle; c ← get_client t r; set_client t r (with_user_ptr c ptr).

Definition tcp_client_read (t : tcp) (handle num : Z) : outcome tcp :=
  r ← client_or_abort t handle;
  c ← get_client t r;
  set_client t r (with_input c (byte_queue_end_read (input c) num)).

Definition tcp_client_write (malloc : allocator) (t : tcp) (handle : Z) (bytes : list Z) : outcome tcp :=
  r ← client_or_abort t handle;
  c ← get_client t r;
  if negb (bool_decide (state c = TCP_CLIENT_USED)) then Ret t
  else
    '(q, ok) ← put malloc (output c) bytes;
    if negb ok then Fail Aborted else set_client t r (with_output c q).

(** [bind_ok] stands for [connect]. *)
Definition tcp_client_create (t : tcp) (sys : setup) : outcome (tcp * Z) :=
  ci ← get_client_struct t;
  if socket_fd sys <? 0 then Ret (t, TCP_INVALID)
  else if negb (addr_ok sys && bind_ok sys && nonblocking_ok sys) then
    Ret (log t (Closed (socket_fd sys)), TCP_INVALID)
  else
    c ← get_client t (None, ci);
    let c := mkTCPClient TCP_CLIENT_USED false false (gen c) (socket_fd sys) 0 byte_queue_init byte_queue_init in
    t ← set_client t (None, ci) c;
    h ← handle_for_client (None, ci) c;
    Ret (t, h).

(** The client of a handle in the functions for clients that stand alone;
    where [server] was not set its value is anything. *)
Definition stand_alone (t : tcp) (handle : Z) : outcome client_ref :=
  '(r, server) ← client_from_handle t handle;
  match server with
  | None => Fail Undefined
  | Some (Some _) => Fail Aborted
  | Some None => match r with None => Fail NullDeref | Some r => Ret r end
  end.

(** [answer] is what [poll] reports for a descriptor, [None] for a failure. *)
Definition tcp_client_poll (malloc : allocator) (t : tcp) (handle : Z)
    (answer : Z * Z → option Z) (a : arrival) (d : departure) (junk : Z) : outcome tcp :=
  r ← stand_alone t handle;
  c ← get_client t r;
  _ ← c_assert (bool_decide (state c = TCP_CLIENT_USED) || bool_decide (state c = TCP_CLIENT_HANGUP));
  if event_data c || event_disconnect c then Ret t
  else
    let events := Z.lor (Z.lor POLLIN POLLHUP) (if 0 <? byte_queue_used_space (output c) then POLLOUT else 0) in
    match answer (fd c, events) with
    | None => Fail Aborted
    | Some revents =>
        c ← (if flag revents (Z.lor POLLIN POLLHUP) then
               '(q, ret, moved) ← move_bytes_from_socket_to_queue malloc (input c) a;
               _ ← c_assert ((ret =? -1) || (ret =? 0) || (ret =? 1));
               let c := with_input c q in
               let c := if 0 <? default junk moved then with_events c true (event_disconnect c) else c in
               Ret (if (ret =? 0) || (ret =? -1)
                    then with_events (with_state c TCP_CLIENT_HANGUP) (event_data c) true else c)
             else Ret c);
        t ← set_client t r c;
        if flag revents POLLOUT then
          '(q, sent, ok) ← move_bytes_from_queue_to_socket (output c) d;
          let error := negb ok in
          let c := with_output c q in
          t ← set_client (log t (Sent (fd c) sent)) r c;
          if bool_decide (state c = TCP_CLIENT_CLOSE) then
            if error || (byte_queue_used_space q =? 0) then free_client t r else Ret t
          else
            _ ← c_assert (bool_decide (state c = TCP_CLIENT_USED));
            if error then set_client t r (with_events (with_state c TCP_CLIENT_HANGUP) (event_data c) true)
            else Ret t
        else Ret t
    end.

Definition tcp_client_event (t : tcp) (handle : Z) : outcome (tcp * TCPEvent) :=
  r ← stand_alone t handle;
  c ← get_client t r;
  if event_data c then
    t ← set_client t r (with_events c false (event_disconnect c)); Ret (t, mkTCPEvent TCP_EVENT_DATA handle)
  else if event_disconnect c then
    t ← set_client t r (with_events c (event_data c) false); Ret (t, mkTCPEvent TCP_EVENT_DISCONNECT handle)
  else Ret (t, mkTCPEvent TCP_EVENT_NONE TCP_INVALID).
