(* ===== verification/TcpHandle.v ===== *)
(** The handles of [Tcp]: which of them lead back to their object. *)
From S2P Require Import Prelude Bits Tcp.

Lemma land_1 x : Z.land x 1 = Z.b2z (Z.odd x).
Proof. change 1 with (Z.ones 1). rewrite Z.land_ones, Z.pow_1_r, Zmod_odd by lia. by destruct (Z.odd x). Qed.

(** The fields that a handle made of the given ones has. *)
Definition handle_fields (sdx idx gen typ : Z) : Z * Z * Z * Z :=
  (Z.lor idx (Z.shiftr gen 11), sdx, Z.lor gen (Z.shiftl (Z.land idx 1) 11), typ).

Definition packed (sdx idx gen typ : Z) : Z :=
  Z.lor (Z.lor (Z.lor (Z.shiftl typ 31) (Z.shiftl sdx 27)) (Z.shiftl idx 12)) (Z.shiftl gen 1).

Lemma pack_handle_eq sdx idx gen typ :
  0 ≤ sdx < 16 → 0 ≤ idx < 2 ^ 14 → 0 ≤ gen < 2 ^ 12 → 0 ≤ typ < 2 →
  pack_handle sdx idx gen typ = Ret (packed sdx idx gen typ).
Proof.
  intros Hs Hi Hg Ht. unfold pack_handle, packed.
  change (Z.shiftl 1 1) with 2. change (Z.shiftl 1 4) with 16. change (Z.shiftl 1 14) with (2 ^ 14).
  change GEN_UPPER_BOUND with (2 ^ 12).
  rewrite (proj2 (Z.ltb_lt typ 2)), (proj2 (Z.ltb_lt sdx 16)), (proj2 (Z.ltb_lt idx (2 ^ 14))),
    (proj2 (Z.ltb_lt gen (2 ^ 12))) by lia.
  cbn [c_assert mbind outcome_bind]. by rewrite !u32_small by (rewrite Z.shiftl_mul_pow2 by lia; lia).
Qed.

Lemma packed_bit sdx idx gen typ n :
  0 ≤ n → Z.testbit (packed sdx idx gen typ) n =
    Z.testbit typ (n - 31) || Z.testbit sdx (n - 27) || Z.testbit idx (n - 12) || Z.testbit gen (n - 1).
Proof. intros Hn. unfold packed. by rewrite !Z.lor_spec, !Z.shiftl_spec by lia. Qed.

Section fields.
Context (sdx idx gen typ : Z).
Context (Hs : 0 ≤ sdx < 2 ^ 4) (Hi : 0 ≤ idx < 2 ^ 14) (Hg : 0 ≤ gen < 2 ^ 12) (Ht : 0 ≤ typ < 2 ^ 1).

Lemma field_idx : Z.land (Z.shiftr (packed sdx idx gen typ) 12) 0x3FFF = Z.lor idx (Z.shiftr gen 11).
Proof.
  change 0x3FFF with (Z.ones 14). apply Z.bits_inj'. intros n Hn.
  rewrite Z.land_spec, testbit_ones, Z.lor_spec, !Z.shiftr_spec, packed_bit by lia.
  replace (n + 12 - 12) with n by lia. replace (n + 12 - 1) with (n + 11) by lia.
  destruct (Z.ltb_spec n 14).
  - by rewrite !(Z.testbit_neg_r _ (n + 12 - _)), andb_true_r by lia.
  - by rewrite (testbit_high 14 idx), (testbit_high 12 gen), andb_false_r by lia.
Qed.

Lemma field_sdx : Z.land (Z.shiftr (packed sdx idx gen typ) 27) 0xF = sdx.
Proof.
  change 0xF with (Z.ones 4). apply Z.bits_inj'. intros n Hn.
  rewrite Z.land_spec, testbit_ones, Z.shiftr_spec, packed_bit by lia. replace (n + 27 - 27) with n by lia.
  rewrite (testbit_high 14 idx), (testbit_high 12 gen) by lia. destruct (Z.ltb_spec n 4).
  - by rewrite (Z.testbit_neg_r _ (n + 27 - 31)), andb_true_r, !orb_false_r by lia.
  - by rewrite (testbit_high 4 sdx), andb_false_r by lia.
Qed.

Lemma field_gen :
  Z.land (Z.shiftr (packed sdx idx gen typ) 1) GEN_MASK = Z.lor gen (Z.shiftl (Z.land idx 1) 11).
Proof.
  change GEN_MASK with (Z.ones 12). apply Z.bits_inj'. intros n Hn.
  rewrite Z.land_spec, testbit_ones, Z.lor_spec, Z.shiftl_spec, Z.shiftr_spec, packed_bit by lia.
  replace (n + 1 - 1) with n by lia. replace (n + 1 - 12) with (n - 11) by lia.
  destruct (Z.ltb_spec n 12).
  - rewrite !(Z.testbit_neg_r _ (n + 1 - _)), andb_true_r by lia. cbn [orb].
    rewrite orb_comm. f_equal. destruct (Z.lt_ge_cases n 11); [by rewrite !Z.testbit_neg_r by lia|].
    replace (n - 11) with 0 by lia. rewrite Z.land_spec. by rewrite andb_true_r.
  - rewrite (testbit_high 12 gen), andb_false_r by lia. symmetry. cbn [orb].
    apply (testbit_high 1); [|lia]. rewrite land_1. by destruct (Z.odd idx).
Qed.

Lemma field_typ : Z.shiftr (packed sdx idx gen typ) 31 = typ.
Proof.
  apply Z.bits_inj'. intros n Hn. rewrite Z.shiftr_spec, packed_bit by lia.
  replace (n + 31 - 31) with n by lia.
  by rewrite (testbit_high 4 sdx), (testbit_high 14 idx), (testbit_high 12 gen), !orb_false_r by lia.
Qed.

Lemma unpack_packed : unpack_handle (packed sdx idx gen typ) = handle_fields sdx idx gen typ.
Proof. unfold unpack_handle, handle_fields. by rewrite field_idx, field_sdx, field_gen, field_typ. Qed.

Lemma packed_valid : packed sdx idx gen typ ≠ TCP_INVALID.
Proof.
  intros H. assert (Z.testbit (packed sdx idx gen typ) 0 = Z.testbit TCP_INVALID 0) as Hb by by rewrite H.
  rewrite packed_bit in Hb by lia. rewrite !Z.testbit_neg_r in Hb by lia. done.
Qed.
End fields.

(** The top bit of the generation and the lowest bit of the index share a
    place: the fields are what they were when the bits agree. *)
Lemma handle_fields_same sdx idx gen typ :
  0 ≤ idx < 2 ^ 14 → 0 ≤ gen < 2 ^ 12 →
  handle_fields sdx idx gen typ = (idx, sdx, gen, typ) ↔ Z.odd idx = (2 ^ 11 <=? gen).
Proof.
  intros Hi Hg. unfold handle_fields.
  rewrite land_1.
  assert (Z.shiftr gen 11 = Z.b2z (2 ^ 11 <=? gen)) as ->.
  { rewrite Z.shiftr_div_pow2 by lia. destruct (Z.leb_spec (2 ^ 11) gen); simpl Z.b2z.
    - symmetry. apply (Z.div_unique gen (2 ^ 11) 1 (gen - 2 ^ 11)); lia.
    - apply Z.div_small; lia. }
  split.
  - intros [= H1 H2]. destruct (Z.odd idx) eqn:Ho, (Z.leb_spec (2 ^ 11) gen) as [|Hlt]; try done; exfalso.
    + assert (Z.testbit gen 11 = true) as Hb by (rewrite <- H2, Z.lor_spec; change (Z.testbit (Z.shiftl (Z.b2z true) 11) 11) with true; apply orb_true_r).
      rewrite (testbit_high 11 gen) in Hb by lia. done.
    + assert (Z.testbit idx 0 = true) as Hb by (rewrite <- H1, Z.lor_spec; apply orb_true_r).
      by rewrite Z.bit0_odd, Ho in Hb.
  - intros Heq. rewrite <- Heq. destruct (Z.odd idx) eqn:Ho; simpl Z.b2z.
    + repeat f_equal.
      * apply Z.bits_inj'. intros n Hn. rewrite Z.lor_spec. destruct (decide (n = 0)) as [->|].
        -- by rewrite Z.bit0_odd, Ho.
        -- change 1 with (2 ^ 0) at 1. rewrite testbit_pow2 by lia. rewrite (proj2 (Z.eqb_neq n 0)) by done. apply orb_false_r.
      * change (Z.shiftl 1 11) with (2 ^ 11). apply Z.bits_inj'. intros n Hn. rewrite Z.lor_spec, testbit_pow2 by lia.
        destruct (Z.eqb_spec n 11) as [->|]; [|apply orb_false_r]. rewrite orb_true_r. symmetry.
        symmetry in Heq. apply Z.leb_le in Heq. rewrite Z.testbit_true by lia.
        by rewrite <- (Z.div_unique gen (2 ^ 11) 1 (gen - 2 ^ 11)) by lia.
    + change (Z.shiftl 0 11) with 0. by rewrite !Z.lor_0_r.
Qed.
