(* ===== verification/TcpSafe.v ===== *)
(** The connections of [Tcp]: what the transfers between a socket and a queue
    do, the invariant of a server, and what its operations keep of it. *)
From S2P Require Import Prelude Sockets ByteQueue Tcp TcpHandle.
#[global] Open Scope Z_scope.

(** ** The queues of a connection *)

(** A block has fewer than 2^48 bytes, as many as there are addresses. *)
Definition allocator_ok (malloc : allocator) : Prop :=
  ∀ n block, malloc n = Some block → zlen block = n ∧ n < 2 ^ 48.

(** A queue that holds some bytes; after a resize that shifts them these need
    not be the bytes that were written. *)
Definition queue_ok (q : ByteQueue) : Prop := (∃ xs, content q xs) ∧ capacity q < 2 ^ 48.

Lemma queue_init_ok : queue_ok byte_queue_init.
Proof. split; [exists []; apply content_init|done]. Qed.

Lemma content_unique q xs ys : content q xs → content q ys → xs = ys.
Proof.
  intros Hx Hy. destruct (content_bounds _ _ Hx) as (_ & _ & _ & _ & _ & _ & _ & Hrx).
  destruct (content_bounds _ _ Hy) as (_ & _ & _ & _ & _ & _ & _ & Hry). congruence.
Qed.

(** Fields of the right size are enough. *)
Lemma content_any d h n :
  0 ≤ h → 0 ≤ n → h + n ≤ zlen d → zlen d < 2 ^ 48 → queue_ok (mkByteQueue d h n (zlen d)).
Proof.
  intros Hh Hn Hfit Hmax. destruct (list_split3 d h n) as (pre & xs & post & Hd & Hpre & Hxs & _); [lia..|].
  split; [|done]. exists xs, pre, post. cbn. split_and!; [done|done|done|done|lia].
Qed.

Lemma allocator_malloc_ok malloc : allocator_ok malloc → malloc_ok malloc.
Proof. intros Hm n block _ Hb. by destruct (Hm n block Hb). Qed.

(** Whatever [ensure] has to do, the result is a queue of as many bytes; if no
    bytes are shifted, of the same ones, with the space asked for. *)
Lemma ensure_any malloc q num :
  allocator_ok malloc → queue_ok q → 0 ≤ num < 2 ^ 60 →
  wp (byte_queue_ensure_min_free_space malloc q num) (λ '(q', r),
    queue_ok q' ∧ size q' = size q ∧ (head q = 0 → head q' = 0)).
Proof.
  intros Hm [[xs Hq] Hcap] Hnum. destruct (content_bounds _ _ Hq) as (? & Hs & ? & ? & Hc & _ & Hf & Hrd).
  unfold byte_queue_ensure_min_free_space. fold (byte_queue_free_space q). rewrite Hf.
  rewrite !(u64_small (capacity q - size q)) by lia.
  destruct (Z.ltb_spec (capacity q - size q - head q) num); [|split; [split; [by exists xs|done]|done]].
  rewrite Hrd. destruct (Z.ltb_spec (capacity q - size q) num).
  - rewrite (u64_small (2 * _)), (u64_small (_ - size q)), (u64_small (size q + num)) by lia.
    set (cap := if _ <? _ then _ else _).
    assert (size q + num ≤ cap ∧ capacity q ≤ cap) as [Hc1 Hc2].
    { unfold cap. destruct (Z.ltb_spec (2 * capacity q - size q) num); lia. }
    destruct (malloc cap) as [block|] eqn:Hb; [|split; [split; [by exists xs|done]|done]].
    destruct (Hm _ _ Hb) as [Hlen Hmax]. cbn [mbind outcome_bind].
    assert (∃ d, (if 0 <? size q then wr_range block 0 xs else Ret block) = Ret d ∧ zlen d = cap) as (d & -> & Hd).
    { destruct (0 <? size q); [|by exists block]. pose proof (wr_range_ok block 0 xs ltac:(lia) ltac:(lia)) as Hw.
      rewrite Hw. eexists. split; [done|]. by apply wr_range_inv in Hw as [-> _]. }
    cbn [mbind outcome_bind wp]. split; [|done]. rewrite <- Hd. apply content_any; lia.
  - cbn [mbind outcome_bind]. pose proof (wr_range_ok (data q) 0 xs ltac:(lia) ltac:(lia)) as Hw.
    destruct (wr_range_inv _ _ _ _ Hw) as [Hd _]. rewrite Hw. cbn [mbind outcome_bind wp]. split; [|done].
    rewrite Hc, <- Hd. apply content_any; lia.
Qed.

Lemma ensure_front malloc q xs num :
  allocator_ok malloc → content q xs → head q = 0 → capacity q < 2 ^ 48 → 0 ≤ num < 2 ^ 60 →
  wp (byte_queue_ensure_min_free_space malloc q num) (λ '(q', r),
    content q' xs ∧ capacity q' < 2 ^ 48 ∧ head q' = 0 ∧ (r = true → num ≤ byte_queue_free_space q')).
Proof.
  intros Hm Hq Hh Hcap Hnum.
  pose proof (ensure_ok malloc q xs num Hq (allocator_malloc_ok _ Hm) ltac:(lia) ltac:(lia) (or_introl Hh)) as H1.
  pose proof (ensure_any malloc q num Hm (conj (ex_intro _ xs Hq) Hcap) Hnum) as H2.
  eapply wp_mono; [exact (wp_conj _ _ _ H1 H2)|]. intros [q' r] [(? & ? & _) ([_ ?] & _ & ?)]. by split_and!; auto.
Qed.

(** What has come in is put behind the content. *)
Lemma write_received q p :
  queue_ok q → zlen p ≤ byte_queue_free_space q →
  ∃ d, wr_range (data q) (byte_queue_start_write q) p = Ret d ∧
    let q' := byte_queue_end_write (mkByteQueue d (head q) (size q) (capacity q)) (zlen p) in
    queue_ok q' ∧ head q' = head q ∧ capacity q' = capacity q ∧ size q' = size q + zlen p ∧
    ∀ xs, content q xs → content q' (xs ++ p).
Proof.
  intros [[xs Hq] Hcap] Hp. destruct (content_bounds _ _ Hq) as (? & ? & ? & ? & Hc & _ & Hf & _).
  rewrite Hf in Hp. pose proof (zlen_nonneg p).
  assert (∃ d, wr_range (data q) (byte_queue_start_write q) p = Ret d ∧
    content (byte_queue_end_write (mkByteQueue d (head q) (size q) (capacity q)) (zlen p)) (xs ++ p)) as (d & Hd & Hd').
  { destruct Hq as (pre & post & Hdata & Hh & Hs & _ & ?). rewrite Hdata, !zlen_app in Hc.
    destruct (list_split3 post 0 (zlen p)) as (p0 & p1 & p2 & -> & ->%zlen_0_inv & Hp1 & _); [lia..|].
    unfold byte_queue_start_write. rewrite Hdata. change ([] ++ p1 ++ p2) with (p1 ++ p2).
    rewrite (app_assoc pre), wr_range_app by (rewrite ?zlen_app; lia). eexists. split; [done|].
    exists pre, p2. cbn. rewrite <-!app_assoc, u64_small by lia.
    split_and!; [done|done|rewrite zlen_app; lia| |done]. cbn [app] in Hc. rewrite !zlen_app in *. lia. }
  exists d. split; [done|]. unfold byte_queue_end_write in *. cbv zeta. cbn [data head size capacity] in *.
  rewrite u64_small in Hd' by lia. cbn [byte_queue_end_write head capacity size].
  rewrite u64_small by lia. split_and!; [|done|done|done|].
  - split; [by eexists|done].
  - intros ys Hys. by rewrite (content_unique _ _ _ Hys Hq).
Qed.

(** The bytes that go out are taken off the front. *)
Lemma end_read_ok q n :
  queue_ok q → 0 ≤ n ≤ size q →
  queue_ok (byte_queue_end_read q n) ∧ size (byte_queue_end_read q n) = size q - n ∧
  ∀ xs, content q xs → ∃ ys zs, xs = ys ++ zs ∧ zlen ys = n ∧ content (byte_queue_end_read q n) zs ∧
    rd_range (data q) (byte_queue_start_read q) n = Ret ys.
Proof.
  intros [[xs Hq] Hcap] Hn. destruct (content_bounds _ _ Hq) as (? & ? & ? & ? & Hc & _ & Hf & _).
  assert (∃ ys zs, xs = ys ++ zs ∧ zlen ys = n ∧ content (byte_queue_end_read q n) zs ∧
    rd_range (data q) (byte_queue_start_read q) n = Ret ys) as Hex.
  { destruct Hq as (pre & post & Hdata & Hh & Hs & _ & ?).
    destruct (list_split3 xs 0 n) as (p0 & p1 & p2 & -> & ->%zlen_0_inv & Hp1 & _); [lia..|].
    exists p1, p2. cbn [app] in *. split_and!; [done|done| |].
    - exists (pre ++ p1), post. cbn. rewrite !u64_small by lia. rewrite Hdata, <-!app_assoc.
      rewrite zlen_app in Hs. split_and!; [done|rewrite zlen_app; lia|lia| |done]. rewrite Hdata in Hc. by rewrite <-!app_assoc in Hc.
    - unfold byte_queue_start_read. rewrite Hdata, <-app_assoc. by apply rd_range_app. }
  split_and!.
  - destruct Hex as (ys & zs & _ & _ & Hcon & _). by split; [exists zs|].
  - cbn. by rewrite u64_small by lia.
  - intros ws Hws. by rewrite (content_unique _ _ _ Hws Hq).
Qed.

(** [recv] takes no more than there is room for. *)
Lemma recv_room a room p a' : 0 ≤ room → recv a room = (Some p, a') → zlen p ≤ room ∧ (room = 0 → p = []).
Proof.
  intros Hr. unfold recv. destruct (pieces a) as [|x rest]; [done|]. intros [= <- _].
  split; [unfold zlen; rewrite length_take; lia|by intros ->].
Qed.

Lemma receive_ok malloc q a :
  allocator_ok malloc → queue_ok q →
  wp (move_bytes_from_socket_to_queue malloc q a) (λ '(q', ret, moved),
    queue_ok q' ∧ (ret = -1 ∨ ret = 0 ∨ ret = 1) ∧
    (head q = 0 → ∀ xs, content q xs → head q' = 0 ∧ ∃ got rest, concat (pieces a) = got ++ rest ∧
      content q' (xs ++ got) ∧ (ret = 1 → rest = [] ∧ input_broken a = false) ∧
      moved = if ret =? -1 then None else Some (zlen got))).
Proof.
  intros Hm Hq. unfold move_bytes_from_socket_to_queue. apply wp_bind. unfold byte_queue_used_space.
  eapply wp_mono with (Q := λ '(q', ret), queue_ok q' ∧ (ret = -1 ∨ ret = 0 ∨ ret = 1) ∧
    (head q = 0 → ∀ xs, content q xs → head q' = 0 ∧ ∃ got rest, concat (pieces a) = got ++ rest ∧
      content q' (xs ++ got) ∧ (ret = 1 → rest = [] ∧ input_broken a = false))).
  2:{ intros [q' ret] (Hq' & Hret & Hfront). cbn [wp]. split_and!; [done|done|]. intros Hh xs Hxs.
      destruct (Hfront Hh xs Hxs) as (Hh' & got & rest & Hall & Hc & Hend). split; [done|].
      exists got, rest. split_and!; [done..|]. destruct (content_bounds _ _ Hxs) as (_ & -> & _ & _ & _ & _).
      destruct (content_bounds _ _ Hc) as (_ & -> & _ & _ & _ & _). destruct (ret =? -1); [done|].
      destruct Hq' as [_ Hcap]. destruct (content_bounds _ _ Hc) as (? & ? & ? & ? & _).
      rewrite zlen_app in *. pose proof (zlen_nonneg got). pose proof (zlen_nonneg xs). rewrite u64_small by lia. do 2 f_equal. lia. }
  apply (wp_loop (λ '(q', a'), queue_ok q' ∧ input_broken a' = input_broken a ∧
    (head q = 0 → ∀ xs, content q xs → head q' = 0 ∧ ∃ got, concat (pieces a) = got ++ concat (pieces a') ∧
      content q' (xs ++ got))) (λ '(_, a'), recv_measure a')).
  { split_and!; [done..|]. intros Hh xs Hxs. split; [done|]. exists []. by rewrite app_nil_r. }
  { unfold recv_fuel, recv_measure. lia. }
  intros [q1 a1] (Hq1 & Hbrk & Hfront). unfold receive_step. apply wp_bind.
  pose proof (ensure_any malloc q1 256 Hm Hq1 ltac:(lia)) as Hany.
  destruct (wp_inv _ _ Hany) as ([q2 ok] & Heq & Hq2 & Hs2 & _). rewrite Heq. cbn [wp].
  assert (head q = 0 → ∀ xs, content q xs → head q2 = 0 ∧ ∃ got, concat (pieces a) = got ++ concat (pieces a1) ∧
    content q2 (xs ++ got) ∧ (ok = true → 256 ≤ byte_queue_free_space q2)) as Hfront2.
  { intros Hh xs Hxs. destruct (Hfront Hh xs Hxs) as (Hh1 & got & Hall & Hc).
    pose proof (ensure_front malloc q1 _ 256 Hm Hc Hh1 ltac:(apply Hq1) ltac:(lia)) as Hf. rewrite Heq in Hf.
    destruct Hf as (? & _ & ? & ?). split; [done|]. by exists got. }
  clear Hfront Hany Heq. destruct ok; cbn [negb].
  2:{ cbn [wp break]. split_and!; [done|by left|]. intros Hh xs Hxs. destruct (Hfront2 Hh xs Hxs) as (? & got & ? & ? & _).
      split; [done|]. by exists got, (concat (pieces a1)). }
  assert (0 ≤ byte_queue_free_space q2) as Hroom.
  { destruct Hq2 as [[ys Hys] _]. destruct (content_bounds _ _ Hys) as (? & ? & ? & ? & ? & ? & -> & _). lia. }
  destruct (recv a1 (byte_queue_free_space q2)) as [[p|] a2] eqn:Hrecv.
  - destruct (recv_room _ _ _ _ Hroom Hrecv) as [Hfit Hnone].
    destruct (Z.eqb_spec (zlen p) 0) as [Hz|Hz].
    + cbn [wp break]. split_and!; [done|by right; left|]. intros Hh xs Hxs. destruct (Hfront2 Hh xs Hxs) as (? & got & ? & ? & _).
      split; [done|]. by exists got, (concat (pieces a1)).
    + assert (byte_queue_free_space q2 ≠ 0) as Hpos by (intros Hx; rewrite (Hnone Hx) in Hz; done).
      destruct (recv_ok a1 (byte_queue_free_space q2) p a2 ltac:(lia) Hrecv) as (_ & Hsplit & Hb2 & Hmeas).
      destruct (write_received q2 p Hq2 Hfit) as (d & -> & Hq3 & Hh3 & _ & _ & Hc3). cbn [mbind outcome_bind wp continue].
      split; [|done]. split_and!; [done|by rewrite Hb2|]. intros Hh xs Hxs.
      destruct (Hfront2 Hh xs Hxs) as (Hh2 & got & Hall & Hc & _). split; [by rewrite Hh3|].
      exists (got ++ p). rewrite Hall, Hsplit, !app_assoc. split; [done|by apply Hc3].
  - unfold recv in Hrecv. destruct (pieces a1) eqn:Hp; [|done]. simplify_eq. cbn [wp break]. split_and!; [done| |].
    + destruct (input_broken a2); auto.
    + intros Hh xs Hxs. destruct (Hfront2 Hh xs Hxs) as (? & got & Hall & ? & _). split; [done|].
      exists got, []. split_and!; [by rewrite Hall, ?Hp|done|]. rewrite Hbrk. destruct (input_broken a); [done|by intros _].
Qed.

Lemma transmit_ok q d :
  queue_ok q →
  wp (move_bytes_from_queue_to_socket q d) (λ '(q', sent, ok),
    queue_ok q' ∧ ∀ xs, content q xs → ∃ rest, xs = sent ++ rest ∧ content q' rest).
Proof.
  intros Hq. unfold move_bytes_from_queue_to_socket.
  apply (wp_loop (λ '(q', _, d', sent), queue_ok q' ∧
    ∀ xs, content q xs → ∃ rest, xs = sent ++ rest ∧ content q' rest) (λ '(_, _, d', _), length (takes d'))).
  { split; [done|]. intros xs Hxs. by exists xs. }
  { lia. }
  intros [[[q1 z] d1] sent] [Hq1 Hc]. unfold transmit_step, byte_queue_used_space.
  destruct (Z.ltb_spec 0 (size q1)) as [Hpos|]; cbn [negb]; [|by cbn [wp break]].
  destruct (takes d1) as [|n rest]; [by cbn [wp break]|].
  set (k := Z.min _ _). destruct (end_read_ok q1 k Hq1 ltac:(lia)) as (Hq2 & _ & Hread).
  assert (∀ xs, content q xs → ∃ ys rest, xs = (sent ++ ys) ++ rest ∧ zlen ys = k ∧
    content (byte_queue_end_read q1 k) rest ∧ rd_range (data q1) (byte_queue_start_read q1) k = Ret ys) as Hc2.
  { intros xs Hxs. destruct (Hc xs Hxs) as (ws & -> & Hws). destruct (Hread ws Hws) as (ys & zs & -> & ? & ? & ?).
    exists ys, zs. split_and!; [by rewrite <-app_assoc|done..]. }
  destruct (Z.eqb_spec k 0) as [Hk|Hk].
  - destruct (z + 1 =? 10); cbn [wp break continue]; [by split|]. split; [|cbn; lia]. split; [done|].
    intros xs Hxs. destruct (Hc2 xs Hxs) as (ys & zs & -> & Hys & Hcz & _). rewrite Hk in Hys.
    apply zlen_0_inv in Hys as ->. exists zs. by rewrite app_nil_r.
  - destruct Hq1 as [[ws Hws] _]. destruct (Hread ws Hws) as (ys & zs & _ & _ & _ & Hrd). rewrite Hrd.
    cbn [mbind outcome_bind wp continue]. split; [|cbn; lia]. split; [done|].
    intros xs Hxs. destruct (Hc2 xs Hxs) as (ys' & zs' & -> & _ & Hcz & Hrd').
    rewrite Hrd in Hrd'. injection Hrd' as <-. by exists zs'.
Qed.

(** A write of the program, where the bytes in the queue need not be shifted. *)
Lemma put_ok malloc q bytes :
  allocator_ok malloc → queue_ok q → zlen bytes < 2 ^ 60 → no_shifted_resize q (zlen bytes) →
  wp (put malloc q bytes) (λ '(q', ok), (if ok : bool then queue_ok q'
      else ∃ q1, byte_queue_ensure_min_free_space malloc q (zlen bytes) = Ret (q1, false)) ∧
    ∀ xs, content q xs → content q' (if ok : bool then xs ++ bytes else xs)).
Proof.
  intros Hm [[xs Hq] Hcap] Hlen Hshift. pose proof (zlen_nonneg bytes). unfold put. apply wp_bind.
  pose proof (ensure_ok malloc q xs (zlen bytes) Hq (allocator_malloc_ok _ Hm) ltac:(lia) ltac:(lia) Hshift) as H1.
  pose proof (ensure_any malloc q (zlen bytes) Hm (conj (ex_intro _ xs Hq) Hcap) ltac:(lia)) as H2.
  destruct (wp_inv _ _ (wp_conj _ _ _ H1 H2)) as ([q' ok] & Heq & (Hq' & Htrue & _) & ([_ Hcap'] & _)).
  rewrite Heq. cbn [wp]. destruct ok; cbn [negb].
  - destruct (write_received q' bytes) as (d & -> & Hq2 & _ & _ & _ & Hc2); [split; [by exists xs|done]|by apply Htrue|].
    cbn [mbind outcome_bind wp]. split; [done|]. intros ys Hys. rewrite (content_unique _ _ _ Hys Hq). by apply Hc2.
  - cbn [wp]. split; [by exists q'|]. intros ys Hys. by rewrite (content_unique _ _ _ Hys Hq).
Qed.
