(* ===== verification/TcpServe.v ===== *)
(** The server of [Tcp]: its invariant, that its operations keep it, and where
    it fails. *)
From S2P Require Import Prelude Sockets ByteQueue Tcp TcpHandle TcpSafe.
#[global] Open Scope Z_scope.

(** ** The invariant *)

Definition client_ok (c : TCPClient) : Prop :=
  0 ≤ gen c < 2 ^ 12 ∧ (state c ≠ TCP_CLIENT_FREE → queue_ok (input c) ∧ queue_ok (output c)).

Definition clients_ok (l : list TCPClient) : Prop := ∀ i c, rd l i = Ret c → client_ok c.

(** How many clients of an array are in use. *)
Definition live (l : list TCPClient) : Z := zlen (filter (λ c, state c ≠ TCP_CLIENT_FREE) l).

(** The ring of events holds the events [q]. *)
Record ring_ok (s : TCPServer) (q : list TCPEvent) : Prop := mkRingOk {
  ri_len : zlen (s_events s) = 3 * s_capacity s;
  ri_head : 0 ≤ s_events_head s ∧ (s_capacity s = 0 ∨ s_events_head s < 3 * s_capacity s);
  ri_count : s_events_count s = zlen q;
  ri_fit : zlen q ≤ 3 * s_capacity s;
  ri_at : ∀ k, 0 ≤ k < zlen q → rd (s_events s) ((s_events_head s + k) mod (3 * s_capacity s)) = rd q k;
}.

(** A server that has taken [n] connections, for [cap] clients at most. *)
Record running (t : tcp) (g n cap : Z) (l : list TCPClient) (q : list TCPEvent) : Prop := mkRunning {
  ru_server : ∃ s, servers t = [s] ∧ s_state s = TCP_SERVER_USED ∧ s_gen s = g ∧ s_count s = n ∧
    s_capacity s = cap ∧ s_clients s = Some l ∧ ring_ok s q;
  ru_gen : 0 ≤ g < 2 ^ 12;
  ru_len : zlen l = cap;
  ru_cap : cap ≤ 2 ^ 14;
  ru_live : live l ≤ n ≤ cap;
  ru_each : clients_ok l;
  ru_alone : zlen (clients t) = MAX_CLIENTS ∧ clients_ok (clients t);
}.

Definition Inv (g n cap : Z) (t : tcp) : Prop := ∃ l q, running t g n cap l q.

(** ** Clients in an array *)

Lemma clients_ok_insert l i c : 0 ≤ i < zlen l → clients_ok l → client_ok c → clients_ok (<[Z.to_nat i := c]> l).
Proof. intros Hi Hl Hc j x Hx. destruct (rd_insert_inv _ _ _ _ _ Hi Hx) as [[_ ->]|[_ Hj]]; [done|by eapply Hl]. Qed.

Definition in_use (c : TCPClient) : Z := if bool_decide (state c = TCP_CLIENT_FREE) then 0 else 1.

Lemma live_app l k : live (l ++ k) = live l + live k.
Proof. unfold live. by rewrite filter_app, zlen_app. Qed.

Lemma live_one c : live [c] = in_use c.
Proof. unfold live, in_use. rewrite filter_cons. case_bool_decide; case_decide; done. Qed.

Lemma live_insert l i c0 c : rd l i = Ret c0 → live (<[Z.to_nat i := c]> l) = live l - in_use c0 + in_use c.
Proof.
  intros (a & b & -> & _ & ->)%rd_split. change (c :: b) with ([c] ++ b). change (c0 :: b) with ([c0] ++ b).
  rewrite !live_app, !live_one. lia.
Qed.

Lemma live_bound l : 0 ≤ live l ≤ zlen l.
Proof. unfold live. split; [apply zlen_nonneg|]. unfold zlen. pose proof (length_filter (λ c, state c ≠ TCP_CLIENT_FREE) l). lia. Qed.

Lemma live_all l : (∀ i c, rd l i = Ret c → state c ≠ TCP_CLIENT_FREE) → live l = zlen l.
Proof.
  induction l as [|c l IH]; intros Hl; [done|]. change (c :: l) with ([c] ++ l).
  rewrite live_app, live_one, zlen_app, IH.
  - unfold in_use. rewrite bool_decide_false; [done|]. by apply (Hl 0).
  - intros i x Hx. pose proof (rd_bounds _ _ _ Hx). apply (Hl (i + 1)). rewrite rd_cons_S by lia. by replace (i + 1 - 1) with i by lia.
Qed.

(** ** Reaching a client *)

Lemma running_rd t g n cap l q :
  running t g n cap l q → ∃ s, rd (servers t) 0 = Ret s ∧ servers t = [s] ∧ s_state s = TCP_SERVER_USED ∧ s_gen s = g ∧
    s_count s = n ∧ s_capacity s = cap ∧ s_clients s = Some l ∧ ring_ok s q.
Proof. intros [(s & Hs & H) _ _ _ _ _ _]. exists s. by rewrite Hs. Qed.

Lemma get_server_client t g n cap l q ci : running t g n cap l q → get_client t (Some 0, ci) = rd l ci.
Proof.
  intros (s & Hs & _ & _ & _ & _ & _ & Hl & _)%running_rd. unfold get_client. cbn [fst snd]. rewrite Hs.
  cbn [mbind outcome_bind]. unfold clients_of. by rewrite Hl.
Qed.

Lemma ring_ok_with_clients s l q : ring_ok s q → ring_ok (with_clients s l) q.
Proof. by intros []. Qed.

(** A client of the server changes. *)
Lemma set_server_client t g n cap l q ci c0 c :
  running t g n cap l q → rd l ci = Ret c0 → client_ok c → live l - in_use c0 + in_use c ≤ n →
  ∃ t', set_client t (Some 0, ci) c = Ret t' ∧ running t' g n cap (<[Z.to_nat ci := c]> l) q.
Proof.
  intros Hr Hc0 Hc Hlive. pose proof (rd_bounds _ _ _ Hc0) as Hb.
  destruct (running_rd _ _ _ _ _ _ Hr) as (s & Hs & Hss & Hst & Hg & Hn & Hcap & Hl & Hring). destruct Hr.
  unfold set_client, clients_of, set_server. cbn [fst snd]. rewrite Hs. cbn [mbind outcome_bind]. rewrite Hl. cbn [mbind outcome_bind].
  rewrite wr_ok by done. cbn [mbind outcome_bind]. rewrite Hss. eexists. split; [done|]. split; try done.
  - eexists. split; [done|]. split_and!; try done. by apply ring_ok_with_clients.
  - by rewrite zlen_insert.
  - rewrite (live_insert _ _ _ _ Hc0). lia.
  - by apply clients_ok_insert.
Qed.

Lemma running_log t g n cap l q e : running t g n cap l q → running (log t e) g n cap l q.
Proof. by intros []. Qed.

(** Any client that is in use. *)
Lemma set_client_inv g n cap t r c0 c :
  Inv g n cap t → (r.1 = None ∨ r.1 = Some 0) → get_client t r = Ret c0 → state c0 ≠ TCP_CLIENT_FREE → client_ok c →
  ∃ t', set_client t r c = Ret t' ∧ Inv g n cap t'.
Proof.
  intros (l & q & Hr) Href Hc0 Hst Hc. destruct r as [[si|] ci]; cbn [fst snd] in *.
  - destruct Href as [|[= ->]]; [done|]. rewrite (get_server_client _ _ _ _ _ _ _ Hr) in Hc0.
    destruct (set_server_client _ _ _ _ _ _ _ _ c Hr Hc0 Hc) as (t' & ? & ?).
    { pose proof (ru_live _ _ _ _ _ _ Hr). unfold in_use. rewrite (bool_decide_false (state c0 = _)) by done.
      case_bool_decide; lia. }
    exists t'. split; [done|]. by exists (<[Z.to_nat ci := c]> l), q.
  - unfold get_client in Hc0. cbn [fst snd] in Hc0. pose proof (rd_bounds _ _ _ Hc0). unfold set_client. cbn [fst snd].
    rewrite wr_ok by done. cbn [mbind outcome_bind]. eexists. split; [done|]. exists l, q. destruct Hr as [Hs ? ? ? ? ? [? ?]].
    split; [exact Hs|done..|]. cbn [clients]. split; [by rewrite zlen_insert|]. by apply clients_ok_insert.
Qed.

(** A handle that is good leads to a client that is in use. *)
Lemma resolved g n cap t h r o :
  Inv g n cap t → client_from_handle t h = Ret (Some r, o) →
  (r.1 = None ∨ r.1 = Some 0) ∧ ∃ c, get_client t r = Ret c ∧ state c ≠ TCP_CLIENT_FREE ∧ client_ok c.
Proof.
  intros (l & q & Hr). unfold client_from_handle. destruct (h =? TCP_INVALID); [done|].
  unfold unpack_handle. set (idx := Z.land (Z.shiftr h 12) _). set (sdx := Z.land (Z.shiftr h 27) _).
  set (gen' := Z.land (Z.shiftr h 1) _). destruct (Z.shiftr h 31 =? 0); cbn [negb]; [|done].
  destruct (Z.eqb_spec sdx 0).
  - destruct (MAX_CLIENTS <=? idx); [done|]. destruct (rd (clients t) idx) as [c|] eqn:Hc; [|done]. cbn [mbind outcome_bind].
    case_bool_decide as Hst; [done|]. cbn [negb c_assert mbind outcome_bind]. intros [= <- _]. split; [by left|].
    exists c. split_and!; [done|done|]. by eapply (proj2 (ru_alone _ _ _ _ _ _ Hr)).
  - unfold MAX_SERVERS. assert (0 ≤ sdx) by (unfold sdx; apply Z.land_nonneg; by right).
    destruct (Z.leb_spec 1 (sdx - 1)); [done|]. replace (sdx - 1) with 0 by lia.
    destruct (running_rd _ _ _ _ _ _ Hr) as (s & -> & _ & _ & _ & _ & _ & Hl & _). cbn [mbind outcome_bind].
    destruct (u32 (s_capacity s) <=? idx); [done|]. unfold clients_of. rewrite Hl. cbn [mbind outcome_bind].
    destruct (rd l idx) as [c|] eqn:Hc; [|done]. cbn [mbind outcome_bind]. destruct (gen' =? gen c); cbn [negb]; [|done].
    case_bool_decide as Hst; [done|]. cbn [negb c_assert mbind outcome_bind]. intros [= <- _]. split; [by right|].
    exists c. split_and!; [by rewrite (get_server_client _ _ _ _ _ _ _ Hr)|done|]. by eapply (ru_each _ _ _ _ _ _ Hr).
Qed.

Lemma next_gen_ok g : 0 ≤ g < 2 ^ 12 → 0 ≤ next_gen g < 2 ^ 12.
Proof.
  intros Hg. unfold next_gen. rewrite u16_small by lia. change GEN_UPPER_BOUND with (2 ^ 12). destruct (Z.eqb_spec (g + 1) (2 ^ 12)); lia.
Qed.

Lemma free_client_inv g n cap t r c0 :
  Inv g n cap t → (r.1 = None ∨ r.1 = Some 0) → get_client t r = Ret c0 → state c0 ≠ TCP_CLIENT_FREE → client_ok c0 →
  wp (free_client t r) (Inv g n cap).
Proof.
  intros HI Href Hc0 Hst [Hg _]. unfold free_client. rewrite Hc0. cbn [mbind outcome_bind].
  edestruct (set_client_inv g n cap (log t (Closed (fd c0))) r c0) as (t' & Ht' & HI'); [| | | | |by rewrite Ht'].
  - destruct HI as (l & q & Hr). exists l, q. by apply running_log.
  - done.
  - exact Hc0.
  - done.
  - split; [by apply next_gen_ok|done].
Qed.

(** ** The operations on clients *)

Lemma read_inv g n cap t h r o num :
  Inv g n cap t → client_from_handle t h = Ret (Some r, o) →
  (∀ c, get_client t r = Ret c → 0 ≤ num ≤ byte_queue_used_space (input c)) →
  wp (tcp_client_read t h num) (Inv g n cap).
Proof.
  intros HI Hh Hnum. destruct (resolved g n cap t h r o HI Hh) as (Href & c & Hc & Hst & Hok).
  unfold tcp_client_read, client_or_abort. rewrite Hh. cbn [mbind outcome_bind]. rewrite Hc. cbn [mbind outcome_bind].
  destruct Hok as [Hg Hq]. destruct (Hq Hst) as [Hin Hout].
  edestruct (set_client_inv g n cap t r c) as (t' & Ht' & HI'); [done|done|exact Hc|done| |by rewrite Ht'].
  split; [done|]. intros _. split; [|done]. by apply end_read_ok, Hnum.
Qed.

(** A write finds memory, and does not have to grow an array from which bytes
    were sent. *)
Definition write_fits (malloc : allocator) (c : TCPClient) (bytes : list Z) : Prop :=
  no_shifted_resize (output c) (zlen bytes) ∧
  ∀ q, byte_queue_ensure_min_free_space malloc (output c) (zlen bytes) ≠ Ret (q, false).

Lemma write_inv g n cap malloc t h r o bytes :
  allocator_ok malloc → Inv g n cap t → client_from_handle t h = Ret (Some r, o) → zlen bytes < 2 ^ 60 →
  (∀ c, get_client t r = Ret c → write_fits malloc c bytes) →
  wp (tcp_client_write malloc t h bytes) (Inv g n cap).
Proof.
  intros Hm HI Hh Hlen Hfits. destruct (resolved g n cap t h r o HI Hh) as (Href & c & Hc & Hst & Hok).
  unfold tcp_client_write, client_or_abort. rewrite Hh. cbn [mbind outcome_bind]. rewrite Hc. cbn [mbind outcome_bind].
  case_bool_decide; cbn [negb]; [|done]. destruct Hok as [Hg Hq]. destruct (Hq Hst) as [Hin Hout].
  destruct (Hfits c Hc) as [Hshift Hmem].
  apply wp_bind. eapply wp_mono; [by apply put_ok|].
  intros [q' []] [Hq' _]; cbn [negb]; [|destruct Hq' as [q1 Hq1]; by destruct (Hmem q1)].
  edestruct (set_client_inv g n cap t r c) as (t' & Ht' & HI'); [done|done|exact Hc|done| |by rewrite Ht'].
  by split; [|intros _; split].
Qed.

Lemma close_inv g n cap t h r o : Inv g n cap t → client_from_handle t h = Ret (Some r, o) → wp (tcp_client_close t h) (Inv g n cap).
Proof.
  intros HI Hh. destruct (resolved g n cap t h r o HI Hh) as (Href & c & Hc & Hst & Hok).
  unfold tcp_client_close, client_or_abort. rewrite Hh. cbn [mbind outcome_bind]. rewrite Hc. cbn [mbind outcome_bind].
  assert (wp (free_client t r) (Inv g n cap)) as Hfree by (by eapply free_client_inv).
  destruct (_ || _); [done|]. destruct r as [[si|] ci]; cbn [fst]; [|done]. destruct Hok as [Hg Hq].
  edestruct (set_client_inv g n cap t (Some si, ci) c) as (t' & Ht' & HI'); [done|exact Href|exact Hc|done| |by rewrite Ht'].
  split; [done|]. intros _. by apply Hq.
Qed.

(** ** The ring of events *)

Lemma mod_rem x m : 0 ≤ x → 0 < m → Z.rem x m = x mod m.
Proof. intros. apply Z.rem_mod_nonneg; lia. Qed.

Lemma handle_ok t g n cap l q ci c :
  running t g n cap l q → rd l ci = Ret c → ∃ h, handle_for_client (Some 0, ci) c = Ret h.
Proof.
  intros Hr Hc. pose proof (rd_bounds _ _ _ Hc). destruct (ru_each _ _ _ _ _ _ Hr ci c Hc) as [Hg _].
  rewrite (ru_len _ _ _ _ _ _ Hr) in *. pose proof (ru_cap _ _ _ _ _ _ Hr). eexists. apply pack_handle_eq; cbn; lia.
Qed.

Lemma push_event_ok t g n cap l q ci c ty :
  running t g n cap l q → rd l ci = Ret c → zlen q < 3 * cap →
  ∃ t' h, push_event t 0 ci ty = Ret t' ∧ handle_for_client (Some 0, ci) c = Ret h ∧
    running t' g n cap l (q ++ [mkTCPEvent ty h]).
Proof.
  intros Hr Hc Hroom. destruct (handle_ok _ _ _ _ _ _ _ _ Hr Hc) as [h Hh].
  destruct (running_rd _ _ _ _ _ _ Hr) as (s & Hs & Hss & Hst & Hg & Hn & Hcap & Hl & Hring).
  pose proof (zlen_nonneg q) as Hq0. destruct Hr. destruct Hring as [Hlen [Hh0 Hh1] Hcount Hfit Hat]. subst cap.
  unfold push_event. unfold get_client. cbn [fst snd]. rewrite Hs. cbn [mbind outcome_bind]. unfold clients_of.
  rewrite Hl. cbn [mbind outcome_bind]. rewrite Hc. cbn [mbind outcome_bind]. rewrite Hh. cbn [mbind outcome_bind].
  unfold MAX_EVENTS_PER_CLIENT. replace (s_capacity s * 3) with (3 * s_capacity s) by lia.
  assert (int (3 * s_capacity s) = Ret (3 * s_capacity s)) as ->.
  { unfold int, INT_MIN, INT_MAX. by rewrite (proj2 (Z.leb_le _ _)), (proj2 (Z.leb_le _ _)) by lia. }
  cbn [mbind outcome_bind]. rewrite Hcount, (proj2 (Z.ltb_lt _ _)) by lia. cbn [c_assert mbind outcome_bind].
  rewrite mod_rem by lia. set (m := 3 * s_capacity s) in *.
  pose proof (Z.mod_pos_bound (s_events_head s + zlen q) m ltac:(lia)) as Hb.
  rewrite wr_ok by lia. cbn [mbind outcome_bind]. unfold set_server. rewrite Hss. rewrite wr_ok by done. cbn [mbind outcome_bind].
  eexists _, h. split; [done|]. split; [done|]. split; try done. eexists. split; [done|]. split_and!; try done.
  split; cbn [with_ring s_events s_capacity s_events_head s_events_count]; rewrite ?zlen_insert, ?zlen_app; change (zlen [_]) with 1; try done; [lia..|].
  intros k Hk. fold m. destruct (decide (k = zlen q)) as [->|Hne].
  - rewrite rd_insert_eq by lia. rewrite rd_app_r, Z.sub_diag by lia. done.
  - rewrite rd_insert_ne; [|lia|].
    + rewrite rd_app_l by lia. apply Hat. lia.
    + intros He.
      assert ((zlen q - k) mod m = 0) as Hz.
      { replace (zlen q - k) with ((s_events_head s + zlen q) - (s_events_head s + k)) by lia.
        rewrite Zminus_mod, He, Z.sub_diag. by apply Z.mod_0_l; lia. }
      rewrite Z.mod_small in Hz by lia. lia.
Qed.

Lemma server_resolved t g n cap l q h si :
  running t g n cap l q → server_from_handle t h = Ret (Some si) → si = 0.
Proof.
  intros Hr. unfold server_from_handle. destruct (h =? TCP_INVALID); [done|]. unfold unpack_handle.
  assert (0 ≤ Z.land (Z.shiftr h 12) 16383) by (apply Z.land_nonneg; by right).
  destruct (_ =? 1); cbn [negb]; [|done]. unfold MAX_SERVERS. destruct (Z.leb_spec 1 (Z.land (Z.shiftr h 12) 16383)); [done|].
  replace (Z.land (Z.shiftr h 12) 16383) with 0 by lia.
  destruct (running_rd _ _ _ _ _ _ Hr) as (s & -> & _). cbn [mbind outcome_bind]. destruct (negb _); [done|].
  destruct (c_assert _); [|done]. cbn [mbind outcome_bind]. by intros [= <-].
Qed.

(** The oldest event is handed out, and [TCP_EVENT_NONE] when there is none. *)
Lemma event_ok t g n cap l q h si :
  running t g n cap l q → server_from_handle t h = Ret (Some si) →
  wp (tcp_server_event t h) (λ '(t', e), match q with
    | [] => t' = t ∧ e = mkTCPEvent TCP_EVENT_NONE TCP_INVALID
    | e0 :: q' => e = e0 ∧ running t' g n cap l q'
    end).
Proof.
  intros Hr Hh. pose proof (server_resolved _ _ _ _ _ _ _ _ Hr Hh) as ->.
  destruct (running_rd _ _ _ _ _ _ Hr) as (s & Hs & Hss & Hst & Hg & Hn & Hcap & Hl & Hring).
  destruct Hr. destruct Hring as [Hlen [Hh0 Hh1] Hcount Hfit Hat]. subst cap.
  unfold tcp_server_event, server_or_abort. rewrite Hh. cbn [mbind outcome_bind]. rewrite Hs. cbn [mbind outcome_bind].
  rewrite Hcount. destruct q as [|e q]; [done|]. pose proof (zlen_nonneg q) as Hq0. rewrite !zlen_cons in *.
  rewrite (proj2 (Z.eqb_neq _ _)) by lia. pose proof (Hat 0 ltac:(lia)) as He. rewrite Z.add_0_r, rd_cons_0 in He.
  rewrite Z.mod_small in He by lia. rewrite He. cbn [mbind outcome_bind].
  unfold MAX_EVENTS_PER_CLIENT. replace (s_capacity s * 3) with (3 * s_capacity s) by lia.
  assert (int (3 * s_capacity s) = Ret (3 * s_capacity s)) as ->.
  { unfold int, INT_MIN, INT_MAX. by rewrite (proj2 (Z.leb_le _ _)), (proj2 (Z.leb_le _ _)) by lia. }
  cbn [mbind outcome_bind]. rewrite mod_rem by lia. set (m := 3 * s_capacity s) in *.
  unfold set_server. rewrite Hss, wr_ok by done. cbn [mbind outcome_bind wp]. split; [done|].
  pose proof (Z.mod_pos_bound (s_events_head s + 1) m ltac:(lia)) as Hb.
  split; try done. eexists. split; [done|]. split_and!; try done.
  split; cbn [with_ring s_events s_capacity s_events_head s_events_count]; fold m; try done; [lia..|].
  intros k Hk. rewrite Zplus_mod_idemp_l. specialize (Hat (k + 1) ltac:(lia)).
  rewrite rd_cons_S in Hat by lia. replace (k + 1 - 1) with k in Hat by lia. rewrite <- Hat. do 2 f_equal. lia.
Qed.

(** ** Polling *)

Lemma free_slot_ok l cap :
  zlen l = cap → live l < cap → wp (free_slot l cap) (λ i, ∃ c, rd l i = Ret c ∧ state c = TCP_CLIENT_FREE).
Proof.
  intros Hlen Hlive. pose proof (live_bound l). unfold free_slot.
  apply (wp_loop (λ i, 0 ≤ i < cap ∧ ∀ j c, j < i → rd l j = Ret c → state c ≠ TCP_CLIENT_FREE) (λ i, Z.to_nat (cap - i))).
  { split; [lia|]. intros j c Hj Hc. pose proof (rd_bounds _ _ _ Hc). lia. }
  { unfold zlen in Hlen. lia. }
  intros i [Hi Hbefore]. apply wp_bind, wp_rd; [lia|]. intros c _ Hc. case_bool_decide as Hst.
  { cbn [wp break]. by exists c. }
  assert (∀ j c, j < i + 1 → rd l j = Ret c → state c ≠ TCP_CLIENT_FREE) as Hall.
  { intros j x Hj Hx. destruct (decide (j = i)) as [->|]; [congruence|]. eapply Hbefore; [|done]. lia. }
  destruct (Z.ltb_spec (i + 1) cap); [cbn; split; [split; [lia|done]|lia]|].
  exfalso. rewrite (live_all l) in Hlive; [lia|]. intros j x Hx. pose proof (rd_bounds _ _ _ Hx). eapply Hall; [|done]. lia.
Qed.

(** The clients in use are the same. *)
Definition kept (l l' : list TCPClient) : Prop :=
  ∀ i c, rd l i = Ret c → state c ≠ TCP_CLIENT_FREE → rd l' i = Ret c.

Lemma tcp_accept_client_ok t g n cap l q new_fd :
  running t g n cap l q → n < cap → zlen q < 3 * cap →
  wp (accept_client t 0 new_fd) (λ t', ∃ l' e, running t' g (n + 1) cap l' (q ++ [e]) ∧
    type e = TCP_EVENT_CONNECT ∧ kept l l').
Proof.
  intros Hr Hroom Hq. pose proof (ru_len _ _ _ _ _ _ Hr) as Hlen. pose proof (ru_live _ _ _ _ _ _ Hr) as Hlive.
  destruct (running_rd _ _ _ _ _ _ Hr) as (s & Hs & Hss & Hst & Hg & Hn & Hcap & Hl & Hring).
  unfold accept_client, clients_of. rewrite Hs. cbn [mbind outcome_bind]. rewrite Hl. cbn [mbind outcome_bind]. rewrite Hcap.
  destruct (wp_inv _ _ (free_slot_ok l cap Hlen ltac:(lia))) as (i & -> & c & Hc & Hfree).
  cbn [mbind outcome_bind]. rewrite Hc. cbn [mbind outcome_bind]. pose proof (rd_bounds _ _ _ Hc) as Hb.
  rewrite wr_ok by done. cbn [mbind outcome_bind]. set (c1 := mkTCPClient _ _ _ _ _ _ _ _).
  unfold set_server at 1. rewrite Hss, wr_ok by done. cbn [mbind outcome_bind].
  assert (client_ok c1) as Hc1.
  { split; [by apply (ru_each _ _ _ _ _ _ Hr i c)|]. intros _. split; apply queue_init_ok. }
  match goal with |- wp (push_event ?x _ _ _) _ => assert (running x g (n + 1) cap (<[Z.to_nat i := c1]> l) q) as Hr1 end.
  { pose proof (live_insert l i c c1 Hc) as Hli. change (in_use c1) with 1 in Hli.
    unfold in_use in Hli. rewrite (bool_decide_true (state c = _)) in Hli by done. destruct Hr. split; try done.
    - eexists. split; [done|]. cbn. split_and!; try done; [lia|]. destruct Hring. rewrite Hcap in *. by split.
    - by rewrite zlen_insert.
    - lia.
    - by apply clients_ok_insert. }
  destruct (push_event_ok _ _ _ _ _ _ i c1 TCP_EVENT_CONNECT Hr1) as (t' & h & -> & _ & Hr2); [by apply rd_insert_eq|done|].
  cbn [wp]. eexists _, _. split; [exact Hr2|]. split; [done|]. intros j x Hx Hlv.
  destruct (decide (j = i)) as [->|]; [congruence|]. by rewrite rd_insert_ne by lia.
Qed.

Lemma accept_clients_ok t g n cap l q answers :
  running t g n cap l q → zlen q + (cap - n) ≤ 3 * cap →
  wp (accept_clients t 0 answers) (λ t', ∃ n' l' q', running t' g n' cap l' (q ++ q') ∧ n ≤ n' ∧
    zlen q' = n' - n ∧ Forall (λ e, type e = TCP_EVENT_CONNECT) q' ∧ kept l l').
Proof.
  revert t n l q. induction answers as [|a answers IH]; intros t n l q Hr Hroom; cbn [accept_clients];
    destruct (running_rd _ _ _ _ _ _ Hr) as (s & Hs & _ & _ & _ & Hn & Hcap & _); rewrite Hs; cbn [mbind outcome_bind];
    rewrite Hn, Hcap; destruct (Z.ltb_spec n cap); cbn [negb].
  1-2,4: cbn [wp]; exists n, l, []; rewrite app_nil_r; split_and!; [done|lia|change (zlen []) with 0; lia|done|by intros ? ?].
  destruct a as [new_fd [] |]; cbn [negb].
  - apply wp_bind. pose proof (ru_live _ _ _ _ _ _ Hr).
    eapply wp_mono; [apply (tcp_accept_client_ok _ _ _ _ _ _ new_fd Hr); [done|lia]|].
    intros t1 (l1 & e & Hr1 & He & Hk). eapply wp_mono; [apply (IH _ _ _ _ Hr1); rewrite zlen_app; change (zlen [e]) with 1; lia|].
    intros t2 (n2 & l2 & q2 & Hr2 & Hn2 & Hz & Hall & Hk2). exists n2, l2, (e :: q2).
    rewrite <-app_assoc in Hr2. split_and!; [done|lia|rewrite zlen_cons; lia|by constructor|].
    intros i c Hc Hlv. by apply Hk2; [apply Hk|].
  - apply (IH (log t (Closed new_fd)) n l q); [by apply running_log|done].
  - by apply (IH t n l q).
Qed.

Lemma poll_clients_ok l i n :
  n + live l ≤ 127 →
  wp (poll_clients l i n) (λ ds, zlen ds ≤ live l ∧ Forall (λ d, i ≤ d.1 < i + zlen l) ds).
Proof.
  revert i n. induction l as [|c l IH]; intros i n Hn; cbn [poll_clients]; [done|].
  pose proof (live_bound l). change (c :: l) with ([c] ++ l) in *. rewrite live_app, live_one, zlen_app in *. change (zlen [c]) with 1.
  assert (in_use c = 0 ∨ in_use c = 1) as Huse by (unfold in_use; case_bool_decide; auto).
  destruct (poll_events c) as [ev|] eqn:Hev.
  - assert (in_use c = 1) as Hu by (unfold in_use, poll_events in *; by destruct (state c)). rewrite Hu in *.
    unfold MAX_POLL. destruct (Z.leb_spec (128 - 1) n); [lia|]. apply wp_bind. eapply wp_mono; [apply IH; lia|].
    intros ds [Hlen Hall]. cbn [wp]. rewrite zlen_cons. split; [lia|]. constructor; [cbn; pose proof (zlen_nonneg l); lia|].
    eapply Forall_impl; [exact Hall|]. intros d Hd. cbn in Hd. lia.
  - eapply wp_mono; [apply IH; lia|]. intros ds [Hlen Hall]. split; [lia|].
    eapply Forall_impl; [exact Hall|]. intros d Hd. cbn in Hd. lia.
Qed.

(** A step of a poll: the server goes on, with up to [k] more events. *)
Definition advanced (t' : tcp) (g n cap : Z) (q : list TCPEvent) (k : Z) : Prop :=
  ∃ l' q', running t' g n cap l' (q ++ q') ∧ zlen q' ≤ k.

Lemma advanced_refl t g n cap l q k : running t g n cap l q → 0 ≤ k → advanced t g n cap q k.
Proof. intros Hr Hk. exists l, []. rewrite app_nil_r. by split. Qed.

Lemma in_use_live l ci c : rd l ci = Ret c → 0 ≤ in_use c ∧ (state c ≠ TCP_CLIENT_FREE → in_use c = 1).
Proof. intros _. unfold in_use. case_bool_decide; split; [lia|done|lia|done]. Qed.

(** A client in use changes, and maybe an event is pushed for it. *)
Lemma set_live_client t g n cap l q ci c0 c :
  running t g n cap l q → rd l ci = Ret c0 → state c0 ≠ TCP_CLIENT_FREE → client_ok c →
  ∃ t', set_client t (Some 0, ci) c = Ret t' ∧ running t' g n cap (<[Z.to_nat ci := c]> l) q ∧
    rd (<[Z.to_nat ci := c]> l) ci = Ret c.
Proof.
  intros Hr Hc0 Hst Hc. destruct (set_server_client _ _ _ _ _ _ _ _ c Hr Hc0 Hc) as (t' & ? & ?).
  { pose proof (ru_live _ _ _ _ _ _ Hr). destruct (in_use_live _ _ _ Hc0) as [_ Hu]. rewrite Hu by done.
    unfold in_use. case_bool_decide; lia. }
  exists t'. split_and!; [done|done|]. apply rd_insert_eq. by eapply rd_bounds.
Qed.

Lemma poll_input_ok malloc r t g n cap l q ci e :
  allocator_ok malloc → running t g n cap l q → 0 ≤ ci < cap → zlen q + 2 ≤ 3 * cap →
  wp (poll_input malloc r t 0 ci e) (λ t', advanced t' g n cap q 2).
Proof.
  intros Hm Hr Hci Hroom. pose proof (ru_len _ _ _ _ _ _ Hr) as Hlen.
  unfold poll_input. rewrite (get_server_client _ _ _ _ _ _ _ Hr).
  destruct (rd_ok l ci) as (c & Hc & _); [lia|]. rewrite Hc. cbn [mbind outcome_bind].
  destruct (ru_each _ _ _ _ _ _ Hr ci c Hc) as [Hg Hqs].
  assert (advanced t g n cap q 2) as Hsame by (eapply advanced_refl; [exact Hr|lia]).
  case_bool_decide as Hst; [done|]. destruct (flag _ _); [|done]. destruct (Hqs Hst) as [Hin Hout].
  apply wp_bind. eapply wp_mono; [by apply receive_ok|]. intros [[qi ret] moved] (Hqi & Hret & _).
  destruct (set_live_client t g n cap l q ci c (with_input c qi) Hr Hc Hst) as (t1 & -> & Hr1 & Hc1); [by split; [|split]|].
  cbn [mbind outcome_bind].
  assert ((ret =? -1) || (ret =? 0) || (ret =? 1) = true) as -> by (destruct Hret as [->|[->| ->]]; done). cbn [c_assert mbind outcome_bind].
  set (l1 := <[Z.to_nat ci := with_input c qi]> l) in *.
  assert (∃ t2 q', (if 0 <? default (junk r) moved then push_event t1 0 ci TCP_EVENT_DATA else Ret t1) = Ret t2 ∧
    running t2 g n cap l1 (q ++ q') ∧ zlen q' ≤ 1) as (t2 & q' & -> & Hr2 & Hq').
  { destruct (0 <? _).
    - destruct (push_event_ok _ _ _ _ _ _ ci _ TCP_EVENT_DATA Hr1 Hc1) as (t2 & h & -> & _ & Hr2); [lia|].
      exists t2, [mkTCPEvent TCP_EVENT_DATA h]. by split_and!.
    - exists t1, []. by rewrite app_nil_r. }
  cbn [mbind outcome_bind]. destruct (_ || _); [|cbn [wp]; exists l1, q'; split; [done|lia]].
  destruct (set_live_client t2 g n cap l1 _ ci _ (with_state (with_input c qi) TCP_CLIENT_HANGUP) Hr2 Hc1 Hst) as (t3 & -> & Hr3 & Hc3);
    [by split; [|split]|]. cbn [mbind outcome_bind].
  destruct (push_event_ok _ _ _ _ _ _ ci _ TCP_EVENT_DISCONNECT Hr3 Hc3) as (t4 & h & -> & _ & Hr4); [rewrite zlen_app; lia|].
  cbn [wp]. eexists _, (q' ++ [_]). rewrite app_assoc. split; [exact Hr4|]. rewrite zlen_app. change (zlen [_]) with 1. lia.
Qed.

Lemma free_live_client t g n cap l q ci c :
  running t g n cap l q → rd l ci = Ret c → state c ≠ TCP_CLIENT_FREE →
  wp (free_client t (Some 0, ci)) (λ t', ∃ l', running t' g n cap l' q).
Proof.
  intros Hr Hc Hst. unfold free_client. rewrite (get_server_client _ _ _ _ _ _ _ Hr), Hc. cbn [mbind outcome_bind].
  edestruct (set_live_client (log t (Closed (fd c))) g n cap l q ci c) as (t' & Ht' & Hr' & _);
    [by apply running_log|done|done| |rewrite Ht'; cbn [wp]; by eexists].
  split; [|done]. apply next_gen_ok. by apply (ru_each _ _ _ _ _ _ Hr ci c).
Qed.

Lemma poll_output_ok r t g n cap l q ci e :
  running t g n cap l q → 0 ≤ ci < cap → zlen q + 1 ≤ 3 * cap →
  wp (poll_output r t 0 ci e) (λ t', advanced t' g n cap q 1).
Proof.
  intros Hr Hci Hroom. pose proof (ru_len _ _ _ _ _ _ Hr) as Hlen.
  unfold poll_output. rewrite (get_server_client _ _ _ _ _ _ _ Hr).
  destruct (rd_ok l ci) as (c & Hc & _); [lia|]. rewrite Hc. cbn [mbind outcome_bind].
  destruct (ru_each _ _ _ _ _ _ Hr ci c Hc) as [Hg Hqs].
  assert (advanced t g n cap q 1) as Hsame by (eapply advanced_refl; [exact Hr|lia]).
  destruct (negb _) eqn:Hrun; [done|]. apply negb_false_iff, orb_true_iff in Hrun. rewrite !bool_decide_eq_true in Hrun.
  assert (state c ≠ TCP_CLIENT_FREE) as Hst by (destruct Hrun; congruence).
  destruct (flag _ _); [|done]. destruct (Hqs Hst) as [Hin Hout].
  apply wp_bind. eapply wp_mono; [by apply transmit_ok|]. intros [[qo sent] ok] [Hqo _].
  destruct (set_live_client (log t (Sent (fd (with_output c qo)) sent)) g n cap l q ci c (with_output c qo)) as (t1 & -> & Hr1 & Hc1);
    [by apply running_log|done|done|by split; [|split]|].
  cbn [mbind outcome_bind]. change (state (with_output c qo)) with (state c).
  case_bool_decide as Hcl.
  - destruct (_ || _).
    + eapply wp_mono; [by eapply free_live_client|]. intros t' [l' Hr']. exists l', []. rewrite app_nil_r. by split.
    + cbn [wp]. eapply advanced_refl; [exact Hr1|lia].
  - destruct Hrun as [Hu|]; [|done]. rewrite bool_decide_true by done. cbn [c_assert mbind outcome_bind].
    destruct (negb ok); [|cbn [wp]; eapply advanced_refl; [exact Hr1|lia]].
    destruct (set_live_client t1 g n cap _ q ci _ (with_state (with_output c qo) TCP_CLIENT_HANGUP) Hr1 Hc1 Hst) as (t3 & -> & Hr3 & Hc3);
      [by split; [|split]|]. cbn [mbind outcome_bind].
    destruct (push_event_ok _ _ _ _ _ _ ci _ TCP_EVENT_DISCONNECT Hr3 Hc3) as (t4 & h & -> & _ & Hr4); [lia|].
    cbn [wp]. eexists _, [_]. by split.
Qed.

Lemma for_polled_ok f g n cap k t l q cis revents :
  (∀ t l q ci e, running t g n cap l q → 0 ≤ ci < cap → zlen q + k ≤ 3 * cap → wp (f t ci e) (λ t', advanced t' g n cap q k)) →
  0 ≤ k → Forall (λ ci, 0 ≤ ci < cap) cis → running t g n cap l q → zlen q + k * zlen cis ≤ 3 * cap →
  wp (for_polled f t cis revents) (λ t', advanced t' g n cap q (k * zlen cis)).
Proof.
  intros Hf Hk Hcis. revert t l q revents. induction Hcis as [|ci cis Hci _ IH]; intros t l q revents Hr Hroom; cbn [for_polled].
  - cbn [wp]. eapply advanced_refl; [exact Hr|]. unfold zlen. simpl. lia.
  - rewrite zlen_cons in *. pose proof (zlen_nonneg cis). apply wp_bind.
    eapply wp_mono; [apply (Hf _ _ _ ci _ Hr); [done|nia]|]. intros t1 (l1 & q1 & Hr1 & Hq1).
    eapply wp_mono; [apply (IH t1 l1 (q ++ q1) (tail revents) Hr1); rewrite zlen_app; nia|].
    intros t2 (l2 & q2 & Hr2 & Hq2). exists l2, (q1 ++ q2). rewrite app_assoc. split; [done|]. rewrite zlen_app. nia.
Qed.

Lemma poll_ok malloc t g n cap l h si r :
  allocator_ok malloc → running t g n cap l [] → n < MAX_POLL → server_from_handle t h = Ret (Some si) →
  wp (tcp_server_poll malloc t h r) (λ t', ∃ n' l' q', running t' g n' cap l' q' ∧ n ≤ n').
Proof.
  intros Hm Hr Hn Hh. pose proof (server_resolved _ _ _ _ _ _ _ _ Hr Hh) as ->.
  destruct (running_rd _ _ _ _ _ _ Hr) as (s & Hs & _ & _ & _ & Hcount & Hcap & Hl & Hring).
  pose proof (ru_len _ _ _ _ _ _ Hr) as Hlen. pose proof (ru_live _ _ _ _ _ _ Hr) as Hlive. pose proof (live_bound l).
  unfold tcp_server_poll, server_or_abort. rewrite Hh. cbn [mbind outcome_bind]. rewrite Hs. cbn [mbind outcome_bind].
  rewrite (ri_count _ _ Hring). change (zlen []) with 0. cbn [Z.eqb c_assert mbind outcome_bind].
  rewrite Hcount, (proj2 (Z.leb_gt _ _)) by done. unfold clients_of. rewrite Hl. cbn [mbind outcome_bind].
  rewrite Hcap. rewrite <- Hlen at 1. pose proof (zlen_nonneg l).
  assert (rd_range l 0 (zlen l) = Ret l) as ->.
  { pose proof (rd_range_app [] l [] 0 (zlen l) eq_refl eq_refl) as Hx. by rewrite app_nil_l, app_nil_r in Hx. }
  cbn [mbind outcome_bind]. apply wp_bind. unfold MAX_POLL in Hn.
  eapply wp_mono; [apply poll_clients_ok; lia|]. intros ds [Hds Hall].
  destruct (polled r _) as [revents|]; [|cbn [wp]; exists n, l, []; by split].
  assert (Forall (λ ci, 0 ≤ ci < cap) ds.*1) as Hcis.
  { apply Forall_fmap. eapply Forall_impl; [exact Hall|]. intros d Hd. cbn in *. lia. }
  assert (zlen ds.*1 = zlen ds) as Hzd by (unfold zlen; by rewrite length_fmap).
  apply wp_bind. eapply wp_mono with (Q := λ t1, ∃ n1 l1 q1, running t1 g n1 cap l1 q1 ∧ n ≤ n1 ∧ zlen q1 = n1 - n).
  { destruct (flag _ _); [|cbn [wp]; exists n, l, []; split; [done|change (zlen []) with 0; lia]].
    eapply wp_mono; [apply (accept_clients_ok _ _ _ _ _ _ (accepts r) Hr); change (zlen []) with 0; lia|].
    intros t1 (n1 & l1 & q1 & Hr1 & ? & ? & _). by exists n1, l1, q1. }
  intros t1 (n1 & l1 & q1 & Hr1 & Hn1 & Hq1). pose proof (ru_live _ _ _ _ _ _ Hr1).
  apply wp_bind. eapply wp_mono; [apply (for_polled_ok _ g n1 cap 2 t1 l1 q1); [|lia|done|done|lia]|].
  { intros. by eapply poll_input_ok. }
  intros t2 (l2 & q2 & Hr2 & Hq2). eapply wp_mono; [apply (for_polled_ok _ g n1 cap 1 t2 l2 (q1 ++ q2)); [|lia|done|done|rewrite zlen_app; lia]|].
  { intros. by eapply poll_output_ok. }
  intros t3 (l3 & q3 & Hr3 & _). by exists n1, l3, ((q1 ++ q2) ++ q3).
Qed.
