(* ===== verification/TcpLife.v ===== *)
(** The life of a server of [Tcp], from its creation to its deletion: the
    properties of the connections, with examples, and where they fail. *)
From S2P Require Import Prelude Sockets ByteQueue Tcp TcpHandle TcpSafe TcpServe.
#[global] Open Scope Z_scope.

(** ** Creation and deletion *)

(** The static variables with no server in use. *)
Definition idle (t : tcp) (g : Z) : Prop :=
  (∃ s, servers t = [s] ∧ s_state s = TCP_SERVER_FREE ∧ s_gen s = g) ∧ 0 ≤ g < 2 ^ 12 ∧
  zlen (clients t) = MAX_CLIENTS ∧ clients_ok (clients t).

Definition setup_ok (sys : setup) : bool := addr_ok sys && bind_ok sys && listen_ok sys && nonblocking_ok sys.

Lemma create_ok t g sys max cl evs :
  idle t g → setup_ok sys = true → 0 ≤ max ≤ 2 ^ 14 → zlen cl = max → zlen evs = 3 * max →
  ∃ t', tcp_server_create t sys max (Some (cl, evs)) = Ret (t', packed 0 0 g 1) ∧ Inv g 0 max t'.
Proof.
  intros [(s & Hs & Hst & Hg0) (Hg & Halone & Hok)] Hsys Hmax Hcl Hevs. unfold tcp_server_create, get_server_struct.
  rewrite Hs. cbn [first_free]. rewrite bool_decide_true by done. cbn [mbind outcome_bind]. unfold setup_ok in Hsys. rewrite Hsys.
  cbn [negb]. change (rd [s] 0) with (Ret s). cbn [mbind outcome_bind]. unfold set_server. rewrite Hs, wr_ok by done.
  cbn [mbind outcome_bind]. unfold handle_for_server. cbn [s_gen]. rewrite Hg0, pack_handle_eq by lia. cbn [mbind outcome_bind].
  eexists. split; [done|]. set (l := _ <$> cl). exists l, [].
  assert (∀ i c, rd l i = Ret c → state c = TCP_CLIENT_FREE ∧ gen c = 1) as Hl.
  { intros i c [_ Hc]%rd_inv. unfold l in Hc. rewrite list_lookup_fmap in Hc. destruct (cl !! Z.to_nat i); [|done].
    by injection Hc as <-. }
  split; try done.
  - eexists. split; [done|]. split_and!; try done. split; cbn; try done; [|change (zlen []) with 0; lia|intros k Hk; change (zlen []) with 0 in Hk; lia].
    split; [lia|]. pose proof (zlen_nonneg cl). destruct (decide (max = 0)); [by left|right; lia].
  - unfold l, zlen. by rewrite length_fmap.
  - lia.
  - assert (live l = 0); [|lia]. clear -Hl. clearbody l. induction l as [|c l IH]; [done|]. change (c :: l) with ([c] ++ l).
    rewrite live_app, live_one, IH.
    + unfold in_use. rewrite bool_decide_true; [done|]. by apply (Hl 0).
    + intros i x Hx. pose proof (rd_bounds _ _ _ Hx). apply (Hl (i + 1)). rewrite rd_cons_S by lia. by replace (i + 1 - 1) with i by lia.
  - intros i c Hc. destruct (Hl i c Hc) as [Hst' Hg']. split; [lia|]. by rewrite Hst'.
Qed.

Lemma server_handle t g n cap l q :
  running t g n cap l q → g < 2 ^ 11 → server_from_handle t (packed 0 0 g 1) = Ret (Some 0).
Proof.
  intros Hr Hg. pose proof (ru_gen _ _ _ _ _ _ Hr). destruct (running_rd _ _ _ _ _ _ Hr) as (s & Hs & _ & Hst & Hg0 & _).
  unfold server_from_handle. rewrite (proj2 (Z.eqb_neq _ _)) by (by apply packed_valid).
  rewrite unpack_packed by lia. rewrite (proj2 (handle_fields_same 0 0 g 1 ltac:(lia) ltac:(lia))).
  2:{ symmetry. by apply Z.leb_gt. }
  cbn [Z.eqb negb]. change (MAX_SERVERS <=? 0) with false. cbn [Pos.eqb negb]. rewrite Hs. cbn [mbind outcome_bind]. rewrite Hg0, Z.eqb_refl.
  cbn [negb]. by rewrite bool_decide_true by done.
Qed.

(** The structure is free again, and every socket of the server is closed. *)
Lemma delete_ok t g n cap l q :
  running t g n cap l q → g < 2 ^ 11 →
  ∃ t', tcp_server_delete t (packed 0 0 g 1) = Ret t' ∧ idle t' (next_gen g) ∧
    (∀ i c, rd l i = Ret c → -1 < fd c → Closed (fd c) ∈ net t') ∧ server_from_handle t' (packed 0 0 g 1) = Ret None.
Proof.
  intros Hr Hg. pose proof (server_handle _ _ _ _ _ _ Hr Hg) as Hh. unfold tcp_server_delete, server_or_abort.
  rewrite Hh. cbn [mbind outcome_bind].
  destruct (running_rd _ _ _ _ _ _ Hr) as (s & Hs & Hss & Hst & Hg0 & Hn & Hcap & Hl & _). rewrite Hs. cbn [mbind outcome_bind].
  unfold clients_of. rewrite Hl. cbn [mbind outcome_bind]. destruct Hr. rewrite Hcap. subst cap. pose proof (zlen_nonneg l).
  rewrite Z.max_r by lia. assert (rd_range l 0 (zlen l) = Ret l) as ->.
  { pose proof (rd_range_app [] l [] 0 (zlen l) eq_refl eq_refl) as Hx. by rewrite app_nil_l, app_nil_r in Hx. }
  cbn [mbind outcome_bind]. unfold set_server. cbn [servers]. rewrite Hss, wr_ok by done. cbn [mbind outcome_bind].
  eexists. split; [done|]. split_and!.
  - split; [|split; [by apply next_gen_ok|done]]. eexists. split; [done|]. cbn. by rewrite Hg0.
  - intros i c [_ Hc]%rd_inv Hfd. cbn [net]. apply elem_of_app. right. apply elem_of_app. left.
    apply list_elem_of_omap. exists c. split; [by eapply list_elem_of_lookup_2|]. by rewrite (proj2 (Z.ltb_lt _ _)).
  - unfold server_from_handle. rewrite (proj2 (Z.eqb_neq _ _)) by (by apply packed_valid).
    rewrite unpack_packed by lia. rewrite (proj2 (handle_fields_same 0 0 g 1 ltac:(lia) ltac:(lia))) by (symmetry; by apply Z.leb_gt).
    cbn [Z.eqb negb]. change (MAX_SERVERS <=? 0) with false. cbn [Pos.eqb negb servers]. rewrite rd_insert_eq by done.
    cbn [mbind outcome_bind s_gen]. rewrite Hg0. unfold next_gen. rewrite u16_small by lia.
    destruct (Z.eqb_spec (g + 1) GEN_UPPER_BOUND) as [He|]; [change GEN_UPPER_BOUND with (2 ^ 12) in He; lia|].
    by rewrite (proj2 (Z.eqb_neq (g + 1) g)) by lia.
Qed.

(** ** What a program does with a server *)

Inductive op : Type :=
  | Poll (malloc : allocator) (r : poll_round)
  | Event
  | Close (h : Z)
  | Read (h num : Z)
  | Write (malloc : allocator) (h : Z) (bytes : list Z).

Definition run_op (sh : Z) (t : tcp) (o : op) : outcome tcp :=
  match o with
  | Poll malloc r => tcp_server_poll malloc t sh r
  | Event => '(t, _) ← tcp_server_event t sh; Ret t
  | Close h => tcp_client_close t h
  | Read h num => tcp_client_read t h num
  | Write malloc h bytes => tcp_client_write malloc t h bytes
  end.

Fixpoint run_ops (sh : Z) (t : tcp) (os : list op) : outcome tcp :=
  match os with [] => Ret t | o :: os => t ← run_op sh t o; run_ops sh t os end.

(** The handle was made for a client that is in use, and its place agrees with
    its generation ([tcp_client_handle_roundtrip], [odd_client_aborts]). *)
Definition handle_good (t : tcp) (h : Z) (P : TCPClient → Prop) : Prop :=
  ∃ ci c, get_client t (Some 0, ci) = Ret c ∧ state c ≠ TCP_CLIENT_FREE ∧
    handle_for_client (Some 0, ci) c = Ret h ∧ Z.odd ci = (2 ^ 11 <=? gen c) ∧ P c.

(** The server is polled when its events were taken and it has taken fewer
    connections than a poll array has places ([s_count] never gets less, so
    these are the connections of its life: [many_connections_abort]); no more
    is read than there is; and a write fits ([write_fits]). *)
Definition op_ok (t : tcp) (o : op) : Prop :=
  match o with
  | Poll malloc _ => allocator_ok malloc ∧ ∃ s, rd (servers t) 0 = Ret s ∧ s_events_count s = 0 ∧ s_count s < MAX_POLL
  | Event => True
  | Close h => handle_good t h (λ _, True)
  | Read h num => handle_good t h (λ c, 0 ≤ num ≤ byte_queue_used_space (input c))
  | Write malloc h bytes => allocator_ok malloc ∧ zlen bytes < 2 ^ 60 ∧ handle_good t h (λ c, write_fits malloc c bytes)
  end.

(** The handle of a client in use leads to it when place and generation
    agree. *)
Lemma handle_leads t g n cap l q ci c :
  running t g n cap l q → rd l ci = Ret c → state c ≠ TCP_CLIENT_FREE → Z.odd ci = (2 ^ 11 <=? gen c) →
  client_from_handle t (packed 1 ci (gen c) 0) = Ret (Some (Some 0, ci), Some (Some 0)).
Proof.
  intros Hr Hc Hst Hsame. pose proof (rd_bounds _ _ _ Hc) as Hb. destruct (ru_each _ _ _ _ _ _ Hr ci c Hc) as [Hg _].
  pose proof (ru_len _ _ _ _ _ _ Hr) as Hlen. pose proof (ru_cap _ _ _ _ _ _ Hr) as Hcap. rewrite Hlen in Hb.
  destruct (running_rd _ _ _ _ _ _ Hr) as (s & Hs & _ & _ & _ & _ & Hsc & Hl & _).
  unfold client_from_handle. rewrite (proj2 (Z.eqb_neq _ _)) by (apply packed_valid; lia). rewrite unpack_packed by lia.
  rewrite (proj2 (handle_fields_same 1 ci (gen c) 0 ltac:(lia) ltac:(lia)) Hsame). cbn [Z.eqb negb].
  change (MAX_SERVERS <=? 1 - 1) with false. change (1 - 1) with 0. rewrite Hs. cbn [mbind outcome_bind].
  rewrite Hsc, u32_small, (proj2 (Z.leb_gt cap ci)) by lia. unfold clients_of. rewrite Hl. cbn [mbind outcome_bind].
  rewrite Hc. cbn [mbind outcome_bind]. rewrite Z.eqb_refl. cbn [negb]. by rewrite bool_decide_false by done.
Qed.

Lemma client_handle_eq t g n cap l q ci c :
  running t g n cap l q → rd l ci = Ret c → handle_for_client (Some 0, ci) c = Ret (packed 1 ci (gen c) 0).
Proof.
  intros Hr Hc. pose proof (rd_bounds _ _ _ Hc) as Hb. destruct (ru_each _ _ _ _ _ _ Hr ci c Hc) as [Hg _].
  pose proof (ru_len _ _ _ _ _ _ Hr). pose proof (ru_cap _ _ _ _ _ _ Hr). apply pack_handle_eq; cbn; lia.
Qed.

Lemma handle_good_resolves t g n cap l q h P :
  running t g n cap l q → handle_good t h P →
  ∃ r o, client_from_handle t h = Ret (Some r, o) ∧ ∀ c, get_client t r = Ret c → P c.
Proof.
  intros Hr (ci & c & Hget & Hst & Hh & Hsame & HP). assert (rd l ci = Ret c) as Hc by (by rewrite <- (get_server_client _ _ _ _ _ _ ci Hr)).
  rewrite (client_handle_eq _ _ _ _ _ _ ci c Hr Hc) in Hh. injection Hh as <-. exists (Some 0, ci), (Some (Some 0)).
  split; [by eapply handle_leads|]. intros c' Hc'. by assert (c' = c) as -> by congruence.
Qed.

Inductive ops_ok (sh : Z) : tcp → list op → Prop :=
  | ops_nil t : ops_ok sh t []
  | ops_cons t o os :
      op_ok t o → (∀ t', run_op sh t o = Ret t' → ops_ok sh t' os) → ops_ok sh t (o :: os).

Lemma tcp_run_op_ok g n cap t o :
  Inv g n cap t → g < 2 ^ 11 → op_ok t o →
  wp (run_op (packed 0 0 g 1) t o) (λ t', ∃ n', n ≤ n' ≤ cap ∧ Inv g n' cap t').
Proof.
  intros HI Hg Ho. pose proof HI as (l & q & Hr). pose proof (ru_live _ _ _ _ _ _ Hr) as Hlive.
  pose proof (server_handle _ _ _ _ _ _ Hr Hg) as Hh.
  assert (∀ t', Inv g n cap t' → ∃ n', n ≤ n' ≤ cap ∧ Inv g n' cap t') as Hsame by (intros t' ?; exists n; split; [lia|done]).
  destruct o as [malloc r| |h|h num|malloc h bytes]; cbn [run_op op_ok] in *.
  - destruct Ho as (Hm & s & Hs & Hev & Hn). destruct (running_rd _ _ _ _ _ _ Hr) as (s' & Hs' & _ & _ & _ & Hcount & _ & _ & Hring).
    assert (s' = s) as -> by congruence. assert (q = []) as -> by (apply zlen_0_inv; by rewrite <- (ri_count _ _ Hring)).
    eapply wp_mono; [apply (poll_ok malloc t g n cap l (packed 0 0 g 1) 0 r Hm Hr); [lia|exact Hh]|]. intros t' (n' & l' & q' & Hr' & Hn'). exists n'.
    pose proof (ru_live _ _ _ _ _ _ Hr'). split; [lia|]. by exists l', q'.
  - apply wp_bind. eapply wp_mono; [by eapply event_ok|]. intros [t' e] He. cbn [wp]. apply Hsame.
    destruct q as [|e0 q]; [destruct He as [-> _]; done|]. destruct He as [_ Hr']. by exists l, q.
  - destruct (handle_good_resolves _ _ _ _ _ _ _ _ Hr Ho) as (r & x & Hx & _). eapply wp_mono; [by eapply close_inv|done].
  - destruct (handle_good_resolves _ _ _ _ _ _ _ _ Hr Ho) as (r & x & Hx & HP). eapply wp_mono; [by eapply read_inv|done].
  - destruct Ho as (Hm & Hlen & Hgood).
    destruct (handle_good_resolves _ _ _ _ _ _ _ _ Hr Hgood) as (r & x & Hx & HP). eapply wp_mono; [by eapply write_inv|done].
Qed.

Lemma tcp_run_ops_ok g n cap t os :
  Inv g n cap t → g < 2 ^ 11 → ops_ok (packed 0 0 g 1) t os →
  wp (run_ops (packed 0 0 g 1) t os) (λ t', ∃ n', n ≤ n' ≤ cap ∧ Inv g n' cap t').
Proof.
  intros HI Hg Hos. remember (packed 0 0 g 1) as sh eqn:Hsh. revert n HI. induction Hos as [t|t o os Ho _ IH]; intros n HI; simpl.
  - exists n. destruct HI as (l & q & Hr). pose proof (ru_live _ _ _ _ _ _ Hr). split; [lia|]. by exists l, q.
  - subst sh. apply wp_bind. destruct (wp_inv _ _ (tcp_run_op_ok g n cap t o HI Hg Ho)) as (t' & Ht' & n1 & Hn1 & HI1).
    rewrite Ht'. cbn [wp]. eapply wp_mono; [by apply (IH t' Ht' n1)|]. intros t2 (n2 & Hn2 & HI2). exists n2. split; [lia|done].
Qed.

(** ** What the connections promise *)

(** C9.  A server of the first half of the generations that was created for at
    most 2^14 connections serves every program that takes its events before it
    polls again, polls only while fewer than 128 connections were taken since
    the creation, uses the handles made for clients in use at places that agree
    with their generation (the even places, for a new client), reads no more
    than there is and writes what fits (fewer than 2^60 bytes), with a [malloc]
    that gives blocks of the size asked for ([allocator_ok]): no failed
    assertion, no access outside of an array, no overflow of the ring of
    events; and deleting it then frees the structure and makes its handle
    invalid.  Outside of these bounds it fails: [odd_client_aborts],
    [many_connections_abort], [write_after_send_overflows]. *)
Theorem tcp_server_safe t g sys max cl evs os :
  idle t g → g < 2 ^ 11 → setup_ok sys = true → 0 ≤ max ≤ 2 ^ 14 → zlen cl = max → zlen evs = 3 * max →
  ∃ t1 h, tcp_server_create t sys max (Some (cl, evs)) = Ret (t1, h) ∧ server_from_handle t1 h = Ret (Some 0) ∧
    (ops_ok h t1 os → wp (t2 ← run_ops h t1 os; tcp_server_delete t2 h) (λ t3,
      idle t3 (next_gen g) ∧ server_from_handle t3 h = Ret None)).
Proof.
  intros Ht Hg Hsys Hmax Hcl Hevs. destruct (create_ok t g sys max cl evs Ht Hsys Hmax Hcl Hevs) as (t1 & Hcreate & HI).
  exists t1, (packed 0 0 g 1). split; [done|]. split; [destruct HI as (l & q & Hr); by eapply server_handle|].
  intros Hos. apply wp_bind. eapply wp_mono; [by eapply tcp_run_ops_ok|]. intros t2 (n & _ & l & q & Hr).
  destruct (delete_ok t2 g n max l q Hr Hg) as (t3 & -> & Hidle & _ & Hgone). by split.
Qed.

(** The handle of a client leads back to it exactly when the lowest bit
    of the index is the top bit of the generation: the two share a bit of the
    handle.  (A new client has generation 1; at an odd index its handle is
    never any good.) *)
Theorem tcp_client_handle_roundtrip t g n cap l q ci c :
  running t g n cap l q → rd l ci = Ret c → state c ≠ TCP_CLIENT_FREE →
  ∃ h, handle_for_client (Some 0, ci) c = Ret h ∧
    if bool_decide (Z.odd ci = (2 ^ 11 <=? gen c))
    then client_from_handle t h = Ret (Some (Some 0, ci), Some (Some 0))
    else ∀ o, client_from_handle t h ≠ Ret (Some (Some 0, ci), o).
Proof.
  intros Hr Hc Hst. pose proof (rd_bounds _ _ _ Hc) as Hb. destruct (ru_each _ _ _ _ _ _ Hr ci c Hc) as [Hg _].
  pose proof (ru_len _ _ _ _ _ _ Hr) as Hlen. pose proof (ru_cap _ _ _ _ _ _ Hr) as Hcap. rewrite Hlen in Hb.
  exists (packed 1 ci (gen c) 0). split; [by eapply client_handle_eq|]. case_bool_decide as Hsame; [by eapply handle_leads|].
  destruct (running_rd _ _ _ _ _ _ Hr) as (s & Hs & _ & _ & _ & _ & Hsc & Hl & _).
  unfold client_from_handle. rewrite (proj2 (Z.eqb_neq _ _)) by (apply packed_valid; lia). rewrite unpack_packed by lia.
  intros o. unfold handle_fields. cbn [Z.eqb negb]. change (MAX_SERVERS <=? 1 - 1) with false. change (1 - 1) with 0. rewrite Hs. cbn [mbind outcome_bind].
    destruct (u32 (s_capacity s) <=? _); [done|]. unfold clients_of. rewrite Hl. cbn [mbind outcome_bind].
    destruct (rd l (Z.lor ci (Z.shiftr (gen c) 11))) as [x|] eqn:Hx; [|done]. cbn [mbind outcome_bind]. destruct (Z.eqb_spec (Z.lor (gen c) (Z.shiftl (Z.land ci 1) 11)) (gen x)) as [Hgx|]; cbn [negb]; [|done].
    destruct (c_assert _); [|done]. cbn [mbind outcome_bind]. intros [= He _]. apply Hsame.
    apply (handle_fields_same 1 ci (gen c) 0); [lia|lia|]. unfold handle_fields. rewrite He in *. assert (x = c) as -> by congruence.
    by rewrite Hgx.
Qed.

(** C26.  The events of a server are first in, first out: each of a client is
    put behind the others, with the client's handle, and the program gets the
    oldest one, or [TCP_EVENT_NONE] when there is none. *)
Theorem tcp_events_fifo t g n cap l q :
  running t g n cap l q → g < 2 ^ 11 →
  (∀ ci c ty, rd l ci = Ret c → zlen q < 3 * cap →
     ∃ t' h, push_event t 0 ci ty = Ret t' ∧ handle_for_client (Some 0, ci) c = Ret h ∧
       running t' g n cap l (q ++ [mkTCPEvent ty h])) ∧
  wp (tcp_server_event t (packed 0 0 g 1)) (λ '(t', e), match q with
    | [] => t' = t ∧ e = mkTCPEvent TCP_EVENT_NONE TCP_INVALID
    | e0 :: q' => e = e0 ∧ running t' g n cap l q'
    end).
Proof.
  intros Hr Hg. split.
  - intros ci c ty Hc Hroom. by apply push_event_ok.
  - eapply event_ok; [done|]. by eapply server_handle.
Qed.

(** C25.  The queues of a connection carry its streams: what has come in is put
    behind the bytes that wait to be read (all of it, when the answer is that
    the connection goes on), as long as nothing was read before; what goes out
    is the front of the bytes that wait to be sent, however the socket splits
    it. *)
Theorem tcp_transfer_correct malloc q xs a d :
  allocator_ok malloc → content q xs → capacity q < 2 ^ 48 →
  (head q = 0 → wp (move_bytes_from_socket_to_queue malloc q a) (λ '(q', ret, moved),
     ∃ got rest, concat (pieces a) = got ++ rest ∧ content q' (xs ++ got) ∧ head q' = 0 ∧
       (ret = -1 ∨ ret = 0 ∨ ret = 1) ∧ (ret = 1 → rest = [] ∧ input_broken a = false) ∧
       moved = if ret =? -1 then None else Some (zlen got))) ∧
  wp (move_bytes_from_queue_to_socket q d) (λ '(q', sent, ok), ∃ rest, xs = sent ++ rest ∧ content q' rest).
Proof.
  intros Hm Hq Hcap. assert (queue_ok q) as Hok by (split; [by exists xs|done]). split.
  - intros Hh. eapply wp_mono; [by apply receive_ok|]. intros [[q' ret] moved] (_ & Hret & Hfront).
    destruct (Hfront Hh xs Hq) as (? & got & rest & ? & ? & ? & ?). by exists got, rest.
  - eapply wp_mono; [by apply transmit_ok|]. intros [[q' sent] ok] [_ Hc]. by apply Hc.
Qed.

(** ** An example *)

Definition no_client : TCPClient := mkTCPClient TCP_CLIENT_FREE false false 0 0 0 byte_queue_init byte_queue_init.
Definition no_event : TCPEvent := mkTCPEvent TCP_EVENT_NONE 0.

(** The static variables at the start of a program. *)
Definition example_tcp : tcp := mkTcp [mkTCPServer TCP_SERVER_FREE 0 0 0 0 None 0 0 []] [no_client] [].
Definition example_setup : setup := mkSetup 3 true true true true.
Definition example_malloc : allocator :=
  λ n, if (0 <=? n) && (n <? 10 ^ 6) then Some (replicate (Z.to_nat n) 0) else None.

Definition create (cap : nat) : outcome (tcp * Z) :=
  tcp_server_create example_tcp example_setup (Z.of_nat cap) (Some (replicate cap no_client, replicate (3 * cap) no_event)).

(** Polls in which connections arrive (with [n] clients before), in which the
    clients get input, and in which the first one's output is taken. *)
Definition connect (n : nat) (fds : list Z) : poll_round :=
  mkPollRound (λ _, Some (replicate n 0 ++ [POLLIN])) ((λ x, Accepted x true) <$> fds)
    (λ _, mkArrival [] false) (λ _, mkDeparture [] false) 0.
Definition arrive (l : list (list (list Z))) : poll_round :=
  mkPollRound (λ _, Some (replicate (length l) POLLIN)) [] (λ ci, mkArrival (nth (Z.to_nat ci) l []) false)
    (λ _, mkDeparture [] false) 0.
Definition take_output (n : nat) : poll_round :=
  mkPollRound (λ _, Some [POLLOUT]) [] (λ _, mkArrival [] false) (λ _, mkDeparture [n] false) 0.

Lemma tcp_example_malloc_ok : allocator_ok example_malloc.
Proof.
  intros n block. unfold example_malloc. destruct (Z.leb_spec 0 n); [|done]. destruct (Z.ltb_spec n (10 ^ 6)); [|done].
  intros [= <-]. unfold zlen. rewrite length_replicate. lia.
Qed.

Lemma example_idle : idle example_tcp 0.
Proof.
  split; [by eexists|]. split; [lia|]. split; [done|]. intros i c [Hi Hc]%rd_inv. change (zlen (clients example_tcp)) with 1 in Hi.
  replace i with 0 in Hc by lia. injection Hc as <-. split; [cbn; lia|done].
Qed.

(** A client connects, is sent "ok", and the connection is closed. *)
Definition example_ops : list op :=
  [Poll example_malloc (connect 0 [7]); Event; Write example_malloc 134217730 (chars "ok"); Close 134217730].

Definition example_server : tcp := match create 2 with Ret (t, _) => t | Fail _ => example_tcp end.

Lemma example_ops_ok : ops_ok (packed 0 0 0 1) example_server example_ops.
Proof.
  constructor; [split; [exact tcp_example_malloc_ok|eexists; by vm_compute]|].
  intros t1 H1. vm_compute in H1. injection H1 as <-. constructor; [done|].
  intros t2 H2. vm_compute in H2. injection H2 as <-. constructor.
  - split; [exact tcp_example_malloc_ok|]. split; [by vm_compute|]. eexists 0, _. split; [by vm_compute|].
    split; [done|]. split; [by vm_compute|]. split; [by vm_compute|]. split; [left; by vm_compute|]. intros q. by vm_compute.
  - intros t3 H3. vm_compute in H3. injection H3 as <-. constructor.
    + eexists 0, _. split; [by vm_compute|]. split; [done|]. split_and!; by vm_compute.
    + intros t4 H4. constructor.
Qed.

Theorem tcp_server_safe_witness :
  ∃ t1 h, create 2 = Ret (t1, h) ∧ server_from_handle t1 h = Ret (Some 0) ∧
    wp (t2 ← run_ops h t1 example_ops; tcp_server_delete t2 h) (λ t3,
      idle t3 (next_gen 0) ∧ server_from_handle t3 h = Ret None).
Proof.
  destruct (tcp_server_safe example_tcp 0 example_setup 2 (replicate 2 no_client) (replicate 6 no_event) example_ops)
    as (t1 & h & Hcreate & Hh & Hrun); [exact example_idle|lia|reflexivity|lia|reflexivity|reflexivity|].
  exists t1, h. split; [exact Hcreate|]. split; [exact Hh|]. apply Hrun.
  assert (create 2 = Ret (example_server, packed 0 0 0 1)) as Hsrv by (by vm_compute).
  assert (Ret (t1, h) = Ret (example_server, packed 0 0 0 1)) as Heq by (rewrite <- Hsrv; symmetry; exact Hcreate).
  injection Heq as -> ->. exact example_ops_ok.
Defined.

(** The server with a client that was sent "ok", and an event. *)
Definition example_busy : tcp :=
  match run_ops (packed 0 0 0 1) example_server [Poll example_malloc (connect 0 [7])] with Ret t => t | Fail _ => example_tcp end.
Definition example_clients : list TCPClient :=
  match servers example_busy with s :: _ => default [] (s_clients s) | [] => [] end.
Definition example_client : TCPClient := match example_clients with c :: _ => c | [] => no_client end.

Lemma example_running : running example_busy 0 1 2 example_clients [mkTCPEvent TCP_EVENT_CONNECT 134217730].
Proof.
  assert (Inv 0 0 2 example_server) as (l & q & Hr).
  { destruct (create_ok example_tcp 0 example_setup 2 (replicate 2 no_client) (replicate 6 no_event)) as (t & Ht & HI);
      [exact example_idle|done|lia|done|done|]. assert (create 2 = Ret (t, packed 0 0 0 1)) as Hcr by exact Ht. unfold example_server. by rewrite Hcr. }
  pose proof (running_rd _ _ _ _ _ _ Hr) as (s & Hs & _ & _ & _ & _ & _ & Hl & Hring). vm_compute in Hs. injection Hs as <-.
  cbn [s_clients] in Hl. injection Hl as <-. assert (q = []) as -> by (apply zlen_0_inv; symmetry; exact (ri_count _ _ Hring)).
  assert (wp (accept_client example_server 0 7) (λ t', ∃ l' e, running t' 0 (0 + 1) 2 l' ([] ++ [e]) ∧ type e = TCP_EVENT_CONNECT ∧ kept _ l'))
    as Hacc by (apply (tcp_accept_client_ok _ _ _ _ _ _ 7 Hr); [lia|by vm_compute]).
  assert (accept_client example_server 0 7 = Ret example_busy) as Hrun by (by vm_compute). rewrite Hrun in Hacc.
  destruct Hacc as (l' & e & Hr' & _). pose proof (running_rd _ _ _ _ _ _ Hr') as (s & Hs & _ & _ & _ & _ & _ & Hl & Hring').
  vm_compute in Hs. injection Hs as <-. pose proof (ri_at _ _ Hring' 0 ltac:(by vm_compute)) as He. vm_compute in He. injection He as <-.
  cbn [s_clients] in Hl. injection Hl as <-. exact Hr'.
Qed.

Theorem tcp_client_handle_roundtrip_witness :
  ∃ h, handle_for_client (Some 0, 0) example_client = Ret h ∧
    client_from_handle example_busy h = Ret (Some (Some 0, 0), Some (Some 0)).
Proof.
  exact (tcp_client_handle_roundtrip example_busy 0 1 2 example_clients _ 0 example_client example_running
    ltac:(by vm_compute) ltac:(by vm_compute)).
Defined.

Theorem tcp_events_fifo_witness :
  (∀ ci c ty, rd example_clients ci = Ret c → 1 < 3 * 2 →
     ∃ t' h, push_event example_busy 0 ci ty = Ret t' ∧ handle_for_client (Some 0, ci) c = Ret h ∧
       running t' 0 1 2 example_clients ([mkTCPEvent TCP_EVENT_CONNECT 134217730] ++ [mkTCPEvent ty h])) ∧
  wp (tcp_server_event example_busy (packed 0 0 0 1)) (λ '(t', e),
    e = mkTCPEvent TCP_EVENT_CONNECT 134217730 ∧ running t' 0 1 2 example_clients []).
Proof.
  exact (tcp_events_fifo example_busy 0 1 2 example_clients [mkTCPEvent TCP_EVENT_CONNECT 134217730] example_running ltac:(lia)).
Defined.

Theorem tcp_transfer_correct_witness :
  (0 = 0 → wp (move_bytes_from_socket_to_queue example_malloc byte_queue_init (mkArrival [chars "ab"; chars "c"] false))
    (λ '(q', ret, moved), ∃ got rest, chars "abc" = got ++ rest ∧ content q' ([] ++ got) ∧ head q' = 0 ∧
       (ret = -1 ∨ ret = 0 ∨ ret = 1) ∧ (ret = 1 → rest = [] ∧ false = false) ∧
       moved = if ret =? -1 then None else Some (zlen got))) ∧
  wp (move_bytes_from_queue_to_socket byte_queue_init (mkDeparture [1%nat] false)) (λ '(q', sent, ok),
    ∃ rest, [] = sent ++ rest ∧ content q' rest).
Proof.
  refine (tcp_transfer_correct example_malloc byte_queue_init [] (mkArrival [chars "ab"; chars "c"] false) (mkDeparture [1%nat] false) _ _ _);
    [exact tcp_example_malloc_ok|exact content_init|reflexivity].
Defined.

(** ** Where they fail *)

(** The program of a server for [cap] clients, whose first client connects. *)
Definition with_client {A} (cap : nat) (f : tcp → Z → Z → outcome A) : outcome A :=
  '(t, sh) ← create cap;
  t ← tcp_server_poll example_malloc t sh (connect 0 [7]);
  '(t, e) ← tcp_server_event t sh;
  f t sh (handle e).

(** The second client of a server cannot be served: the handle of its own
    event ends the program. *)
Lemma odd_client_aborts :
  ('(t, sh) ← create 2;
   t ← tcp_server_poll example_malloc t sh (connect 0 [7; 8]);
   '(t, _) ← tcp_server_event t sh;
   '(t, e) ← tcp_server_event t sh;
   tcp_client_get_input_size t (handle e)) = Fail Aborted.
Proof. by vm_compute. Qed.

(** A server that has taken 128 connections, of which none may be left, ends
    the program when it is polled. *)
Lemma many_connections_abort malloc t g n cap l q r :
  running t g n cap l q → g < 2 ^ 11 → q = [] → MAX_POLL ≤ n →
  tcp_server_poll malloc t (packed 0 0 g 1) r = Fail Aborted.
Proof.
  intros Hr Hg -> Hn. pose proof (server_handle _ _ _ _ _ _ Hr Hg) as Hh.
  destruct (running_rd _ _ _ _ _ _ Hr) as (s & Hs & _ & _ & _ & Hcount & _ & _ & Hring).
  unfold tcp_server_poll, server_or_abort. rewrite Hh. cbn [mbind outcome_bind]. rewrite Hs. cbn [mbind outcome_bind].
  rewrite (ri_count _ _ Hring). change (zlen [] =? 0) with true. cbn [c_assert mbind outcome_bind].
  by rewrite Hcount, (proj2 (Z.leb_le MAX_POLL n)) by done.
Qed.

(** The number of clients is never decreased: when as many connections were
    taken as there are places, no other one is, whatever was closed. *)
Lemma full_server_accepts_nobody t g cap l q answers :
  running t g cap cap l q → accept_clients t 0 answers = Ret t.
Proof.
  intros (s & Hs & _ & _ & _ & Hn & Hcap & _)%running_rd.
  destruct answers; cbn [accept_clients]; rewrite Hs; cbn [mbind outcome_bind]; rewrite Hn, Hcap, Z.ltb_irrefl; done.
Qed.

Lemma closed_place_lost :
  with_client 1 (λ t sh h,
    t ← tcp_client_close t h;
    t ← tcp_server_poll example_malloc t sh (connect 0 [8]);
    '(_, e) ← tcp_server_event t sh;
    Ret (type e)) = Ret TCP_EVENT_NONE.
Proof. by vm_compute. Qed.

(** A write that must grow an array from which bytes were sent goes past its
    end. *)
Lemma write_after_send_overflows :
  with_client 1 (λ t sh h,
    t ← tcp_client_write example_malloc t h (chars "abcd");
    t ← tcp_server_poll example_malloc t sh (take_output 2);
    tcp_client_write example_malloc t h (chars "efghij")) = Fail OutOfBounds.
Proof. by vm_compute. Qed.

(** Of a client that reads all of its input each time, the later input is not
    what was sent. *)
Lemma input_corrupted :
  let sent := replicate 312 (c_a) ++ replicate 10 (c_z) in
  with_client 1 (λ t sh h,
    t ← tcp_server_poll example_malloc t sh (arrive [[replicate 200 (c_0)]]);
    '(t, _) ← tcp_server_event t sh;
    n ← tcp_client_get_input_size t h;
    t ← tcp_client_read t h n;
    t ← tcp_server_poll example_malloc t sh (arrive [[sent]]);
    n ← tcp_client_get_input_size t h;
    start ← tcp_client_get_input_data t h;
    c ← get_client t (Some 0, 0);
    got ← rd_range (data (input c)) start n;
    Ret (n, bool_decide (got = sent))) = Ret (322, false).
Proof. by vm_compute. Qed.

(** The output of a client that was closed is dropped when the peer hangs up
    its side, and the program is told of a client it has closed. *)
Lemma closed_output_dropped :
  with_client 1 (λ t sh h,
    t ← tcp_client_write example_malloc t h (chars "abcd");
    t ← tcp_client_close t h;
    t ← tcp_server_poll example_malloc t sh
      (mkPollRound (λ _, Some [Z.lor POLLOUT POLLHUP]) [] (λ _, mkArrival [[]] false) (λ _, mkDeparture [4%nat] false) 0);
    '(t, e) ← tcp_server_event t sh;
    c ← get_client t (Some 0, 0);
    Ret (type e, state c, byte_queue_used_space (output c))) = Ret (TCP_EVENT_DISCONNECT, TCP_CLIENT_HANGUP, 4).
Proof. by vm_compute. Qed.

(** A client that stands alone fails an assertion when its peer hangs up while
    it has output to send. *)
Lemma hangup_with_output_asserts :
  ('(t, h) ← tcp_client_create example_tcp example_setup;
   t ← tcp_client_write example_malloc t h (chars "abcd");
   tcp_client_poll example_malloc t h (λ _, Some (Z.lor POLLIN POLLOUT)) (mkArrival [chars "bye"; []] false)
     (mkDeparture [4%nat] false) 0) = Fail AssertFail.
Proof. by vm_compute. Qed.

(** A failed [recv] leaves [moved] unset: an event of data that never came is
    reported when the variable holds something. *)
Lemma unset_moved_reported :
  with_client 1 (λ t sh h,
    t ← tcp_server_poll example_malloc t sh
      (mkPollRound (λ _, Some [POLLIN]) [] (λ _, mkArrival [] true) (λ _, mkDeparture [] false) 1);
    '(t, e) ← tcp_server_event t sh;
    n ← tcp_client_get_input_size t h;
    Ret (type e, n)) = Ret (TCP_EVENT_DATA, 0).
Proof. by vm_compute. Qed.
