(* ===== verification/HttpConn.v ===== *)
(** The buffers of a connection of [HttpServer]: what they hold, and what
    receiving, appending and sending do to it. *)
From S2P Require Import Prelude Sockets HttpParse HttpServer.
#[global] Open Scope Z_scope.

(** ** What a buffer holds *)

Definition bytes (b : iobuf) : list Z := take (Z.to_nat (used b)) (default [] (data b)).

(** What [malloc] is taken to be: during a turn it answers by the size that is
    asked for, with a block of that size below 10^9 bytes.  (A response leaves
    nine places for the length of its content, and asserts that they are
    enough: see [ten_digits] of [HttpReply].) *)
Definition BLOCK_MAX : Z := 10 ^ 9.

Definition malloc_ok (malloc : allocator) : Prop :=
  ∀ n block, malloc n = Some block → zlen block = n ∧ n < BLOCK_MAX.

Definition buf_ok (b : iobuf) : Prop :=
  match data b with
  | None => size b = 0 ∧ used b = 0
  | Some d => size b = zlen d ∧ 0 ≤ used b ≤ size b ∧ size b < BLOCK_MAX
  end.

(** The bytes of a buffer hold a whole request head. *)
Definition has_head (l : list Z) : Prop := ∃ pre post, l = pre ++ CRLF2 ++ post.

Lemma null_buf_ok : buf_ok NULL_BUF.
Proof. done. Qed.

Lemma bytes_null : bytes NULL_BUF = [].
Proof. done. Qed.

Lemma buf_range b : buf_ok b → 0 ≤ used b ≤ size b ∧ size b < 10 ^ 9.
Proof. unfold buf_ok, BLOCK_MAX. destruct (data b); lia. Qed.

Lemma zlen_bytes b : buf_ok b → zlen (bytes b) = used b.
Proof.
  unfold buf_ok, bytes. destruct (data b) as [d|]; simpl; [|rewrite take_nil; by intros [_ ->]].
  intros (Hs & Hu & _). apply zlen_take. lia.
Qed.

Lemma buf_split b d : buf_ok b → data b = Some d → ∃ rest, d = bytes b ++ rest.
Proof.
  intros _ Hd. exists (drop (Z.to_nat (used b)) d). unfold bytes. rewrite Hd. simpl. by rewrite take_drop.
Qed.

(** Bytes at the front of a block. *)
Lemma bytes_front d l rest n : d = l ++ rest → n = zlen l → bytes (mkIobuf (Some d) (zlen d) n) = l.
Proof. intros -> ->. unfold bytes, zlen. simpl. by rewrite Nat2Z.id, take_app_length. Qed.

Lemma has_head_app l k : has_head l → has_head (l ++ k).
Proof. intros (pre & post & ->). exists pre, (post ++ k). by rewrite <-!app_assoc. Qed.

Lemma buf_read_front b pre l post :
  buf_ok b → bytes b = pre ++ l ++ post → 0 < zlen l → buf_read b (zlen pre) (zlen l) = Ret l.
Proof.
  intros Hb Hl Hpos. unfold buf_read. destruct (data b) as [d|] eqn:Hd.
  - destruct (buf_split b d Hb Hd) as [rest ->]. rewrite Hl, <-!app_assoc. by apply rd_range_app.
  - unfold bytes in Hl. rewrite Hd in Hl. simpl in Hl. rewrite take_nil in Hl.
    symmetry in Hl. apply app_nil in Hl as [_ [-> _]%app_nil]. done.
Qed.

(** ** Searching *)

(** The search finds the first place where the bytes hold the needle. *)
Lemma find_ok b needle :
  buf_ok b → 0 < zlen needle →
  wp (find b needle) (λ i,
    (i = SIZE_MAX ∧ ∀ pre post, bytes b ≠ pre ++ needle ++ post) ∨
    ∃ pre post, i = zlen pre ∧ bytes b = pre ++ needle ++ post).
Proof.
  intros Hb Hn. pose proof (zlen_bytes b Hb) as Hlen. pose proof (buf_range b Hb) as [Hu Hs].
  unfold find. destruct (Z.eqb_spec (zlen needle) 0); [lia|]. cbn [orb].
  assert (∀ pre post, bytes b = pre ++ needle ++ post → zlen pre + zlen needle ≤ used b) as Hfit.
  { intros pre post Hl. rewrite Hl, !zlen_app in Hlen. pose proof (zlen_nonneg post). lia. }
  destruct (Z.ltb_spec (used b) (zlen needle - 1)).
  { left. split; [done|]. intros pre post Hl. specialize (Hfit _ _ Hl). pose proof (zlen_nonneg pre). lia. }
  rewrite u64_small by lia.
  apply (wp_loop (λ i, 0 ≤ i ≤ used b - zlen needle + 1 ∧
           ∀ pre post, bytes b = pre ++ needle ++ post → i ≤ zlen pre)
           (λ i, Z.to_nat (used b - i))); [split; [lia|intros; apply zlen_nonneg]|lia|].
  intros i [Hi Hpre]. destruct (Z.ltb_spec i (used b - zlen needle + 1)).
  2:{ simpl. left. split; [done|]. intros pre post Hl. specialize (Hfit _ _ Hl). specialize (Hpre _ _ Hl). lia. }
  destruct (list_split3 (bytes b) i (zlen needle)) as (pre & l & post & Hl & Hp & Hz & _); [lia..|].
  rewrite <- Hp, <- Hz, (buf_read_front b pre l post Hb Hl) by lia. simpl.
  case_bool_decide as Heq; simpl.
  - subst l. right. by exists pre, post.
  - split; [|lia]. split; [lia|]. intros pre' post' Hl'. specialize (Hpre _ _ Hl').
    destruct (decide (zlen pre' = zlen pre)) as [He|]; [|lia]. exfalso. apply Heq. rewrite Hl in Hl'.
    apply app_inj_1 in Hl' as [_ Hl']; [|unfold zlen in *; lia].
    apply app_inj_1 in Hl' as [-> _]; [done|unfold zlen in *; lia].
Qed.

Lemma find_head b :
  buf_ok b →
  wp (find b CRLF2) (λ i, if i =? SIZE_MAX then ¬ has_head (bytes b) else
    ∃ pre post, i = zlen pre ∧ bytes b = pre ++ CRLF2 ++ post).
Proof.
  intros Hb. eapply wp_mono; [apply find_ok; [done|unfold zlen; simpl; lia]|].
  intros i [[-> Hno]|(pre & post & -> & Hl)].
  - rewrite Z.eqb_refl. intros (pre & post & Hl). by apply (Hno pre post).
  - pose proof (zlen_bytes b Hb) as Hlen. pose proof (buf_range b Hb). rewrite Hl, !zlen_app in Hlen.
    pose proof (zlen_nonneg pre). pose proof (zlen_nonneg post). pose proof (zlen_nonneg CRLF2).
    destruct (Z.eqb_spec (zlen pre) SIZE_MAX) as [Heq|]; [unfold SIZE_MAX in Heq; lia|by exists pre, post].
Qed.

(** ** Growing and appending *)

Definition room (b : iobuf) : Z := size b - used b.

(** [malloc] has refused a block that a buffer of [n] bytes may need: one of
    twice as many bytes, or the first one, at most. *)
Definition short (malloc : allocator) (n : Z) : Prop := ∃ k, 0 ≤ k ≤ 512 + 2 * n ∧ malloc k = None.

Lemma short_mono malloc n m : n ≤ m → short malloc n → short malloc m.
Proof. intros Hnm (k & Hk & ?). exists k. split; [lia|done]. Qed.

(** The buffer holds what it held; it has the room asked for, but for a new
    block, which has 512 bytes whatever was asked for. *)
Lemma ensure_free_space_ok malloc b min :
  malloc_ok malloc → buf_ok b → 0 ≤ min < 2 ^ 62 →
  wp (ensure_free_space malloc b min) (λ r, match r with
    | None => short malloc (zlen (bytes b) + min)
    | Some b' => buf_ok b' ∧ bytes b' = bytes b ∧ is_Some (data b') ∧
        (is_Some (data b) ∨ min ≤ 512 → min ≤ room b')
    end).
Proof.
  intros Hm Hb Hmin. unfold ensure_free_space, room. destruct (data b) as [d|] eqn:Hd.
  - pose proof (buf_range b Hb) as [Hu Hs]. pose proof (zlen_bytes b Hb) as Hlen.
    rewrite (u64_small (size b - used b)) by lia. destruct (Z.ltb_spec (size b - used b) min) as [Hlt|Hge].
    2:{ simpl. rewrite Hd. split_and!; [done..|by eexists|lia]. }
    rewrite (u64_small (2 * size b)), (u64_small (2 * size b - used b)), (u64_small (used b + min)) by lia.
    set (n := if _ <? _ then used b + min else 2 * size b).
    assert (used b + min ≤ n) as Hn by (unfold n; destruct (Z.ltb_spec (2 * size b - used b) min); lia).
    destruct (malloc n) as [block|] eqn:Hmal; cycle 1.
    { exists n. split; [|done]. unfold n. destruct (Z.ltb_spec (2 * size b - used b) min); lia. }
    destruct (Hm _ _ Hmal) as [Hz Hmax].
    destruct (buf_split b d Hb Hd) as [rest ->].
    rewrite (rd_range_app [] (bytes b) rest) by done. cbn [mbind outcome_bind].
    destruct (list_split3 block 0 (used b)) as (x & a & c & -> & ->%zlen_0_inv & Ha & Hc); [lia..|].
    cbn [app]. rewrite (wr_range_app [] a c) by (done || lia). cbn [mbind outcome_bind app wp].
    rewrite !zlen_app, zlen_nil in Hz.
    assert (zlen (bytes b ++ c) = n) as Hz' by (rewrite zlen_app; lia). pose proof (zlen_nonneg c).
    unfold buf_ok at 1. cbn [data size used]. split_and!; [lia..| |by eexists|lia].
    rewrite <- Hz'. by eapply bytes_front.
  - unfold buf_ok in Hb. rewrite Hd in Hb. destruct Hb as [_ Hu].
    destruct (malloc 512) as [block|] eqn:Hmal; [|exists 512; split; [pose proof (zlen_nonneg (bytes b)); lia|done]]. destruct (Hm _ _ Hmal) as [Hz Hmax].
    simpl. unfold buf_ok, BLOCK_MAX. simpl. split_and!; [lia..| |by eexists|].
    + unfold bytes. simpl. by rewrite Hd, Hu.
    + intros [[? ?]|?]; [done|lia].
Qed.

(** Bytes written behind those of the buffer. *)
Lemma buf_append_ok b x :
  buf_ok b → is_Some (data b) → zlen x ≤ room b →
  ∃ d, buf_write b (used b) x = Ret (mkIobuf (Some d) (size b) (used b)) ∧
    let b' := mkIobuf (Some d) (size b) (u64 (used b + zlen x)) in
    buf_ok b' ∧ bytes b' = bytes b ++ x.
Proof.
  intros Hb [d Hd] Hx. unfold room in Hx. pose proof (buf_range b Hb) as [Hu Hs].
  pose proof (zlen_bytes b Hb) as Hlen. pose proof (zlen_nonneg x). unfold buf_write. rewrite Hd.
  destruct (buf_split b d Hb Hd) as [rest Hr]. pose proof Hb as Hsz. unfold buf_ok in Hsz. rewrite Hd in Hsz.
  destruct Hsz as (Hsz & _ & _). rewrite Hr, zlen_app in Hsz.
  destruct (list_split3 rest 0 (zlen x)) as (e & a & c & -> & ->%zlen_0_inv & Ha & Hc); [lia..|].
  cbn [app] in *. rewrite zlen_app in Hsz. rewrite Hr, wr_range_app by (done || lia).
  cbn [mbind outcome_bind]. eexists. split; [done|].
  rewrite u64_small by lia. split.
  - unfold buf_ok. cbn [data size used]. rewrite !zlen_app. unfold BLOCK_MAX. lia.
  - replace (size b) with (zlen ((bytes b ++ x) ++ c)) by (rewrite !zlen_app; lia). rewrite app_assoc.
    apply (bytes_front _ (bytes b ++ x) c); [done|]. rewrite zlen_app. lia.
Qed.

(** A buffer cut back to its first bytes, and one cut at its front. *)
Lemma buf_shorten d n u l k :
  buf_ok (mkIobuf (Some d) n u) → bytes (mkIobuf (Some d) n u) = l ++ k →
  buf_ok (mkIobuf (Some d) n (zlen l)) ∧ bytes (mkIobuf (Some d) n (zlen l)) = l.
Proof.
  intros Hb Hl. pose proof (zlen_bytes _ Hb) as Hlen. rewrite Hl, zlen_app in Hlen. cbn [used] in Hlen.
  destruct (buf_split _ d Hb eq_refl) as [rest Hd]. rewrite Hl, <-app_assoc in Hd.
  destruct Hb as (Hs & Hu & Hmax). cbn [size used] in *. pose proof (zlen_nonneg l). pose proof (zlen_nonneg k).
  split; [unfold buf_ok; cbn [data size used]; lia|]. rewrite Hs. by eapply bytes_front.
Qed.

(** [vsnprintf] does not touch the bytes; the text is behind them if it
    fits with its terminator. *)
Lemma vsnprintf_ok b text :
  buf_ok b →
  ∃ b', vsnprintf b text = Ret b' ∧ buf_ok b' ∧ bytes b' = bytes b ∧ size b' = size b ∧ used b' = used b ∧
    (is_Some (data b) → is_Some (data b')) ∧
    (zlen text < room b →
       let b'' := mkIobuf (data b') (size b') (u64 (used b' + zlen text)) in
       buf_ok b'' ∧ bytes b'' = bytes b ++ text ∧ is_Some (data b'')).
Proof.
  intros Hb. pose proof (buf_range b Hb) as [Hu Hs]. pose proof (zlen_nonneg text). unfold vsnprintf, room.
  rewrite u64_small by lia. destruct (Z.eqb_spec (size b - used b) 0) as [Hr|Hr].
  { exists b. split_and!; [done..|lia]. }
  assert (is_Some (data b)) as Hdata.
  { unfold buf_ok in Hb. destruct (data b); [by eexists|lia]. }
  set (x := take _ text ++ [0]).
  assert (zlen x ≤ room b) as Hx.
  { unfold x, room. rewrite zlen_app. change (zlen [0]) with 1. unfold zlen. rewrite length_take. lia. }
  destruct (buf_append_ok b x Hb Hdata Hx) as (d & -> & Hok & Hbytes).
  destruct (buf_shorten _ _ _ _ _ Hok Hbytes) as [Hok' Hbytes']. rewrite (zlen_bytes b Hb) in Hok', Hbytes'.
  eexists. split; [done|]. cbn [data size used]. split_and!; [done..|intros; by eexists|].
  intros Hfit. assert (x = text ++ [0]) as Hxe.
  { unfold x. rewrite take_ge; [done|]. unfold zlen in Hfit. lia. }
  rewrite Hxe in Hok, Hbytes. rewrite app_assoc in Hbytes. destruct (buf_shorten _ _ _ _ _ Hok Hbytes) as [Hok2 Hbytes2].
  rewrite zlen_app, (zlen_bytes b Hb) in Hok2, Hbytes2.
  rewrite u64_small by lia. split_and!; [done..|by eexists].
Qed.

(** ** Receiving *)

(** The loop of [socket_input] ends; it appends what has arrived, all of it
    if the connection is to be kept. *)
Lemma recv_loop_ok malloc b a :
  malloc_ok malloc → buf_ok b →
  wp (loop (recv_fuel a) (recv_step malloc) (b, a)) (λ '(b', keep),
    buf_ok b' ∧ ∃ got rest, concat (pieces a) = got ++ rest ∧ bytes b' = bytes b ++ got ∧
      (keep = true → rest = [] ∧ input_broken a = false)).
Proof.
  intros Hm Hb.
  apply (wp_loop (λ '(b', a'), buf_ok b' ∧ input_broken a' = input_broken a ∧
           ∃ got, concat (pieces a) = got ++ concat (pieces a') ∧ bytes b' = bytes b ++ got)
           (λ '(_, a'), recv_measure a')).
  { split_and!; [done..|]. exists []. by rewrite app_nil_r. }
  { unfold recv_fuel, recv_measure. lia. }
  intros [b1 a1] (Hb1 & Hbrk & got & Hall & Hgot). unfold recv_step. cbv zeta.
  apply wp_bind. eapply wp_mono; [by apply ensure_free_space_ok|].
  intros [b2|]; [|intros _; simpl; split; [done|]; by exists got, (concat (pieces a1))].
  intros (Hb2 & Hbytes & Hdata & Hroom). assert (256 ≤ room b2) as Hr by (apply Hroom; right; lia).
  unfold room in Hr. pose proof (buf_range b2 Hb2) as [Hu Hs]. rewrite u64_small by lia.
  destruct (recv a1 (size b2 - used b2)) as [[p|] a2] eqn:Hrecv.
  - apply recv_ok in Hrecv as (Hp & Hc & Hb2k & Hmeas); [|lia].
    destruct (Z.eqb_spec (zlen p) 0) as [Hz|Hz].
    { simpl. split; [done|]. exists got, (concat (pieces a1)). by rewrite Hbytes. }
    destruct (buf_append_ok b2 p Hb2 Hdata Hp) as (d & -> & Hok & Happ). cbn [mbind outcome_bind].
    cbn [data size used]. split; [|done]. split; [done|]. split; [by rewrite Hb2k|].
    exists (got ++ p). rewrite Hall, Hc, Happ, Hbytes, Hgot. by rewrite !app_assoc.
  - unfold recv in Hrecv. destruct (pieces a1) eqn:Hp; [|done]. simplify_eq. simpl.
    split; [done|]. exists got, []. cbn [concat] in Hall. rewrite Hbytes. split_and!; [done..|].
    rewrite Hbrk. intros Hk. split; [done|]. by destruct (input_broken a).
Qed.

(** ** Sending *)

Lemma buf_read_part b off n :
  buf_ok b → 0 ≤ off → 0 < n → off + n ≤ used b →
  buf_read b off n = Ret (take (Z.to_nat n) (drop (Z.to_nat off) (bytes b))).
Proof.
  intros Hb Hoff Hn Hfit. pose proof (zlen_bytes b Hb) as Hlen.
  destruct (list_split3 (bytes b) off n) as (pre & l & post & Hl & Hp & Hz & _); [lia..|].
  rewrite <-Hp, <-Hz, (buf_read_front b pre l post Hb Hl) by lia. f_equal. rewrite Hl. unfold zlen.
  by rewrite !Nat2Z.id, drop_app_length, take_app_length.
Qed.

(** Each call goes on where the last one ended: what was sent is the front of
    the buffer. *)
Lemma send_loop_ok b limit d :
  buf_ok b → 0 ≤ limit ≤ used b →
  wp (loop (S (length (takes d))) (send_step b limit) (0, 0, [], d)) (λ '(sent, out, failed),
    0 ≤ sent ≤ limit ∧ out = take (Z.to_nat sent) (bytes b) ∧ (failed = true → output_broken d = true)).
Proof.
  intros Hb Hlim. pose proof (zlen_bytes b Hb) as Hlen.
  apply (wp_loop (λ '(sent, _, out, d'), 0 ≤ sent ≤ limit ∧ out = take (Z.to_nat sent) (bytes b) ∧ output_broken d' = output_broken d)
           (λ '(_, _, _, d'), length (takes d'))); [by split; [lia|]|lia|].
  intros [[[sent z] out] d'] (Hs & Hout & Hd). unfold send_step. destruct (Z.ltb_spec sent limit); cbn [negb]; [|by simpl].
  rewrite buf_read_part by (done || lia). cbn [mbind outcome_bind].
  destruct (takes d') as [|n rest]; [simpl; split_and!; [lia|lia|done|congruence]|].
  cbn [length]. set (k := Z.min (Z.of_nat n) (limit - sent)). destruct (Z.eqb_spec k 0).
  - destruct (Z.eqb_spec (z + 1) 128); simpl; [done|]. split_and!; [lia|lia|done|done|lia].
  - assert (0 < k ≤ limit - sent) by lia. simpl. split_and!; [lia|lia| |done|lia].
    rewrite Hout, take_take, (Nat.min_l (Z.to_nat k)), take_take_drop by lia. f_equal. lia.
Qed.

(** The bytes behind a prefix, moved to the front of the block. *)
Lemma buf_move_ok b pre l :
  buf_ok b → is_Some (data b) → bytes b = pre ++ l →
  ∃ d, (rest ← buf_read b (zlen pre) (zlen l); buf_write b 0 rest) = Ret (mkIobuf (Some d) (size b) (used b)) ∧
    let b' := mkIobuf (Some d) (size b) (zlen l) in buf_ok b' ∧ bytes b' = l.
Proof.
  intros Hb [d Hd] Hl. destruct (buf_split b d Hb Hd) as [rest Hr]. pose proof (zlen_bytes b Hb) as Hlen.
  rewrite Hl, zlen_app in Hlen. pose proof (zlen_nonneg pre). pose proof (zlen_nonneg l).
  pose proof Hb as Hsz. unfold buf_ok in Hsz. rewrite Hd in Hsz. destruct Hsz as (Hsz & Hu & Hmax).
  unfold buf_read, buf_write. rewrite Hd, Hr, Hl, <-app_assoc.
  rewrite rd_range_app by done. cbn [mbind outcome_bind]. rewrite Hr, Hl, !zlen_app in Hsz.
  destruct (list_split3 (pre ++ l ++ rest) 0 (zlen l)) as (x & a & c & Hsplit & ->%zlen_0_inv & Ha & Hc);
    [lia|lia|rewrite !zlen_app; lia|].
  rewrite Hsplit. cbn [app] in *. rewrite (wr_range_app [] a c) by done. cbn [mbind outcome_bind app].
  eexists. split; [done|]. rewrite !zlen_app in Hc. split.
  - unfold buf_ok. cbn [data size used]. rewrite zlen_app. lia.
  - replace (size b) with (zlen (l ++ c)) by (rewrite zlen_app; lia). by eapply bytes_front.
Qed.

Lemma drop_sent_ok b pre l :
  buf_ok b → bytes b = pre ++ l → 0 < zlen l →
  wp (drop_sent b (zlen pre)) (λ b', buf_ok b' ∧ bytes b' = l ∧ is_Some (data b')).
Proof.
  intros Hb Hl Hpos. pose proof (zlen_bytes b Hb) as Hlen. rewrite Hl, zlen_app in Hlen.
  pose proof (buf_range b Hb). pose proof (zlen_nonneg pre).
  assert (is_Some (data b)) as Hdata.
  { unfold buf_ok in Hb. destruct (data b); [by eexists|lia]. }
  unfold drop_sent. destruct (Z.ltb_spec 0 (zlen pre)).
  - rewrite u64_small by lia. replace (used b - zlen pre) with (zlen l) by lia.
    destruct (buf_move_ok b pre l Hb Hdata Hl) as (d & Hmove & Hok & Hbytes).
    destruct (buf_read b (zlen pre) (zlen l)) as [rest|]; [|done]. cbn [mbind outcome_bind] in *.
    rewrite Hmove. cbn [mbind outcome_bind data size used wp]. rewrite u64_small by lia.
    replace (used b - zlen pre) with (zlen l) by lia. split_and!; [done..|by eexists].
  - destruct pre; [|rewrite zlen_cons in *; pose proof (zlen_nonneg pre); lia]. by simpl.
Qed.

(** The input behind the request that was answered. *)
Lemma consume_request_ok c pre l :
  buf_ok (input c) → bytes (input c) = pre ++ l → request_length c = zlen pre →
  ∃ b, consume_request c = Ret (with_input c b) ∧ buf_ok b ∧ bytes b = l.
Proof.
  intros Hb Hl Hr. pose proof (zlen_bytes _ Hb) as Hlen. rewrite Hl, zlen_app in Hlen.
  pose proof (buf_range _ Hb). pose proof (zlen_nonneg pre). pose proof (zlen_nonneg l).
  unfold consume_request. rewrite Hr. destruct (Z.eqb_spec (used (input c)) (zlen pre)).
  { exists NULL_BUF. split_and!; [done..|]. rewrite bytes_null. symmetry. apply zlen_0_inv. lia. }
  rewrite u64_small by lia. replace (used (input c) - zlen pre) with (zlen l) by lia.
  assert (is_Some (data (input c))) as Hdata.
  { unfold buf_ok in Hb. destruct (data (input c)); [by eexists|lia]. }
  destruct (buf_move_ok (input c) pre l Hb Hdata Hl) as (d & Hmove & Hok & Hbytes).
  destruct (buf_read (input c) (zlen pre) (zlen l)) as [rest|]; [|done]. cbn [mbind outcome_bind] in *.
  rewrite Hmove. cbn [mbind outcome_bind data size]. by eexists.
Qed.
