(* ===== verification/HttpServe.v ===== *)
(** The server of [HttpServer] as a whole: its invariant, what its operations
    keep of it, the responses it assembles and the requests it hands out. *)
From S2P Require Import Prelude Sockets HttpParse HttpServer HttpConn.
#[global] Open Scope Z_scope.

(** Two results of one run are the same. *)
Ltac same_rd :=
  repeat match goal with
  | H1 : ?m = Ret ?a, H2 : ?m = Ret ?b |- _ =>
      let H := fresh in assert (H : a = b) by congruence; clear H2; first [subst b|subst a|injection H as ?; subst]
  end.

(** ** The invariant *)

(** The entries of the poll array and the clients in use point at each other;
    the other clients are on the stack of free ones. *)
Record shape (s : server) : Prop := mkShape {
  sh_cs : zlen (cs s) = MAX_CLIENTS;
  sh_ps : zlen (ps s) = MAX_CLIENTS + 1;
  sh_pis : zlen (pis s) = MAX_CLIENTS;
  sh_free : zlen (free s) = MAX_CLIENTS;
  sh_qdata : zlen (qdata s) = MAX_CLIENTS;
  sh_ncs : 0 ≤ ncs s ≤ MAX_CLIENTS;
  sh_live : ∀ i, 0 ≤ i < ncs s → ∃ ci c, rd (pis s) i = Ret ci ∧ rd (cs s) ci = Ret c ∧
    state c ≠ C_FREE ∧ pitem c = Some (i + 1);
  sh_at : ∀ ci c, rd (cs s) ci = Ret c → state c ≠ C_FREE →
    ∃ i, 0 ≤ i < ncs s ∧ rd (pis s) i = Ret ci;
  sh_spare : ∀ j, 0 ≤ j < MAX_CLIENTS - ncs s →
    ∃ ci c, rd (free s) j = Ret ci ∧ rd (cs s) ci = Ret c ∧ state c = C_FREE;
  sh_distinct : ∀ j k ci, 0 ≤ j < MAX_CLIENTS - ncs s → 0 ≤ k < MAX_CLIENTS - ncs s →
    rd (free s) j = Ret ci → rd (free s) k = Ret ci → j = k;
}.

(** The ring of waiting requests holds the clients [q]: those in [C_QUEUED],
    each of them once. *)
Record queue_ok (s : server) (q : list Z) : Prop := mkQueueOk {
  qu_head : 0 ≤ qhead s < MAX_CLIENTS;
  qu_used : qused s = zlen q;
  qu_ring : ∀ k, 0 ≤ k < zlen q → rd (qdata s) ((qhead s + k) mod MAX_CLIENTS) = rd q k;
  qu_once : NoDup q;
  qu_range : ∀ ci, ci ∈ q → 0 ≤ ci < MAX_CLIENTS;
  qu_state : ∀ ci c, rd (cs s) ci = Ret c → ci ∈ q ↔ state c = C_QUEUED;
}.

(** A request that is being answered. *)
Definition request_ok (c : client) : Prop :=
  (minor c = 0 ∨ minor c = 1) ∧ 0 ≤ request_length c ≤ used (input c).

Definition client_ok (c : client) : Prop :=
  0 ≤ gen c < UINT16_MAX ∧
  (state c ≠ C_FREE → buf_ok (input c) ∧ buf_ok (output c)) ∧
  match state c with
  | C_FREE | C_POPPED | C_CLOSE => True
  | C_IDLE => ¬ has_head (bytes (input c))
  | C_QUEUED => has_head (bytes (input c))
  | C_STATUS => request_ok c
  | C_HEADER => request_ok c ∧ is_Some (data (output c))
  | C_CONTENT => request_ok c ∧ is_Some (data (output c)) ∧ 0 ≤ content_length_offset c ∧
      content_length_offset c + 9 ≤ content_offset c ≤ used (output c)
  end.

Record Inv (s : server) : Prop := mkInv {
  inv_shape : shape s;
  inv_queue : ∃ q, queue_ok s q;
  inv_clients : ∀ ci c, rd (cs s) ci = Ret c → client_ok c;
}.

(** ** Changing one client *)

(** [s'] is [s] with another client in the place [ci], and maybe other flags
    in the poll array. *)
Record changed (s s' : server) (ci : Z) (c : client) : Prop := mkChanged {
  ch_cs : cs s' = <[Z.to_nat ci := c]> (cs s);
  ch_ncs : ncs s' = ncs s;
  ch_ps : fd <$> ps s' = fd <$> ps s;
  ch_pis : pis s' = pis s;
  ch_free : free s' = free s;
  ch_qhead : qhead s' = qhead s;
  ch_qused : qused s' = qused s;
  ch_qdata : qdata s' = qdata s;
}.

Lemma changed_refl s ci c : rd (cs s) ci = Ret c → changed s s ci c.
Proof. intros [_ Hc]%rd_inv. split; try done. by rewrite list_insert_id. Qed.

Lemma changed_trans s s1 s2 ci c1 c2 : changed s s1 ci c1 → changed s1 s2 ci c2 → changed s s2 ci c2.
Proof.
  intros H1 H2. destruct H1, H2. split; try congruence.
  rewrite ch_cs1, ch_cs0. apply list_insert_insert_eq.
Qed.

Lemma changed_rd s s' ci c c0 : rd (cs s) ci = Ret c0 → changed s s' ci c → rd (cs s') ci = Ret c.
Proof. intros Hb%rd_bounds H. rewrite (ch_cs _ _ _ _ H). by apply rd_insert_eq. Qed.

Lemma changed_ps s s' ci c : changed s s' ci c → zlen (ps s') = zlen (ps s).
Proof.
  intros H. pose proof (ch_ps _ _ _ _ H) as Hl. apply (f_equal length) in Hl. rewrite !length_fmap in Hl.
  unfold zlen. lia.
Qed.

(** Where a live client is in the poll array. *)
Lemma pitem_ok s ci c :
  shape s → rd (cs s) ci = Ret c → state c ≠ C_FREE →
  ∃ pi, pitem c = Some pi ∧ 1 ≤ pi ≤ ncs s ∧ rd (pis s) (pi - 1) = Ret ci.
Proof.
  intros Hs Hc Hlive. destruct (sh_at s Hs ci c Hc Hlive) as (i & Hi & Hp).
  destruct (sh_live s Hs i Hi) as (ci' & c' & Hp' & Hc' & _ & Hpi). same_rd. exists (i + 1). split; [done|]. split; [lia|]. by replace (i + 1 - 1) with i by lia.
Qed.

Lemma changed_shape s s' ci c c0 :
  shape s → rd (cs s) ci = Ret c0 → changed s s' ci c →
  pitem c = pitem c0 → (state c = C_FREE ↔ state c0 = C_FREE) → shape s'.
Proof.
  intros Hs Hc0 H Hpi Hst. pose proof (rd_bounds _ _ _ Hc0) as Hb. destruct Hs. destruct H.
  pose proof (f_equal length ch_ps0) as Hlen. rewrite !length_fmap in Hlen.
  split; rewrite ?ch_cs0, ?ch_pis0, ?ch_free0, ?ch_qdata0, ?ch_ncs0, ?zlen_insert;
    try done; try (unfold zlen in *; lia).
  - intros i Hi. destruct (sh_live0 i Hi) as (cj & cx & Hp & Hcx & Hlive & Hpix).
    exists cj. destruct (decide (cj = ci)) as [->|Hne].
    + same_rd. exists c. rewrite rd_insert_eq by done.
      split_and!; [done..|tauto|congruence].
    + exists cx. rewrite rd_insert_ne by lia. done.
  - intros cj cx Hcx Hlive. destruct (rd_insert_inv _ _ _ _ _ Hb Hcx) as [[-> ->]|[_ Hcx']]; [|by eapply sh_at0].
    eapply sh_at0; [exact Hc0|tauto].
  - intros j Hj. destruct (sh_spare0 j Hj) as (cj & cx & Hf & Hcx & Hfree).
    exists cj. destruct (decide (cj = ci)) as [->|Hne].
    + same_rd. exists c. rewrite rd_insert_eq by done. tauto.
    + exists cx. rewrite rd_insert_ne by lia. done.
Qed.

Lemma inv_changed s s' ci c c0 :
  Inv s → rd (cs s) ci = Ret c0 → changed s s' ci c → client_ok c →
  pitem c = pitem c0 → (state c = C_FREE ↔ state c0 = C_FREE) →
  (state c = C_QUEUED ↔ state c0 = C_QUEUED) → Inv s'.
Proof.
  intros [Hs [q Hq] Hcl] Hc0 H Hc Hpi Hst Hqu. pose proof (rd_bounds _ _ _ Hc0) as Hb. split.
  - by eapply changed_shape.
  - exists q. destruct Hq, H. split; rewrite ?ch_qhead0, ?ch_qused0, ?ch_qdata0, ?ch_cs0; try done.
    intros cj cx Hcx. destruct (rd_insert_inv _ _ _ _ _ Hb Hcx) as [[-> ->]|[_ Hcx']]; [|by apply qu_state0].
    rewrite Hqu. by apply qu_state0.
  - intros cj cx Hcx. rewrite (ch_cs _ _ _ _ H) in Hcx.
    destruct (rd_insert_inv _ _ _ _ _ Hb Hcx) as [[-> ->]|[_ Hcx']]; [done|by eapply Hcl].
Qed.

Lemma set_client_ok s ci c c0 :
  rd (cs s) ci = Ret c0 → ∃ s', set_client s ci c = Ret s' ∧ changed s s' ci c ∧ net s' = net s.
Proof.
  intros Hb%rd_bounds. unfold set_client. rewrite wr_ok by done. simpl. eexists. split; [done|].
  by split.
Qed.

(** ** Closing a client *)

Lemma invalidate_gen c : 0 ≤ gen c < UINT16_MAX → 0 ≤ gen (invalidate_handles c) < UINT16_MAX.
Proof.
  unfold invalidate_handles, UINT16_MAX. intros Hg. rewrite u16_small by lia.
  destruct (Z.eqb_spec (gen c + 1) (2 ^ 16 - 1)); simpl; lia.
Qed.

(** A client that was closed, and the others: nothing but the entry in the
    poll array of one of them changes. *)
Record closed (s s' : server) (ci : Z) : Prop := mkClosed {
  cl_ncs : ncs s' = ncs s - 1;
  cl_gone : ∃ c, rd (cs s') ci = Ret c ∧ state c = C_FREE;
  cl_gen : ∀ c c', rd (cs s) ci = Ret c → rd (cs s') ci = Ret c' → gen c' = gen (invalidate_handles c);
  cl_others : ∀ cj c', cj ≠ ci → rd (cs s') cj = Ret c' →
    ∃ c, rd (cs s) cj = Ret c ∧ c' = with_pitem c (pitem c') ∧
      (pitem c' = pitem c ∨ pitem c = Some (ncs s));
  cl_qused : qused s' = qused s;
}.

(** The state [close_client] leaves, [pi] being the entry of the client and
    [last] the client of the last entry. *)
Definition after_close (s : server) (ci pi : Z) (c : client) (last : Z) (plast : pollfd) (e : net_event) : server :=
  let gone := with_pitem (with_state (with_output (with_input (invalidate_handles c) NULL_BUF) NULL_BUF) C_FREE) None in
  let l := <[Z.to_nat ci := gone]> (cs s) in
  let moved := match rd l last with Ret cm => with_pitem cm (Some pi) | Fail _ => gone end in
  mkServer (listen_fd s) (ncs s - 1) (<[Z.to_nat last := moved]> l)
    (<[Z.to_nat pi := plast]> (ps s)) (<[Z.to_nat (pi - 1) := last]> (pis s))
    (<[Z.to_nat (MAX_CLIENTS - ncs s) := ci]> (free s)) (qhead s) (qused s) (qdata s) (net s ++ [e]).

Lemma close_client_eq s ci c :
  shape s → rd (cs s) ci = Ret c → state c ≠ C_FREE →
  ∃ pi last plast cl e, close_client s ci = Ret (after_close s ci pi c last plast e) ∧
    pitem c = Some pi ∧ 1 ≤ pi ≤ ncs s ∧ rd (pis s) (pi - 1) = Ret ci ∧
    rd (pis s) (ncs s - 1) = Ret last ∧ rd (cs s) last = Ret cl ∧ state cl ≠ C_FREE ∧
    pitem cl = Some (ncs s).
Proof.
  intros Hs Hc Hlive. destruct (pitem_ok s ci c Hs Hc Hlive) as (pi & Hpi & Hr & Hat). destruct Hs.
  destruct (sh_live0 (ncs s - 1)) as (last & cl & Hlast & Hcl & Hll & Hpl); [lia|].
  replace (ncs s - 1 + 1) with (ncs s) in Hpl by lia.
  pose proof (rd_bounds _ _ _ Hc) as Hb. pose proof (rd_bounds _ _ _ Hcl) as Hbl.
  destruct (rd_ok (ps s) pi) as (p & Hp & _); [lia|]. destruct (rd_ok (ps s) (ncs s)) as (plast & Hplast & _); [lia|].
  exists pi, last, plast, cl, (Closed (fd p)). split; [|done].
  unfold close_client. rewrite Hc. cbn [mbind outcome_bind]. rewrite Hpi.
  assert ((if bool_decide (state (invalidate_handles c) = C_QUEUED) then remove_queued_client (invalidate_handles c)
           else Ret tt) = Ret tt) as ->.
  { unfold remove_queued_client. by case_bool_decide. }
  cbn [mbind outcome_bind]. rewrite Hp. cbn [mbind outcome_bind]. unfold set_client.
  cbn [cs with_net with_cs ps pis free ncs qhead qused qdata net listen_fd].
  rewrite wr_ok by done. cbn [mbind outcome_bind cs with_net with_cs ps pis free ncs qhead qused qdata net listen_fd].
  rewrite Hlast. cbn [mbind outcome_bind]. rewrite (wr_ok (pis s)) by lia. cbn [mbind outcome_bind].
  rewrite Hplast. cbn [mbind outcome_bind]. rewrite (wr_ok (ps s)) by lia. cbn [mbind outcome_bind].
  rewrite rd_insert_eq by lia. cbn [mbind outcome_bind].
  destruct (rd_ok (<[Z.to_nat ci:=with_pitem (with_state (with_output (with_input (invalidate_handles c) NULL_BUF)
    NULL_BUF) C_FREE) None]> (cs s)) last) as (cm & Hcm & _); [by rewrite zlen_insert|].
  rewrite Hcm. cbn [mbind outcome_bind]. rewrite (wr_ok (<[_:=_]> (cs s))) by (by rewrite zlen_insert). cbn [mbind outcome_bind].
  replace (MAX_CLIENTS - (ncs s - 1 + 1)) with (MAX_CLIENTS - ncs s) by lia.
  rewrite (wr_ok (free s)) by lia. cbn [mbind outcome_bind]. unfold after_close. by rewrite Hcm.
Qed.

(** The clients after it. *)
Lemma after_close_rd s ci pi c last plast e cl cj c' :
  rd (cs s) ci = Ret c → rd (cs s) last = Ret cl →
  rd (cs (after_close s ci pi c last plast e)) cj = Ret c' →
  (cj = ci ∧ state c' = C_FREE ∧ gen c' = gen (invalidate_handles c)) ∨
  (cj ≠ ci ∧ cj = last ∧ c' = with_pitem cl (Some pi)) ∨
  (cj ≠ ci ∧ cj ≠ last ∧ rd (cs s) cj = Ret c').
Proof.
  intros Hc Hcl. pose proof (rd_bounds _ _ _ Hc) as Hb. pose proof (rd_bounds _ _ _ Hcl) as Hbl.
  unfold after_close. cbn [cs]. intros H.
  apply rd_insert_inv in H as [[-> ->]|[Hne H]]; [| |by rewrite zlen_insert].
  - destruct (decide (last = ci)) as [->|Hne].
    + rewrite rd_insert_eq by done. by left.
    + rewrite rd_insert_ne by lia. rewrite Hcl. right. by left.
  - apply rd_insert_inv in H as [[-> ->]|[Hne' H]]; [by left|by right; right|done].
Qed.

Lemma after_close_shape s ci pi c last plast e cl :
  shape s → rd (cs s) ci = Ret c → state c ≠ C_FREE → pitem c = Some pi → 1 ≤ pi ≤ ncs s →
  rd (pis s) (pi - 1) = Ret ci → rd (pis s) (ncs s - 1) = Ret last → rd (cs s) last = Ret cl →
  state cl ≠ C_FREE → pitem cl = Some (ncs s) → shape (after_close s ci pi c last plast e).
Proof.
  intros Hs Hc Hlive Hpi Hr Hat Hlast Hcl Hll Hpl. pose proof (rd_bounds _ _ _ Hc) as Hb.
  pose proof (rd_bounds _ _ _ Hcl) as Hbl. set (s' := after_close _ _ _ _ _ _ _).
  pose proof (λ cj c', after_close_rd s ci pi c last plast e cl cj c' Hc Hcl) as Hrd. fold s' in Hrd.
  assert (∀ cj, 0 ≤ cj < MAX_CLIENTS → ∃ c', rd (cs s') cj = Ret c') as Htot.
  { intros cj Hj. destruct (rd_ok (cs s') cj) as (c' & Hc' & _); [|by exists c'].
    unfold s', after_close. cbn [cs]. rewrite !zlen_insert, (sh_cs s Hs). done. }
  assert (last = ci ↔ pi = ncs s) as Hsame.
  { split; [intros ->; same_rd; congruence|intros ->; congruence]. }
  assert (zlen (cs s') = MAX_CLIENTS) as Hcs by (unfold s', after_close; cbn [cs]; rewrite !zlen_insert; apply Hs).
  assert (ncs s' = ncs s - 1) as Hn by done.
  assert (ps s' = <[Z.to_nat pi := plast]> (ps s)) as Hps by done.
  assert (pis s' = <[Z.to_nat (pi - 1) := last]> (pis s)) as Hpis by done.
  assert (free s' = <[Z.to_nat (MAX_CLIENTS - ncs s) := ci]> (free s)) as Hfree' by done.
  assert (qdata s' = qdata s) as Hqd by done. clearbody s'.
  destruct Hs. split; rewrite ?Hn, ?Hps, ?Hpis, ?Hfree', ?Hqd, ?zlen_insert; try done; try lia.
  - intros i Hi. destruct (sh_live0 i) as (cj & cx & Hp & Hcx & Hlx & Hpx); [lia|].
    destruct (decide (i = pi - 1)) as [->|Hne].
    + rewrite Hat in Hp. injection Hp as <-. same_rd. exists last. rewrite rd_insert_eq by lia.
      destruct (Htot last ltac:(lia)) as [c' Hc']. exists c'. split; [done|]. split; [done|].
      destruct (Hrd _ _ Hc') as [(-> & _)|[(_ & _ & ->)|(_ & ? & _)]]; [|simpl; split; [done|f_equal; lia]|done].
      exfalso. lia.
    + exists cj. rewrite rd_insert_ne by lia. pose proof (rd_bounds _ _ _ Hcx) as Hbj.
      destruct (Htot cj ltac:(lia)) as [c' Hc']. exists c'. split; [done|]. split; [done|].
      assert (cj ≠ ci) by (intros ->; assert (Some pi = Some (i + 1)) by congruence; simplify_eq; lia).
      assert (cj ≠ last) by (intros ->; assert (Some (ncs s) = Some (i + 1)) by congruence; simplify_eq; lia).
      destruct (Hrd _ _ Hc') as [(? & _)|[(_ & ? & _)|(_ & _ & Hx)]]; [done|done|]. by same_rd.
  - intros cj c' Hc' Hl'. destruct (Hrd _ _ Hc') as [(_ & ? & _)|[(Hne & -> & _)|(Hne & Hne' & Hx)]]; [done| |].
    + exists (pi - 1). rewrite rd_insert_eq by lia. split; [|done]. split; [lia|].
      destruct (decide (pi = ncs s)) as [He|]; [|lia]. exfalso. tauto.
    + destruct (sh_at0 cj c' Hx Hl') as (i & Hi & Hp). exists i.
      assert (i ≠ pi - 1) by (intros ->; congruence).
      assert (i ≠ ncs s - 1) by (intros ->; congruence).
      rewrite rd_insert_ne by lia. split; [lia|done].
  - intros j Hj. destruct (decide (j = MAX_CLIENTS - ncs s)) as [->|Hne].
    + rewrite rd_insert_eq by lia. destruct (Htot ci ltac:(lia)) as [c' Hc']. exists ci, c'.
      split; [done|]. split; [done|].
      destruct (Hrd _ _ Hc') as [(_ & ? & _)|[(? & _)|(? & _)]]; done.
    + rewrite rd_insert_ne by lia. destruct (sh_spare0 j) as (cj & cx & Hf & Hcx & Hfree); [lia|].
      pose proof (rd_bounds _ _ _ Hcx) as Hbj. destruct (Htot cj ltac:(lia)) as [c' Hc'].
      exists cj, c'. split; [done|]. split; [done|].
      destruct (Hrd _ _ Hc') as [(_ & ? & _)|[(_ & -> & _)|(_ & _ & Hx)]]; [done|same_rd; done|by same_rd].
  - intros j k cj Hj Hk Hfj Hfk.
    assert (∀ j, 0 ≤ j < MAX_CLIENTS - ncs s → rd (free s) j ≠ Ret ci) as Hno.
    { intros j' Hj' Hf. destruct (sh_spare0 j' Hj') as (cx & cy & Hf' & Hcx & Hfree). same_rd. done. }
    destruct (decide (j = MAX_CLIENTS - ncs s)) as [->|Hnj], (decide (k = MAX_CLIENTS - ncs s)) as [->|Hnk]; [done| | |].
    + rewrite rd_insert_eq in Hfj by lia. rewrite rd_insert_ne in Hfk by lia. injection Hfj as <-.
      exfalso. eapply (Hno k); [lia|done].
    + rewrite rd_insert_eq in Hfk by lia. rewrite rd_insert_ne in Hfj by lia. injection Hfk as <-.
      exfalso. eapply (Hno j); [lia|done].
    + rewrite rd_insert_ne in Hfj, Hfk by lia. eapply sh_distinct0; [lia|lia|done..].
Qed.

Lemma client_ok_pitem c p : client_ok c → client_ok (with_pitem c p).
Proof. done. Qed.

(** The invariant, but for the buffers of one client. *)
Record nearly (s : server) (ci : Z) : Prop := mkNearly {
  nearly_shape : shape s;
  nearly_queue : ∃ q, queue_ok s q;
  nearly_clients : ∀ cj c, rd (cs s) cj = Ret c → cj ≠ ci → client_ok c;
  nearly_gen : ∀ c, rd (cs s) ci = Ret c → 0 ≤ gen c < UINT16_MAX;
}.

Lemma inv_nearly s ci : Inv s → nearly s ci.
Proof. intros [Hs Hq Hcl]. split; [done|done|by intros cj c Hc _; eapply Hcl|]. intros c Hc. by apply (Hcl ci c). Qed.

Lemma changed_nearly s s' ci c c0 :
  nearly s ci → rd (cs s) ci = Ret c0 → changed s s' ci c → gen c = gen c0 →
  pitem c = pitem c0 → state c = state c0 → nearly s' ci.
Proof.
  intros [Hs [q Hq] Hcl Hg] Hc0 H Hgc Hpi Hst. pose proof (rd_bounds _ _ _ Hc0) as Hb. split.
  - eapply (changed_shape s); [done..|by rewrite Hst].
  - exists q. destruct Hq, H. split; rewrite ?ch_qhead0, ?ch_qused0, ?ch_qdata0, ?ch_cs0; try done.
    intros cj cx Hcx. destruct (rd_insert_inv _ _ _ _ _ Hb Hcx) as [[-> ->]|[_ Hcx']]; [|by apply qu_state0].
    rewrite Hst. by apply qu_state0.
  - intros cj cx Hcx Hne. rewrite (ch_cs _ _ _ _ H) in Hcx.
    destruct (rd_insert_inv _ _ _ _ _ Hb Hcx) as [[-> ->]|[_ Hcx']]; [done|by eapply Hcl].
  - intros cx Hcx. pose proof (changed_rd _ _ _ _ _ Hc0 H). same_rd. rewrite Hgc. by apply Hg.
Qed.

(** Closing a client that is not in the queue. *)
Lemma close_client_ok s ci c :
  nearly s ci → rd (cs s) ci = Ret c → state c ≠ C_FREE → state c ≠ C_QUEUED →
  wp (close_client s ci) (λ s', Inv s' ∧ closed s s' ci).
Proof.
  intros [Hs [q Hq] Hcl Hgen] Hc Hlive Hnq.
  destruct (close_client_eq s ci c Hs Hc Hlive)
    as (pi & last & plast & cl & e & -> & Hpi & Hr & Hat & Hlast & Hclast & Hll & Hpl).
  pose proof (λ cj c', after_close_rd s ci pi c last plast e cl cj c' Hc Hclast) as Hrd.
  pose proof (after_close_shape s ci pi c last plast e cl Hs Hc Hlive Hpi Hr Hat Hlast Hclast Hll Hpl) as Hs'.
  set (s' := after_close _ _ _ _ _ _ _) in *. cbn [wp]. pose proof (rd_bounds _ _ _ Hc) as Hb.
  assert (zlen (cs s') = zlen (cs s)) as Hlen by (by rewrite (sh_cs s' Hs'), (sh_cs s Hs)).
  destruct (rd_ok (cs s') ci) as (c0 & Hc0 & _); [lia|].
  split; [split|split].
  - done.
  - exists q. destruct Hq. split; try done. intros cj c' Hc'.
    destruct (Hrd _ _ Hc') as [(-> & Hst & _)|[(Hne & -> & ->)|(Hne & _ & Hx)]].
    + rewrite Hst. split; [|done]. by intros ?%(qu_state0 ci c Hc).
    + simpl. by apply qu_state0.
    + by apply qu_state0.
  - intros cj c' Hc'. destruct (Hrd _ _ Hc') as [(-> & Hst & Hg)|[(Hne & -> & ->)|(Hne & _ & Hx)]].
    + unfold client_ok. rewrite Hst. split; [|done]. rewrite Hg. by apply invalidate_gen, Hgen.
    + by eapply client_ok_pitem, Hcl.
    + by eapply Hcl.
  - done.
  - exists c0. split; [done|]. destruct (Hrd _ _ Hc0) as [(_ & ? & _)|[(? & _)|(? & _)]]; done.
  - intros c1 c2 Hc1 Hc2. assert (c1 = c) as -> by congruence. by destruct (Hrd _ _ Hc2) as [(_ & _ & ?)|[(? & _)|(? & _)]].
  - intros cj c' Hne Hc'. destruct (Hrd _ _ Hc') as [(-> & _)|[(_ & -> & ->)|(_ & _ & Hx)]]; [done| |].
    + exists cl. by split_and!; [..|right].
    + exists c'. split_and!; [done|by destruct c'|by left].
  - done.
Qed.

(** ** Accepting a client *)

Lemma accept_client_ok s accept_fd :
  Inv s → ncs s < MAX_CLIENTS →
  wp (accept_client s accept_fd) (λ s', Inv s' ∧ ncs s' = ncs s + 1 ∧ qused s' = qused s ∧
    ∃ ci c0 c, rd (cs s) ci = Ret c0 ∧ state c0 = C_FREE ∧ cs s' = <[Z.to_nat ci := c]> (cs s) ∧
      state c = C_IDLE ∧ gen c = gen c0).
Proof.
  intros [Hs [q Hq] Hcl] Hroom. unfold accept_client. destruct Hs.
  destruct (sh_spare0 (MAX_CLIENTS - (ncs s + 1))) as (ci & c0 & Hci & Hc0 & Hfree); [lia|].
  pose proof (rd_bounds _ _ _ Hc0) as Hb. rewrite Hci. cbn [mbind outcome_bind].
  apply wp_bind, wp_assert; [lia|]. rewrite Hc0. cbn [mbind outcome_bind].
  apply wp_bind, wp_assert; [by rewrite bool_decide_true|].
  rewrite (wr_ok (ps s)) by lia. cbn [mbind outcome_bind]. rewrite (wr_ok (pis s)) by lia. cbn [mbind outcome_bind].
  rewrite (wr_ok (cs s)) by done. cbn [mbind outcome_bind wp].
  set (c := mkClient _ _ _ _ _ _ _ _ _ _ _ _).
  assert (∀ cj cx, rd (<[Z.to_nat ci := c]> (cs s)) cj = Ret cx →
    (cj = ci ∧ cx = c) ∨ (cj ≠ ci ∧ rd (cs s) cj = Ret cx)) as Hrd by (intros; by apply rd_insert_inv).
  split; [split|].
  - split; cbn [cs ps pis free qdata ncs]; rewrite ?zlen_insert; try done; try lia.
    + intros i Hi. destruct (decide (i = ncs s)) as [->|Hne].
      * exists ci, c. rewrite !rd_insert_eq by lia. done.
      * destruct (sh_live0 i) as (cj & cx & Hp & Hcx & Hl & Hpx); [lia|]. exists cj, cx.
        assert (ci ≠ cj) by (intros ->; same_rd; done). rewrite !rd_insert_ne by lia. done.
    + intros cj cx Hcx Hl. destruct (Hrd _ _ Hcx) as [[-> ->]|[Hne Hx]].
      * exists (ncs s). rewrite rd_insert_eq by lia. split; [lia|done].
      * destruct (sh_at0 cj cx Hx Hl) as (i & Hi & Hp). exists i. rewrite rd_insert_ne by lia. split; [lia|done].
    + intros j Hj. destruct (sh_spare0 j) as (cj & cx & Hf & Hcx & Hfx); [lia|]. exists cj, cx.
      assert (ci ≠ cj) by (intros ->; pose proof (sh_distinct0 j (MAX_CLIENTS - (ncs s + 1)) cj ltac:(lia) ltac:(lia) Hf Hci); lia).
      rewrite rd_insert_ne by lia. done.
    + intros j k cj Hj Hk. apply sh_distinct0; lia.
  - exists q. destruct Hq. split; cbn [cs qhead qused qdata]; try done. intros cj cx Hcx.
    destruct (Hrd _ _ Hcx) as [[-> ->]|[Hne Hx]]; [|by apply qu_state0]. simpl.
    rewrite (qu_state0 ci c0 Hc0), Hfree. done.
  - intros cj cx Hcx. destruct (Hrd _ _ Hcx) as [[-> ->]|[Hne Hx]]; [|by eapply Hcl].
    unfold client_ok. simpl. split; [by apply (Hcl ci c0)|]. split; [done|].
    rewrite bytes_null. intros (pre & post & Hn). symmetry in Hn. by apply app_nil in Hn as [_ Hn].
  - split; [done|]. split; [done|]. by exists ci, c0, c.
Qed.

(** ** The queue *)

Lemma mod_cases x : 0 ≤ x < 2 * MAX_CLIENTS → x mod MAX_CLIENTS = x ∨ x mod MAX_CLIENTS = x - MAX_CLIENTS.
Proof. unfold MAX_CLIENTS. intros. lia. Qed.

(** A list of different clients is not longer than the array of clients. *)
Lemma queue_bound (q : list Z) : NoDup q → (∀ ci, ci ∈ q → 0 ≤ ci < MAX_CLIENTS) → zlen q ≤ MAX_CLIENTS.
Proof.
  intros Hnd Hr. assert (length q ≤ length (seqZ 0 MAX_CLIENTS))%nat as Hl.
  { apply submseteq_length, NoDup_submseteq; [done|]. intros ci Hci%Hr. apply elem_of_seqZ. lia. }
  rewrite length_seqZ in Hl. unfold zlen, MAX_CLIENTS in *. lia.
Qed.

(** A live client joins the queue. *)
Lemma push_client_ok s ci c0 c :
  nearly s ci → rd (cs s) ci = Ret c0 → state c0 ≠ C_FREE → state c0 ≠ C_QUEUED →
  client_ok c → pitem c = pitem c0 → state c = C_QUEUED →
  wp (push_client s ci) (λ s1, cs s1 = cs s ∧ ncs s1 = ncs s ∧ pis s1 = pis s ∧ ps s1 = ps s ∧
    ∀ s2, changed s1 s2 ci c → Inv s2).
Proof.
  intros [Hs [q Hq] Hcl _] Hc0 Hlive Hnq Hc Hpi Hst. pose proof (rd_bounds _ _ _ Hc0) as Hb.
  assert (ci ∉ q) as Hni by (intros ?%(qu_state s q Hq ci c0 Hc0); done).
  pose proof (sh_cs s Hs) as Hlcs. pose proof (sh_qdata s Hs) as Hlq.
  assert (zlen (q ++ [ci]) ≤ MAX_CLIENTS) as Hfit.
  { apply queue_bound.
    - apply NoDup_app. split; [apply Hq|]. split; [|apply NoDup_singleton]. intros x Hx ->%list_elem_of_singleton. done.
    - intros x [Hx| ->%list_elem_of_singleton]%elem_of_app; [by eapply qu_range|lia]. }
  rewrite zlen_app in Hfit. change (zlen [ci]) with 1 in Hfit. pose proof (zlen_nonneg q).
  pose proof (qu_head s q Hq) as Hh. pose proof (qu_used s q Hq) as Hu. unfold push_client.
  apply wp_bind, wp_assert; [lia|]. unfold MAX_CLIENTS in *.
  rewrite (u64_small (qhead s + qused s)), (u64_small (qused s + 1)) by lia.
  rewrite wr_ok by (pose proof (Z.mod_pos_bound (qhead s + qused s) 512); lia). cbn [mbind outcome_bind wp].
  split_and!; [done..|]. set (s1 := mkServer _ _ _ _ _ _ _ _ _ _). intros s2 Hch.
  assert (shape s1) as Hs1 by (destruct Hs; split; unfold s1; cbn [cs ps pis free qdata ncs]; rewrite ?zlen_insert; done).
  split.
  - eapply (changed_shape s1); [exact Hs1|exact Hc0|exact Hch|done|]. rewrite Hst. split; [done|].
    by intros ?.
  - exists (q ++ [ci]). destruct Hq, Hch.
    split; rewrite ?ch_qhead0, ?ch_qused0, ?ch_qdata0, ?ch_cs0; unfold s1; cbn [cs qhead qused qdata]; try done.
    + rewrite zlen_app. change (zlen [ci]) with 1. lia.
    + intros k Hk. rewrite zlen_app in Hk. rewrite Hu. change (zlen [ci]) with 1 in Hk.
      destruct (decide (k = zlen q)) as [->|Hne].
      * rewrite rd_insert_eq by (unfold MAX_CLIENTS; lia). rewrite rd_app_r, Z.sub_diag by lia. done.
      * rewrite rd_insert_ne; [|lia|].
        -- rewrite rd_app_l by lia. apply qu_ring0. lia.
        -- unfold MAX_CLIENTS. lia.
    + apply NoDup_app. split; [done|]. split; [|apply NoDup_singleton]. intros x Hx ->%list_elem_of_singleton. done.
    + intros x [Hx| ->%list_elem_of_singleton]%elem_of_app; [by apply qu_range0|]. unfold MAX_CLIENTS. lia.
    + intros cj cx Hcx. rewrite elem_of_app, list_elem_of_singleton.
      destruct (rd_insert_inv _ _ _ _ _ Hb Hcx) as [[-> ->]|[Hne Hx]]; [by split; [|right]|].
      rewrite (qu_state0 cj cx Hx). naive_solver.
  - intros cj cx Hcx. rewrite (ch_cs _ _ _ _ Hch) in Hcx.
    destruct (rd_insert_inv _ _ _ _ _ Hb Hcx) as [[-> ->]|[Hne Hx]]; [done|by eapply Hcl].
Qed.

(** The state [pop_client] leaves. *)
Definition popped (s : server) : server :=
  mkServer (listen_fd s) (ncs s) (cs s) (ps s) (pis s) (free s)
    ((qhead s + 1) mod MAX_CLIENTS) (qused s - 1) (qdata s) (net s).

Lemma pop_client_eq s ci q : queue_ok s (ci :: q) → pop_client s = Ret (popped s, ci).
Proof.
  intros Hq. pose proof (qu_head s _ Hq) as Hh. pose proof (qu_used s _ Hq) as Hu.
  pose proof (queue_bound _ (qu_once s _ Hq) (qu_range s _ Hq)) as Hmax.
  rewrite zlen_cons in *. pose proof (zlen_nonneg q). unfold pop_client, popped.
  rewrite (proj2 (Z.ltb_lt _ _)) by lia. cbn [c_assert mbind outcome_bind].
  pose proof (qu_ring s _ Hq 0 ltac:(rewrite zlen_cons; lia)) as Hfirst. rewrite rd_cons_0, Z.add_0_r in Hfirst.
  rewrite Z.mod_small in Hfirst by lia. rewrite Hfirst. cbn [mbind outcome_bind].
  unfold MAX_CLIENTS in *. by rewrite (u64_small (qhead s + 1)), (u64_small (qused s - 1)) by lia.
Qed.

(** The ring behind its first place. *)
Lemma popped_queue s s2 ci q c0 c :
  queue_ok s (ci :: q) → rd (cs s) ci = Ret c0 → changed (popped s) s2 ci c → state c ≠ C_QUEUED → queue_ok s2 q.
Proof.
  intros Hq Hc0 Hch Hnq. pose proof (rd_bounds _ _ _ Hc0) as Hb. pose proof (zlen_nonneg q).
  destruct Hq, Hch. apply NoDup_cons in qu_once0 as [Hni Hnd]. rewrite zlen_cons in *.
  split; rewrite ?ch_qhead0, ?ch_qused0, ?ch_qdata0, ?ch_cs0; unfold popped; cbn [cs qhead qused qdata]; try done.
  - unfold MAX_CLIENTS. apply Z.mod_pos_bound. lia.
  - lia.
  - intros k Hk. specialize (qu_ring0 (k + 1)).
    rewrite (rd_cons_S ci q (k + 1)) in qu_ring0 by lia. replace (k + 1 - 1) with k in qu_ring0 by lia.
    rewrite <- qu_ring0 by lia. f_equal. unfold MAX_CLIENTS in *. rewrite Zplus_mod_idemp_l. f_equal. lia.
  - intros x Hx. apply qu_range0. by right.
  - intros cj cx Hcx. destruct (rd_insert_inv _ _ _ _ _ Hb Hcx) as [[-> ->]|[Hne Hx]]; [by split|].
    rewrite <- (qu_state0 cj cx Hx), elem_of_cons. naive_solver.
Qed.

Lemma popped_inv s s2 ci q c0 c :
  Inv s → queue_ok s (ci :: q) → rd (cs s) ci = Ret c0 → state c0 = C_QUEUED → changed (popped s) s2 ci c →
  client_ok c → pitem c = pitem c0 → state c ≠ C_FREE → state c ≠ C_QUEUED → Inv s2.
Proof.
  intros [Hs _ Hcl] Hq Hc0 Hst Hch Hc Hpi Hnf Hnq. split.
  - assert (shape (popped s)) as Hs1 by (destruct Hs; split; done).
    eapply (changed_shape (popped s)); [exact Hs1|exact Hc0|exact Hch|done|]. rewrite Hst. by split.
  - exists q. by eapply popped_queue.
  - intros cj cx Hcx. rewrite (ch_cs _ _ _ _ Hch) in Hcx.
    destruct (rd_insert_inv _ _ _ _ _ (rd_bounds _ _ _ Hc0) Hcx) as [[-> ->]|[Hne Hx]]; [done|by eapply Hcl].
Qed.

(** The oldest request leaves the queue. *)
Lemma queue_first s :
  Inv s → 0 < qused s → ∃ ci q c0, queue_ok s (ci :: q) ∧ rd (cs s) ci = Ret c0 ∧ state c0 = C_QUEUED.
Proof.
  intros [Hs [q Hq] Hcl] Hpos. destruct q as [|ci q]; [pose proof (qu_used _ _ Hq) as Hu; unfold zlen in Hu; simpl in Hu; lia|].
  pose proof (qu_range s _ Hq ci ltac:(left)) as Hci. pose proof (sh_cs s Hs).
  destruct (rd_ok (cs s) ci) as (c0 & Hc0 & _); [lia|]. exists ci, q, c0. split_and!; [done..|].
  apply (qu_state s _ Hq ci c0 Hc0). left.
Qed.

(** ** Input *)

(** Between two requests for one, nobody is in the middle of a response. *)
Definition settled (s : server) : Prop :=
  ∀ ci c, rd (cs s) ci = Ret c → state c ≠ C_HEADER ∧ state c ≠ C_CONTENT.

Lemma request_ok_input c b :
  request_ok c → used (input c) ≤ used b → request_ok (with_input c b).
Proof. intros [? ?] ?. split; simpl; [done|lia]. Qed.

(** More input does not hurt a client, unless it waits for a whole head. *)
Lemma client_ok_input c b got :
  client_ok c → state c ≠ C_FREE → buf_ok b → bytes b = bytes (input c) ++ got →
  (state c = C_IDLE → ¬ has_head (bytes b)) → client_ok (with_input c b).
Proof.
  intros (Hg & Hbufs & Hst) Hlive Hb Hbytes Hidle. destruct (Hbufs Hlive) as [Hin Hout].
  pose proof (zlen_bytes _ Hb) as Hl. rewrite Hbytes, zlen_app, (zlen_bytes _ Hin) in Hl.
  pose proof (zlen_nonneg got). split; [done|]. split; [done|]. simpl in *.
  destruct (state c) eqn:Hs; try done.
  - by apply Hidle.
  - simpl. rewrite Hbytes. by apply has_head_app.
  - apply request_ok_input; [done|lia].
  - destruct Hst. split; [|done]. apply request_ok_input; [done|lia].
  - destruct Hst as (? & ?). split; [|done]. apply request_ok_input; [done|lia].
Qed.

(** The input after it has taken what [recv] found: all of it if the
    connection is to be kept. *)
Definition received (a : arrival) (b b' : iobuf) (keep : bool) : Prop :=
  ∃ got rest, concat (pieces a) = got ++ rest ∧ bytes b' = bytes b ++ got ∧
    (keep = true → rest = [] ∧ input_broken a = false).

Lemma socket_input_ok malloc s ci c a :
  malloc_ok malloc → Inv s → rd (cs s) ci = Ret c → state c ≠ C_FREE →
  wp (socket_input malloc s ci a) (λ '(s', ok), ∃ c', cs s' = <[Z.to_nat ci := c']> (cs s) ∧
    ncs s' = ncs s ∧ pitem c' = pitem c ∧ output c' = output c ∧ nearly s' ci ∧ (ok = true → Inv s') ∧
    received a (input c) (input c') ok ∧
    (state c' = state c ∨ ok = true ∧ state c' = C_QUEUED ∧ pieces a ≠ [] ∧ state c = C_IDLE)).
Proof.
  intros Hm HI Hc Hlive. pose proof (inv_clients s HI ci c Hc) as Hcok.
  destruct (proj1 (proj2 Hcok) Hlive) as [Hin Hout]. pose proof (inv_shape s HI) as Hs.
  destruct (pitem_ok s ci c Hs Hc Hlive) as (pi & Hpi & Hr & _). unfold socket_input.
  rewrite Hc. cbn [mbind outcome_bind]. unfold pollfd_of. rewrite Hpi.
  destruct (rd_ok (ps s) pi) as (p & Hp & _); [rewrite (sh_ps s Hs); pose proof (sh_ncs s Hs); lia|].
  rewrite Hp. cbn [mbind outcome_bind]. apply wp_bind. eapply wp_mono; [by apply recv_loop_ok|].
  intros [b keep] (Hb & Hrec). pose proof Hrec as (got & rest & Hall & Hbytes & Hkeep). fold (received a (input c) b keep) in Hrec.
  destruct (set_client_ok s ci (with_input c b) c Hc) as (s1 & Hset & Hch & _). rewrite Hset.
  cbn [mbind outcome_bind]. pose proof (changed_rd _ _ _ _ _ Hc Hch) as Hc1.
  assert (nearly s1 ci) as Hnear by (by eapply changed_nearly; [apply inv_nearly| | | | |]).
  destruct keep; cbn [negb].
  2:{ exists (with_input c b). destruct Hch. split_and!; try done. by left. }
  destruct (Hkeep eq_refl) as [-> Hbrk]. rewrite app_nil_r in Hall.
  assert ((state c = C_IDLE → ¬ has_head (bytes b)) → Inv s1) as HI1.
  { intros Hno. eapply inv_changed; [done|done|done| |done|done|done]. by eapply client_ok_input. }
  change (state (with_input c b)) with (state c). case_bool_decide as Hidle.
  2:{ exists (with_input c b). destruct Hch. split_and!; try done; [by intros _; apply HI1|by left]. }
  change (input (with_input c b)) with b. apply wp_bind. eapply wp_mono; [by apply find_head|].
  intros i Hi. destruct (Z.eqb_spec i SIZE_MAX) as [->|Hne%Z.eqb_neq]; cbn [negb].
  { exists (with_input c b). destruct Hch. split_and!; try done; [by intros _; apply HI1|by left]. }
  cbv beta in Hi. rewrite Hne in Hi. assert (has_head (bytes b)) as Hhead by (destruct Hi as (pre & post & _ & Hl); by exists pre, post).
  assert (pieces a ≠ []) as Hp0.
  { intros Hp0. rewrite Hp0 in Hall. rewrite <-Hall in Hbytes. simpl in Hbytes. rewrite app_nil_r in Hbytes.
    destruct Hcok as (_ & _ & Hst). rewrite Hidle in Hst. apply Hst. by rewrite <- Hbytes. }
  set (c2 := with_state (with_input c b) C_QUEUED).
  assert (client_ok c2) as Hc2.
  { destruct Hcok as (Hg & _ & _). split; [done|]. split; [done|]. done. }
  apply wp_bind. eapply wp_mono.
  { apply (push_client_ok s1 ci (with_input c b) c2); simpl; congruence || done. }
  intros s2 (Hcs2 & Hn2 & Hp2 & _ & Hinv2).
  destruct (set_client_ok s2 ci c2 (with_input c b)) as (s3 & Hset3 & Hch3 & _); [by rewrite Hcs2|].
  rewrite Hset3. cbn [mbind outcome_bind wp]. exists c2. pose proof (Hinv2 _ Hch3) as HI3. destruct Hch, Hch3.
  split_and!; try done; [|congruence|by apply inv_nearly|by right].
  rewrite ch_cs1, Hcs2, ch_cs0. apply list_insert_insert_eq.
Qed.

(** ** Output *)

Lemma update_events_ok s ci c pi f :
  rd (cs s) ci = Ret c → pitem c = Some pi → 0 ≤ pi < zlen (ps s) →
  ∃ s', update_events s c f = Ret s' ∧ changed s s' ci c ∧ net s' = net s.
Proof.
  intros Hc Hpi Hr. unfold update_events. rewrite Hpi. destruct (rd_ok (ps s) pi Hr) as (p & Hp & Hl).
  rewrite Hp. cbn [mbind outcome_bind]. rewrite wr_ok by done. cbn [mbind outcome_bind].
  eexists. split; [done|]. split; [|done]. apply rd_inv in Hc as [_ Hc].
  split; cbn [cs ncs ps pis free qhead qused qdata with_ps]; try done; [by rewrite list_insert_id|].
  rewrite list_fmap_insert. apply list_insert_id. rewrite list_lookup_fmap, Hl. done.
Qed.

(** A client that has given [out] to the system, [b] being what is left of its
    output. *)
Definition after_output (c : client) (out : list Z) (b : iobuf) : client :=
  with_output (if bool_decide (state c = C_CONTENT)
               then with_content_length_offset c (content_length_offset c - zlen out) else c) b.


(** What is sent is the front of the output, in [C_CONTENT] no more than what
    stands before the number of the content length. *)
Lemma socket_output_ok s ci c d :
  Inv s → rd (cs s) ci = Ret c → state c ≠ C_FREE →
  wp (socket_output s ci d) (λ '(s', ok), ∃ p out b,
    pollfd_of s c = Ret p ∧ net s' = net s ++ [Sent (fd p) out] ∧ bytes (output c) = out ++ bytes b ∧
    (state c = C_CONTENT → zlen out ≤ content_length_offset c) ∧ buf_ok b ∧
    ((ok = false ∧ output_broken d = true ∧ changed s s' ci c) ∨
     (changed s s' ci (after_output c out b) ∧ (bytes b ≠ [] → is_Some (data b)) ∧
      (ok = false ↔ state c = C_CLOSE ∧ bytes b = [])))).
Proof.
  intros HI Hc Hlive. pose proof (inv_clients s HI ci c Hc) as Hcok. pose proof (inv_shape s HI) as Hs.
  destruct (proj1 (proj2 Hcok) Hlive) as [_ Hout]. pose proof (zlen_bytes _ Hout) as Hlen.
  pose proof (buf_range _ Hout) as [Hu Hmax].
  destruct (pitem_ok s ci c Hs Hc Hlive) as (pi & Hpi & Hr & _).
  assert (0 ≤ pi < zlen (ps s)) as Hrp by (rewrite (sh_ps s Hs); pose proof (sh_ncs s Hs); lia).
  destruct (rd_ok (ps s) pi Hrp) as (p & Hp & _).
  assert (pollfd_of s c = Ret p) as Hpf by (unfold pollfd_of; by rewrite Hpi).
  unfold socket_output. rewrite Hc. cbn [mbind outcome_bind]. rewrite Hpf. cbn [mbind outcome_bind].
  assert (0 ≤ output_limit c ≤ used (output c) ∧ (state c = C_CONTENT → output_limit c = content_length_offset c))
    as [Hlim Hlimc].
  { unfold output_limit. case_bool_decide as Hst; [|split; [lia|done]]. destruct Hcok as (_ & _ & Hx).
    rewrite Hst in Hx. split; [lia|done]. }
  apply wp_bind. eapply wp_mono; [apply (send_loop_ok (output c)); [done|lia]|].
  intros [[sent out] failed] (Hsent & Hout2 & Hfail). set (rest := drop (Z.to_nat sent) (bytes (output c))).
  assert (bytes (output c) = out ++ rest) as Hsplit by (rewrite Hout2; symmetry; apply take_drop).
  assert (zlen out = sent) as Hzo by (rewrite Hout2; apply zlen_take; lia). clear Hout2.
  set (s1 := with_net s _).
  assert (changed s s1 ci c) as Hch1 by (by destruct (changed_refl s ci c Hc)).
  destruct failed.
  { exists p, out, (mkIobuf (Some rest) (zlen rest) (zlen rest)). split_and!; [done|done| | | |].
    - rewrite Hsplit. f_equal. symmetry. by eapply (bytes_front _ _ []); [rewrite app_nil_r|].
    - intros ?%Hlimc. lia.
    - unfold buf_ok. cbn [data size used]. pose proof (f_equal zlen Hsplit) as Hz. rewrite zlen_app in Hz.
      pose proof (zlen_nonneg rest). pose proof (zlen_nonneg out). unfold BLOCK_MAX. lia.
    - left. split_and!; [done|by apply Hfail|done]. }
  set (c1 := if bool_decide (state c = C_CONTENT) then _ else c).
  assert (c1 = if bool_decide (state c = C_CONTENT)
               then with_content_length_offset c (content_length_offset c - zlen out) else c) as Hc1.
  { unfold c1. case_bool_decide as Hst; [|done]. rewrite Hzo, u64_small; [done|]. specialize (Hlimc Hst). lia. }
  assert (output c1 = output c ∧ pitem c1 = pitem c ∧ state c1 = state c) as (Ho1 & Hp1 & Hst1)
    by (rewrite Hc1; by case_bool_decide).
  assert (∃ s2, (if sent =? output_limit c then update_events s1 c1 (λ e, Z.ldiff e POLLOUT) else Ret s1) = Ret s2 ∧
    changed s s2 ci c ∧ net s2 = net s1) as (s2 & -> & Hch2 & Hnet2).
  { destruct (sent =? output_limit c); [|by exists s1].
    destruct (update_events_ok s1 ci c pi (λ e, Z.ldiff e POLLOUT)) as (s2 & Hs2 & Hch & Hnet); [done..|].
    exists s2. split; [|split; [by eapply changed_trans|done]]. rewrite <- Hs2. unfold update_events. by rewrite Hp1. }
  cbn [mbind outcome_bind]. rewrite Ho1.
  pose proof (changed_rd _ _ _ _ _ Hc Hch2) as Hc2.
  assert (∀ b s3, set_client s2 ci (with_output c1 b) = Ret s3 →
    changed s s3 ci (after_output c out b) ∧ net s3 = net s ++ [Sent (fd p) out]) as Hset.
  { intros b s3 Hs3. destruct (set_client_ok s2 ci (with_output c1 b) c Hc2) as (s3' & Hs3' & Hch3 & Hnet3).
    rewrite Hs3 in Hs3'. injection Hs3' as <-. split; [|by rewrite Hnet3, Hnet2].
    unfold after_output. rewrite <- Hc1. by eapply changed_trans. }
  destruct (Z.eqb_spec sent (used (output c))) as [Hall|Hpart].
  - assert (rest = []) as Hrest by (apply zlen_0_inv; unfold rest; rewrite zlen_drop; lia).
    destruct (set_client_ok s2 ci (with_output c1 NULL_BUF) c Hc2) as (s3 & Hs3 & _).
    rewrite Hs3. cbn [mbind outcome_bind wp]. destruct (Hset _ _ Hs3) as [Hch3 Hnet3].
    exists p, out, NULL_BUF. split_and!; [done|done|by rewrite Hsplit, Hrest|intros ?%Hlimc; lia|done|].
    right. split; [done|]. split; [done|]. rewrite Hst1. rewrite negb_false_iff, bool_decide_eq_true. by split; [|intros [? _]].
  - assert (0 < zlen rest) as Hrest by (unfold rest; rewrite zlen_drop; lia).
    rewrite <- Hzo. apply wp_bind. eapply wp_mono; [by apply drop_sent_ok|]. intros b (Hb & Hbytes & Hdata).
    destruct (set_client_ok s2 ci (with_output c1 b) c Hc2) as (s3 & Hs3 & _).
    rewrite Hs3. cbn [mbind outcome_bind wp]. destruct (Hset _ _ Hs3) as [Hch3 Hnet3].
    exists p, out, b. split_and!; [done|done|by rewrite Hsplit, Hbytes|intros ?%Hlimc; lia|done|].
    right. split; [done|]. split; [done|]. split; [done|]. intros [_ Hx]. rewrite Hx in Hbytes. rewrite <- Hbytes in Hrest. done.
Qed.

(** ** A round of input and output *)

(** What the rounds must not do: let [accept] fail for another reason than that
    nobody waits, and break the output of a connection in the same round as
    it brings a request. *)
Definition round_ok (r : round) : Prop :=
  accept_fails r = false ∧ ∀ ci, output_broken (departures r ci) = true → pieces (arrivals r ci) = [].

(** The clients whose requests have just been queued come before the entry [i]
    of the poll array. *)
Definition queued_before (s : server) (i : Z) : Prop :=
  ∀ ci c p, rd (cs s) ci = Ret c → state c = C_QUEUED → pitem c = Some p → p < i.

(** A client after its input and output, to be closed unless [ok]. *)
Definition served (s : server) (ci : Z) (c : client) (s' : server) (ok : bool) : Prop :=
  nearly s' ci ∧ (ok = true → Inv s') ∧ ncs s' = ncs s ∧
  ∃ c', cs s' = <[Z.to_nat ci := c']> (cs s) ∧ pitem c' = pitem c ∧
    (state c' = state c ∨ ok = true ∧ state c' = C_QUEUED).

Lemma client_ok_output c b :
  client_ok c → buf_ok b → state c ≠ C_HEADER → state c ≠ C_CONTENT → client_ok (with_output c b).
Proof.
  intros (Hg & Hbufs & Hst) Hb Hh Hc. split; [done|]. split; [intros Hl; split; [by apply Hbufs|done]|].
  simpl in *. by destruct (state c).
Qed.

Lemma serve_client_ok malloc r s ci c evs :
  malloc_ok malloc → round_ok r → Inv s → settled s → rd (cs s) ci = Ret c → state c ≠ C_FREE → state c ≠ C_QUEUED →
  wp ('(s, ok) ← (if flag evs POLLIN then socket_input malloc s ci (arrivals r ci) else Ret (s, true));
      if ok && flag evs POLLOUT then socket_output s ci (departures r ci) else Ret (s, ok))
    (λ '(s', ok), served s ci c s' ok).
Proof.
  intros Hm [_ Hbroken] HI Hset Hc Hlive Hnq. pose proof (rd_bounds _ _ _ Hc) as Hb. apply wp_bind.
  eapply wp_mono with (Q := λ '(s', ok), served s ci c s' ok ∧
    ∃ c', rd (cs s') ci = Ret c' ∧ (state c' = state c ∨ state c' = C_QUEUED ∧ pieces (arrivals r ci) ≠ [])).
  { destruct (flag evs POLLIN).
    - eapply wp_mono; [by apply (socket_input_ok malloc s ci c)|].
      intros [s' ok] (c' & Hcs & Hn & Hpi & _ & Hnear & HI' & _ & Hst).
      split; [split_and!; [done..|]; exists c'; split_and!; [done|done|]; destruct Hst as [?|(? & ? & _)]; auto|].
      exists c'. rewrite Hcs, rd_insert_eq by done. split; [done|]. destruct Hst as [?|(? & ? & ? & _)]; auto.
    - cbn [wp]. split; [|exists c; auto]. split_and!; [by apply inv_nearly|done..|]. exists c.
      split_and!; [|done|by left]. apply rd_inv in Hc as [_ Hc]. by rewrite list_insert_id. }
  intros [s1 ok] ((Hnear & HI1 & Hn & c' & Hcs & Hpi & Hst) & c1 & Hc1 & Hst1).
  destruct (ok && flag evs POLLOUT) eqn:Hgo; [|cbn [wp]; split_and!; [done..|]; by exists c'].
  apply andb_true_iff in Hgo as [-> _]. specialize (HI1 eq_refl).
  rewrite Hcs, rd_insert_eq in Hc1 by done. injection Hc1 as <-.
  assert (rd (cs s1) ci = Ret c') as Hc' by (rewrite Hcs; by apply rd_insert_eq).
  assert (state c' ≠ C_FREE ∧ state c' ≠ C_HEADER ∧ state c' ≠ C_CONTENT) as (Hl' & Hh' & Hct').
  { destruct (Hset ci c Hc). destruct Hst as [->|[_ ->]]; done. }
  eapply wp_mono; [by apply (socket_output_ok s1 ci c')|].
  intros [s2 ok] (p & out & b & _ & _ & _ & _ & Hbb & [(-> & Hbrk & Hch)|(Hch & _ & Hok)]).
  - assert (state c' = state c) as Hsame by (destruct Hst1 as [?|[_ Hp]]; [done|by destruct Hp; apply Hbroken]).
    split_and!; [by eapply changed_nearly|done|by rewrite (ch_ncs _ _ _ _ Hch)|]. exists c'.
    split_and!; [|done|by left]. rewrite (ch_cs _ _ _ _ Hch), Hcs. apply list_insert_insert_eq.
  - unfold after_output in Hch. rewrite bool_decide_false in Hch by done.
    assert (Inv s2) as HI2.
    { eapply inv_changed; [exact HI1|exact Hc'|exact Hch| |done..]. apply client_ok_output; [|done..].
      by eapply inv_clients. }
    split_and!; [by apply inv_nearly|done|by rewrite (ch_ncs _ _ _ _ Hch)|]. exists (with_output c' b).
    split_and!; [|done|].
    + rewrite (ch_cs _ _ _ _ Hch), Hcs. apply list_insert_insert_eq.
    + simpl. destruct Hst as [?|[_ Hq]]; [by left|]. destruct ok; [by right|].
      destruct (proj1 Hok eq_refl) as [Hcl _]. congruence.
Qed.

Lemma wp_bind_inv {A B} (m : outcome A) (k : A → outcome B) Q : wp (m ≫= k) Q → wp m (λ a, wp (k a) Q).
Proof. by destruct m. Qed.

Lemma served_settled s ci c s' ok :
  settled s → rd (cs s) ci = Ret c → served s ci c s' ok → settled s'.
Proof.
  intros Hset Hc (_ & _ & _ & c' & Hcs & _ & Hst) cj cx Hcx. rewrite Hcs in Hcx.
  destruct (rd_insert_inv _ _ _ _ _ (rd_bounds _ _ _ Hc) Hcx) as [[-> ->]|[_ Hx]]; [|by eapply Hset].
  destruct Hst as [->|[_ ->]]; [by eapply Hset|done].
Qed.

Lemma closed_settled s s' ci : settled s → closed s s' ci → settled s'.
Proof.
  intros Hset H cj cx Hcx. destruct (decide (cj = ci)) as [->|Hne].
  - destruct (cl_gone _ _ _ H) as (c & Hc & Hst). same_rd. by rewrite Hst.
  - destruct (cl_others _ _ _ H cj cx Hne Hcx) as (c & Hc & -> & _). by apply (Hset cj c).
Qed.

Lemma serve_step_ok malloc r s i :
  malloc_ok malloc → round_ok r → Inv s → settled s → queued_before s i → 1 ≤ i ≤ ncs s + 1 →
  wp (serve_step malloc r (s, i)) (λ res, match res with
    | inl (s', i') => Inv s' ∧ settled s' ∧ queued_before s' i' ∧ 1 ≤ i' ≤ ncs s' + 1 ∧ ncs s' + 1 - i' < ncs s + 1 - i
    | inr s' => Inv s' ∧ settled s'
    end).
Proof.
  intros Hm Hr HI Hset Hqb Hi. unfold serve_step. destruct (Z.ltb_spec i (ncs s + 1)); cbn [negb]; [|done].
  pose proof (inv_shape s HI) as Hs. destruct (sh_live s Hs (i - 1)) as (ci & c & Hci & Hc & Hlive & Hpi); [lia|].
  replace (i - 1 + 1) with i in Hpi by lia. rewrite Hci. cbn [mbind outcome_bind]. rewrite Hc. cbn [mbind outcome_bind].
  apply wp_bind, wp_assert; [by rewrite bool_decide_true|].
  apply wp_bind, wp_rd; [rewrite (sh_ps s Hs); pose proof (sh_ncs s Hs); lia|]. intros p _ _.
  assert (state c ≠ C_QUEUED) as Hnq by (intros Hq; pose proof (Hqb ci c i Hc Hq Hpi); lia).
  apply wp_bind. eapply wp_mono; [eapply wp_bind_inv; by apply (serve_client_ok malloc r s ci c (revents p))|].
  intros [s1 ok1] H1. apply wp_bind. eapply wp_mono; [exact H1|]. clear s1 ok1 H1. intros [s1 ok] Hserved.
  pose proof (served_settled _ _ _ _ _ Hset Hc Hserved) as Hset1. pose proof (rd_bounds _ _ _ Hc) as Hb.
  destruct Hserved as (Hnear & HI1 & Hn & c' & Hcs & Hpi' & Hst).
  assert (∀ cj cx p, rd (cs s1) cj = Ret cx → cj ≠ ci → state cx = C_QUEUED → pitem cx = Some p → p < i) as Hothers.
  { intros cj cx p' Hcx Hne Hq Hpx. rewrite Hcs in Hcx.
    destruct (rd_insert_inv _ _ _ _ _ Hb Hcx) as [[-> ->]|[_ Hx]]; [done|by eapply Hqb]. }
  assert (rd (cs s1) ci = Ret c') as Hc' by (rewrite Hcs; by apply rd_insert_eq).
  destruct ok; cbn [negb].
  - cbn [wp continue]. specialize (HI1 eq_refl). split_and!; [done|done| |lia|lia|lia].
    intros cj cx p' Hcx Hq Hpx. destruct (decide (cj = ci)) as [->|Hne].
    + same_rd. assert (Some p' = Some i) by congruence. simplify_eq. lia.
    + pose proof (Hothers _ _ _ Hcx Hne Hq Hpx). lia.
  - destruct Hst as [Hst|[? _]]; [|done]. apply wp_bind. eapply wp_mono.
    { apply (close_client_ok s1 ci c'); [done|done|by rewrite Hst..]. }
    intros s2 [HI2 Hcl]. cbn [wp continue]. pose proof (cl_ncs _ _ _ Hcl).
    split_and!; [done|by eapply closed_settled| |lia|lia|lia].
    intros cj cx p' Hcx Hq Hpx. destruct (decide (cj = ci)) as [->|Hne].
    + destruct (cl_gone _ _ _ Hcl) as (? & ? & ?). same_rd. congruence.
    + destruct (cl_others _ _ _ Hcl cj cx Hne Hcx) as (c1 & Hc1 & Heq & Hp').
      assert (state c1 = C_QUEUED) as Hq1 by (rewrite Heq in Hq; done).
      destruct Hp' as [Hp'|Hp'].
      * eapply (Hothers cj c1); [done..|congruence].
      * pose proof (Hothers cj c1 _ Hc1 Hne Hq1 Hp'). lia.
Qed.

Lemma process_io_ok malloc s r :
  malloc_ok malloc → round_ok r → Inv s → settled s → qused s = 0 →
  wp (process_io malloc s r) (λ s', Inv s' ∧ settled s').
Proof.
  intros Hm Hr HI Hset Hq. unfold process_io. destruct (poll_fails r); [done|].
  set (s0 := poll s (polled r)).
  assert (zlen (ps s0) = zlen (ps s)) as Hzp by (unfold s0, poll, zlen; cbn [ps with_ps]; by rewrite length_imap).
  assert (Inv s0) as HI0.
  { destruct HI as [Hs [q Hqu] Hcl]. split; [destruct Hs; split; try done; by rewrite Hzp| |done].
    exists q. by destruct Hqu. }
  assert (settled s0 ∧ qused s0 = 0) as [Hset0 Hq0] by done. clearbody s0. clear s HI Hset Hq Hzp.
  apply wp_bind, wp_rd; [rewrite (sh_ps s0 (inv_shape s0 HI0)); unfold MAX_CLIENTS; lia|]. intros p _ _.
  apply wp_bind. eapply wp_mono with (Q := λ s1, Inv s1 ∧ settled s1 ∧ qused s1 = 0).
  { destruct (flag (revents p) POLLIN); [|done]. destruct Hr as [-> _].
    revert s0 HI0 Hset0 Hq0. induction (accepts r) as [|[afd nb] l IH]; intros s HI Hset Hq; simpl.
    - by destruct (ncs s <? MAX_CLIENTS).
    - destruct (Z.ltb_spec (ncs s) MAX_CLIENTS); cbn [negb]; [|done]. destruct nb; cbn [negb].
      + apply wp_bind. eapply wp_mono; [by apply accept_client_ok|].
        intros s1 (HI1 & _ & Hq1 & ci & c0 & c & Hc0 & _ & Hcs & Hst & _). apply IH; [done| |congruence].
        intros cj cx Hcx. rewrite Hcs in Hcx.
        destruct (rd_insert_inv _ _ _ _ _ (rd_bounds _ _ _ Hc0) Hcx) as [[-> ->]|[_ Hx]]; [by rewrite Hst|by eapply Hset].
      + apply IH; [|done|done]. destruct HI as [Hs [q Hqu] Hcl]. split; [by destruct Hs| |done].
        exists q. by destruct Hqu. }
  intros s1 (HI1 & Hset1 & Hq1).
  assert (queued_before s1 1) as Hqb.
  { intros ci c p' Hc Hst _. destruct (inv_queue s1 HI1) as [q Hqu].
    pose proof (qu_used _ _ Hqu) as Hz. rewrite Hq1 in Hz. symmetry in Hz. apply zlen_0_inv in Hz as ->.
    apply (qu_state _ _ Hqu ci c Hc) in Hst. inversion Hst. }
  pose proof (sh_ncs s1 (inv_shape s1 HI1)).
  apply (wp_loop (λ '(s, i), Inv s ∧ settled s ∧ queued_before s i ∧ 1 ≤ i ≤ ncs s + 1)
           (λ '(s, i), Z.to_nat (ncs s + 1 - i))); [split_and!; done || lia|lia|].
  intros [s i] (HI & Hset & Hqb' & Hi). eapply wp_mono; [by apply serve_step_ok|].
  intros [[s' i']|s']; [|done]. intros (? & ? & ? & ? & ?). split; [cbv beta iota; split_and!; done || lia|lia].
Qed.

(** ** Appending output *)

Lemma with_output_id c : with_output c (output c) = c.
Proof. by destruct c. Qed.

Lemma want_output_ok s ci c :
  shape s → rd (cs s) ci = Ret c → state c ≠ C_FREE →
  ∃ s', want_output s ci = Ret s' ∧ changed s s' ci c ∧ net s' = net s.
Proof.
  intros Hs Hc Hlive. destruct (pitem_ok s ci c Hs Hc Hlive) as (pi & Hpi & Hr & _).
  unfold want_output. rewrite Hc. cbn [mbind outcome_bind]. eapply update_events_ok; [done..|].
  rewrite (sh_ps s Hs). pose proof (sh_ncs s Hs). lia.
Qed.

(** The output of a client, with [x] behind it if that was possible. *)
Definition appended (s : server) (ci : Z) (c : client) (x : list Z) (s' : server) (ok : bool) : Prop :=
  ∃ b, changed s s' ci (with_output c b) ∧ net s' = net s ∧ buf_ok b ∧
    (is_Some (data (output c)) ∨ ok = true ∧ x ≠ [] → is_Some (data b)) ∧
    bytes b = bytes (output c) ++ (if ok then x else []).

Lemma appended_nothing s ci c x ok :
  rd (cs s) ci = Ret c → buf_ok (output c) → (ok = true → x = []) → appended s ci c x s ok.
Proof.
  intros Hc Hb Hx. exists (output c). rewrite with_output_id. split_and!; [by apply changed_refl|done|done| |].
  - intros [?|[? ?]]; [done|]. destruct ok; [by rewrite Hx in *|done].
  - destruct ok; [rewrite Hx by done|]; by rewrite app_nil_r.
Qed.

Lemma append_output_ok malloc s ci c x :
  malloc_ok malloc → shape s → rd (cs s) ci = Ret c → state c ≠ C_FREE → buf_ok (output c) →
  is_Some (data (output c)) ∨ zlen x ≤ 512 → zlen x < 2 ^ 62 →
  wp (http_server_append_output malloc s ci x) (λ '(s', ok), appended s ci c x s' ok ∧
    (ok = false → short malloc (zlen (bytes (output c)) + zlen x))).
Proof.
  intros Hm Hs Hc Hlive Hb Hdata Hx. unfold http_server_append_output. pose proof (zlen_nonneg x).
  destruct (Z.eqb_spec (zlen x) 0) as [->%zlen_0_inv|Hne]; [split; [by apply appended_nothing|done]|].
  rewrite Hc. cbn [mbind outcome_bind]. apply wp_bind. eapply wp_mono; [by apply ensure_free_space_ok; [..|lia]|].
  intros [b|]; [|intros Hshort; split; [by apply appended_nothing|done]]. intros (Hb1 & Hbytes & Hdata1 & Hroom). specialize (Hroom Hdata).
  destruct (buf_append_ok b x Hb1 Hdata1 Hroom) as (d & -> & Hok & Hb2). cbn [mbind outcome_bind data size used].
  set (b2 := mkIobuf _ _ _) in *.
  destruct (set_client_ok s ci (with_output c b2) c Hc) as (s1 & -> & Hch & Hnet). cbn [mbind outcome_bind].
  pose proof (changed_rd _ _ _ _ _ Hc Hch) as Hc1.
  assert (shape s1) as Hs1 by (by eapply changed_shape).
  destruct (want_output_ok s1 ci (with_output c b2) Hs1 Hc1 Hlive) as (s2 & -> & Hch2 & Hnet2). cbn [mbind outcome_bind wp].
  split; [|done]. exists b2. split_and!; [by eapply changed_trans|congruence|done|by eexists|by rewrite Hb2, Hbytes].
Qed.

Lemma append_output_format_2_ok malloc s ci c x :
  malloc_ok malloc → shape s → rd (cs s) ci = Ret c → state c ≠ C_FREE → buf_ok (output c) →
  is_Some (data (output c)) ∨ zlen x < 512 → zlen x < 2 ^ 61 →
  wp (http_server_append_output_format_2 malloc s ci (Some x)) (λ '(s', ok), appended s ci c x s' ok ∧
    (ok = false → short malloc (zlen (bytes (output c)) + (zlen x + 1)))).
Proof.
  intros Hm Hs Hc Hlive Hb Hdata Hx. unfold http_server_append_output_format_2. pose proof (zlen_nonneg x).
  rewrite Hc. cbn [mbind outcome_bind].
  destruct (vsnprintf_ok (output c) x Hb) as (b & -> & Hb1 & Hbytes1 & Hsz & Hus & Hdata1 & Hfit).
  cbn [mbind outcome_bind]. pose proof (buf_range b Hb1) as [Hu Hmax]. rewrite u64_small by lia.
  apply wp_bind. eapply wp_mono with (Q := λ r, match r with
    | None => short malloc (zlen (bytes (output c)) + (zlen x + 1))
    | Some b' => let b2 := mkIobuf (data b') (size b') (u64 (used b' + zlen x)) in
        buf_ok b2 ∧ bytes b2 = bytes (output c) ++ x ∧ is_Some (data b2)
    end).
  { destruct (Z.leb_spec (size b - used b) (zlen x + 1)) as [Hle|Hgt].
    - apply wp_bind. eapply wp_mono; [apply ensure_free_space_ok; [done|done|lia]|].
      intros [b2|]; [|by rewrite Hbytes1]. intros (Hb2 & Hbytes2 & _ & Hroom).
      destruct (vsnprintf_ok b2 x Hb2) as (b3 & -> & _ & _ & _ & _ & _ & Hfit3). cbn [mbind outcome_bind wp].
      rewrite <- Hbytes1, <- Hbytes2. apply Hfit3.
      assert (zlen x + 1 ≤ room b2); [|lia]. apply Hroom. destruct Hdata; [by left; apply Hdata1|right; lia].
    - apply Hfit. unfold room. rewrite <- Hsz, <- Hus. lia. }
  intros [b2|].
  - intros (Hok & Hb2 & Hd2). cbv beta iota zeta in *.
    set (b3 := mkIobuf (data b2) (size b2) (u64 (used b2 + zlen x))) in *.
    destruct (set_client_ok s ci (with_output c b3) c Hc) as (s1 & -> & Hch & Hnet). cbn [mbind outcome_bind].
    pose proof (changed_rd _ _ _ _ _ Hc Hch) as Hc1. assert (shape s1) as Hs1 by (by eapply changed_shape).
    destruct (want_output_ok s1 ci (with_output c b3) Hs1 Hc1 Hlive) as (s2 & Hs2 & Hch2 & Hnet2).
    destruct (0 <? zlen x); [rewrite Hs2|]; cbn [mbind outcome_bind wp]; (split; [|done]); exists b3; split_and!; try done;
      [by eapply changed_trans|congruence].
  - intros Hshort. destruct (set_client_ok s ci (with_output c b) c Hc) as (s1 & -> & Hch & Hnet).
    cbn [mbind outcome_bind wp]. split; [|done]. exists b. split_and!; [done|done|done| |by rewrite app_nil_r].
    intros [?|[? _]]; [by apply Hdata1|done].
Qed.
