(* ===== verification/HttpReply.v ===== *)
(** The requests that [HttpServer] hands out and the responses it assembles. *)
From S2P Require Import Prelude Sockets HttpParse HttpServer HttpConn HttpServe.
#[global] Open Scope Z_scope.

(** ** Printing *)

(** The digits found later stand in front. *)
Lemma digits_acc fuel n acc : digits fuel n acc = digits fuel n [] ++ acc.
Proof.
  revert n acc. induction fuel as [|fuel IH]; intros n acc; simpl; [done|].
  destruct (n / 10 =? 0); [done|]. rewrite (IH _ [_]), IH, <-app_assoc. done.
Qed.

Lemma digits_S fuel n :
  digits (S fuel) n [] = (if n / 10 =? 0 then [] else digits fuel (n / 10) []) ++ [c_0 + n mod 10].
Proof. simpl. destruct (n / 10 =? 0); [done|]. apply digits_acc. Qed.

Lemma zlen_digits fuel n : zlen (digits fuel n []) ≤ Z.of_nat fuel.
Proof.
  revert n. induction fuel as [|fuel IH]; intros n; [done|]. rewrite digits_S, zlen_app.
  change (zlen [_]) with 1. specialize (IH (n / 10)). destruct (n / 10 =? 0); rewrite ?zlen_nil; lia.
Qed.

(** The decimal number of the digits that are printed is the number, and it
    has as many digits as it needs. *)
Lemma digits_ok fuel n :
  0 ≤ n < 10 ^ Z.of_nat fuel → (0 < fuel)%nat →
  decimal (digits fuel n []) = n ∧ Forall (λ c, is_digit c = true) (digits fuel n []) ∧ digits fuel n [] ≠ [].
Proof.
  revert n. induction fuel as [|fuel IH]; intros n Hn Hf; [lia|]. rewrite digits_S.
  assert (is_digit (c_0 + n mod 10) = true) as Hd by (unfold is_digit; lia).
  split_and!; [| |intros [_ [=]]%app_nil].
  - unfold decimal. rewrite foldl_app. simpl. fold (decimal (if n / 10 =? 0 then [] else digits fuel (n / 10) [])).
    destruct (Z.eqb_spec (n / 10) 0) as [He|Hne]; [unfold decimal; simpl; lia|].
    rewrite Nat2Z.inj_succ, Z.pow_succ_r in Hn by lia. destruct fuel as [|fuel]; [simpl in Hn; lia|].
    destruct (IH (n / 10)) as [-> _]; lia.
  - apply Forall_app. split; [|by constructor]. destruct (Z.eqb_spec (n / 10) 0); [done|].
    rewrite Nat2Z.inj_succ, Z.pow_succ_r in Hn by lia. destruct fuel as [|fuel]; [simpl in Hn; lia|].
    apply (IH (n / 10)); lia.
Qed.

Lemma digits_small fuel n k : 0 ≤ n < 10 ^ Z.of_nat k → (0 < k)%nat → zlen (digits fuel n []) ≤ Z.of_nat k.
Proof.
  revert n k. induction fuel as [|fuel IH]; intros n k Hn Hk; [simpl; rewrite zlen_nil; lia|].
  rewrite digits_S, zlen_app. change (zlen [_]) with 1.
  destruct (Z.eqb_spec (n / 10) 0); [rewrite zlen_nil; lia|]. destruct k as [|k]; [lia|].
  rewrite Nat2Z.inj_succ, Z.pow_succ_r in Hn by lia. destruct k as [|k]; [simpl in Hn; lia|].
  specialize (IH (n / 10) (S k)). lia.
Qed.

Lemma print_int_ok n :
  0 ≤ n < 10 ^ 9 → decimal (print_int n) = n ∧ Forall (λ c, is_digit c = true) (print_int n) ∧
    1 ≤ zlen (print_int n) ≤ 9.
Proof.
  intros Hn. unfold print_int. destruct (Z.ltb_spec n 0); [lia|].
  destruct (digits_ok 20 n) as (H1 & H2 & H3); [simpl; lia|lia|].
  pose proof (digits_small 20 n 9 ltac:(simpl; lia) ltac:(lia)). split_and!; [done..| |lia].
  pose proof (zlen_nonneg (digits 20 n [])). destruct (decide (zlen (digits 20 n []) = 0)) as [He|]; [|lia].
  by apply zlen_0_inv in He.
Qed.

(** The nine places of a length are too few from 10^9 on. *)
Lemma ten_digits : (zlen (print_int (10 ^ 9)) <? 10) = false.
Proof. by vm_compute. Qed.

Lemma zlen_print_int n : zlen (print_int n) ≤ 21.
Proof.
  unfold print_int. pose proof (zlen_digits 20 n). pose proof (zlen_digits 20 (- n)).
  destruct (n <? 0); rewrite ?zlen_cons; lia.
Qed.

Lemma zlen_reason_phrase status : zlen (chars (reason_phrase status)) ≤ 31.
Proof. unfold reason_phrase. repeat case_match; vm_compute; done. Qed.

Lemma zlen_status_line minor status : zlen (status_line minor status) ≤ 90.
Proof.
  unfold status_line. rewrite !zlen_app. pose proof (zlen_print_int minor). pose proof (zlen_print_int status).
  pose proof (zlen_reason_phrase status). unfold zlen in *. simpl. lia.
Qed.

(** ** Requests *)

Lemma inside_text src len s : len ≤ zlen src → inside src len s → ∃ l, text s = Ret l.
Proof.
  intros Hlen (Hb & Ho & Hs & Hfit). unfold text. rewrite Hb, rd_range_ok by lia. by eexists.
Qed.

Lemma content_length_range l n : HttpParse.content_length l = Some n → 0 ≤ n ≤ SIZE_MAX.
Proof.
  unfold HttpParse.content_length. set (ds := take_while is_digit _).
  case_bool_decide; [done|]. destruct (Z.ltb_spec SIZE_MAX (decimal ds)); [done|].
  destruct (forallb _ _); [|done]. intros [= <-]. split; [|done].
  apply (decimal_from 0 ds); [apply Forall_take_while|done].
Qed.

Lemma request_content_length_ok src len r :
  len ≤ zlen src → Forall (λ '(n, v), inside src len n ∧ inside src len v) (hs r) →
  wp (request_content_length r) (λ x, match x with
    | inl status => status = 400
    | inr n => 0 ≤ n < SIZE_MAX
    end).
Proof.
  intros Hlen Hall.
  assert (Forall (λ h, ∃ n v, text h.1 = Ret n ∧ text h.2 = Ret v) (hs r)) as Htext.
  { eapply Forall_impl; [exact Hall|]. intros [n v] [Hn Hv]. simpl.
    destruct (inside_text _ _ _ Hlen Hn) as [l1 ?], (inside_text _ _ _ Hlen Hv) as [l2 ?]. by exists l1, l2. }
  unfold request_content_length. apply wp_bind. eapply wp_mono.
  { apply wp_find_header. eapply Forall_impl; [exact Htext|]. intros h (n & v & ? & _). by exists n. }
  intros [value|].
  - intros [n Hin]. rewrite Forall_forall in Htext. destruct (Htext _ Hin) as (_ & v & _ & Hv). simpl in Hv.
    rewrite (parse_content_length_ok value v Hv). cbn [mbind outcome_bind].
    destruct (HttpParse.content_length v) as [k|] eqn:Hk; [|by rewrite Z.eqb_refl].
    pose proof (content_length_range _ _ Hk). destruct (Z.eqb_spec k SIZE_MAX); simpl; [done|lia].
  - intros _. apply wp_bind. eapply wp_mono; [by apply wp_transfer_encoding|].
    intros te [-> | ->]; simpl; done.
Qed.

Lemma nearly_append s ci c s' ok x :
  nearly s ci → rd (cs s) ci = Ret c → appended s ci c x s' ok →
  ∃ b, rd (cs s') ci = Ret (with_output c b) ∧ nearly s' ci ∧ changed s s' ci (with_output c b) ∧ buf_ok b ∧
    bytes b = bytes (output c) ++ (if ok then x else []) ∧
    (is_Some (data (output c)) ∨ ok = true ∧ x ≠ [] → is_Some (data b)).
Proof.
  intros Hn Hc (b & Hch & _ & Hb & Hdata & Hbytes). exists b.
  split; [by eapply changed_rd|]. split; [by eapply changed_nearly|]. done.
Qed.

(** What does not change but for one client. *)
Lemma changed_settled s s' ci c c0 :
  settled s → rd (cs s) ci = Ret c0 → changed s s' ci c → state c ≠ C_HEADER → state c ≠ C_CONTENT → settled s'.
Proof.
  intros Hset Hc0 Hch ? ? cj cx Hcx. rewrite (ch_cs _ _ _ _ Hch) in Hcx.
  destruct (rd_insert_inv _ _ _ _ _ (rd_bounds _ _ _ Hc0) Hcx) as [[-> ->]|[_ Hx]]; [done|by eapply Hset].
Qed.

Lemma send_basic_ok malloc s ci c minor status :
  malloc_ok malloc → Inv s → settled s → rd (cs s) ci = Ret c → state c = C_POPPED → minor = 0 ∨ minor = 1 →
  wp (send_basic_response_and_close malloc s ci minor status) (λ s', Inv s' ∧ settled s' ∧ qused s' = qused s).
Proof.
  intros Hm HI Hset Hc Hst Hminor. assert (state c ≠ C_FREE) as Hlive by congruence.
  pose proof (inv_clients s HI ci c Hc) as Hcok. destruct (proj1 (proj2 Hcok) Hlive) as [Hin Hout].
  unfold send_basic_response_and_close. apply wp_bind. eapply wp_mono with (Q := λ '(s', ok), ∃ x, appended s ci c x s' ok).
  { assert (∀ x, zlen x ≤ 100 → wp (http_server_append_output_format malloc s ci (status_line minor status ++ x))
      (λ '(s', ok), ∃ x, appended s ci c x s' ok)) as Happ.
    { intros x Hx. pose proof (zlen_status_line minor status).
      assert (zlen (status_line minor status ++ x) < 512) by (rewrite zlen_app; lia).
      eapply wp_mono; [apply (append_output_format_2_ok malloc s ci c (status_line minor status ++ x));
        [done|apply HI|done..|by right|lia]|]. intros [s' ok] [? _]. by eexists. }
    destruct Hminor as [-> | ->]; cbn [Z.eqb]; [by apply Happ|].
    apply wp_bind, wp_assert; [done|]. by apply Happ. }
  intros [s1 ok] (x & Happ). destruct (nearly_append _ _ _ _ _ _ (inv_nearly s ci HI) Hc Happ)
    as (b & Hc1 & Hnear & Hch & Hb & _). destruct ok; cbn [negb].
  - rewrite Hc1. cbn [mbind outcome_bind].
    destruct (set_client_ok s1 ci (with_state (with_output c b) C_CLOSE) _ Hc1) as (s2 & -> & Hch2 & _). cbn [wp].
    pose proof (changed_trans _ _ _ _ _ _ Hch Hch2) as Hch'. split_and!.
    + eapply inv_changed; [exact HI|exact Hc|exact Hch'| |done|simpl; split; congruence..].
      destruct Hcok as (Hg & _ & _). split; [done|]. by split.
    + by eapply changed_settled.
    + by rewrite (ch_qused _ _ _ _ Hch').
  - eapply wp_mono; [apply (close_client_ok s1 ci (with_output c b)); simpl; congruence || done|].
    intros s2 [HI2 Hcl]. split_and!; [done| |by rewrite (cl_qused _ _ _ Hcl), (ch_qused _ _ _ _ Hch)].
    eapply closed_settled; [|done]. eapply changed_settled; [done|done|exact Hch|simpl; congruence..].
Qed.

(** A ticket: the handle names a client that waits for its response; the
    request is the one in its input, with the content behind it, unless the
    length of the head and that of the content have a sum of more than 64
    bits. *)
Definition ticket_ok (s : server) (t : ticket) : Prop :=
  let '(h, r, content) := t in
  ∃ ci c d pre post, rd (cs s) ci = Ret c ∧ state c = C_STATUS ∧ h = Z.lor (gen c) (Z.shiftl ci 16) ∧
    data (input c) = Some d ∧ bytes (input c) = pre ++ CRLF2 ++ post ∧
    parse_request_head d (zlen (pre ++ CRLF2)) = Ret (P_OK r) ∧
    major r = 1 ∧ HttpParse.minor r = minor c ∧ (minor c = 0 ∨ minor c = 1) ∧
    base content = d ∧ off content = zlen (pre ++ CRLF2) ∧ 0 ≤ HttpParse.size content < SIZE_MAX ∧
    request_length c = u64 (off content + HttpParse.size content) ∧ request_length c ≤ used (input c) ∧
    (off content + HttpParse.size content < 2 ^ 64 →
     ∃ text more, post = text ++ more ∧ zlen text = HttpParse.size content).

Lemma head_ends b d pre post :
  buf_ok b → data b = Some d → bytes b = pre ++ CRLF2 ++ post →
  ends_in_blank_line d (zlen pre + 4).
Proof.
  intros Hb Hd Hl. destruct (buf_split b d Hb Hd) as [rest ->]. rewrite Hl.
  pose proof (zlen_nonneg pre). pose proof (zlen_nonneg post). pose proof (zlen_nonneg rest).
  change (zlen CRLF2) with 4. split; [rewrite !zlen_app; change (zlen CRLF2) with 4; lia|].
  replace (zlen pre + 4 - 4) with (zlen pre) by lia. rewrite <- !app_assoc.
  by apply (rd_range_app pre CRLF2 (post ++ rest)).
Qed.

Lemma take_request_ok malloc s ci q c0 :
  malloc_ok malloc → Inv s → settled s → queue_ok s (ci :: q) → rd (cs s) ci = Ret c0 → state c0 = C_QUEUED →
  wp (take_request malloc (popped s) ci) (λ '(s', t), Inv s' ∧ settled s' ∧ qused s' = qused s - 1 ∧
    match t with Some t => ticket_ok s' t | None => True end).
Proof.
  intros Hm HIs Hset Hq Hc0 Hst0. pose proof (inv_clients s HIs ci c0 Hc0) as Hok0.
  pose proof Hok0 as (Hgen & Hbufs & Hhead).
  rewrite Hst0 in Hhead. destruct (Hbufs ltac:(congruence)) as [Hin Hout].
  set (s1 := popped s). assert (rd (cs s1) ci = Ret c0) as Hc01 by done.
  unfold take_request. rewrite Hc01. cbn [mbind outcome_bind]. set (c := with_state c0 C_POPPED).
  destruct (set_client_ok s1 ci c c0 Hc01) as (s2 & -> & Hch & _). cbn [mbind outcome_bind].
  pose proof (changed_rd _ _ _ _ _ Hc01 Hch) as Hc. assert (client_ok c) as Hcok by done.
  assert (Inv s2) as HI by (by eapply popped_inv).
  assert (settled s2) as Hset2.
  { intros cj cx Hcx. rewrite (ch_cs _ _ _ _ Hch) in Hcx.
    destruct (rd_insert_inv _ _ _ _ _ (rd_bounds _ _ _ Hc0) Hcx) as [[-> ->]|[_ Hx]]; [done|by eapply Hset]. }
  change (qused s - 1) with (qused s1). rewrite <- (ch_qused _ _ _ _ Hch).
  assert (∀ minor status, minor = 0 ∨ minor = 1 →
    wp (s ← send_basic_response_and_close malloc s2 ci minor status; Ret (s, None)) (λ '(s', t),
      Inv s' ∧ settled s' ∧ qused s' = qused s2 ∧ match t with Some t => ticket_ok s' t | None => True end)) as Hrefuse.
  { intros minor status Hminor. apply wp_bind. eapply wp_mono; [by apply (send_basic_ok malloc s2 ci c)|].
    intros s3 (? & ? & ?). by split_and!. }
  change (input c) with (input c0). apply wp_bind. eapply wp_mono; [by apply find_head|]. intros i Hi.
  cbv beta in Hi. destruct (i =? SIZE_MAX) eqn:Hmax; [by destruct (Hi Hhead)|].
  destruct Hi as (pre & post & -> & Hl). apply wp_bind, wp_assert; [done|].
  assert (∃ d, data (input c0) = Some d) as [d Hd].
  { pose proof (zlen_bytes _ Hin) as Hz. unfold buf_ok in Hin. destruct (data (input c0)) as [d|]; [by exists d|].
    rewrite Hl, !zlen_app in Hz. change (zlen CRLF2) with 4 in Hz. pose proof (zlen_nonneg pre).
    pose proof (zlen_nonneg post). lia. }
  rewrite Hd. cbn [mbind outcome_bind]. pose proof (head_ends _ _ _ _ Hin Hd Hl) as Hends.
  destruct (wp_inv _ _ (parse_request_head_ok d (zlen pre + 4) Hends)) as (result & Hres & Hparsed).
  rewrite Hres. cbn [mbind outcome_bind]. destruct result as [r| | | |]; try (by apply Hrefuse; right).
  destruct Hparsed as (_ & _ & _ & _ & Hhs).
  destruct (negb (major r =? 1) || negb ((HttpParse.minor r =? 0) || (HttpParse.minor r =? 1))) eqn:Hver;
    [by apply Hrefuse; right|].
  apply orb_false_iff in Hver as [Hmajor%negb_false_iff%Z.eqb_eq Hminor%negb_false_iff%orb_true_iff].
  rewrite !Z.eqb_eq in Hminor.
  apply wp_bind. eapply wp_mono; [apply (request_content_length_ok d (zlen pre + 4)); [destruct Hends; lia|done]|].
  intros [status|n]; [intros _; by apply Hrefuse|]. intros Hn.
  destruct (Z.ltb_spec (used (input c0)) (u64 (zlen pre + 4 + n))) as [|Hfit]; [done|].
  set (c' := mkClient _ _ _ _ _ _ _ _ _ _ _ _).
  destruct (set_client_ok s2 ci c' c Hc) as (s3 & -> & Hch3 & _). cbn [mbind outcome_bind].
  pose proof (u64_range (zlen pre + 4 + n)) as Hur.
  assert (Inv s3) as HI3.
  { eapply inv_changed; [exact HI|exact Hc|exact Hch3| |done|done|done]. destruct Hcok as (_ & Hb & _).
    split; [done|]. split; [done|]. split; [done|]. change (0 ≤ u64 (zlen pre + 4 + n) ≤ used (input c0)). lia. }
  unfold handle_of. assert ((gen c' <? UINT16_MAX) = true) as -> by (simpl; lia). cbn [c_assert mbind outcome_bind wp].
  split; [done|]. split; [by eapply changed_settled|]. split; [by rewrite (ch_qused _ _ _ _ Hch3)|].
  pose proof (rd_bounds _ _ _ Hc0) as Hb. rewrite (sh_cs s (inv_shape s HIs)) in Hb. unfold MAX_CLIENTS in Hb.
  exists ci, c', d, pre, post. split; [by eapply changed_rd|]. split; [done|].
  split. { rewrite (u32_small ci) by lia. rewrite u32_small; [done|]. rewrite Z.shiftl_mul_pow2 by lia. lia. }
  rewrite zlen_app. change (zlen CRLF2) with 4. cbn [off HttpParse.size]. do 11 (split; [done|]).
  intros Hlt. pose proof (zlen_nonneg pre). rewrite u64_small in Hfit by lia.
  pose proof (zlen_bytes _ Hin) as Hz. rewrite Hl, !zlen_app in Hz. change (zlen CRLF2) with 4 in Hz.
  exists (take (Z.to_nat n) post), (drop (Z.to_nat n) post). rewrite take_drop, zlen_take by lia. done.
Qed.

(** The requests in the queue and those the rounds can bring. *)
Definition weight (s : server) (rounds : list round) : nat :=
  (Z.to_nat (qused s) + Z.to_nat MAX_CLIENTS * length rounds)%nat.

Lemma qused_range s : Inv s → 0 ≤ qused s ≤ MAX_CLIENTS.
Proof.
  intros HI. destruct (inv_queue s HI) as [q Hq]. rewrite (qu_used _ _ Hq).
  pose proof (queue_bound q (qu_once _ _ Hq) (qu_range _ _ Hq)). pose proof (zlen_nonneg q). lia.
Qed.

Lemma wait_queue_ok malloc s rounds :
  malloc_ok malloc → Forall round_ok rounds → Inv s → settled s →
  wp (wait_queue malloc s rounds) (λ '(s', more), Inv s' ∧ settled s' ∧ match more with
    | Some rounds' => Forall round_ok rounds' ∧ 0 < qused s' ∧ (weight s' rounds' ≤ weight s rounds)%nat
    | None => True
    end).
Proof.
  intros Hm Hr. revert s. induction Hr as [|r rounds Hr1 Hr IH]; intros s HI Hset; simpl;
    pose proof (qused_range s HI); (destruct (Z.eqb_spec (qused s) 0) as [Hz|Hnz]; cbn [negb]).
  - done.
  - simpl. split_and!; try done. lia.
  - apply wp_bind. eapply wp_mono; [by apply process_io_ok|]. intros s1 [HI1 Hset1].
    eapply wp_mono; [by apply IH|]. intros [s' [rounds'|]]; [|done]. intros (? & ? & ? & ? & Hw).
    split_and!; try done. pose proof (qused_range s1 HI1). unfold weight in *. simpl length. lia.
  - simpl. split_and!; try done; [by constructor|lia].
Qed.

(** A call that waits for a request ends with one, or is still waiting after
    the given rounds. *)
Lemma wait_request_ok malloc s rounds :
  malloc_ok malloc → Forall round_ok rounds → Inv s → settled s →
  wp (http_server_wait_request malloc s rounds) (λ '(s', t), Inv s' ∧ settled s' ∧
    match t with Some t => ticket_ok s' t | None => True end).
Proof.
  intros Hm Hr HI Hset. unfold http_server_wait_request.
  apply (wp_loop (λ '(s, rounds), Forall round_ok rounds ∧ Inv s ∧ settled s) (λ '(s, rounds), weight s rounds));
    [by split_and!|unfold weight; lia|].
  clear s rounds Hr HI Hset. intros [s rounds] (Hr & HI & Hset). apply wp_bind.
  eapply wp_mono; [by apply wait_queue_ok|]. intros [s1 [rounds1|]]; [|intros (? & ? & _); by split_and!].
  intros (HI1 & Hset1 & Hr1 & Hpos & Hw). destruct (queue_first s1 HI1 Hpos) as (ci & q & c0 & Hq & Hc0 & Hst0).
  rewrite (pop_client_eq s1 ci q Hq). cbn [mbind outcome_bind].
  apply wp_bind. eapply wp_mono; [apply (take_request_ok malloc s1 ci q c0); by try eapply inv_clients|].
  intros [s3 [t|]] (HI3 & Hset3 & Hq3 & Ht); [done|]. split; [done|].
  unfold weight in *. lia.
Qed.

(** ** The client of a handle *)

Definition settled_but (s : server) (ci : Z) : Prop :=
  ∀ cj c, rd (cs s) cj = Ret c → cj ≠ ci → state c ≠ C_HEADER ∧ state c ≠ C_CONTENT.

(** The handle [h] names the client [c] at [ci], which is the only one that may
    be in the middle of a response; and it names nobody any more. *)
Record active (s : server) (h ci : Z) (c : client) : Prop := mkActive {
  ac_inv : Inv s;
  ac_others : settled_but s ci;
  ac_client : rd (cs s) ci = Ret c;
  ac_handle : client_from_handle s h = Ret (Some ci);
}.

Definition gone (s : server) (h : Z) : Prop :=
  Inv s ∧ settled s ∧ client_from_handle s h = Ret None.

(** The client was closed, and the handle names nobody. *)
Definition dropped (s : server) (h ci : Z) : Prop :=
  gone s h ∧ ∃ c, rd (cs s) ci = Ret c ∧ state c = C_FREE.

Lemma handle_gen s h ci c :
  client_from_handle s h = Ret (Some ci) → rd (cs s) ci = Ret c →
  ci = Z.shiftr h 16 ∧ ci < ncs s ∧ gen c = Z.land h 65535.
Proof.
  unfold client_from_handle. destruct (Z.leb_spec (ncs s) (Z.shiftr h 16)); [done|].
  destruct (rd (cs s) (Z.shiftr h 16)) as [c'|] eqn:Hc'; [|done]. cbn [mbind outcome_bind].
  destruct (Z.eqb_spec (gen c') (Z.land h 65535)); [|done]. cbn [negb]. intros [= <-] Hc. by same_rd.
Qed.

Lemma changed_settled_but s s' ci c c0 :
  settled_but s ci → rd (cs s) ci = Ret c0 → changed s s' ci c → settled_but s' ci.
Proof.
  intros Hset Hc0 Hch cj cx Hcx Hne. rewrite (ch_cs _ _ _ _ Hch) in Hcx.
  destruct (rd_insert_inv _ _ _ _ _ (rd_bounds _ _ _ Hc0) Hcx) as [[-> _]|[_ Hx]]; [done|by eapply Hset].
Qed.

Lemma handle_changed s s' h ci c c0 :
  client_from_handle s h = Ret (Some ci) → rd (cs s) ci = Ret c0 → changed s s' ci c → gen c = gen c0 →
  client_from_handle s' h = Ret (Some ci).
Proof.
  intros Hh Hc0 Hch Hg. destruct (handle_gen _ _ _ _ Hh Hc0) as (Hci & Hn & Hgen).
  unfold client_from_handle. rewrite <- Hci, (ch_ncs _ _ _ _ Hch), (changed_rd _ _ _ _ _ Hc0 Hch).
  destruct (Z.leb_spec (ncs s) ci); [lia|]. cbn [mbind outcome_bind]. by rewrite Hg, Hgen, Z.eqb_refl.
Qed.

Lemma active_changed s s' h ci c c0 :
  active s h ci c0 → changed s s' ci c → client_ok c → gen c = gen c0 → pitem c = pitem c0 →
  (state c = C_FREE ↔ state c0 = C_FREE) → (state c = C_QUEUED ↔ state c0 = C_QUEUED) → active s' h ci c.
Proof.
  intros [HI Hset Hc0 Hh] Hch Hok Hg Hpi Hf Hq. split.
  - by eapply inv_changed.
  - by eapply changed_settled_but.
  - by eapply changed_rd.
  - by eapply handle_changed.
Qed.

(** A handle of another generation names nobody. *)
Lemma invalidated_gen c : gen (invalidate_handles c) ≠ gen c ∨ ¬ 0 ≤ gen c < UINT16_MAX.
Proof.
  unfold invalidate_handles, UINT16_MAX. destruct (decide (0 ≤ gen c < 2 ^ 16 - 1)); [left|by right].
  rewrite u16_small by lia. destruct (Z.eqb_spec (gen c + 1) (2 ^ 16 - 1)); simpl; lia.
Qed.

Lemma handle_gone s h ci c :
  rd (cs s) ci = Ret c → ci = Z.shiftr h 16 → gen c ≠ Z.land h 65535 → client_from_handle s h = Ret None.
Proof.
  intros Hc -> Hg. unfold client_from_handle. destruct (ncs s <=? Z.shiftr h 16); [done|].
  rewrite Hc. cbn [mbind outcome_bind]. by rewrite (proj2 (Z.eqb_neq _ _) Hg).
Qed.

(** Closing the connection of a response, whatever became of its buffers. *)
Lemma active_close s s1 h ci c0 c :
  active s h ci c0 → changed s s1 ci c → gen c = gen c0 → pitem c = pitem c0 → state c = state c0 →
  state c ≠ C_FREE → state c ≠ C_QUEUED → wp (close_client s1 ci) (λ s', dropped s' h ci).
Proof.
  intros [HI Hset Hc0 Hh] Hch Hg Hpi Hst Hf Hq. pose proof (changed_rd _ _ _ _ _ Hc0 Hch) as Hc.
  eapply wp_mono; [apply (close_client_ok s1 ci c); [by eapply changed_nearly; [apply inv_nearly|..]|done..]|].
  intros s' [HI' Hcl]. destruct (cl_gone _ _ _ Hcl) as (c' & Hc' & Hfree).
  destruct (handle_gen _ _ _ _ Hh Hc0) as (Hci & Hn & Hgen). split; [|by exists c']. split; [done|]. split.
  - intros cj cx Hcx. destruct (decide (cj = ci)) as [->|Hne].
    + same_rd. by rewrite Hfree.
    + destruct (cl_others _ _ _ Hcl cj cx Hne Hcx) as (c1 & Hc1 & -> & _).
      by apply (changed_settled_but _ _ _ _ _ Hset Hc0 Hch cj c1).
  - apply (handle_gone s' h ci c'); [done|done|]. rewrite (cl_gen _ _ _ Hcl c c' Hc Hc'), <- Hgen, <- Hg.
    destruct (invalidated_gen c) as [?|Hno]; [done|]. destruct Hno. rewrite Hg.
    by apply (inv_clients s HI ci c0).
Qed.

(** A call through a handle that names nobody does nothing. *)
Lemma gone_noop malloc s h :
  gone s h →
  (∀ st, http_server_set_status malloc s h st = Ret s) ∧
  (∀ x, http_server_append_header malloc s h x = Ret s) ∧
  (∀ x, http_server_append_content malloc s h x = Ret s) ∧
  http_server_send_response malloc s h = Ret s.
Proof.
  intros (_ & _ & Hh). unfold http_server_set_status, http_server_append_header, http_server_append_content,
    content_client, http_server_send_response. by rewrite Hh.
Qed.

(** ** Building a response *)

Definition busy (c : client) : Prop :=
  state c = C_STATUS ∨ state c = C_HEADER ∨ state c = C_CONTENT.

(** More output does not hurt a client. *)
Lemma client_ok_grow c b x :
  client_ok c → state c ≠ C_FREE → buf_ok b → bytes b = bytes (output c) ++ x →
  (is_Some (data (output c)) → is_Some (data b)) → client_ok (with_output c b).
Proof.
  intros (Hg & Hbufs & Hst) Hlive Hb Hbytes Hdata. destruct (Hbufs Hlive) as [Hin Hout].
  pose proof (zlen_bytes _ Hb) as Hl. rewrite Hbytes, zlen_app, (zlen_bytes _ Hout) in Hl. pose proof (zlen_nonneg x).
  split; [done|]. split; [done|]. simpl in *. destruct (state c); try done.
  - destruct Hst as [? ?]. by split; [|auto].
  - destruct Hst as (? & ? & ? & ?). split_and!; [done|auto|done|lia|lia].
Qed.

Lemma active_bufs s h ci c :
  active s h ci c → busy c → state c ≠ C_FREE ∧ state c ≠ C_QUEUED ∧ client_ok c ∧ buf_ok (input c) ∧ buf_ok (output c).
Proof.
  intros [HI _ Hc _] Hb. pose proof (inv_clients s HI ci c Hc) as Hok.
  assert (state c ≠ C_FREE ∧ state c ≠ C_QUEUED) as [Hf Hq] by (destruct Hb as [->|[->| ->]]; done).
  destruct (proj1 (proj2 Hok) Hf). done.
Qed.

Lemma active_appended s s' h ci c x ok :
  active s h ci c → busy c → appended s ci c x s' ok →
  ∃ b, active s' h ci (with_output c b) ∧ changed s s' ci (with_output c b) ∧ buf_ok b ∧
    bytes b = bytes (output c) ++ (if ok then x else []) ∧
    (is_Some (data (output c)) ∨ ok = true ∧ x ≠ [] → is_Some (data b)).
Proof.
  intros Ha Hbusy (b & Hch & _ & Hb & Hdata & Hbytes). destruct (active_bufs _ _ _ _ Ha Hbusy) as (Hf & Hq & Hok & _).
  exists b. split; [|done]. eapply active_changed; [exact Ha|exact Hch| |done..].
  eapply client_ok_grow; [done|done|done|exact Hbytes|]. intros ?. apply Hdata. by left.
Qed.

(** The client was closed, because there was no memory for an output of [N]
    bytes. *)
Definition lost (malloc : allocator) (N : Z) (s : server) (h ci : Z) : Prop := dropped s h ci ∧ short malloc N.

(** A step of the construction: the client is lost, or it has become another
    one as [R] says. *)
Definition becomes (malloc : allocator) (N : Z) (s' : server) (h ci : Z) (R : client → Prop) : Prop :=
  lost malloc N s' h ci ∨ ∃ c', active s' h ci c' ∧ R c'.

Lemma becomes_mono malloc N s h ci (R R' : client → Prop) :
  (∀ c, R c → R' c) → becomes malloc N s h ci R → becomes malloc N s h ci R'.
Proof. intros HR [?|(c & ? & ?)]; [by left|right; exists c; auto]. Qed.

(** The lengths of literal texts, as numbers. *)
Ltac zlen_literals :=
  repeat match goal with
  | |- context [zlen (chars ?s)] => let n := eval vm_compute in (zlen (chars s)) in change (zlen (chars s)) with n
  | |- context [zlen [?c]] => change (zlen [c]) with 1
  end.

Lemma set_status_ok malloc N s h ci c status :
  malloc_ok malloc → active s h ci c → state c = C_STATUS → zlen (bytes (output c)) + 91 ≤ N →
  wp (http_server_set_status malloc s h status) (λ s', becomes malloc N s' h ci (λ c', ∃ b,
    c' = with_state (with_output c b) C_HEADER ∧ buf_ok b ∧
    bytes b = bytes (output c) ++ status_line (minor c) status)).
Proof.
  intros Hm Ha Hst HN. pose proof Ha as [HI Hset Hc Hh]. assert (busy c) as Hbusy by (by left).
  destruct (active_bufs _ _ _ _ Ha Hbusy) as (Hf & Hq & Hok & _ & Hout).
  unfold http_server_set_status. rewrite Hh. cbn [mbind outcome_bind]. rewrite Hc. cbn [mbind outcome_bind].
  rewrite bool_decide_true by done. cbn [negb]. pose proof (zlen_status_line (minor c) status).
  apply wp_bind. eapply wp_mono.
  { apply (append_output_format_2_ok malloc s ci c (status_line (minor c) status)); [done|apply HI|done..|right|]; lia. }
  intros [s1 ok] [Happ Hshort].
  destruct (active_appended _ _ _ _ _ _ _ Ha Hbusy Happ) as (b & Ha1 & Hch & Hb & Hbytes & Hdata).
  destruct ok; cbn [negb].
  - rewrite (ac_client _ _ _ _ Ha1). cbn [mbind outcome_bind].
    destruct (set_client_ok s1 ci (with_state (with_output c b) C_HEADER) _ (ac_client _ _ _ _ Ha1)) as (s2 & -> & Hch2 & _).
    cbn [wp]. right. eexists. split; [|by exists b].
    eapply active_changed; [exact Ha1|exact Hch2| |done|done|simpl; split; congruence..].
    destruct (inv_clients s1 (ac_inv _ _ _ _ Ha1) _ _ (ac_client _ _ _ _ Ha1)) as (Hg & Hbufs & Hreq).
    simpl in Hreq, Hbufs. rewrite Hst in Hreq, Hbufs. split; [done|]. split; [intros _; by apply Hbufs|]. simpl.
    split; [done|]. apply Hdata. right. split; [done|]. done.
  - eapply wp_mono; [by apply (active_close s s1 h ci c (with_output c b))|]. intros s2 ?. left. split; [done|].
    eapply short_mono; [|by apply Hshort]. lia.
Qed.

(** Headers with a colon are taken as they are: the name is the whole text,
    which is no name of the special headers. *)
Lemma parse_header_ok text :
  http_server_parse_header (text ++ [0]) (zlen text) =
    Ret (if bool_decide (c_colon ∈ text) then
           let n := zlen (take_while (λ c, negb (c =? c_colon)) text) in
           Some (mkSlice (text ++ [0]) 0 (zlen text), mkSlice (text ++ [0]) (n + 1) (zlen text - (n + 1)))
         else None).
Proof.
  unfold http_server_parse_header. pose proof (skip_while_text (λ c, negb (c =? c_colon)) [] text [0] (zlen text) eq_refl) as Hskip.
  cbn [app] in Hskip. change (zlen []) with 0 in Hskip. rewrite Hskip, Z.add_0_l. cbn [mbind outcome_bind]. clear Hskip.
  set (p := λ c, negb (c =? c_colon)). pose proof (take_drop_while p text) as Htd.
  pose proof (Forall_take_while p text) as Hall. pose proof (drop_while_head p text) as Hhead.
  destruct (drop_while p text) as [|c l] eqn:Hd.
  - rewrite app_nil_r in Htd. rewrite Htd in *. rewrite Z.eqb_refl, bool_decide_false; [done|].
    intros Hin. rewrite Forall_forall in Hall. by specialize (Hall _ Hin).
  - destruct (Z.eqb_spec (zlen (take_while p text)) (zlen text)) as [Heq|Hne].
    + rewrite <- Htd in Heq at 2. rewrite zlen_app, zlen_cons in Heq. pose proof (zlen_nonneg l). lia.
    + rewrite bool_decide_true; [done|]. rewrite <- Htd, elem_of_app. right.
      specialize (Hhead c l eq_refl). unfold p in Hhead. apply negb_false_iff, Z.eqb_eq in Hhead as ->. left.
Qed.

Lemma append_header_ok malloc N s h ci c text :
  malloc_ok malloc → active s h ci c → state c = C_HEADER → Forall is_char text → zlen text < 2 ^ 62 →
  zlen (bytes (output c)) + zlen text + 2 ≤ N →
  wp (http_server_append_header malloc s h text) (λ s', becomes malloc N s' h ci (λ c', ∃ b,
    c' = with_output c b ∧ buf_ok b ∧
      (bytes b = bytes (output c) ∧ (c_colon ∉ text ∨ short malloc N) ∨
       c_colon ∈ text ∧ bytes b = bytes (output c) ++ text ++ [CR; LF]))).
Proof.
  intros Hm Ha Hst Hchars Hlen HN. pose proof Ha as [HI Hset Hc Hh]. assert (busy c) as Hbusy by (right; by left).
  destruct (active_bufs _ _ _ _ Ha Hbusy) as (Hf & Hq & Hok & _ & Hout).
  unfold http_server_append_header. rewrite Hh. cbn [mbind outcome_bind]. rewrite Hc. cbn [mbind outcome_bind].
  rewrite bool_decide_true by done. cbn [negb]. rewrite parse_header_ok. cbn [mbind outcome_bind].
  case_bool_decide as Hcolon; cycle 1.
  { right. exists c. split; [done|]. exists (output c). rewrite with_output_id. split_and!; [done|done|left].
    split; [done|by left]. }
  cbv zeta.
  assert (HttpParse.text (mkSlice (text ++ [0]) 0 (zlen text)) = Ret text) as Hname by apply text_str.
  assert (∀ name, c_colon ∉ chars name → match_header_name (mkSlice (text ++ [0]) 0 (zlen text)) (chars name) = Ret false) as Hno.
  { intros name Hn. unfold match_header_name. rewrite (string_match_ok _ _ text (chars name)) by
      (done || apply text_str || apply chars_is_char). rewrite bool_decide_false; [done|]. intros Heq. apply Hn. by rewrite <- Heq. }
  rewrite !Hno by (refine (bool_decide_unpack _ _); vm_compute; exact I).
  cbn [mbind outcome_bind].
  destruct Hok as (Hg & Hbufs & Hreq). rewrite Hst in Hreq.
  apply wp_bind. eapply wp_mono; [apply (append_output_ok malloc s ci c text); [done|apply HI|done..|left; apply Hreq|done]|].
  intros [s1 ok] [Happ Hshort]. destruct (active_appended _ _ _ _ _ _ _ Ha Hbusy Happ) as (b & Ha1 & Hch & Hb & Hbytes & Hdata).
  destruct ok; cbn [negb].
  2:{ right. eexists. split; [exact Ha1|]. exists b. rewrite app_nil_r in Hbytes. split_and!; [done|done|left].
      split; [done|right]. eapply short_mono; [|by apply Hshort]. lia. }
  assert (is_Some (data b)) as Hd1 by (apply Hdata; left; apply Hreq).
  apply wp_bind. eapply wp_mono.
  { apply (append_output_ok malloc s1 ci (with_output c b) [CR; LF]);
      [done|apply Ha1|apply Ha1|done|done|by left|by vm_compute]. }
  intros [s2 ok2] [Happ2 Hshort2].
  destruct (active_appended _ _ _ _ _ _ _ Ha1 Hbusy Happ2) as (b2 & Ha2 & Hch2 & Hb2 & Hbytes2 & _).
  destruct ok2; cbn [negb].
  - right. eexists. split; [exact Ha2|]. exists b2. split_and!; [done|done|right].
    split; [done|]. rewrite Hbytes2. simpl. by rewrite Hbytes, <-app_assoc.
  - eapply wp_mono; [by apply (active_close s1 s2 h ci (with_output c b) (with_output (with_output c b) b2))|].
    intros s3 ?. left. split; [done|]. eapply short_mono; [|by apply Hshort2].
    change (output (with_output c b)) with b. rewrite Hbytes, zlen_app. change (zlen [CR; LF]) with 2. lia.
Qed.

(** ** The phases of a response *)

Definition connection_line (minor : Z) (keep : bool) : list Z :=
  if minor =? 1
  then chars (if keep then "Connection: Keep-Alive" else "Connection: Close") ++ [CR; LF] else [].

(** What stands before the number of the content length, and behind its
    place. *)
Definition before_length (minor : Z) (keep : bool) : list Z :=
  connection_line minor keep ++ chars "Content-Length: ".
Definition SPACES9 : list Z := chars "         ".

(** The client [c0], to be answered, when it was given the lines [lines], and
    when the body was begun. *)
Definition in_header (c0 : client) (lines : list Z) (c : client) : Prop :=
  ∃ b, c = with_state (with_output c0 b) C_HEADER ∧ buf_ok b ∧ bytes b = bytes (output c0) ++ lines.

Definition in_content (c0 : client) (lines : list Z) (keep : bool) (body : list Z) (c : client) : Prop :=
  ∃ b, let front := bytes (output c0) ++ lines ++ before_length (minor c0) keep in
    c = mkClient (gen c0) C_CONTENT (pitem c0) (input c0) b (num_served c0) (minor c0) (connheader c0)
          (zlen front) (zlen front + 13) (request_length c0) (if minor c0 =? 1 then keep else keepalive c0) ∧
    buf_ok b ∧ is_Some (data b) ∧ bytes b = front ++ SPACES9 ++ CRLF2 ++ body.

Lemma append_or_close_ok malloc N s h ci c x :
  malloc_ok malloc → active s h ci c → busy c → is_Some (data (output c)) → zlen x < 2 ^ 62 →
  zlen (bytes (output c)) + zlen x ≤ N →
  wp (append_or_close malloc s ci x) (λ '(s', ok), if ok : bool then
      ∃ b, active s' h ci (with_output c b) ∧ buf_ok b ∧ is_Some (data b) ∧ bytes b = bytes (output c) ++ x
    else lost malloc N s' h ci).
Proof.
  intros Hm Ha Hbusy Hd Hx HN. destruct (active_bufs _ _ _ _ Ha Hbusy) as (Hf & Hq & Hok & _ & Hout).
  unfold append_or_close. apply wp_bind. eapply wp_mono.
  { apply (append_output_ok malloc s ci c x); [done|apply Ha|apply Ha|done|done|by left|done]. }
  intros [s1 ok] [Happ Hshort]. destruct (active_appended _ _ _ _ _ _ _ Ha Hbusy Happ) as (b & Ha1 & Hch & Hb & Hbytes & Hdata).
  destruct ok; cbn [negb].
  - cbn [wp]. exists b. split_and!; [done|done|apply Hdata; by left|done].
  - apply wp_bind. eapply wp_mono; [by apply (active_close s s1 h ci c (with_output c b))|].
    intros s2 ?. split; [done|]. by eapply short_mono; [|apply Hshort].
Qed.

Lemma zlen_connection_line minor keep : zlen (connection_line minor keep) ≤ 26.
Proof. unfold connection_line. destruct (minor =? 1), keep; by vm_compute. Qed.

(** The line about the connection, and whether it is kept. *)
Lemma connection_ok malloc N s h ci c :
  malloc_ok malloc → active s h ci c → state c = C_HEADER → is_Some (data (output c)) →
  zlen (bytes (output c)) + 26 ≤ N →
  wp (if minor c =? 1 then
        let keep := negb (connheader c =? 0) && (num_served c <? 5) && (10 * ncs s <? 7 * MAX_CLIENTS) in
        '(s, ok) ← http_server_append_output malloc s ci
          (chars (if keep then "Connection: Keep-Alive" else "Connection: Close") ++ [CR; LF]);
        c ← rd (cs s) ci;
        s ← set_client s ci (with_keepalive c keep);
        if negb ok then s ← close_client s ci; Ret (s, false) else Ret (s, true)
      else Ret (s, true))
    (λ '(s', ok), if ok : bool then ∃ b keep,
        active s' h ci (with_keepalive (with_output c b) (if minor c =? 1 then keep else keepalive c)) ∧
        buf_ok b ∧ is_Some (data b) ∧ bytes b = bytes (output c) ++ connection_line (minor c) keep
      else lost malloc N s' h ci).
Proof.
  intros Hm Ha Hst Hd HN. assert (busy c) as Hbusy by (right; by left).
  destruct (active_bufs _ _ _ _ Ha Hbusy) as (Hf & Hq & Hok & _ & Hout). unfold connection_line.
  destruct (minor c =? 1).
  2:{ cbn [wp]. exists (output c), false. rewrite with_output_id, app_nil_r. split_and!; [by destruct c|done..]. }
  cbv zeta. set (keep := _ && _). set (line := chars _ ++ _).
  assert (zlen line ≤ 26) as Hline by (unfold line; by destruct keep).
  apply wp_bind. eapply wp_mono.
  { apply (append_output_ok malloc s ci c line); [done|apply Ha|apply Ha|done|done|by left|lia]. }
  intros [s1 ok] [Happ Hshort]. destruct (active_appended _ _ _ _ _ _ _ Ha Hbusy Happ) as (b & Ha1 & Hch & Hb & Hbytes & Hdata).
  rewrite (ac_client _ _ _ _ Ha1). cbn [mbind outcome_bind].
  destruct (set_client_ok s1 ci (with_keepalive (with_output c b) keep) _ (ac_client _ _ _ _ Ha1)) as (s2 & -> & Hch2 & _).
  cbn [mbind outcome_bind]. destruct ok; cbn [negb].
  - cbn [wp]. exists b, keep. split_and!; [|done|apply Hdata; by left|done].
    eapply active_changed; [exact Ha1|exact Hch2| |done..].
    exact (inv_clients s1 (ac_inv _ _ _ _ Ha1) _ _ (ac_client _ _ _ _ Ha1)).
  - apply wp_bind. eapply wp_mono; [by apply (active_close s s2 h ci c _ Ha (changed_trans _ _ _ _ _ _ Hch Hch2))|].
    intros s3 ?. split; [done|]. eapply short_mono; [|by apply Hshort]. lia.
Qed.

Lemma special_headers_ok malloc N s h ci c0 c lines :
  malloc_ok malloc → active s h ci c → in_header c0 lines c → zlen (bytes (output c0)) + zlen lines + 64 ≤ N →
  wp (append_special_headers malloc s ci) (λ '(s', ok), if ok : bool then
      ∃ c' keep, active s' h ci c' ∧ in_content c0 lines keep [] c'
    else lost malloc N s' h ci).
Proof.
  intros Hm Ha Hhdr HN.
  assert (zlen (bytes (output c)) + 64 ≤ N) as HNc by (destruct Hhdr as (b & -> & _ & Hb); cbn [output with_state with_output]; rewrite Hb, zlen_app; lia). pose proof Ha as [HI _ Hc _].
  assert (state c = C_HEADER) as Hst by (by destruct Hhdr as (b & -> & _)).
  assert (is_Some (data (output c))) as Hd.
  { destruct (inv_clients s HI ci c Hc) as (_ & _ & Hx). rewrite Hst in Hx. apply Hx. }
  unfold append_special_headers. rewrite Hc. cbn [mbind outcome_bind]. apply wp_bind.
  eapply wp_mono; [apply (connection_ok malloc N s h ci c); (done || lia)|]. intros [s1 []]; cbn [negb]; [|by intros].
  intros (b1 & keep & Ha1 & Hb1 & Hd1 & Hbytes1). set (c1 := with_keepalive _ _) in *.
  assert (busy c1) as Hbusy by (right; by left).
  pose proof (zlen_connection_line (minor c) keep) as Hline. change (output c1) with b1 in *.
  assert (zlen (bytes b1) ≤ zlen (bytes (output c)) + 26) as Hz1 by (rewrite Hbytes1, zlen_app; lia).
  apply wp_bind. eapply wp_mono; [apply (append_or_close_ok malloc N s1 h ci c1); try done; change (output c1) with b1; zlen_literals; lia|].
  intros [s2 []]; cbn [negb]; [|by intros]. intros (b2 & Ha2 & Hb2 & Hd2 & Hbytes2).
  rewrite (ac_client _ _ _ _ Ha2). cbn [mbind outcome_bind].
  set (c3 := with_content_length_offset (with_output c1 b2) (used b2)).
  destruct (set_client_ok s2 ci c3 _ (ac_client _ _ _ _ Ha2)) as (s3 & Hs3 & Hch3 & _).
  change (with_content_length_offset _ _) with c3. rewrite Hs3. cbn [mbind outcome_bind].
  assert (active s3 h ci c3) as Ha3.
  { eapply active_changed; [exact Ha2|exact Hch3| |done..].
    pose proof (inv_clients s2 (ac_inv _ _ _ _ Ha2) _ _ (ac_client _ _ _ _ Ha2)) as (Hg & Hbufs & Hx).
    split; [done|]. split; [done|]. change (state c3) with (state c). change (state (with_output c1 b2)) with (state c) in Hx.
    rewrite Hst in *. exact Hx. }
  assert (busy c3) as Hbusy3 by (right; by left).
  change (output c1) with b1 in Hbytes2.
  assert (zlen (bytes b2) = zlen (bytes b1) + 16) as Hz2 by (rewrite Hbytes2, zlen_app; done).
  apply wp_bind. eapply wp_mono; [apply (append_or_close_ok malloc N s3 h ci c3); try done; change (output c3) with b2; change (zlen (_ ++ _)) with 11; lia|].
  intros [s4 []]; cbn [negb]; [|by intros]. intros (b4 & Ha4 & Hb4 & Hd4 & Hbytes4).
  change (output c3) with b2 in Hbytes4.
  assert (zlen (bytes b4) = zlen (bytes b2) + 11) as Hz4 by (rewrite Hbytes4, zlen_app; done).
  apply wp_bind. eapply wp_mono; [apply (append_or_close_ok malloc N s4 h ci (with_output c3 b4)); try done; change (output (with_output c3 b4)) with b4; change (zlen [CR; LF]) with 2; lia|].
  intros [s5 []]; cbn [negb]; [|by intros]. intros (b5 & Ha5 & Hb5 & Hd5 & Hbytes5).
  rewrite (ac_client _ _ _ _ Ha5). cbn [mbind outcome_bind].
  set (c6 := with_state _ C_CONTENT). destruct (set_client_ok s5 ci c6 _ (ac_client _ _ _ _ Ha5)) as (s6 & -> & Hch6 & _).
  cbn [mbind outcome_bind wp]. exists c6, keep.
  change (output (with_output c3 b4)) with b4 in Hbytes5.
  pose proof (zlen_bytes _ Hb2) as Hl2. pose proof (zlen_bytes _ Hb5) as Hl5.
  assert (bytes b5 = bytes b2 ++ SPACES9 ++ CRLF2) as Hall by (by rewrite Hbytes5, Hbytes4, <-!app_assoc).
  assert (used b5 = used b2 + 13) as Hu5 by (rewrite <-Hl5, <-Hl2, Hall, zlen_app; done).
  split.
  - eapply active_changed; [exact Ha5|exact Hch6| |done|done|..].
    + pose proof (inv_clients s5 (ac_inv _ _ _ _ Ha5) _ _ (ac_client _ _ _ _ Ha5)) as (Hg & Hbufs & Hx).
      change (state (with_output (with_output c3 b4) b5)) with (state c) in Hx, Hbufs. rewrite Hst in *.
      split; [done|]. split; [intros _; by apply Hbufs|]. simpl. destruct Hx as [Hreq _].
      pose proof (buf_range _ Hb2). split_and!; [done|done|lia|lia|lia].
    + change (C_CONTENT = C_FREE ↔ state c = C_FREE). rewrite Hst. by split.
    + change (C_CONTENT = C_QUEUED ↔ state c = C_QUEUED). rewrite Hst. by split.
  - destruct Hhdr as (b0 & -> & Hb0 & Hbytes0). change (output (with_state (with_output c0 b0) C_HEADER)) with b0 in *.
    exists b5. unfold before_length.
    assert (bytes b2 = bytes (output c0) ++ lines ++ connection_line (minor c0) keep ++ chars "Content-Length: ") as Hb2'
      by (rewrite Hbytes2, Hbytes1, Hbytes0, <-!app_assoc; done).
    rewrite <- Hb2', Hl2, <- Hu5. split_and!; [done..|]. by rewrite app_nil_r.
Qed.

(** The phase in which content is appended, entered from the headers. *)
Definition ready_for_content (c0 : client) (lines : list Z) (keep : bool) (body : list Z) (c : client) : Prop :=
  in_header c0 lines c ∧ body = [] ∨ in_content c0 lines keep body c.

Lemma content_client_ok malloc N s h ci c0 c lines keep body :
  malloc_ok malloc → active s h ci c → ready_for_content c0 lines keep body c →
  zlen (bytes (output c0)) + zlen lines + 64 ≤ N →
  wp (content_client malloc s h) (λ '(s', r), match r with
    | Some ci' => ci' = ci ∧ ∃ c' keep', active s' h ci c' ∧ in_content c0 lines keep' body c' ∧
        (in_content c0 lines keep body c → keep' = keep)
    | None => lost malloc N s' h ci
    end).
Proof.
  intros Hm Ha Hready HN. unfold content_client. rewrite (ac_handle _ _ _ _ Ha). cbn [mbind outcome_bind].
  rewrite (ac_client _ _ _ _ Ha). cbn [mbind outcome_bind]. destruct Hready as [[Hhdr ->]|Hcont].
  - assert (state c = C_HEADER) as Hst by (by destruct Hhdr as (b & -> & _)).
    rewrite bool_decide_true by done. apply wp_bind. eapply wp_mono; [by apply (special_headers_ok malloc N s h ci c0 c lines)|].
    intros [s1 []]; cbn [negb]; [|done]. intros (c1 & keep1 & Ha1 & Hc1).
    rewrite (ac_client _ _ _ _ Ha1). cbn [mbind outcome_bind wp]. pose proof Hc1 as (b & -> & _).
    rewrite bool_decide_true by done. split; [done|]. eexists _, keep1. split; [exact Ha1|]. split; [done|].
    intros (b' & -> & _). done.
  - pose proof Hcont as (b & Hc & _). assert (state c = C_CONTENT) as Hst by (by rewrite Hc).
    rewrite bool_decide_false by congruence. cbn [mbind outcome_bind negb].
    rewrite (ac_client _ _ _ _ Ha). cbn [mbind outcome_bind wp]. rewrite bool_decide_true by done.
    split; [done|]. by exists c, keep.
Qed.

Lemma in_content_grow c0 lines keep body c b x :
  in_content c0 lines keep body c → buf_ok b → is_Some (data b) → bytes b = bytes (output c) ++ x →
  in_content c0 lines keep (body ++ x) (with_output c b).
Proof.
  intros (b0 & -> & _ & _ & Hb0) Hb Hd Hbytes. exists b. split_and!; [done..|]. rewrite Hbytes.
  change (output (mkClient _ _ _ _ b0 _ _ _ _ _ _ _)) with b0. by rewrite Hb0, <-!app_assoc.
Qed.

(** What the output of a client in the content is as long as. *)
Lemma in_content_length c0 lines keep body c :
  in_content c0 lines keep body c →
  zlen (bytes (output c)) ≤ zlen (bytes (output c0)) + zlen lines + zlen body + 55.
Proof.
  intros (b & -> & _ & _ & Hb). cbn [output]. rewrite Hb. unfold before_length. pose proof (zlen_connection_line (minor c0) keep).
  rewrite !zlen_app. change (zlen SPACES9) with 9. change (zlen CRLF2) with 4. zlen_literals. lia.
Qed.

Lemma append_content_ok malloc N s h ci c0 c lines keep body x :
  malloc_ok malloc → active s h ci c → ready_for_content c0 lines keep body c → zlen x < 2 ^ 62 →
  zlen (bytes (output c0)) + zlen lines + zlen body + zlen x + 64 ≤ N →
  wp (http_server_append_content malloc s h x) (λ s', becomes malloc N s' h ci (λ c', ∃ keep',
    in_content c0 lines keep' (body ++ x) c' ∧ (in_content c0 lines keep body c → keep' = keep))).
Proof.
  intros Hm Ha Hready Hx HN. unfold http_server_append_content. apply wp_bind.
  pose proof (zlen_nonneg body). pose proof (zlen_nonneg x).
  eapply wp_mono; [apply (content_client_ok malloc N s h ci c0 c lines keep body); (done || lia)|].
  intros [s1 [ci'|]]; [|intros; by left]. intros (-> & c1 & keep1 & Ha1 & Hc1 & Hk).
  assert (zlen (bytes (output c1)) ≤ zlen (bytes (output c0)) + zlen lines + zlen body + 55) as Hz1
    by (by eapply in_content_length).
  assert (busy c1) as Hbusy by (destruct Hc1 as (b & -> & _); right; by right).
  destruct (active_bufs _ _ _ _ Ha1 Hbusy) as (Hf & Hq & Hok & _ & Hout).
  assert (is_Some (data (output c1))) as Hd by (by destruct Hc1 as (b & -> & _ & ? & _)).
  apply wp_bind. eapply wp_mono.
  { apply (append_output_ok malloc s1 ci c1 x); [done|apply Ha1|apply Ha1|done|done|by left|done]. }
  intros [s2 ok] [Happ Hshort]. destruct (active_appended _ _ _ _ _ _ _ Ha1 Hbusy Happ) as (b & Ha2 & Hch & Hb & Hbytes & Hdata).
  destruct ok; cbn [negb].
  - right. eexists. split; [exact Ha2|]. exists keep1. split; [|done].
    eapply in_content_grow; [done|done|apply Hdata; by left|done].
  - eapply wp_mono; [by apply (active_close s1 s2 h ci c1 (with_output c1 b))|]. intros s3 ?. left.
    split; [done|]. eapply short_mono; [|by apply Hshort]. lia.
Qed.

(** Formatted content is content. *)
Lemma append_content_format_ok malloc N s h ci c0 c lines keep body x :
  malloc_ok malloc → active s h ci c → ready_for_content c0 lines keep body c → zlen x < 2 ^ 61 →
  zlen (bytes (output c0)) + zlen lines + zlen body + zlen x + 64 ≤ N →
  wp (http_server_append_content_format_2 malloc s h (Some x)) (λ s', becomes malloc N s' h ci (λ c', ∃ keep',
    in_content c0 lines keep' (body ++ x) c' ∧ (in_content c0 lines keep body c → keep' = keep))).
Proof.
  intros Hm Ha Hready Hx HN. unfold http_server_append_content_format_2. apply wp_bind.
  pose proof (zlen_nonneg body). pose proof (zlen_nonneg x).
  eapply wp_mono; [apply (content_client_ok malloc N s h ci c0 c lines keep body); (done || lia)|].
  intros [s1 [ci'|]]; [|intros; by left]. intros (-> & c1 & keep1 & Ha1 & Hc1 & Hk).
  assert (zlen (bytes (output c1)) ≤ zlen (bytes (output c0)) + zlen lines + zlen body + 55) as Hz1
    by (by eapply in_content_length).
  assert (busy c1) as Hbusy by (destruct Hc1 as (b & -> & _); right; by right).
  destruct (active_bufs _ _ _ _ Ha1 Hbusy) as (Hf & Hq & Hok & _ & Hout).
  assert (is_Some (data (output c1))) as Hd by (by destruct Hc1 as (b & -> & _ & ? & _)).
  apply wp_bind. eapply wp_mono.
  { apply (append_output_format_2_ok malloc s1 ci c1 x); [done|apply Ha1|apply Ha1|done|done|by left|done]. }
  intros [s2 ok] [Happ Hshort].
  destruct (active_appended _ _ _ _ _ _ _ Ha1 Hbusy Happ) as (b & Ha2 & Hch & Hb & Hbytes & Hdata).
  destruct ok; cbn [negb].
  - right. eexists. split; [exact Ha2|]. exists keep1. split; [|done].
    eapply in_content_grow; [done|done|apply Hdata; by left|done].
  - eapply wp_mono; [by apply (active_close s1 s2 h ci c1 (with_output c1 b))|]. intros s3 ?. left.
    split; [done|]. eapply short_mono; [|by apply Hshort]. lia.
Qed.

(** ** The end of a response *)

(** The number in its place, filled up with spaces. *)
Definition length_field (n : Z) : list Z :=
  let d := print_int n in d ++ drop (length d) SPACES9.

Definition response (c0 : client) (lines : list Z) (keep : bool) (body : list Z) : list Z :=
  lines ++ before_length (minor c0) keep ++ length_field (zlen body) ++ CRLF2 ++ body.

Lemma buf_write_mid b pre old post x :
  buf_ok b → bytes b = pre ++ old ++ post → zlen x = zlen old → is_Some (data b) →
  ∃ d, buf_write b (zlen pre) x = Ret (mkIobuf (Some d) (size b) (used b)) ∧
    buf_ok (mkIobuf (Some d) (size b) (used b)) ∧ bytes (mkIobuf (Some d) (size b) (used b)) = pre ++ x ++ post.
Proof.
  intros Hb Hl Hx [d Hd]. destruct (buf_split b d Hb Hd) as [rest Hr]. pose proof (zlen_bytes b Hb) as Hlen.
  pose proof Hb as Hsz. unfold buf_ok in Hsz. rewrite Hd in Hsz. destruct Hsz as (Hsz & Hu & Hmax).
  unfold buf_write. rewrite Hd, Hr, Hl, <-!app_assoc. rewrite wr_range_app by done. cbn [mbind outcome_bind].
  eexists. split; [done|]. rewrite Hr, Hl, !zlen_app in Hsz. rewrite Hl, !zlen_app in Hlen. split.
  - unfold buf_ok. cbn [data size used]. rewrite !zlen_app. lia.
  - replace (size b) with (zlen ((pre ++ x ++ post) ++ rest)) by (rewrite !zlen_app; lia).
    replace (pre ++ x ++ post ++ rest) with ((pre ++ x ++ post) ++ rest) by by rewrite <-!app_assoc.
    apply (bytes_front _ _ rest); [done|]. rewrite !zlen_app. lia.
Qed.

(** The state a client is left in. *)
Definition after_response (c0 : client) (keep : bool) (rest : list Z) (st : client_state) : Prop :=
  if (if minor c0 =? 1 then keep else keepalive c0)
  then (st = C_QUEUED ∧ has_head rest) ∨ (st = C_IDLE ∧ ¬ has_head rest)
  else st = C_CLOSE.

Lemma s64_small x : 0 ≤ x < 2 ^ 63 → s64 x = x.
Proof. intros. unfold s64. rewrite Z.mod_small; lia. Qed.

(** The place of the number holds it. *)
Lemma length_field_ok n : 0 ≤ n < 10 ^ 9 →
  zlen (length_field n) = 9 ∧ (zlen (print_int n) <? 10) = true ∧
  SPACES9 = take (length (print_int n)) SPACES9 ++ drop (length (print_int n)) SPACES9 ∧
  zlen (take (length (print_int n)) SPACES9) = zlen (print_int n).
Proof.
  intros Hn. destruct (print_int_ok n Hn) as (_ & _ & Hl). unfold length_field. cbv zeta.
  rewrite zlen_app, take_drop. unfold zlen in *. rewrite length_take, length_drop.
  change (length SPACES9) with 9%nat. split_and!; [lia|lia|done|lia].
Qed.

(** The response is over: the client has another generation. *)
Lemma active_end s s' h ci c0 c :
  active s h ci c0 → changed s s' ci c → Inv s' → gen c = gen (invalidate_handles c0) →
  state c ≠ C_HEADER → state c ≠ C_CONTENT → gone s' h.
Proof.
  intros [HI Hset Hc0 Hh] Hch HI' Hg Hs1 Hs2. pose proof (changed_rd _ _ _ _ _ Hc0 Hch) as Hc.
  destruct (handle_gen _ _ _ _ Hh Hc0) as (Hci & Hn & Hgen). split; [done|]. split.
  - intros cj cx Hcx. destruct (decide (cj = ci)) as [->|Hne]; [by same_rd|].
    by apply (changed_settled_but _ _ _ _ _ Hset Hc0 Hch cj cx).
  - apply (handle_gone s' h ci c); [done|done|]. rewrite Hg, <- Hgen.
    destruct (invalidated_gen c0) as [?|Hno]; [done|]. destruct Hno. by apply (inv_clients s HI ci c0).
Qed.

(** The last part of [finish_response]: the client goes back to the queue, to
    wait for input, or to be closed. *)
Lemma release_client_ok s s2 h ci c0 c1 c :
  active s h ci c0 → busy c0 → changed s s2 ci c1 → gen c1 = gen c0 → pitem c1 = pitem c0 → state c1 = state c0 →
  gen c = gen c0 → pitem c = pitem c0 → buf_ok (input c) → buf_ok (output c) →
  wp (if keepalive c then
        i ← find (input c) CRLF2;
        if negb (i =? SIZE_MAX) then
          s ← push_client s2 ci;
          set_client s ci (invalidate_handles (with_keepalive (with_state c C_QUEUED) false))
        else set_client s2 ci (invalidate_handles (with_keepalive (with_state c C_IDLE) false))
      else set_client s2 ci (invalidate_handles (with_state c C_CLOSE)))
    (λ s', gone s' h ∧ ∃ c', rd (cs s') ci = Ret c' ∧ input c' = input c ∧ output c' = output c ∧
      if keepalive c
      then (state c' = C_QUEUED ∧ has_head (bytes (input c))) ∨ (state c' = C_IDLE ∧ ¬ has_head (bytes (input c)))
      else state c' = C_CLOSE).
Proof.
  intros Ha Hbusy Hch Hg1 Hp1 Hst1 Hg Hpi Hin Hout. destruct (active_bufs _ _ _ _ Ha Hbusy) as (Hf & Hq & Hok & _).
  pose proof Ha as [HI Hset Hc0 Hh]. pose proof (changed_rd _ _ _ _ _ Hc0 Hch) as Hc1.
  assert (∀ st k, let c' := invalidate_handles (with_keepalive (with_state c st) k) in
    gen c' = gen (invalidate_handles c0) ∧ pitem c' = pitem c0 ∧ state c' = st ∧ input c' = input c ∧ output c' = output c)
    as Hfields.
  { intros st k. unfold invalidate_handles. simpl. rewrite Hg. by destruct (_ =? _). }
  assert (∀ st k, (st = C_QUEUED → has_head (bytes (input c))) → (st = C_IDLE → ¬ has_head (bytes (input c))) →
    st = C_QUEUED ∨ st = C_IDLE ∨ st = C_CLOSE → client_ok (invalidate_handles (with_keepalive (with_state c st) k))) as Hoks.
  { intros st k H1 H2 Hcase. destruct (Hfields st k) as (Hgk & _ & Hsk & Hik & Hok').
    unfold client_ok. rewrite Hgk, Hsk, Hik, Hok'. split; [apply invalidate_gen, Hok|]. split; [done|].
    destruct Hcase as [->|[->| ->]]; auto. }
  assert (∀ st k, (st = C_IDLE → ¬ has_head (bytes (input c))) → st = C_IDLE ∨ st = C_CLOSE →
    ∃ s3, set_client s2 ci (invalidate_handles (with_keepalive (with_state c st) k)) = Ret s3 ∧ gone s3 h ∧
      rd (cs s3) ci = Ret (invalidate_handles (with_keepalive (with_state c st) k))) as Hset2.
  { intros st k H2 Hcase. destruct (Hfields st k) as (Hgk & Hpk & Hsk & _).
    set (c' := invalidate_handles (with_keepalive (with_state c st) k)) in *. destruct (set_client_ok s2 ci c' _ Hc1) as (s3 & -> & Hch3 & _).
    pose proof (changed_trans _ _ _ _ _ _ Hch Hch3) as Hch'. exists s3. split; [done|]. split; [|by eapply changed_rd].
    eapply active_end; [exact Ha|exact Hch'| |done|rewrite Hsk; by destruct Hcase as [->| ->]..].
    eapply inv_changed; [exact HI|exact Hc0|exact Hch'| |done|rewrite Hsk; destruct Hcase as [->| ->]; by split..].
    apply Hoks; [by destruct Hcase as [->| ->]|done|by right]. }
  destruct (keepalive c) eqn:Hk.
  - apply wp_bind. eapply wp_mono; [by apply find_head|]. intros i Hi. cbv beta in Hi.
    destruct (i =? SIZE_MAX); cbn [negb].
    + destruct (Hset2 C_IDLE false) as (s3 & -> & Hgone & Hrd); [done|by left|]. cbn [wp]. split; [done|].
      destruct (Hfields C_IDLE false) as (_ & _ & Hsk & Hik & Hok'). eexists. split; [exact Hrd|].
      split_and!; [done|done|by right].
    + assert (has_head (bytes (input c))) as Hhead by (destruct Hi as (pre & post & _ & Hl); by exists pre, post).
      destruct (Hfields C_QUEUED false) as (Hgk & Hpk & Hsk & Hik & Hok').
      set (c' := invalidate_handles (with_keepalive (with_state c C_QUEUED) false)) in *. apply wp_bind. eapply wp_mono.
      { apply (push_client_ok s2 ci c1 c'); [by eapply changed_nearly; [apply inv_nearly|..]|done|congruence|congruence| |congruence|done].
        by apply Hoks; [..|left]. }
      intros s3 (Hcs3 & Hn3 & Hpis3 & Hps3 & Hinv3).
      destruct (set_client_ok s3 ci c' c1) as (s4 & -> & Hch4 & _); [by rewrite Hcs3|]. cbn [wp].
      pose proof (Hinv3 _ Hch4) as HI4.
      assert (rd (cs s4) ci = Ret c') as Hrd4 by (eapply changed_rd; [|exact Hch4]; by rewrite Hcs3).
      split; [|by exists c'; split_and!; [..|left]].
      destruct (handle_gen _ _ _ _ Hh Hc0) as (Hci & Hn & Hgen). split; [done|]. split.
      * intros cj cx Hcx. destruct (decide (cj = ci)) as [->|Hne]; [same_rd; by rewrite Hsk|].
        rewrite (ch_cs _ _ _ _ Hch4), Hcs3 in Hcx. rewrite rd_insert_ne in Hcx by (apply rd_bounds in Hc0; lia).
        by apply (changed_settled_but _ _ _ _ _ Hset Hc0 Hch cj cx).
      * apply (handle_gone s4 h ci c'); [done|done|]. rewrite Hgk, <- Hgen.
        destruct (invalidated_gen c0) as [?|Hno]; [done|]. destruct Hno. by apply Hok.
  - destruct (Hset2 C_CLOSE (keepalive c)) as (s3 & Hs3 & Hgone & Hrd); [done|by right|].
    assert (with_keepalive (with_state c C_CLOSE) (keepalive c) = with_state c C_CLOSE) as He by (by destruct c).
    destruct (Hfields C_CLOSE (keepalive c)) as (_ & _ & Hsk & Hik & Hok'). rewrite He in *. rewrite Hs3. cbn [wp].
    split; [done|]. eexists. by split.
Qed.

(** The end of a response for a client in [C_CONTENT]: its output is the
    response, its input what is behind the request. *)
Lemma finish_response_ok s h ci c0 c lines keep body req rest :
  active s h ci c → in_content c0 lines keep body c →
  bytes (input c0) = req ++ rest → request_length c0 = zlen req →
  wp (finish_response s ci) (λ s', gone s' h ∧ ∃ c', rd (cs s') ci = Ret c' ∧
    bytes (output c') = bytes (output c0) ++ response c0 lines keep body ∧
    bytes (input c') = rest ∧ after_response c0 keep rest (state c')).
Proof.
  intros Ha (b & Hc & Hb & Hd & Hbytes) Hreq Hlen. cbv zeta in Hbytes, Hc.
  set (front := bytes (output c0) ++ lines ++ before_length (minor c0) keep) in *.
  set (ka := if minor c0 =? 1 then keep else keepalive c0) in *.
  pose proof Ha as [HI Hset Hcl Hh]. pose proof (zlen_bytes b Hb) as Hl. pose proof (buf_range b Hb) as [Hu Hmax].
  assert (used b = zlen front + 13 + zlen body) as Hused.
  { rewrite <- Hl, Hbytes, !zlen_app. change (zlen SPACES9) with 9. change (zlen CRLF2) with 4. lia. }
  pose proof (zlen_nonneg front). pose proof (zlen_nonneg body).
  assert (buf_ok (input c0)) as Hin.
  { destruct (inv_clients s HI ci c Hcl) as (_ & Hbufs & _). rewrite Hc in Hbufs. by apply Hbufs. }
  destruct (length_field_ok (zlen body) ltac:(lia)) as (Hfield & Hshort & Hsp & Hsame).
  set (d := print_int (zlen body)) in *.
  unfold finish_response. rewrite Hcl. cbn [mbind outcome_bind]. rewrite Hc.
  cbn [output input content_offset content_length_offset keepalive state gen pitem num_served minor connheader request_length].
  rewrite u64_small by lia. replace (used b - (zlen front + 13)) with (zlen body) by lia.
  rewrite s64_small by lia. fold d. rewrite Hshort. cbn [c_assert mbind outcome_bind].
  destruct (buf_write_mid b front (take (length d) SPACES9) (drop (length d) SPACES9 ++ CRLF2 ++ body) d)
    as (blk & -> & Hb1 & Hbytes1); [done|by rewrite Hbytes, Hsp at 1; rewrite <-!app_assoc|done|done|].
  cbn [mbind outcome_bind]. set (b1 := mkIobuf (Some blk) (size b) (used b)) in *.
  destruct (set_client_ok s ci (with_output c b1) c Hcl) as (s1 & Hs1 & Hch1 & _). rewrite Hc in Hs1 at 1.
  rewrite Hs1. cbn [mbind outcome_bind]. pose proof (changed_rd _ _ _ _ _ Hcl Hch1) as Hcl1.
  assert (busy c) as Hbusy by (rewrite Hc; right; by right).
  destruct (active_bufs _ _ _ _ Ha Hbusy) as (Hf & Hq & Hok & _).
  assert (shape s1) as Hsh1 by (eapply changed_shape; [apply HI|exact Hcl|exact Hch1|done|done]).
  destruct (want_output_ok s1 ci (with_output c b1) Hsh1 Hcl1 Hf) as (s2 & -> & Hch2 & _). cbn [mbind outcome_bind].
  pose proof (changed_trans _ _ _ _ _ _ Hch1 Hch2) as Hch.
  set (c1 := mkClient _ _ _ _ _ _ _ _ _ _ _ _).
  destruct (consume_request_ok (with_output c1 b1) req rest) as (b2 & -> & Hb2 & Hbytes2); [done|done|done|].
  cbn [mbind outcome_bind with_input with_output output input content_offset content_length_offset keepalive state gen
    pitem num_served minor connheader request_length].
  set (c3 := mkClient (gen c0) C_CONTENT (pitem c0) b2 b1 (num_served c0 + 1) (minor c0) (connheader c0)
               (zlen front) (zlen front + 13) 0 ka).
  eapply wp_mono; [refine (release_client_ok s s2 h ci c (with_output c b1) c3 Ha Hbusy Hch _ _ _ _ _ _ _)|];
    [done|done|done|by rewrite Hc|by rewrite Hc|done|done|].
  intros s3 [Hgone (c' & Hrd & Hi & Ho & Hst)]. split; [done|]. exists c'. split; [done|].
  change (input c3) with b2 in *. change (output c3) with b1 in *. change (keepalive c3) with ka in *.
  rewrite Ho, Hi. split; [|split; [done|by rewrite Hbytes2 in Hst]].
  rewrite Hbytes1. unfold response, length_field. fold d. unfold front. by rewrite <-!app_assoc.
Qed.

(** The client was answered: what its output and its input hold now. *)
Definition answered (c0 : client) (lines body rest : list Z) (c : client) : Prop :=
  ∃ keep, bytes (output c) = bytes (output c0) ++ response c0 lines keep body ∧
    bytes (input c) = rest ∧ after_response c0 keep rest (state c).

(** The handle names nobody any more, and the client is as [R] says, unless it
    was lost. *)
Definition ended (malloc : allocator) (N : Z) (s : server) (h ci : Z) (R : client → Prop) : Prop :=
  lost malloc N s h ci ∨ gone s h ∧ ∃ c, rd (cs s) ci = Ret c ∧ R c.

Lemma send_response_ok malloc N s h ci c0 c lines keep body req rest :
  malloc_ok malloc → active s h ci c → ready_for_content c0 lines keep body c →
  bytes (input c0) = req ++ rest → request_length c0 = zlen req →
  zlen (bytes (output c0)) + zlen lines + zlen body + 64 ≤ N →
  wp (http_server_send_response malloc s h) (λ s', ended malloc N s' h ci (answered c0 lines body rest)).
Proof.
  intros Hm Ha Hready Hreq Hlen HN. unfold http_server_send_response. pose proof Ha as [HI _ Hc Hh].
  rewrite Hh. cbn [mbind outcome_bind]. rewrite Hc. cbn [mbind outcome_bind].
  assert (state c = C_HEADER ∧ body = [] ∨ state c = C_CONTENT ∧ in_content c0 lines keep body c) as Hst.
  { destruct Hready as [[(b & -> & _) ->]|Hcont]; [by left|right]. split; [by destruct Hcont as (b & -> & _)|done]. }
  rewrite bool_decide_false by (by destruct Hst as [[-> _]|[-> _]]). cbn [mbind outcome_bind].
  rewrite Hh. cbn [mbind outcome_bind]. rewrite Hc. cbn [mbind outcome_bind]. apply wp_bind.
  eapply wp_mono with (Q := λ s', becomes malloc N s' h ci (λ c', ∃ keep', in_content c0 lines keep' body c')).
  { destruct Hst as [[Hst ->]|[Hst Hcont]].
    - rewrite bool_decide_true by done. eapply wp_mono; [by apply (append_content_ok malloc N s h ci c0 c lines keep [] []); [..|rewrite zlen_nil in *; lia]|].
      intros s' Hb. eapply becomes_mono; [|exact Hb]. intros c' (keep' & ? & _). by exists keep'.
    - rewrite bool_decide_false by congruence. right. exists c. split; [done|]. by exists keep. }
  intros s1 [Hdrop|(c1 & Ha1 & keep1 & Hc1)].
  { pose proof Hdrop as [[(_ & _ & Hh1) _] _]. rewrite Hh1. by left. }
  rewrite (ac_handle _ _ _ _ Ha1). cbn [mbind outcome_bind]. rewrite (ac_client _ _ _ _ Ha1). cbn [mbind outcome_bind].
  assert (state c1 = C_CONTENT) as Hst1 by (by destruct Hc1 as (b & -> & _)).
  rewrite bool_decide_true by done. cbn [negb].
  eapply wp_mono; [by apply (finish_response_ok s1 h ci c0 c1 lines keep1 body req rest)|].
  intros s2 [Hgone (c' & Hrd & Hout & Hin & Hafter)]. right. split; [done|]. exists c'. split; [done|]. by exists keep1.
Qed.

(** ** Answering a request *)

(** An answer of the program: the status, the headers, the pieces of the
    content. *)
Record reply : Type := mkReply {
  status : Z;
  headers : list (list Z);
  contents : list (list Z);
}.

(** The calls by which a program gives it. *)
Fixpoint for_all (f : server → list Z → outcome server) (s : server) (l : list (list Z)) : outcome server :=
  match l with [] => Ret s | x :: l => s ← f s x; for_all f s l end.

Definition respond (malloc : allocator) (s : server) (h : Z) (a : reply) : outcome server :=
  s ← http_server_set_status malloc s h (status a);
  s ← for_all (λ s x, http_server_append_header malloc s h x) s (headers a);
  s ← for_all (λ s x, http_server_append_content malloc s h x) s (contents a);
  http_server_send_response malloc s h.

Definition reply_ok (a : reply) : Prop :=
  Forall (λ x, Forall is_char x ∧ zlen x < 2 ^ 62) (headers a) ∧ Forall (λ x, zlen x < 2 ^ 62) (contents a).

(** The headers of a response: those with a colon, each on a line of its own;
    a header for which there is no memory is left out. *)
Definition header_lines (kept : list (list Z)) : list Z := concat ((λ x, x ++ [CR; LF]) <$> kept).

Definition keeps_headers (malloc : allocator) (N : Z) (l kept : list (list Z)) : Prop :=
  kept `sublist_of` filter (λ x, c_colon ∈ x) l ∧ (kept = filter (λ x, c_colon ∈ x) l ∨ short malloc N).

Lemma keeps_headers_skip malloc N x l kept :
  keeps_headers malloc N l kept → c_colon ∉ x ∨ short malloc N → keeps_headers malloc N (x :: l) kept.
Proof.
  intros [Hk He] Hx. unfold keeps_headers. rewrite filter_cons. case_decide as Hc; [|done].
  split; [by apply sublist_cons|]. right. by destruct Hx.
Qed.

Lemma keeps_headers_take malloc N x l kept :
  keeps_headers malloc N l kept → c_colon ∈ x → keeps_headers malloc N (x :: l) (x :: kept).
Proof.
  intros [Hk He] Hx. unfold keeps_headers. rewrite filter_cons, decide_True by done.
  split; [by apply sublist_skip|]. destruct He as [->|]; [by left|by right].
Qed.

Lemma zlen_header_lines_cons x l : zlen (header_lines (x :: l)) = zlen x + 2 + zlen (header_lines l).
Proof. unfold header_lines. cbn [fmap list_fmap concat]. rewrite !zlen_app. done. Qed.

Lemma zlen_header_lines_kept kept l : kept `sublist_of` l → zlen (header_lines kept) ≤ zlen (header_lines l).
Proof.
  induction 1 as [|x kept l _ IH|x kept l _ IH]; rewrite ?zlen_header_lines_cons; [done|lia|].
  pose proof (zlen_nonneg x). lia.
Qed.

Lemma zlen_kept malloc N l kept : keeps_headers malloc N l kept → zlen (header_lines kept) ≤ zlen (header_lines l).
Proof.
  intros [Hk _]. apply zlen_header_lines_kept. etrans; [exact Hk|]. clear Hk.
  induction l as [|x l IH]; [done|]. rewrite filter_cons. case_decide; [by apply sublist_skip|by apply sublist_cons].
Qed.

Lemma headers_ok malloc N s h ci c0 lines l :
  malloc_ok malloc → Forall (λ x, Forall is_char x ∧ zlen x < 2 ^ 62) l →
  zlen (bytes (output c0)) + zlen lines + zlen (header_lines l) ≤ N →
  becomes malloc N s h ci (in_header c0 lines) →
  wp (for_all (λ s x, http_server_append_header malloc s h x) s l) (λ s',
    becomes malloc N s' h ci (λ c', ∃ kept, keeps_headers malloc N l kept ∧ in_header c0 (lines ++ header_lines kept) c')).
Proof.
  intros Hm Hl. revert s lines. induction Hl as [|x l [Hchars Hlen] _ IH]; intros s lines HN Hb; simpl for_all.
  - cbn [wp]. eapply becomes_mono; [|exact Hb]. intros c ?. exists []. split; [split; [done|by left]|]. by rewrite app_nil_r.
  - apply wp_bind. rewrite zlen_header_lines_cons in HN. pose proof (zlen_nonneg x). pose proof (zlen_nonneg (header_lines l)).
    destruct Hb as [Hlost|(c & Ha & Hc)].
    + pose proof Hlost as [[Hgone _] Hshort]. rewrite (proj1 (proj2 (gone_noop malloc s h Hgone)) x). cbn [wp].
      eapply wp_mono; [by apply (IH s lines); [lia|left]|]. intros s' Hb. eapply becomes_mono; [|exact Hb].
      intros c (kept & Hk & ?). exists kept. split; [|done]. apply keeps_headers_skip; [done|by right].
    + assert (state c = C_HEADER) as Hst by (by destruct Hc as (b & -> & _)).
      assert (zlen (bytes (output c)) = zlen (bytes (output c0)) + zlen lines) as Hz
        by (destruct Hc as (b & -> & _ & Hb); cbn [output with_state with_output]; by rewrite Hb, zlen_app).
      eapply wp_mono; [apply (append_header_ok malloc N s h ci c x); (done || lia)|]. intros s1 Hb1.
      assert ((c_colon ∉ x ∨ short malloc N) ∧ becomes malloc N s1 h ci (in_header c0 lines) ∨
              c_colon ∈ x ∧ becomes malloc N s1 h ci (in_header c0 (lines ++ x ++ [CR; LF]))) as [[Hno Hb2]|[Hcol Hb2]].
      { destruct Hb1 as [Hd|(c1 & Ha1 & b & -> & Hok & Hbytes)]; [left; split; [right; apply Hd|by left]|].
        destruct Hc as (b0 & -> & _ & Hb0). change (output (with_state (with_output c0 b0) C_HEADER)) with b0 in Hbytes.
        destruct Hbytes as [[Hbytes Hno]|[Hcol Hbytes]]; [left|right]; (split; [done|]); right; eexists;
          (split; [exact Ha1|]); exists b; (split_and!; [done|done|]); rewrite Hbytes, Hb0; by rewrite <-?app_assoc. }
      * eapply wp_mono; [by apply (IH s1 lines); [lia|]|]. intros s' Hb'. eapply becomes_mono; [|exact Hb'].
        intros c' (kept & Hk & ?). exists kept. split; [|done]. by apply keeps_headers_skip.
      * eapply wp_mono; [apply (IH s1 (lines ++ x ++ [CR; LF])); [rewrite !zlen_app; change (zlen [CR; LF]) with 2; lia|done]|].
        intros s' Hb'. eapply becomes_mono; [|exact Hb'].
        intros c' (kept & Hk & Hin). exists (x :: kept). split; [by apply keeps_headers_take|].
        unfold header_lines in *. simpl. by rewrite <-!app_assoc in *.
Qed.

(** Part of the content: it makes every response it is called for longer by
    [x], or the client is closed. *)
Definition content_so_far (c0 : client) (lines body : list Z) (c : client) : Prop :=
  ∃ keep, ready_for_content c0 lines keep body c.

Section appends.
Context (malloc : allocator) (h ci : Z) (c0 : client) (lines : list Z).

Definition appends (f : server → outcome server) (x : list Z) : Prop :=
  ∀ N s body, zlen (bytes (output c0)) + zlen lines + zlen body + zlen x + 64 ≤ N →
    becomes malloc N s h ci (content_so_far c0 lines body) →
    wp (f s) (λ s', becomes malloc N s' h ci (content_so_far c0 lines (body ++ x))).

Hypothesis Hm : malloc_ok malloc.

Lemma appends_call f x :
  (∀ s, client_from_handle s h = Ret None → f s = Ret s) →
  (∀ N s c keep body, active s h ci c → ready_for_content c0 lines keep body c →
    zlen (bytes (output c0)) + zlen lines + zlen body + zlen x + 64 ≤ N →
    wp (f s) (λ s', becomes malloc N s' h ci (λ c', ∃ keep',
      in_content c0 lines keep' (body ++ x) c' ∧ (in_content c0 lines keep body c → keep' = keep)))) →
  appends f x.
Proof.
  intros Hnoop Hok N s body HN [Hlost|(c & Ha & keep & Hc)].
  - pose proof Hlost as [[Hgone _] _]. rewrite Hnoop by apply Hgone. by left.
  - eapply wp_mono; [by apply (Hok N s c keep body)|]. intros s'. apply becomes_mono.
    intros c' (keep' & Hc' & _). exists keep'. by right.
Qed.

Lemma appends_content x :
  zlen x < 2 ^ 62 → appends (λ s, http_server_append_content malloc s h x) x.
Proof.
  intros Hx. apply appends_call; [|intros; by apply (append_content_ok malloc N s h ci c0 c)].
  intros s Hh. unfold http_server_append_content, content_client. by rewrite Hh.
Qed.

Lemma appends_format x :
  zlen x < 2 ^ 61 → appends (λ s, http_server_append_content_format_2 malloc s h (Some x)) x.
Proof.
  intros Hx. apply appends_call; [|intros; by apply (append_content_format_ok malloc N s h ci c0 c)].
  intros s Hh. unfold http_server_append_content_format_2, content_client. by rewrite Hh.
Qed.

Lemma appends_nothing : appends Ret [].
Proof. intros N s body _ Hb. cbn [wp]. by rewrite app_nil_r. Qed.

Lemma appends_seq f g x y :
  appends f x → appends g y → appends (λ s, s ← f s; g s) (x ++ y).
Proof.
  intros Hf Hg N s body HN Hb. rewrite zlen_app in HN. pose proof (zlen_nonneg x). pose proof (zlen_nonneg y).
  apply wp_bind. eapply wp_mono; [by apply (Hf N s body); [lia|]|]. intros s1 Hb1. rewrite app_assoc.
  apply Hg; [rewrite zlen_app; lia|done].
Qed.

Lemma appends_all l :
  Forall (λ x, zlen x < 2 ^ 62) l →
  appends (λ s, for_all (λ s x, http_server_append_content malloc s h x) s l) (concat l).
Proof.
  induction 1 as [|x l Hx _ IH]; cbn [for_all concat]; [apply appends_nothing|].
  apply appends_seq; [by apply appends_content|apply IH].
Qed.
End appends.

(** The calls by which a program gives an answer whose content it makes as it
    likes. *)
Definition reply_with (malloc : allocator) (s : server) (h st : Z) (hs : list (list Z)) (fill : server → outcome server)
    : outcome server :=
  s ← http_server_set_status malloc s h st;
  s ← for_all (λ s x, http_server_append_header malloc s h x) s hs;
  s ← fill s;
  http_server_send_response malloc s h.

(** The bytes that a response needs in the output, at most. *)
Definition reply_bytes (c0 : client) (hs : list (list Z)) (body : list Z) : Z :=
  zlen (bytes (output c0)) + zlen (header_lines hs) + zlen body + 200.

Lemma reply_with_ok malloc s h ci c0 st hs fill body req rest :
  malloc_ok malloc → Forall (λ x, Forall is_char x ∧ zlen x < 2 ^ 62) hs →
  (∀ lines, appends malloc h ci c0 lines fill body) →
  active s h ci c0 → state c0 = C_STATUS → bytes (input c0) = req ++ rest → request_length c0 = zlen req →
  wp (reply_with malloc s h st hs fill) (λ s', ended malloc (reply_bytes c0 hs body) s' h ci (λ c, ∃ kept,
    keeps_headers malloc (reply_bytes c0 hs body) hs kept ∧
    answered c0 (status_line (minor c0) st ++ header_lines kept) body rest c)).
Proof.
  intros Hm Hhs Hfill Ha Hst Hreq Hlen. unfold reply_with. set (N := reply_bytes c0 hs body).
  pose proof (zlen_status_line (minor c0) st) as Hline. pose proof (zlen_nonneg (header_lines hs)). pose proof (zlen_nonneg body).
  apply wp_bind. eapply wp_mono; [apply (set_status_ok malloc N s h ci c0); try done; unfold N, reply_bytes; lia|]. intros s1 Hb1.
  apply wp_bind. eapply wp_mono.
  { apply (headers_ok malloc N s1 h ci c0 (status_line (minor c0) st)); [done|done|unfold N, reply_bytes; lia|].
    eapply becomes_mono; [|exact Hb1]. intros c (b & -> & Hok & Hbytes). by exists b. }
  intros s2 Hb2. apply wp_bind.
  assert (∃ kept, keeps_headers malloc N hs kept ∧ becomes malloc N s2 h ci
    (content_so_far c0 (status_line (minor c0) st ++ header_lines kept) [])) as (kept & Hk & Hb2').
  { destruct Hb2 as [Hlost|(c & Hac & kept & Hk & Hc)].
    - exists []. split; [split; [apply sublist_nil_l|right; apply Hlost]|]. by left.
    - exists kept. split; [done|]. right. exists c. split; [done|]. exists false. by left. }
  pose proof (zlen_kept _ _ _ _ Hk).
  eapply wp_mono; [eapply (Hfill _ N); [|exact Hb2']; rewrite zlen_app, zlen_nil; unfold N, reply_bytes; lia|].
  clear s1 s2 Hb1 Hb2 Hb2'. intros s3 [Hlost|(c & Hac & keep & Hc)].
  { rewrite (proj2 (proj2 (proj2 (gone_noop malloc s3 h (proj1 (proj1 Hlost)))))). by left. }
  eapply wp_mono; [eapply (send_response_ok malloc N s3 h ci c0 c); try done; rewrite zlen_app; unfold N, reply_bytes; simpl; lia|].
  intros s4 [?|[Hgone (c' & Hrd & Hans)]]; [by left|right]. split; [done|]. exists c'. split; [done|]. by exists kept.
Qed.

(** The response to a request that waits for it. *)
Lemma respond_ok malloc s h ci c0 a req rest :
  malloc_ok malloc → reply_ok a → active s h ci c0 → state c0 = C_STATUS →
  bytes (input c0) = req ++ rest → request_length c0 = zlen req →
  wp (respond malloc s h a) (λ s', ended malloc (reply_bytes c0 (headers a) (concat (contents a))) s' h ci (λ c, ∃ kept,
    keeps_headers malloc (reply_bytes c0 (headers a) (concat (contents a))) (headers a) kept ∧
    answered c0 (status_line (minor c0) (status a) ++ header_lines kept) (concat (contents a)) rest c)).
Proof.
  intros Hm [Hheaders Hcontents]. apply reply_with_ok; [done|done|]. intros lines. by apply appends_all.
Qed.
