(* ===== verification/HttpLoop.v ===== *)
(** The server of [HttpServer] from its start on: the loop of a program that
    waits for requests and answers them, what each call promises, and where
    the server fails. *)
From S2P Require Import Prelude Sockets HttpParse HttpServer HttpConn HttpServe HttpReply.
#[global] Open Scope Z_scope.

(** ** The start *)

(** Memory for a server, of any content. *)
Definition memory_ok (s : server) : Prop :=
  zlen (cs s) = MAX_CLIENTS ∧ zlen (ps s) = MAX_CLIENTS + 1 ∧ zlen (pis s) = MAX_CLIENTS ∧
  zlen (free s) = MAX_CLIENTS ∧ zlen (qdata s) = MAX_CLIENTS.

Lemma init_ok start s :
  0 ≤ start → memory_ok s → Inv (http_server_init start s).1 ∧ settled (http_server_init start s).1.
Proof.
  intros Hstart (Hcs & Hps & Hpis & Hfree & Hqd). unfold http_server_init. destruct (Z.ltb_spec start 0); [lia|].
  cbn [fst]. set (s' := mkServer _ _ _ _ _ _ _ _ _ _).
  assert (∀ ci c, rd (cs s') ci = Ret c → state c = C_FREE ∧ gen c = 0) as Hall.
  { intros ci c [_ Hc]%rd_inv. unfold s' in Hc. cbn [cs] in Hc. rewrite list_lookup_fmap in Hc.
    destruct (cs s !! Z.to_nat ci); [|done]. by injection Hc as <-. }
  assert (∀ j, 0 ≤ j < MAX_CLIENTS → rd (free s') j = Ret (MAX_CLIENTS - (j + 1))) as Hf.
  { intros j Hj. apply rd_Some; [lia|]. unfold s'. cbn [free]. rewrite list_lookup_imap.
    destruct (lookup_lt_is_Some_2 (free s) (Z.to_nat j)) as [x ->]; [unfold zlen in Hfree; lia|]. simpl. do 2 f_equal. lia. }
  assert (zlen (cs s') = MAX_CLIENTS) as Hcs' by (unfold s', zlen; cbn [cs]; rewrite length_fmap; exact Hcs).
  split; [split|].
  - split; try done.
    + unfold s'. cbn [ps]. destruct (ps s) as [|p l]; [done|]. by rewrite !zlen_cons in *.
    + unfold s', zlen. cbn [free]. rewrite length_imap. exact Hfree.
    + intros i Hi. change (ncs s') with 0 in Hi. lia.
    + intros ci c Hc Hl. by destruct (Hall ci c Hc).
    + intros j Hj. change (ncs s') with 0 in Hj. rewrite Hf by lia.
      destruct (rd_ok (cs s') (MAX_CLIENTS - (j + 1))) as (c & Hc & _); [lia|].
      eexists _, c. split_and!; [done|done|by eapply Hall].
    + intros j k ci Hj Hk. change (ncs s') with 0 in *. rewrite !Hf by lia. intros [= <-] [= ?]. lia.
  - exists []. split; try done.
    + intros k Hk. unfold zlen in Hk. simpl in Hk. lia.
    + apply NoDup_nil_2.
    + intros ci Hci. inversion Hci.
    + intros ci c Hc. destruct (Hall ci c Hc) as [-> _]. split; [intros Hx; inversion Hx|done].
  - intros ci c Hc. destruct (Hall ci c Hc) as [Hst Hg]. unfold client_ok. rewrite Hst, Hg.
    by split_and!.
  - intros ci c Hc. destruct (Hall ci c Hc) as [-> _]. done.
Qed.

(** ** The loop of a program *)

(** A turn: what [malloc] answers during it, the rounds of input and output,
    and how the program answers. *)
Record turn : Type := mkTurn {
  memory : allocator;
  rounds : list round;
  answer : ticket → reply;
}.

Definition turn_ok (t : turn) : Prop :=
  malloc_ok (memory t) ∧ Forall round_ok (rounds t) ∧ ∀ x, reply_ok (answer t x).

Definition serve_one (s : server) (t : turn) : outcome server :=
  '(s, x) ← http_server_wait_request (memory t) s (rounds t);
  match x with
  | None => Ret s
  | Some x => respond (memory t) s x.1.1 (answer t x)
  end.

Fixpoint serve_all (s : server) (ts : list turn) : outcome server :=
  match ts with [] => Ret s | t :: ts => s ← serve_one s t; serve_all s ts end.

(** A handle that was handed out for the client at [ci]. *)
Definition handed_out (s : server) (h ci : Z) (c : client) : Prop :=
  rd (cs s) ci = Ret c ∧ state c = C_STATUS ∧ h = Z.lor (gen c) (Z.shiftl ci 16).

Lemma handle_fields g ci :
  0 ≤ g < UINT16_MAX → 0 ≤ ci →
  Z.shiftr (Z.lor g (Z.shiftl ci 16)) 16 = ci ∧ Z.land (Z.lor g (Z.shiftl ci 16)) 65535 = g.
Proof.
  unfold UINT16_MAX. intros Hg Hci. change 65535 with (Z.ones 16). split.
  - rewrite Z.shiftr_lor, Z.shiftr_shiftl_l by lia. rewrite (Z.shiftr_div_pow2 g) by lia.
    rewrite Z.div_small by lia. rewrite Z.shiftl_0_r. apply Z.lor_0_l.
  - rewrite Z.land_lor_distr_l, !Z.land_ones by lia. rewrite Z.shiftl_mul_pow2 by lia.
    rewrite Z.mod_mul by lia. rewrite Z.lor_0_r. apply Z.mod_small. lia.
Qed.

(** Such a handle is good if the client is among the first [ncs]. *)
Lemma handed_out_handle s h ci c :
  Inv s → handed_out s h ci c →
  client_from_handle s h = Ret (if ci <? ncs s then Some ci else None).
Proof.
  intros HI (Hc & _ & ->). destruct (inv_clients s HI ci c Hc) as (Hg & _ & _).
  pose proof (rd_bounds _ _ _ Hc). destruct (handle_fields (gen c) ci) as [Hsh Hla]; [done|lia|].
  unfold client_from_handle. rewrite Hsh, Hla. destruct (Z.ltb_spec ci (ncs s)), (Z.leb_spec (ncs s) ci); try lia; [|done].
  rewrite Hc. cbn [mbind outcome_bind]. by rewrite Z.eqb_refl.
Qed.

Lemma handed_out_active s h ci c :
  Inv s → settled s → handed_out s h ci c → ci < ncs s → active s h ci c.
Proof.
  intros HI Hset Hh Hlt. pose proof (handed_out_handle _ _ _ _ HI Hh) as Hcf. destruct Hh as (Hc & _).
  split; [done|by intros cj cx Hcx _; eapply Hset|done|]. by rewrite Hcf, (proj2 (Z.ltb_lt _ _) Hlt).
Qed.

Lemma handed_out_lost s h ci c :
  Inv s → settled s → handed_out s h ci c → ncs s ≤ ci → gone s h.
Proof.
  intros HI Hset Hh Hge. split; [done|]. split; [done|]. rewrite (handed_out_handle _ _ _ _ HI Hh).
  by rewrite (proj2 (Z.ltb_ge _ _) Hge).
Qed.

Lemma for_all_noop f s l : (∀ x, f s x = Ret s) → for_all f s l = Ret s.
Proof. intros Hf. induction l as [|x l IH]; [done|]. simpl. by rewrite Hf. Qed.

Lemma respond_gone malloc s h a : gone s h → respond malloc s h a = Ret s.
Proof.
  intros Hg. destruct (gone_noop malloc s h Hg) as (H1 & H2 & H3 & H4). unfold respond. rewrite H1. cbn [mbind outcome_bind].
  rewrite (for_all_noop _ s (headers a)) by done. cbn [mbind outcome_bind].
  rewrite (for_all_noop _ s (contents a)) by done. exact H4.
Qed.

(** The input of a client that waits for its response starts with its request. *)
Lemma request_split s ci c :
  Inv s → rd (cs s) ci = Ret c → state c = C_STATUS →
  ∃ req rest, bytes (input c) = req ++ rest ∧ request_length c = zlen req.
Proof.
  intros HI Hc Hst. destruct (inv_clients s HI ci c Hc) as (_ & Hbufs & Hreq). rewrite Hst in Hreq.
  destruct (Hbufs ltac:(congruence)) as [Hin _]. destruct Hreq as [_ Hlen]. pose proof (zlen_bytes _ Hin).
  exists (take (Z.to_nat (request_length c)) (bytes (input c))), (drop (Z.to_nat (request_length c)) (bytes (input c))).
  rewrite take_drop, zlen_take by lia. done.
Qed.

Lemma ended_settled malloc N s h ci R : ended malloc N s h ci R → Inv s ∧ settled s.
Proof. intros [[[(? & ? & _) _] _]|[(? & ? & _) _]]; done. Qed.

Lemma serve_one_ok s t :
  turn_ok t → Inv s → settled s → wp (serve_one s t) (λ s', Inv s' ∧ settled s').
Proof.
  intros (Hm & Hr & Ha) HI Hset. unfold serve_one. apply wp_bind. eapply wp_mono; [by apply wait_request_ok|].
  intros [s1 [x|]]; [|intros (? & ? & _); by split]. intros (HI1 & Hset1 & Hx). destruct x as [[h r] content].
  destruct Hx as (ci & c & d & pre & post & Hc & Hst & Hh & _). cbn [fst].
  assert (handed_out s1 h ci c) as Hho by done. destruct (decide (ci < ncs s1)) as [Hlt|Hge].
  - destruct (request_split _ _ _ HI1 Hc Hst) as (req & rest & Hreq & Hlen).
    eapply wp_mono; [by eapply (respond_ok (memory t) s1 h ci c); [..|apply handed_out_active| | |]|].
    intros s2 H2. exact (ended_settled _ _ _ _ _ _ H2).
  - rewrite respond_gone; [done|]. eapply handed_out_lost; [done|done|exact Hho|lia].
Qed.

(** The oldest request of the queue, when it is a good one: a whole head that
    the parser takes, of a version the server speaks, with its content. *)
Record good_request (c : client) (d : list Z) (head_len n : Z) (r : request) : Prop := mkGood {
  good_head : ∃ i, find (input c) CRLF2 = Ret i ∧ i ≠ SIZE_MAX ∧ head_len = i + 4;
  good_data : data (input c) = Some d;
  good_parse : parse_request_head d head_len = Ret (P_OK r);
  good_version : major r = 1 ∧ (HttpParse.minor r = 0 ∨ HttpParse.minor r = 1);
  good_length : request_content_length r = Ret (inr n);
  good_whole : u64 (head_len + n) ≤ used (input c);
}.

Lemma take_request_good malloc s ci q c d head_len n r :
  Inv s → queue_ok s (ci :: q) → rd (cs s) ci = Ret c → good_request c d head_len n r →
  ∃ s' c', take_request malloc (popped s) ci =
      Ret (s', Some (Z.lor (gen c) (Z.shiftl ci 16), r, mkSlice d head_len n)) ∧
    changed (popped s) s' ci c' ∧ state c' = C_STATUS ∧ gen c' = gen c ∧ input c' = input c ∧
    request_length c' = u64 (head_len + n) ∧ minor c' = HttpParse.minor r.
Proof.
  intros HI Hq Hc [(i & Hfind & Hi & ->) Hd Hparse [Hmaj Hmin] Hlen Hwhole].
  pose proof (rd_bounds _ _ _ Hc) as Hb. rewrite (sh_cs s (inv_shape s HI)) in Hb. unfold MAX_CLIENTS in Hb.
  destruct (inv_clients s HI ci c Hc) as (Hg & _). unfold take_request.
  assert (rd (cs (popped s)) ci = Ret c) as Hc0 by done. rewrite Hc0. cbn [mbind outcome_bind].
  destruct (set_client_ok (popped s) ci (with_state c C_POPPED) c Hc0) as (s1 & -> & Hch1 & _).
  pose proof (changed_rd _ _ _ _ _ Hc0 Hch1) as Hc1. cbn [mbind outcome_bind].
  change (input (with_state c C_POPPED)) with (input c). rewrite Hfind. cbn [mbind outcome_bind].
  rewrite (proj2 (Z.eqb_neq _ _) Hi). cbn [negb c_assert mbind outcome_bind]. rewrite Hd. cbn [mbind outcome_bind].
  rewrite Hparse. cbn [mbind outcome_bind].
  assert (negb (major r =? 1) || negb ((HttpParse.minor r =? 0) || (HttpParse.minor r =? 1)) = false) as ->.
  { rewrite Hmaj. by destruct Hmin as [-> | ->]. }
  rewrite Hlen. cbn [mbind outcome_bind]. rewrite (proj2 (Z.ltb_ge _ _) Hwhole).
  set (c' := mkClient _ _ _ _ _ _ _ _ _ _ _ _).
  destruct (set_client_ok s1 ci c' _ Hc1) as (s2 & -> & Hch2 & _). cbn [mbind outcome_bind].
  unfold handle_of. assert ((gen c' <? UINT16_MAX) = true) as -> by (unfold c'; simpl; lia).
  cbn [c_assert mbind outcome_bind]. exists s2, c'. split; [|split; [by eapply changed_trans|done]].
  rewrite (u32_small ci) by lia. rewrite u32_small; [done|]. rewrite Z.shiftl_mul_pow2 by lia. lia.
Qed.

Lemma wait_request_first malloc s rounds ci q s' t :
  queue_ok s (ci :: q) → take_request malloc (popped s) ci = Ret (s', Some t) →
  http_server_wait_request malloc s rounds = Ret (s', Some t).
Proof.
  intros Hq Ht. pose proof (qu_used _ _ Hq) as Hu. rewrite zlen_cons in Hu. pose proof (zlen_nonneg q).
  assert (wait_queue malloc s rounds = Ret (s, Some rounds)) as Hw.
  { destruct rounds; simpl; by rewrite (proj2 (Z.eqb_neq _ _)) by lia. }
  unfold http_server_wait_request. cbn [loop]. rewrite Hw. cbn [mbind outcome_bind].
  rewrite (pop_client_eq s ci q Hq). cbn [mbind outcome_bind]. by rewrite Ht.
Qed.

(** What the connection [f] got from the server. *)
Definition wire (s : server) (f : Z) : list Z :=
  concat (omap (λ e, match e with Sent f' l => if f' =? f then Some l else None | Closed _ => None end) (net s)).

Lemma wire_sent s s' f l : net s' = net s ++ [Sent f l] →
  wire s' f = wire s f ++ l ∧ ∀ g, g ≠ f → wire s' g = wire s g.
Proof.
  intros Hn. unfold wire. rewrite Hn, omap_app, concat_app. split.
  - f_equal. simpl. rewrite Z.eqb_refl. apply app_nil_r.
  - intros g Hg. rewrite omap_app, concat_app. simpl. rewrite (proj2 (Z.eqb_neq f g)) by done. apply app_nil_r.
Qed.

(** ** What the server promises *)

(** C6.  Let in each round [accept] fail only for want of a connection, and no
    connection break for output when it has input of it as well ([round_ok]);
    let the program give its answers at once ([respond]), with headers and
    pieces of content of less than 2^62 bytes, and [malloc] give only blocks of
    less than 10^9 bytes ([malloc_ok]).  Then, whatever connections, requests,
    answers and failures of [malloc] the turns of a program bring, a server
    that was started stays in its invariant: no failed assertion, no access
    out of bounds.  The conditions are needed: [failed_accept_aborts],
    [closed_stays_queued], [long_header_overflows], [ten_digits]. *)
Theorem http_server_safe start m ts :
  0 ≤ start → memory_ok m → Forall turn_ok ts →
  wp (serve_all (http_server_init start m).1 ts) (λ s, Inv s ∧ settled s).
Proof.
  intros Hstart Hm Hts. destruct (init_ok start m Hstart Hm) as [HI Hset].
  generalize dependent (http_server_init start m).1. induction Hts as [|t ts Ht _ IH]; intros s HI Hset; simpl.
  - by split.
  - apply wp_bind. eapply wp_mono; [by apply serve_one_ok|]. intros s' [? ?]. by apply IH.
Qed.

(** C7.  Answering a request at once, with headers and pieces of content of less
    than 2^62 bytes and a [malloc] that gives no block of 10^9 bytes or more.
    If the index of the connection is below the number of connections, the
    output gets one response behind what it holds: the status line, the headers
    that have a colon, the special headers with the length of the content, the
    content; the request is taken off the input, the handle is no good any
    more, and the connection waits for input, is in the queue for the request
    that follows, or is about to be closed.  Only when [malloc] refuses a block
    of at most twice the bytes of the output with the response (or the first
    block of 512) is a header left out, or the connection closed instead.  If
    the index is not below the number of connections (see [response_lost]),
    nothing happens at all. *)
Theorem respond_correct malloc s h ci c a :
  malloc_ok malloc → reply_ok a → Inv s → settled s → handed_out s h ci c →
  let N := reply_bytes c (headers a) (concat (contents a)) in
  if ncs s <=? ci then respond malloc s h a = Ret s
  else ∃ req rest, bytes (input c) = req ++ rest ∧ zlen req = request_length c ∧
    wp (respond malloc s h a) (λ s', Inv s' ∧ settled s' ∧ client_from_handle s' h = Ret None ∧
      ∃ c', rd (cs s') ci = Ret c' ∧ (state c' = C_FREE ∧ short malloc N ∨
        ∃ kept keep, keeps_headers malloc N (headers a) kept ∧
          bytes (output c') = bytes (output c) ++ status_line (minor c) (status a) ++ header_lines kept ++
            before_length (minor c) keep ++ length_field (zlen (concat (contents a))) ++ CRLF2 ++ concat (contents a) ∧
          bytes (input c') = rest ∧ after_response c keep rest (state c'))).
Proof.
  intros Hm Ha HI Hset Hh N. pose proof Hh as (Hc & Hst & _). destruct (Z.leb_spec (ncs s) ci) as [Hge|Hlt].
  { apply respond_gone. by eapply handed_out_lost. }
  destruct (request_split _ _ _ HI Hc Hst) as (req & rest & Hreq & Hlen). exists req, rest. split_and!; [done..|].
  eapply wp_mono; [by eapply (respond_ok malloc s h ci c); [..|apply handed_out_active| | |]|].
  intros s' [[[(? & ? & ?) (c' & ? & ?)] ?]|[(? & ? & ?) (c' & ? & kept & Hk & keep & Hout & ? & ?)]]; (split_and!; [done..|]);
    exists c'; (split; [done|]); [by left|right]. exists kept, keep. split_and!; [done| |done|done].
  rewrite Hout. unfold response. by rewrite <-!app_assoc.
Qed.

(** C19.  In rounds in which [accept] fails only for want of a connection and no
    connection breaks for output when it has input as well ([round_ok]), with a
    [malloc] that gives no block of 10^9 bytes or more: a wait ends with a
    request of the queue or is still waiting; a request it hands out is the
    parsed head of the input of its connection, of a version the server
    speaks; and its content is the input behind the head, if the lengths of
    both have a sum below 2^64 (else the sum wraps around,
    [request_length_wraps]). *)
Theorem wait_request_correct malloc s rounds :
  malloc_ok malloc → Forall round_ok rounds → Inv s → settled s →
  wp (http_server_wait_request malloc s rounds) (λ '(s', t), Inv s' ∧ settled s' ∧
    match t with Some t => ticket_ok s' t | None => True end).
Proof. apply wait_request_ok. Qed.

(** C8.  A good request that is the oldest one in the queue is handed out by
    the next wait, with no input or output before it. *)
Theorem request_served malloc s rounds ci q c d head_len n r :
  malloc_ok malloc → Inv s → settled s → queue_ok s (ci :: q) → rd (cs s) ci = Ret c →
  good_request c d head_len n r →
  wp (http_server_wait_request malloc s rounds) (λ '(s', t), ∃ h c',
    t = Some (h, r, mkSlice d head_len n) ∧ handed_out s' h ci c' ∧ input c' = input c ∧
    request_length c' = u64 (head_len + n) ∧ minor c' = HttpParse.minor r ∧
    Inv s' ∧ settled s' ∧ queue_ok s' q).
Proof.
  intros Hm HI Hset Hq Hc Hgood. assert (state c = C_QUEUED) as Hst by (apply (qu_state s _ Hq ci c Hc); left).
  destruct (take_request_good malloc s ci q c d head_len n r) as (s' & c' & Ht & Hch & Hst' & Hg & Hin & Hlen & Hmin); [done..|].
  rewrite (wait_request_first _ _ _ _ _ _ _ Hq Ht).
  pose proof (take_request_ok malloc s ci q c Hm HI Hset Hq Hc Hst) as Hok. rewrite Ht in Hok.
  destruct Hok as (HI' & Hset' & _ & _). exists (Z.lor (gen c) (Z.shiftl ci 16)), c'.
  split_and!; try done.
  - split_and!; [exact (changed_rd (popped s) s' ci c' c Hc Hch)|done|by rewrite Hg].
  - eapply popped_queue; [done|done|done|congruence].
Qed.

(** C18.  What has arrived goes behind the input of its connection, and to no
    other one; an idle connection gets into the queue exactly when its input
    holds a whole head. *)
Theorem socket_input_correct malloc s ci c a :
  malloc_ok malloc → Inv s → rd (cs s) ci = Ret c → state c ≠ C_FREE →
  wp (socket_input malloc s ci a) (λ '(s', ok), ∃ c', cs s' = <[Z.to_nat ci := c']> (cs s) ∧
    received a (input c) (input c') ok ∧ output c' = output c ∧
    (ok = true → Inv s' ∧ (state c ≠ C_IDLE → state c' = state c) ∧
      (state c = C_IDLE → (state c' = C_QUEUED ∧ has_head (bytes (input c'))) ∨
                          (state c' = C_IDLE ∧ ¬ has_head (bytes (input c')))))).
Proof.
  intros Hm HI Hc Hlive. pose proof (rd_bounds _ _ _ Hc) as Hb.
  eapply wp_mono; [by apply (socket_input_ok malloc s ci c a)|].
  intros [s' ok] (c' & Hcs & _ & _ & Hout & _ & HI' & Hrec & Hst). exists c'. split_and!; [done..|].
  intros Hok. specialize (HI' Hok). assert (rd (cs s') ci = Ret c') as Hc' by (rewrite Hcs; by apply rd_insert_eq).
  destruct (inv_clients s' HI' ci c' Hc') as (_ & _ & Hx). split_and!; [done|naive_solver|].
  intros Hidle. destruct Hst as [Hst|(_ & Hst & _)].
  - right. rewrite Hst, Hidle in *. done.
  - left. rewrite Hst in *. done.
Qed.

(** C17.  Output keeps the order of its bytes: what was sent on a connection,
    followed by what is still pending, is what it was before; no other
    connection gets anything; and while a response has no length yet, nothing
    behind the place of its length is sent. *)
Theorem socket_output_correct s ci c p d :
  Inv s → rd (cs s) ci = Ret c → state c ≠ C_FREE → pollfd_of s c = Ret p →
  wp (socket_output s ci d) (λ '(s', ok), ∃ c' out rest, rd (cs s') ci = Ret c' ∧
    bytes (output c) = out ++ rest ∧ wire s' (fd p) = wire s (fd p) ++ out ∧
    (∀ f, f ≠ fd p → wire s' f = wire s f) ∧
    (state c = C_CONTENT → zlen out ≤ content_length_offset c) ∧
    if ok then bytes (output c') = rest else output_broken d = true ∨ state c = C_CLOSE ∧ rest = []).
Proof.
  intros HI Hc Hlive Hp. eapply wp_mono; [by apply (socket_output_ok s ci c d)|].
  intros [s' ok] (p' & out & b & Hp' & Hnet & Hsplit & Hlim & _ & Hcase). same_rd.
  destruct (wire_sent s s' (fd p) out Hnet) as [Hw Hother].
  destruct Hcase as [(-> & Hbrk & Hch)|(Hch & _ & Hok)].
  - exists c, out, (bytes b). split_and!; try done; [by eapply changed_rd|by left].
  - exists (after_output c out b), out, (bytes b). split_and!; try done; [by eapply changed_rd|].
    destruct ok; [done|]. right. by apply Hok.
Qed.

(** ** An example *)

Definition example_malloc : allocator :=
  λ n, if (0 <=? n) && (n <? 10 ^ 6) then Some (replicate (Z.to_nat n) 0) else None.

Definition example_memory : server :=
  mkServer 0 0 (replicate 512 (mkClient 0 C_IDLE None NULL_BUF NULL_BUF 0 0 0 0 0 0 false))
    (replicate 513 (mkPollfd 0 0 0)) (replicate 512 0) (replicate 512 0) 0 0 (replicate 512 0) [].

Definition example_start : server := (http_server_init 3 example_memory).1.

Definition quiet : departure := mkDeparture [] false.

(** Rounds in which connections arrive, in which the first clients get input,
    and in which the first client's output is taken. *)
Definition connect (fds : list Z) : round :=
  mkRound false [POLLIN] ((λ x, (x, true)) <$> fds) false (λ _, mkArrival [] false) (λ _, quiet).
Definition arrive (texts : list (list (list Z))) : round :=
  mkRound false (0 :: ((λ _, POLLIN) <$> texts)) [] false
    (λ ci, mkArrival (nth (Z.to_nat ci) texts []) false) (λ _, quiet).
Definition flush : round :=
  mkRound false [0; POLLOUT] [] false (λ _, mkArrival [] false) (λ _, mkDeparture [1000%nat] false).

Definition GET : list Z := chars "GET / HTTP/1.1" ++ CRLF2.

(** The result of a run. *)
Definition result {A} (d : A) (m : outcome A) : A := match m with Ret x => x | Fail _ => d end.

Lemma wp_result {A} (d : A) (m : outcome A) Q : wp m Q → Q (result d m).
Proof. intros (x & -> & HQ)%wp_inv. exact HQ. Qed.

Lemma example_malloc_ok : malloc_ok example_malloc.
Proof.
  intros n block. unfold example_malloc. destruct (Z.leb_spec 0 n); [|done]. destruct (Z.ltb_spec n (10 ^ 6)); [|done].
  intros [= <-]. unfold zlen, BLOCK_MAX. rewrite length_replicate. lia.
Qed.

Lemma connect_ok fds : round_ok (connect fds).
Proof. by split. Qed.
Lemma arrive_ok texts : round_ok (arrive texts).
Proof. by split. Qed.

Lemma example_memory_ok : memory_ok example_memory.
Proof. by vm_compute. Qed.

(** Two connections, of which the first sends a request. *)
Definition example_rounds : list round := [connect [7; 8]; arrive [[GET]; []]].

Lemma example_rounds_ok : Forall round_ok example_rounds.
Proof. repeat (apply Forall_cons; split); [apply connect_ok|apply arrive_ok|done]. Qed.

Definition example_queued : server :=
  (result (example_start, None) (wait_queue example_malloc example_start example_rounds)).1.
Definition example_asked : server :=
  (result (example_start, None) (http_server_wait_request example_malloc example_start example_rounds)).1.
Definition example_client (s : server) (ci : Z) : client :=
  result (mkClient 0 C_FREE None NULL_BUF NULL_BUF 0 0 0 0 0 0 false) (rd (cs s) ci).

Lemma example_queued_ok : Inv example_queued ∧ settled example_queued.
Proof.
  destruct (init_ok 3 example_memory ltac:(lia) example_memory_ok) as [HI Hset].
  pose proof (wp_result (example_start, None) _ _
    (wait_queue_ok example_malloc _ _ example_malloc_ok example_rounds_ok HI Hset)) as H.
  unfold example_queued. destruct (result _ _) as [s more]. by destruct H as (? & ? & _).
Qed.

Lemma example_asked_ok : Inv example_asked ∧ settled example_asked.
Proof.
  destruct (init_ok 3 example_memory ltac:(lia) example_memory_ok) as [HI Hset].
  pose proof (wp_result (example_start, None) _ _
    (wait_request_ok example_malloc _ _ example_malloc_ok example_rounds_ok HI Hset)) as H.
  unfold example_asked. destruct (result _ _) as [s more]. by destruct H as (? & ? & _).
Qed.

Lemma queue_is s ci : Inv s → qused s = 1 → rd (qdata s) (qhead s mod MAX_CLIENTS) = Ret ci → queue_ok s [ci].
Proof.
  intros HI Hu Hfirst. destruct (inv_queue s HI) as [q Hq]. pose proof (qu_used _ _ Hq) as Hz. rewrite Hu in Hz.
  destruct q as [|x [|y q]]; unfold zlen in Hz; simpl in Hz; try lia.
  pose proof (qu_ring _ _ Hq 0 ltac:(done)) as Hr. rewrite Z.add_0_r, Hfirst in Hr. by injection Hr as <-.
Qed.

Definition example_answer : reply := mkReply 404 [chars "Server: x"] [chars "not "; chars "here"].

Lemma example_answer_ok : reply_ok example_answer.
Proof. split; repeat constructor; by vm_compute. Qed.

Theorem http_server_safe_witness :
  Forall turn_ok [mkTurn example_malloc example_rounds (λ _, example_answer)] ∧
  wp (serve_all example_start [mkTurn example_malloc example_rounds (λ _, example_answer)]) (λ s, Inv s ∧ settled s).
Proof.
  assert (Forall turn_ok [mkTurn example_malloc example_rounds (λ _, example_answer)]) as Hok.
  { constructor; [|done]. split; [exact example_malloc_ok|]. split; [exact example_rounds_ok|]. intros x. exact example_answer_ok. }
  split; [exact Hok|]. apply (http_server_safe 3 example_memory); [lia|exact example_memory_ok|exact Hok].
Defined.

Theorem respond_correct_witness :
  ∃ req rest, bytes (input (example_client example_asked 0)) = req ++ rest ∧ zlen req = 18 ∧
    wp (respond example_malloc example_asked 0 example_answer) (λ s', Inv s' ∧ settled s' ∧
      client_from_handle s' 0 = Ret None ∧ ∃ c', rd (cs s') 0 = Ret c' ∧ (state c' = C_FREE ∧ short example_malloc 219 ∨
        ∃ kept keep, keeps_headers example_malloc 219 (headers example_answer) kept ∧
          bytes (output c') = bytes (output (example_client example_asked 0)) ++ status_line 1 404 ++
            header_lines kept ++ before_length 1 keep ++ length_field 8 ++ CRLF2 ++ chars "not here" ∧
          bytes (input c') = rest ∧ after_response (example_client example_asked 0) keep rest (state c'))).
Proof.
  destruct example_asked_ok as [HI Hset].
  pose proof (respond_correct example_malloc example_asked 0 0 (example_client example_asked 0) example_answer
    example_malloc_ok example_answer_ok HI Hset ltac:(by vm_compute)) as H. cbv zeta in H.
  assert (reply_bytes (example_client example_asked 0) (headers example_answer) (concat (contents example_answer)) = 219) as HN
    by (vm_compute; reflexivity).
  assert ((ncs example_asked <=? 0) = false) as Hlt by (vm_compute; reflexivity).
  rewrite HN, Hlt in H. exact H.
Defined.

Theorem wait_request_correct_witness :
  wp (http_server_wait_request example_malloc example_start example_rounds) (λ '(s', t), Inv s' ∧ settled s' ∧
    match t with Some t => ticket_ok s' t | None => True end).
Proof.
  destruct (init_ok 3 example_memory ltac:(lia) example_memory_ok) as [HI Hset].
  apply (wait_request_correct example_malloc example_start example_rounds);
    [exact example_malloc_ok|exact example_rounds_ok|exact HI|exact Hset].
Defined.

Definition GET_request : request :=
  result (mkRequest M_GET (mkSlice [] 0 0) 0 0 [])
    (x ← parse_request_head (default [] (data (input (example_client example_queued 0)))) 18;
     match x with P_OK r => Ret r | _ => Fail Aborted end).

Theorem request_served_witness :
  wp (http_server_wait_request example_malloc example_queued []) (λ '(s', t), ∃ h c',
    t = Some (h, GET_request, mkSlice (default [] (data (input (example_client example_queued 0)))) 18 0) ∧
    handed_out s' h 0 c' ∧ input c' = input (example_client example_queued 0) ∧ request_length c' = u64 (18 + 0) ∧
    minor c' = HttpParse.minor GET_request ∧ Inv s' ∧ settled s' ∧ queue_ok s' []).
Proof.
  destruct example_queued_ok as [HI Hset].
  apply (request_served example_malloc example_queued [] 0 [] (example_client example_queued 0));
    [exact example_malloc_ok|exact HI|exact Hset|apply queue_is; [exact HI|by vm_compute..]|by vm_compute|].
  split; [exists 14; by vm_compute|by vm_compute|by vm_compute| |by vm_compute|by vm_compute].
  split; [by vm_compute|right; by vm_compute].
Defined.

(** The state after the two connections were accepted, and after the first one
    was answered. *)
Definition example_connected : server :=
  result example_start (process_io example_malloc example_start (connect [7; 8])).
Definition example_answered : server :=
  result example_start (respond example_malloc example_asked 0 example_answer).

Theorem socket_input_correct_witness :
  wp (socket_input example_malloc example_connected 0 (mkArrival [GET] false)) (λ '(s', ok), ∃ c',
    cs s' = <[Z.to_nat 0 := c']> (cs example_connected) ∧
    received (mkArrival [GET] false) NULL_BUF (input c') ok ∧ output c' = NULL_BUF ∧
    (ok = true → Inv s' ∧ (C_IDLE ≠ C_IDLE → state c' = C_IDLE) ∧
      (C_IDLE = C_IDLE → (state c' = C_QUEUED ∧ has_head (bytes (input c'))) ∨
                          (state c' = C_IDLE ∧ ¬ has_head (bytes (input c')))))).
Proof.
  destruct (init_ok 3 example_memory ltac:(lia) example_memory_ok) as [HI Hset].
  destruct (wp_result example_start _ _
    (process_io_ok example_malloc _ _ example_malloc_ok (connect_ok [7; 8]) HI Hset eq_refl)) as [HI' _].
  refine (socket_input_correct example_malloc example_connected 0 (example_client example_connected 0)
    (mkArrival [GET] false) _ _ _ _); [exact example_malloc_ok|exact HI'|by vm_compute|by vm_compute].
Defined.

Theorem socket_output_correct_witness :
  wp (socket_output example_answered 0 (mkDeparture [5%nat; 3%nat] false)) (λ '(s', ok), ∃ c' out rest,
    rd (cs s') 0 = Ret c' ∧ bytes (output (example_client example_answered 0)) = out ++ rest ∧
    wire s' 7 = wire example_answered 7 ++ out ∧ (∀ f, f ≠ 7 → wire s' f = wire example_answered f) ∧
    (C_IDLE = C_CONTENT → zlen out ≤ content_length_offset (example_client example_answered 0)) ∧
    if ok then bytes (output c') = rest else false = true ∨ C_IDLE = C_CLOSE ∧ rest = []).
Proof.
  destruct example_asked_ok as [HI Hset].
  pose proof (wp_result example_start _ _ (respond_ok example_malloc example_asked 0 0 (example_client example_asked 0)
    example_answer GET [] example_malloc_ok example_answer_ok
    ltac:(apply handed_out_active; [exact HI|exact Hset|by vm_compute|by vm_compute])
    ltac:(by vm_compute) ltac:(by vm_compute) ltac:(by vm_compute))) as Hend.
  apply ended_settled in Hend as [HI' _].
  refine (socket_output_correct example_answered 0 (example_client example_answered 0) (mkPollfd 7 5 1)
    (mkDeparture [5%nat; 3%nat] false) _ _ _ _); [exact HI'|by vm_compute..].
Defined.

(** ** Where it fails *)

Definition no_server : server * option ticket := (example_start, None).
Definition wait (s : server) (rounds : list round) := http_server_wait_request example_malloc s rounds.

(** The first connection sends a request and [f] is done with it. *)
Definition with_request {A} (text : list Z) (f : server → Z → outcome A) : outcome A :=
  '(s, t) ← wait example_start [connect [7]; arrive [[text]]];
  match t with Some (h, _, _) => f s h | None => Fail Aborted end.

(** Two connections: the first one ends in the round in which the second one
    asks.  The request is handed out with an index that is not below the
    number of connections, and the answer has no effect. *)
Lemma response_lost :
  let '(s, t) := result no_server (wait example_start [connect [7; 8]; arrive [[[]]; [GET]]]) in
  ncs s = 1 ∧ client_from_handle s (Z.shiftl 1 16) = Ret None ∧
  (∃ r content, t = Some (Z.shiftl 1 16, r, content)) ∧
  respond example_malloc s (Z.shiftl 1 16) example_answer = Ret s.
Proof. vm_compute. split_and!; [done|done|by eexists _, _|done]. Qed.

(** A connection that is closed while it waits in the queue stays there. *)
Lemma closed_stays_queued :
  with_request GET (λ s h,
    s ← respond example_malloc s h example_answer;
    wait s [mkRound false [0; Z.lor POLLIN POLLOUT] [] false (λ _, mkArrival [GET] false) (λ _, mkDeparture [] true)]) =
  Fail AssertFail.
Proof. by vm_compute. Qed.

Definition POST (length : string) : list Z :=
  chars "POST / HTTP/1.1" ++ [CR; LF] ++ chars "Content-Length: " ++ chars length ++ CRLF2.

(** A request whose content comes later than its head is never answered. *)
Lemma late_content_stuck :
  let '(s, t) := result no_server (wait example_start
    [connect [7]; arrive [[POST "5" ++ chars "he"]]; arrive [[chars "llo"]]; arrive [[GET]]]) in
  t = None ∧ state (example_client s 0) = C_POPPED ∧
  bytes (input (example_client s 0)) = POST "5" ++ chars "hello" ++ GET.
Proof. by vm_compute. Qed.

(** The length of a request wraps around: it is handed out with a content that
    is far longer than the input. *)
Lemma request_length_wraps :
  let '(s, t) := result no_server (wait example_start [connect [7]; arrive [[POST "18446744073709551614"]]]) in
  match t with
  | Some (_, _, content) =>
      used (input (example_client s 0)) < HttpParse.size content ∧
      request_length (example_client s 0) = used (input (example_client s 0)) - 2
  | None => False
  end.
Proof. by vm_compute. Qed.

(** Output goes out between two calls of the program: the block of 512 bytes
    that is allocated then may be too small for what is appended. *)
Lemma long_header_overflows :
  with_request GET (λ s h,
    s ← http_server_set_status example_malloc s h 200;
    s ← process_io example_malloc s flush;
    http_server_append_header example_malloc s h (chars "A:" ++ replicate 600 (c_0))) = Fail OutOfBounds.
Proof. by vm_compute. Qed.

(** And the length of the content is counted from an offset that is stale. *)
Lemma stale_content_offset :
  with_request GET (λ s h,
    s ← http_server_set_status example_malloc s h 200;
    s ← http_server_append_content example_malloc s h (chars "hello");
    s ← process_io example_malloc s flush;
    s ← http_server_send_response example_malloc s h;
    Ret (bytes (output (example_client s 0)))) =
  Ret (chars "-52      " ++ CRLF2 ++ chars "hello").
Proof. by vm_compute. Qed.

(** Stopping closes every other connection. *)
Lemma free_leaves_open :
  (s ← process_io example_malloc example_start (connect [7; 8; 9]); http_server_free s) =
  (s ← process_io example_malloc example_start (connect [7; 8; 9]);
   s ← close_client s 0; s ← close_client s 1; Ret (with_net s (Closed (listen_fd s)))).
Proof. by vm_compute. Qed.

(** A server that cannot listen is reported as started. *)
Lemma init_failure_hidden s : http_server_init (-1) s = (s, true).
Proof. done. Qed.

(** A connection that is reset while it waits to be accepted ends the
    program. *)
Lemma failed_accept_aborts :
  wait example_start [mkRound false [POLLIN] [] true (λ _, mkArrival [] false) (λ _, quiet)] = Fail AssertFail.
Proof. by vm_compute. Qed.
