(* ===== verification/HttpListen.v ===== *)
(** The start of the server of [src/http/server.c]: the socket it listens on, and
    the trace of bytes that it writes to the standard error. *)
From S2P Require Import Prelude HttpServer.
#[global] Open Scope Z_scope.

(** ** The trace *)

Definition trace_step (prefix bytes : list Z) (cnt : Z) (st : Z * bool * list Z)
    : outcome (Z * bool * list Z + bool * list Z) :=
  let '(i, start, out) := st in
  if i <? cnt then
    c ← rd bytes i;
    let out := if start then out ++ prefix else out in
    if c =? CR then continue (i + 1, false, out ++ chars "\r")
    else if c =? LF then continue (i + 1, true, out ++ chars "\n" ++ [LF])
    else continue (i + 1, false, out ++ [c])
  else break (start, out).

(** What is written. *)
Definition print_bytes (prefix bytes : list Z) (cnt : Z) : outcome (list Z) :=
  '(start, out) ← loop (S (Z.to_nat cnt)) (trace_step prefix bytes cnt) (0, true, []);
  Ret (if start : bool then out else out ++ [LF]).

(** ** The socket *)

(** The sockets that are open with their flags, and where one is bound and
    listens. *)
Record sockets : Set := mkSockets {
  opened : list Z;
  flags : list (Z * Z);
  bound : list (Z * Z * Z);
  listening : list (Z * Z);
}.

(** What the system answers; [inet_pton] is [None] for a text that is no
    address. *)
Record answers : Type := mkAnswers {
  O_NONBLOCK : Z;
  htonl : Z → Z;
  htons : Z → Z;
  socket : Z;
  getfl : Z;
  setfl : Z;
  inet_pton : list Z → option Z;
  bind : Z;
  listen : Z;
}.

Definition close (s : sockets) (fd : Z) : sockets :=
  mkSockets (filter (λ x, x ≠ fd) (opened s)) (flags s) (bound s) (listening s).

Definition set_non_blocking (a : answers) (s : sockets) (fd : Z) : sockets * bool :=
  if getfl a =? -1 then (s, false)
  else
    let fl := Z.lor (getfl a) (O_NONBLOCK a) in
    if setfl a =? 0 then (mkSockets (opened s) ((fd, fl) :: flags s) (bound s) (listening s), true) else (s, false).

Definition INADDR_ANY : Z := 0.

(** [addr] is [None] for NULL.  Whether the address may be used again
    ([setsockopt]) has no part in the result. *)
Definition start_server_ipv4 (a : answers) (s : sockets) (addr : option (list Z)) (port : Z) : sockets * Z :=
  let fd := socket a in
  if fd <? 0 then (s, -1)
  else
    let s := mkSockets (fd :: opened s) (flags s) (bound s) (listening s) in
    let '(s, ok) := set_non_blocking a s fd in
    if negb ok then (close s fd, -1)
    else
      match (match addr with None => Some (htonl a INADDR_ANY) | Some t => inet_pton a t end) with
      | None => (s, -1)
      | Some x =>
          if negb (bind a =? 0) then (close s fd, -1)
          else
            let s := mkSockets (opened s) (flags s) ((fd, x, htons a port) :: bound s) (listening s) in
            let backlog := 32 in
            if negb (listen a =? 0) then (close s fd, -1)
            else (mkSockets (opened s) (flags s) (bound s) ((fd, backlog) :: listening s), fd)
      end.

(** ** Lines of a trace *)

(** A line with its carriage returns made visible. *)
Fixpoint escape (l : list Z) : list Z :=
  match l with
  | [] => []
  | c :: l => (if c =? CR then chars "\r" else [c]) ++ escape l
  end.

Fixpoint traced (prefix : list Z) (start : bool) (t : list Z) : list Z :=
  match t with
  | [] => if start then [] else [LF]
  | c :: t =>
      (if start then prefix else []) ++
      (if c =? CR then chars "\r" else if c =? LF then chars "\n" ++ [LF] else [c]) ++ traced prefix (c =? LF) t
  end.

Lemma print_bytes_traced prefix t : print_bytes prefix t (zlen t) = Ret (traced prefix true t).
Proof.
  unfold print_bytes. apply wp_eq_inv, wp_bind.
  apply (wp_loop_count (λ n '(i, start, out), ∃ a b, t = a ++ b ∧ n = length b ∧ i = zlen a ∧
    traced prefix true t = out ++ traced prefix start b) _ _ _ (length t)).
  { by exists [], t. }
  { unfold zlen. lia. }
  intros n [[i start] out] (a & b & -> & -> & -> & Heq). unfold trace_step. rewrite zlen_app.
  pose proof (zlen_nonneg a). pose proof (zlen_nonneg b). destruct b as [|c b].
  { change (zlen (@nil Z)) with 0. destruct (Z.ltb_spec (zlen a) (zlen a + 0)); [lia|]. cbn.
    rewrite Heq. cbn. destruct start; [by rewrite app_nil_r|done]. }
  rewrite zlen_cons. pose proof (zlen_nonneg b). destruct (Z.ltb_spec (zlen a) (zlen a + (1 + zlen b))); [|lia].
  rewrite rd_app_r, Z.sub_diag by lia. rewrite rd_cons_0. cbn [mbind outcome_bind].
  assert (Hgo : ∀ start' out', traced prefix true (a ++ c :: b) = out' ++ traced prefix start' b →
    wp (continue (zlen a + 1, start', out')) (λ r : Z * bool * list Z + bool * list Z, match r with
      | inl s' => ∃ n', (n' < length (c :: b))%nat ∧ (let '(i, start, out) := s' in
          ∃ a0 b0, a ++ c :: b = a0 ++ b0 ∧ n' = length b0 ∧ i = zlen a0 ∧
          traced prefix true (a ++ c :: b) = out ++ traced prefix start b0)
      | inr a0 => wp (let '(start, out) := a0 in Ret (if start then out else out ++ [LF])) (λ r, r = traced prefix true (a ++ c :: b)) end)).
  { intros start' out' H'. cbn. exists (length b). split; [lia|]. exists (a ++ [c]), b. split_and!; [by rewrite <-app_assoc|done|by zlen|done]. }
  rewrite Heq in Hgo |- *. cbn [traced] in Hgo |- *.
  destruct (Z.eqb_spec c CR) as [->|Hcr]; [|destruct (Z.eqb_spec c LF) as [->|Hlf]];
    apply Hgo; destruct start; cbn [app]; by rewrite <-?app_assoc.
Qed.

Lemma traced_line prefix l t :
  Forall (λ c, c ≠ LF) l → ∀ start,
  traced prefix start (l ++ LF :: t) =
    (if start then prefix else []) ++ escape l ++ chars "\n" ++ [LF] ++ traced prefix true t.
Proof.
  induction 1 as [|c l Hc _ IH]; intros start; cbn [app traced escape].
  - change (LF =? CR) with false. change (LF =? LF) with true. cbn [app]. by rewrite <-app_assoc.
  - destruct (Z.eqb_spec c LF); [done|]. rewrite IH. cbn [app]. by rewrite <-!app_assoc.
Qed.

(** The trace, line by line: the prefix, the line with its ends visible. *)
Lemma print_bytes_line prefix l t :
  Forall (λ c, c ≠ LF) l →
  print_bytes prefix (l ++ LF :: t) (zlen (l ++ LF :: t)) =
    r ← print_bytes prefix t (zlen t); Ret (prefix ++ escape l ++ chars "\n" ++ [LF] ++ r).
Proof. intros Hl. rewrite !print_bytes_traced. cbn. by rewrite (traced_line prefix l t Hl true). Qed.

(** ** The socket *)

Lemma close_new s fd fl b l : fd ∉ opened s → close (mkSockets (fd :: opened s) fl b l) fd = mkSockets (opened s) fl b l.
Proof.
  intros Hfd. unfold close. cbn [opened flags bound listening]. f_equal.
  rewrite filter_cons_False by (intros Hne; by apply Hne).
  induction (opened s) as [|x o IH]; [done|]. rewrite not_elem_of_cons in Hfd. destruct Hfd as [Hx Ho].
  rewrite filter_cons_True by (by intros ->). f_equal. by apply IH.
Qed.

(** The server listens exactly when every call succeeds: then on a new socket that
    does not block, at the address and the port it was given.  After a failure
    no socket is left, but that of a text that is no address. *)
Lemma start_server_ok a s addr port :
  socket a ∉ opened s →
  let '(s', r) := start_server_ipv4 a s addr port in
  let x := match addr with None => Some (htonl a 0) | Some t => inet_pton a t end in
  if (0 <=? socket a) && negb (getfl a =? -1) && (setfl a =? 0) && bool_decide (x ≠ None) && (bind a =? 0) && (listen a =? 0)
  then r = socket a ∧ opened s' = r :: opened s ∧
       flags s' = (r, Z.lor (getfl a) (O_NONBLOCK a)) :: flags s ∧
       (∃ y, x = Some y ∧ bound s' = (r, y, htons a port) :: bound s) ∧ listening s' = (r, 32) :: listening s
  else r = -1 ∧ listening s' = listening s ∧
       opened s' = if (0 <=? socket a) && negb (getfl a =? -1) && (setfl a =? 0) && bool_decide (x = None)
                   then socket a :: opened s else opened s.
Proof.
  intros Hfd. unfold start_server_ipv4, set_non_blocking.
  destruct (Z.ltb_spec (socket a) 0), (Z.leb_spec 0 (socket a)); try lia; [done|].
  destruct (getfl a =? -1); cbn [negb andb]; [by (cbn [opened flags bound listening]; rewrite close_new)|].
  destruct (setfl a =? 0); cbn [negb andb]; [|by (cbn [opened flags bound listening]; rewrite close_new)].
  change INADDR_ANY with 0.
  destruct (match addr with None => Some (htonl a 0) | Some t => inet_pton a t end) as [x|]; [|done].
  rewrite (bool_decide_eq_true_2 (Some x ≠ None)) by done. rewrite (bool_decide_eq_false_2 (Some x = None)) by done.
  cbn [andb]. destruct (bind a =? 0); cbn [negb andb]; [|by (cbn [opened flags bound listening]; rewrite close_new)].
  destruct (listen a =? 0); cbn [negb]; [|by (cbn [opened flags bound listening]; rewrite close_new)]. cbn. split_and!; try done. by exists x.
Qed.

(** With the socket the server begins; without it there is no telling. *)
Lemma server_starts a s addr port sv :
  let r := (start_server_ipv4 a s addr port).2 in
  (0 ≤ r → listen_fd (http_server_init r sv).1 = r) ∧ (http_server_init r sv).2 = true.
Proof.
  cbn zeta. set (r := (start_server_ipv4 a s addr port).2). unfold http_server_init.
  destruct (Z.ltb_spec r 0); [|done]. split; [lia|done].
Qed.

(** A server whose address is no address keeps its socket. *)
Lemma bad_address_leaks :
  start_server_ipv4 (mkAnswers 2048 id id 3 2 0 (λ _, None) 0 0) (mkSockets [] [] [] []) (Some (chars "localhost")) 8080 =
    (mkSockets [3] [(3, 2050)] [] [], -1).
Proof. vm_compute. reflexivity. Qed.
