(* ===== verification/HttpStatic.v ===== *)
(** The files of [src/http/send_static.c]: a request for a path under a prefix
    is answered with the file of that path under a directory.  What the file
    system answers, the converter of Markdown and the one function that the
    repository lacks are arguments; the functions of the server are called
    without their prefix, as in [HttpServer]. *)
From S2P Require Import Prelude Sockets HttpParse HttpPath HttpServer.
#[global] Open Scope Z_scope.

(** ** What the system answers *)

(** [open], after the interrupted calls: with the answer of [fstat] ([None]
    for a failure, else whether it is a regular file) and what [read] finds,
    piece by piece up to an empty one or the last one, behind which there is
    nothing ([input_broken] is false) or reading fails. *)
Inductive opened : Type :=
  | NotFound
  | OpenFailed
  | Opened (regular : option bool) (content : arrival).

(** [opendir] and the names [readdir] gives. *)
Inductive directory : Type :=
  | NoDirectory
  | DirectoryFailed
  | Entries (names : list (list Z)).

(** [smu] converts a text ([None] for NULL) and puts its output out in pieces,
    as characters or as a format; [scratch] is what the arrays of 1024
    characters hold before they are written. *)
Record environment : Type := mkEnvironment {
  open_file : list Z → opened;
  open_dir : list Z → directory;
  smu : option (list Z) → list (list Z + option (list Z));
  realloc_moves : bool;
  append_content_string : server → Z → list Z → outcome server;
  scratch : list Z;
}.

Section static.
Context (malloc : allocator) (env : environment).

(** ** Types *)

Definition mime_table : list (string * string) :=
  [("text/javascript", ".js"); ("text/javascript", ".javascript"); ("text/html", ".html"); ("text/html", ".htm");
   ("image/gif", ".gif"); ("image/jpeg", ".jpg"); ("image/jpeg", ".jpeg"); ("image/svg+xml", ".svg");
   ("video/mp4", ".mp4"); ("video/mpeg", ".mpeg");
   ("font/ttf", ".ttf"); ("font/woff", ".woff"); ("font/woff2", ".woff2");
   ("text/plain", ".txt");
   ("audio/wav", ".wav");
   ("application/x-7z-compressed", ".7z"); ("application/zip", ".zip"); ("application/xml", ".xml");
   ("application/json", ".json")]%string.

(** The loop over a table that ends with NULL; the tail is compared only when
    the name is long enough. *)
Fixpoint mime_in (table : list (string * string)) (name : list Z) : option string :=
  match table with
  | [] => None
  | (mime, ext) :: table =>
      let e := chars ext in
      if (zlen e <=? zlen name) && bool_decide (drop (length name - length e) name = e)
      then Some mime else mime_in table name
  end.

Definition mimetype_from_filename (name : list Z) : option string := mime_in mime_table name.

(** The text of a C string: up to its terminator. *)
Definition c_str (l : list Z) : list Z := take_while (λ c, negb (c =? 0)) l.

(** ** Files *)

Definition is_file (regular : option bool) : Z :=
  match regular with None => -1 | Some b => if b then 1 else 0 end.

(** One [read] after the other, each for 8 KB at most. *)
Definition send_chunk (h : Z) (st : server * arrival) : outcome (server * arrival + server) :=
  let '(s, a) := st in
  match recv a 8192 with
  | (None, _) => break s
  | (Some p, a) =>
      if zlen p =? 0 then break s
      else s ← http_server_append_content malloc s h p; continue (s, a)
  end.

Definition send_file (s : server) (h : Z) (file : list Z) (mime : option string) : outcome (server * bool) :=
  match open_file env file with
  | NotFound => Ret (s, false)
  | OpenFailed =>
      s ← http_server_set_status malloc s h 500;
      s ← http_server_send_response malloc s h;
      Ret (s, true)
  | Opened regular a =>
      if is_file regular =? 0 then Ret (s, false)
      else
        s ← http_server_set_status malloc s h 200;
        let mime := match mime with None => mimetype_from_filename file | Some m => Some m end in
        s ← match mime with
            | None => Ret s
            | Some m => http_server_append_header_format malloc s h (Some (chars "Content-Type: " ++ chars m))
            end;
        s ← loop (recv_fuel a) (send_chunk h) (s, a);
        s ← http_server_send_response malloc s h;
        Ret (s, true)
  end.

(** What the program holds of the file: the buffer ([None] once [realloc] has
    freed it), how much of it is used, and whether reading failed. *)
Definition read_step (st : option (list Z) * Z * arrival) : outcome (option (list Z) * Z * arrival + option (list Z) * Z * bool) :=
  let '(buffer, size, a) := st in
  let capacity := 1024 in
  match (if size =? capacity then match malloc (2 * capacity) with None => None
         | Some _ => Some (if realloc_moves env then None else buffer) end
         else Some buffer) with
  | None => break (buffer, size, true)
  | Some buffer =>
      if capacity - size =? 0 then break (buffer, size, false)
      else
        match recv a (capacity - size) with
        | (None, a) => break (buffer, size, input_broken a)
        | (Some p, a) =>
            if zlen p =? 0 then break (buffer, size, false)
            else
              match buffer with
              | None => Fail OutOfBounds
              | Some l => l ← wr_range l size p; continue (Some l, size + zlen p, a)
              end
        end
  end.

Fixpoint append_pieces (s : server) (h : Z) (l : list (list Z + option (list Z))) : outcome server :=
  match l with
  | [] => Ret s
  | inl x :: l => s ← http_server_append_content malloc s h x; append_pieces s h l
  | inr x :: l => s ← http_server_append_content_format_2 malloc s h x; append_pieces s h l
  end.

Definition append_markup_as_html (s : server) (h : Z) (text : option (list Z)) : outcome server :=
  append_pieces s h (smu env text).

Definition send_file_md (s : server) (h : Z) (file : list Z) : outcome (server * bool) :=
  match open_file env file with
  | NotFound => Ret (s, false)
  | OpenFailed =>
      s ← http_server_set_status malloc s h 500;
      s ← http_server_send_response malloc s h;
      Ret (s, true)
  | Opened regular a =>
      if is_file regular =? 0 then Ret (s, false)
      else
        match malloc 1024 with
        | None =>
            s ← http_server_set_status malloc s h 200;
            s ← http_server_append_header malloc s h (chars "Content-Type: text/html");
            s ← append_markup_as_html s h None;
            s ← http_server_send_response malloc s h;
            Ret (s, true)
        | Some buffer =>
            '(buffer, size, fail) ← loop (recv_fuel a) read_step (Some buffer, 0, a);
            s ← (if fail : bool then http_server_set_status malloc s h 500
                 else
                   s ← http_server_set_status malloc s h 200;
                   s ← http_server_append_header malloc s h (chars "Content-Type: text/html");
                   match buffer with
                   | None => Fail OutOfBounds
                   | Some l => text ← rd_range l 0 size; append_markup_as_html s h (Some text)
                   end);
            _ ← match buffer with None => Fail Undefined | Some _ => Ret tt end;
            s ← http_server_send_response malloc s h;
            Ret (s, true)
        end
  end.

(** ** Directories *)

(** [%s] of a string that may be NULL. *)
Definition string_arg (x : option (list Z)) : outcome (list Z) :=
  match x with None => Fail Undefined | Some x => Ret x end.

Definition quote : Z := 34.

Definition listing_head (prefix : list Z) : list Z :=
  chars "<html>" ++ [LF] ++ chars "    <head>" ++ [LF] ++ chars "    </head>" ++ [LF] ++ chars "    <body>" ++ [LF] ++
  chars "        <ul>" ++ [LF] ++ chars "            <li><a href=" ++ [quote] ++ prefix ++ chars "/.." ++ [quote] ++
  chars ">(parent)</a></li>".

Definition listing_entry (prefix path name : list Z) : list Z :=
  chars "<li><a href=" ++ [quote] ++ prefix ++ [c_slash] ++ c_str path ++ name ++ [quote] ++ chars ">" ++ name ++
  chars "</a></li>" ++ [LF].

Definition listing_tail : list Z :=
  chars "        </ul>" ++ [LF] ++ chars "    </body>" ++ [LF] ++ chars "</html>" ++ [LF].

Fixpoint append_entries (s : server) (h : Z) (prefix : option (list Z)) (path : list Z) (names : list (list Z))
    : outcome server :=
  match names with
  | [] => Ret s
  | name :: names =>
      if bool_decide (name = DOT) || bool_decide (name = DOTDOT) then append_entries s h prefix path names
      else
        p ← string_arg prefix;
        s ← http_server_append_content_format_2 malloc s h (Some (listing_entry p path name));
        append_entries s h prefix path names
  end.

(** The directory and the path, one behind the other in an array of 1024
    characters. *)
Definition join (dir path : list Z) : outcome (list Z) :=
  tmp ← wr_range (scratch env) 0 dir;
  tmp ← wr_range tmp (zlen dir) path;
  wr tmp (zlen dir + zlen path) 0.

Definition send_dir_listing (s : server) (h : Z) (dir : list Z) (prefix : option (list Z)) (path : list Z)
    : outcome (server * bool) :=
  if 1024 <=? zlen dir + zlen path then
    s ← http_server_set_status malloc s h 500;
    s ← http_server_send_response malloc s h;
    Ret (s, true)
  else
    fullpath ← join dir path;
    match open_dir env (c_str fullpath) with
    | NoDirectory => Ret (s, false)
    | DirectoryFailed =>
        s ← http_server_set_status malloc s h 500;
        s ← http_server_send_response malloc s h;
        Ret (s, true)
    | Entries names =>
        s ← http_server_set_status malloc s h 200;
        p ← string_arg prefix;
        s ← http_server_append_content_format_2 malloc s h (Some (listing_head p));
        s ← append_entries s h prefix path names;
        s ← append_content_string env s h listing_tail;
        s ← http_server_send_response malloc s h;
        Ret (s, true)
    end.

(** ** Requests *)

(** The path of the request behind the prefix, sanitised; [None] for a request
    that is not for this directory. *)
Definition static_path (prefix : option (list Z)) (path : slice) : outcome (option (list Z)) :=
  let prefix_len := zlen (default [] prefix) in
  _ ← c_assert (prefix_len <? 1024);
  '(clean_path, clean_path_len) ← sanitize_path (drop (Z.to_nat (off path)) (base path)) (HttpParse.size path) (scratch env) 1024;
  if clean_path_len =? SIZE_MAX then Ret None
  else
    mine ← (if 0 <? prefix_len then
              if clean_path_len <? prefix_len then Ret false
              else x ← rd_range clean_path 0 prefix_len; Ret (bool_decide (x = default [] prefix))
            else Ret true);
    if negb mine then Ret None
    else rest ← rd_range clean_path prefix_len (clean_path_len - prefix_len); Ret (Some rest).

(** Whether the name ends in ".md". *)
Definition is_markdown (tmp : list Z) (tmp_len : Z) : outcome bool :=
  if negb (3 <? tmp_len) then Ret false
  else
    c1 ← rd tmp (tmp_len - 3);
    c2 ← rd tmp (tmp_len - 2);
    c3 ← rd tmp (tmp_len - 1);
    Ret ((c1 =? c_dot) && (c2 =? 109) && (c3 =? 100)).

Definition serve_static_dir (dir : list Z) (prefix : option (list Z)) (s : server) (r : request) (h : Z)
    (dir_listing convert_md : bool) : outcome (server * bool) :=
  target ← static_path prefix (path r);
  match target with
  | None => Ret (s, false)
  | Some path =>
      let tmp_len := zlen dir + zlen path in
      if 1024 <=? tmp_len then
        s ← http_server_set_status malloc s h 500;
        s ← http_server_send_response malloc s h;
        Ret (s, true)
      else
        tmp ← join dir path;
        md ← (if convert_md then is_markdown tmp tmp_len else Ret false);
        '(s, replied) ← (if md : bool then send_file_md s h (c_str tmp) else send_file s h (c_str tmp) None);
        '(s, replied) ← (if negb replied && dir_listing then send_dir_listing s h dir prefix path else Ret (s, replied));
        if negb replied then
          s ← http_server_set_status malloc s h 404;
          s ← http_server_send_response malloc s h;
          Ret (s, true)
        else Ret (s, true)
  end.
End static.
