(* ===== verification/HttpStaticReply.v ===== *)
(** What [HttpStatic] answers: which file a path stands for, the page that is
    sent for it, and that the response carries this page; and where the code
    fails to. *)
From S2P Require Import Prelude Sockets HttpParse HttpPath HttpServer HttpConn HttpServe HttpReply HttpLoop HttpStatic.
#[global] Open Scope Z_scope.

(** ** The path *)

Definition strip (p x : list Z) : option (list Z) :=
  if bool_decide (take (length p) x = p) then Some (drop (length p) x) else None.

(** What is left of a path behind the prefix, for a path that resolves to
    something below it. *)
Definition static_target (prefix : option (list Z)) (l : list Z) : option (list Z) :=
  match resolve MAX_COMPS false (components l) [] with
  | None => None
  | Some comps => if zlen (render comps) <? 1024 then strip (default [] prefix) (render comps) else None
  end.

Lemma strip_Some p x rest : strip p x = Some rest → x = p ++ rest.
Proof. unfold strip. case_bool_decide as Hp; [|done]. intros [= <-]. by rewrite <-Hp at 1; rewrite take_drop. Qed.

Lemma static_target_clean prefix l rest :
  static_target prefix l = Some rest →
  ∃ comps, Forall (clean false) comps ∧ default [] prefix ++ rest = render comps ∧
    zlen (default [] prefix ++ rest) < 1024.
Proof.
  unfold static_target. destruct (resolve _ _ _ _) as [comps|] eqn:Hres; [|done].
  destruct (Z.ltb_spec (zlen (render comps)) 1024); [|done]. intros Hs%strip_Some.
  destruct (resolve_clean _ _ _ _ _ Hres) as [Hclean _]; [done|done|]. exists comps. by rewrite <-Hs.
Qed.

Lemma render_chars comps : Forall (clean false) comps → Forall (λ c, c ≠ 0) (render comps).
Proof.
  induction 1 as [|c comps (_ & _ & _ & Hc) _ IH]; [constructor|]. change (render (c :: comps)) with (PATH_SEP :: c ++ render comps).
  constructor; [done|]. apply Forall_app. split; [|done]. eapply Forall_impl; [exact Hc|]. by intros x Hx ->.
Qed.

(** A request for text [l] in its place. *)
Lemma static_path_ok env prefix path l post :
  zlen (default [] prefix) < 1024 → zlen (scratch env) = 1024 →
  drop (Z.to_nat (off path)) (base path) = l ++ post → HttpParse.size path = zlen l →
  static_path env prefix path = Ret (static_target prefix l).
Proof.
  intros Hpre Hscr Htext Hsize. unfold static_path, static_target. cbv zeta. rewrite Htext, Hsize.
  destruct (Z.ltb_spec (zlen (default [] prefix)) 1024); [|lia]. cbn [c_assert mbind outcome_bind].
  pose proof (sanitize_path_ok l post (scratch env) 1024 ltac:(lia)) as Hs.
  destruct (sanitize_path _ _ _ _) as [[mem n]|]; [|done]. cbn [wp] in Hs. cbn [mbind outcome_bind].
  destruct (resolve _ _ _ _) as [comps|]; [|destruct Hs as [-> _]; by rewrite Z.eqb_refl].
  destruct (Z.ltb_spec (zlen (render comps)) 1024) as [Hfit|]; [|destruct Hs as [-> _]; by rewrite Z.eqb_refl].
  destruct Hs as (-> & _ & rest & ->). set (x := render comps) in *. set (p := default [] prefix) in *.
  pose proof (zlen_nonneg x). pose proof (zlen_nonneg p). unfold SIZE_MAX.
  destruct (Z.eqb_spec (zlen x) (2 ^ 64 - 1)); [lia|].
  assert (∀ k, zlen p ≤ k ≤ zlen x → rd_range (x ++ 0 :: rest) (zlen p) (k - zlen p) =
    Ret (take (Z.to_nat (k - zlen p)) (drop (length p) x))) as Hrd.
  { intros k Hk. assert (length p ≤ length x)%nat by (unfold zlen in *; lia).
    rewrite <-(take_drop (length p) x) at 1. rewrite <-(take_drop (Z.to_nat (k - zlen p)) (drop (length p) x)) at 1.
    rewrite <-!app_assoc. apply rd_range_app; unfold zlen in *; rewrite ?length_take, ?length_drop; lia. }
  unfold strip. destruct (Z.ltb_spec 0 (zlen p)) as [Hp|Hp].
  - destruct (Z.ltb_spec (zlen x) (zlen p)) as [Hlt|Hle]; cbn [mbind outcome_bind negb].
    + rewrite bool_decide_false; [done|]. intros Heq. apply (f_equal length) in Heq. rewrite length_take in Heq.
      unfold zlen in *. lia.
    + assert (length p ≤ length x)%nat by (unfold zlen in *; lia).
      assert (rd_range (x ++ 0 :: rest) 0 (zlen p) = Ret (take (length p) x)) as ->.
      { rewrite <-(take_drop (length p) x) at 1. rewrite <-app_assoc.
        apply (rd_range_app []); [done|]. unfold zlen. rewrite length_take. lia. }
      cbn [mbind outcome_bind]. case_bool_decide; cbn [negb]; [|done]. rewrite Hrd by lia.
      cbn [mbind outcome_bind]. rewrite take_ge; [done|]. rewrite length_drop. unfold zlen. lia.
  - cbn [mbind outcome_bind negb]. assert (p = []) as -> by (by apply zlen_0_inv; lia).
    change (zlen []) with 0 in *. rewrite (Hrd (zlen x)) by lia. cbn [mbind outcome_bind length take].
    rewrite bool_decide_true by done. rewrite take_ge; [done|]. rewrite length_drop. unfold zlen. lia.
Qed.

Lemma c_str_text l rest : Forall (λ c, c ≠ 0) l → c_str (l ++ 0 :: rest) = l.
Proof.
  intros Hl. unfold c_str. apply take_while_app; [|done]. eapply Forall_impl; [exact Hl|].
  intros c Hc. by destruct (Z.eqb_spec c 0).
Qed.

Lemma c_str_all l : Forall (λ c, c ≠ 0) l → c_str l = l.
Proof. induction 1 as [|c l Hc _ IH]; [done|]. unfold c_str in *. simpl. destruct (Z.eqb_spec c 0); [done|]. by rewrite IH. Qed.

Lemma join_ok env dir path :
  zlen (scratch env) = 1024 → zlen dir + zlen path < 1024 →
  ∃ rest, join env dir path = Ret (dir ++ path ++ 0 :: rest).
Proof.
  intros Hscr Hlt. pose proof (zlen_nonneg dir). pose proof (zlen_nonneg path). unfold join.
  pose proof (wr_range_over [] (scratch env) dir) as Hw. change (zlen []) with 0 in Hw.
  rewrite over_nil in Hw. rewrite Hw by lia. cbn [mbind outcome_bind app].
  rewrite wr_range_over by lia. cbn [mbind outcome_bind]. rewrite <-zlen_app, wr_over by (rewrite zlen_app; lia).
  unfold over. rewrite <-!app_assoc. by eexists.
Qed.

(** ** Reading a file *)

(** What reading finds up to the end, and whether it ends with a failure. *)
Fixpoint until_empty (l : list (list Z)) : list Z :=
  match l with [] => [] | p :: l => if bool_decide (p = []) then [] else p ++ until_empty l end.

Definition file_content (a : arrival) : list Z := until_empty (pieces a).

Definition read_fails (a : arrival) : bool := forallb (λ p, negb (bool_decide (p = []))) (pieces a) && input_broken a.

Lemma recv_file a room :
  0 < room →
  match recv a room with
  | (None, a') => file_content a = [] ∧ read_fails a = input_broken a'
  | (Some p, a') =>
      if bool_decide (p = []) then file_content a = [] ∧ read_fails a = false
      else file_content a = p ++ file_content a' ∧ read_fails a = read_fails a' ∧ zlen p ≤ room ∧
           (recv_measure a' < recv_measure a)%nat
  end.
Proof.
  intros Hroom. destruct (recv a room) as [[p|] a'] eqn:Hr; cycle 1.
  { unfold recv in Hr. unfold file_content, read_fails. destruct (pieces a); [|done]. by injection Hr as <-. }
  pose proof (recv_ok _ _ _ _ Hroom Hr) as (Hp & _ & _ & Hm). revert Hr. unfold recv, file_content, read_fails.
  destruct (pieces a) as [|q l]; [done|]. intros [= <- <-]. cbn [until_empty forallb pieces input_broken] in *.
  set (left := drop (Z.to_nat room) q) in *. pose proof (take_drop (Z.to_nat room) q) as Hq. fold left in Hq.
  destruct (decide (take (Z.to_nat room) q = [])) as [Htake|Htake].
  - rewrite (bool_decide_true (take _ _ = [])) by done.
    rewrite bool_decide_true; [done|]. destruct q as [|x q]; [done|]. exfalso.
    destruct (Z.to_nat room) eqn:Hn; [lia|done].
  - rewrite (bool_decide_false (take _ _ = [])) by done.
    rewrite (bool_decide_false (q = [])) by (intros ->; apply Htake, take_nil).
    destruct (decide (left = [])) as [Hleft|Hleft].
    + rewrite (bool_decide_true (left = [])) in * by done. cbn [until_empty forallb negb andb].
      rewrite Hleft, app_nil_r in Hq. by rewrite Hq in *.
    + rewrite (bool_decide_false (left = [])) in * by done. cbn [until_empty forallb negb andb].
      rewrite !(bool_decide_false (left = [])) by done. cbn [negb andb]. by rewrite app_assoc, Hq.
Qed.

Lemma recv_file_nil (p : list Z) : (zlen p =? 0) = bool_decide (p = []).
Proof. by destruct p. Qed.

(** [send_file] sends it chunk by chunk. *)
Lemma appends_file malloc h ci c0 lines a :
  malloc_ok malloc →
  appends malloc h ci c0 lines (λ s, loop (recv_fuel a) (send_chunk malloc h) (s, a)) (file_content a).
Proof.
  intros Hm. assert (recv_measure a < recv_fuel a)%nat as Hfuel by (unfold recv_fuel, recv_measure; lia).
  revert Hfuel. generalize (recv_fuel a). intros fuel. revert a. induction fuel as [|fuel IH]; intros a Hfuel; [lia|].
  intros N s body HN Hb. rewrite loop_unfold.
  assert (send_chunk malloc h (s, a) = match recv a 8192 with
    | (None, _) => break s
    | (Some p, a') => if zlen p =? 0 then break s
        else s ← http_server_append_content malloc s h p; continue (s, a')
    end) as -> by done.
  pose proof (recv_file a 8192 ltac:(lia)) as Hrecv. destruct (recv a 8192) as [[p|] a'].
  - rewrite recv_file_nil. case_bool_decide as Hp.
    + destruct Hrecv as [-> _]. cbn [break mbind outcome_bind wp]. by rewrite app_nil_r.
    + destruct Hrecv as (Hfc & _ & Hlen & Hmeas). rewrite Hfc, zlen_app in *. rewrite app_assoc.
      pose proof (zlen_nonneg (file_content a')). pose proof (zlen_nonneg p).
      pose proof (appends_content malloc h ci c0 lines Hm p ltac:(lia) N s body ltac:(lia) Hb) as Happ.
      destruct (http_server_append_content malloc s h p) as [s1|]; [|done].
      apply (IH a' ltac:(lia) N s1 _); [rewrite zlen_app; lia|exact Happ].
  - destruct Hrecv as [-> _]. cbn [break mbind outcome_bind wp]. by rewrite app_nil_r.
Qed.

(** [send_file_md] collects what is smaller than its buffer. *)
Lemma read_small malloc env block a :
  zlen block = 1024 → zlen (file_content a) < 1024 →
  wp (loop (recv_fuel a) (read_step malloc env) (Some block, 0, a)) (λ '(b, size, fail),
    b = Some (over (file_content a) block) ∧ size = zlen (file_content a) ∧ fail = read_fails a).
Proof.
  intros Hblock Hsmall.
  apply (wp_loop (λ '(b, size, a'), ∃ got, b = Some (over got block) ∧ size = zlen got ∧
           file_content a = got ++ file_content a' ∧ read_fails a = read_fails a')
         (λ '(_, _, a'), recv_measure a')).
  { exists []. by rewrite over_nil. }
  { unfold recv_fuel, recv_measure. lia. }
  intros [[b size] a1] (got & -> & -> & Hgot & Hfail). unfold read_step. cbv zeta.
  pose proof (zlen_nonneg got). pose proof (zlen_nonneg (file_content a1)).
  rewrite Hgot, zlen_app in Hsmall. destruct (Z.eqb_spec (zlen got) 1024); [lia|].
  destruct (Z.eqb_spec (1024 - zlen got) 0); [lia|].
  pose proof (recv_file a1 (1024 - zlen got) ltac:(lia)) as Hrecv. destruct (recv a1 _) as [[p|] a2].
  - rewrite recv_file_nil. case_bool_decide as Hp.
    + destruct Hrecv as [Hc Hf]. cbn [break wp]. rewrite Hgot, Hc, app_nil_r, Hfail, Hf. done.
    + destruct Hrecv as (Hc & Hf & Hlen & Hmeas). rewrite wr_range_over by lia. cbn [mbind outcome_bind continue wp].
      split; [|done]. exists (got ++ p). rewrite zlen_app, Hgot, Hc, Hfail, Hf. by rewrite app_assoc.
  - destruct Hrecv as [Hc Hf]. cbn [break wp]. rewrite Hgot, Hc, app_nil_r, Hfail, Hf. done.
Qed.

(** ** The page for a path *)

Record page : Type := mkPage {
  page_status : Z;
  page_headers : list (list Z);
  page_body : list Z;
}.

Definition HTML : list Z := chars "Content-Type: text/html".

Definition file_page (env : environment) (name : list Z) : option page :=
  match open_file env name with
  | NotFound => None
  | OpenFailed => Some (mkPage 500 [] [])
  | Opened (Some false) _ => None
  | Opened _ a =>
      Some (mkPage 200 (from_option (λ m, [chars "Content-Type: " ++ chars m]) [] (mimetype_from_filename name)) (file_content a))
  end.

(** What the converter puts out. *)
Definition markup_html (env : environment) (text : option (list Z)) : list Z :=
  concat ((λ x, match x with inl x => x | inr x => default [] x end) <$> smu env text).

Definition markdown_page (malloc : allocator) (env : environment) (name : list Z) : option page :=
  match open_file env name with
  | NotFound => None
  | OpenFailed => Some (mkPage 500 [] [])
  | Opened (Some false) _ => None
  | Opened _ a =>
      match malloc 1024 with
      | None => Some (mkPage 200 [HTML] (markup_html env None))
      | Some _ => if read_fails a then Some (mkPage 500 [] [])
                  else Some (mkPage 200 [HTML] (markup_html env (Some (file_content a))))
      end
  end.

Definition listing_page (env : environment) (dir prefix path : list Z) : option page :=
  match open_dir env (dir ++ path) with
  | NoDirectory => None
  | DirectoryFailed => Some (mkPage 500 [] [])
  | Entries names =>
      Some (mkPage 200 [] (listing_head prefix ++
        concat (listing_entry prefix path <$> filter (λ n, n ≠ DOT ∧ n ≠ DOTDOT) names) ++ listing_tail))
  end.

Definition ends_in_md (name : list Z) : bool :=
  (3 <? zlen name) && bool_decide (drop (length name - 3) name = chars ".md").

(** A file, else the listing, else nothing is found. *)
Definition static_page (malloc : allocator) (env : environment) (dir prefix : list Z) (dir_listing convert_md : bool)
    (path : list Z) : page :=
  if 1024 <=? zlen dir + zlen path then mkPage 500 [] []
  else
    let name := dir ++ path in
    match (if convert_md && ends_in_md name then markdown_page malloc env name else file_page env name) with
    | Some p => p
    | None =>
        match (if dir_listing then listing_page env dir prefix path else None) with
        | Some p => p
        | None => mkPage 404 [] []
        end
    end.

(** The documented behaviour of the environment: the arrays have 1024
    characters, the converter puts out formats that can be printed, a name in
    a directory is shorter than 256, and a string of content is content. *)
Record environment_ok (malloc : allocator) (env : environment) : Prop := mkEnvironmentOk {
  en_scratch : zlen (scratch env) = 1024;
  en_markup : ∀ text x, x ∈ smu env text →
    match x with inl x => zlen x < 2 ^ 62 | inr None => False | inr (Some x) => zlen x < 2 ^ 61 end;
  en_names : ∀ d names, open_dir env d = Entries names → Forall (λ n, zlen n < 256) names;
  en_string : ∀ s h x, append_content_string env s h x = http_server_append_content malloc s h x;
}.

(** The response to the request of [c0] carries the page. *)
Definition shows (malloc : allocator) (c0 : client) (rest : list Z) (p : page) (c : client) : Prop :=
  ∃ kept, keeps_headers malloc (reply_bytes c0 (page_headers p) (page_body p)) (page_headers p) kept ∧
    answered c0 (status_line (minor c0) (page_status p) ++ header_lines kept) (page_body p) rest c.

(** It was sent, or for want of memory the connection was closed. *)
Definition sent_page (malloc : allocator) (s : server) (h ci : Z) (c0 : client) (rest : list Z) (p : page) : Prop :=
  ended malloc (reply_bytes c0 (page_headers p) (page_body p)) s h ci (shows malloc c0 rest p).

Section pages.
Context (malloc : allocator) (env : environment) (s : server) (h ci : Z) (c0 : client) (req rest : list Z).
Hypotheses (Hm : malloc_ok malloc) (Henv : environment_ok malloc env) (Ha : active s h ci c0)
  (Hst : state c0 = C_STATUS) (Hreq : bytes (input c0) = req ++ rest) (Hlen : request_length c0 = zlen req).

(** A call that answers with the page, or leaves the request alone. *)
Definition sends (m : outcome (server * bool)) (p : option page) : Prop :=
  wp m (λ '(s', replied), match p with
    | None => replied = false ∧ s' = s
    | Some p => replied = true ∧ sent_page malloc s' h ci c0 rest p
    end).

Lemma reply_sends st hs fill body m :
  Forall (λ x, Forall is_char x ∧ zlen x < 2 ^ 62) hs →
  (∀ lines, appends malloc h ci c0 lines fill body) →
  m = (s' ← reply_with malloc s h st hs fill; Ret (s', true)) →
  sends m (Some (mkPage st hs body)).
Proof.
  intros Hhs Hfill ->. unfold sends. apply wp_bind. eapply wp_mono; [by eapply reply_with_ok|].
  intros s' Hs'. by split.
Qed.

Lemma status_sends st :
  sends (s1 ← http_server_set_status malloc s h st; s1 ← http_server_send_response malloc s1 h; Ret (s1, true))
    (Some (mkPage st [] [])).
Proof.
  apply (reply_sends st [] Ret); [constructor|intros; apply appends_nothing|].
  unfold reply_with. cbn [for_all]. by destruct (http_server_set_status malloc s h st).
Qed.

Lemma HTML_ok : Forall (λ x, Forall is_char x ∧ zlen x < 2 ^ 62) [HTML].
Proof. constructor; [|done]. split; [apply chars_is_char|done]. Qed.

Lemma mime_in_short table name m :
  Forall (λ e, zlen (chars e.1) < 100) table → mime_in table name = Some m → zlen (chars m) < 100.
Proof.
  induction 1 as [|[m' ext] table Hm' _ IH]; [done|]. simpl. destruct (_ && _); [|done]. by intros [= <-].
Qed.

Lemma mime_header_ok name :
  Forall (λ x, Forall is_char x ∧ zlen x < 1024)
    (from_option (λ m, [chars "Content-Type: " ++ chars m]) [] (mimetype_from_filename name)).
Proof.
  destruct (mimetype_from_filename name) as [m|] eqn:Hmime; [|constructor]. constructor; [|constructor].
  split; [apply Forall_app; split; apply chars_is_char|]. apply mime_in_short in Hmime; [|by repeat constructor].
  rewrite zlen_app. change (zlen (chars "Content-Type: ")) with 14. lia.
Qed.

(** The header goes through the function for formats. *)
Lemma mime_header_eq s1 name :
  match mimetype_from_filename name with
  | None => Ret s1
  | Some m => http_server_append_header_format malloc s1 h (Some (chars "Content-Type: " ++ chars m))
  end = for_all (λ s x, http_server_append_header malloc s h x) s1
          (from_option (λ m, [chars "Content-Type: " ++ chars m]) [] (mimetype_from_filename name)).
Proof.
  pose proof (mime_header_ok name) as Hmime. destruct (mimetype_from_filename name) as [m|]; [|done].
  apply Forall_inv in Hmime as [_ Hshort]. cbn [from_option for_all]. unfold http_server_append_header_format.
  destruct (Z.leb_spec 1024 (zlen (chars "Content-Type: " ++ chars m))); [lia|].
  by destruct (http_server_append_header _ _ _ _).
Qed.

Lemma send_file_ok name : sends (send_file malloc env s h name None) (file_page env name).
Proof.
  unfold send_file, file_page. destruct (open_file env name) as [| |regular a]; [done|apply status_sends|].
  assert (sends (s ← http_server_set_status malloc s h 200;
     s ← match mimetype_from_filename name with
         | None => Ret s
         | Some m => http_server_append_header_format malloc s h (Some (chars "Content-Type: " ++ chars m))
         end;
     s ← loop (recv_fuel a) (send_chunk malloc h) (s, a);
     s ← http_server_send_response malloc s h; Ret (s, true))
    (Some (mkPage 200 (from_option (λ m, [chars "Content-Type: " ++ chars m]) [] (mimetype_from_filename name)) (file_content a)))) as Hsend.
  { apply (reply_sends _ _ (λ s, loop (recv_fuel a) (send_chunk malloc h) (s, a))); [|intros; by apply appends_file|].
    - eapply Forall_impl; [apply mime_header_ok|]. intros x [??]. split; [done|lia].
    - unfold reply_with. destruct (http_server_set_status malloc s h 200) as [s1|]; [|done]. cbn [mbind outcome_bind].
      rewrite mime_header_eq. destruct (for_all _ _ _) as [s2|]; [|done]. cbn [mbind outcome_bind]. by destruct (loop _ _ _). }
  by destruct regular as [[]|].
Qed.

Lemma appends_markup lines text :
  appends malloc h ci c0 lines (λ s, append_markup_as_html malloc env s h text) (markup_html env text).
Proof.
  unfold append_markup_as_html, markup_html. pose proof (en_markup _ _ Henv text) as Hok.
  induction (smu env text) as [|x l IH]; cbn [append_pieces fmap list_fmap concat]; [apply appends_nothing|].
  pose proof (Hok x ltac:(left)) as Hx.
  destruct x as [x|[x|]]; [| |done]; (apply appends_seq; [|apply IH; intros; apply Hok; by right]).
  - by apply appends_content.
  - by apply appends_format.
Qed.

Lemma markup_sends text m :
  m = (s1 ← http_server_set_status malloc s h 200;
       s1 ← http_server_append_header malloc s1 h HTML;
       s1 ← append_markup_as_html malloc env s1 h text;
       s1 ← http_server_send_response malloc s1 h; Ret (s1, true)) →
  sends m (Some (mkPage 200 [HTML] (markup_html env text))).
Proof.
  intros ->. apply (reply_sends _ _ (λ s, append_markup_as_html malloc env s h text));
    [apply HTML_ok|intros; apply appends_markup|].
  unfold reply_with. destruct (http_server_set_status malloc s h 200) as [s1|]; [|done].
  cbn [for_all mbind outcome_bind]. destruct (http_server_append_header _ _ _ _) as [s2|]; [|done].
  cbn [mbind outcome_bind]. by destruct (append_markup_as_html _ _ _ _ _).
Qed.

Lemma send_file_md_ok name :
  (∀ regular a, open_file env name = Opened regular a → zlen (file_content a) < 1024) →
  sends (send_file_md malloc env s h name) (markdown_page malloc env name).
Proof.
  intros Hsmall. unfold send_file_md, markdown_page.
  destruct (open_file env name) as [| |regular a]; [done|apply status_sends|]. specialize (Hsmall regular a eq_refl).
  destruct (is_file regular =? 0) eqn:Hfile; [by destruct regular as [[]|]|].
  enough (sends (match malloc 1024 with
        | None => _
        | Some buffer => _
        end) (match malloc 1024 with
      | None => Some (mkPage 200 [HTML] (markup_html env None))
      | Some _ => if read_fails a then Some (mkPage 500 [] [])
                  else Some (mkPage 200 [HTML] (markup_html env (Some (file_content a))))
      end)) as Hmd by (destruct regular as [[]|]; [exact Hmd|done|exact Hmd]).
  destruct (malloc 1024) as [block|] eqn:Hblock; [|by apply markup_sends].
  destruct (Hm _ _ Hblock) as [Hb _]. pose proof (read_small malloc env block a Hb Hsmall) as Hread.
  destruct (loop _ _ _) as [[[b size] fail]|]; [|done]. destruct Hread as (-> & -> & ->). cbn [mbind outcome_bind].
  rewrite rd_range_over. cbn [mbind outcome_bind]. destruct (read_fails a).
  - pose proof (status_sends 500) as Hs. revert Hs. by destruct (http_server_set_status malloc s h 500).
  - apply markup_sends. destruct (http_server_set_status malloc s h 200) as [s1|]; [|done].
    cbn [mbind outcome_bind]. destruct (http_server_append_header _ _ _ _) as [s2|]; [|done].
    cbn [mbind outcome_bind]. by destruct (append_markup_as_html _ _ _ _ _).
Qed.

(** ** Listings *)

Lemma listing_head_short prefix : zlen (listing_head prefix) ≤ zlen prefix + 200.
Proof. unfold listing_head. rewrite !zlen_app. zlen_literals. lia. Qed.

Lemma c_str_short l : zlen (c_str l) ≤ zlen l.
Proof.
  unfold c_str. rewrite <-(take_drop_while (λ c, negb (c =? 0)) l) at 2. rewrite zlen_app.
  pose proof (zlen_nonneg (drop_while (λ c, negb (c =? 0)) l)). lia.
Qed.

Lemma listing_entry_short prefix path name :
  zlen (listing_entry prefix path name) ≤ zlen prefix + zlen path + 2 * zlen name + 30.
Proof.
  unfold listing_entry. rewrite !zlen_app. pose proof (c_str_short path).
  zlen_literals. lia.
Qed.

Lemma appends_entries lines prefix path names :
  zlen prefix < 1024 → zlen path < 1024 → Forall (λ n, zlen n < 256) names →
  appends malloc h ci c0 lines (λ s, append_entries malloc s h (Some prefix) path names)
    (concat (listing_entry prefix path <$> filter (λ n, n ≠ DOT ∧ n ≠ DOTDOT) names)).
Proof.
  intros Hp Hpath. induction 1 as [|n names Hn _ IH]; cbn [append_entries]; [apply appends_nothing|].
  rewrite filter_cons. destruct (decide (n = DOT)) as [->|Hdot]; [apply IH|].
  rewrite (bool_decide_false (n = DOT)) by done.
  destruct (decide (n = DOTDOT)) as [->|Hddot]; [apply IH|]. rewrite (bool_decide_false (n = DOTDOT)) by done.
  rewrite decide_True by done. cbn [string_arg mbind outcome_bind orb fmap list_fmap concat].
  apply appends_seq; [|apply IH]. apply appends_format; [done|].
  pose proof (listing_entry_short prefix path n). lia.
Qed.

Lemma send_dir_listing_ok dir prefix path :
  zlen dir + zlen path < 1024 → zlen prefix < 1024 → Forall (λ c, c ≠ 0) (dir ++ path) →
  sends (send_dir_listing malloc env s h dir (Some prefix) path) (listing_page env dir prefix path).
Proof.
  intros Hfit Hprefix Hname. unfold send_dir_listing, listing_page. destruct (Z.leb_spec 1024 (zlen dir + zlen path)); [lia|].
  destruct (join_ok env dir path) as [x ->]; [apply Henv|lia|]. cbn [mbind outcome_bind].
  rewrite app_assoc, c_str_text by done.
  destruct (open_dir env (dir ++ path)) as [| |names] eqn:Hd; [done|apply status_sends|].
  pose proof (zlen_nonneg dir). pose proof (zlen_nonneg prefix). apply (reply_sends _ _ (λ s,
    s ← http_server_append_content_format_2 malloc s h (Some (listing_head prefix));
    s ← append_entries malloc s h (Some prefix) path names;
    http_server_append_content malloc s h listing_tail)).
  - constructor.
  - intros lines. pose proof (listing_head_short prefix). apply appends_seq; [apply appends_format; [done|lia]|].
    apply appends_seq; [|by apply appends_content]. apply appends_entries; [done|lia|by eapply en_names].
  - unfold reply_with. destruct (http_server_set_status malloc s h 200) as [s1|]; [|done].
    cbn [for_all string_arg mbind outcome_bind]. destruct (http_server_append_content_format_2 _ _ _ _) as [s2|]; [|done].
    cbn [mbind outcome_bind]. destruct (append_entries _ _ _ _ _ _) as [s3|]; [|done]. cbn [mbind outcome_bind].
    rewrite (en_string _ _ Henv). by destruct (http_server_append_content _ _ _ _).
Qed.

(** ** Requests *)

Lemma is_markdown_ok name x : is_markdown (name ++ 0 :: x) (zlen name) = Ret (ends_in_md name).
Proof.
  unfold is_markdown, ends_in_md. destruct (Z.ltb_spec 3 (zlen name)) as [Hlt|]; [|done]. cbn [negb andb].
  assert (∃ pre a b c, name = pre ++ [a; b; c]) as (pre & a & b & c & ->).
  { pose proof (take_drop (length name - 3) name) as Hsplit.
    destruct (drop (length name - 3) name) as [|a [|b [|c [|d l]]]] eqn:Hd; apply (f_equal length) in Hd;
      rewrite length_drop in Hd; unfold zlen in Hlt; simpl in Hd; try lia. by exists (take (length name - 3) name), a, b, c. }
  assert (drop (length (pre ++ [a; b; c]) - 3) (pre ++ [a; b; c]) = [a; b; c]) as ->.
  { rewrite length_app. simpl. replace (length pre + 3 - 3)%nat with (length pre) by lia. apply drop_app_length. }
  rewrite zlen_app. change (zlen [a; b; c]) with 3. rewrite <-app_assoc. cbn [app].
  rewrite !rd_app_r by lia. replace (zlen pre + 3 - 3 - zlen pre) with 0 by lia.
  replace (zlen pre + 3 - 2 - zlen pre) with 1 by lia. replace (zlen pre + 3 - 1 - zlen pre) with 2 by lia.
  change (rd _ 0) with (Ret a). change (rd _ 1) with (Ret b). change (rd _ 2) with (Ret c).
  cbn [mbind outcome_bind]. f_equal.
  change (chars ".md") with [c_dot; 109; 100].
  destruct (Z.eqb_spec a c_dot) as [->|], (Z.eqb_spec b 109) as [->|], (Z.eqb_spec c 100) as [->|];
    first [by rewrite bool_decide_true|rewrite bool_decide_false by congruence; by rewrite ?andb_false_r].
Qed.

Lemma serve_static_dir_ok dir prefix r l post dir_listing convert_md :
  Forall (λ c, c ≠ 0) dir → zlen (default [] prefix) < 1024 → (dir_listing = true → is_Some prefix) →
  drop (Z.to_nat (off (path r))) (base (path r)) = l ++ post → HttpParse.size (path r) = zlen l →
  (convert_md = true → ∀ path regular a, static_target prefix l = Some path →
     open_file env (dir ++ path) = Opened regular a → zlen (file_content a) < 1024) →
  sends (serve_static_dir malloc env dir prefix s r h dir_listing convert_md)
    (static_page malloc env dir (default [] prefix) dir_listing convert_md <$> static_target prefix l).
Proof.
  intros Hdir Hprefix Hlisting Htext Hsize Hsmall. unfold serve_static_dir.
  rewrite (static_path_ok env prefix (path r) l post) by (done || apply Henv). cbn [mbind outcome_bind].
  destruct (static_target prefix l) as [x|] eqn:Htarget; cbn [fmap option_fmap option_map]; [|done].
  destruct (static_target_clean _ _ _ Htarget) as (comps & Hclean & Hrender & Hfit).
  unfold static_page. destruct (Z.leb_spec 1024 (zlen dir + zlen x)) as [|Hlt]; [apply status_sends|].
  destruct (join_ok env dir x) as [y ->]; [apply Henv|lia|]. cbn [mbind outcome_bind].
  rewrite app_assoc, <-zlen_app, is_markdown_ok.
  assert (Forall (λ c, c ≠ 0) (dir ++ x)) as Hname.
  { apply Forall_app. split; [done|]. apply render_chars in Hclean. rewrite <-Hrender in Hclean.
    by apply Forall_app in Hclean as [_ ?]. }
  rewrite c_str_text by done.
  assert (sends (md ← (if convert_md then Ret (ends_in_md (dir ++ x)) else Ret false);
      if md : bool then send_file_md malloc env s h (dir ++ x) else send_file malloc env s h (dir ++ x) None)
    (if convert_md && ends_in_md (dir ++ x) then markdown_page malloc env (dir ++ x) else file_page env (dir ++ x))) as Hfile.
  { destruct convert_md; cbn [mbind outcome_bind andb]; [|apply send_file_ok].
    destruct (ends_in_md _); [|apply send_file_ok]. apply send_file_md_ok. intros. by eapply Hsmall. }
  destruct (if convert_md then Ret (ends_in_md (dir ++ x)) else Ret false) as [md|]; [|done].
  cbn [mbind outcome_bind] in Hfile |- *. unfold sends in Hfile.
  destruct (if md then _ else _) as [[s1 replied]|]; [|done]. cbn [mbind outcome_bind wp] in Hfile |- *.
  destruct (if convert_md && _ then _ else _) as [p|]; destruct Hfile as [-> Hend]; cbn [negb andb].
  { split; done. }
  subst s1. destruct dir_listing; cbn [andb]; [|apply status_sends].
  destruct (Hlisting eq_refl) as [px ->]. cbn [default] in *. rewrite zlen_app in Hfit. pose proof (zlen_nonneg px).
  pose proof (send_dir_listing_ok dir px x Hlt Hprefix Hname) as Hlist. unfold sends in Hlist.
  destruct (send_dir_listing _ _ _ _ _ _ _) as [[s2 replied]|]; [|done]. cbn [mbind outcome_bind wp] in Hlist |- *.
  destruct (listing_page _ _ _ _) as [p|]; destruct Hlist as [-> Hend2]; cbn [negb]; [split; done|].
  subst s2. apply status_sends.
Qed.
End pages.


(** ** An example *)

Definition example_names (d : list Z) : directory :=
  if bool_decide (d = chars "/srv/sub") then Entries [DOT; DOTDOT; chars "b.txt"] else NoDirectory.

(** Files with a text, with a long text, and with one that is Markdown. *)
Definition example_files (name : list Z) : opened :=
  if bool_decide (name = chars "/srv/a.txt") then Opened (Some true) (mkArrival [chars "hel"; chars "lo"] false)
  else if bool_decide (name = chars "/srv/a.md") then Opened (Some true) (mkArrival [chars "*hello*"] false)
  else if bool_decide (name = chars "/srv/long.md") then Opened (Some true) (mkArrival [replicate 1500 c_0] false)
  else if bool_decide (name = chars "/srv-private/key") then Opened (Some true) (mkArrival [chars "secret"] false)
  else if bool_decide (name = chars "/srv/sub") then Opened (Some false) (mkArrival [] true)
  else NotFound.

(** A converter that puts the text into a paragraph. *)
Definition example_markup (text : option (list Z)) : list (list Z + option (list Z)) :=
  [inl (chars "<p>"); inr (Some (default [] (take 4000 <$> text))); inl (chars "</p>")].

Definition example_env (moves : bool) : environment :=
  mkEnvironment example_files example_names example_markup moves (http_server_append_content example_malloc) (replicate 1024 7).

Lemma example_env_ok moves : environment_ok example_malloc (example_env moves).
Proof.
  split; [done| | |done].
  - intros text x Hx. change (x ∈ example_markup text) in Hx. unfold example_markup in Hx. rewrite !elem_of_cons in Hx.
    destruct Hx as [->|[->|[->|Hx]]]; [done| |done|by apply not_elem_of_nil in Hx].
    destruct text as [text|]; [|done]. change (zlen (take 4000 text) < 2 ^ 61). unfold zlen. rewrite length_take. lia.
  - intros d names. cbn [open_dir example_env]. unfold example_names. case_bool_decide; [|done]. intros [= <-]. by repeat constructor.
Qed.

(** A request for a path. *)
Definition ask (path : string) : request := mkRequest M_GET (mkSlice (chars path) 0 (zlen (chars path))) 1 1 [].

Definition serve (moves : bool) (prefix : option string) (path : string) (s : server) : outcome (server * bool) :=
  serve_static_dir example_malloc (example_env moves) (chars "/srv") (chars <$> prefix) s (ask path) 0 true true.


(** ** Where it fails *)

(** What the connection gets. *)
Definition replied_with (m : outcome (server * bool)) : outcome (bool * list Z) :=
  '(s, replied) ← m; Ret (replied, bytes (output (example_client s 0))).

Definition headers_then (type body : list Z) : list Z :=
  status_line 1 200 ++ type ++ connection_line 1 true ++ chars "Content-Length: " ++ length_field (zlen body) ++ CRLF2 ++ body.

(** The prefix is not compared up to the end of a component: with the prefix
    "/static" for "/srv", a request can read the files of "/srv-private". *)
Lemma prefix_splits_component :
  replied_with (serve true (Some "/static"%string) "/static-private/key" example_asked) =
  Ret (true, headers_then [] (chars "secret")).
Proof. by vm_compute. Qed.

(** Markdown of 1024 characters or more: the block that [realloc] gives is not
    kept, and the text is read where it was before; if it did not move, the
    rest of the file is left out. *)
Lemma long_markdown_use_after_free : serve true None "/long.md" example_asked = Fail OutOfBounds.
Proof. by vm_compute. Qed.

Lemma long_markdown_truncated :
  replied_with (serve false None "/long.md" example_asked) =
  Ret (true, headers_then (HTML ++ [CR; LF]) (chars "<p>" ++ replicate 1024 c_0 ++ chars "</p>")).
Proof. by vm_compute. Qed.

(** Without a prefix, which the rest of the function allows, a listing prints
    NULL. *)
Lemma listing_needs_prefix : serve true None "/sub" example_asked = Fail Undefined.
Proof. by vm_compute. Qed.

(** The links of a listing have a slash too many in front of the path, and none
    behind it. *)
Lemma listing_links_broken :
  replied_with (serve true (Some "/static"%string) "/static/sub" example_asked) =
  Ret (true, headers_then [] (listing_head (chars "/static") ++
    chars "<li><a href=" ++ [quote] ++ chars "/static//subb.txt" ++ [quote] ++ chars ">b.txt</a></li>" ++ [LF] ++ listing_tail)).
Proof. by vm_compute. Qed.
