(* ===== verification/Io.v ===== *)
(** The code of [src/asyncio/io.c] and [io.h]: files and sockets behind 32-bit
    handles, whose operations run in the background and are reported as
    events; on Linux through the rings of io_uring, on Windows through a
    completion port.  A pointer to a resource or an operation is its index.
    What the system answers is an argument of each function, and what it is
    asked for besides is kept in a log. *)
From S2P Require Import Prelude.
#[global] Open Scope Z_scope.

(** The two sides of the conditional compilation. *)
Inductive platform : Set := WINDOWS | LINUX.

#[global] Instance platform_eq_dec : EqDecision platform.
Proof. solve_decision. Defined.

(** ** Data *)

Definition IO_INVALID : Z := UINT32_MAX.

Inductive io_optype : Set := IO_VOID | IO_RECV | IO_SEND | IO_ACCEPT.
Inductive io_evtype : Set := IO_ERROR | IO_ABORT | IO_COMPLETE.
Inductive io_restype : Set := IO_RES_VOID | IO_RES_FILE | IO_RES_SOCKET.

#[global] Instance io_optype_eq_dec : EqDecision io_optype.
Proof. solve_decision. Defined.
#[global] Instance io_restype_eq_dec : EqDecision io_restype.
Proof. solve_decision. Defined.

(** [op_accepted] is only there on Windows. *)
Record io_operation : Type := mkOp {
  op_type : io_optype;
  op_res : option Z;
  op_user : Z;
  op_accepted : Z;
}.

(** The member [num] of the union is [accepted] for [IO_ACCEPT]. *)
Record io_event : Type := mkEvent {
  ev_evtype : io_evtype;
  ev_optype : io_optype;
  ev_handle : Z;
  ev_user : Z;
  ev_num : Z;
}.

(** A callback is named by a number; [acceptfn] is only there on Windows,
    [None] where it was not set. *)
Record io_resource : Type := mkRes {
  r_type : io_restype;
  r_os_handle : Z;
  r_pending : Z;
  r_gen : Z;
  r_callback : option Z;
  r_acceptfn : option Z;
}.

Inductive uring_opcode : Set := IORING_OP_READ | IORING_OP_WRITE | IORING_OP_ACCEPT.

(** The fields that are not left zero; [sqe_user_data] is the pointer to an
    operation. *)
Record io_uring_sqe : Type := mkSqe {
  sqe_opcode : uring_opcode;
  sqe_fd : Z;
  sqe_addr : Z;
  sqe_len : Z;
  sqe_user_data : Z;
}.

Record io_uring_cqe : Type := mkCqe {
  cqe_user_data : Z;
  cqe_res : Z;
}.

Record io_submission_queue : Type := mkSubmissions {
  sq_head : Z;
  sq_tail : Z;
  sq_mask : Z;
  sq_limit : Z;
  sq_array : list Z;
  sq_entries : list io_uring_sqe;
}.

Record io_completion_queue : Type := mkCompletions {
  cq_head : Z;
  cq_tail : Z;
  cq_mask : Z;
  cq_limit : Z;
  cq_entries : list io_uring_cqe;
}.

(** What the system was asked for, apart from the operations of io_uring. *)
Inductive request : Type :=
  | Open (file : list Z) (flags : Z)
  | Socket (fd : Z)
  | Read (os_handle addr len op : Z)
  | Accept (os_handle fd op : Z)
  | Close (os_handle : Z).

(** The rings are only there on Linux. *)
Record io_context : Type := mkContext {
  ioc_os_handle : Z;
  max_res : Z;
  max_ops : Z;
  res : list io_resource;
  ops : list io_operation;
  submissions : io_submission_queue;
  completions : io_completion_queue;
  log : list request;
}.

Definition with_res (ioc : io_context) (x : list io_resource) : io_context :=
  mkContext (ioc_os_handle ioc) (max_res ioc) (max_ops ioc) x (ops ioc) (submissions ioc) (completions ioc) (log ioc).
Definition with_ops (ioc : io_context) (x : list io_operation) : io_context :=
  mkContext (ioc_os_handle ioc) (max_res ioc) (max_ops ioc) (res ioc) x (submissions ioc) (completions ioc) (log ioc).
Definition with_submissions (ioc : io_context) (x : io_submission_queue) : io_context :=
  mkContext (ioc_os_handle ioc) (max_res ioc) (max_ops ioc) (res ioc) (ops ioc) x (completions ioc) (log ioc).
Definition with_completions (ioc : io_context) (x : io_completion_queue) : io_context :=
  mkContext (ioc_os_handle ioc) (max_res ioc) (max_ops ioc) (res ioc) (ops ioc) (submissions ioc) x (log ioc).
Definition asks (ioc : io_context) (x : request) : io_context :=
  mkContext (ioc_os_handle ioc) (max_res ioc) (max_ops ioc) (res ioc) (ops ioc) (submissions ioc) (completions ioc)
    (log ioc ++ [x]).

Definition with_pending (r : io_resource) (x : Z) : io_resource :=
  mkRes (r_type r) (r_os_handle r) x (r_gen r) (r_callback r) (r_acceptfn r).
Definition with_type (o : io_operation) (x : io_optype) : io_operation :=
  mkOp x (op_res o) (op_user o) (op_accepted o).

Definition set_res (ioc : io_context) (r : Z) (x : io_resource) : outcome io_context :=
  l ← wr (res ioc) r x; Ret (with_res ioc l).
Definition set_op (ioc : io_context) (op : Z) (x : io_operation) : outcome io_context :=
  l ← wr (ops ioc) op x; Ret (with_ops ioc l).

(** ** What the system answers *)

(** [io_uring_enter]: its result, how many submissions it took, and the
    completions that it put into their ring. *)
Record entered : Type := mkEntered {
  e_ret : Z;
  e_taken : Z;
  e_posted : list io_uring_cqe;
}.

(** For starting an operation: that call on Linux; on Windows, the socket
    ([None] for INVALID_SOCKET), and whether ReadFile or AcceptEx worked or
    goes on. *)
Record started : Type := mkStarted {
  s_enter : entered;
  s_socket : option Z;
  s_ok : bool;
}.

(** For a wait: on Linux, the completions that were put into the ring since the
    last look at it, and [io_uring_enter]; on Windows,
    GetQueuedCompletionStatus. *)
Inductive status : Type :=
  | NoStatus
  | Failure (op : Z)
  | Success (op num : Z).

Record waited : Type := mkWaited {
  w_posted : list io_uring_cqe;
  w_enter : entered;
  w_status : status;
}.

(** What the system puts into the ring. *)
Definition post (cq : io_completion_queue) (c : io_uring_cqe) : outcome io_completion_queue :=
  l ← wr (cq_entries cq) (Z.land (cq_tail cq) (cq_mask cq)) c;
  Ret (mkCompletions (cq_head cq) (u32 (cq_tail cq + 1)) (cq_mask cq) (cq_limit cq) l).

Fixpoint post_all (cq : io_completion_queue) (l : list io_uring_cqe) : outcome io_completion_queue :=
  match l with [] => Ret cq | c :: l => cq ← post cq c; post_all cq l end.

Definition io_uring_enter (ioc : io_context) (e : entered) : outcome (io_context * Z) :=
  let sq := submissions ioc in
  let ioc := with_submissions ioc
    (mkSubmissions (u32 (sq_head sq + e_taken e)) (sq_tail sq) (sq_mask sq) (sq_limit sq) (sq_array sq) (sq_entries sq)) in
  cq ← post_all (completions ioc) (e_posted e);
  Ret (with_completions ioc cq, e_ret e).

(** ** Contexts *)

(** [INVALID_HANDLE_VALUE] is the pointer -1. *)
Definition NO_HANDLE : Z := -1.

Definition clear_res (r : io_resource) : io_resource :=
  mkRes IO_RES_VOID NO_HANDLE 0 (r_gen r) None (r_acceptfn r).

Definition with_gen (r : io_resource) (x : Z) : io_resource :=
  mkRes (r_type r) (r_os_handle r) (r_pending r) x (r_callback r) (r_acceptfn r).

(** [for (i = 0; i < n; i++) f(&l[i])] *)
Definition for_each {A} (f : A → A) (n : Z) (l : list A) : outcome (list A) :=
  loop (S (Z.to_nat n))
    (λ '(l, i), if negb (i <? n) then break l
                else x ← rd l i; l ← wr l i (f x); continue (l, u16 (i + 1)))
    (l, 0).

(** [io_uring_setup] and the calls of [mmap]: the descriptor, whether one
    mapping is enough, the mappings that work, and what they show. *)
Record uring : Type := mkUring {
  u_fd : Z;
  u_single : bool;
  u_sq_mapped : bool;
  u_cq_mapped : bool;
  u_sqes_mapped : bool;
  u_submissions : io_submission_queue;
  u_completions : io_completion_queue;
}.

Definition with_os_handle (ioc : io_context) (x : Z) : io_context :=
  mkContext x (max_res ioc) (max_ops ioc) (res ioc) (ops ioc) (submissions ioc) (completions ioc) (log ioc).

Definition io_init_linux (ioc : io_context) (u : uring) : io_context * bool :=
  if u_fd u <? 0 then (ioc, false)
  else
    let ioc := with_os_handle ioc (u_fd u) in
    if negb (u_sq_mapped u) then (ioc, false)
    else if negb (u_single u) && negb (u_cq_mapped u) then (ioc, false)
    else
      let ioc := with_submissions ioc (u_submissions u) in
      if negb (u_sqes_mapped u) then (ioc, false)
      else (with_completions ioc (u_completions u), true).

(** [None] for INVALID_HANDLE_VALUE. *)
Definition io_init_windows (ioc : io_context) (port : option Z) : io_context * bool :=
  match port with None => (ioc, false) | Some port => (with_os_handle ioc port, true) end.

Definition io_init (p : platform) (ioc : io_context) (r : list io_resource) (o : list io_operation) (nr no : Z)
    (u : uring) (port : option Z) : outcome (io_context * bool) :=
  r ← for_each (λ x, clear_res (with_gen x 0)) nr r;
  o ← for_each (λ x, with_type x IO_VOID) no o;
  let ioc := mkContext (ioc_os_handle ioc) nr no r o (submissions ioc) (completions ioc) (log ioc) in
  Ret (match p with LINUX => io_init_linux ioc u | WINDOWS => io_init_windows ioc port end).

(** ** Handles *)

Definition res_from_handle (ioc : io_context) (handle : Z) : outcome (option Z) :=
  if handle =? IO_INVALID then Ret None
  else
    let idx := Z.land handle 65535 in
    let gen := u16 (Z.shiftr handle 16) in
    if max_res ioc <=? idx then Ret None
    else r ← rd (res ioc) idx; if negb (r_gen r =? gen) then Ret None else Ret (Some idx).

(** Of the resource a pointer leads to. *)
Definition handle_from_res (ioc : io_context) (r : option Z) : outcome Z :=
  match r with
  | None => Fail NullDeref
  | Some idx =>
      x ← rd (res ioc) idx;
      let handle := Z.lor idx (u32 (Z.shiftl (r_gen x) 16)) in
      _ ← c_assert (negb (r_gen x =? UINT16_MAX));
      _ ← c_assert (negb (handle =? IO_INVALID));
      Ret handle
  end.

(** ** Closing *)

Definition next_gen (g : Z) : Z := let g := u16 (g + 1) in if g =? UINT16_MAX then 0 else g.

(** The loop over the operations of a resource. *)
Definition mark_step (r n : Z) (st : list io_operation * Z * Z) : outcome (list io_operation * Z * Z + list io_operation) :=
  let '(l, i, marked) := st in
  if negb (marked <? n) then break l
  else
    o ← rd l i;
    if negb (bool_decide (op_type o = IO_VOID)) && bool_decide (op_res o = Some r) then
      l ← wr l i (mkOp IO_VOID None (op_user o) (op_accepted o)); continue (l, u16 (i + 1), u16 (marked + 1))
    else continue (l, u16 (i + 1), marked).

Definition close_internal (ioc : io_context) (r : Z) : outcome io_context :=
  x ← rd (res ioc) r;
  let ioc := asks ioc (Close (r_os_handle x)) in
  l ← loop (S (length (ops ioc))) (mark_step r (r_pending x)) (ops ioc, 0, 0);
  let ioc := with_ops ioc l in
  set_res ioc r (with_gen (clear_res x) (next_gen (r_gen x))).

Definition io_close (ioc : io_context) (handle : Z) : outcome io_context :=
  r ← res_from_handle ioc handle;
  match r with None => Ret ioc | Some r => close_internal ioc r end.

Definition io_free (ioc : io_context) : outcome io_context :=
  ioc ← loop (S (Z.to_nat (max_res ioc)))
    (λ '(ioc, i),
       if negb (i <? max_res ioc) then break ioc
       else
         x ← rd (res ioc) i;
         ioc ← (if negb (bool_decide (r_type x = IO_RES_VOID)) then close_internal ioc i else Ret ioc);
         continue (ioc, u16 (i + 1)))
    (ioc, 0);
  Ret (asks ioc (Close (ioc_os_handle ioc))).

(** [for (i = 0; i < n; i++) if (p(&l[i])) return &l[i]] *)
Definition find_unused {A} (p : A → bool) (n : Z) (l : list A) : outcome (option Z) :=
  loop (S (Z.to_nat n))
    (λ i, if negb (i <? n) then break None
          else x ← rd l i; if p x then break (Some i) else continue (u16 (i + 1)))
    0.

Definition find_unused_op (ioc : io_context) : outcome (option Z) :=
  find_unused (λ o, bool_decide (op_type o = IO_VOID)) (max_ops ioc) (ops ioc).

Definition find_unused_res (ioc : io_context) : outcome (option Z) :=
  find_unused (λ r, bool_decide (r_type r = IO_RES_VOID)) (max_res ioc) (res ioc).

(** ** Operations *)

Definition start_uring_op (ioc : io_context) (sqe : io_uring_sqe) (e : entered) : outcome (io_context * bool) :=
  let sq := submissions ioc in
  let mask := sq_mask sq in
  let tail := sq_tail sq in
  let head := sq_head sq in
  if u32 (head + sq_limit sq) <=? tail then Ret (ioc, false)
  else
    let index := Z.land tail mask in
    entries ← wr (sq_entries sq) index sqe;
    array ← wr (sq_array sq) index index;
    let ioc := with_submissions ioc
      (mkSubmissions (sq_head sq) (u32 (tail + 1)) (sq_mask sq) (sq_limit sq) array entries) in
    '(ioc, ret) ← io_uring_enter ioc e;
    Ret (ioc, negb (ret <? 0)).

Definition io_recv_linux (ioc : io_context) (r : io_resource) (op dst max : Z) (a : started) : outcome (io_context * bool) :=
  start_uring_op ioc (mkSqe IORING_OP_READ (r_os_handle r) dst max op) (s_enter a).

Definition io_send_linux (ioc : io_context) (r : io_resource) (op src num : Z) (a : started) : outcome (io_context * bool) :=
  start_uring_op ioc (mkSqe IORING_OP_WRITE (r_os_handle r) src num op) (s_enter a).

Definition io_accept_linux (ioc : io_context) (r : io_resource) (op os_handle : Z) (a : started) : outcome (io_context * bool) :=
  start_uring_op ioc (mkSqe IORING_OP_ACCEPT os_handle 0 0 op) (s_enter a).

Definition io_recv_windows (ioc : io_context) (r : io_resource) (op dst max : Z) (a : started) : outcome (io_context * bool) :=
  Ret (asks ioc (Read (r_os_handle r) dst max op), s_ok a).

Definition io_send_windows (ioc : io_context) (r : io_resource) (op src num : Z) (a : started) : outcome (io_context * bool) :=
  Ret (asks ioc (Read (r_os_handle r) src num op), s_ok a).

Definition io_accept_windows (ioc : io_context) (r : io_resource) (op os_handle : Z) (a : started) : outcome (io_context * bool) :=
  match s_socket a with
  | None => Ret (ioc, false)
  | Some fd =>
      let ioc := asks ioc (Socket fd) in
      _ ← match r_acceptfn r with None => Fail Undefined | Some f => Ret f end;
      let ioc := asks ioc (Accept os_handle fd op) in
      if negb (s_ok a) then Ret (asks ioc (Close fd), false)
      else
        o ← rd (ops ioc) op;
        ioc ← set_op ioc op (mkOp (op_type o) (op_res o) (op_user o) fd);
        Ret (ioc, true)
  end.

(** [res->pending++] and the members of the operation. *)
Definition mark_started (ioc : io_context) (r op : Z) (type : io_optype) (user : Z) : outcome io_context :=
  x ← rd (res ioc) r;
  ioc ← set_res ioc r (with_pending x (u16 (r_pending x + 1)));
  o ← rd (ops ioc) op;
  set_op ioc op (mkOp type (Some r) user (op_accepted o)).

(** What [io_recv], [io_send] and [io_accept] share: [start] is the part of the
    platform, for the resource and the operation. *)
Definition start_op (ioc : io_context) (user handle : Z) (type : io_optype)
    (start : io_context → io_resource → Z → outcome (io_context * bool)) : outcome (io_context * bool) :=
  r ← res_from_handle ioc handle;
  match r with
  | None => Ret (ioc, false)
  | Some r =>
      op ← find_unused_op ioc;
      match op with
      | None => Ret (ioc, false)
      | Some op =>
          x ← rd (res ioc) r;
          '(ioc, ok) ← start ioc x op;
          if negb ok then Ret (ioc, false)
          else ioc ← mark_started ioc r op type user; Ret (ioc, true)
      end
  end.

Definition io_recv (p : platform) (ioc : io_context) (user handle dst max : Z) (a : started) : outcome (io_context * bool) :=
  start_op ioc user handle IO_RECV (λ ioc x op,
    match p with LINUX => io_recv_linux ioc x op dst max a | WINDOWS => io_recv_windows ioc x op dst max a end).

Definition io_send (p : platform) (ioc : io_context) (user handle src num : Z) (a : started) : outcome (io_context * bool) :=
  start_op ioc user handle IO_SEND (λ ioc x op,
    match p with LINUX => io_send_linux ioc x op src num a | WINDOWS => io_send_windows ioc x op src num a end).

Definition io_accept (p : platform) (ioc : io_context) (user handle : Z) (a : started) : outcome (io_context * bool) :=
  start_op ioc user handle IO_ACCEPT (λ ioc x op,
    match p with
    | LINUX => io_accept_linux ioc x op (r_os_handle x) a
    | WINDOWS => io_accept_windows ioc x op (r_os_handle x) a
    end).

(** ** Files and servers *)

Definition IO_ACCESS_RD : Z := 1.
Definition IO_ACCESS_WR : Z := 2.
Definition IO_CREATE_OVERWRITE : Z := 4.
Definition IO_CREATE_CANTEXIST : Z := 8.

Definition O_RDONLY : Z := 0.
Definition O_WRONLY : Z := 1.
Definition O_CREAT : Z := 64.
Definition O_EXCL : Z := 128.
Definition O_TRUNC : Z := 512.

Definition GENERIC_READ : Z := 2 ^ 31.
Definition GENERIC_WRITE : Z := 2 ^ 30.
Definition CREATE_NEW : Z := 1.
Definition CREATE_ALWAYS : Z := 2.
Definition OPEN_ALWAYS : Z := 4.

Definition has (flags bit : Z) : bool := negb (Z.land flags bit =? 0).
Definition or_if (b : bool) (flags bit : Z) : Z := if b then Z.lor flags bit else flags.

(** The descriptor that [open] or CreateFileA returns ([NO_HANDLE] for a
    failure), and whether it could be bound to the completion port. *)
Record file_answer : Type := mkFile {
  f_handle : Z;
  f_port : bool;
}.

(** The end of the functions for Windows. *)
Definition bind_port (ioc : io_context) (a : file_answer) : io_context * Z :=
  if f_handle a =? NO_HANDLE then (ioc, NO_HANDLE)
  else if negb (f_port a) then (asks ioc (Close (f_handle a)), NO_HANDLE)
  else (ioc, f_handle a).

Definition io_open_file_windows (ioc : io_context) (file : list Z) (flags : Z) (a : file_answer) : io_context * Z :=
  let access := or_if (has flags IO_ACCESS_RD) 0 GENERIC_READ in
  let access := or_if (has flags IO_ACCESS_WR) access GENERIC_WRITE in
  bind_port (asks ioc (Open file access)) a.

Definition io_open_file_linux (ioc : io_context) (file : list Z) (flags : Z) (a : file_answer) : io_context * Z :=
  let flags2 := or_if (has flags IO_ACCESS_RD) 0 O_RDONLY in
  let flags2 := or_if (has flags IO_ACCESS_WR) flags2 O_WRONLY in
  (asks ioc (Open file flags2), f_handle a).

Definition io_create_file_windows (ioc : io_context) (file : list Z) (flags : Z) (a : file_answer) : io_context * Z :=
  let flags2 := if has flags IO_CREATE_CANTEXIST then CREATE_NEW
                else if has flags IO_CREATE_OVERWRITE then CREATE_ALWAYS else OPEN_ALWAYS in
  bind_port (asks ioc (Open file flags2)) a.

Definition io_create_file_linux (ioc : io_context) (file : list Z) (flags : Z) (a : file_answer) : io_context * Z :=
  let flags2 := Z.lor O_CREAT O_WRONLY in
  let flags2 := if has flags IO_CREATE_CANTEXIST then Z.lor flags2 O_EXCL
                else or_if (has flags IO_CREATE_OVERWRITE) flags2 O_TRUNC in
  (asks ioc (Open file flags2), f_handle a).

(** The failure of the system, as each platform tests for it. *)
Definition failed (p : platform) (os_handle : Z) : bool :=
  match p with LINUX => os_handle <? 0 | WINDOWS => os_handle =? NO_HANDLE end.

(** The members of a resource that becomes used, and its handle. *)
Definition use_res (ioc : io_context) (r : Z) (type : io_restype) (os_handle : Z) : outcome (io_context * Z) :=
  x ← rd (res ioc) r;
  ioc ← set_res ioc r (mkRes type os_handle 0 (r_gen x) (r_callback x) (r_acceptfn x));
  h ← handle_from_res ioc (Some r);
  Ret (ioc, h).

(** What [io_open_file] and [io_create_file] share. *)
Definition use_file (p : platform) (ioc : io_context) (open : io_context * Z) : outcome (io_context * Z) :=
  r ← find_unused_res ioc;
  match r with
  | None => Ret (ioc, IO_INVALID)
  | Some r =>
      let '(ioc, os_handle) := open in
      if failed p os_handle then Ret (ioc, IO_INVALID) else use_res ioc r IO_RES_FILE os_handle
  end.

Definition io_open_file (p : platform) (ioc : io_context) (file : list Z) (flags : Z) (a : file_answer) : outcome (io_context * Z) :=
  use_file p ioc (match p with
    | LINUX => io_open_file_linux ioc file flags a
    | WINDOWS => io_open_file_windows ioc file flags a
    end).

Definition io_create_file (p : platform) (ioc : io_context) (file : list Z) (flags : Z) (a : file_answer) : outcome (io_context * Z) :=
  use_file p ioc (match p with
    | LINUX => io_create_file_linux ioc file flags a
    | WINDOWS => io_create_file_windows ioc file flags a
    end).

(** [inet_pton], [socket], [bind], [listen], and on Windows WSAIoctl ([None] for
    a failure) and CreateIoCompletionPort. *)
Record server_answer : Type := mkServerAnswer {
  v_address : bool;
  v_socket : Z;
  v_bind : bool;
  v_listen : bool;
  v_acceptfn : option Z;
  v_port : bool;
}.

Definition io_start_server (p : platform) (ioc : io_context) (addr : option (list Z)) (port : Z) (a : server_answer)
    : outcome (io_context * Z) :=
  if (port <? 1) || (UINT16_MAX <? port) then Ret (ioc, IO_INVALID)
  else if match addr with None => false | Some _ => negb (v_address a) end then Ret (ioc, IO_INVALID)
  else
    r ← find_unused_res ioc;
    match r with
    | None => Ret (ioc, IO_INVALID)
    | Some r =>
        let fd := v_socket a in
        if failed p fd then Ret (ioc, IO_INVALID)
        else
          let ioc := asks ioc (Socket fd) in
          if negb (v_bind a) then Ret (asks ioc (Close fd), IO_INVALID)
          else if negb (v_listen a) then Ret (asks ioc (Close fd), IO_INVALID)
          else
            match p with
            | LINUX => use_res ioc r IO_RES_SOCKET fd
            | WINDOWS =>
                match v_acceptfn a with
                | None => Ret (asks ioc (Close fd), IO_INVALID)
                | Some f =>
                    if negb (v_port a) then Ret (asks ioc (Close fd), IO_INVALID)
                    else
                      x ← rd (res ioc) r;
                      ioc ← set_res ioc r (mkRes (r_type x) (r_os_handle x) (r_pending x) (r_gen x) (r_callback x) (Some f));
                      use_res ioc r IO_RES_SOCKET fd
                end
            end
    end.

(** ** Events *)

(** [res->pending--] behind its assertion, and the operation marked unused. *)
Definition mark_done (ioc : io_context) (r op : Z) : outcome io_context :=
  x ← rd (res ioc) r;
  _ ← c_assert (0 <? r_pending x);
  ioc ← set_res ioc r (with_pending x (u16 (r_pending x - 1)));
  o ← rd (ops ioc) op;
  set_op ioc op (with_type o IO_VOID).

Definition res_pointer (r : option Z) : outcome Z := match r with None => Fail NullDeref | Some r => Ret r end.

Definition io_wait_internal_windows (ioc : io_context) (ev : io_event) (w : waited) : outcome (io_context * io_event) :=
  match w_status w with
  | NoStatus => Ret (ioc, mkEvent IO_ERROR IO_VOID IO_INVALID 0 (ev_num ev))
  | Failure op =>
      o ← rd (ops ioc) op;
      h ← handle_from_res ioc (op_res o);
      let ev := mkEvent IO_ABORT (op_type o) h (op_user o) (ev_num ev) in
      let ioc := if bool_decide (op_type o = IO_ACCEPT) then asks ioc (Close (op_accepted o)) else ioc in
      r ← res_pointer (op_res o);
      ioc ← mark_done ioc r op;
      Ret (ioc, ev)
  | Success op num =>
      o ← rd (ops ioc) op;
      h ← handle_from_res ioc (op_res o);
      let ev := mkEvent IO_COMPLETE (op_type o) h (op_user o) (ev_num ev) in
      r ← res_pointer (op_res o);
      match op_type o with
      | IO_VOID => ioc ← mark_done ioc r op; Ret (ioc, ev)
      | IO_RECV | IO_SEND =>
          ioc ← mark_done ioc r op; Ret (ioc, mkEvent IO_COMPLETE (op_type o) h (op_user o) num)
      | IO_ACCEPT =>
          r2 ← find_unused_res ioc;
          match r2 with
          | None =>
              let ioc := asks ioc (Close (op_accepted o)) in
              ioc ← mark_done ioc r op;
              Ret (ioc, mkEvent IO_ABORT IO_ACCEPT h (op_user o) (ev_num ev))
          | Some r2 =>
              '(ioc, accepted) ← use_res ioc r2 IO_RES_SOCKET (op_accepted o);
              ioc ← mark_done ioc r op;
              Ret (ioc, mkEvent IO_COMPLETE IO_ACCEPT h (op_user o) accepted)
          end
      end
  end.

(** The event of a completion. *)
Definition reap (ioc : io_context) (ev : io_event) (head : Z) : outcome (io_context * io_event) :=
  cqe ← rd (cq_entries (completions ioc)) (Z.land head (cq_mask (completions ioc)));
  let op := cqe_user_data cqe in
  o ← rd (ops ioc) op;
  h ← handle_from_res ioc (op_res o);
  r ← res_pointer (op_res o);
  let ev :=
    if cqe_res cqe <? 0 then mkEvent IO_ABORT (op_type o) h (op_user o) (ev_num ev)
    else mkEvent IO_COMPLETE (op_type o) h (op_user o)
           (match op_type o with IO_VOID => ev_num ev | _ => cqe_res cqe end) in
  ioc ← mark_done ioc r op;
  let cq := completions ioc in
  Ret (with_completions ioc (mkCompletions (u32 (head + 1)) (cq_tail cq) (cq_mask cq) (cq_limit cq) (cq_entries cq)), ev).

Definition io_wait_internal_linux (ioc : io_context) (ev : io_event) (w : waited) : outcome (io_context * io_event) :=
  cq ← post_all (completions ioc) (w_posted w);
  let ioc := with_completions ioc cq in
  let head := cq_head (completions ioc) in
  let tail := cq_tail (completions ioc) in
  if head =? tail then
    '(ioc, ret) ← io_uring_enter ioc (w_enter w);
    if ret <? 0 then Ret (ioc, mkEvent IO_ERROR IO_VOID IO_INVALID 0 (ev_num ev)) else reap ioc ev head
  else reap ioc ev head.

Definition io_wait_internal (p : platform) (ioc : io_context) (ev : io_event) (w : waited) : outcome (io_context * io_event) :=
  match p with
  | WINDOWS => io_wait_internal_windows ioc ev w
  | LINUX => io_wait_internal_linux ioc ev w
  end.

(** For the waits that come to an end during the call, [call] being what the
    callbacks of the program do; the answer is whether the event is one for
    the caller, not one more that is waited for. *)
Fixpoint io_wait (p : platform) (call : Z → io_context → io_event → outcome io_context)
    (ioc : io_context) (ev : io_event) (waits : list waited) : outcome (io_context * io_event * bool) :=
  match waits with
  | [] => Ret (ioc, ev, false)
  | w :: waits =>
      '(ioc, ev) ← io_wait_internal p ioc ev w;
      if ev_handle ev =? IO_INVALID then Ret (ioc, ev, true)
      else
        r ← res_from_handle ioc (ev_handle ev);
        _ ← c_assert (bool_decide (r ≠ None));
        r ← res_pointer r;
        x ← rd (res ioc) r;
        match r_callback x with
        | None => Ret (ioc, ev, true)
        | Some f => ioc ← call f ioc ev; io_wait p call ioc ev waits
        end
  end.

Definition io_set_callback (ioc : io_context) (handle : Z) (callback : option Z) : outcome io_context :=
  r ← res_from_handle ioc handle;
  match r with
  | None => Ret ioc
  | Some r =>
      x ← rd (res ioc) r;
      set_res ioc r (mkRes (r_type x) (r_os_handle x) (r_pending x) (r_gen x) callback (r_acceptfn x))
  end.
