(* ===== verification/IoTables.v ===== *)
(** The tables of [Io]: resources that count their operations, handles that
    lead to them, and what starting, finishing and closing do to both. *)
From S2P Require Import Prelude Io.
#[global] Open Scope Z_scope.

(** ** Counting operations *)

(** The operation is under way, on the resource [r]. *)
Definition uses (r : Z) (o : io_operation) : Prop := op_type o ≠ IO_VOID ∧ op_res o = Some r.

#[global] Instance uses_dec r o : Decision (uses r o).
Proof. unfold uses. apply _. Defined.

Definition count (r : Z) (l : list io_operation) : Z := zlen (filter (uses r) l).

Lemma count_nonneg r l : 0 ≤ count r l.
Proof. apply zlen_nonneg. Qed.

Lemma count_app r l k : count r (l ++ k) = count r l + count r k.
Proof. unfold count. by rewrite filter_app, zlen_app. Qed.

Lemma count_cons r o l : count r (o :: l) = Z.b2z (bool_decide (uses r o)) + count r l.
Proof. unfold count. rewrite filter_cons. case_decide; [rewrite bool_decide_true by done|rewrite bool_decide_false by done]; [apply zlen_cons|done]. Qed.

Lemma count_le r l : count r l ≤ zlen l.
Proof. unfold count, zlen. pose proof (length_filter (uses r) l). lia. Qed.

Lemma count_insert r l i o o' :
  rd l i = Ret o →
  count r (<[Z.to_nat i := o']> l) = count r l - Z.b2z (bool_decide (uses r o)) + Z.b2z (bool_decide (uses r o')).
Proof.
  intros (a & b & -> & _ & Hins)%rd_split. rewrite Hins, !count_app, !count_cons. lia.
Qed.

(** A free operation leaves room in the count. *)
Lemma count_room r l i o : rd l i = Ret o → op_type o = IO_VOID → count r l < zlen l.
Proof.
  intros (a & b & -> & _)%rd_split Ho. rewrite count_app, count_cons, zlen_app, zlen_cons.
  rewrite bool_decide_false by (intros [? _]; done). pose proof (count_le r a). pose proof (count_le r b). simpl. lia.
Qed.

Lemma count_pos r l i o : rd l i = Ret o → uses r o → 0 < count r l.
Proof.
  intros (a & b & -> & _)%rd_split Ho. rewrite count_app, count_cons, bool_decide_true by done.
  pose proof (count_nonneg r a). pose proof (count_nonneg r b). simpl. lia.
Qed.

(** ** The tables *)

Definition res_ok (o : list io_operation) (r : Z) (x : io_resource) : Prop :=
  0 ≤ r_gen x < UINT16_MAX ∧ r_pending x = count r o ∧
  (r_type x = IO_RES_VOID → r_pending x = 0 ∧ r_callback x = None).

Record tables (ioc : io_context) : Prop := mkTables {
  tb_res : zlen (res ioc) = max_res ioc;
  tb_ops : zlen (ops ioc) = max_ops ioc;
  tb_max_res : max_res ioc ≤ UINT16_MAX;
  tb_max_ops : max_ops ioc ≤ UINT16_MAX;
  tb_each : ∀ r x, rd (res ioc) r = Ret x → res_ok (ops ioc) r x;
  tb_busy : ∀ i o, rd (ops ioc) i = Ret o → op_type o ≠ IO_VOID → ∃ r x, op_res o = Some r ∧ rd (res ioc) r = Ret x;
}.

(** The two contexts differ in their tables only. *)
Record same_system (ioc ioc' : io_context) : Prop := mkSameSystem {
  ss_handle : ioc_os_handle ioc' = ioc_os_handle ioc;
  ss_max_res : max_res ioc' = max_res ioc;
  ss_max_ops : max_ops ioc' = max_ops ioc;
  ss_submissions : submissions ioc' = submissions ioc;
  ss_completions : completions ioc' = completions ioc;
}.

Lemma same_system_refl ioc : same_system ioc ioc.
Proof. by split. Qed.
#[export] Hint Resolve same_system_refl : core.

Lemma same_system_trans a b c : same_system a b → same_system b c → same_system a c.
Proof. intros [] []. split; congruence. Qed.

Lemma set_res_ok ioc r x x' :
  rd (res ioc) r = Ret x → set_res ioc r x' = Ret (with_res ioc (<[Z.to_nat r := x']> (res ioc))).
Proof. intros Hx%rd_bounds. unfold set_res. by rewrite wr_ok. Qed.

Lemma set_op_ok ioc i o o' :
  rd (ops ioc) i = Ret o → set_op ioc i o' = Ret (with_ops ioc (<[Z.to_nat i := o']> (ops ioc))).
Proof. intros Hx%rd_bounds. unfold set_op. by rewrite wr_ok. Qed.

(** One resource changes, and keeps its count. *)
Lemma tables_res ioc r x x' :
  tables ioc → rd (res ioc) r = Ret x → res_ok (ops ioc) r x' →
  tables (with_res ioc (<[Z.to_nat r := x']> (res ioc))).
Proof.
  intros [Hr Ho Hmr Hmo Heach Hbusy] Hx Hx'. pose proof (rd_bounds _ _ _ Hx) as Hb.
  split; cbn [res ops max_res max_ops with_res]; [by rewrite zlen_insert|done|done|done| |].
  - intros j y Hy. destruct (rd_insert_inv _ _ _ _ _ Hb Hy) as [[-> ->]|[_ ?]]; [done|by apply Heach].
  - intros i o Hi Ht. destruct (Hbusy i o Hi Ht) as (j & y & Hj & Hy). exists j.
    destruct (decide (j = r)) as [->|]; [|exists y; split; [done|]; rewrite rd_insert_ne by (done || lia); done].
    exists x'. split; [done|]. by apply rd_insert_eq.
Qed.

(** One operation and the count of its resource change together. *)
Lemma tables_op ioc r i x o n o' :
  tables ioc → rd (res ioc) r = Ret x → rd (ops ioc) i = Ret o →
  (op_type o' ≠ IO_VOID → op_res o' = Some r) → (op_type o ≠ IO_VOID → op_res o = Some r) →
  n = r_pending x - Z.b2z (bool_decide (op_type o ≠ IO_VOID)) + Z.b2z (bool_decide (op_type o' ≠ IO_VOID)) →
  (r_type x = IO_RES_VOID → op_type o' = IO_VOID) →
  tables (with_ops (with_res ioc (<[Z.to_nat r := with_pending x n]> (res ioc))) (<[Z.to_nat i := o']> (ops ioc))).
Proof.
  intros [Hr Ho Hmr Hmo Heach Hbusy] Hx Hi Hr' Hro Hn Hvoid.
  pose proof (rd_bounds _ _ _ Hx) as Hb. pose proof (rd_bounds _ _ _ Hi) as Hbi.
  assert (∀ j, bool_decide (uses j o) = bool_decide (op_type o ≠ IO_VOID ∧ j = r)) as Hu.
  { intros j. apply bool_decide_ext. unfold uses. split; intros [? He]; (split; [done|]); rewrite Hro in * by done; congruence. }
  assert (∀ j, bool_decide (uses j o') = bool_decide (op_type o' ≠ IO_VOID ∧ j = r)) as Hu'.
  { intros j. apply bool_decide_ext. unfold uses. split; intros [? He]; (split; [done|]); rewrite Hr' in * by done; congruence. }
  split; cbn [res ops max_res max_ops with_res with_ops]; [by rewrite zlen_insert|by rewrite zlen_insert|done|done| |].
  - intros j y Hy. destruct (rd_insert_inv _ _ _ _ _ Hb Hy) as [[-> ->]|[Hne Hj]].
    + destruct (Heach r x Hx) as (Hg & Hp & Hv). split; [done|]. cbn [with_pending r_pending r_type r_callback].
      rewrite (count_insert r _ _ o o' Hi), Hu, Hu', <-Hp. split.
      * rewrite Hn. do 2 f_equal; [f_equal|]; f_equal; apply bool_decide_ext; naive_solver.
      * intros Ht. specialize (Hv Ht) as [Hp0 Hc]. specialize (Hvoid Ht). split; [|done].
        rewrite Hvoid in Hn. rewrite (bool_decide_false (IO_VOID ≠ IO_VOID)) in Hn by naive_solver.
        destruct (decide (op_type o = IO_VOID)) as [Hov|Hov].
        -- rewrite bool_decide_false in Hn by naive_solver. simpl in Hn. lia.
        -- pose proof (count_pos r _ _ o Hi ltac:(split; [done|by apply Hro])). lia.
    + destruct (Heach j y Hj) as (Hg & Hp & Hv). split; [done|]. split; [|done].
      rewrite (count_insert j _ _ o o' Hi), Hu, Hu', !bool_decide_false by naive_solver. simpl. lia.
  - intros j oj Hj Ht.
    assert (∃ k y, op_res oj = Some k ∧ rd (res ioc) k = Ret y) as (k & y & Hk & Hy).
    { destruct (rd_insert_inv _ _ _ _ _ Hbi Hj) as [[-> ->]|[_ ?]]; [|by eapply Hbusy]. exists r, x. split; [by apply Hr'|done]. }
    exists k. destruct (decide (k = r)) as [->|].
    + eexists. split; [done|]. by apply rd_insert_eq.
    + exists y. split; [done|]. rewrite rd_insert_ne by (done || lia). done.
Qed.

(** ** Handles *)

Definition res_handle (r : Z) (x : io_resource) : Z := r + r_gen x * 2 ^ 16.

Lemma handle_parts idx g :
  0 ≤ idx < 2 ^ 16 → 0 ≤ g < 2 ^ 16 →
  Z.lor idx (u32 (Z.shiftl g 16)) = idx + g * 2 ^ 16 ∧
  Z.land (idx + g * 2 ^ 16) 65535 = idx ∧ u16 (Z.shiftr (idx + g * 2 ^ 16) 16) = g.
Proof.
  intros Hi Hg. rewrite Z.shiftl_mul_pow2, u32_small by lia. split.
  - rewrite <-Z.add_lor_land. enough (Z.land idx (g * 2 ^ 16) = 0) as ->; [lia|].
    rewrite <-Z.shiftl_mul_pow2 by lia. apply Z.bits_inj'. intros n Hn. rewrite Z.land_spec, Z.bits_0.
    destruct (Z.lt_ge_cases n 16).
    + rewrite Z.shiftl_spec_low by done. apply andb_false_r.
    + rewrite (Z.bits_above_log2 idx); [done|lia|]. destruct (decide (idx = 0)) as [->|]; [simpl; lia|].
      apply (Z.lt_le_trans _ 16); [|done]. apply Z.log2_lt_pow2; lia.
  - change 65535 with (Z.ones 16). rewrite Z.land_ones, Z.shiftr_div_pow2 by lia. split.
    + rewrite Z.add_mod, Z.mod_mul, Z.add_0_r, Z.mod_mod, Z.mod_small by lia. done.
    + rewrite Z.div_add, Z.div_small by lia. apply u16_small. lia.
Qed.

Section handles.
Context (ioc : io_context) (Ht : tables ioc).

Lemma res_range r x : rd (res ioc) r = Ret x → 0 ≤ r < UINT16_MAX ∧ 0 ≤ r_gen x < UINT16_MAX.
Proof.
  intros Hx. pose proof (rd_bounds _ _ _ Hx). destruct (tb_each _ Ht r x Hx) as [Hg _]. split; [|done].
  pose proof (tb_res _ Ht). pose proof (tb_max_res _ Ht). lia.
Qed.

(** The handle of a resource; it leads back to it. *)
Lemma handle_from_res_ok r x :
  rd (res ioc) r = Ret x → handle_from_res ioc (Some r) = Ret (res_handle r x).
Proof.
  intros Hx. destruct (res_range r x Hx) as [Hr Hg]. unfold handle_from_res. rewrite Hx. cbn [mbind outcome_bind].
  unfold UINT16_MAX in *. destruct (handle_parts r (r_gen x)) as (-> & _); [lia..|].
  destruct (Z.eqb_spec (r_gen x) (2 ^ 16 - 1)); [lia|]. cbn [negb c_assert mbind outcome_bind]. unfold IO_INVALID, UINT32_MAX.
  destruct (Z.eqb_spec (r + r_gen x * 2 ^ 16) (2 ^ 32 - 1)); [lia|]. done.
Qed.

Lemma res_from_handle_ok r x : rd (res ioc) r = Ret x → res_from_handle ioc (res_handle r x) = Ret (Some r).
Proof.
  intros Hx. destruct (res_range r x Hx) as [Hr Hg]. pose proof (rd_bounds _ _ _ Hx). unfold UINT16_MAX in *.
  unfold res_from_handle, res_handle, IO_INVALID, UINT32_MAX.
  destruct (Z.eqb_spec (r + r_gen x * 2 ^ 16) (2 ^ 32 - 1)); [lia|].
  destruct (handle_parts r (r_gen x)) as (_ & -> & ->); [lia..|]. rewrite <-(tb_res _ Ht).
  destruct (Z.leb_spec (zlen (res ioc)) r); [lia|]. rewrite Hx. cbn [mbind outcome_bind]. by rewrite Z.eqb_refl.
Qed.

(** A handle leads to at most one resource, whose generation it has. *)
Lemma res_from_handle_inv h :
  0 ≤ h < 2 ^ 32 →
  wp (res_from_handle ioc h) (λ r, match r with
    | Some r => ∃ x, rd (res ioc) r = Ret x ∧ h = res_handle r x
    | None => ∀ r x, rd (res ioc) r = Ret x → h ≠ res_handle r x
    end).
Proof.
  intros Hh. destruct (res_from_handle ioc h) as [[r|]|f] eqn:Hr; cbn [wp].
  - revert Hr. unfold res_from_handle. destruct (h =? IO_INVALID); [done|].
    destruct (max_res ioc <=? Z.land h 65535); [done|]. destruct (rd (res ioc) (Z.land h 65535)) as [x|] eqn:Hx; [|done].
    cbn [mbind outcome_bind]. destruct (Z.eqb_spec (r_gen x) (u16 (Z.shiftr h 16))) as [Hg|]; [|done].
    intros [= <-]. exists x. split; [done|]. unfold res_handle. rewrite Hg. change 65535 with (Z.ones 16).
    rewrite Z.land_ones, Z.shiftr_div_pow2 by lia. unfold u16.
    rewrite (Z.mod_small (h / 2 ^ 16)) by (split; [apply Z.div_pos; lia|apply Z.div_lt_upper_bound; lia]).
    pose proof (Z.div_mod h (2 ^ 16)). lia.
  - intros r x Hx ->. by rewrite (res_from_handle_ok r x Hx) in Hr.
  - revert Hr. unfold res_from_handle. destruct (h =? IO_INVALID); [done|].
    change 65535 with (Z.ones 16). rewrite Z.land_ones by lia. pose proof (Z.mod_pos_bound h (2 ^ 16)).
    rewrite <-(tb_res _ Ht). destruct (Z.leb_spec (zlen (res ioc)) (h mod 2 ^ 16)); [done|].
    destruct (rd_ok (res ioc) (h mod 2 ^ 16)) as (x & -> & _); [lia|]. cbn [mbind outcome_bind]. by destruct (negb _).
Qed.
End handles.

(** ** Searching the tables *)

Lemma find_unused_ok {A} (p : A → bool) n (l : list A) :
  n = zlen l → n ≤ UINT16_MAX →
  wp (find_unused p n l) (λ r, match r with
    | Some i => ∃ x, rd l i = Ret x ∧ p x = true
    | None => ∀ i x, rd l i = Ret x → p x = false
    end).
Proof.
  intros -> Hmax. unfold find_unused, UINT16_MAX in *. pose proof (zlen_nonneg l).
  apply (wp_loop (λ i, 0 ≤ i ≤ zlen l ∧ ∀ j x, j < i → rd l j = Ret x → p x = false) (λ i, Z.to_nat (zlen l - i))).
  { split; [lia|]. intros j x Hj Hx%rd_bounds. lia. }
  { lia. }
  intros i [Hi Hbefore]. destruct (Z.ltb_spec i (zlen l)); cbn [negb].
  - destruct (rd_ok l i) as (x & Hx & _); [lia|]. rewrite Hx. cbn [mbind outcome_bind]. destruct (p x) eqn:Hp; cbn [break continue wp].
    + by exists x.
    + rewrite u16_small by lia. split; [|lia]. split; [lia|]. intros j y Hj Hy.
      destruct (decide (j = i)) as [->|]; [congruence|]. apply (Hbefore j); [lia|done].
  - cbn [break wp]. intros j x Hx. apply (Hbefore j); [|done]. apply rd_bounds in Hx. lia.
Qed.

Lemma find_unused_op_ok ioc :
  tables ioc →
  wp (find_unused_op ioc) (λ r, match r with
    | Some i => ∃ o, rd (ops ioc) i = Ret o ∧ op_type o = IO_VOID
    | None => ∀ i o, rd (ops ioc) i = Ret o → op_type o ≠ IO_VOID
    end).
Proof.
  intros [_ Ho _ Hm _ _]. eapply wp_mono; [by apply find_unused_ok|]. intros [i|].
  - intros (o & Hi & Hp%bool_decide_eq_true). by exists o.
  - intros Hall i o Hi. apply Hall, bool_decide_eq_false in Hi. done.
Qed.

Lemma find_unused_res_ok ioc :
  tables ioc →
  wp (find_unused_res ioc) (λ r, match r with
    | Some r => ∃ x, rd (res ioc) r = Ret x ∧ r_type x = IO_RES_VOID
    | None => ∀ r x, rd (res ioc) r = Ret x → r_type x ≠ IO_RES_VOID
    end).
Proof.
  intros [Hr _ Hm _ _ _]. eapply wp_mono; [by apply find_unused_ok|]. intros [i|].
  - intros (x & Hi & Hp%bool_decide_eq_true). by exists x.
  - intros Hall i x Hi. apply Hall, bool_decide_eq_false in Hi. done.
Qed.

(** ** Operations that start and end *)

Lemma mark_started_ok ioc r op type user x o :
  tables ioc → rd (res ioc) r = Ret x → rd (ops ioc) op = Ret o →
  r_type x ≠ IO_RES_VOID → op_type o = IO_VOID → type ≠ IO_VOID →
  wp (mark_started ioc r op type user) (λ ioc', tables ioc' ∧ same_system ioc ioc' ∧ log ioc' = log ioc ∧
    ops ioc' = <[Z.to_nat op := mkOp type (Some r) user (op_accepted o)]> (ops ioc) ∧
    res ioc' = <[Z.to_nat r := with_pending x (r_pending x + 1)]> (res ioc)).
Proof.
  intros Ht Hx Ho Hlive Hfree Htype. unfold mark_started. rewrite Hx. cbn [mbind outcome_bind].
  assert (0 ≤ r_pending x < UINT16_MAX) as Hp.
  { destruct (tb_each _ Ht r x Hx) as (_ & -> & _). pose proof (count_nonneg r (ops ioc)).
    pose proof (count_room r _ _ _ Ho Hfree). pose proof (tb_ops _ Ht). pose proof (tb_max_ops _ Ht). lia. }
  unfold UINT16_MAX in Hp. rewrite u16_small by lia. rewrite (set_res_ok _ _ _ _ Hx). cbn [mbind outcome_bind].
  cbn [ops with_res]. rewrite Ho. cbn [mbind outcome_bind]. rewrite (set_op_ok _ _ o) by done. cbn [wp].
  split; [|done]. apply (tables_op ioc r op x o); [done..| | |done].
  - by intros.
  - rewrite Hfree, bool_decide_false, bool_decide_true by naive_solver. simpl. lia.
Qed.

Lemma mark_done_ok ioc r op x o :
  tables ioc → rd (res ioc) r = Ret x → rd (ops ioc) op = Ret o → uses r o →
  wp (mark_done ioc r op) (λ ioc', tables ioc' ∧ same_system ioc ioc' ∧ log ioc' = log ioc ∧
    ops ioc' = <[Z.to_nat op := with_type o IO_VOID]> (ops ioc) ∧
    res ioc' = <[Z.to_nat r := with_pending x (r_pending x - 1)]> (res ioc)).
Proof.
  intros Ht Hx Ho [Htype Hres]. unfold mark_done. rewrite Hx. cbn [mbind outcome_bind].
  assert (0 < r_pending x ≤ UINT16_MAX) as Hp.
  { destruct (tb_each _ Ht r x Hx) as (_ & -> & _). pose proof (count_pos r _ _ _ Ho ltac:(by split)).
    pose proof (count_le r (ops ioc)). pose proof (tb_ops _ Ht). pose proof (tb_max_ops _ Ht). lia. }
  unfold UINT16_MAX in Hp. destruct (Z.ltb_spec 0 (r_pending x)); [|lia]. cbn [c_assert mbind outcome_bind].
  rewrite u16_small by lia. rewrite (set_res_ok _ _ _ _ Hx). cbn [mbind outcome_bind].
  cbn [ops with_res]. rewrite Ho. cbn [mbind outcome_bind]. rewrite (set_op_ok _ _ o) by done. cbn [wp].
  split; [|done]. apply (tables_op ioc r op x o); [done..| | |done].
  - by intros.
  - cbn [with_type op_type]. rewrite bool_decide_true, bool_decide_false by naive_solver. simpl. lia.
Qed.

(** ** Resources that become used *)

Lemma use_res_ok ioc r type os_handle x :
  tables ioc → rd (res ioc) r = Ret x → r_type x = IO_RES_VOID → type ≠ IO_RES_VOID →
  let x' := mkRes type os_handle 0 (r_gen x) (r_callback x) (r_acceptfn x) in
  wp (use_res ioc r type os_handle) (λ '(ioc', h), tables ioc' ∧ same_system ioc ioc' ∧ log ioc' = log ioc ∧
    ops ioc' = ops ioc ∧ res ioc' = <[Z.to_nat r := x']> (res ioc) ∧ h = res_handle r x').
Proof.
  intros Ht Hx Hvoid Htype x'. unfold use_res. rewrite Hx. cbn [mbind outcome_bind]. fold x'.
  rewrite (set_res_ok _ _ _ _ Hx). cbn [mbind outcome_bind]. destruct (tb_each _ Ht r x Hx) as (Hg & Hp & Hv).
  destruct (Hv Hvoid) as [Hp0 Hc]. assert (tables (with_res ioc (<[Z.to_nat r := x']> (res ioc)))) as Ht'.
  { apply (tables_res ioc r x); [done|done|]. split; [done|]. split; [unfold x'; cbn [r_pending]; lia|]. done. }
  rewrite (handle_from_res_ok _ Ht' r x') by (apply rd_insert_eq; by eapply rd_bounds). by cbn [mbind outcome_bind wp].
Qed.

(** ** Closing *)

(** What closing makes of the operations of a resource. *)
Definition unmark (r : Z) (o : io_operation) : io_operation :=
  if bool_decide (uses r o) then mkOp IO_VOID None (op_user o) (op_accepted o) else o.

Lemma unmark_none r l : count r l = 0 → unmark r <$> l = l.
Proof.
  induction l as [|o l IH]; [done|]. rewrite count_cons. pose proof (count_nonneg r l).
  change (unmark r <$> o :: l) with (unmark r o :: (unmark r <$> l)). unfold unmark at 1.
  case_bool_decide; simpl; [lia|]. intros. by rewrite IH by lia.
Qed.

Lemma count_unmark r r' l : count r' (unmark r <$> l) = if bool_decide (r' = r) then 0 else count r' l.
Proof.
  induction l as [|o l IH]; [by case_bool_decide|]. cbn [fmap list_fmap]. rewrite !count_cons, IH. unfold unmark.
  destruct (decide (uses r o)) as [Hu|Hu].
  - rewrite (bool_decide_true (uses r o)) by done. rewrite (bool_decide_false (uses r' (mkOp _ _ _ _))) by (intros [? _]; done).
    case_bool_decide as Hr; [done|]. rewrite (bool_decide_false (uses r' o)); [done|]. intros [_ ?]. destruct Hu. congruence.
  - rewrite (bool_decide_false (uses r o)) by done. case_bool_decide as Hr; [|done]. subst. by rewrite bool_decide_false.
Qed.

(** The loop finds all operations that the resource has pending. *)
Lemma mark_loop_ok r n l :
  zlen l ≤ UINT16_MAX → n = count r l →
  loop (S (length l)) (mark_step r n) (l, 0, 0) = Ret (unmark r <$> l).
Proof.
  intros Hlen ->. apply wp_eq_inv. unfold UINT16_MAX in Hlen.
  apply (wp_loop (λ '(l', i, marked), ∃ a b, l = a ++ b ∧ l' = (unmark r <$> a) ++ b ∧ i = zlen a ∧ marked = count r a)
           (λ '(_, i, _), length l - Z.to_nat i)%nat).
  { by exists [], l. }
  { lia. }
  intros [[l' i] marked] (a & b & -> & -> & -> & ->). unfold mark_step. rewrite count_app.
  destruct (Z.ltb_spec (count r a) (count r a + count r b)) as [Hlt|Hge]; cbn [negb].
  - destruct b as [|o b]; [change (count r []) with 0 in *; lia|].
    assert (zlen (unmark r <$> a) = zlen a) as Hza by (unfold zlen; by rewrite length_fmap).
    rewrite zlen_app, zlen_cons in Hlen. rewrite rd_app_r by lia. rewrite Hza, Z.sub_diag. cbn [rd_cons_0].
    rewrite rd_cons_0. cbn [mbind outcome_bind]. pose proof (zlen_nonneg a). pose proof (zlen_nonneg b).
    pose proof (count_le r a). pose proof (count_nonneg r a).
    assert (negb (bool_decide (op_type o = IO_VOID)) && bool_decide (op_res o = Some r) = bool_decide (uses r o)) as ->.
    { unfold uses. repeat case_bool_decide; naive_solver. }
    rewrite !u16_small by lia.
    assert (unmark r <$> a ++ [o] = (unmark r <$> a) ++ [unmark r o]) as Hsnoc by (by rewrite fmap_app).
    case_bool_decide as Hu.
    + rewrite wr_ok by (rewrite zlen_app, zlen_cons; lia). cbn [mbind outcome_bind continue wp]. rewrite length_app. simpl.
      split; [|unfold zlen; lia]. exists (a ++ [o]), b. rewrite <-app_assoc. split; [done|].
      rewrite Hsnoc, zlen_app, count_app, count_cons. change (zlen [o]) with 1. change (count r []) with 0.
      rewrite (bool_decide_true (uses r o)) by done. simpl. split_and!; [|done|lia].
      rewrite insert_app_r_alt by (rewrite length_fmap; unfold zlen; lia).
      replace (Z.to_nat (zlen a) - length (unmark r <$> a))%nat with 0%nat by (rewrite length_fmap; unfold zlen; lia).
      rewrite <-app_assoc. simpl. do 2 f_equal. unfold unmark. by rewrite bool_decide_true.
    + cbn [continue wp]. rewrite length_app. simpl. split; [|unfold zlen; lia]. exists (a ++ [o]), b. rewrite <-app_assoc.
      split; [done|]. rewrite Hsnoc, zlen_app, count_app, count_cons. change (zlen [o]) with 1. change (count r []) with 0.
      rewrite (bool_decide_false (uses r o)) by done. simpl. split_and!; [|done|lia].
      rewrite <-app_assoc. simpl. do 2 f_equal. unfold unmark. by rewrite bool_decide_false.
  - cbn [break wp]. rewrite fmap_app. rewrite (unmark_none r b); [done|]. pose proof (count_nonneg r b). lia.
Qed.

Lemma io_next_gen_ok g : 0 ≤ g < UINT16_MAX → 0 ≤ next_gen g < UINT16_MAX ∧ next_gen g ≠ g.
Proof.
  unfold next_gen, UINT16_MAX. intros Hg. rewrite u16_small by lia. destruct (Z.eqb_spec (g + 1) (2 ^ 16 - 1)); lia.
Qed.

Definition closed (x : io_resource) : io_resource := with_gen (clear_res x) (next_gen (r_gen x)).

Lemma rd_fmap {A B} (f : A → B) (l : list A) i :
  rd (f <$> l) i = x ← rd l i; Ret (f x).
Proof. unfold rd. destruct (i <? 0); [done|]. rewrite list_lookup_fmap. by destruct (l !! Z.to_nat i). Qed.

Lemma close_internal_ok ioc r x :
  tables ioc → rd (res ioc) r = Ret x →
  wp (close_internal ioc r) (λ ioc', tables ioc' ∧ same_system ioc ioc' ∧
    log ioc' = log ioc ++ [Close (r_os_handle x)] ∧ ops ioc' = unmark r <$> ops ioc ∧
    res ioc' = <[Z.to_nat r := closed x]> (res ioc)).
Proof.
  intros Ht Hx. unfold close_internal. rewrite Hx. cbn [mbind outcome_bind]. pose proof Ht as [Hr Ho Hmr Hmo Heach Hbusy].
  destruct (Heach r x Hx) as (Hg & Hp & _). change (ops (asks ioc _)) with (ops ioc).
  rewrite mark_loop_ok by (done || lia). cbn [mbind outcome_bind]. rewrite (set_res_ok _ r x) by done. cbn [wp].
  pose proof (rd_bounds _ _ _ Hx) as Hb. fold (closed x). split; [|done]. cbn [res ops max_res max_ops with_res with_ops asks].
  assert (zlen (unmark r <$> ops ioc) = zlen (ops ioc)) as Hz by (unfold zlen; by rewrite length_fmap).
  split; cbn [res ops max_res max_ops with_res with_ops asks]; [by rewrite zlen_insert|by rewrite Hz|done|done| |].
  - intros j y Hy. unfold res_ok. rewrite count_unmark. destruct (rd_insert_inv _ _ _ _ _ Hb Hy) as [[-> ->]|[Hne Hj]].
    + rewrite bool_decide_true by done. split; [apply (io_next_gen_ok _ Hg)|]. done.
    + rewrite bool_decide_false by done. by apply Heach.
  - intros i o Hi Htype. rewrite rd_fmap in Hi. destruct (rd (ops ioc) i) as [o0|] eqn:Ho0; [|done].
    cbn [mbind outcome_bind] in Hi. injection Hi as <-. unfold unmark in *. case_bool_decide; [done|].
    destruct (Hbusy i o0 Ho0 Htype) as (j & y & Hj & Hy). exists j. destruct (decide (j = r)) as [->|].
    + eexists. split; [done|]. by apply rd_insert_eq.
    + exists y. split; [done|]. rewrite rd_insert_ne by (done || lia). done.
Qed.

(** Stopping closes every resource in use, in order, and the context. *)
Definition closing (l : list io_resource) : list request :=
  (λ x, Close (r_os_handle x)) <$> filter (λ x, r_type x ≠ IO_RES_VOID) l.

Lemma closing_app l k : closing (l ++ k) = closing l ++ closing k.
Proof. unfold closing. by rewrite filter_app, fmap_app. Qed.

Lemma io_free_ok ioc :
  tables ioc →
  wp (io_free ioc) (λ ioc', tables ioc' ∧ (∀ r x, rd (res ioc') r = Ret x → r_type x = IO_RES_VOID) ∧
    (∀ i o, rd (ops ioc') i = Ret o → op_type o = IO_VOID) ∧
    log ioc' = log ioc ++ closing (res ioc) ++ [Close (ioc_os_handle ioc)]).
Proof.
  intros Ht. unfold io_free. apply wp_bind. pose proof (tb_res _ Ht) as Hlen. pose proof (tb_max_res _ Ht) as Hmax.
  unfold UINT16_MAX in Hmax. pose proof (zlen_nonneg (res ioc)).
  eapply wp_mono.
  { apply (wp_loop (λ '(ioc1, i), tables ioc1 ∧ same_system ioc ioc1 ∧ ∃ a a' b, res ioc = a ++ b ∧ res ioc1 = a' ++ b ∧
             i = zlen a ∧ zlen a' = zlen a ∧ Forall (λ x, r_type x = IO_RES_VOID) a' ∧ log ioc1 = log ioc ++ closing a)
           (λ '(_, i), Z.to_nat (max_res ioc - i))
           (λ ioc1, tables ioc1 ∧ same_system ioc ioc1 ∧ Forall (λ x, r_type x = IO_RES_VOID) (res ioc1) ∧
             log ioc1 = log ioc ++ closing (res ioc))).
    { split; [done|]. split; [done|]. exists [], [], (res ioc). split_and!; try done. by rewrite app_nil_r. }
    { lia. }
    intros [ioc1 i] (Ht1 & Hs & a & a' & b & Hres & Hres1 & -> & Hza & Hvoid & Hlog).
    rewrite (ss_max_res _ _ Hs), <-Hlen, Hres, zlen_app in *. pose proof (zlen_nonneg a). pose proof (zlen_nonneg b).
    destruct (Z.ltb_spec (zlen a) (zlen a + zlen b)) as [Hlt|Hge]; cbn [negb]; cycle 1.
    { assert (b = []) as -> by (apply zlen_0_inv; lia). rewrite app_nil_r in Hres1. cbn [break wp]. by rewrite Hres1, app_nil_r. }
    destruct b as [|x b]; [change (zlen []) with 0 in *; lia|]. rewrite zlen_cons in *.
    assert (rd (res ioc1) (zlen a) = Ret x) as Hx by (rewrite Hres1, rd_app_r by lia; by rewrite Hza, Z.sub_diag).
    rewrite Hx. cbn [mbind outcome_bind]. rewrite u16_small by lia.
    assert (closing (a ++ [x]) = closing a ++ if bool_decide (r_type x = IO_RES_VOID) then [] else [Close (r_os_handle x)]) as Hcl.
    { rewrite closing_app. f_equal. unfold closing. rewrite filter_cons. case_decide; case_bool_decide; done. }
    case_bool_decide as Hv; cbn [negb].
    - cbn [mbind outcome_bind continue wp]. split; [|lia]. split; [done|]. split; [done|]. exists (a ++ [x]), (a' ++ [x]), b.
      rewrite <-!app_assoc, !zlen_app, Hcl, app_nil_r. change (zlen [x]) with 1. split_and!; try done; [lia|].
      apply Forall_app. split; [done|by repeat constructor].
    - apply wp_bind. eapply wp_mono; [by apply (close_internal_ok ioc1 _ x)|]. intros ioc2 (Ht2 & Hs2 & Hlog2 & _ & Hres2).
      cbn [continue wp]. split; [|lia]. split; [done|]. split; [by eapply same_system_trans|].
      exists (a ++ [x]), (a' ++ [closed x]), b.
      rewrite <-!app_assoc, !zlen_app, Hcl, Hlog2, Hlog, Hres2, Hres1, <-app_assoc. change (zlen [_]) with 1.
      split_and!; try done; [|lia|apply Forall_app; split; [done|by repeat constructor]].
      rewrite insert_app_r_alt by (unfold zlen in *; lia). replace (Z.to_nat (zlen a) - length a')%nat with 0%nat by (unfold zlen in *; lia).
      done. }
  intros ioc1 (Ht1 & Hs & Hvoid & Hlog). cbn [wp asks]. assert (∀ r x, rd (res ioc1) r = Ret x → r_type x = IO_RES_VOID) as Hall.
  { intros r x [_ Hx]%rd_inv. by eapply Forall_lookup_1 in Hvoid. }
  split; [by destruct Ht1|]. split; [done|]. split.
  - intros i o Ho. destruct (decide (op_type o = IO_VOID)) as [|Hne]; [done|]. destruct (tb_busy _ Ht1 i o Ho Hne) as (r & x & Hr & Hx).
    destruct (tb_each _ Ht1 r x Hx) as (_ & Hp & Hv). destruct (Hv (Hall r x Hx)) as [Hp0 _].
    pose proof (count_pos r _ _ o Ho ltac:(by split)).
    change (ops (asks ioc1 _)) with (ops ioc1) in *. lia.
  - change (log (asks ioc1 (Close (ioc_os_handle ioc1)))) with (log ioc1 ++ [Close (ioc_os_handle ioc1)]).
    by rewrite Hlog, <-app_assoc, (ss_handle _ _ Hs).
Qed.

(** ** Starting *)

Lemma for_each_ok {A} (f : A → A) n (l : list A) :
  n = zlen l → n ≤ UINT16_MAX → for_each f n l = Ret (f <$> l).
Proof.
  intros -> Hmax. apply wp_eq_inv. unfold for_each, UINT16_MAX in *. pose proof (zlen_nonneg l).
  apply (wp_loop (λ '(l', i), ∃ a b, l = a ++ b ∧ l' = (f <$> a) ++ b ∧ i = zlen a) (λ '(_, i), Z.to_nat (zlen l - i))).
  { by exists [], l. }
  { lia. }
  intros [l' i] (a & b & -> & -> & ->). rewrite zlen_app in *. pose proof (zlen_nonneg a). pose proof (zlen_nonneg b).
  assert (zlen (f <$> a) = zlen a) as Hza by (unfold zlen; by rewrite length_fmap).
  destruct (Z.ltb_spec (zlen a) (zlen a + zlen b)) as [Hlt|Hge]; cbn [negb]; cycle 1.
  { assert (b = []) as -> by (apply zlen_0_inv; lia). cbn [break wp]. by rewrite !app_nil_r. }
  destruct b as [|x b]; [change (zlen []) with 0 in *; lia|]. rewrite zlen_cons in *.
  rewrite rd_app_r, Hza, Z.sub_diag, rd_cons_0 by lia. cbn [mbind outcome_bind].
  rewrite wr_ok by (rewrite zlen_app, zlen_cons; lia). cbn [mbind outcome_bind continue wp]. rewrite u16_small by lia.
  split; [|lia]. exists (a ++ [x]), b. rewrite <-app_assoc, fmap_app, zlen_app, <-app_assoc. split_and!; [done| |done].
  rewrite insert_app_r_alt by (rewrite length_fmap; unfold zlen; lia).
  replace (Z.to_nat (zlen a) - length (f <$> a))%nat with 0%nat by (rewrite length_fmap; unfold zlen; lia). done.
Qed.

Lemma count_void r l : (λ o, with_type o IO_VOID) <$> l = l → count r l = 0.
Proof.
  induction l as [|o l IH]; [done|]. intros [= Ho Hl]. rewrite count_cons, IH by done.
  rewrite bool_decide_false; [done|]. intros [Hne _]. destruct Hne. by rewrite <-Ho.
Qed.

(** Tables that were just cleared. *)
Lemma cleared_tables ioc r o :
  zlen r ≤ UINT16_MAX → zlen o ≤ UINT16_MAX → max_res ioc = zlen r → max_ops ioc = zlen o →
  res ioc = (λ x, clear_res (with_gen x 0)) <$> r → ops ioc = (λ x, with_type x IO_VOID) <$> o → tables ioc.
Proof.
  intros Hr Ho Hmr Hmo Hres Hops.
  split; [rewrite Hres; unfold zlen in *; by rewrite length_fmap|rewrite Hops; unfold zlen in *; by rewrite length_fmap|lia|lia| |].
  - intros j x Hx. rewrite Hres, rd_fmap in Hx. destruct (rd r j); [|done]. cbn [mbind outcome_bind] in Hx. injection Hx as <-.
    split; [done|]. split; [|done]. rewrite count_void; [done|]. rewrite Hops, <-list_fmap_compose. by apply list_fmap_ext.
  - intros i x Hx. rewrite Hops, rd_fmap in Hx. destruct (rd o i); [|done]. cbn [mbind outcome_bind] in Hx. by injection Hx as <-.
Qed.
