(* ===== verification/IoGens.v ===== *)
(** The generations of the resources of [Io]: only closing a resource moves
    its generation, by one step, so that a handle that was closed stays no
    good for as long as the generation has not come round. *)
From S2P Require Import Prelude Io IoTables.
#[global] Open Scope Z_scope.

(** ** What a call does if it returns *)

Definition may {A} (m : outcome A) (Q : A → Prop) : Prop :=
  match m with Ret a => Q a | Fail _ => True end.

Lemma may_bind {A B} (m : outcome A) (k : A → outcome B) (R : A → Prop) (Q : B → Prop) :
  may m R → (∀ a, R a → may (k a) Q) → may (m ≫= k) Q.
Proof. destruct m; cbn [may mbind outcome_bind]; naive_solver. Qed.

Lemma may_any {A} (m : outcome A) : may m (λ _, True).
Proof. by destruct m. Qed.

Lemma may_eq {A B} (m : outcome A) (k : A → outcome B) (Q : B → Prop) :
  (∀ a, m = Ret a → may (k a) Q) → may (m ≫= k) Q.
Proof. destruct m; cbn [may mbind outcome_bind]; naive_solver. Qed.

(** ** The generations stay *)

Definition keeps (ioc ioc' : io_context) : Prop := r_gen <$> res ioc' = r_gen <$> res ioc.

#[global] Instance keeps_equivalence : Equivalence keeps.
Proof. split; unfold keeps; [by intros ?|by intros ? ?|intros ? ? ? H1 H2; congruence]. Qed.

Lemma set_res_keeps ioc r x x' :
  rd (res ioc) r = Ret x → r_gen x' = r_gen x → may (set_res ioc r x') (keeps ioc).
Proof.
  intros Hx Hg. rewrite (set_res_ok _ r x) by done. unfold keeps. cbn [may res with_res].
  rewrite list_fmap_insert, Hg. apply list_insert_id. rewrite list_lookup_fmap.
  apply rd_inv in Hx as [_ ->]. done.
Qed.

Lemma set_op_keeps ioc i o : may (set_op ioc i o) (keeps ioc).
Proof. unfold set_op. by destruct (wr (ops ioc) i o). Qed.

Lemma mark_started_keeps ioc r op type user : may (mark_started ioc r op type user) (keeps ioc).
Proof.
  unfold mark_started. apply may_eq. intros x Hx. eapply may_bind; [by eapply set_res_keeps|].
  intros ioc1 H1. eapply may_bind; [apply may_any|]. intros o _.
  pose proof (set_op_keeps ioc1 op (mkOp type (Some r) user (op_accepted o))) as H2.
  destruct (set_op _ _ _); [|done]. cbn [may] in *. by transitivity ioc1.
Qed.

Lemma mark_done_keeps ioc r op : may (mark_done ioc r op) (keeps ioc).
Proof.
  unfold mark_done. apply may_eq. intros x Hx. eapply may_bind; [apply may_any|]. intros _ _.
  eapply may_bind; [by eapply set_res_keeps|]. intros ioc1 H1. eapply may_bind; [apply may_any|]. intros o _.
  pose proof (set_op_keeps ioc1 op (with_type o IO_VOID)) as H2. destruct (set_op _ _ _); [|done]. cbn [may] in *. by transitivity ioc1.
Qed.

Lemma use_res_keeps ioc r type os_handle : may (use_res ioc r type os_handle) (λ st, keeps ioc st.1).
Proof.
  unfold use_res. apply may_eq. intros x Hx. eapply may_bind; [by eapply set_res_keeps|].
  intros ioc1 H1. eapply may_bind; [apply may_any|]. by intros h _.
Qed.

(** ** Starting *)

Lemma io_uring_enter_keeps ioc e : may (io_uring_enter ioc e) (λ st, keeps ioc st.1).
Proof. unfold io_uring_enter. eapply may_bind; [apply may_any|]. by intros cq _. Qed.

Lemma start_uring_op_keeps ioc sqe e : may (start_uring_op ioc sqe e) (λ st, keeps ioc st.1).
Proof.
  unfold start_uring_op. destruct (_ <=? _); [done|]. eapply may_bind; [apply may_any|]. intros l _.
  eapply may_bind; [apply may_any|]. intros l' _. eapply may_bind; [apply io_uring_enter_keeps|].
  intros [ioc1 ret] H1. by destruct (ret <? 0).
Qed.

Lemma io_accept_windows_keeps ioc x op fd a : may (io_accept_windows ioc x op fd a) (λ st, keeps ioc st.1).
Proof.
  unfold io_accept_windows. destruct (s_socket a) as [new|]; [|done]. eapply may_bind; [apply may_any|]. intros f _.
  destruct (s_ok a); cbn [negb]; [|done]. eapply may_bind; [apply may_any|]. intros o _.
  eapply may_bind; [apply set_op_keeps|]. by intros ioc1 H1.
Qed.

Lemma start_op_keeps ioc user h type start :
  (∀ x op, may (start ioc x op) (λ st, keeps ioc st.1)) →
  may (start_op ioc user h type start) (λ st, keeps ioc st.1).
Proof.
  intros Hstart. unfold start_op. eapply may_bind; [apply may_any|]. intros [r|] _; [|done].
  eapply may_bind; [apply may_any|]. intros [op|] _; [|done]. eapply may_bind; [apply may_any|]. intros x _.
  eapply may_bind; [apply Hstart|]. intros [ioc1 ok] H1. destruct ok; cbn [negb]; [|done].
  eapply may_bind; [apply mark_started_keeps|]. intros ioc2 H2. cbn [may fst] in *. by transitivity ioc1.
Qed.

(** ** Opening *)

Lemma use_file_keeps p ioc op : keeps ioc op.1 → may (use_file p ioc op) (λ st, keeps ioc st.1).
Proof.
  intros H1. unfold use_file. eapply may_bind; [apply may_any|]. intros [r|] _; [|done]. destruct op as [ioc1 fd].
  destruct (failed p fd); [done|]. cbn [fst] in H1. pose proof (use_res_keeps ioc1 r IO_RES_FILE fd) as H2.
  destruct (use_res _ _ _ _) as [[ioc2 h]|]; [|done]. cbn [may fst] in *. by transitivity ioc1.
Qed.

Lemma bind_port_keeps ioc a : keeps ioc (bind_port ioc a).1.
Proof. unfold bind_port. destruct (f_handle a =? NO_HANDLE); [done|]. by destruct (negb (f_port a)). Qed.

Lemma io_open_file_keeps p ioc file flags a : may (io_open_file p ioc file flags a) (λ st, keeps ioc st.1).
Proof. apply use_file_keeps. destruct p; [|done]. apply (bind_port_keeps (asks ioc _)). Qed.

Lemma io_create_file_keeps p ioc file flags a : may (io_create_file p ioc file flags a) (λ st, keeps ioc st.1).
Proof. apply use_file_keeps. destruct p; [|done]. apply (bind_port_keeps (asks ioc _)). Qed.

Lemma io_start_server_keeps p ioc addr port a : may (io_start_server p ioc addr port a) (λ st, keeps ioc st.1).
Proof.
  unfold io_start_server. destruct (_ || _); [done|]. destruct (match addr with Some _ => _ | None => _ end); [done|].
  eapply may_bind; [apply may_any|]. intros [r|] _; [|done]. destruct (failed p _); [done|].
  destruct (negb (v_bind a)); [done|]. destruct (negb (v_listen a)); [done|].
  destruct p; [|apply (use_res_keeps (asks ioc _))]. destruct (v_acceptfn a) as [f|]; [|done].
  destruct (negb (v_port a)); [done|]. apply may_eq. intros x Hx.
  eapply may_bind; [by eapply set_res_keeps|]. intros ioc1 H1.
  pose proof (use_res_keeps ioc1 r IO_RES_SOCKET (v_socket a)) as H2.
  destruct (use_res _ _ _ _) as [[ioc2 h]|]; [|done]. cbn [may fst] in *. unfold keeps in *. by rewrite H2, H1.
Qed.

(** ** Waiting *)

Lemma finish_keeps {A} ioc ioc1 r op (f : A) :
  keeps ioc ioc1 → may (ioc ← mark_done ioc1 r op; Ret (ioc, f)) (λ st, keeps ioc st.1).
Proof. intros H1. eapply may_bind; [apply mark_done_keeps|]. intros ioc2 H2. cbn [may fst]. by transitivity ioc1. Qed.

Lemma reap_keeps ioc ev head : may (reap ioc ev head) (λ st, keeps ioc st.1).
Proof.
  unfold reap. do 4 (eapply may_bind; [apply may_any|]; intros ? _).
  eapply may_bind; [apply mark_done_keeps|]. by intros ioc1 H1.
Qed.

Lemma io_wait_internal_keeps p ioc ev w : may (io_wait_internal p ioc ev w) (λ st, keeps ioc st.1).
Proof.
  destruct p; cbn [io_wait_internal].
  - unfold io_wait_internal_windows. destruct (w_status w) as [|op|op num]; [done|..].
    + do 3 (eapply may_bind; [apply may_any|]; intros ? _). apply finish_keeps. by case_bool_decide.
    + eapply may_bind; [apply may_any|]. intros o _. do 2 (eapply may_bind; [apply may_any|]; intros ? _).
      destruct (op_type o); [by apply finish_keeps..|]. eapply may_bind; [apply may_any|].
      intros [r2|] _; [|by apply finish_keeps]. eapply may_bind; [apply use_res_keeps|].
      intros [ioc1 h] H1. by apply finish_keeps.
  - unfold io_wait_internal_linux. eapply may_bind; [apply may_any|]. intros cq _.
    destruct (_ =? _); [|apply (reap_keeps (with_completions ioc cq))].
    eapply may_bind; [apply io_uring_enter_keeps|]. intros [ioc1 ret] H1. destruct (ret <? 0); [done|].
    pose proof (reap_keeps ioc1 ev (cq_head (completions (with_completions ioc cq)))) as H2.
    destruct (reap _ _ _) as [[ioc2 ev2]|]; [|done]. cbn [may fst] in *. unfold keeps in *. by rewrite H2, H1.
Qed.

Lemma io_set_callback_keeps ioc h f : may (io_set_callback ioc h f) (keeps ioc).
Proof.
  unfold io_set_callback. eapply may_bind; [apply may_any|]. intros [r|] _; [|done].
  apply may_eq. intros x Hx. by eapply set_res_keeps.
Qed.

(** ** The generations move *)

(** At most [n] steps for each resource. *)
Definition ages (n : Z) (ioc ioc' : io_context) : Prop :=
  ∀ r x, rd (res ioc) r = Ret x → ∃ x' m, rd (res ioc') r = Ret x' ∧ 0 ≤ m ≤ n ∧ r_gen x' = (r_gen x + m) mod UINT16_MAX.

Lemma keeps_rd ioc ioc' r x :
  keeps ioc ioc' → rd (res ioc) r = Ret x → ∃ x', rd (res ioc') r = Ret x' ∧ r_gen x' = r_gen x.
Proof.
  unfold keeps. intros Hk Hx. assert (rd (r_gen <$> res ioc') r = Ret (r_gen x)) as Hg by (by rewrite Hk, rd_fmap, Hx).
  rewrite rd_fmap in Hg. destruct (rd (res ioc') r) as [x'|]; [|done]. injection Hg as ?. by exists x'.
Qed.

Lemma keeps_ages ioc ioc' : tables ioc → keeps ioc ioc' → ages 1 ioc ioc'.
Proof.
  intros Ht Hk r x Hx. destruct (keeps_rd _ _ _ _ Hk Hx) as (x' & Hx' & Hg). exists x', 0.
  destruct (tb_each _ Ht r x Hx) as [? _]. split; [done|]. split; [lia|]. by rewrite Hg, Z.add_0_r, Z.mod_small.
Qed.

Lemma next_gen_mod g : 0 ≤ g < UINT16_MAX → next_gen g = (g + 1) mod UINT16_MAX.
Proof.
  unfold next_gen, UINT16_MAX. intros Hg. rewrite u16_small by lia. destruct (Z.eqb_spec (g + 1) (2 ^ 16 - 1)) as [->|].
  - by rewrite Z.mod_same.
  - by rewrite Z.mod_small by lia.
Qed.

Lemma closed_ages ioc ioc' r x :
  tables ioc → rd (res ioc) r = Ret x → res ioc' = <[Z.to_nat r := closed x]> (res ioc) → ages 1 ioc ioc'.
Proof.
  intros Ht Hx Hres j y Hy. pose proof (rd_bounds _ _ _ Hx). pose proof (rd_bounds _ _ _ Hy).
  destruct (tb_each _ Ht j y Hy) as [Hg _]. rewrite Hres. destruct (decide (j = r)) as [->|Hne].
  - assert (y = x) as -> by congruence. exists (closed x), 1. rewrite rd_insert_eq by lia. split; [done|]. split; [lia|].
    by apply next_gen_mod.
  - exists y, 0. rewrite rd_insert_ne by (done || lia). split; [done|]. split; [lia|]. by rewrite Z.add_0_r, Z.mod_small.
Qed.

Lemma ages_trans n m a b c : ages n a b → ages m b c → ages (n + m) a c.
Proof.
  intros Hab Hbc r x Hx. destruct (Hab r x Hx) as (y & i & Hy & Hi & Hgy). destruct (Hbc r y Hy) as (z & j & Hz & Hj & Hgz).
  exists z, (i + j). split; [done|]. split; [lia|]. by rewrite Hgz, Hgy, Z.add_mod_idemp_l, Z.add_assoc by done.
Qed.
