(* ===== verification/IoRings.v ===== *)
(** The rings of io_uring as [Io] uses them: what the ring of completions
    holds, and the ring of submissions between two calls. *)
From S2P Require Import Prelude Bits Io.
#[global] Open Scope Z_scope.

(** An index of a ring that has [2 ^ k] entries. *)
Lemma ring_index x k : 0 ≤ k ≤ 32 → Z.land (u32 x) (2 ^ k - 1) = x mod 2 ^ k.
Proof.
  intros Hk. rewrite land_mask by lia. unfold u32. apply Z.mod_mod_divide. exists (2 ^ (32 - k)).
  rewrite <-Z.pow_add_r by lia. f_equal. lia.
Qed.

Lemma u32_add_l x y : u32 (u32 x + y) = u32 (x + y).
Proof. unfold u32. by rewrite Z.add_mod_idemp_l by done. Qed.

(** ** Completions *)

(** The completions that were not looked at yet, the earliest first. *)
Record cq_holds (cq : io_completion_queue) (l : list io_uring_cqe) : Prop := mkCqHolds {
  hc_width : ∃ k, 0 ≤ k ≤ 31 ∧ cq_limit cq = 2 ^ k ∧ cq_mask cq = 2 ^ k - 1;
  hc_len : zlen (cq_entries cq) = cq_limit cq;
  hc_head : 0 ≤ cq_head cq < 2 ^ 32;
  hc_tail : cq_tail cq = u32 (cq_head cq + zlen l);
  hc_fits : zlen l ≤ cq_limit cq;
  hc_each : ∀ j, 0 ≤ j < zlen l → rd (cq_entries cq) ((cq_head cq + j) mod cq_limit cq) = rd l j;
}.

Lemma limit_range k : 0 ≤ k ≤ 31 → 0 < 2 ^ k ≤ 2 ^ 31.
Proof. intros Hk. split; [apply Z.pow_pos_nonneg; lia|apply Z.pow_le_mono_r; lia]. Qed.

Lemma post_ok cq l c :
  cq_holds cq l → zlen l < cq_limit cq →
  wp (post cq c) (λ cq', cq_holds cq' (l ++ [c]) ∧ cq_limit cq' = cq_limit cq ∧ cq_head cq' = cq_head cq).
Proof.
  intros [(k & Hk & Hlim & Hmask) Hlen Hhead Htail Hfits Heach] Hroom. unfold post.
  pose proof (limit_range k Hk). pose proof (zlen_nonneg l).
  rewrite Htail, Hmask, ring_index by lia. rewrite <-Hlim.
  pose proof (Z.mod_pos_bound (cq_head cq + zlen l) (cq_limit cq) ltac:(lia)).
  rewrite wr_ok by lia. cbn [mbind outcome_bind wp]. split; [|done].
  split; cbn [cq_head cq_tail cq_mask cq_limit cq_entries].
  - exists k. split_and!; lia.
  - by rewrite zlen_insert.
  - done.
  - rewrite u32_add_l, zlen_app. f_equal. change (zlen [c]) with 1. lia.
  - rewrite zlen_app. change (zlen [c]) with 1. lia.
  - intros j Hj. rewrite zlen_app in Hj. change (zlen [c]) with 1 in Hj.
    destruct (decide (j = zlen l)) as [->|Hne].
    + rewrite rd_insert_eq by lia. by rewrite rd_app_r, Z.sub_diag by lia.
    + rewrite rd_insert_ne; [|lia|].
      * rewrite Heach by lia. by rewrite rd_app_l by lia.
      * intros He. by apply (slots_apart (cq_limit cq) (cq_head cq + j) (cq_head cq + zlen l)); [lia..|].
Qed.

Lemma post_all_ok cq l posted :
  cq_holds cq l → zlen l + zlen posted ≤ cq_limit cq →
  wp (post_all cq posted) (λ cq', cq_holds cq' (l ++ posted) ∧ cq_limit cq' = cq_limit cq ∧ cq_head cq' = cq_head cq).
Proof.
  revert cq l. induction posted as [|c posted IH]; intros cq l Hcq Hfit; cbn [post_all].
  - by rewrite app_nil_r.
  - rewrite zlen_cons in Hfit. pose proof (zlen_nonneg posted). apply wp_bind.
    eapply wp_mono; [apply (post_ok cq l c Hcq); lia|]. intros cq1 (Hcq1 & Hlim & Hhead).
    rewrite (cons_middle c l posted), app_assoc. eapply wp_mono.
    { apply (IH cq1 (l ++ [c]) Hcq1). rewrite zlen_app. change (zlen [c]) with 1. lia. }
    intros cq2 (? & ? & ?). split; [done|]. split; congruence.
Qed.

(** The ring is empty exactly when its two positions agree. *)
Lemma cq_empty cq l : cq_holds cq l → (cq_head cq =? cq_tail cq) = bool_decide (l = []).
Proof.
  intros [(k & Hk & Hlim & _) _ Hhead Htail Hfits _]. pose proof (limit_range k Hk). pose proof (zlen_nonneg l).
  rewrite Htail. case_bool_decide as Hl.
  - subst l. rewrite Z.add_0_r, u32_small by done. apply Z.eqb_refl.
  - apply Z.eqb_neq. assert (zlen l ≠ 0) as Hne by (intros ?%zlen_0_inv; done).
    intros He. destruct (Z.lt_ge_cases (cq_head cq + zlen l) (2 ^ 32)).
    + rewrite u32_small in He by lia. lia.
    + unfold u32 in He. rewrite <-(Z.mod_add _ (-1)), Z.mod_small in He by lia. lia.
Qed.

(** Taking the first completion. *)
Lemma cq_first cq c l :
  cq_holds cq (c :: l) →
  rd (cq_entries cq) (Z.land (cq_head cq) (cq_mask cq)) = Ret c ∧
  cq_holds (mkCompletions (u32 (cq_head cq + 1)) (cq_tail cq) (cq_mask cq) (cq_limit cq) (cq_entries cq)) l.
Proof.
  intros [(k & Hk & Hlim & Hmask) Hlen Hhead Htail Hfits Heach]. pose proof (limit_range k Hk).
  rewrite zlen_cons in *. pose proof (zlen_nonneg l). split.
  - rewrite <-(u32_small (cq_head cq)) by done. rewrite Hmask, ring_index by lia. rewrite <-Hlim.
    rewrite <-(Z.add_0_r (cq_head cq)), Heach by lia. apply rd_cons_0.
  - split; cbn [cq_head cq_tail cq_mask cq_limit cq_entries]; [by exists k|done|apply u32_range| |lia|].
    + rewrite Htail, u32_add_l. f_equal. lia.
    + intros j Hj. transitivity (rd (c :: l) (1 + j)); [|rewrite rd_cons_S by lia; f_equal; lia].
      rewrite <-Heach by lia. f_equal. rewrite Hlim.
      rewrite <-!(ring_index _ k) by lia. rewrite u32_add_l. do 2 f_equal. lia.
Qed.

(** ** Submissions *)

(** A ring whose arrays are as long as it says; entries may be left in it. *)
Record sq_ok (sq : io_submission_queue) : Prop := mkSqOk {
  hw_width : ∃ k, 0 ≤ k ≤ 31 ∧ sq_limit sq = 2 ^ k ∧ sq_mask sq = 2 ^ k - 1;
  hw_array : zlen (sq_array sq) = sq_limit sq;
  hw_entries : zlen (sq_entries sq) = sq_limit sq;
  hw_head : 0 ≤ sq_head sq < 2 ^ 32;
  hw_tail : 0 ≤ sq_tail sq < 2 ^ 32;
}.

(** Everything that was submitted was taken. *)
Record sq_idle (sq : io_submission_queue) : Prop := mkSqIdle {
  hs_width : ∃ k, 0 ≤ k ≤ 31 ∧ sq_limit sq = 2 ^ k ∧ sq_mask sq = 2 ^ k - 1;
  hs_array : zlen (sq_array sq) = sq_limit sq;
  hs_entries : zlen (sq_entries sq) = sq_limit sq;
  hs_head : 0 ≤ sq_head sq < 2 ^ 32;
  hs_tail : sq_tail sq = sq_head sq;
}.

Lemma sq_idle_ok sq : sq_idle sq → sq_ok sq.
Proof. intros [? ? ? ? Ht]. split; [done..|]. by rewrite Ht. Qed.

(** The entry the system takes next. *)
Definition next_sqe (sq : io_submission_queue) : outcome io_uring_sqe :=
  i ← rd (sq_array sq) (Z.land (sq_head sq) (sq_mask sq)); rd (sq_entries sq) i.

(** The queue before the system takes the entry that was put into it. *)
Definition pushed (sq : io_submission_queue) (sqe : io_uring_sqe) : io_submission_queue :=
  let index := Z.land (sq_tail sq) (sq_mask sq) in
  mkSubmissions (sq_head sq) (u32 (sq_tail sq + 1)) (sq_mask sq) (sq_limit sq)
    (<[Z.to_nat index := index]> (sq_array sq)) (<[Z.to_nat index := sqe]> (sq_entries sq)).

Definition taken (sq : io_submission_queue) : io_submission_queue :=
  mkSubmissions (u32 (sq_head sq + 1)) (sq_tail sq) (sq_mask sq) (sq_limit sq) (sq_array sq) (sq_entries sq).

Lemma pushed_ok sq sqe :
  sq_idle sq → sq_head sq + sq_limit sq < 2 ^ 32 →
  next_sqe (pushed sq sqe) = Ret sqe ∧ sq_idle (taken (pushed sq sqe)).
Proof.
  intros [(k & Hk & Hlim & Hmask) Ha He Hh Ht] Hfit. pose proof (limit_range k Hk). unfold next_sqe, pushed, taken.
  rewrite Ht, Hmask. cbn [sq_array sq_entries sq_head sq_tail sq_mask sq_limit].
  rewrite !land_mask by lia. pose proof (Z.mod_pos_bound (sq_head sq) (2 ^ k) ltac:(lia)).
  rewrite rd_insert_eq by lia. cbn [mbind outcome_bind]. rewrite rd_insert_eq by lia. split; [done|].
  split; cbn [sq_array sq_entries sq_head sq_tail sq_mask sq_limit]; [by exists k; split_and!; lia|by rewrite zlen_insert..|apply u32_range|done].
Qed.

Lemma pushed_keeps sq sqe :
  sq_ok sq → 0 ≤ Z.land (sq_tail sq) (sq_mask sq) < sq_limit sq ∧ sq_ok (pushed sq sqe).
Proof.
  intros [(k & Hk & Hlim & Hmask) Ha He Hh Ht]. pose proof (limit_range k Hk). rewrite Hmask, land_mask, Hlim by lia.
  split; [apply Z.mod_pos_bound; lia|]. unfold pushed.
  split; cbn [sq_array sq_entries sq_head sq_tail sq_mask sq_limit]; [by exists k|by rewrite zlen_insert..|done|apply u32_range].
Qed.
