(* ===== verification/IoSafe.v ===== *)
(** The contexts of [Io] as a whole: each operation under way is awaited by
    the system exactly once, what a wait reports is one of them, and a
    program that keeps to the rules never meets a failed assertion. *)
From S2P Require Import Prelude Bits Io IoTables IoRings.
#[global] Open Scope Z_scope.

(** ** The invariant *)

Definition users (l : list io_uring_cqe) : list Z := cqe_user_data <$> l.

(** The operations under way are those of [K], each once. *)
Definition awaited (l : list io_operation) (K : list Z) : Prop :=
  NoDup K ∧ ∀ i, i ∈ K ↔ ∃ o, rd l i = Ret o ∧ op_type o ≠ IO_VOID.

Definition rings_ok (p : platform) (ioc : io_context) (Q : list io_uring_cqe) : Prop :=
  match p with
  | WINDOWS => Q = []
  | LINUX => sq_ok (submissions ioc) ∧ cq_holds (completions ioc) Q
  end.

(** [Q] are the completions in their ring, [K] the operations that the system
    has still to complete. *)
Record Inv (p : platform) (ioc : io_context) (Q : list io_uring_cqe) (K : list Z) : Prop := mkInv {
  in_tables : tables ioc;
  in_rings : rings_ok p ioc Q;
  in_awaited : awaited (ops ioc) (users Q ++ K);
}.

Lemma awaited_perm l K K' : K ≡ₚ K' → awaited l K → awaited l K'.
Proof. intros HK [Hd Hi]. split; [by rewrite <-HK|]. intros i. by rewrite <-HK. Qed.

#[global] Instance awaited_proper l : Proper ((≡ₚ) ==> iff) (awaited l).
Proof. intros K K' HK. split; by apply awaited_perm. Qed.

Lemma awaited_start l op o o' K :
  awaited l K → rd l op = Ret o → op_type o = IO_VOID → op_type o' ≠ IO_VOID →
  awaited (<[Z.to_nat op := o']> l) (op :: K).
Proof.
  intros [Hd Hi] Ho Hv Hv'. pose proof (rd_bounds _ _ _ Ho) as Hb. split.
  - constructor; [|done]. intros (o1 & Ho1 & ?)%Hi. congruence.
  - intros i. rewrite elem_of_cons. split.
    + intros [->|(o1 & Ho1 & Ht)%Hi]; [exists o'; split; [by apply rd_insert_eq|done]|].
      exists o1. split; [|done]. rewrite rd_insert_ne; [done|lia|]. intros <-. congruence.
    + intros (o1 & Ho1 & Ht). destruct (rd_insert_inv _ _ _ _ _ Hb Ho1) as [[-> _]|[_ ?]]; [by left|right; apply Hi; by exists o1].
Qed.

Lemma awaited_done l op o' K :
  awaited l (op :: K) → op_type o' = IO_VOID → awaited (<[Z.to_nat op := o']> l) K.
Proof.
  intros [Hd Hi] Hv. apply NoDup_cons in Hd as [Hnot Hd]. split; [done|].
  destruct (proj1 (Hi op) ltac:(left)) as (o & Ho & _). pose proof (rd_bounds _ _ _ Ho) as Hb. intros i. split.
  - intros HiK. destruct (proj1 (Hi i) ltac:(by right)) as (o1 & Ho1 & Ht). exists o1. split; [|done].
    rewrite rd_insert_ne; [done|lia|]. by intros <-.
  - intros (o1 & Ho1 & Ht). destruct (rd_insert_inv _ _ _ _ _ Hb Ho1) as [[_ ->]|[Hne Hx]]; [done|].
    assert (i ∈ op :: K) as [->|?]%elem_of_cons by (apply Hi; by exists o1); done.
Qed.

Lemma awaited_void l op o o' K :
  awaited l K → rd l op = Ret o → op_type o = IO_VOID → op_type o' = IO_VOID → awaited (<[Z.to_nat op := o']> l) K.
Proof.
  intros [Hd Hi] Ho Hv Hv'. pose proof (rd_bounds _ _ _ Ho) as Hb. split; [done|]. intros i. rewrite Hi. split.
  - intros (o1 & Ho1 & Ht). exists o1. split; [|done]. rewrite rd_insert_ne; [done|lia|]. intros <-. congruence.
  - intros (o1 & Ho1 & Ht). destruct (rd_insert_inv _ _ _ _ _ Hb Ho1) as [[_ ->]|[_ ?]]; [done|by exists o1].
Qed.

Lemma tables_eq ioc ioc' :
  tables ioc → res ioc' = res ioc → ops ioc' = ops ioc → max_res ioc' = max_res ioc → max_ops ioc' = max_ops ioc → tables ioc'.
Proof. intros [] Hr Ho Hmr Hmo. split; rewrite ?Hr, ?Ho, ?Hmr, ?Hmo; done. Qed.

Lemma tables_void_op ioc op o o' :
  tables ioc → rd (ops ioc) op = Ret o → op_type o = IO_VOID → op_type o' = IO_VOID →
  tables (with_ops ioc (<[Z.to_nat op := o']> (ops ioc))).
Proof.
  intros [Hr Ho Hmr Hmo Heach Hbusy] Hop Hv Hv'. pose proof (rd_bounds _ _ _ Hop) as Hb.
  split; cbn [res ops max_res max_ops with_ops]; [done|by rewrite zlen_insert|done|done| |].
  - intros r x Hx. unfold res_ok. rewrite (count_insert r _ _ o o' Hop), !bool_decide_false by (intros [? _]; done).
    destruct (Heach r x Hx) as (? & Hp & ?). split; [done|]. split; [|done]. rewrite Hp. simpl. lia.
  - intros i oi Hi Ht. destruct (rd_insert_inv _ _ _ _ _ Hb Hi) as [[_ ->]|[_ ?]]; [done|by eapply Hbusy].
Qed.

(** ** What the system may answer *)

(** A handle of a resource in use. *)
Definition live (ioc : io_context) (h r : Z) (x : io_resource) : Prop :=
  res_from_handle ioc h = Ret (Some r) ∧ rd (res ioc) r = Ret x ∧ r_type x ≠ IO_RES_VOID.

(** The ring of submissions looks full. *)
Definition refuses (sq : io_submission_queue) : bool := u32 (sq_head sq + sq_limit sq) <=? sq_tail sq.

(** Starting the operation [op].  [io_uring_enter] may fail: then it takes
    nothing, and the submission stays in the ring.  Else it takes the oldest
    entry of the ring, which is the submission unless an earlier one was left
    there.  Meanwhile the system completes some of the operations it has.
    Windows may refuse. *)
Definition starts (p : platform) (ioc : io_context) (op : Z) (type : io_optype) (a : started)
    (Q : list io_uring_cqe) (K : list Z) (Q' : list io_uring_cqe) (K' : list Z) : Prop :=
  match p with
  | WINDOWS => Q' = Q ∧
      K' = if s_ok a && (negb (bool_decide (type = IO_ACCEPT)) || bool_decide (s_socket a ≠ None)) then op :: K else K
  | LINUX =>
      if refuses (submissions ioc) then Q' = Q ∧ K' = K
      else Q' = Q ++ e_posted (s_enter a) ∧ zlen Q' ≤ cq_limit (completions ioc) ∧
        if e_ret (s_enter a) <? 0 then e_taken (s_enter a) = 0 ∧ K ≡ₚ users (e_posted (s_enter a)) ++ K'
        else e_taken (s_enter a) = 1 ∧ sq_idle (submissions ioc) ∧ op :: K ≡ₚ users (e_posted (s_enter a)) ++ K'
  end.

(** A wait: completions of operations that the system has; when there was
    none, the call waits for one or is interrupted. *)
Definition waits (p : platform) (ioc : io_context) (w : waited)
    (Q : list io_uring_cqe) (K : list Z) (Q' : list io_uring_cqe) (K' : list Z) : Prop :=
  match p with
  | WINDOWS => Q' = Q ∧ match w_status w with NoStatus => K' = K | Failure op => K ≡ₚ op :: K' | Success op num => K ≡ₚ op :: K' ∧ 0 ≤ num end
  | LINUX => zlen (Q ++ w_posted w) ≤ cq_limit (completions ioc) ∧
      match Q ++ w_posted w with
      | _ :: l => Q' = l ∧ K ≡ₚ users (w_posted w) ++ K'
      | [] => e_taken (w_enter w) = 0 ∧ zlen (e_posted (w_enter w)) ≤ cq_limit (completions ioc) ∧
          K ≡ₚ users (e_posted (w_enter w)) ++ K' ∧
          match e_posted (w_enter w) with
          | [] => e_ret (w_enter w) < 0 ∧ Q' = []
          | _ :: l => 0 ≤ e_ret (w_enter w) ∧ Q' = l
          end
      end
  end.

(** The operation that a wait finds finished, with its result. *)
Definition finished (p : platform) (Q : list io_uring_cqe) (w : waited) : option (Z * Z) :=
  match p with
  | WINDOWS => match w_status w with NoStatus => None | Failure op => Some (op, -1) | Success op num => Some (op, num) end
  | LINUX => match Q ++ w_posted w ++ (if bool_decide (Q ++ w_posted w = []) then e_posted (w_enter w) else []) with
             | [] => None | c :: _ => Some (cqe_user_data c, cqe_res c) end
  end.

(** ** Starting operations *)

Lemma start_uring_op_ok ioc sqe e Q :
  sq_idle (submissions ioc) → cq_holds (completions ioc) Q → refuses (submissions ioc) = false →
  0 ≤ e_ret e → e_taken e = 1 → zlen (Q ++ e_posted e) ≤ cq_limit (completions ioc) →
  next_sqe (pushed (submissions ioc) sqe) = Ret sqe ∧
  wp (start_uring_op ioc sqe e) (λ '(ioc', ok), ok = true ∧ submissions ioc' = taken (pushed (submissions ioc) sqe) ∧
    sq_idle (submissions ioc') ∧ cq_holds (completions ioc') (Q ++ e_posted e) ∧ res ioc' = res ioc ∧ ops ioc' = ops ioc ∧
    max_res ioc' = max_res ioc ∧ max_ops ioc' = max_ops ioc ∧ log ioc' = log ioc).
Proof.
  intros Hsq Hcq Hfull Hret Htaken Hfit. pose proof Hsq as [(k & Hk & Hlim & Hmask) Harr Hent Hhead Htail].
  pose proof (limit_range k Hk). unfold refuses in Hfull.
  assert (sq_head (submissions ioc) + sq_limit (submissions ioc) < 2 ^ 32) as Hroom.
  { destruct (Z.leb_spec (u32 (sq_head (submissions ioc) + sq_limit (submissions ioc))) (sq_tail (submissions ioc))) as [|Hlt]; [done|].
    destruct (Z.lt_ge_cases (sq_head (submissions ioc) + sq_limit (submissions ioc)) (2 ^ 32)); [done|].
    unfold u32 in Hlt. rewrite <-(Z.mod_add _ (-1)), Z.mod_small in Hlt by lia. lia. }
  destruct (pushed_ok (submissions ioc) sqe Hsq Hroom) as [Hnext Hidle]. split; [done|].
  unfold start_uring_op. rewrite Hfull. rewrite Hmask, Htail, land_mask by lia.
  pose proof (Z.mod_pos_bound (sq_head (submissions ioc)) (2 ^ k) ltac:(lia)).
  rewrite !wr_ok by lia. cbn [mbind outcome_bind]. unfold io_uring_enter.
  cbn [submissions with_submissions completions sq_head sq_tail sq_mask sq_limit sq_array sq_entries].
  rewrite zlen_app in Hfit. apply wp_bind, wp_bind.
  eapply wp_mono; [by apply (post_all_ok _ Q)|]. intros cq (Hcq' & _ & _). cbn [mbind outcome_bind wp].
  destruct (Z.ltb_spec (e_ret e) 0); [lia|]. split; [done|]. cbn [submissions completions res ops max_res max_ops log with_completions].
  assert (∀ x y, x = y → sq_idle y → x = y ∧ sq_idle x) as Hpair by (by intros ? ? ->).
  match goal with |- ?x = ?y ∧ sq_idle ?z ∧ ?rest => enough (x = y ∧ sq_idle z) as [??] by (by split_and!) end.
  apply Hpair; [|done]. unfold taken, pushed. cbn [sq_head sq_tail sq_mask sq_limit sq_array sq_entries].
  rewrite Htaken, Htail, Hmask, land_mask by lia. done.
Qed.

(** The submission that [io_uring_enter] fails for. *)
Lemma start_uring_op_fails ioc sqe e Q :
  sq_ok (submissions ioc) → cq_holds (completions ioc) Q → refuses (submissions ioc) = false →
  e_ret e < 0 → e_taken e = 0 → zlen (Q ++ e_posted e) ≤ cq_limit (completions ioc) →
  wp (start_uring_op ioc sqe e) (λ '(ioc', ok), ok = false ∧ submissions ioc' = pushed (submissions ioc) sqe ∧
    sq_ok (submissions ioc') ∧ cq_holds (completions ioc') (Q ++ e_posted e) ∧ res ioc' = res ioc ∧ ops ioc' = ops ioc ∧
    max_res ioc' = max_res ioc ∧ max_ops ioc' = max_ops ioc ∧ log ioc' = log ioc).
Proof.
  intros Hsq Hcq Hfull Hret Htaken Hfit. destruct (pushed_keeps (submissions ioc) sqe Hsq) as [Hb Hok].
  unfold refuses in Hfull. unfold start_uring_op. rewrite Hfull, zlen_app in *.
  pose proof (hw_array _ Hsq). pose proof (hw_entries _ Hsq). rewrite !wr_ok by lia. cbn [mbind outcome_bind].
  unfold io_uring_enter. cbn [submissions with_submissions completions sq_head sq_tail sq_mask sq_limit sq_array sq_entries].
  apply wp_bind, wp_bind. eapply wp_mono; [by apply (post_all_ok _ Q)|]. intros cq (Hcq' & _ & _). cbn [mbind outcome_bind wp].
  destruct (Z.ltb_spec (e_ret e) 0); [|lia]. rewrite Htaken, Z.add_0_r, (u32_small (sq_head _)) by apply Hsq.
  by split_and!.
Qed.

(** What the part of the platform leaves behind, before the tables know of the
    operation. *)
Record begun (p : platform) (ioc ioc1 : io_context) (op : Z) (ok : bool) (Q : list io_uring_cqe) (K : list Z)
    (Q' : list io_uring_cqe) (K' : list Z) : Prop := mkBegun {
  be_rings : rings_ok p ioc1 Q';
  be_tables : tables ioc1;
  be_res : res ioc1 = res ioc;
  be_free : ∃ o, rd (ops ioc1) op = Ret o ∧ op_type o = IO_VOID;
  be_awaited : awaited (ops ioc1) (users Q ++ K);
  be_begun : users Q' ++ K' ≡ₚ if ok then op :: users Q ++ K else users Q ++ K;
}.

Lemma start_op_ok p ioc user h type start Q K Q' K' r x :
  Inv p ioc Q K → live ioc h r x → type ≠ IO_VOID →
  (∀ op, find_unused_op ioc = Ret (Some op) → wp (start ioc x op) (λ '(ioc1, ok), begun p ioc ioc1 op ok Q K Q' K')) →
  (find_unused_op ioc = Ret None → Q' = Q ∧ K' = K) →
  wp (start_op ioc user h type start) (λ '(ioc', ok), Inv p ioc' Q' K' ∧
    if ok : bool then ∃ op o, find_unused_op ioc = Ret (Some op) ∧ rd (ops ioc') op = Ret o ∧
      op_type o = type ∧ op_res o = Some r ∧ op_user o = user
    else users Q' ++ K' ≡ₚ users Q ++ K).
Proof.
  intros [Ht Hrings Haw] (Hh & Hx & Hlive) Htype Hstart Hnone. unfold start_op. rewrite Hh. cbn [mbind outcome_bind].
  pose proof (find_unused_op_ok ioc Ht) as Hfind. destruct (find_unused_op ioc) as [[op|]|]; [|destruct (Hnone eq_refl) as [-> ->]; by split|done].
  cbn [mbind outcome_bind]. rewrite Hx. cbn [mbind outcome_bind]. apply wp_bind.
  eapply wp_mono; [by apply Hstart|]. intros [ioc1 ok] [Hrings1 Ht1 Hres1 (o & Ho & Hv) Haw1 Hk].
  destruct ok; cbn [negb]; cycle 1.
  { split; [|done]. split; [done|done|]. by eapply awaited_perm; [symmetry|]. }
  apply wp_bind. eapply wp_mono; [apply (mark_started_ok ioc1 r op type user x o); [done|by rewrite Hres1|done..]|].
  intros ioc2 (Ht2 & Hs2 & _ & Hops2 & _). cbn [wp]. pose proof (rd_bounds _ _ _ Ho) as Hb. split.
  - split; [done| |].
    + destruct p; [done|]. destruct Hrings1. cbn [rings_ok]. by rewrite (ss_submissions _ _ Hs2), (ss_completions _ _ Hs2).
    + rewrite Hk, Hops2. by eapply awaited_start.
  - exists op. eexists. split; [done|]. rewrite Hops2. split; [by apply rd_insert_eq|done].
Qed.

(** The submission of io_uring. *)
Lemma begun_linux ioc sqe op type a Q K Q' K' :
  Inv LINUX ioc Q K → find_unused_op ioc = Ret (Some op) → starts LINUX ioc op type a Q K Q' K' →
  wp (start_uring_op ioc sqe (s_enter a)) (λ '(ioc1, ok), begun LINUX ioc ioc1 op ok Q K Q' K').
Proof.
  intros [Ht [Hsq Hcq] Haw] Hfind Hstarts. pose proof (find_unused_op_ok ioc Ht) as Hfree. rewrite Hfind in Hfree.
  unfold starts in Hstarts. destruct (refuses (submissions ioc)) eqn:Hfull.
  { unfold start_uring_op. unfold refuses in Hfull. rewrite Hfull. destruct Hstarts as [-> ->]. by split. }
  destruct Hstarts as (-> & Hfit & Hcase). destruct (Z.ltb_spec (e_ret (s_enter a)) 0) as [Hret|Hret].
  { destruct Hcase as [Htaken HK]. eapply wp_mono; [by apply (start_uring_op_fails ioc sqe (s_enter a) Q)|].
    intros [ioc1 ok] (-> & _ & Hsq1 & Hcq1 & Hr & Ho & Hmr & Hmo & _).
    split; [done|by apply (tables_eq ioc)|done|by rewrite Ho|by rewrite Ho|].
    unfold users. rewrite fmap_app, <-app_assoc. fold (users Q) (users (e_posted (s_enter a))). by rewrite <-HK. }
  destruct Hcase as (Htaken & Hidle & HK).
  destruct (start_uring_op_ok ioc sqe (s_enter a) Q Hidle Hcq Hfull Hret Htaken Hfit) as [_ Hrun].
  eapply wp_mono; [exact Hrun|]. intros [ioc1 ok] (-> & _ & Hsq1%sq_idle_ok & Hcq1 & Hr & Ho & Hmr & Hmo & _). split; [done| |done| | |].
  - by apply (tables_eq ioc).
  - by rewrite Ho.
  - by rewrite Ho.
  - unfold users. rewrite fmap_app, <-app_assoc. fold (users Q) (users (e_posted (s_enter a))). rewrite <-HK.
    symmetry. apply Permutation_middle.
Qed.

(** A call of ReadFile. *)
Lemma begun_read ioc fd addr len op type a Q K Q' K' :
  Inv WINDOWS ioc Q K → find_unused_op ioc = Ret (Some op) → type ≠ IO_ACCEPT → starts WINDOWS ioc op type a Q K Q' K' →
  begun WINDOWS ioc (asks ioc (Read fd addr len op)) op (s_ok a) Q K Q' K'.
Proof.
  intros [Ht Hrings Haw] Hfind Htype [-> ->]. pose proof (find_unused_op_ok ioc Ht) as Hfree. rewrite Hfind in Hfree.
  rewrite bool_decide_false by done. split; [done|by apply (tables_eq ioc)|done|done|done|].
  destruct (s_ok a); cbn [andb negb orb]; [|done]. symmetry. apply Permutation_middle.
Qed.

(** A call of AcceptEx, on a server. *)
Lemma begun_accept ioc x fd op a Q K Q' K' :
  Inv WINDOWS ioc Q K → find_unused_op ioc = Ret (Some op) → is_Some (r_acceptfn x) →
  starts WINDOWS ioc op IO_ACCEPT a Q K Q' K' →
  wp (io_accept_windows ioc x op fd a) (λ '(ioc1, ok), begun WINDOWS ioc ioc1 op ok Q K Q' K').
Proof.
  intros [Ht Hrings Haw] Hfind [f Hf] [-> ->]. pose proof (find_unused_op_ok ioc Ht) as Hfree. rewrite Hfind in Hfree.
  unfold io_accept_windows. rewrite Hf, (bool_decide_true (IO_ACCEPT = IO_ACCEPT)) by done. cbn [negb orb].
  destruct (s_socket a) as [new|]; cycle 1.
  { rewrite bool_decide_false, andb_false_r by naive_solver. by split. }
  rewrite bool_decide_true, andb_true_r by done. cbn [mbind outcome_bind]. destruct (s_ok a); cbn [negb]; cycle 1.
  { split; [done|by apply (tables_eq ioc)|done|done|done|done]. }
  destruct Hfree as (o & Ho & Hv). cbn [ops asks]. rewrite Ho. cbn [mbind outcome_bind]. rewrite (set_op_ok _ _ o) by done.
  cbn [mbind outcome_bind wp]. pose proof (rd_bounds _ _ _ Ho). split; cbn [ops with_ops asks]; [done| |done| | |].
  - apply (tables_eq (with_ops ioc (<[Z.to_nat op := mkOp (op_type o) (op_res o) (op_user o) new]> (ops ioc)))); [|done..].
    by apply (tables_void_op ioc op o).
  - eexists. split; [by apply rd_insert_eq|done].
  - by eapply awaited_void.
  - symmetry. apply Permutation_middle.
Qed.

(** ** Events *)

(** The operation [op] is over, for its resource [r]. *)
Record over (ioc ioc' : io_context) (op r : Z) (o : io_operation) (x : io_resource) : Prop := mkOver {
  ov_op : rd (ops ioc) op = Ret o;
  ov_busy : uses r o;
  ov_res : rd (res ioc) r = Ret x;
  ov_live : r_type x ≠ IO_RES_VOID;
  ov_ops : ops ioc' = <[Z.to_nat op := with_type o IO_VOID]> (ops ioc);
  ov_pending : ∃ x', rd (res ioc') r = Ret x' ∧ r_pending x' = r_pending x - 1 ∧ res_handle r x' = res_handle r x;
}.

(** What an event says of an operation that is over with a result. *)
Definition tells (p : platform) (ioc' : io_context) (o : io_operation) (h n : Z) (ev : io_event) : Prop :=
  ev_handle ev = h ∧ ev_user ev = op_user o ∧ ev_optype ev = op_type o ∧
  match ev_evtype ev with
  | IO_ERROR => False
  | IO_ABORT => n < 0 ∨ p = WINDOWS ∧ op_type o = IO_ACCEPT
  | IO_COMPLETE => 0 ≤ n ∧
      if bool_decide (p = WINDOWS ∧ op_type o = IO_ACCEPT)
      then ∃ r x, live ioc' (ev_num ev) r x ∧ r_type x = IO_RES_SOCKET ∧ r_os_handle x = op_accepted o ∧ r_pending x = 0
      else ev_num ev = n
  end.

(** The event of a wait. *)
Definition event_ok (p : platform) (ioc ioc' : io_context) (fin : option (Z * Z)) (ev : io_event) : Prop :=
  match fin with
  | None => ev_evtype ev = IO_ERROR ∧ ev_handle ev = IO_INVALID ∧ ops ioc' = ops ioc ∧ res ioc' = res ioc
  | Some (op, n) => ∃ r o x, over ioc ioc' op r o x ∧ tells p ioc' o (res_handle r x) n ev
  end.

Lemma busy_res ioc op o :
  tables ioc → rd (ops ioc) op = Ret o → op_type o ≠ IO_VOID →
  ∃ r x, op_res o = Some r ∧ rd (res ioc) r = Ret x ∧ r_type x ≠ IO_RES_VOID ∧ uses r o.
Proof.
  intros Ht Ho Htype. destruct (tb_busy _ Ht op o Ho Htype) as (r & x & Hr & Hx). exists r, x.
  assert (uses r o) as Hu by done. split_and!; try done. intros Hv. destruct (tb_each _ Ht r x Hx) as (_ & Hp & Hvoid).
  destruct (Hvoid Hv) as [Hp0 _]. pose proof (count_pos r _ _ o Ho Hu). lia.
Qed.

(** An operation that is marked as done. *)
Lemma mark_done_over ioc op r o x :
  tables ioc → rd (ops ioc) op = Ret o → rd (res ioc) r = Ret x → r_type x ≠ IO_RES_VOID → uses r o →
  wp (mark_done ioc r op) (λ ioc', tables ioc' ∧ same_system ioc ioc' ∧ over ioc ioc' op r o x ∧
    res ioc' = <[Z.to_nat r := with_pending x (r_pending x - 1)]> (res ioc)).
Proof.
  intros Ht Ho Hx Hlive Hu. eapply wp_mono; [by apply (mark_done_ok ioc r op x o)|].
  intros ioc' (Ht' & Hs & _ & Hops & Hres). split_and!; [done..| |done]. split; [done..|].
  exists (with_pending x (r_pending x - 1)). split; [|done]. rewrite Hres. apply rd_insert_eq. by eapply rd_bounds.
Qed.

Lemma awaited_head l op K : awaited l (op :: K) → ∃ o, rd l op = Ret o ∧ op_type o ≠ IO_VOID.
Proof. intros [_ Hi]. apply Hi. left. Qed.

Lemma event_ok_same p ioc ioc1 ioc' fin ev :
  res ioc1 = res ioc → ops ioc1 = ops ioc → event_ok p ioc1 ioc' fin ev → event_ok p ioc ioc' fin ev.
Proof.
  intros Hr Ho. destruct fin as [[op n]|]; cbn [event_ok]; [|by rewrite Hr, Ho].
  intros (r & o & x & [] & Ht). exists r, o, x. split; [|done]. split; rewrite <-?Hr, <-?Ho; done.
Qed.

Lemma reap_ok ioc ev c l K :
  tables ioc → sq_ok (submissions ioc) → cq_holds (completions ioc) (c :: l) → awaited (ops ioc) (users (c :: l) ++ K) →
  wp (reap ioc ev (cq_head (completions ioc))) (λ '(ioc', ev'), Inv LINUX ioc' l K ∧
    event_ok LINUX ioc ioc' (Some (cqe_user_data c, cqe_res c)) ev').
Proof.
  intros Ht Hsq Hcq Haw. destruct (cq_first _ _ _ Hcq) as [Hfirst Hrest]. unfold reap. rewrite Hfirst. cbn [mbind outcome_bind].
  destruct (awaited_head _ _ _ Haw) as (o & Ho & Htype). rewrite Ho. cbn [mbind outcome_bind].
  destruct (busy_res _ _ _ Ht Ho Htype) as (r & x & Hr & Hx & Hlive & Hu). rewrite Hr, (handle_from_res_ok _ Ht r x Hx).
  cbn [res_pointer mbind outcome_bind]. apply wp_bind. eapply wp_mono; [by apply (mark_done_over ioc _ r o x)|].
  intros ioc1 (Ht1 & Hs1 & [? ? ? ? Hops Hpend] & _). cbn [wp]. split.
  - split.
    + by apply (tables_eq ioc1).
    + cbn [rings_ok submissions completions with_completions]. rewrite (ss_submissions _ _ Hs1), (ss_completions _ _ Hs1). by split.
    + cbn [ops with_completions]. rewrite Hops. by apply awaited_done.
  - exists r, o, x. split; [by split|]. unfold tells. destruct (Z.ltb_spec (cqe_res c) 0); cbn [ev_handle ev_user ev_optype ev_evtype ev_num].
    + split_and!; [done..|by left].
    + split_and!; [done..|]. rewrite bool_decide_false by naive_solver. by destruct (op_type o).
Qed.

Lemma io_wait_internal_linux_ok ioc ev w Q K Q' K' :
  Inv LINUX ioc Q K → waits LINUX ioc w Q K Q' K' →
  wp (io_wait_internal_linux ioc ev w) (λ '(ioc', ev'), Inv LINUX ioc' Q' K' ∧
    event_ok LINUX ioc ioc' (finished LINUX Q w) ev').
Proof.
  intros [Ht [Hsq Hcq] Haw] [Hfit Hw]. unfold io_wait_internal_linux, finished. apply wp_bind.
  assert (zlen Q + zlen (w_posted w) ≤ cq_limit (completions ioc)) as Hfit' by (by rewrite <-zlen_app).
  eapply wp_mono; [by apply (post_all_ok _ Q)|]. intros cq (Hcq1 & Hlim & _).
  cbn [completions with_completions]. rewrite (cq_empty _ _ Hcq1). rewrite app_assoc.
  assert (∀ l K1, awaited (ops ioc) (users Q ++ K) → K ≡ₚ users l ++ K1 → awaited (ops ioc) (users (Q ++ l) ++ K1)) as Hmore.
  { intros l K1 Haw1 HK. eapply awaited_perm; [|exact Haw1]. rewrite HK. unfold users. by rewrite fmap_app, <-app_assoc. }
  destruct (Q ++ w_posted w) as [|c l] eqn:Hq.
  - rewrite !bool_decide_true by done. destruct Hw as (Htaken & Hfit2 & HK & Hcase).
    apply app_eq_nil in Hq as [-> Hpost]. apply wp_bind. unfold io_uring_enter. apply wp_bind.
    change (zlen (@nil io_uring_cqe)) with 0 in Hfit'. eapply wp_mono; [apply (post_all_ok _ []); [done|change (zlen (@nil io_uring_cqe)) with 0; cbn [completions with_submissions with_completions]; lia]|].
    cbn [completions submissions with_submissions with_completions app]. intros cq2 (Hcq2 & _ & Hhead2). cbn [wp].
    set (ioc2 := with_completions _ cq2).
    assert (sq_ok (submissions ioc2)) as Hsq2.
    { unfold ioc2. cbn [submissions with_submissions with_completions]. destruct Hsq as [Hwd Ha He Hh Htl].
      split; cbn [sq_head sq_tail sq_mask sq_limit sq_array sq_entries]; [done..|apply u32_range|done]. }
    assert (tables ioc2) as Ht2 by (by apply (tables_eq ioc)).
    destruct (e_posted (w_enter w)) as [|c l].
    + destruct Hcase as [Hret ->]. destruct (Z.ltb_spec (e_ret (w_enter w)) 0); [|lia]. cbn [wp]. split; [|done].
      split; [done|by split|]. by apply (Hmore [] K').
    + destruct Hcase as [Hret ->]. destruct (Z.ltb_spec (e_ret (w_enter w)) 0); [lia|].
      rewrite <-Hhead2.
      change cq2 with (completions ioc2). eapply wp_mono; [apply (reap_ok ioc2 ev c l K'); [done..|by apply (Hmore (c :: l) K')]|].
      intros [ioc3 ev3] [? Hev]. split; [done|]. by apply (event_ok_same LINUX ioc ioc2).
  - rewrite !bool_decide_false by done. rewrite app_nil_r. destruct Hw as [-> HK].
    set (ioc2 := with_completions ioc cq). change cq with (completions ioc2).
    eapply wp_mono; [apply (reap_ok ioc2 ev c l K'); [by apply (tables_eq ioc)|done|done|rewrite <-Hq; by apply Hmore]|].
    intros [ioc3 ev3] [? Hev]. split; [done|]. by apply (event_ok_same LINUX ioc ioc2).
Qed.

(** An operation that is over, in a context that differs in nothing else that
    an event tells of. *)
Lemma done_windows ioc ioc1 op r o x K :
  tables ioc1 → rd (ops ioc) op = Ret o → rd (res ioc) r = Ret x → r_type x ≠ IO_RES_VOID → uses r o →
  ops ioc1 = ops ioc → rd (res ioc1) r = Ret x → awaited (ops ioc) (op :: K) →
  wp (mark_done ioc1 r op) (λ ioc', Inv WINDOWS ioc' [] K ∧ over ioc ioc' op r o x ∧
    res ioc' = <[Z.to_nat r := with_pending x (r_pending x - 1)]> (res ioc1)).
Proof.
  intros Ht1 Ho Hx Hlive Hu Hops Hx1 Haw. eapply wp_mono; [apply (mark_done_over ioc1 op r o x); [done|by rewrite Hops|done..]|].
  intros ioc' (Ht' & _ & [? ? ? ? Hops' ?] & Hres'). rewrite Hops in Hops'. split; [|by split]. split; [done|done|].
  rewrite Hops'. cbn [users fmap list_fmap app]. by apply awaited_done.
Qed.

Lemma io_wait_internal_windows_ok ioc ev w Q K Q' K' :
  Inv WINDOWS ioc Q K → waits WINDOWS ioc w Q K Q' K' →
  wp (io_wait_internal_windows ioc ev w) (λ '(ioc', ev'), Inv WINDOWS ioc' Q' K' ∧
    event_ok WINDOWS ioc ioc' (finished WINDOWS Q w) ev').
Proof.
  intros [Ht Hrings Haw] [-> Hw]. cbn [rings_ok] in Hrings. subst Q. cbn [users fmap list_fmap app] in Haw.
  unfold io_wait_internal_windows, finished. destruct (w_status w) as [|op|op num].
  { subst K'. by split. }
  - rewrite Hw in Haw. destruct (awaited_head _ _ _ Haw) as (o & Ho & Htype). rewrite Ho. cbn [mbind outcome_bind].
    destruct (busy_res _ _ _ Ht Ho Htype) as (r & x & Hr & Hx & Hlive & Hu). rewrite Hr, (handle_from_res_ok _ Ht r x Hx).
    cbn [res_pointer mbind outcome_bind]. set (ioc1 := if bool_decide _ then _ else _).
    assert (tables ioc1 ∧ ops ioc1 = ops ioc ∧ res ioc1 = res ioc) as (Ht1 & Hops1 & Hres1).
    { unfold ioc1. case_bool_decide; [|done]. split; [by apply (tables_eq ioc)|done]. }
    apply wp_bind. eapply wp_mono; [apply (done_windows ioc ioc1 op r o x K'); [done..|by rewrite Hres1|done]|].
    intros ioc' (HI & Hov & _). cbn [wp]. split; [done|]. exists r, o, x. split; [done|]. split_and!; [done..|by left].
  - destruct Hw as [Hw Hnum]. rewrite Hw in Haw. destruct (awaited_head _ _ _ Haw) as (o & Ho & Htype). rewrite Ho. cbn [mbind outcome_bind].
    destruct (busy_res _ _ _ Ht Ho Htype) as (r & x & Hr & Hx & Hlive & Hu). rewrite Hr, (handle_from_res_ok _ Ht r x Hx).
    cbn [res_pointer mbind outcome_bind].
    assert (op_type o ≠ IO_ACCEPT → wp (ioc ← mark_done ioc r op;
        Ret (ioc, mkEvent IO_COMPLETE (op_type o) (res_handle r x) (op_user o) num))
      (λ '(ioc', ev'), Inv WINDOWS ioc' [] K' ∧ event_ok WINDOWS ioc ioc' (Some (op, num)) ev')) as Hnormal.
    { intros Hna. apply wp_bind. eapply wp_mono; [by apply (done_windows ioc ioc op r o x K')|]. intros ioc' (HI & Hov & _).
      cbn [wp]. split; [done|]. exists r, o, x. split; [done|]. split_and!; [done..|]. by rewrite bool_decide_false by naive_solver. }
    destruct (op_type o) eqn:Hop; [done|by apply Hnormal|by apply Hnormal|]. clear Hnormal.
    pose proof (find_unused_res_ok ioc Ht) as Hfind. destruct (find_unused_res ioc) as [[r2|]|]; [| |done]; cbn [mbind outcome_bind].
    + destruct Hfind as (x2 & Hx2 & Hv2). assert (r ≠ r2) as Hne by (intros <-; congruence).
      pose proof (rd_bounds _ _ _ Hx2) as Hb2. pose proof (rd_bounds _ _ _ Hx) as Hb.
      apply wp_bind. eapply wp_mono; [by apply (use_res_ok ioc r2 IO_RES_SOCKET (op_accepted o) x2)|].
      intros [ioc1 h2] (Ht1 & _ & _ & Hops1 & Hres1 & ->). set (x2' := mkRes IO_RES_SOCKET _ _ _ _ _) in *.
      apply wp_bind. eapply wp_mono.
      { apply (done_windows ioc ioc1 op r o x K'); [done..| |done]. rewrite Hres1, rd_insert_ne; [done|lia|congruence]. }
      intros ioc' (HI & Hov & Hres'). cbn [wp]. split; [done|]. exists r, o, x. split; [done|]. split_and!; [done..|].
      cbn [ev_evtype]. split; [done|]. rewrite bool_decide_true by done. exists r2, x2'.
      assert (rd (res ioc') r2 = Ret x2') as Hx2'.
      { rewrite Hres', rd_insert_ne by (congruence || lia). rewrite Hres1. by apply rd_insert_eq. }
      split; [|done]. split; [|done]. cbn [ev_num]. apply res_from_handle_ok; [apply HI|done].
    + apply wp_bind. eapply wp_mono; [apply (done_windows ioc (asks ioc (Close (op_accepted o))) op r o x K'); [by apply (tables_eq ioc)|done..]|].
      intros ioc' (HI & Hov & _). cbn [wp]. split; [done|]. exists r, o, x. split; [done|].
      unfold tells. rewrite Hop. split_and!; [done..|by right].
Qed.

Lemma io_wait_internal_ok p ioc ev w Q K Q' K' :
  Inv p ioc Q K → waits p ioc w Q K Q' K' →
  wp (io_wait_internal p ioc ev w) (λ '(ioc', ev'), Inv p ioc' Q' K' ∧ event_ok p ioc ioc' (finished p Q w) ev').
Proof. destruct p; [apply io_wait_internal_windows_ok|apply io_wait_internal_linux_ok]. Qed.
