(* ===== verification/IoLife.v ===== *)
(** Programs that use [Io]: the calls they may make, what keeps them safe, the
    events they get and the handles they hold; and what goes wrong without
    the rules. *)
From S2P Require Import Prelude Bits Io IoTables IoGens IoRings IoSafe.
#[global] Open Scope Z_scope.

(** ** The other operations *)

Lemma inv_asks p ioc e Q K : Inv p ioc Q K → Inv p (asks ioc e) Q K.
Proof. intros [Ht Hr Ha]. split; [by apply (tables_eq ioc)|by destruct p|done]. Qed.

(** One resource changes, without its operations. *)
Lemma inv_res p ioc Q K r x x' :
  Inv p ioc Q K → rd (res ioc) r = Ret x → res_ok (ops ioc) r x' →
  Inv p (with_res ioc (<[Z.to_nat r := x']> (res ioc))) Q K.
Proof. intros [Ht Hr Ha] Hx Hx'. split; [by apply (tables_res ioc r x)|by destruct p|done]. Qed.

(** A resource was opened, and the handle leads to it. *)
Definition opened (ioc' : io_context) (type : io_restype) (os_handle h : Z) : Prop :=
  ∃ r x, live ioc' h r x ∧ r_type x = type ∧ r_os_handle x = os_handle ∧ r_pending x = 0 ∧ r_callback x = None.

Lemma inv_use p ioc Q K r x type os_handle :
  Inv p ioc Q K → rd (res ioc) r = Ret x → r_type x = IO_RES_VOID → type ≠ IO_RES_VOID →
  wp (use_res ioc r type os_handle) (λ '(ioc', h), Inv p ioc' Q K ∧ opened ioc' type os_handle h).
Proof.
  intros [Ht Hr Ha] Hx Hv Htype. eapply wp_mono; [by apply (use_res_ok ioc r type os_handle x)|].
  intros [ioc' h] (Ht' & Hs & _ & Hops & Hres & ->). set (x' := mkRes _ _ _ _ _ _) in *.
  assert (rd (res ioc') r = Ret x') as Hx' by (rewrite Hres; apply rd_insert_eq; by eapply rd_bounds).
  split.
  - split; [done| |by rewrite Hops]. destruct p; [done|]. cbn [rings_ok]. by rewrite (ss_submissions _ _ Hs), (ss_completions _ _ Hs).
  - destruct (tb_each _ Ht r x Hx) as (_ & _ & Hvoid). destruct (Hvoid Hv) as [_ Hc].
    exists r, x'. split; [|done]. split; [by apply res_from_handle_ok|done].
Qed.

(** What opening gives: a resource, or a handle that is none. *)
Definition opening (p : platform) (Q : list io_uring_cqe) (K : list Z) (type : io_restype) (os_handle : Z)
    (st : io_context * Z) : Prop :=
  Inv p st.1 Q K ∧ (st.2 = IO_INVALID ∨ opened st.1 type os_handle st.2).

Lemma use_file_ok p ioc Q K ioc1 os_handle :
  Inv p ioc Q K → Inv p ioc1 Q K → res ioc1 = res ioc →
  wp (use_file p ioc (ioc1, os_handle)) (opening p Q K IO_RES_FILE os_handle).
Proof.
  intros HI HI1 Hres. unfold use_file. pose proof (find_unused_res_ok ioc (in_tables _ _ _ _ HI)) as Hfind.
  destruct (find_unused_res ioc) as [[r|]|]; [|split; [done|by left]|done]. cbn [mbind outcome_bind].
  destruct (failed p os_handle); [split; [done|by left]|]. destruct Hfind as (x & Hx & Hv).
  eapply wp_mono; [apply (inv_use p ioc1 Q K r x); [done|by rewrite Hres|done..]|].
  intros [ioc' h] [? ?]. split; [done|by right].
Qed.

(** Binding a file to the port keeps the tables. *)
Lemma bind_port_ok p ioc Q K a :
  Inv p ioc Q K → Inv p (bind_port ioc a).1 Q K ∧ res (bind_port ioc a).1 = res ioc ∧
  ((bind_port ioc a).2 = NO_HANDLE ∨ (bind_port ioc a).2 = f_handle a).
Proof.
  intros HI. unfold bind_port. destruct (f_handle a =? NO_HANDLE); [split_and!; [done..|by left]|].
  destruct (negb (f_port a)); cbn [fst snd]; [|split_and!; [done..|by right]]. split_and!; [by apply inv_asks|done|by left].
Qed.

Lemma open_ok p ioc Q K (r : io_context * Z) (x : Z) :
  Inv p ioc Q K → Inv p r.1 Q K → res r.1 = res ioc → r.2 = NO_HANDLE ∨ r.2 = x →
  wp (use_file p ioc r) (opening p Q K IO_RES_FILE x).
Proof.
  intros HI HI1 Hres Hx. destruct r as [ioc1 fd]. cbn [fst snd] in *. destruct Hx as [->| ->]; [|by apply use_file_ok].
  unfold use_file. pose proof (find_unused_res_ok ioc (in_tables _ _ _ _ HI)) as Hfind.
  destruct (find_unused_res ioc) as [[r|]|]; [|split; [done|by left]|done]. cbn [mbind outcome_bind].
  destruct p; (split; [done|by left]).
Qed.

Lemma io_open_file_ok p ioc Q K file flags a :
  Inv p ioc Q K → wp (io_open_file p ioc file flags a) (opening p Q K IO_RES_FILE (f_handle a)).
Proof.
  intros HI. unfold io_open_file. destruct p.
  - unfold io_open_file_windows. apply open_ok; [done|by apply bind_port_ok, inv_asks| |by eapply bind_port_ok, inv_asks].
    by eapply (bind_port_ok WINDOWS (asks ioc _)), inv_asks.
  - apply open_ok; [done|by apply inv_asks|done|by right].
Qed.

Lemma io_create_file_ok p ioc Q K file flags a :
  Inv p ioc Q K → wp (io_create_file p ioc file flags a) (opening p Q K IO_RES_FILE (f_handle a)).
Proof.
  intros HI. unfold io_create_file. destruct p.
  - unfold io_create_file_windows. apply open_ok; [done|by apply bind_port_ok, inv_asks| |by eapply bind_port_ok, inv_asks].
    by eapply (bind_port_ok WINDOWS (asks ioc _)), inv_asks.
  - apply open_ok; [done|by apply inv_asks|done|by right].
Qed.

Lemma io_start_server_ok p ioc Q K addr port a :
  Inv p ioc Q K → wp (io_start_server p ioc addr port a) (opening p Q K IO_RES_SOCKET (v_socket a)).
Proof.
  intros HI. unfold io_start_server.
  assert (∀ ioc1, Inv p ioc1 Q K → opening p Q K IO_RES_SOCKET (v_socket a) (ioc1, IO_INVALID)) as Hnone by (intros; split; [done|by left]).
  destruct (_ || _); [by apply Hnone|]. destruct (match addr with Some _ => _ | None => _ end); [by apply Hnone|].
  pose proof (find_unused_res_ok ioc (in_tables _ _ _ _ HI)) as Hfind.
  destruct (find_unused_res ioc) as [[r|]|]; [|by apply Hnone|done]. cbn [mbind outcome_bind]. destruct Hfind as (x & Hx & Hv).
  destruct (failed p (v_socket a)); [by apply Hnone|]. destruct (v_bind a); cbn [negb]; [|by apply Hnone, inv_asks, inv_asks].
  destruct (v_listen a); cbn [negb]; [|by apply Hnone, inv_asks, inv_asks].
  pose proof (inv_asks p ioc (Socket (v_socket a)) Q K HI) as HI1.
  assert (∀ ioc1 x1, Inv p ioc1 Q K → rd (res ioc1) r = Ret x1 → r_type x1 = IO_RES_VOID →
    wp (use_res ioc1 r IO_RES_SOCKET (v_socket a)) (opening p Q K IO_RES_SOCKET (v_socket a))) as Huse.
  { intros ioc1 x1 HI2 Hx1 Hv1. eapply wp_mono; [by apply (inv_use p ioc1 Q K r x1)|]. intros [ioc' h] [? ?]. split; [done|by right]. }
  destruct p; [|by apply (Huse _ x)]. destruct (v_acceptfn a) as [f|]; [|by apply Hnone, inv_asks].
  destruct (v_port a); cbn [negb]; [|by apply Hnone, inv_asks]. cbn [res asks]. rewrite Hx. cbn [mbind outcome_bind].
  rewrite (set_res_ok _ r x) by done. cbn [mbind outcome_bind]. set (x1 := mkRes _ _ _ _ _ _).
  apply (Huse _ x1); [|apply rd_insert_eq; by eapply rd_bounds|done].
  apply (inv_res WINDOWS (asks ioc (Socket (v_socket a))) Q K r x); [done..|]. by apply (tb_each _ (in_tables _ _ _ _ HI) r x).
Qed.

(** Closing what has no operation under way. *)
Lemma io_close_ok p ioc Q K h :
  Inv p ioc Q K → 0 ≤ h < 2 ^ 32 → (∀ r x, res_from_handle ioc h = Ret (Some r) → rd (res ioc) r = Ret x → r_pending x = 0) →
  wp (io_close ioc h) (λ ioc', Inv p ioc' Q K ∧ ops ioc' = ops ioc ∧ ((∀ r x, rd (res ioc) r = Ret x → h ≠ res_handle r x) ∧ ioc' = ioc ∨
    ∃ r x, rd (res ioc) r = Ret x ∧ h = res_handle r x ∧ res ioc' = <[Z.to_nat r := closed x]> (res ioc))).
Proof.
  intros [Ht Hr Ha] Hh Hnone. unfold io_close. pose proof (res_from_handle_inv ioc Ht h Hh) as Hfrom.
  destruct (res_from_handle ioc h) as [[r|]|] eqn:Hrh; [| |done]; cbn [mbind outcome_bind wp] in *; [|split; [done|split; [done|by left]]].
  destruct Hfrom as (x & Hx & ->). pose proof (Hnone r x eq_refl Hx) as Hp.
  eapply wp_mono; [by apply (close_internal_ok ioc r x)|]. intros ioc' (Ht' & Hs & _ & Hops & Hres).
  destruct (tb_each _ Ht r x Hx) as (_ & Hcount & _). rewrite unmark_none in Hops by lia.
  split; [|split; [done|right; by exists r, x]]. split; [done| |by rewrite Hops].
  destruct p; [done|]. cbn [rings_ok]. by rewrite (ss_submissions _ _ Hs), (ss_completions _ _ Hs).
Qed.

Lemma io_set_callback_ok p ioc Q K h f :
  Inv p ioc Q K → 0 ≤ h < 2 ^ 32 →
  (∀ r x, res_from_handle ioc h = Ret (Some r) → rd (res ioc) r = Ret x → r_type x ≠ IO_RES_VOID) →
  wp (io_set_callback ioc h f) (λ ioc', Inv p ioc' Q K).
Proof.
  intros HI Hh Hlive. pose proof (in_tables _ _ _ _ HI) as Ht. unfold io_set_callback.
  pose proof (res_from_handle_inv ioc Ht h Hh) as Hfrom.
  destruct (res_from_handle ioc h) as [[r|]|] eqn:Hrh; [|done..]. cbn [mbind outcome_bind wp] in *.
  destruct Hfrom as (x & Hx & ->). rewrite Hx. cbn [mbind outcome_bind]. rewrite (set_res_ok _ r x) by done. cbn [wp].
  apply (inv_res p ioc Q K r x); [done..|]. destruct (tb_each _ Ht r x Hx) as (? & ? & _). split; [done|]. split; [done|].
  intros Hv. by destruct (Hlive r x eq_refl Hx).
Qed.

(** What the system may answer to a call that starts an operation. *)
Definition may_start (p : platform) (ioc : io_context) (type : io_optype) (a : started)
    (Q : list io_uring_cqe) (K : list Z) (Q' : list io_uring_cqe) (K' : list Z) : Prop :=
  (∀ op, find_unused_op ioc = Ret (Some op) → starts p ioc op type a Q K Q' K') ∧
  (find_unused_op ioc = Ret None → Q' = Q ∧ K' = K).

(** An operation of a type is under way for a handle, or nothing has changed. *)
Definition under_way (ioc ioc' : io_context) (r user : Z) (type : io_optype) (started : bool) : Prop :=
  if started then ∃ op o, find_unused_op ioc = Ret (Some op) ∧ rd (ops ioc') op = Ret o ∧
    op_type o = type ∧ op_res o = Some r ∧ op_user o = user
  else True.

Section start.
Context (p : platform) (ioc : io_context) (user h r : Z) (x : io_resource) (a : started).
Context (Q : list io_uring_cqe) (K : list Z) (Q' : list io_uring_cqe) (K' : list Z).
Hypotheses (HI : Inv p ioc Q K) (Hl : live ioc h r x).

Lemma io_recv_ok dst max :
  may_start p ioc IO_RECV a Q K Q' K' →
  wp (io_recv p ioc user h dst max a) (λ '(ioc', ok), Inv p ioc' Q' K' ∧ under_way ioc ioc' r user IO_RECV ok).
Proof.
  intros [Hsome Hnone]. eapply wp_mono; [apply (start_op_ok p ioc user h IO_RECV _ Q K Q' K' r x); [done|done|done| |done]|].
  - intros op Hop. specialize (Hsome op Hop). destruct p; [by apply (begun_read ioc _ _ _ op IO_RECV)|by eapply begun_linux].
  - intros [ioc' []] [? ?]; by split.
Qed.

Lemma io_send_ok src num :
  may_start p ioc IO_SEND a Q K Q' K' →
  wp (io_send p ioc user h src num a) (λ '(ioc', ok), Inv p ioc' Q' K' ∧ under_way ioc ioc' r user IO_SEND ok).
Proof.
  intros [Hsome Hnone]. eapply wp_mono; [apply (start_op_ok p ioc user h IO_SEND _ Q K Q' K' r x); [done|done|done| |done]|].
  - intros op Hop. specialize (Hsome op Hop). destruct p; [by apply (begun_read ioc _ _ _ op IO_SEND)|by eapply begun_linux].
  - intros [ioc' []] [? ?]; by split.
Qed.

Lemma io_accept_ok :
  (p = WINDOWS → is_Some (r_acceptfn x)) → may_start p ioc IO_ACCEPT a Q K Q' K' →
  wp (io_accept p ioc user h a) (λ '(ioc', ok), Inv p ioc' Q' K' ∧ under_way ioc ioc' r user IO_ACCEPT ok).
Proof.
  intros Hfn [Hsome Hnone]. eapply wp_mono; [apply (start_op_ok p ioc user h IO_ACCEPT _ Q K Q' K' r x); [done|done|done| |done]|].
  - intros op Hop. specialize (Hsome op Hop). destruct p; [by apply (begun_accept ioc x); [..|apply Hfn|]|by eapply begun_linux].
  - intros [ioc' []] [? ?]; by split.
Qed.
End start.

(** ** Programs *)

Inductive call : Type :=
  | Recv (user h dst max : Z) (a : started)
  | Send (user h src num : Z) (a : started)
  | AcceptOn (user h : Z) (a : started)
  | OpenFile (file : list Z) (flags : Z) (a : file_answer)
  | CreateFile (file : list Z) (flags : Z) (a : file_answer)
  | StartServer (addr : option (list Z)) (port : Z) (a : server_answer)
  | SetCallback (h : Z) (f : option Z)
  | CloseHandle (h : Z)
  | WaitOnce (ev : io_event) (w : waited).

Definition exec (p : platform) (c : call) (ioc : io_context) : outcome io_context :=
  match c with
  | Recv user h dst max a => fst <$> io_recv p ioc user h dst max a
  | Send user h src num a => fst <$> io_send p ioc user h src num a
  | AcceptOn user h a => fst <$> io_accept p ioc user h a
  | OpenFile file flags a => fst <$> io_open_file p ioc file flags a
  | CreateFile file flags a => fst <$> io_create_file p ioc file flags a
  | StartServer addr port a => fst <$> io_start_server p ioc addr port a
  | SetCallback h f => io_set_callback ioc h f
  | CloseHandle h => io_close ioc h
  | WaitOnce ev w => fst <$> io_wait_internal p ioc ev w
  end.

(** The rules: operations are started with a handle of a resource in use (on
    Windows, connections are accepted with one of a server), a resource is
    closed when none of its operations is under way, and once
    [io_uring_enter] has failed for a submission, none is started that it does
    not fail for too (see [starts]). *)
Definition allowed (p : platform) (c : call) (ioc : io_context)
    (Q : list io_uring_cqe) (K : list Z) (Q' : list io_uring_cqe) (K' : list Z) : Prop :=
  match c with
  | Recv _ h _ _ a => (∃ r x, live ioc h r x) ∧ may_start p ioc IO_RECV a Q K Q' K'
  | Send _ h _ _ a => (∃ r x, live ioc h r x) ∧ may_start p ioc IO_SEND a Q K Q' K'
  | AcceptOn _ h a => (∃ r x, live ioc h r x ∧ (p = WINDOWS → is_Some (r_acceptfn x))) ∧ may_start p ioc IO_ACCEPT a Q K Q' K'
  | OpenFile _ _ _ | CreateFile _ _ _ | StartServer _ _ _ => Q' = Q ∧ K' = K
  | SetCallback h _ => Q' = Q ∧ K' = K ∧ 0 ≤ h < 2 ^ 32 ∧
      ∀ r x, res_from_handle ioc h = Ret (Some r) → rd (res ioc) r = Ret x → r_type x ≠ IO_RES_VOID
  | CloseHandle h => Q' = Q ∧ K' = K ∧ 0 ≤ h < 2 ^ 32 ∧
      ∀ r x, res_from_handle ioc h = Ret (Some r) → rd (res ioc) r = Ret x → r_pending x = 0
  | WaitOnce _ w => waits p ioc w Q K Q' K'
  end.

Lemma wp_fmap {A B} (f : A → B) (m : outcome A) Q : wp m (λ a, Q (f a)) → wp (f <$> m) Q.
Proof. by destruct m. Qed.

Lemma exec_ok p c ioc Q K Q' K' :
  Inv p ioc Q K → allowed p c ioc Q K Q' K' → wp (exec p c ioc) (λ ioc', Inv p ioc' Q' K').
Proof.
  intros HI Hall. destruct c; cbn [exec allowed] in *; try apply wp_fmap.
  - destruct Hall as [(r & x & Hl) Hs]. eapply wp_mono; [by eapply io_recv_ok|]. by intros [? ?] [? _].
  - destruct Hall as [(r & x & Hl) Hs]. eapply wp_mono; [by eapply io_send_ok|]. by intros [? ?] [? _].
  - destruct Hall as [(r & x & Hl & Hf) Hs]. eapply wp_mono; [by eapply io_accept_ok|]. by intros [? ?] [? _].
  - destruct Hall as [-> ->]. eapply wp_mono; [by apply io_open_file_ok|]. by intros [? ?] [? _].
  - destruct Hall as [-> ->]. eapply wp_mono; [by apply io_create_file_ok|]. by intros [? ?] [? _].
  - destruct Hall as [-> ->]. eapply wp_mono; [by apply io_start_server_ok|]. by intros [? ?] [? _].
  - destruct Hall as (-> & -> & ? & ?). by apply io_set_callback_ok.
  - destruct Hall as (-> & -> & ? & ?). eapply wp_mono; [by eapply io_close_ok|]. by intros ? [? _].
  - eapply wp_mono; [by eapply io_wait_internal_ok|]. by intros [? ?] [? _].
Qed.

(** A context, with what the system has of it. *)
Definition state : Type := io_context * list io_uring_cqe * list Z.

Inductive step (p : platform) : state → state → Prop :=
  | step_call c ioc Q K ioc' Q' K' :
      allowed p c ioc Q K Q' K' → exec p c ioc = Ret ioc' → step p (ioc, Q, K) (ioc', Q', K').

(** What [io_uring_setup] hands out: rings in which there is nothing. *)
Definition fresh (p : platform) (u : uring) : Prop :=
  p = LINUX → sq_idle (u_submissions u) ∧ cq_holds (u_completions u) [].

(** The states of a program that has started with arrays of these sizes. *)
Inductive reach (p : platform) : state → Prop :=
  | reach_init ioc0 r o u port ioc :
      zlen r ≤ UINT16_MAX → zlen o ≤ UINT16_MAX → fresh p u →
      io_init p ioc0 r o (zlen r) (zlen o) u port = Ret (ioc, true) → reach p (ioc, [], [])
  | reach_step s s' : reach p s → step p s s' → reach p s'.

Lemma awaited_nothing l : (∀ i o, rd l i = Ret o → op_type o = IO_VOID) → awaited l [].
Proof.
  intros Hv. split; [constructor|]. intros i. split; [by intros ?%elem_of_nil|]. intros (o & Ho & []). by eapply Hv.
Qed.

Lemma io_init_ok p ioc0 r o u port ioc :
  zlen r ≤ UINT16_MAX → zlen o ≤ UINT16_MAX → fresh p u →
  io_init p ioc0 r o (zlen r) (zlen o) u port = Ret (ioc, true) → Inv p ioc [] [].
Proof.
  intros Hr Ho Hfresh. unfold io_init. rewrite !for_each_ok by done. cbn [mbind outcome_bind]. set (ioc1 := mkContext _ _ _ _ _ _ _ _).
  assert (tables ioc1) as Ht by (by apply (cleared_tables ioc1 r o)).
  assert (awaited (ops ioc1) []) as Ha.
  { apply awaited_nothing. intros i x Hx. unfold ioc1 in Hx. cbn [ops] in Hx. rewrite rd_fmap in Hx. destruct (rd o i); [|done].
    cbn [mbind outcome_bind] in Hx. by injection Hx as <-. }
  intros [= Hinit]. destruct p.
  - unfold io_init_windows in Hinit. destruct port as [port|]; [|done]. injection Hinit as <-.
    split; [by apply (tables_eq ioc1)|done|done].
  - destruct (Hfresh eq_refl) as [Hsq%sq_idle_ok Hcq]. unfold io_init_linux in Hinit.
    destruct (u_fd u <? 0); [done|]. destruct (negb (u_sq_mapped u)); [done|]. destruct (_ && _); [done|].
    destruct (negb (u_sqes_mapped u)); [done|]. injection Hinit as <-.
    split; [by apply (tables_eq ioc1)|by split|done].
Qed.

Lemma io_reach_inv p s : reach p s → let '(ioc, Q, K) := s in Inv p ioc Q K.
Proof.
  induction 1 as [|s s' _ IH Hstep]; [by eapply io_init_ok|]. destruct Hstep as [c ioc Q K ioc' Q' K' Hall Hrun].
  pose proof (exec_ok _ _ _ _ _ _ _ IH Hall) as Hok. by rewrite Hrun in Hok.
Qed.

(** C10.  A program that starts with tables of at most 65535 places and keeps
    to the rules of [allowed] (operations are started with handles of resources
    in use, on Windows connections are accepted with those of servers; no
    callback is set with a handle that leads to a resource not in use; nothing
    is closed while an operation is under way on it; on Linux [io_uring_enter]
    takes the one submission that is new or fails, once it has failed no later
    submission succeeds, and the system posts no more completions than their
    ring holds) is safe on both platforms: in every state it gets into, each
    call it may make comes to an end without a failed assertion or an access
    out of bounds; each operation under way is counted by its resource, and
    awaited by the system exactly once; and stopping closes the resources in
    use. *)
Theorem io_safe p ioc Q K :
  reach p (ioc, Q, K) →
  awaited (ops ioc) (users Q ++ K) ∧
  (∀ r x, rd (res ioc) r = Ret x → r_pending x = count r (ops ioc)) ∧
  (∀ c Q' K', allowed p c ioc Q K Q' K' → wp (exec p c ioc) (λ ioc', reach p (ioc', Q', K'))) ∧
  wp (io_free ioc) (λ ioc', log ioc' = log ioc ++ closing (res ioc) ++ [Close (ioc_os_handle ioc)]).
Proof.
  intros Hreach. pose proof (io_reach_inv _ _ Hreach) as HI. split; [apply HI|]. split; [|split].
  - intros r x Hx. by apply (tb_each _ (in_tables _ _ _ _ HI) r x).
  - intros c Q' K' Hall. pose proof (exec_ok _ _ _ _ _ _ _ HI Hall) as Hok.
    destruct (exec p c ioc) as [ioc'|] eqn:Hrun; [|done]. by eapply reach_step, step_call.
  - eapply wp_mono; [apply io_free_ok, HI|]. naive_solver.
Qed.

(** ** Waiting *)

(** The callback of the resource of an event. *)
Definition callback_of (ioc : io_context) (ev : io_event) : option Z :=
  if ev_handle ev =? IO_INVALID then None
  else match res_from_handle ioc (ev_handle ev) with
       | Ret (Some r) => match rd (res ioc) r with Ret x => r_callback x | Fail _ => None end
       | _ => None
       end.

(** What a wait meets: the system's answers, and callbacks that make calls
    which the rules allow. *)
Fixpoint may_wait (p : platform) (call : Z → io_context → io_event → outcome io_context) (ioc : io_context)
    (Q : list io_uring_cqe) (K : list Z) (ws : list waited) (Q' : list io_uring_cqe) (K' : list Z) : Prop :=
  match ws with
  | [] => Q' = Q ∧ K' = K
  | w :: ws => ∃ Q1 K1, waits p ioc w Q K Q1 K1 ∧ ∀ ev ioc1 ev1, io_wait_internal p ioc ev w = Ret (ioc1, ev1) →
      match callback_of ioc1 ev1 with
      | None => Q' = Q1 ∧ K' = K1
      | Some f => ∃ ioc2 Q2 K2, call f ioc1 ev1 = Ret ioc2 ∧ rtc (step p) (ioc1, Q1, K1) (ioc2, Q2, K2) ∧
          may_wait p call ioc2 Q2 K2 ws Q' K'
      end
  end.

Lemma reach_rtc p s s' : reach p s → rtc (step p) s s' → reach p s'.
Proof. intros Hs Hrtc. induction Hrtc as [|s1 s2 s3 Hstep _ IH]; [done|]. apply IH. by eapply reach_step. Qed.

(** The handle of an event is that of a resource, unless it is an error. *)
Lemma event_handle p ioc ioc' Q' K' fin ev :
  Inv p ioc' Q' K' → event_ok p ioc ioc' fin ev →
  ev_handle ev = IO_INVALID ∨
  ev_handle ev ≠ IO_INVALID ∧ ∃ r x, res_from_handle ioc' (ev_handle ev) = Ret (Some r) ∧ rd (res ioc') r = Ret x.
Proof.
  intros [Ht _ _] Hev. destruct fin as [[op n]|]; [right|by left; destruct Hev as (_ & ? & _)].
  destruct Hev as (r & o & x & [_ _ _ _ _ (x' & Hx' & _ & Hh)] & -> & _).
  pose proof (res_from_handle_ok ioc' Ht r x' Hx') as Hfrom. rewrite Hh in Hfrom. split; [|by exists r, x'].
  intros He. by rewrite He in Hfrom.
Qed.

(** C11.  In a program that keeps to the rules of [allowed], a wait reports
    what happened: each event is that of one operation under way, whose
    completion the system has posted first, with the handle of its resource,
    its type, its user pointer and its result; that operation and no other is
    over then.  The callbacks take their events until one is for a resource
    without a callback, which the caller gets. *)
Theorem io_wait_correct p call ioc ev ws Q K Q' K' :
  reach p (ioc, Q, K) → may_wait p call ioc Q K ws Q' K' →
  wp (io_wait p call ioc ev ws) (λ '(ioc', ev', got), reach p (ioc', Q', K') ∧
    (got = true → ∃ ioc1 Q1 K1 w, reach p (ioc1, Q1, K1) ∧ waits p ioc1 w Q1 K1 Q' K' ∧
      event_ok p ioc1 ioc' (finished p Q1 w) ev' ∧ callback_of ioc' ev' = None)).
Proof.
  revert ioc ev Q K. induction ws as [|w ws IH]; intros ioc ev Q K Hreach; cbn [may_wait io_wait].
  { by intros [-> ->]. }
  intros (Q1 & K1 & Hw & Hnext). pose proof (io_reach_inv _ _ Hreach) as HI. pose proof (io_wait_internal_ok p ioc ev w Q K Q1 K1 HI Hw) as Hwait.
  specialize (Hnext ev). destruct (io_wait_internal p ioc ev w) as [[ioc1 ev1]|] eqn:Hrun; [|done].
  cbn [mbind outcome_bind]. destruct Hwait as [HI1 Hev]. specialize (Hnext ioc1 ev1 eq_refl).
  assert (reach p (ioc1, Q1, K1)) as Hreach1.
  { eapply reach_step; [exact Hreach|]. apply (step_call p (WaitOnce ev w)); [done|]. cbn [exec]. by rewrite Hrun. }
  unfold callback_of in Hnext. destruct (event_handle _ _ _ _ _ _ _ HI1 Hev) as [He|(He & r & x & Hr & Hx)].
  - rewrite He in *. cbn [Z.eqb] in *. rewrite Z.eqb_refl in *. destruct Hnext as [-> ->]. split; [done|]. intros _.
    exists ioc, Q, K, w. unfold callback_of. rewrite He, Z.eqb_refl. done.
  - destruct (Z.eqb_spec (ev_handle ev1) IO_INVALID); [done|]. rewrite Hr in *. cbn [mbind outcome_bind res_pointer].
    rewrite bool_decide_true by done. cbn [c_assert mbind outcome_bind]. rewrite Hx in *. cbn [mbind outcome_bind].
    destruct (r_callback x) as [f|] eqn:Hf.
    + destruct Hnext as (ioc2 & Q2 & K2 & -> & Hrtc & Hmore). cbn [mbind outcome_bind]. apply (IH ioc2 ev1 Q2 K2); [|done].
      by eapply reach_rtc.
    + destruct Hnext as [-> ->]. split; [done|]. intros _. exists ioc, Q, K, w. split_and!; [done..|].
      unfold callback_of. destruct (Z.eqb_spec (ev_handle ev1) IO_INVALID); [done|]. by rewrite Hr, Hx.
Qed.

(** ** Handles *)

(** The calls with the handle fail, and change nothing. *)
Definition refused (p : platform) (ioc : io_context) (h : Z) : Prop :=
  (∀ user buf len a, io_recv p ioc user h buf len a = Ret (ioc, false) ∧
    io_send p ioc user h buf len a = Ret (ioc, false) ∧ io_accept p ioc user h a = Ret (ioc, false)) ∧
  (∀ f, io_set_callback ioc h f = Ret ioc) ∧ io_close ioc h = Ret ioc.

Lemma gone_refused p ioc h : res_from_handle ioc h = Ret None → refused p ioc h.
Proof.
  intros Hgone. unfold refused, io_recv, io_send, io_accept, start_op, io_set_callback, io_close. by rewrite Hgone.
Qed.

Lemma exec_ages p c ioc Q K Q' K' ioc' :
  Inv p ioc Q K → allowed p c ioc Q K Q' K' → exec p c ioc = Ret ioc' → ages 1 ioc ioc'.
Proof.
  intros HI Hall Hrun. pose proof (in_tables _ _ _ _ HI) as Ht.
  assert (∀ A (m : outcome (io_context * A)), may m (λ st, keeps ioc st.1) → fst <$> m = Ret ioc' → ages 1 ioc ioc') as Hfst.
  { intros A [[ioc1 y]|] Hm; [|done]. intros [= <-]. by apply keeps_ages. }
  destruct c; cbn [exec allowed] in *; try (eapply Hfst; [|exact Hrun]).
  - apply start_op_keeps. intros. destruct p; [done|apply start_uring_op_keeps].
  - apply start_op_keeps. intros. destruct p; [done|apply start_uring_op_keeps].
  - apply start_op_keeps. intros. destruct p; [apply io_accept_windows_keeps|apply start_uring_op_keeps].
  - apply io_open_file_keeps.
  - apply io_create_file_keeps.
  - apply io_start_server_keeps.
  - apply keeps_ages; [done|]. pose proof (io_set_callback_keeps ioc h f) as Hm. by rewrite Hrun in Hm.
  - destruct Hall as (_ & _ & Hh & Hnone). pose proof (io_close_ok p ioc Q K h HI Hh Hnone) as Hok. rewrite Hrun in Hok.
    destruct Hok as (_ & _ & [[_ ->]|(r & x & Hx & _ & Hres)]); [by apply keeps_ages|by eapply closed_ages].
  - apply io_wait_internal_keeps.
Qed.

Lemma steps_age p n s s' :
  reach p s → nsteps (step p) n s s' → ages (Z.of_nat n) s.1.1 s'.1.1 ∧ reach p s'.
Proof.
  intros Hreach Hn. induction Hn as [s|n s1 s2 s3 Hstep _ IH].
  - split; [|done]. destruct s as [[ioc Q] K]. pose proof (io_reach_inv _ _ Hreach) as HI. intros r x Hx. exists x, 0.
    destruct (tb_each _ (in_tables _ _ _ _ HI) r x Hx) as [? _]. split; [done|]. split; [lia|]. by rewrite Z.add_0_r, Z.mod_small.
  - pose proof (reach_step _ _ _ Hreach Hstep) as H2. destruct (IH H2) as [Ha H3]. split; [|done].
    replace (Z.of_nat (S n)) with (1 + Z.of_nat n) by lia. eapply ages_trans; [|exact Ha].
    destruct Hstep as [c ioc Q K ioc' Q' K' Hall Hrun]. pose proof (io_reach_inv _ _ Hreach) as HI. eapply exec_ages; [exact HI|exact Hall|exact Hrun].
Qed.

(** A handle whose resource has another generation by now. *)
Lemma old_handle p ioc Q K h r x g :
  Inv p ioc Q K → rd (res ioc) r = Ret x → 0 ≤ g < UINT16_MAX → h = r + g * 2 ^ 16 → r_gen x ≠ g →
  res_from_handle ioc h = Ret None.
Proof.
  intros HI Hx Hg -> Hne. pose proof (in_tables _ _ _ _ HI) as Ht. destruct (res_range ioc Ht r x Hx) as [Hr _].
  unfold UINT16_MAX in *. pose proof (res_from_handle_inv ioc Ht (r + g * 2 ^ 16) ltac:(lia)) as Hinv.
  destruct (res_from_handle ioc _) as [[r1|]|]; [|done..]. destruct Hinv as (x1 & Hx1 & Hh1).
  destruct (res_range ioc Ht r1 x1 Hx1) as [Hr1 Hg1]. unfold res_handle, UINT16_MAX in *.
  assert (r1 = r ∧ r_gen x1 = g) as [-> ?] by lia. congruence.
Qed.

(** C12.  A handle stands for one resource until it is closed, which the rules
    allow when no operation is under way on it: closing it closes the
    descriptor, affects no other handle of a resource in use, and from then on
    every call with the handle fails and changes nothing, for as long as the
    program makes fewer than 65534 calls (the generations of a resource then
    come round). *)
Theorem io_close_correct p ioc Q K h r x :
  reach p (ioc, Q, K) → 0 ≤ h < 2 ^ 32 → live ioc h r x → r_pending x = 0 →
  wp (io_close ioc h) (λ ioc', reach p (ioc', Q, K) ∧ log ioc' = log ioc ++ [Close (r_os_handle x)] ∧
    (∀ h' r' x', live ioc h' r' x' → 0 ≤ h' < 2 ^ 32 → h' ≠ h → r' ≠ r ∧ live ioc' h' r' x') ∧
    ∀ n s, nsteps (step p) n (ioc', Q, K) s → Z.of_nat n < UINT16_MAX - 1 → refused p s.1.1 h).
Proof.
  intros Hreach Hh (Hrh & Hx & Hlive) Hp. pose proof (io_reach_inv _ _ Hreach) as HI. pose proof (in_tables _ _ _ _ HI) as Ht.
  assert (allowed p (CloseHandle h) ioc Q K Q K) as Hall.
  { cbn [allowed]. do 3 (split; [done|]). intros r1 x1 Hr1 Hx1. assert (r1 = r) as -> by congruence.
    by assert (x1 = x) as -> by congruence. }
  pose proof (exec_ok _ _ _ _ _ _ _ HI Hall) as Hok. cbn [exec] in Hok.
  destruct (io_close ioc h) as [ioc'|] eqn:Hrun; [|done]. cbn [wp] in *.
  pose proof (in_tables _ _ _ _ Hok) as Ht'.
  pose proof (close_internal_ok ioc r x Ht Hx) as Hclose. unfold io_close in Hrun. rewrite Hrh in Hrun.
  cbn [mbind outcome_bind] in Hrun. rewrite Hrun in Hclose. destruct Hclose as (_ & _ & Hlog & _ & Hres).
  assert (∀ h1, 0 ≤ h1 < 2 ^ 32 → ∀ r1, res_from_handle ioc h1 = Ret (Some r1) → ∃ x1, rd (res ioc) r1 = Ret x1 ∧ h1 = res_handle r1 x1) as Hfrom.
  { intros h1 Hh1 r1 Hr1. pose proof (res_from_handle_inv ioc Ht h1 Hh1) as H1. by rewrite Hr1 in H1. }
  destruct (Hfrom h Hh r Hrh) as (x1 & Hx1 & Hhr). assert (x1 = x) as -> by congruence. clear Hx1.
  assert (reach p (ioc', Q, K)) as Hreach'.
  { eapply reach_step; [exact Hreach|]. apply (step_call p (CloseHandle h)); [done|]. cbn [exec]. unfold io_close. by rewrite Hrh. }
  split; [done|split; [done|split]].
  - intros h' r' x' (Hr' & Hx' & Hlive') Hh' Hne. destruct (Hfrom h' Hh' r' Hr') as (x1 & Hx1 & ->).
    assert (x1 = x') as -> by congruence. assert (r' ≠ r) as Hner by (intros ->; congruence). split; [done|].
    assert (rd (res ioc') r' = Ret x') as Hx2 by (rewrite Hres, rd_insert_ne; [done|apply rd_bounds in Hx; lia|congruence]).
    split; [|done]. by apply res_from_handle_ok.
  - intros n [[ioc2 Q2] K2] Hn Hlt. destruct (steps_age _ _ _ _ Hreach' Hn) as [Hage Hreach2]. cbn [fst] in *.
    assert (rd (res ioc') r = Ret (closed x)) as Hxc by (rewrite Hres; apply rd_insert_eq; by eapply rd_bounds).
    destruct (Hage r _ Hxc) as (x2 & m & Hx2 & Hm & Hg2). destruct (res_range ioc Ht r x Hx) as [_ Hg].
    apply gone_refused, (old_handle p ioc2 Q2 K2 h r x2 (r_gen x)); [by apply io_reach_inv in Hreach2|done..|].
    rewrite Hg2. cbn [closed with_gen r_gen]. rewrite next_gen_mod, Z.add_mod_idemp_l by done.
    unfold UINT16_MAX in *. intros He. destruct (Z.lt_ge_cases (r_gen x + 1 + m) (2 ^ 16 - 1)).
    + rewrite Z.mod_small in He by lia. lia.
    + rewrite <-(Z.mod_add _ (-1)), Z.mod_small in He by lia. lia.
Qed.

(** ** What io_uring is asked for *)

(** The system finds the entry in the ring, and has taken it. *)
Definition submitted (ioc ioc' : io_context) (sqe : io_uring_sqe) : Prop :=
  next_sqe (pushed (submissions ioc) sqe) = Ret sqe ∧ submissions ioc' = taken (pushed (submissions ioc) sqe).

(** What becomes of a submission, by the answer of [io_uring_enter]. *)
Definition asked_for (ioc : io_context) (e : entered) (sqe : io_uring_sqe) (ioc' : io_context) (ok : bool) : Prop :=
  if e_ret e <? 0 then ok = false ∧ submissions ioc' = pushed (submissions ioc) sqe ∧ res ioc' = res ioc ∧ ops ioc' = ops ioc
  else ok = true ∧ submitted ioc ioc' sqe.

Lemma start_op_submits ioc user h type a f Q K Q' K' r x op :
  Inv LINUX ioc Q K → live ioc h r x → find_unused_op ioc = Ret (Some op) → type ≠ IO_VOID →
  refuses (submissions ioc) = false → starts LINUX ioc op type a Q K Q' K' →
  wp (start_op ioc user h type (λ ioc x op, start_uring_op ioc (f x op) (s_enter a))) (λ '(ioc', ok),
    asked_for ioc (s_enter a) (f x op) ioc' ok).
Proof.
  intros [Ht [Hsq Hcq] _] (Hh & Hx & Hlive) Hfind Htype Hroom Hstarts. unfold start_op. rewrite Hh, Hfind. cbn [mbind outcome_bind].
  rewrite Hx. cbn [mbind outcome_bind]. unfold starts in Hstarts. rewrite Hroom in Hstarts.
  destruct Hstarts as (-> & Hfit & Hcase). unfold asked_for. destruct (Z.ltb_spec (e_ret (s_enter a)) 0) as [Hret|Hret].
  { destruct Hcase as [Htaken _]. apply wp_bind. eapply wp_mono; [by apply (start_uring_op_fails ioc (f x op) (s_enter a) Q)|].
    intros [ioc1 ok] (-> & Hsub & _ & _ & Hr & Ho & _). by cbn [negb wp]. }
  destruct Hcase as (Htaken & Hidle & _).
  destruct (start_uring_op_ok ioc (f x op) (s_enter a) Q Hidle Hcq Hroom Hret Htaken Hfit) as [Hnext Hrun].
  apply wp_bind. eapply wp_mono; [exact Hrun|]. intros [ioc1 ok] (-> & Hsub & _ & _ & Hr & Ho & Hmr & Hmo & _). cbn [negb].
  pose proof (find_unused_op_ok ioc Ht) as Hfree. rewrite Hfind in Hfree. destruct Hfree as (o & Hop & Hv).
  apply wp_bind. eapply wp_mono.
  { apply (mark_started_ok ioc1 r op type user x o); [by apply (tables_eq ioc)|by rewrite Hr|by rewrite Ho|done..]. }
  intros ioc2 (_ & Hs & _). cbn [wp]. split; [done|]. split; [done|]. by rewrite (ss_submissions _ _ Hs).
Qed.

(** C13.  On Linux, in a program that keeps to the rules of [allowed], with a
    free operation and room in the ring of submissions: when
    [io_uring_enter] takes what is in the ring (none of the earlier
    submissions was left there), the operation is started, and the system has
    taken exactly what was asked for: a read into the buffer, a write of it or
    an accept, on the descriptor of the resource, for the operation that
    stands for it; when [io_uring_enter] fails the call fails, no resource and
    no operation changes, and the submission stays in the ring. *)
Theorem io_submit_correct ioc user h buf len a Q K Q' K' r x op :
  reach LINUX (ioc, Q, K) → live ioc h r x → find_unused_op ioc = Ret (Some op) → refuses (submissions ioc) = false →
  (∀ type, starts LINUX ioc op type a Q K Q' K') →
  wp (io_recv LINUX ioc user h buf len a) (λ '(ioc', ok),
    asked_for ioc (s_enter a) (mkSqe IORING_OP_READ (r_os_handle x) buf len op) ioc' ok) ∧
  wp (io_send LINUX ioc user h buf len a) (λ '(ioc', ok),
    asked_for ioc (s_enter a) (mkSqe IORING_OP_WRITE (r_os_handle x) buf len op) ioc' ok) ∧
  wp (io_accept LINUX ioc user h a) (λ '(ioc', ok),
    asked_for ioc (s_enter a) (mkSqe IORING_OP_ACCEPT (r_os_handle x) 0 0 op) ioc' ok).
Proof.
  intros Hreach%io_reach_inv Hl Hfind Hroom Hs. split; [|split].
  - by eapply (start_op_submits ioc user h IO_RECV a (λ x op, mkSqe IORING_OP_READ (r_os_handle x) buf len op)).
  - by eapply (start_op_submits ioc user h IO_SEND a (λ x op, mkSqe IORING_OP_WRITE (r_os_handle x) buf len op)).
  - by eapply (start_op_submits ioc user h IO_ACCEPT a (λ x op, mkSqe IORING_OP_ACCEPT (r_os_handle x) 0 0 op)).
Qed.

(** ** An example *)

Definition example_uring : uring :=
  mkUring 3 true true true true
    (mkSubmissions 0 0 3 4 (replicate 4 0) (replicate 4 (mkSqe IORING_OP_READ 0 0 0 0)))
    (mkCompletions 0 0 7 8 (replicate 8 (mkCqe 0 0))).

Definition example_memory : io_context :=
  mkContext 0 0 0 [] [] (u_submissions example_uring) (u_completions example_uring) [].

(** The state a run leads to. *)
Definition after (m : outcome io_context) : io_context := match m with Ret ioc => ioc | Fail _ => example_memory end.

(** Three resources and two operations. *)
Definition example_init (p : platform) : outcome (io_context * bool) :=
  io_init p example_memory (replicate 3 (mkRes IO_RES_FILE 9 9 9 None None)) (replicate 2 (mkOp IO_RECV None 0 0)) 3 2 example_uring (Some 3).

Definition example_start (p : platform) : io_context := after (fst <$> example_init p).

(** The system takes an operation, and completes some. *)
Definition takes (posted : list io_uring_cqe) : started := mkStarted (mkEntered 1 1 posted) (Some 8) true.
Definition posts (l : list io_uring_cqe) : waited := mkWaited l (mkEntered 0 0 []) NoStatus.
Definition no_event : io_event := mkEvent IO_ERROR IO_VOID 0 0 0.

Definition FILE : list Z := chars "a.txt".

(** A file is opened as 5, and one read is started on it. *)
Definition example_opened (p : platform) : io_context := after (exec p (OpenFile FILE IO_ACCESS_RD (mkFile 5 true)) (example_start p)).
Definition example_reading (p : platform) : io_context := after (exec p (Recv 70 0 1000 16 (takes [])) (example_opened p)).

Lemma example_uring_ok : sq_idle (u_submissions example_uring) ∧ cq_holds (u_completions example_uring) [].
Proof.
  split; split; try done.
  - by exists 2.
  - by exists 3.
  - intros j Hj. change (zlen (@nil io_uring_cqe)) with 0 in Hj. lia.
Qed.

Lemma example_start_ok p : reach p (example_start p, [], []).
Proof.
  apply (reach_init p example_memory (replicate 3 (mkRes IO_RES_FILE 9 9 9 None None)) (replicate 2 (mkOp IO_RECV None 0 0))
    example_uring (Some 3)); [by vm_compute|by vm_compute| |destruct p; vm_compute; reflexivity].
  intros _. apply example_uring_ok.
Qed.

Lemma example_opened_ok p : reach p (example_opened p, [], []).
Proof.
  eapply reach_step; [apply example_start_ok|].
  apply (step_call p (OpenFile FILE IO_ACCESS_RD (mkFile 5 true))); [done|destruct p; vm_compute; reflexivity].
Qed.

Lemma example_starts type : starts LINUX (example_opened LINUX) 0 type (takes []) [] [] [] [0].
Proof. unfold starts. change (refuses _) with false. split; [done|]. split; [done|]. split; [done|]. split; [apply example_uring_ok|done]. Qed.

Lemma example_may_read p : allowed p (Recv 70 0 1000 16 (takes [])) (example_opened p) [] [] [] [0].
Proof.
  split; [eexists _, _; by destruct p|]. split; [|by destruct p].
  intros op Hop. assert (op = 0) as -> by (destruct p; vm_compute in Hop; congruence). destruct p; [done|apply example_starts].
Qed.

Lemma example_reading_ok p : reach p (example_reading p, [], [0]).
Proof.
  eapply reach_step; [apply example_opened_ok|].
  apply (step_call p (Recv 70 0 1000 16 (takes [])) _ [] [] _ [] [0]); [apply example_may_read|destruct p; vm_compute; reflexivity].
Qed.

Theorem io_safe_witness :
  awaited (ops (example_reading LINUX)) [0] ∧
  (∀ r x, rd (res (example_reading LINUX)) r = Ret x → r_pending x = count r (ops (example_reading LINUX))) ∧
  (∀ c Q' K', allowed LINUX c (example_reading LINUX) [] [0] Q' K' →
     wp (exec LINUX c (example_reading LINUX)) (λ ioc', reach LINUX (ioc', Q', K'))) ∧
  wp (io_free (example_reading LINUX)) (λ ioc', log ioc' = log (example_reading LINUX) ++ [Close 5] ++ [Close 3]).
Proof. apply (io_safe LINUX (example_reading LINUX) [] [0]). apply example_reading_ok. Defined.

Definition no_callbacks (f : Z) (ioc : io_context) (ev : io_event) : outcome io_context := Ret ioc.

Theorem io_wait_correct_witness :
  wp (io_wait LINUX no_callbacks (example_reading LINUX) no_event [posts [mkCqe 0 12]]) (λ '(ioc', ev', got),
    reach LINUX (ioc', [], []) ∧ (got = true → ∃ ioc1 Q1 K1 w, reach LINUX (ioc1, Q1, K1) ∧ waits LINUX ioc1 w Q1 K1 [] [] ∧
      event_ok LINUX ioc1 ioc' (finished LINUX Q1 w) ev' ∧ callback_of ioc' ev' = None)).
Proof.
  apply (io_wait_correct LINUX no_callbacks (example_reading LINUX) no_event [posts [mkCqe 0 12]] [] [0] [] []);
    [apply example_reading_ok|]. exists [], []. split; [by vm_compute|].
  intros ev ioc1 ev1 Hrun. vm_compute in Hrun. injection Hrun as <- <-. by vm_compute.
Defined.

Theorem io_submit_correct_witness :
  wp (io_recv LINUX (example_opened LINUX) 70 0 1000 16 (takes [])) (λ '(ioc', ok),
    ok = true ∧ submitted (example_opened LINUX) ioc' (mkSqe IORING_OP_READ 5 1000 16 0)) ∧
  wp (io_send LINUX (example_opened LINUX) 70 0 1000 16 (takes [])) (λ '(ioc', ok),
    ok = true ∧ submitted (example_opened LINUX) ioc' (mkSqe IORING_OP_WRITE 5 1000 16 0)) ∧
  wp (io_accept LINUX (example_opened LINUX) 70 0 (takes [])) (λ '(ioc', ok),
    ok = true ∧ submitted (example_opened LINUX) ioc' (mkSqe IORING_OP_ACCEPT 5 0 0 0)).
Proof.
  apply (io_submit_correct (example_opened LINUX) 70 0 1000 16 (takes []) [] [] [] [0] 0 (mkRes IO_RES_FILE 5 0 0 None None) 0);
    [apply example_opened_ok|by vm_compute|by vm_compute|by vm_compute|].
  exact example_starts.
Defined.

Theorem io_close_correct_witness :
  wp (io_close (example_opened LINUX) 0) (λ ioc', reach LINUX (ioc', [], []) ∧
    log ioc' = log (example_opened LINUX) ++ [Close 5] ∧
    (∀ h' r' x', live (example_opened LINUX) h' r' x' → 0 ≤ h' < 2 ^ 32 → h' ≠ 0 → r' ≠ 0 ∧ live ioc' h' r' x') ∧
    ∀ n s, nsteps (step LINUX) n (ioc', [], []) s → Z.of_nat n < UINT16_MAX - 1 → refused LINUX s.1.1 0).
Proof.
  apply (io_close_correct LINUX (example_opened LINUX) [] [] 0 0 (mkRes IO_RES_FILE 5 0 0 None None));
    [apply example_opened_ok|done|by vm_compute|done].
Defined.

(** ** Where it fails *)

(** Closing a resource takes its operations out of the table, but the system
    still has them: the next completion is one of an operation without a
    resource ... *)
Lemma close_under_way_crashes p :
  (ioc ← io_close (example_reading p) 0;
   io_wait_internal p ioc no_event (mkWaited [mkCqe 0 (-125)] (mkEntered 0 0 []) (Failure 0))) = Fail NullDeref.
Proof. by destruct p; vm_compute. Qed.

(** ... or, when its place was used again, it is reported as the end of
    another operation, here of user 71 on the second file. *)
Lemma close_under_way_confuses :
  (ioc ← io_close (example_reading LINUX) 0;
   ioc ← exec LINUX (OpenFile FILE IO_ACCESS_RD (mkFile 6 true)) ioc;
   ioc ← exec LINUX (Recv 71 65536 2000 16 (takes [])) ioc;
   '(ioc, ev) ← io_wait_internal LINUX ioc no_event (posts [mkCqe 0 12]);
   Ret ev) = Ret (mkEvent IO_COMPLETE IO_RECV 65536 71 12).
Proof. by vm_compute. Qed.

(** On Linux the event of an accepted connection has its descriptor where the
    program looks for a handle; 1 is not that of a resource in use. *)
Lemma accepted_no_handle :
  (ioc ← exec LINUX (StartServer None 80 (mkServerAnswer true 5 true true None true)) (example_start LINUX);
   ioc ← exec LINUX (AcceptOn 70 0 (takes [])) ioc;
   '(ioc, ev) ← io_wait_internal LINUX ioc no_event (posts [mkCqe 0 1]);
   r ← res_from_handle ioc (ev_num ev);
   r ← res_pointer r;
   x ← rd (res ioc) r;
   Ret (ev_num ev, r_type x)) = Ret (1, IO_RES_VOID).
Proof. by vm_compute. Qed.

(** When the number of submissions comes near 2^32 the ring looks full for ever. *)
Lemma submissions_stop ioc sqe e :
  sq_idle (submissions ioc) → 2 ^ 32 ≤ sq_head (submissions ioc) + sq_limit (submissions ioc) →
  start_uring_op ioc sqe e = Ret (ioc, false).
Proof.
  intros [(k & Hk & Hlim & _) _ _ Hhead Htail] Hfull. pose proof (limit_range k Hk). unfold start_uring_op. rewrite Htail.
  unfold u32. rewrite <-(Z.mod_add _ (-1)), Z.mod_small by lia.
  destruct (Z.leb_spec (sq_head (submissions ioc) + sq_limit (submissions ioc) + -1 * 2 ^ 32) (sq_head (submissions ioc))); [done|lia].
Qed.

(** When [io_uring_enter] fails the submission stays in the ring: the next
    call, here for user 71 and another buffer, has the system take the old
    one, for the same operation. *)
Lemma failed_submission_stays :
  let ioc := after (exec LINUX (Recv 70 0 1000 16 (mkStarted (mkEntered (-1) 0 []) None true)) (example_opened LINUX)) in
  Forall (λ o, op_type o = IO_VOID) (ops ioc) ∧
  next_sqe (submissions ioc) = Ret (mkSqe IORING_OP_READ 5 1000 16 0) ∧
  (ioc ← exec LINUX (Recv 71 0 2000 16 (takes [])) ioc; next_sqe (submissions ioc)) =
    Ret (mkSqe IORING_OP_READ 5 2000 16 0).
Proof.
  split_and!; [|by vm_compute..]. vm_compute. by repeat constructor.
Qed.

(** A file that is to be read and written is opened for writing only. *)
Lemma read_write_opens_write ioc file a :
  io_open_file LINUX ioc file (Z.lor IO_ACCESS_RD IO_ACCESS_WR) a = io_open_file LINUX ioc file IO_ACCESS_WR a.
Proof. done. Qed.

(** On Windows sending reads into the buffer. *)
Lemma send_reads :
  (ioc ← exec WINDOWS (Send 70 0 1000 16 (takes [])) (example_opened WINDOWS); Ret (log ioc)) =
  Ret [Open FILE GENERIC_READ; Read 5 1000 16 0].
Proof. by vm_compute. Qed.

(** A handle is not tested for a resource in use: in a new context 0 is taken
    for one, and the next file that is opened forgets the operation. *)
Lemma unused_handle_taken :
  (ioc ← exec LINUX (Recv 70 0 1000 16 (takes [])) (example_start LINUX);
   ioc ← exec LINUX (OpenFile FILE IO_ACCESS_RD (mkFile 5 true)) ioc;
   io_wait_internal LINUX ioc no_event (posts [mkCqe 0 (-9)])) = Fail AssertFail.
Proof. by vm_compute. Qed.
