(* ===== verification/Files.v ===== *)
(** The files of [src/misc/file.c]: listing a directory, and a tree of
    directories.  This file has the code, for both platforms; [FilesList] has
    the theorems on listings, [FilesTree] those on trees. *)
From S2P Require Import Prelude.
#[global] Open Scope Z_scope.

(** ** Memory

    A pointer to characters: into the buffer of the directory that is being
    listed, or into a block of the heap.  [Uninit] is what a variable holds
    that was not set. *)
Inductive pointer : Set :=
  | NULL
  | Buffer (off : Z)
  | At (block : nat) (off : Z)
  | Uninit.

#[global] Instance pointer_eq_dec : EqDecision pointer.
Proof. solve_decision. Defined.

(** A block of characters, or an array of structures, whose elements are
    kept with the pointer that owns it. *)
Inductive block : Set :=
  | Text (l : list Z)
  | Cells.

(** The blocks in use, the number of calls of the allocator so far (a new block
    is named by the call that made it) and the number of directories that are
    open. *)
Record world : Set := mkWorld {
  heap : gmap nat block;
  calls : nat;
  handles : Z;
}.

(** ** What the system answers *)

Record stat_t : Set := mkStat {
  st_isdir : bool;
  st_size : Z;
  st_ctime : Z;
  st_mtime : Z;
  st_atime : Z;
}.

(** A [FILETIME] is the number in its two halves; the name of an entry is the
    text in front of its terminator. *)
Record find_data : Set := mkData {
  dwFileAttributes : Z;
  nFileSizeHigh : Z;
  nFileSizeLow : Z;
  ftCreationTime : Z;
  ftLastAccessTime : Z;
  ftLastWriteTime : Z;
  cFileName : list Z;
}.

(** [stat] and [opendir] with the names that [readdir] gives; [FindFirstFile],
    with what it finds and what [FindNextFile] goes on to find.  [closes] is
    whether CloseHandle ends a search.  [alloc k] is the answer to the call [k]
    of the allocator: [None] for NULL, else what the new block holds. *)
Record system : Type := mkSystem {
  windows : bool;
  PATH_MAX : Z;
  MAXDWORD : Z;
  FILE_ATTRIBUTE_DIRECTORY : Z;
  SDL_max : Z → Z → Z;
  stat : list Z → option stat_t;
  opendir : list Z → option (list (list Z));
  FindFirstFile : list Z → option (find_data * list find_data);
  closes : bool;
  alloc : nat → option (Z → Z);
  stack : nat → Z → Z;
}.

(** ** Files *)

Record File : Set := mkFile {
  f_dir : bool;
  f_path : pointer;
  f_name : pointer;
  f_size : Z;
  f_time_create : Z;
  f_time_modify : Z;
  f_time_access : Z;
}.

Definition set_path (f : File) (path name : pointer) : File :=
  mkFile (f_dir f) path name (f_size f) (f_time_create f) (f_time_modify f) (f_time_access f).

Definition uninit_file : File := mkFile false Uninit Uninit 0 0 0 0.

(** An array whose elements are set one by one. *)
Record FileList : Set := mkList {
  items : pointer;
  cells : list (option File);
  count : Z;
  capacity : Z;
}.

Definition uninit_list : FileList := mkList Uninit [] 0 0.

Definition sizeof_File : Z := 56.
Definition sizeof_FileTree : Z := 144.

(** An open directory; of [handle] and [find] the one of the platform is used. *)
Record Directory : Set := mkDirectory {
  d_first : bool;
  d_data : find_data;
  d_find : list find_data;
  d_handle : list (list Z);
  d_plen : Z;
  d_buffer : list Z;
}.

Definition no_data : find_data := mkData 0 0 0 0 0 0 [].

Definition PATH_SEP : Z := c_slash.
Definition c_star : Z := 42.

Definition characters : Type := list Z.

(** [snprintf] into a buffer of [max] characters; [None] if it stays as it is. *)
Definition snprintf (max : Z) (text : list Z) : option (list Z) :=
  if max =? 0 then None else Some (take (Z.to_nat (max - 1)) text).

Definition nonzero (c : Z) : bool := negb (c =? 0).

(** The C string at [off]. *)
Definition c_str (l : list Z) (off : Z) : outcome (list Z) :=
  if (off <? 0) then Fail OutOfBounds
  else
    let t := drop (Z.to_nat off) l in
    match drop_while nonzero t with
    | [] => Fail OutOfBounds
    | _ :: _ => Ret (take_while nonzero t)
    end.

Section code.
Context (sys : system).

(** ** The heap *)

Definition bytes (g : Z → Z) (n : Z) : list Z := g <$> seqZ 0 n.

(** The block that a pointer owns, for [free] and [realloc]. *)
Definition owned (w : world) (p : pointer) : outcome (option (nat * block)) :=
  match p with
  | NULL => Ret None
  | At b off =>
      if off =? 0 then match heap w !! b with Some x => Ret (Some (b, x)) | None => Fail Undefined end
      else Fail Undefined
  | _ => Fail Undefined
  end.

Definition drop_block (o : option (nat * block)) (h : gmap nat block) : gmap nat block :=
  match o with Some (b, _) => delete b h | None => h end.

Definition free (w : world) (p : pointer) : outcome world :=
  o ← owned w p; Ret (mkWorld (drop_block o (heap w)) (calls w) (handles w)).

(** [grow] makes the new block out of the old one and of what memory holds. *)
Definition realloc (w : world) (p : pointer) (grow : option block → (Z → Z) → block) : outcome (world * pointer) :=
  o ← owned w p;
  match alloc sys (calls w) with
  | None => Ret (mkWorld (heap w) (S (calls w)) (handles w), NULL)
  | Some g =>
      Ret (mkWorld (<[calls w := grow (snd <$> o) g]> (drop_block o (heap w))) (S (calls w)) (handles w),
           At (calls w) 0)
  end.

Definition malloc (w : world) (new : (Z → Z) → block) : outcome (world * pointer) :=
  realloc w NULL (λ _, new).

Definition grow_text (n : Z) (old : option block) (g : Z → Z) : block :=
  let l := match old with Some (Text l) => l | _ => [] end in
  Text (take (Z.to_nat n) (l ++ drop (length l) (bytes g n))).

Definition grow_cells (_ : option block) (_ : Z → Z) : block := Cells.

(** The characters of a block. *)
Definition text_of (w : world) (b : nat) : outcome (list Z) :=
  match heap w !! b with Some (Text l) => Ret l | _ => Fail OutOfBounds end.

Definition set_text (w : world) (b : nat) (l : list Z) : world :=
  mkWorld (<[b := Text l]> (heap w)) (calls w) (handles w).

(** The C string a pointer leads to. *)
Definition string_at (w : world) (buffer : list Z) (p : pointer) : outcome (list Z) :=
  match p with
  | NULL => Fail NullDeref
  | Buffer off => c_str buffer off
  | At b off => l ← text_of w b; c_str l off
  | Uninit => Fail OutOfBounds
  end.

(** [memcpy] to a pointer, with a terminator behind or without. *)
Definition store (w : world) (p : pointer) (s : list Z) : outcome world :=
  match p with
  | At b off => l ← text_of w b; l ← wr_range l off s; Ret (set_text w b l)
  | NULL => Fail NullDeref
  | _ => Fail OutOfBounds
  end.

Definition offset (p : pointer) (n : Z) : pointer :=
  match p with At b off => At b (off + n) | Buffer off => Buffer (off + n) | _ => Uninit end.

(** The distance of two pointers into one object. *)
Definition distance (p q : pointer) : outcome Z :=
  match p, q with
  | Buffer a, Buffer b => Ret (a - b)
  | At x a, At y b => if decide (x = y) then Ret (a - b) else Fail Undefined
  | _, _ => Fail Undefined
  end.

(** ** One file *)

Definition filetime_to_timet (ft : Z) : Z :=
  let t := u64 (u64 ft / 10000000 - 11644473600) in
  if t <? 2 ^ 63 then t else t - 2 ^ 64.

(** [MAXDWORD+1] is of 32 bits. *)
Definition compileFileStructFromWindowsData (file : File) (data : find_data) : File :=
  mkFile (negb (Z.land (dwFileAttributes data) (FILE_ATTRIBUTE_DIRECTORY sys) =? 0)) (f_path file) (f_name file)
    (u32 (u32 (nFileSizeHigh data * u32 (MAXDWORD sys + 1)) + nFileSizeLow data))
    (filetime_to_timet (ftCreationTime data)) (filetime_to_timet (ftLastWriteTime data))
    (filetime_to_timet (ftLastAccessTime data)).

Definition add_handles (w : world) (n : Z) : world := mkWorld (heap w) (calls w) (handles w + n).

Definition queryFile (w : world) (path : list Z) (file : File) (errmax : Z)
    : world * File * bool * option (list Z) :=
  let file := set_path file NULL NULL in
  let oopsie := snprintf errmax (chars "Failed to query for additional file information") in
  if windows sys then
    match FindFirstFile sys path with
    | None => (w, file, false, oopsie)
    | Some (data, _) =>
        (add_handles w (if closes sys then 0 else 1), compileFileStructFromWindowsData file data, true, None)
    end
  else
    match stat sys path with
    | None => (w, file, false, oopsie)
    | Some st =>
        (w, mkFile (st_isdir st) (f_path file) (f_name file) (st_size st) (st_ctime st) (st_mtime st) (st_atime st),
         true, None)
    end.

(** ** A directory *)

Definition too_long : list Z := chars "Path is too long".
Definition couldnt_open (path : list Z) : list Z := chars "Couldn't open directory '" ++ path ++ chars "'".

(** [inr] is the failure with its message. *)
Definition open_result : Type := Directory + option (list Z).

(** The end of [openDirectory]: the search starts. *)
Definition start_search (w : world) (path buffer : list Z) (plen errmax : Z) : outcome (world * open_result) :=
  if windows sys then
    if PATH_MAX sys <=? u64 (plen + 1) then
      Ret (w, inr (snprintf errmax (chars "Internal buffer is too small")))
    else
      buffer ← wr buffer plen c_star;
      buffer ← wr buffer (plen + 1) 0;
      pattern ← c_str buffer 0;
      match FindFirstFile sys pattern with
      | None => Ret (w, inr (snprintf errmax (couldnt_open path)))
      | Some (data, rest) => Ret (add_handles w 1, inl (mkDirectory true data rest [] plen buffer))
      end
  else
    match opendir sys path with
    | None => Ret (w, inr (snprintf errmax (couldnt_open path)))
    | Some names => Ret (add_handles w 1, inl (mkDirectory false no_data [] names plen buffer))
    end.

Definition openDirectory (w : world) (path : list Z) (errmax : Z) : outcome (world * open_result) :=
  let plen := zlen path in
  if plen =? 0 then Ret (w, inr None)
  else if PATH_MAX sys <=? plen then Ret (w, inr (snprintf errmax too_long))
  else
    buffer ← wr_range (bytes (stack sys (calls w)) (PATH_MAX sys)) 0 path;
    c ← rd path (plen - 1);
    if negb (c =? PATH_SEP) then
      if PATH_MAX sys <=? u64 (plen + 1) then Ret (w, inr (snprintf errmax too_long))
      else buffer ← wr buffer plen PATH_SEP; start_search w path buffer (plen + 1) errmax
    else start_search w path buffer plen errmax.

Definition closeDirectory (w : world) : world := add_handles w (-1).

(** The next entry, hidden or not. *)
Definition next_entry (dir : Directory) : Directory * option (list Z) :=
  if windows sys then
    if d_first dir then
      (mkDirectory false (d_data dir) (d_find dir) (d_handle dir) (d_plen dir) (d_buffer dir),
       Some (cFileName (d_data dir)))
    else
      match d_find dir with
      | [] => (dir, None)
      | x :: l => (mkDirectory false x l (d_handle dir) (d_plen dir) (d_buffer dir), Some (cFileName x))
      end
  else
    match d_handle dir with
    | [] => (dir, None)
    | n :: l => (mkDirectory (d_first dir) (d_data dir) (d_find dir) l (d_plen dir) (d_buffer dir), Some n)
    end.

(** No loop reads more entries than there are. *)
Definition dir_fuel (dir : Directory) : nat := S (S (length (d_find dir) + length (d_handle dir))).

Definition next_visible (dir : Directory) : outcome (Directory * option (list Z)) :=
  loop (dir_fuel dir) (λ dir,
    let '(dir, r) := next_entry dir in
    match r with
    | None => break (dir, None)
    | Some name =>
        c ← rd (name ++ [0]) 0;
        if c =? c_dot then continue dir else break (dir, Some name)
    end) dir.

Definition set_buffer (dir : Directory) (buffer : list Z) : Directory :=
  mkDirectory (d_first dir) (d_data dir) (d_find dir) (d_handle dir) (d_plen dir) buffer.

Definition nextFile (w : world) (dir : Directory) (file : File) (errmax : Z)
    : outcome (world * Directory * File * bool * option (list Z)) :=
  '(dir, r) ← next_visible dir;
  match r with
  | None => Ret (w, dir, file, false, None)
  | Some name =>
      let nlen := zlen name in
      if PATH_MAX sys <=? u64 (d_plen dir + nlen) then
        Ret (w, dir, file, false, snprintf errmax (chars "File path is too long"))
      else
        buffer ← wr_range (d_buffer dir) (d_plen dir) name;
        buffer ← wr buffer (d_plen dir + nlen) 0;
        let dir := set_buffer dir buffer in
        let file := set_path file (Buffer 0) (Buffer (d_plen dir)) in
        if windows sys then Ret (w, dir, compileFileStructFromWindowsData file (d_data dir), true, None)
        else
          path ← string_at w buffer (f_path file);
          let '(w, file, ok, msg) := queryFile w path file errmax in
          Ret (w, dir, file, ok, msg)
  end.

(** ** A listing *)

(** The memory for one more item; [None] when there is none. *)
Definition reserve_item (w : world) (list : FileList) : outcome (world * option FileList) :=
  if count list =? capacity list then
    let cap := SDL_max sys 8 (u64 (2 * capacity list)) in
    '(w, tmp) ← realloc w (items list) grow_cells;
    if decide (tmp = NULL) then Ret (w, None)
    else
      let n := u64 (cap * sizeof_File) / sizeof_File in
      Ret (w, Some (mkList tmp (resize (Z.to_nat n) None (cells list)) (count list) cap))
  else Ret (w, Some list).

(** [p - pool + tmp] *)
Definition rebase (pool tmp p : pointer) : outcome pointer := n ← distance p pool; Ret (offset tmp n).

Definition update_pointers (pool tmp : pointer) (list : FileList) : outcome FileList :=
  l ← loop (S (length (cells list))) (λ '(i, l),
    if i <? s32 (count list) then
      c ← rd l i;
      match c with
      | None => Fail Undefined
      | Some f =>
          path ← rebase pool tmp (f_path f);
          name ← rebase pool tmp (f_name f);
          l ← wr l i (Some (set_path f path name));
          continue (i + 1, l)
      end
    else break l) (0, cells list);
  Ret (mkList (items list) l (count list) (capacity list)).

(** The characters of all paths: where they are, how many and for how many
    there is room. *)
Record pool_t : Set := mkPool { pool : pointer; pool_count : Z; pool_capacity : Z }.

Definition reserve_text (w : world) (list : FileList) (p : pool_t) (plen : Z)
    : outcome (world * option (FileList * pool_t)) :=
  if pool_capacity p <? u64 (pool_count p + plen + 1) then
    let cap := SDL_max sys (u64 (pool_count p + plen + 1)) (u64 (2 * pool_capacity p)) in
    '(w, tmp) ← realloc w (pool p) (grow_text cap);
    if decide (tmp = NULL) then Ret (w, None)
    else
      list ← update_pointers (pool p) tmp list;
      Ret (w, Some (list, mkPool tmp (pool_count p) cap))
  else Ret (w, Some (list, p)).

(** The file goes into the listing, its path into the pool. *)
Definition add_file (w : world) (list : FileList) (p : pool_t) (file : File) (text : characters)
    : outcome (world * FileList * pool_t) :=
  let plen := zlen text in
  let path := offset (pool p) (pool_count p) in
  n ← distance (f_name file) (f_path file);
  let name := offset path n in
  w ← store w path text;
  w ← store w (offset path plen) [0];
  l ← wr (cells list) (count list) (Some (set_path file path name));
  Ret (w, mkList (items list) l (u64 (count list + 1)) (capacity list),
       mkPool (pool p) (u64 (pool_count p + (plen + 1))) (pool_capacity p)).

Record listing_state : Set := mkState {
  s_world : world;
  s_dir : Directory;
  s_list : FileList;
  s_pool : pool_t;
  s_file : File;
  s_msg : option (list Z);
}.

Definition list_step (errmax : Z) (s : listing_state) : outcome (listing_state + listing_state) :=
  '(w, dir, file, ok, m) ← nextFile (s_world s) (s_dir s) (s_file s) errmax;
  let msg := match m with None => s_msg s | Some _ => m end in
  if negb ok then break (mkState w dir (s_list s) (s_pool s) file msg)
  else
    '(w, r) ← reserve_item w (s_list s);
    match r with
    | None => continue (mkState w dir (s_list s) (s_pool s) file msg)
    | Some list =>
        text ← string_at w (d_buffer dir) (f_path file);
        '(w, r) ← reserve_text w list (s_pool s) (zlen text);
        match r with
        | None => continue (mkState w dir list (s_pool s) file msg)
        | Some (list, p) =>
            '(w, list, p) ← add_file w list p file text;
            continue (mkState w dir list p file msg)
        end
    end.

Definition listFiles (w : world) (path : list Z) (list : FileList) (errmax : Z)
    : outcome (world * bool * FileList * option characters) :=
  '(w, r) ← openDirectory w path errmax;
  match r with
  | inr msg => Ret (w, false, list, msg)
  | inl dir =>
      s ← loop (dir_fuel dir) (list_step errmax) (mkState w dir (mkList NULL [] 0 0) (mkPool NULL 0 0) uninit_file None);
      let w := s_world s in
      let list := s_list s in
      '(w, list) ← (if count list =? 0 then
          w ← free w (items list);
          w ← free w (pool (s_pool s));
          Ret (w, mkList NULL [] (count list) (capacity list))
        else Ret (w, list));
      Ret (closeDirectory w, true, list, s_msg s)
  end.

Definition freeFileList (w : world) (list : FileList) : outcome world :=
  w ← (if 0 <? count list then
      c ← rd (cells list) 0;
      match c with None => Fail Undefined | Some f => free w (f_path f) end
    else Ret w);
  free w (items list).

Definition countDirs (list : FileList) : outcome Z :=
  loop (S (length (cells list))) (λ '(i, n),
    if i <? s32 (count list) then
      c ← rd (cells list) i;
      match c with
      | None => Fail Undefined
      | Some f => if f_dir f then n ← int (n + 1); continue (i + 1, n) else continue (i + 1, n)
      end
    else break n) (0, 0).

(** ** A tree *)

#[warnings="-register-all"] Inductive FileTree : Set := mkTree {
  info : File;
  head : File;
  dirs : pointer;
  dir_cells : list FileTree;
  files : pointer;
  file_cells : list (option File);
  dirs_count : Z;
  files_count : Z;
  loaded : bool;
  error : bool;
}.

Definition uninit_tree : FileTree := mkTree uninit_file uninit_file Uninit [] Uninit [] 0 0 false false.

(** What [listSubtree] starts with, and what an error leaves. *)
Definition cleared (t : FileTree) (err : bool) : FileTree :=
  mkTree (info t) (head t) NULL [] NULL [] 0 0 false err.

Definition set_info (t : FileTree) (f : File) : FileTree :=
  mkTree f (head t) (dirs t) (dir_cells t) (files t) (file_cells t) (dirs_count t) (files_count t) (loaded t) (error t).
Definition set_head (t : FileTree) (f : File) : FileTree :=
  mkTree (info t) f (dirs t) (dir_cells t) (files t) (file_cells t) (dirs_count t) (files_count t) (loaded t) (error t).
Definition set_loaded (t : FileTree) : FileTree :=
  mkTree (info t) (head t) (dirs t) (dir_cells t) (files t) (file_cells t) (dirs_count t) (files_count t) true (error t).
Definition set_dir_cells (t : FileTree) (l : list FileTree) : FileTree :=
  mkTree (info t) (head t) (dirs t) l (files t) (file_cells t) (dirs_count t) (files_count t) (loaded t) (error t).
Definition set_file_cells (t : FileTree) (l : list (option File)) : FileTree :=
  mkTree (info t) (head t) (dirs t) (dir_cells t) (files t) l (dirs_count t) (files_count t) (loaded t) (error t).

(** [malloc] of an array of [n] structures; [n] is an [int]. *)
Definition array_size (n size : Z) : nat := Z.to_nat (u64 (n * size) / size).

(** The arrays of a subtree, with nothing in them yet; [inr] after an error. *)
Definition allocate_tree (w : world) (list : FileList) (tree : FileTree) : outcome (world * (FileTree + FileTree)) :=
  dc ← countDirs list;
  fc ← int (s32 (count list) - dc);
  '(w, p) ← malloc w (grow_cells None);
  if decide (p = NULL) then
    w ← freeFileList w list; Ret (w, inr (cleared tree true))
  else
    '(w, q) ← malloc w (grow_cells None);
    if decide (q = NULL) then
      w ← free w p; w ← freeFileList w list; Ret (w, inr (cleared tree true))
    else
      Ret (w, inl (mkTree (info tree) (head tree)
        p (replicate (array_size dc sizeof_FileTree) uninit_tree) q (replicate (array_size fc sizeof_File) None)
        dc fc false false)).

(** The loop over the listing, [scan] being the recursive call. *)
Definition tree_step (scan : world → pointer → FileTree → outcome (world * FileTree)) (list : FileList)
    (st : world * Z * Z * Z * FileTree) : outcome (world * Z * Z * Z * FileTree + world * FileTree) :=
  let '(w, i, ds, fs, tree) := st in
  if i <? s32 (count list) then
    c ← rd (cells list) i;
    match c with
    | None => Fail Undefined
    | Some file =>
        let tree := if i =? 0 then set_head tree file else tree in
        if f_dir file then
          sub ← rd (dir_cells tree) ds;
          '(w, sub) ← scan w (f_path file) (set_info sub file);
          l ← wr (dir_cells tree) ds sub;
          continue (w, i + 1, ds + 1, fs, set_dir_cells tree l)
        else
          l ← wr (file_cells tree) fs (Some file);
          continue (w, i + 1, ds, fs + 1, set_file_cells tree l)
    end
  else break (w, set_loaded tree).

(** [n] is more than the depth. *)
Fixpoint listSubtree (n : nat) (w : world) (dir : pointer) (depth : Z) (tree : FileTree)
    : outcome (world * FileTree) :=
  match n with
  | O => Fail OutOfFuel
  | S n =>
      c_assert (0 <=? depth);;
      let tree := cleared tree false in
      if depth <=? 0 then Ret (w, tree)
      else
        path ← string_at w [] dir;
        '(w, ok, list, _) ← listFiles w path uninit_list 512;
        if negb ok then Ret (w, cleared tree true)
        else
          '(w, r) ← allocate_tree w list tree;
          match r with
          | inr tree => Ret (w, tree)
          | inl tree =>
              loop (S (length (cells list)))
                (tree_step (λ w dir sub, listSubtree n w dir (depth - 1) sub) list) (w, 0, 0, 0, tree)
          end
  end.

Definition listTree (w : world) (dir : option (list Z)) (depth : Z) (tree : FileTree)
    : outcome (world * bool * FileTree) :=
  match dir with
  | None => Ret (w, false, tree)
  | Some dir =>
      c ← rd (dir ++ [0]) 0;
      if c =? 0 then Ret (w, false, tree)
      else
        let '(w, file, ok, _) := queryFile w dir uninit_file 512 in
        if negb ok then Ret (w, false, tree)
        else if negb (f_dir file) then Ret (w, false, tree)
        else
          let len := zlen dir in
          c_assert (0 <? len);;
          c ← rd dir (len - 1);
          let len := if c =? PATH_SEP then len - 1 else len in
          '(w, dir_copy) ← malloc w (λ g, Text (bytes g (len + 1)));
          match dir_copy with
          | At b _ =>
              w ← store w dir_copy (take (Z.to_nat len) dir);
              l ← text_of w b;
              last_sep ← loop (S (Z.to_nat len)) (λ last_sep,
                if 0 <? last_sep then
                  c ← rd l last_sep;
                  if c =? PATH_SEP then break last_sep else continue (last_sep - 1)
                else break last_sep) len;
              let file := set_path file dir_copy (offset dir_copy (last_sep + 1)) in
              '(w, tree) ← listSubtree (S (Z.to_nat depth)) w (f_path file) depth (set_info tree file);
              Ret (w, true, tree)
          | _ => Ret (w, false, tree)
          end
  end.

(** The loop over [dirs_count] subtrees is the inner one. *)
Fixpoint freeFileTree (w : world) (tree : FileTree) {struct tree} : outcome world :=
  w ← (fix free_dirs (w : world) (l : list FileTree) (n : Z) {struct l} : outcome world :=
         if n <=? 0 then Ret w
         else match l with
              | [] => Fail OutOfBounds
              | t :: l => w ← freeFileTree w t; free_dirs w l (n - 1)
              end) w (dir_cells tree) (dirs_count tree);
  w ← free w (f_path (head tree));
  w ← free w (dirs tree);
  free w (files tree).
End code.
