(* ===== verification/FilesList.v ===== *)
(** Listings of [misc/file.c]: the blocks of the heap, what an open directory
    goes on to give, and the listing with its pool of characters. *)
From S2P Require Import Prelude Files.
#[global] Open Scope Z_scope.

(** ** Blocks *)

Definition block_of (p : pointer) (x : block) : gmap nat block :=
  match p with At b _ => {[b := x]} | _ => ∅ end.

(** The heap [h] is the blocks [F], and [H] besides. *)
Definition has (h F H : gmap nat block) : Prop := h = F ∪ H ∧ F ##ₘ H.
Definition owns (h : gmap nat block) (p : pointer) (x : block) (H : gmap nat block) : Prop :=
  has h (block_of p x) H.

(** What may be freed. *)
Definition root (p : pointer) : Prop := p = NULL ∨ ∃ b, p = At b 0.

(** New blocks have new names. *)
Definition fresh (w : world) : Prop := ∀ b, (calls w ≤ b)%nat → heap w !! b = None.

Lemma has_swap h F H1 G H : has h F H1 → has H1 G H → ∃ H2, has h G H2 ∧ has H2 F H.
Proof.
  intros [-> Hd1] [-> Hd2]. apply map_disjoint_union_r in Hd1 as [Hpq HpH].
  exists (F ∪ H). split; split; [|by apply map_disjoint_union_r|done|done].
  rewrite !(assoc_L _). f_equal. by apply map_union_comm.
Qed.

Lemma owns_swap h p x H1 q y H :
  owns h p x H1 → owns H1 q y H → ∃ H2, owns h q y H2 ∧ owns H2 p x H.
Proof. apply has_swap. Qed.

Lemma has_stack h A h1 B h0 : has h A h1 → has h1 B h0 → has h (A ∪ B) h0 ∧ has (A ∪ B) A B.
Proof.
  intros [-> Hd1] [-> Hd2]. apply map_disjoint_union_r in Hd1 as [HAB HA0].
  split; split; [by rewrite (assoc_L _)|by apply map_disjoint_union_l|done|done].
Qed.

Lemma has_unstack F A B h h0 : has F A B → has h F h0 → ∃ h1, has h A h1 ∧ has h1 B h0.
Proof.
  intros [-> Hd1] [-> Hd2]. apply map_disjoint_union_l in Hd2 as [HA0 HB0]. exists (B ∪ h0).
  split; split; [by rewrite (assoc_L _)|by apply map_disjoint_union_r|done|done].
Qed.

Lemma has_nothing h : has h ∅ h.
Proof. split; [by rewrite (left_id_L ∅ (∪))|apply map_disjoint_empty_l]. Qed.

Lemma has_all h : has h h ∅.
Proof. split; [by rewrite (right_id_L ∅ (∪))|apply map_disjoint_empty_r]. Qed.

Lemma has_lookup h F H b x : has h F H → H !! b = Some x → h !! b = Some x.
Proof. intros [-> Hd] Hb. by apply lookup_union_Some_r. Qed.

Lemma owns_null x H : owns H NULL x H.
Proof. split; cbn [block_of]; [by rewrite (left_id_L ∅ (∪))|apply map_disjoint_empty_l]. Qed.

Lemma owns_lookup h b off x H : owns h (At b off) x H → h !! b = Some x.
Proof. intros [-> _]. apply lookup_union_Some_l, lookup_singleton_eq. Qed.

Lemma owns_new h b x H : h = H → H !! b = None → owns (<[b := x]> h) (At b 0) x H.
Proof.
  intros -> Hb. split; [by rewrite insert_union_singleton_l|]. by apply map_disjoint_singleton_l.
Qed.

Lemma owns_update h b off x y H : owns h (At b off) x H → owns (<[b := y]> h) (At b off) y H.
Proof.
  intros [-> Hd]. cbn [block_of] in *. apply map_disjoint_singleton_l in Hd as Hb. split; [|by apply map_disjoint_singleton_l].
  cbn [block_of]. rewrite insert_union_l. f_equal. by rewrite insert_singleton_eq.
Qed.

Lemma owns_delete h b off x H : owns h (At b off) x H → delete b h = H.
Proof.
  intros [-> Hd]. cbn [block_of] in *. apply map_disjoint_singleton_l in Hd as Hb. cbn [block_of].
  by rewrite <-insert_union_singleton_l, delete_insert_id.
Qed.

Lemma owned_ok w p x H :
  root p → owns (heap w) p x H →
  ∃ o, owned w p = Ret o ∧ drop_block o (heap w) = H ∧ (p ≠ NULL → snd <$> o = Some x).
Proof.
  intros [->|[b ->]] Ho.
  - exists None. destruct Ho as [-> _]. split; [done|]. split; [|done]. cbn [block_of drop_block]. by rewrite (left_id_L ∅ (∪)).
  - exists (Some (b, x)). apply owns_lookup in Ho as Hb. apply owns_delete in Ho as Hd.
    split; [cbn; by rewrite Hb|]. done.
Qed.

Lemma free_block_ok w p x H :
  root p → owns (heap w) p x H → free w p = Ret (mkWorld H (calls w) (handles w)).
Proof. intros Hp Ho. unfold free. by destruct (owned_ok w p x H Hp Ho) as (o & -> & <- & _). Qed.

Section memory.
Context (sys : system).

Lemma realloc_ok w p grow x H :
  root p → fresh w → owns (heap w) p x H →
  wp (realloc sys w p grow) (λ '(w', r),
    calls w' = S (calls w) ∧ handles w' = handles w ∧ fresh w' ∧
    ((r = NULL ∧ alloc sys (calls w) = None ∧ heap w' = heap w) ∨
     ∃ o g, r = At (calls w) 0 ∧ alloc sys (calls w) = Some g ∧ (p ≠ NULL → o = Some x) ∧ (p = NULL → o = None) ∧
       owns (heap w') r (grow o g) H)).
Proof.
  intros Hp Hf Ho. unfold realloc.
  destruct (owned_ok w p x H Hp Ho) as (o & Heq & Hd & Hx). rewrite Heq. cbn [mbind outcome_bind].
  destruct (alloc sys (calls w)) as [g|]; cbn; (split; [done|]; split; [done|]).
  - assert (∀ b, (calls w ≤ b)%nat → H !! b = None) as HH.
    { intros b Hb. specialize (Hf b Hb). destruct Ho as [Ho Hdis]. rewrite Ho in Hf.
      by apply lookup_union_None in Hf as [_ ?]. }
    split; [|right; exists (snd <$> o), g; split_and!; [done..| |]].
    + intros b Hb. cbn in Hb |- *. rewrite Hd, lookup_insert_ne by lia. apply HH. lia.
    + intros ->. cbn in Heq. injection Heq as <-. done.
    + apply owns_new; [done|]. by apply HH.
  - split; [|by left]. intros b Hb. cbn in Hb |- *. apply Hf. lia.
Qed.
End memory.

(** ** C strings *)

Definition no_nul (t : list Z) : Prop := Forall (λ c, nonzero c = true) t.

Lemma c_str_app (a t r : list Z) off : off = zlen a → no_nul t → c_str (a ++ t ++ 0 :: r) off = Ret t.
Proof.
  intros -> Ht. unfold c_str. pose proof (zlen_nonneg a). destruct (Z.ltb_spec (zlen a) 0); [lia|].
  unfold zlen. rewrite Nat2Z.id, drop_app_length.
  destruct (take_while_app nonzero t 0 r Ht eq_refl) as [-> ->]. done.
Qed.

Lemma no_nul_app a b : no_nul a → no_nul b → no_nul (a ++ b).
Proof. apply Forall_app_2. Qed.

(** A name of the system is in an array of 260 characters; the fields are
    unsigned numbers of 32 and of 64 bits. *)
Record name_ok (e : find_data) : Prop := mkNameOk {
  ok_no_nul : no_nul (cFileName e);
  ok_short : zlen (cFileName e) < 260;
  ok_size : 0 ≤ nFileSizeLow e < 2 ^ 32 ∧ 0 ≤ nFileSizeHigh e < 2 ^ 32;
  ok_times : Forall (λ t, 0 ≤ t < 2 ^ 64) [ftCreationTime e; ftLastWriteTime e; ftLastAccessTime e];
}.

(** ** What an entry says

    As Windows documents it: bit 4 of the attributes marks a directory, the
    size is in two halves, and a time counts intervals of 100 nanoseconds from
    the start of 1601, which is 11644473600 seconds before that of 1970. *)
Definition is_directory (e : find_data) : bool := Z.testbit (dwFileAttributes e) 4.
Definition size_of (e : find_data) : Z := nFileSizeHigh e * 2 ^ 32 + nFileSizeLow e.
Definition unix_time (t : Z) : Z := t / 10 ^ 7 - 11644473600.

(** The item of an entry.  Of a size of 4 GB and more only the lower 32 bits
    are kept ([size_truncated]). *)
Definition record_of (e : find_data) (path name : pointer) : File :=
  mkFile (is_directory e) path name (size_of e mod 2 ^ 32)
    (unix_time (ftCreationTime e)) (unix_time (ftLastWriteTime e)) (unix_time (ftLastAccessTime e)).

Lemma unix_time_ok t : 0 ≤ t < 2 ^ 64 → filetime_to_timet t = unix_time t.
Proof.
  intros Ht. unfold filetime_to_timet, unix_time. rewrite (u64_small t) by lia. change 10000000 with (10 ^ 7).
  assert (0 ≤ t / 10 ^ 7 < 2 ^ 62) as Hd by (split; [apply Z.div_pos; lia|apply Z.div_lt_upper_bound; lia]).
  set (d := t / 10 ^ 7) in *. clearbody d. destruct (Z.lt_ge_cases d 11644473600).
  - assert (u64 (d - 11644473600) = d - 11644473600 + 2 ^ 64) as ->.
    { unfold u64. rewrite <-(Z_mod_plus_full _ 1), Z.mod_small by lia. lia. }
    destruct (Z.ltb_spec (d - 11644473600 + 2 ^ 64) (2 ^ 63)); lia.
  - rewrite u64_small by lia. destruct (Z.ltb_spec (d - 11644473600) (2 ^ 63)); lia.
Qed.

Lemma directory_bit x : negb (Z.land x 16 =? 0) = Z.testbit x 4.
Proof.
  change 16 with (2 ^ 4). assert (Z.land x (2 ^ 4) = if Z.testbit x 4 then 2 ^ 4 else 0) as ->.
  { apply Z.bits_inj'. intros n Hn. rewrite Z.land_spec, Z.pow2_bits_eqb by lia. destruct (Z.eqb_spec 4 n) as [<-|].
    - rewrite andb_true_r. by destruct (Z.testbit x 4).
    - rewrite andb_false_r. destruct (Z.testbit x 4); [by rewrite Z.pow2_bits_false by lia|by rewrite Z.bits_0]. }
  by destruct (Z.testbit x 4).
Qed.

(** What the code makes of an entry. *)
Lemma compile_ok sys f e :
  MAXDWORD sys = 2 ^ 32 - 1 → FILE_ATTRIBUTE_DIRECTORY sys = 16 → name_ok e →
  compileFileStructFromWindowsData sys f e = record_of e (f_path f) (f_name f).
Proof.
  intros Hmax Hdir [_ _ [Hl Hh] [Hc [Hw [Ha _]%Forall_cons]%Forall_cons]%Forall_cons].
  unfold compileFileStructFromWindowsData, record_of. rewrite !unix_time_ok, Hmax, Hdir, directory_bit by done.
  change (u32 (2 ^ 32 - 1 + 1)) with 0. rewrite Z.mul_0_r. change (u32 0) with 0.
  f_equal. unfold size_of. by rewrite (Z.add_comm (_ * _)), Z_mod_plus_full, Z.mod_small, Z.add_0_l, u32_small by lia.
Qed.

(** ** Opening a directory *)

(** The path of a directory, ending in a separator. *)
Definition prefix (path : list Z) : list Z :=
  if bool_decide (last path = Some PATH_SEP) then path else path ++ [PATH_SEP].

Lemma zlen_fresh_bytes g n : 0 ≤ n → zlen (bytes g n) = n.
Proof. intros. unfold bytes, zlen. rewrite length_fmap, length_seqZ. lia. Qed.

Lemma no_nul_prefix path : no_nul path → no_nul (prefix path).
Proof. unfold prefix. case_bool_decide; [done|]. intros. apply no_nul_app; [done|]. by repeat constructor. Qed.

(** One character is a range of one. *)
Lemma wr_is_range (l : list Z) i v : wr l i v = wr_range l i [v].
Proof.
  unfold wr, wr_range. change (zlen [v]) with 1.
  destruct (Z.leb_spec 0 i), (Z.ltb_spec i (zlen l)), (Z.leb_spec (i + 1) (zlen l)); try lia; try done.
  cbn [andb]. f_equal. rewrite insert_take_drop by (unfold zlen in *; lia). do 3 f_equal. lia.
Qed.

(** The path is put into the buffer, with its separator, and the search starts. *)
Lemma openDirectory_prefix sys w path errmax :
  1 < PATH_MAX sys ≤ 2 ^ 16 →
  ((path = [] ∨ PATH_MAX sys ≤ zlen (prefix path)) ∧ ∃ m, openDirectory sys w path errmax = Ret (w, inr m)) ∨
  (path ≠ [] ∧ zlen (prefix path) < PATH_MAX sys ∧ ∃ r, zlen (prefix path ++ r) = PATH_MAX sys ∧
    openDirectory sys w path errmax = start_search sys w path (prefix path ++ r) (zlen (prefix path)) errmax).
Proof.
  intros Hmax. unfold openDirectory. pose proof (zlen_nonneg path).
  destruct (Z.eqb_spec (zlen path) 0) as [E|Hne]; [apply zlen_0_inv in E; left; eauto|].
  assert (zlen path ≤ zlen (prefix path) ≤ zlen path + 1) as Hpl by (unfold prefix; case_bool_decide; zlen).
  destruct (Z.leb_spec (PATH_MAX sys) (zlen path)); [left; split; [right; lia|eauto]|].
  pose proof (zlen_fresh_bytes (stack sys (calls w)) (PATH_MAX sys) ltac:(lia)) as Hlen.
  destruct (list_split3 (bytes (stack sys (calls w)) (PATH_MAX sys)) 0 (zlen path)) as (a & b & c & Heq & Ha & Hb & Hc); [lia..|].
  apply zlen_0_inv in Ha as ->. rewrite Heq, (wr_range_app [] b c path 0) by done. cbn [mbind outcome_bind app].
  destruct (rd_ok path (zlen path - 1)) as (x & -> & Hx); [lia|]. cbn [mbind outcome_bind].
  assert (last path = Some x) as Hlast by (rewrite last_lookup, <-Hx; f_equal; unfold zlen in *; lia).
  assert (path ≠ []) as Hnil by (intros ->; done).
  destruct (Z.eqb_spec x PATH_SEP) as [->|Hx']; cbn [negb].
  - assert (prefix path = path) as -> by (unfold prefix; by rewrite bool_decide_eq_true_2).
    right. split_and!; [done..|]. exists c. split; [zlen|done].
  - assert (prefix path = path ++ [PATH_SEP]) as -> by (unfold prefix; rewrite bool_decide_eq_false_2; [done|congruence]).
    assert (zlen (path ++ [PATH_SEP]) = zlen path + 1) as Hz by zlen. rewrite Hz, u64_small by lia.
    destruct (Z.leb_spec (PATH_MAX sys) (zlen path + 1)); [left; split; [right; lia|eauto]|].
    right. split; [done|]. split; [lia|]. destruct c as [|y c]; [zlen|]. exists c.
    rewrite wr_is_range. change (path ++ y :: c) with (path ++ [y] ++ c).
    rewrite (wr_range_app path [y] c [PATH_SEP]) by done. split; [zlen|]. cbn [mbind outcome_bind].
    by rewrite <-app_assoc.
Qed.

(** ** Directories under Windows *)

Section windows.
Context (sys : system).

(** The documented behaviour of what the code calls. *)
Record sys_ok : Prop := mkSysOk {
  ok_windows : windows sys = true;
  ok_max : ∀ x y, SDL_max sys x y = Z.max x y;
  ok_path_max : 1 < PATH_MAX sys ≤ 2 ^ 16;
  ok_maxdword : MAXDWORD sys = 2 ^ 32 - 1;
  ok_directory : FILE_ATTRIBUTE_DIRECTORY sys = 16;
  ok_names : ∀ p d l, FindFirstFile sys p = Some (d, l) → Forall name_ok (d :: l) ∧ zlen l < 2 ^ 30;
}.
Context (Hsys : sys_ok).

(** The entries of a directory, if it can be opened. *)
Definition entries_of (path : list Z) : option (list find_data) :=
  if bool_decide (path = []) then None
  else if zlen (prefix path) + 1 <? PATH_MAX sys then
    '(d, l) ← FindFirstFile sys (prefix path ++ [c_star]); Some (d :: l)
  else None.

Definition hidden (e : find_data) : bool := bool_decide (cFileName e !! 0%nat = Some c_dot).

(** What a listing shows: the entries that are not hidden, up to the first
    one with too long a path. *)
Fixpoint listing (pre : list Z) (es : list find_data) : list find_data :=
  match es with
  | [] => []
  | e :: es =>
      if hidden e then listing pre es
      else if PATH_MAX sys <=? zlen pre + zlen (cFileName e) then []
      else e :: listing pre es
  end.

(** An open directory that has the entries [es] to give. *)
Record dir_at (dir : Directory) (pre : list Z) (es : list find_data) : Prop := mkDirAt {
  at_entries : es = if d_first dir then d_data dir :: d_find dir else d_find dir;
  at_handle : d_handle dir = [];
  at_plen : d_plen dir = zlen pre;
  at_buffer : ∃ r, d_buffer dir = pre ++ r;
  at_size : zlen (d_buffer dir) = PATH_MAX sys;
  at_pre : zlen pre < PATH_MAX sys;
  at_names : Forall name_ok es;
}.

Lemma dir_at_fuel dir pre es : dir_at dir pre es → (length es < dir_fuel dir)%nat.
Proof. intros [-> Hh _ _ _ _ _]. unfold dir_fuel. destruct (d_first dir); simpl; lia. Qed.

Lemma start_search_ok w path pre r errmax :
  zlen (pre ++ r) = PATH_MAX sys → no_nul pre → zlen pre ≤ PATH_MAX sys →
  wp (start_search sys w path (pre ++ r) (zlen pre) errmax) (λ '(w', o),
    match (if zlen pre + 1 <? PATH_MAX sys then FindFirstFile sys (pre ++ [c_star]) else None) with
    | None => w' = w ∧ ∃ m, o = inr m
    | Some (d, l) => w' = add_handles w 1 ∧ ∃ dir, o = inl dir ∧ dir_at dir pre (d :: l)
    end).
Proof.
  intros Hr Hpre Hle. unfold start_search. rewrite (ok_windows Hsys). pose proof (ok_path_max Hsys).
  pose proof (zlen_nonneg pre). rewrite u64_small by lia.
  destruct (Z.leb_spec (PATH_MAX sys) (zlen pre + 1)), (Z.ltb_spec (zlen pre + 1) (PATH_MAX sys)); try lia.
  { cbn. eauto. }
  rewrite zlen_app in Hr. destruct r as [|x [|y r]]; [zlen..|].
  pose proof (wr_range_app pre [x] (y :: r) [c_star] (zlen pre) eq_refl eq_refl) as Hw1.
  rewrite wr_is_range. change (pre ++ x :: y :: r) with (pre ++ [x] ++ y :: r). rewrite Hw1. cbn [mbind outcome_bind].
  rewrite wr_is_range. change (pre ++ [c_star] ++ y :: r) with (pre ++ [c_star] ++ [y] ++ r).
  rewrite app_assoc, (wr_range_app (pre ++ [c_star]) [y] r [0] (zlen pre + 1)) by (zlen; done).
  cbn [mbind outcome_bind].
  assert (c_str ((pre ++ [c_star]) ++ [0] ++ r) 0 = Ret (pre ++ [c_star])) as ->.
  { apply (c_str_app [] (pre ++ [c_star]) r 0 eq_refl). apply no_nul_app; [done|]. by repeat constructor. }
  cbn [mbind outcome_bind]. destruct (FindFirstFile sys (pre ++ [c_star])) as [[d l]|] eqn:E; [|cbn; eauto].
  split; [done|]. eexists. split; [done|]. split; cbn; try done.
  - exists ([c_star] ++ 0 :: r). by rewrite <-app_assoc.
  - rewrite !zlen_app, !zlen_cons in *. zlen.
  - lia.
  - apply (ok_names Hsys _ _ _ E).
Qed.

Lemma openDirectory_ok w path errmax :
  no_nul path →
  wp (openDirectory sys w path errmax) (λ '(w', o),
    match entries_of path with
    | None => w' = w ∧ ∃ m, o = inr m
    | Some es => w' = add_handles w 1 ∧ ∃ dir, o = inl dir ∧ dir_at dir (prefix path) es
    end).
Proof.
  intros Hpath. pose proof (ok_path_max Hsys) as Hmax. unfold entries_of.
  destruct (openDirectory_prefix sys w path errmax Hmax) as [[Hbad [m ->]]|(Hnil & Hlt & r & Hr & ->)].
  { destruct Hbad as [->|Hbad]; [by cbn; eauto|]. case_bool_decide; [by cbn; eauto|].
    destruct (Z.ltb_spec (zlen (prefix path) + 1) (PATH_MAX sys)); [lia|]. cbn. eauto. }
  rewrite bool_decide_eq_false_2 by done.
  eapply wp_mono; [apply start_search_ok; [done|by apply no_nul_prefix|lia]|].
  intros [w' o]. destruct (_ <? _); [|done]. by destruct (FindFirstFile sys _) as [[d l]|].
Qed.

(** What the directory gives next: its entry, or the end of the listing. *)
Lemma next_visible_ok dir pre es :
  dir_at dir pre es →
  wp (next_visible sys dir) (λ '(dir', r),
    match r with
    | None => listing pre es = []
    | Some name => ∃ e es', name = cFileName e ∧ d_data dir' = e ∧ dir_at dir' pre es' ∧ name_ok e ∧
        (length es' < length es)%nat ∧
        listing pre es = if PATH_MAX sys <=? zlen pre + zlen name then [] else e :: listing pre es'
    end).
Proof.
  intros Hd. unfold next_visible.
  apply (wp_loop_count (λ n dir', ∃ es', n = length es' ∧ dir_at dir' pre es' ∧ (length es' ≤ length es)%nat ∧
           listing pre es = listing pre es') _ _ _ (length es)); [by eauto|by eapply dir_at_fuel|].
  clear Hd dir. intros n dir (es' & -> & Hd & Hle & Heq). destruct Hd as [He Hh Hp Hb Hs Hlt Hn].
  unfold next_entry. rewrite (ok_windows Hsys).
  assert (∀ x l dir', es' = x :: l → d_first dir' = false → d_find dir' = l → d_handle dir' = [] →
    d_plen dir' = d_plen dir → d_buffer dir' = d_buffer dir → d_data dir' = x →
    wp (c ← rd (cFileName x ++ [0]) 0; if c =? c_dot then continue dir' else break (dir', Some (cFileName x)))
     (λ r, match r with
       | inl s' => ∃ n', (n' < length es')%nat ∧ ∃ es0, n' = length es0 ∧ dir_at s' pre es0 ∧ (length es0 ≤ length es)%nat ∧ listing pre es = listing pre es0
       | inr (dir'0, r) => match r with
         | None => listing pre es = []
         | Some name => ∃ e es0, name = cFileName e ∧ d_data dir'0 = e ∧ dir_at dir'0 pre es0 ∧ name_ok e ∧ (length es0 < length es)%nat ∧
           listing pre es = if PATH_MAX sys <=? zlen pre + zlen name then [] else e :: listing pre es0 end end)) as Hx.
  { intros x l dir' Hl Hf1 Hf2 Hf3 Hf4 Hf5 Hf6. rewrite Hl in *.
    assert (dir_at dir' pre l) as Hd' by (split; rewrite ?Hf1, ?Hf3, ?Hf4, ?Hf5; auto; by inversion Hn).
    inversion Hn as [|?? Hn1 Hn2 Hn3]. simpl in Hle.
    apply wp_bind, wp_rd; [unfold zlen; rewrite length_app; simpl; lia|]. intros c Hc _.
    assert (hidden x = (c =? c_dot)) as Hhid.
    { unfold hidden. destruct (cFileName x) as [|y t]; simpl in Hc |- *; injection Hc as <-; [done|].
      destruct (Z.eqb_spec y c_dot) as [->|]; [done|]. rewrite bool_decide_eq_false_2; [done|congruence]. }
    rewrite Heq. simpl listing. rewrite Hhid. destruct (c =? c_dot); cbn.
    - exists (length l). split; [lia|]. exists l. split_and!; [done..|lia|done].
    - exists x, l. split_and!; [done..|lia|done]. }
  destruct (d_first dir) eqn:Hf.
  - by apply (Hx (d_data dir) (d_find dir)).
  - destruct (d_find dir) as [|x l] eqn:Hfind; [subst; cbn; by rewrite Heq|]. by apply (Hx x l).
Qed.

Lemma nextFile_ok w dir pre es file errmax :
  dir_at dir pre es → no_nul pre →
  wp (nextFile sys w dir file errmax) (λ '(w', dir', file', ok, m),
    w' = w ∧
    if ok then ∃ e es' r, listing pre es = e :: listing pre es' ∧ (length es' < length es)%nat ∧
      dir_at dir' pre es' ∧ file' = record_of e (Buffer 0) (Buffer (zlen pre)) ∧
      d_buffer dir' = (pre ++ cFileName e) ++ 0 :: r ∧ no_nul (pre ++ cFileName e) ∧
      zlen (pre ++ cFileName e) < PATH_MAX sys
    else listing pre es = []).
Proof.
  intros Hd Hpre. unfold nextFile. apply wp_bind. eapply wp_mono; [by apply next_visible_ok|].
  intros [dir' [name|]]; [|done]. intros (e & es' & -> & He & Hd' & Hok & Hlen & Heq). pose proof Hok as [Hnn Hmax _ _].
  destruct Hd' as [He' Hh Hp (r & Hb) Hs Hlt Hn]. pose proof (zlen_nonneg pre). pose proof (zlen_nonneg (cFileName e)).
  pose proof (ok_path_max Hsys). rewrite Hp, u64_small by lia.
  destruct (Z.leb_spec (PATH_MAX sys) (zlen pre + zlen (cFileName e))) as [?|Hfit]; [by cbn|].
  rewrite Hb in Hs |- *. rewrite zlen_app in Hs.
  destruct (list_split3 r (zlen (cFileName e)) 1) as (a & b & c & -> & Ha & Hb1 & Hc); [lia..|].
  rewrite (wr_range_app pre a (b ++ c) (cFileName e)) by done. cbn [mbind outcome_bind].
  rewrite wr_is_range, app_assoc, (wr_range_app (pre ++ cFileName e) b c [0]) by (zlen; done).
  cbn [mbind outcome_bind]. rewrite (ok_windows Hsys). cbn.
  split; [done|]. exists e, es', c. split_and!; [done..| | | | |].
  - split; cbn; [done..| | |done|done].
    + exists (cFileName e ++ [0] ++ c). by rewrite <-app_assoc.
    + rewrite !zlen_app in *. rewrite zlen_cons. lia.
  - rewrite He, Hp. by apply compile_ok; [apply Hsys..|].
  - done.
  - by apply no_nul_app.
  - zlen.
Qed.

(** ** A listing as it is built *)

(** What the pool of characters holds of the files of a listing. *)
Definition path_of (pre : list Z) (e : find_data) : list Z := pre ++ cFileName e.
Definition pool_text (pre : list Z) (es : list find_data) : list Z :=
  concat ((λ e, path_of pre e ++ [0]) <$> es).

(** The items of a listing, the first path being at [o] of the pool. *)
Fixpoint records (pre : list Z) (p : pointer) (o : Z) (es : list find_data) : list File :=
  match es with
  | [] => []
  | e :: es =>
      record_of e (offset p o) (offset p (o + zlen pre)) :: records pre p (o + (zlen (path_of pre e) + 1)) es
  end.

Lemma pool_text_snoc pre es e : pool_text pre (es ++ [e]) = pool_text pre es ++ path_of pre e ++ [0].
Proof. unfold pool_text. rewrite fmap_app, concat_app. cbn. by rewrite app_nil_r. Qed.

Lemma pool_text_cons pre e es : pool_text pre (e :: es) = path_of pre e ++ 0 :: pool_text pre es.
Proof. unfold pool_text. cbn. by rewrite <-app_assoc. Qed.
#[global] Arguments pool_text : simpl never.

Lemma records_app pre p o es es' :
  records pre p o (es ++ es') = records pre p o es ++ records pre p (o + zlen (pool_text pre es)) es'.
Proof.
  revert o. induction es as [|e es IH]; intros o; [by rewrite Z.add_0_r|]. cbn.
  rewrite IH, pool_text_cons. do 3 f_equal. zlen.
Qed.

Lemma zlen_records pre p o es : zlen (records pre p o es) = zlen es.
Proof. revert o. induction es as [|e es IH]; intros o; [done|]. cbn. by rewrite !zlen_cons, IH. Qed.

Lemma zlen_fmap {A B} (f : A → B) l : zlen (f <$> l) = zlen l.
Proof. unfold zlen. by rewrite length_fmap. Qed.

(** Between two steps of the loop: [sel] is in the listing, the heap has its
    two blocks besides what was there before. *)
Record building (w0 w : world) (l : FileList) (p : pool_t) (pre : list Z) (sel : list find_data) : Prop := mkBuilding {
  b_fresh : fresh w;
  b_calls : (calls w0 ≤ calls w)%nat;
  b_handles : handles w = handles w0 + 1;
  b_items : root (items l);
  b_pool : root (pool p);
  b_memory : ∃ t H, owns (heap w) (pool p) (Text (pool_text pre sel ++ t)) H ∧ owns H (items l) Cells (heap w0) ∧
    zlen (pool_text pre sel ++ t) = pool_capacity p;
  b_cells : ∃ n, cells l = (Some <$> records pre (pool p) 0 sel) ++ replicate n None;
  b_capacity : zlen (cells l) = capacity l;
  b_count : count l = zlen sel;
  b_pool_count : pool_count p = zlen (pool_text pre sel);
  b_items_null : items l = NULL → capacity l = 0;
  b_pool_null : pool p = NULL → pool_capacity p = 0;
  b_small : capacity l ≤ 2 ^ 32;
  b_pool_small : pool_capacity p ≤ 2 ^ 50;
  b_text_small : zlen (pool_text pre sel) ≤ 2 ^ 17 * zlen sel;
}.

Definition out_of_memory : Prop := ∃ k, alloc sys k = None.

Lemma building_more w0 w w' l p pre sel :
  building w0 w l p pre sel → heap w' = heap w → handles w' = handles w → (calls w ≤ calls w')%nat → fresh w' →
  building w0 w' l p pre sel.
Proof.
  intros [? ? ? ? ? Hm] Hh Hha Hc Hf. split; try done; [lia|congruence|by rewrite Hh].
Qed.

Lemma building_length w0 w l p pre sel : building w0 w l p pre sel → zlen sel ≤ capacity l.
Proof.
  intros [_ _ _ _ _ _ [n Hc] <- _ _ _ _ _ _ _]. rewrite Hc, zlen_app, zlen_fmap, zlen_records, zlen_replicate. lia.
Qed.

Lemma reserve_item_ok w0 w l p pre sel :
  building w0 w l p pre sel → zlen sel ≤ 2 ^ 30 →
  wp (reserve_item sys w l) (λ '(w', r),
    match r with
    | None => out_of_memory ∧ building w0 w' l p pre sel
    | Some l' => building w0 w' l' p pre sel ∧ count l' < capacity l'
    end).
Proof.
  intros HB Hsmall. pose proof (building_length _ _ _ _ _ _ HB) as Hle. pose proof (zlen_nonneg sel).
  pose proof HB as [Hf Hc Hh Hi Hp (t & H1 & Ho1 & Ho2 & Hz) (n & Hcells) Hcap Hcount Hpc Hin Hpn Hs Hps Hts].
  unfold reserve_item. destruct (Z.eqb_spec (count l) (capacity l)) as [Heq|Hne].
  2: { cbn. split; [done|lia]. }
  rewrite (ok_max Hsys), (u64_small (2 * _)) by lia.
  destruct (owns_swap _ _ _ _ _ _ _ Ho1 Ho2) as (H2 & Ho3 & Ho4).
  apply wp_bind. eapply wp_mono; [by apply (realloc_ok sys w (items l) grow_cells Cells H2)|].
  intros [w' r] (Hc' & Hh' & Hf' & [(-> & Hnone & Hheap)|(o & g & -> & Hsome & _ & _ & Ho)]).
  - rewrite decide_True by done. cbn. split; [by eexists|]. eapply building_more; eauto; lia.
  - rewrite decide_False by done. rewrite u64_small by (unfold sizeof_File; lia).
    rewrite Z.div_mul by done. cbn. split; [|lia].
    destruct (owns_swap _ _ _ _ _ _ _ Ho Ho4) as (H3 & Ho5 & Ho6).
    split; cbn; try done; [lia|congruence|right; by eexists|by exists t, H3| | |lia].
    + exists (n + (Z.to_nat (8 `max` (2 * capacity l)) - length (cells l)))%nat.
      rewrite resize_ge, Hcells by (unfold zlen in *; lia). rewrite <-app_assoc. f_equal.
      by rewrite replicate_add.
    + unfold zlen. rewrite length_resize. lia.
Qed.

(** The loop that moves the pointers to the new pool. *)
Lemma update_pointers_ok pool tmp pre sel rest l :
  (sel ≠ [] → ∃ b, pool = At b 0) → (∃ b, tmp = At b 0) →
  cells l = (Some <$> records pre pool 0 sel) ++ rest → count l = zlen sel → zlen sel < 2 ^ 31 →
  update_pointers pool tmp l =
    Ret (mkList (items l) ((Some <$> records pre tmp 0 sel) ++ rest) (count l) (capacity l)).
Proof.
  intros Hpool [b' ->] Hcells Hcount Hsmall. unfold update_pointers.
  pose proof (zlen_nonneg sel). rewrite Hcount, (s32_small (zlen sel)) by lia.
  enough (loop (S (length (cells l))) (λ '(i, l), if i <? zlen sel then
      c ← rd l i;
      match c with
      | None => Fail Undefined
      | Some f =>
          path ← rebase pool (At b' 0) (f_path f);
          name ← rebase pool (At b' 0) (f_name f);
          l ← wr l i (Some (set_path f path name));
          continue (i + 1, l)
      end else break l) (0, cells l) = Ret ((Some <$> records pre (At b' 0) 0 sel) ++ rest)) as -> by done.
  apply wp_eq_inv.
  apply (wp_loop_count (λ n '(i, l), ∃ s1 s2, sel = s1 ++ s2 ∧ n = length s2 ∧ i = zlen s1 ∧
    l = (Some <$> records pre (At b' 0) 0 s1) ++
        (Some <$> records pre pool (zlen (pool_text pre s1)) s2) ++ rest) _ _ _ (length sel)).
  { exists [], sel. rewrite Hcells. done. }
  { rewrite Hcells, length_app, length_fmap. pose proof (zlen_records pre pool 0 sel). unfold zlen in *. lia. }
  intros n [i l'] (s1 & s2 & -> & -> & -> & ->). pose proof (zlen_nonneg s2).
  destruct s2 as [|e s2].
  { rewrite app_nil_r. destruct (Z.ltb_spec (zlen s1) (zlen s1)); [lia|]. done. }
  destruct (Hpool ltac:(by destruct s1)) as [b ->].
  destruct (Z.ltb_spec (zlen s1) (zlen (s1 ++ e :: s2))) as [_|]; [|rewrite zlen_app, zlen_cons in *; pose proof (zlen_nonneg s2); lia].
  cbn [records fmap list_fmap app].
  assert (zlen (Some <$> records pre (At b' 0) 0 s1) = zlen s1) as Hz by (by rewrite zlen_fmap, zlen_records).
  rewrite rd_app_r, Hz, Z.sub_diag, rd_cons_0 by lia. cbn.
  destruct (decide (b = b)) as [_|]; [|done]. cbn.
  rewrite wr_ok by (rewrite zlen_app, Hz, zlen_cons; pose proof (zlen_nonneg ((Some <$> records pre (At b 0) (zlen (pool_text pre s1) + (zlen (path_of pre e) + 1)) s2) ++ rest)); pose proof (zlen_nonneg s1); lia).
  cbn. exists (length s2). split; [lia|]. exists (s1 ++ [e]), s2. split_and!; [by rewrite <-app_assoc|done|by zlen|].
  rewrite insert_app_r_alt by (unfold zlen in *; lia).
  replace (Z.to_nat (zlen s1) - _)%nat with 0%nat by (unfold zlen in *; lia). cbn.
  rewrite records_app, fmap_app, <-app_assoc. f_equal. cbn.
  f_equal; [unfold record_of; cbn; by rewrite ?Z.add_0_l, ?Z.sub_0_r|].
  rewrite pool_text_snoc, !zlen_app. done.
Qed.

Lemma reserve_text_ok w0 w l p pre sel plen :
  building w0 w l p pre sel → zlen sel ≤ 2 ^ 30 → 0 ≤ plen < 2 ^ 16 →
  wp (reserve_text sys w l p plen) (λ '(w', r),
    match r with
    | None => out_of_memory ∧ building w0 w' l p pre sel
    | Some (l', p') => building w0 w' l' p' pre sel ∧ count l' = count l ∧ capacity l' = capacity l ∧
        pool_count p' + plen + 1 ≤ pool_capacity p'
    end).
Proof.
  intros HB Hsmall Hplen. pose proof (zlen_nonneg sel).
  pose proof HB as [Hf Hc Hh Hi Hp (t & H1 & Ho1 & Ho2 & Hz) (n & Hcells) Hcap Hcount Hpc Hin Hpn Hs Hps Hts].
  pose proof (zlen_nonneg (pool_text pre sel)) as Ht0. rewrite zlen_app in Hz. pose proof (zlen_nonneg t).
  unfold reserve_text. rewrite (u64_small (pool_count p + plen + 1)) by lia.
  destruct (Z.ltb_spec (pool_capacity p) (pool_count p + plen + 1)) as [Hlt|Hge]; [|by cbn].
  rewrite (ok_max Hsys), u64_small by lia.
  set (cap := (pool_count p + plen + 1) `max` (2 * pool_capacity p)).
  apply wp_bind. eapply wp_mono; [by apply (realloc_ok sys w (pool p) (grow_text cap) (Text (pool_text pre sel ++ t)) H1)|].
  intros [w' r] (Hc' & Hh' & Hf' & [(-> & Hnone & Hheap)|(o & g & -> & Hsome & Hx & Hx' & Ho)]).
  - rewrite decide_True by done. cbn. split; [by eexists|]. eapply building_more; eauto; lia.
  - rewrite decide_False by done.
    assert (Hroot : sel ≠ [] → ∃ b, pool p = At b 0).
    { intros Hne. destruct Hp as [Hp|?]; [|done]. specialize (Hpn Hp). destruct sel as [|e sel]; [done|].
      rewrite pool_text_cons, zlen_app, zlen_cons in Hz. pose proof (zlen_nonneg (path_of pre e)).
      pose proof (zlen_nonneg (pool_text pre sel)). lia. }
    rewrite (update_pointers_ok _ _ pre sel (replicate n None)) by (eauto; lia).
    cbn. split; [|split; [done|split; [done|lia]]].
    assert (∃ t', grow_text cap o g = Text (pool_text pre sel ++ t') ∧ zlen (pool_text pre sel ++ t') = cap) as (t' & Hgrow & Hlen).
    { unfold grow_text.
      set (l0 := match o with Some (Text l0) => l0 | _ => [] end).
      assert (l0 = pool_text pre sel ++ t) as ->.
      { subst l0. destruct (decide (pool p = NULL)) as [Hnull|Hnn]; [|by rewrite (Hx Hnn)].
        rewrite (Hx' Hnull). specialize (Hpn Hnull). symmetry. apply zlen_0_inv. rewrite zlen_app. lia. }
      exists (take (Z.to_nat cap - length (pool_text pre sel)) (t ++ drop (length (pool_text pre sel ++ t)) (bytes g cap))).
      rewrite <-!app_assoc, take_app_ge by (unfold zlen in *; lia). split; [done|].
      pose proof (zlen_fresh_bytes g cap ltac:(lia)). unfold zlen in *.
      rewrite length_app, length_take, length_app, length_drop, length_app. lia. }
    rewrite Hgrow in Ho. split; cbn; try done; [lia|congruence|right; by eexists|by exists t', H1|by eexists| |lia].
    rewrite zlen_app, zlen_fmap, zlen_records, zlen_replicate.
    rewrite <-Hcap, Hcells, zlen_app, zlen_fmap, zlen_records, zlen_replicate. done.
Qed.

(** Writing behind what a block holds. *)
Lemma store_text_ok w b off a t s H :
  owns (heap w) (At b 0) (Text (a ++ t)) H → off = zlen a → zlen s ≤ zlen t →
  ∃ t', store w (At b off) s = Ret (set_text w b (a ++ s ++ t')) ∧
    owns (heap (set_text w b (a ++ s ++ t'))) (At b 0) (Text (a ++ s ++ t')) H ∧ zlen t' = zlen t - zlen s.
Proof.
  intros Ho -> Hle. pose proof (zlen_nonneg s).
  destruct (list_split3 t 0 (zlen s)) as (a0 & u & t' & -> & Ha0 & Hu & Ht'); [lia..|].
  apply zlen_0_inv in Ha0 as ->. exists t'. split_and!; [|by eapply owns_update|lia].
  unfold store, text_of. rewrite (owns_lookup _ _ _ _ _ Ho). cbn [mbind outcome_bind app].
  by rewrite (wr_range_app a u t' s) by done.
Qed.

Lemma add_file_ok w0 w l p pre sel e :
  building w0 w l p pre sel → zlen sel ≤ 2 ^ 30 → count l < capacity l → zlen (path_of pre e) < 2 ^ 16 →
  pool_count p + zlen (path_of pre e) + 1 ≤ pool_capacity p →
  wp (add_file w l p (record_of e (Buffer 0) (Buffer (zlen pre))) (path_of pre e))
    (λ '(w', l', p'), building w0 w' l' p' pre (sel ++ [e])).
Proof.
  intros HB Hsmall Hroom Htext Hfit. pose proof (zlen_nonneg sel). pose proof (zlen_nonneg (path_of pre e)).
  pose proof HB as [Hf Hc Hh Hi Hp (t & H1 & Ho1 & Ho2 & Hz) (n & Hcells) Hcap Hcount Hpc Hin Hpn Hs Hps Hts].
  pose proof (zlen_nonneg (pool_text pre sel)).
  destruct Hp as [Hp|[b Hp]]; [specialize (Hpn Hp); lia|]. rewrite Hp in Ho1.
  unfold add_file. cbn [record_of f_name f_path distance mbind outcome_bind].
  rewrite Hp, Z.sub_0_r. cbn [offset]. rewrite zlen_app in Hz.
  destruct (store_text_ok w b (0 + pool_count p) (pool_text pre sel) t (path_of pre e) H1 Ho1) as (t1 & -> & Hs1 & Hl1); [lia..|].
  cbn [mbind outcome_bind]. rewrite app_assoc in Hs1 |- *.
  destruct (store_text_ok _ b (0 + pool_count p + zlen (path_of pre e)) _ t1 [0] H1 Hs1) as (t2 & -> & Hs2 & Hl2); [zlen|zlen|].
  cbn [mbind outcome_bind]. change (zlen [0]) with 1 in Hl2.
  assert ((pool_text pre sel ++ path_of pre e) ++ [0] ++ t2 = pool_text pre (sel ++ [e]) ++ t2) as Heq.
  { by rewrite pool_text_snoc, <-!app_assoc. }
  rewrite Heq in Hs2 |- *. rewrite wr_ok by lia. cbn [mbind outcome_bind wp].
  assert (zlen (pool_text pre (sel ++ [e])) = zlen (pool_text pre sel) + (zlen (path_of pre e) + 1)) as Hpt.
  { rewrite pool_text_snoc, !zlen_app. done. }
  split; cbn.
  - intros b' Hb'. cbn in Hb' |- *. apply owns_lookup in Ho1 as Hb.
    rewrite !lookup_insert_ne; [by apply Hf|..]; intros <-; by rewrite Hf in Hb.
  - lia.
  - done.
  - done.
  - right. by eexists.
  - exists t2, H1. split; [done|]. split; [done|]. rewrite zlen_app, Hpt. lia.
  - destruct n as [|n].
    { rewrite app_nil_r in Hcells. rewrite <-Hcap, Hcells, zlen_fmap, zlen_records in Hroom. lia. }
    exists n. rewrite Hcells, Hcount, records_app, fmap_app, <-app_assoc.
    assert (length (Some <$> records pre (pool p) 0 sel) = length sel) as Hlen.
    { rewrite length_fmap. pose proof (zlen_records pre (pool p) 0 sel). unfold zlen in *. lia. }
    rewrite insert_app_r_alt, Hlen by (rewrite Hlen; unfold zlen; lia).
    replace (Z.to_nat _ - _)%nat with 0%nat by (unfold zlen; lia). cbn. rewrite Hp, Hpc. do 3 f_equal.
  - rewrite zlen_insert. lia.
  - rewrite u64_small by lia. rewrite zlen_app, Hcount. done.
  - rewrite u64_small by lia. lia.
  - done.
  - done.
  - done.
  - done.
  - rewrite Hpt, zlen_app. change (zlen [e]) with 1. lia.
Qed.

(** ** A listing that is done *)

(** [l] shows the entries [sel], with their paths; its two blocks are new,
    the rest of the heap is as it was. *)
Record shows (w0 w : world) (l : FileList) (pre : list Z) (sel : list find_data) : Prop := mkShows {
  sh_fresh : fresh w;
  sh_calls : (calls w0 ≤ calls w)%nat;
  sh_handles : handles w = handles w0;
  sh_count : count l = zlen sel;
  sh_items : root (items l);
  sh_memory : ∃ p t H n, root p ∧ owns (heap w) p (Text (pool_text pre sel ++ t)) H ∧
    owns H (items l) Cells (heap w0) ∧ cells l = (Some <$> records pre p 0 sel) ++ replicate n None ∧
    if bool_decide (sel = []) then items l = NULL ∧ p = NULL else ∃ b i, p = At b 0 ∧ items l = At i 0;
}.

Lemma list_step_ok w0 st pre es errmax sel :
  building w0 (s_world st) (s_list st) (s_pool st) pre sel → dir_at (s_dir st) pre es → no_nul pre →
  zlen sel ≤ 2 ^ 30 →
  wp (list_step sys errmax st) (λ r,
    match r with
    | inl st' => ∃ e es' sel', listing pre es = e :: listing pre es' ∧ (length es' < length es)%nat ∧
        building w0 (s_world st') (s_list st') (s_pool st') pre sel' ∧ dir_at (s_dir st') pre es' ∧
        (sel' = sel ++ [e] ∨ (sel' = sel ∧ out_of_memory))
    | inr st' => listing pre es = [] ∧ building w0 (s_world st') (s_list st') (s_pool st') pre sel
    end).
Proof.
  intros HB Hd Hpre Hsmall. unfold list_step. pose proof (ok_path_max Hsys) as [_ Hmax].
  apply wp_bind. eapply wp_mono; [by apply nextFile_ok|].
  intros [[[[w dir] file] ok] m] [-> Hnext]. destruct ok; cbn [negb]; [|by cbn].
  destruct Hnext as (e & es' & r & Heq & Hlen & Hd' & -> & Hbuf & Hnn & Hshort).
  apply wp_bind. eapply wp_mono; [by eapply reserve_item_ok|].
  intros [w1 [l1|]]; [intros [HB1 Hroom]|intros [Hoom HB1]].
  2: { cbn. exists e, es', sel. split_and!; auto. }
  cbn [record_of f_path string_at]. rewrite Hbuf.
  rewrite (c_str_app [] (pre ++ cFileName e) r 0 eq_refl Hnn : c_str ((pre ++ cFileName e) ++ 0 :: r) 0 = _).
  cbn [mbind outcome_bind]. apply wp_bind. pose proof (zlen_nonneg (pre ++ cFileName e)).
  eapply wp_mono; [eapply (reserve_text_ok w0 w1 l1 (s_pool st) pre sel); [done|done|lia]|].
  intros [w2 [[l2 p2]|]]; [intros (HB2 & Hc2 & Hcap2 & Hfit)|intros [Hoom HB2]].
  2: { cbn. exists e, es', sel. split_and!; auto. }
  apply wp_bind. eapply wp_mono; [apply (add_file_ok w0 w2 l2 p2 pre sel e); [done|done|lia|unfold path_of; lia|done]|].
  intros [[w3 l3] p3] HB3. cbn. exists e, es', (sel ++ [e]). split_and!; auto.
Qed.

Lemma entries_names path es : entries_of path = Some es → Forall name_ok es ∧ zlen es ≤ 2 ^ 30.
Proof.
  unfold entries_of. case_bool_decide; [done|]. destruct (_ <? _); [|done].
  destruct (FindFirstFile sys _) as [[d l]|] eqn:E; [|done]. intros [= <-].
  destruct (ok_names Hsys _ _ _ E). rewrite zlen_cons. split; [done|lia].
Qed.

Lemma listing_length pre es : zlen (listing pre es) ≤ zlen es.
Proof.
  induction es as [|e es IH]; [done|]. cbn. rewrite zlen_cons. pose proof (zlen_nonneg es).
  destruct (hidden e); [lia|]. destruct (_ <=? _); [by rewrite zlen_nil; lia|rewrite zlen_cons; lia].
Qed.

(** A listing, on every branch: the directory is open or it is not, and memory
    may run out at any call. *)
Lemma listFiles_shows w path l0 errmax :
  fresh w → no_nul path →
  wp (listFiles sys w path l0 errmax) (λ '(w', ok, l, m),
    match entries_of path with
    | None => ok = false ∧ l = l0 ∧ w' = w
    | Some es => ok = true ∧ ∃ sel, sel `sublist_of` listing (prefix path) es ∧
        (sel = listing (prefix path) es ∨ out_of_memory) ∧ shows w w' l (prefix path) sel
    end).
Proof.
  intros Hf Hpath. unfold listFiles. apply wp_bind. eapply wp_mono; [by apply openDirectory_ok|].
  intros [w1 o]. destruct (entries_of path) as [es|] eqn:Hes.
  2: { intros [-> [m ->]]. done. }
  intros [-> (dir & -> & Hd)]. apply entries_names in Hes as [_ Hlen].
  pose proof (no_nul_prefix path Hpath) as Hpre. set (pre := prefix path) in *.
  apply wp_bind. eapply (wp_mono _ (λ st, ∃ sel, sel `sublist_of` listing pre es ∧ (sel = listing pre es ∨ out_of_memory) ∧
    building w (s_world st) (s_list st) (s_pool st) pre sel)).
  - apply (wp_loop_count (λ n st, ∃ es' sel done, n = length es' ∧ dir_at (s_dir st) pre es' ∧
      listing pre es = done ++ listing pre es' ∧ sel `sublist_of` done ∧ (sel = done ∨ out_of_memory) ∧
      building w (s_world st) (s_list st) (s_pool st) pre sel) _ _ _ (length es)).
    + exists es, [], []. cbn. split_and!; auto. split; cbn; auto; try done; [by left|by left|..].
      * exists [], (heap w). split; [apply owns_null|]. split; [apply owns_null|]. done.
      * by exists 0%nat.
    + by eapply dir_at_fuel.
    + intros n st (es' & sel & dn & -> & Hd' & Heq & Hsub & Hor & HB).
      assert (zlen sel ≤ 2 ^ 30) as Hsmall.
      { apply sublist_length in Hsub. pose proof (listing_length pre es) as Hl. rewrite Heq, zlen_app in Hl.
        pose proof (zlen_nonneg (listing pre es')). unfold zlen in *. lia. }
      eapply wp_mono; [by eapply list_step_ok|]. intros [st'|st'].
      * intros (e & es2 & sel' & Heq2 & Hlt & HB' & Hd2 & Hsel). exists (length es2). split; [done|].
        exists es2, sel', (dn ++ [e]). split_and!; [done..| | | |done].
        { by rewrite Heq, Heq2, <-app_assoc. }
        { destruct Hsel as [->|[-> _]]; [by apply sublist_app|by apply sublist_inserts_r]. }
        { destruct Hsel as [->|[-> ?]]; [|by right]. destruct Hor as [->|?]; [by left|by right]. }
      * intros [Hend HB']. rewrite Hend, app_nil_r in Heq. exists sel. by rewrite Heq.
  - intros st (sel & Hsub & Hor & HB). pose proof HB as [Hf' Hc Hh Hi Hp (t & H & Ho1 & Ho2 & Hz) (n & Hcells) Hcap Hcount Hpc Hin Hpn Hs Hps Hts].
    pose proof (zlen_nonneg sel).
    destruct (Z.eqb_spec (count (s_list st)) 0) as [Hzero|Hnz].
    + destruct (owns_swap _ _ _ _ _ _ _ Ho1 Ho2) as (H2 & Ho3 & Ho4).
      rewrite (free_block_ok _ _ _ _ Hi Ho3). cbn [mbind outcome_bind].
      rewrite (free_block_ok (mkWorld H2 _ _) _ _ _ Hp Ho4). cbn.
      assert (sel = []) as -> by (apply zlen_0_inv; lia).
      split; [done|]. exists []. split; [done|]. split; [done|]. split; cbn; [|done|lia|done|by left|].
      * intros b Hb. cbn in Hb |- *. specialize (Hf' b Hb). destruct Ho1 as [Heq Hd1], Ho2 as [Heq2 Hd2].
        rewrite Heq in Hf'. apply lookup_union_None in Hf' as [_ Hf']. rewrite Heq2 in Hf'.
        by apply lookup_union_None in Hf' as [_ ?].
      * exists NULL, [], (heap w), 0%nat. split; [by left|]. split; [apply owns_null|]. split; [apply owns_null|]. done.
    + cbn. split; [done|]. exists sel. split; [done|]. split; [done|]. split; cbn; try done; [lia|].
      exists (pool (s_pool st)), t, H, n. split_and!; [done..|]. rewrite bool_decide_eq_false_2 by (intros ->; by rewrite Hcount in Hnz).
      apply building_length in HB. assert (zlen sel ≠ 0) by lia.
      destruct Hi as [Hi|[i Hi]]; [specialize (Hin Hi); lia|]. destruct Hp as [Hp|[b Hp]]; [|by exists b, i].
      specialize (Hpn Hp). destruct sel as [|e sel]; [done|]. rewrite pool_text_cons, !zlen_app, zlen_cons in Hz.
      pose proof (zlen_nonneg (path_of pre e)). pose proof (zlen_nonneg (pool_text pre sel)). pose proof (zlen_nonneg t). lia.
Qed.

Lemma freeFileList_shows w0 w l pre sel :
  shows w0 w l pre sel → freeFileList w l = Ret (mkWorld (heap w0) (calls w) (handles w)).
Proof.
  intros [Hf Hc Hh Hcount Hi (p & t & H & n & Hp & Ho1 & Ho2 & Hcells & Hsel)]. unfold freeFileList.
  rewrite Hcount. destruct sel as [|e sel].
  - cbn in Hsel. destruct Hsel as [Hnull ->]. cbn. destruct Ho1 as [Ho1 _]. cbn [block_of] in Ho1. rewrite (left_id_L ∅ (∪)) in Ho1.
    rewrite <-Ho1 in Ho2. by apply (free_block_ok _ _ _ _ Hi Ho2).
  - rewrite bool_decide_eq_false_2 in Hsel by done. destruct Hsel as (b & i & -> & Hi2).
    destruct (Z.ltb_spec 0 (zlen (e :: sel))) as [_|]; [|rewrite zlen_cons in *; pose proof (zlen_nonneg sel); lia].
    rewrite Hcells. cbn [records fmap list_fmap app]. rewrite rd_cons_0. cbn [mbind outcome_bind].
    change (f_path _) with (At b 0). rewrite (free_block_ok _ _ _ _ Hp Ho1). cbn [mbind outcome_bind].
    by apply (free_block_ok (mkWorld H _ _) _ _ _ Hi Ho2).
Qed.

(** ** What can be read in a listing *)

Lemma sublist_Forall {A} (P : A → Prop) k l : k `sublist_of` l → Forall P l → Forall P k.
Proof. induction 1; inversion 1; subst; auto. Qed.

Lemma listing_names pre es sel : Forall name_ok es → sel `sublist_of` listing pre es → Forall name_ok sel.
Proof.
  intros Hn Hsub. eapply sublist_Forall; [done|]. clear Hsub sel.
  induction Hn as [|e es He Hn IH]; cbn; [done|]. destruct (hidden e); [done|]. destruct (_ <=? _); by constructor.
Qed.

Lemma records_lookup pre p sel i e :
  sel !! i = Some e →
  ∃ s1 s2, sel = s1 ++ e :: s2 ∧ length s1 = i ∧
    records pre p 0 sel !! i =
      Some (record_of e (offset p (zlen (pool_text pre s1))) (offset p (zlen (pool_text pre s1) + zlen pre))).
Proof.
  intros Hi. exists (take i sel), (drop (S i) sel). apply lookup_lt_Some in Hi as Hlt.
  assert (length (take i sel) = i) as Hlen by (rewrite length_take; lia).
  split; [by rewrite take_drop_middle|]. split; [done|].
  rewrite <-(take_drop_middle sel i e Hi) at 1. rewrite records_app.
  pose proof (zlen_records pre p 0 (take i sel)) as Hz. unfold zlen in Hz.
  rewrite lookup_app_r by lia. by replace (i - _)%nat with 0%nat by lia.
Qed.

(** The path and the name of an item are C strings of the pool. *)
Lemma strings_of_records (w : world) b pre sel t i e buffer :
  heap w !! b = Some (Text (pool_text pre sel ++ t)) → no_nul pre → Forall name_ok sel → sel !! i = Some e →
  ∃ f, records pre (At b 0) 0 sel !! i = Some f ∧ f = record_of e (f_path f) (f_name f) ∧
    string_at w buffer (f_path f) = Ret (path_of pre e) ∧ string_at w buffer (f_name f) = Ret (cFileName e).
Proof.
  intros Hb Hpre Hn Hi. destruct (records_lookup pre (At b 0) sel i e Hi) as (s1 & s2 & -> & Hlen & Hrec).
  eexists. split; [exact Hrec|]. split; [done|].
  apply Forall_app in Hn as [_ Hn]. apply Forall_cons in Hn as [[He _ _ _] _].
  assert (∃ t', pool_text pre (s1 ++ e :: s2) ++ t = pool_text pre s1 ++ pre ++ cFileName e ++ 0 :: t') as [t' Heq].
  { exists (pool_text pre s2 ++ t). change (e :: s2) with ([e] ++ s2). rewrite app_assoc.
    unfold pool_text. rewrite !fmap_app, !concat_app. cbn. rewrite app_nil_r. unfold path_of. by rewrite <-!app_assoc. }
  cbn [record_of f_path f_name offset string_at]. unfold text_of.
  rewrite Hb, Heq. cbn [mbind outcome_bind]. split.
  - unfold path_of. rewrite (app_assoc pre). apply c_str_app; [done|]. by apply no_nul_app.
  - rewrite app_assoc. apply c_str_app; [rewrite zlen_app; lia|done].
Qed.
End windows.

(** ** Theorems *)

Section theorems.
Context (sys : system) (Hsys : sys_ok sys).

(** C35.  A listing under Windows opens the directory or says that it could
    not.  When it has memory it holds the entries that are not hidden, in order,
    up to the first one whose path is too long, and when it has not a part of
    these, in order.  An item has its entry's kind, its times of creation,
    change and access in seconds from 1970, and the lower 32 bits of its size
    (the size itself below 4 GB: [size_truncated]); its path is that of the
    directory with the name behind, its name the last part of it.  No other
    block of the heap has changed, and the directory is closed. *)
Theorem listFiles_correct w path l0 errmax :
  fresh w → no_nul path →
  wp (listFiles sys w path l0 errmax) (λ '(w', ok, l, m),
    match entries_of sys path with
    | None => ok = false ∧ l = l0 ∧ w' = w
    | Some es => ok = true ∧ handles w' = handles w ∧ (∀ b x, heap w !! b = Some x → heap w' !! b = Some x) ∧
        ∃ sel, sel `sublist_of` listing sys (prefix path) es ∧
          (sel = listing sys (prefix path) es ∨ out_of_memory sys) ∧ count l = zlen sel ∧
          ∀ i e, sel !! i = Some e → ∃ f, cells l !! i = Some (Some f) ∧
            f = record_of e (f_path f) (f_name f) ∧
            string_at w' [] (f_path f) = Ret (prefix path ++ cFileName e) ∧
            string_at w' [] (f_name f) = Ret (cFileName e)
    end).
Proof.
  intros Hf Hpath. eapply wp_mono; [by apply listFiles_shows|]. intros [[[w' ok] l] m].
  destruct (entries_of sys path) as [es|] eqn:Hes; [|done].
  intros (-> & sel & Hsub & Hor & [_ _ Hh Hcount _ (p & t & H & n & Hp & Ho1 & Ho2 & Hcells & Hsel)]).
  split; [done|]. split; [done|]. split.
  { intros b x Hb. by eapply has_lookup, has_lookup. }
  exists sel. split_and!; [done..|]. intros i e Hi.
  rewrite bool_decide_eq_false_2 in Hsel by (by intros ->). destruct Hsel as (b & _ & -> & _).
  apply entries_names in Hes as [Hn _]; [|done].
  destruct (strings_of_records w' b (prefix path) sel t i e []) as (f & Hfi & Hrec & Hs1 & Hs2);
    [by eapply owns_lookup|by apply no_nul_prefix|by eapply listing_names|done|].
  exists f. split; [|done]. rewrite Hcells, lookup_app_l, list_lookup_fmap, Hfi; [done|].
  rewrite length_fmap. by eapply lookup_lt_Some.
Qed.

(** C36.  What a listing under Windows takes, [freeFileList] gives back: after
    the two the heap is as it was, and no directory is left open.  (Under Linux
    a listing with a file to show ends in a crash: [listFiles_linux_crashes].) *)
Theorem listFiles_freed w path l0 errmax :
  fresh w → no_nul path →
  wp (listFiles sys w path l0 errmax) (λ '(w', ok, l, m),
    ok = match entries_of sys path with Some _ => true | None => false end ∧
    if ok then freeFileList w' l = Ret (mkWorld (heap w) (calls w') (handles w)) else w' = w).
Proof.
  intros Hf Hpath. eapply wp_mono; [by apply listFiles_shows|]. intros [[[w' ok] l] m].
  destruct (entries_of sys path) as [es|].
  - intros (-> & sel & _ & _ & Hs). split; [done|].
    rewrite (freeFileList_shows w w' l _ sel Hs). by rewrite (sh_handles _ _ _ _ _ Hs).
  - by intros (-> & _ & ->).
Qed.
End theorems.

(** ** Linux *)

Section linux.
Context (sys : system) (Hlinux : windows sys = false) (Hmax : 1 < PATH_MAX sys ≤ 2 ^ 16).

Definition dotted (name : list Z) : Prop := name !! 0%nat = Some c_dot.

Lemma next_visible_linux d0 d1 pre buffer hid name rest :
  Forall dotted hid → no_nul name → ¬ dotted name →
  next_visible sys (mkDirectory d0 no_data d1 (hid ++ name :: rest) pre buffer) =
    Ret (mkDirectory d0 no_data d1 rest pre buffer, Some name).
Proof.
  intros Hhid Hnn Hname. apply wp_eq_inv. unfold next_visible.
  apply (wp_loop_count (λ n dir, ∃ h, n = length h ∧ Forall dotted h ∧
    dir = mkDirectory d0 no_data d1 (h ++ name :: rest) pre buffer) _ _ _ (length hid)).
  { by exists hid. }
  { unfold dir_fuel. cbn. rewrite length_app. simpl. lia. }
  intros n dir (h & -> & Hh & ->). unfold next_entry. rewrite Hlinux. cbn [d_handle].
  destruct Hh as [|x h Hx Hh]; cbn [app d_first d_data d_find d_plen d_buffer].
  - apply wp_bind, wp_rd; [unfold zlen; rewrite length_app; simpl; lia|]. intros c Hc _.
    destruct (Z.eqb_spec c c_dot) as [->|]; [|done]. destruct Hname.
    destruct name as [|y t]; [done|]. unfold dotted. by simpl in Hc |- *.
  - apply wp_bind, wp_rd; [unfold zlen; rewrite length_app; simpl; lia|]. intros c Hc _.
    unfold dotted in Hx. destruct x as [|y t]; [done|]. simpl in Hx, Hc. simplify_eq.
    cbn. exists (length h). split; [lia|]. by exists h.
Qed.

(** What a step of the loop finds: the buffer with the path of the first file
    that is not hidden, and what [queryFile] makes of it. *)
Lemma nextFile_linux w d0 d1 pre r hid name rest file errmax :
  Forall dotted hid → ¬ dotted name → no_nul (pre ++ name) → zlen (pre ++ r) = PATH_MAX sys →
  zlen pre + zlen name < PATH_MAX sys →
  ∃ dir, nextFile sys w (mkDirectory d0 no_data d1 (hid ++ name :: rest) (zlen pre) (pre ++ r)) file errmax =
    let '(w, file, ok, msg) := queryFile sys w (pre ++ name) (set_path file (Buffer 0) (Buffer (zlen pre))) errmax in
    Ret (w, dir, file, ok, msg).
Proof.
  intros Hhid Hname Hnn Hr Hfit. unfold nextFile. pose proof (zlen_nonneg pre). pose proof (zlen_nonneg name).
  rewrite next_visible_linux by (try done; by apply Forall_app in Hnn as [??]). cbn [mbind outcome_bind d_plen d_buffer].
  rewrite u64_small by lia. destruct (Z.leb_spec (PATH_MAX sys) (zlen pre + zlen name)); [lia|].
  rewrite zlen_app in Hr. destruct (list_split3 r (zlen name) 1) as (a & b & c & -> & Ha & Hb1 & Hc); [lia..|].
  rewrite (wr_range_app pre a (b ++ c) name) by done. cbn [mbind outcome_bind].
  rewrite wr_is_range, (app_assoc pre name), (wr_range_app (pre ++ name) b c [0]) by (zlen; done).
  cbn [mbind outcome_bind]. rewrite Hlinux. cbn [set_path f_path string_at].
  assert (c_str ((pre ++ name) ++ [0] ++ c) 0 = Ret (pre ++ name)) as -> by (by apply (c_str_app [] (pre ++ name) c 0)).
  by eexists.
Qed.

(** C39.  Under Linux the call of [queryFile] sets the path of the file back to
    NULL: a listing of a directory with a file to show takes the length of
    NULL. *)
Theorem listFiles_linux_crashes w path l0 errmax hid name rest :
  path ≠ [] → zlen (prefix path) + zlen name < PATH_MAX sys → no_nul (prefix path ++ name) →
  opendir sys path = Some (hid ++ name :: rest) → Forall dotted hid → ¬ dotted name →
  is_Some (stat sys (prefix path ++ name)) → is_Some (alloc sys (calls w)) →
  listFiles sys w path l0 errmax = Fail NullDeref.
Proof.
  intros Hnil Hfit Hnn Hopen Hhid Hname [st Hst] [g Hg]. pose proof (zlen_nonneg name). unfold listFiles.
  destruct (openDirectory_prefix sys w path errmax Hmax) as [[Hbad _]|(_ & Hlt & r & Hr & ->)].
  { destruct Hbad as [->|Hbad]; [done|lia]. }
  unfold start_search. rewrite Hlinux, Hopen. cbn [mbind outcome_bind]. unfold dir_fuel. rewrite loop_unfold.
  unfold list_step. cbn [s_world s_dir s_file].
  destruct (nextFile_linux (add_handles w 1) false [] (prefix path) r hid name rest uninit_file errmax) as [dir ->]; [done..|].
  unfold queryFile. rewrite Hlinux, Hst. cbn [mbind outcome_bind negb s_list s_pool].
  unfold reserve_item, realloc. cbn [count capacity items owned Z.eqb mbind outcome_bind calls add_handles]. by rewrite Hg.
Qed.

(** A file that [stat] fails for, and all behind it, are left out as if the
    directory ended there. *)
Lemma listFiles_linux_silent w path l0 errmax hid name rest :
  path ≠ [] → zlen (prefix path) + zlen name < PATH_MAX sys → no_nul (prefix path ++ name) →
  opendir sys path = Some (hid ++ name :: rest) → Forall dotted hid → ¬ dotted name →
  stat sys (prefix path ++ name) = None →
  ∃ m, listFiles sys w path l0 errmax = Ret (add_handles (add_handles w 1) (-1), true, mkList NULL [] 0 0, m).
Proof.
  intros Hnil Hfit Hnn Hopen Hhid Hname Hst. pose proof (zlen_nonneg name). unfold listFiles.
  destruct (openDirectory_prefix sys w path errmax Hmax) as [[Hbad _]|(_ & Hlt & r & Hr & ->)].
  { destruct Hbad as [->|Hbad]; [done|lia]. }
  unfold start_search. rewrite Hlinux, Hopen. cbn [mbind outcome_bind]. unfold dir_fuel. rewrite loop_unfold.
  unfold list_step. cbn [s_world s_dir s_file].
  destruct (nextFile_linux (add_handles w 1) false [] (prefix path) r hid name rest uninit_file errmax) as [dir ->]; [done..|].
  unfold queryFile. rewrite Hlinux, Hst. cbn. by eexists.
Qed.
End linux.

(** ** Smaller faults *)

(** [MAXDWORD+1] is 0 in 32 bits: an item has the size of its file only below
    4 GB. *)
Lemma size_truncated sys f e :
  MAXDWORD sys = 2 ^ 32 - 1 → FILE_ATTRIBUTE_DIRECTORY sys = 16 → name_ok e →
  f_size (compileFileStructFromWindowsData sys f e) = size_of e ↔ size_of e < 2 ^ 32.
Proof.
  intros Hmax Hdir He. rewrite compile_ok by done. destruct He as [_ _ [Hl Hh] _]. cbn [record_of f_size].
  assert (0 ≤ size_of e) by (unfold size_of; lia). pose proof (Z.mod_pos_bound (size_of e) (2 ^ 32) ltac:(lia)).
  split; [lia|]. intros. by apply Z.mod_small.
Qed.

(** The directory without a name is refused, with nothing put into [errmsg]. *)
Lemma no_message sys w l errmax : listFiles sys w [] l errmax = Ret (w, false, l, None).
Proof. done. Qed.

(** Where CloseHandle does not end a search, each query leaves one open. *)
Lemma query_leaks sys w path file errmax d l :
  windows sys = true → closes sys = false → FindFirstFile sys path = Some (d, l) →
  ∃ f, queryFile sys w path file errmax = (add_handles w 1, f, true, None).
Proof. intros Hw Hc Hf. unfold queryFile. rewrite Hw, Hf, Hc. by eexists. Qed.

(** ** An example *)

(** A directory [d] with a file [a], a hidden one and a directory [s], in which
    there is a file [b].  Entries are of 5 bytes, memory is full of zeros. *)
Definition entry (attributes : Z) (name : string) : find_data := mkData attributes 0 5 0 0 0 (chars name).

Definition example_find (p : list Z) : option (find_data * list find_data) :=
  if bool_decide (p = chars "d") then Some (entry 16 "d", [])
  else if bool_decide (p = chars "d/*") then
    Some (entry 16 ".", [entry 16 ".."; entry 32 "a"; entry 32 ".hidden"; entry 16 "s"])
  else if bool_decide (p = chars "d/s/*") then Some (entry 16 ".", [entry 16 ".."; entry 32 "b"])
  else None.

Definition example_names (p : list Z) : option (list (list Z)) :=
  if bool_decide (p = chars "d") then Some [chars "."; chars ".."; chars "a"] else None.

Definition example_sys (win : bool) (fill : Z) : system :=
  mkSystem win 260 (2 ^ 32 - 1) 16 Z.max (λ _, Some (mkStat false 5 0 0 0)) example_names example_find true
    (λ _, Some (λ _, fill)) (λ _ _, 0).

Definition no_world : world := mkWorld ∅ 0 0.

Lemma example_ok fill : sys_ok (example_sys true fill).
Proof.
  split; [done|done|cbn; lia|done|done|]. intros p d l. cbn. unfold example_find.
  repeat case_bool_decide; intros [= <- <-]; (split; [|unfold zlen; simpl; lia]); repeat constructor; cbn; lia.
Qed.

Lemma no_world_fresh : fresh no_world.
Proof. intros b _. apply lookup_empty. Qed.

Lemma no_nul_d : no_nul (chars "d").
Proof. by repeat constructor. Qed.

Example listFiles_example :
  (λ s, match s with Ret (_, ok, l, _) => (ok, count l, option_map f_size <$> cells l) | _ => (false, 0, []) end)
    (listFiles (example_sys true 0) no_world (chars "d") uninit_list 100) =
  (true, 2, [Some 5; Some 5; None; None; None; None; None; None]).
Proof. vm_compute. reflexivity. Qed.

Lemma listFiles_correct_witness :
  wp (listFiles (example_sys true 0) no_world (chars "d") uninit_list 100) (λ '(w', ok, l, m),
    ok = true ∧ handles w' = 0 ∧ (∀ b x, heap no_world !! b = Some x → heap w' !! b = Some x) ∧
    ∃ sel, sel `sublist_of` [entry 32 "a"; entry 16 "s"] ∧
      (sel = [entry 32 "a"; entry 16 "s"] ∨ out_of_memory (example_sys true 0)) ∧ count l = zlen sel ∧
      ∀ i e, sel !! i = Some e → ∃ f, cells l !! i = Some (Some f) ∧
        f = record_of e (f_path f) (f_name f) ∧
        string_at w' [] (f_path f) = Ret (chars "d/" ++ cFileName e) ∧
        string_at w' [] (f_name f) = Ret (cFileName e)).
Proof. exact (listFiles_correct _ (example_ok 0) no_world (chars "d") uninit_list 100 no_world_fresh no_nul_d). Defined.

Lemma listFiles_freed_witness :
  wp (listFiles (example_sys true 0) no_world (chars "d") uninit_list 100) (λ '(w', ok, l, m),
    ok = match entries_of (example_sys true 0) (chars "d") with Some _ => true | None => false end ∧
    if ok then freeFileList w' l = Ret (mkWorld (heap no_world) (calls w') (handles no_world)) else w' = no_world).
Proof. exact (listFiles_freed _ (example_ok 0) no_world (chars "d") uninit_list 100 no_world_fresh no_nul_d). Defined.

Lemma listFiles_linux_crashes_witness :
  listFiles (example_sys false 0) no_world (chars "d") uninit_list 100 = Fail NullDeref.
Proof.
  apply (listFiles_linux_crashes (example_sys false 0) eq_refl ltac:(cbn; lia) no_world (chars "d") uninit_list 100
    [chars "."; chars ".."] (chars "a") []).
  - discriminate.
  - vm_compute. reflexivity.
  - by repeat constructor.
  - reflexivity.
  - by repeat constructor.
  - discriminate.
  - by eexists.
  - by eexists.
Defined.
