(* ===== verification/FilesTree.v ===== *)
(** Trees of directories of [misc/file.c]: what [listSubtree] and [listTree]
    make of a file system, and what [freeFileTree] does with it. *)
From S2P Require Import Prelude Files FilesList.
#[global] Open Scope Z_scope.

(** ** What a tree says *)

(** A directory is not read, could not be read, or has its entries, with a
    tree for each entry that is a directory. *)
#[warnings="-register-all"] Inductive dtree : Type :=
  | Unread
  | Failed
  | Read (es : list find_data) (subs : list dtree).

Section tree.
Context (sys : system).

(** The tree of depth [n] of the directory at [path]. *)
Fixpoint tree_of (n : nat) (path : list Z) : dtree :=
  match n with
  | O => Unread
  | S n =>
      match entries_of sys path with
      | None => Failed
      | Some es =>
          let sel := listing sys (prefix path) es in
          Read sel ((λ e, tree_of n (path_of (prefix path) e)) <$> filter is_directory sel)
      end
  end.

(** What may be found when memory may run out. *)
Fixpoint may (n : nat) (path : list Z) (d : dtree) : Prop :=
  match n with
  | O => d = Unread
  | S n =>
      match entries_of sys path with
      | None => d = Failed
      | Some es =>
          (d = Failed ∧ out_of_memory sys) ∨
          ∃ sel subs, d = Read sel subs ∧ sel `sublist_of` listing sys (prefix path) es ∧
            (sel = listing sys (prefix path) es ∨ out_of_memory sys) ∧
            Forall2 (λ e, may n (path_of (prefix path) e)) (filter is_directory sel) subs
      end
  end.

Lemma may_exact n path d : ¬ out_of_memory sys → may n path d → d = tree_of n path.
Proof.
  intros Hmem. revert path d. induction n as [|n IH]; intros path d; [done|]. cbn.
  destruct (entries_of sys path) as [es|]; [|done].
  intros [[_ ?]|(sel & subs & -> & _ & [->|?] & Hsubs)]; [done| |done]. f_equal.
  induction Hsubs as [|e d l subs Hd _ IHs]; [done|]. cbn. f_equal; [by apply IH|done].
Qed.

(** ** Trees in memory

    [tree_at q path F t d]: [t] says [d] of the directory at [path], its blocks
    are [F]; where no item gave a path to its head, that is [q].  The items of
    a listing are among the blocks although the tree has no pointer to them. *)
Definition pairs (pre : list Z) (p : pointer) (sel : list find_data) : list (find_data * File) :=
  zip sel (records pre p 0 sel).

Definition dir_pairs (l : list (find_data * File)) : list (find_data * File) := filter (λ x, f_dir x.2) l.
Definition file_pairs (l : list (find_data * File)) : list (find_data * File) := filter (λ x, negb (f_dir x.2)) l.

Definition head_of (l : list (find_data * File)) (h : File) : File := match l with [] => h | x :: _ => x.2 end.

Inductive tree_at : pointer → list Z → gmap nat block → FileTree → dtree → Prop :=
  | at_unread q path t : t = cleared t false → f_path (head t) = q → tree_at q path ∅ t Unread
  | at_failed q path t : t = cleared t true → f_path (head t) = q → tree_at q path ∅ t Failed
  | at_read q path F t sel subs p txt i Fs F4 F3 F2 h :
      owns F2 p (Text (pool_text (prefix path) sel ++ txt)) (block_of i Cells) →
      (if bool_decide (sel = []) then i = NULL ∧ p = NULL else ∃ b c, p = At b 0 ∧ i = At c 0) →
      root (dirs t) → dirs t ≠ NULL → owns F3 (dirs t) Cells F2 →
      root (files t) → files t ≠ NULL → owns F4 (files t) Cells F3 →
      has F Fs F4 →
      f_path h = q → head t = head_of (pairs (prefix path) p sel) h →
      file_cells t = Some <$> (file_pairs (pairs (prefix path) p sel)).*2 →
      dirs_count t = zlen subs → files_count t = zlen (file_pairs (pairs (prefix path) p sel)) →
      loaded t = true → error t = false →
      subs_at (prefix path) (dir_pairs (pairs (prefix path) p sel)) Fs (dir_cells t) subs →
      tree_at q path F t (Read sel subs)
with subs_at : list Z → list (find_data * File) → gmap nat block → list FileTree → list dtree → Prop :=
  | subs_nil pre : subs_at pre [] ∅ [] []
  | subs_cons pre e f l F Ft Fs t ts d ds :
      has F Ft Fs → info t = f → tree_at Uninit (path_of pre e) Ft t d → subs_at pre l Fs ts ds →
      subs_at pre ((e, f) :: l) F (t :: ts) (d :: ds).

Lemma subs_at_length pre l F ts ds : subs_at pre l F ts ds → zlen l = zlen ds ∧ length ts = length ds.
Proof. induction 1; [done|]. rewrite !zlen_cons. simpl. lia. Qed.

Lemma subs_at_snoc pre l F ts ds e f F' Ft t d :
  subs_at pre l F ts ds → has F' Ft F → info t = f → tree_at Uninit (path_of pre e) Ft t d →
  subs_at pre (l ++ [(e, f)]) F' (ts ++ [t]) (ds ++ [d]).
Proof.
  intros Hs. revert F'. induction Hs as [pre|pre e0 f0 l F Ft0 Fs t0 ts d0 ds Hh Hi Ht Hs IH]; intros F' Hhas Hinfo Hat.
  - cbn. eapply subs_cons; [|done|done|constructor]. done.
  - destruct (has_swap _ _ _ _ _ Hhas Hh) as (F2 & H1 & H2). cbn.
    eapply subs_cons; [exact H1|done|done|]. by apply IH.
Qed.

(** ** The code *)

Lemma pairs_snd pre p sel : (pairs pre p sel).*2 = records pre p 0 sel.
Proof. apply snd_zip. pose proof (zlen_records pre p 0 sel). unfold zlen in *. lia. Qed.

Lemma pairs_fst pre p sel : (pairs pre p sel).*1 = sel.
Proof. apply fst_zip. pose proof (zlen_records pre p 0 sel). unfold zlen in *. lia. Qed.

Lemma dir_pairs_fst pre p sel : (dir_pairs (pairs pre p sel)).*1 = filter is_directory sel.
Proof.
  unfold pairs, dir_pairs. generalize 0. induction sel as [|e sel IH]; intros o; [done|]. cbn [records zip zip_with].
  rewrite !filter_cons. change (f_dir (e, record_of e (offset p o) (offset p (o + zlen pre))).2) with (is_directory e).
  destruct (decide (is_directory e)); [rewrite fmap_cons; f_equal|]; apply IH.
Qed.

Lemma countDirs_ok l fs rest :
  cells l = (Some <$> fs) ++ rest → count l = zlen fs → zlen fs ≤ 2 ^ 30 →
  countDirs l = Ret (zlen (filter (λ f, f_dir f) fs)).
Proof.
  intros Hcells Hcount Hsmall. unfold countDirs. pose proof (zlen_nonneg fs). rewrite Hcount, s32_small by lia.
  apply wp_eq_inv.
  apply (wp_loop_count (λ n '(i, k), ∃ f1 f2, fs = f1 ++ f2 ∧ n = length f2 ∧ i = zlen f1 ∧
    k = zlen (filter (λ f, f_dir f) f1)) _ _ _ (length fs)).
  { by exists [], fs. }
  { rewrite Hcells, length_app, length_fmap. lia. }
  intros n [i k] (f1 & f2 & -> & -> & -> & ->). pose proof (zlen_nonneg f1). pose proof (zlen_nonneg f2).
  destruct f2 as [|f f2].
  { rewrite app_nil_r. destruct (Z.ltb_spec (zlen f1) (zlen f1)); [lia|done]. }
  rewrite zlen_app in *. destruct (Z.ltb_spec (zlen f1) (zlen f1 + zlen (f :: f2))) as [_|]; [|rewrite zlen_cons in *; pose proof (zlen_nonneg f2); lia].
  rewrite Hcells, fmap_app, <-app_assoc, rd_app_r by (rewrite zlen_fmap; lia). rewrite zlen_fmap, Z.sub_diag.
  cbn [fmap list_fmap app]. rewrite rd_cons_0. cbn [mbind outcome_bind].
  assert (0 ≤ zlen (filter (λ f, f_dir f) f1) ≤ zlen f1) as Hk.
  { pose proof (length_filter (λ f, f_dir f) f1). unfold zlen. lia. }
  rewrite zlen_cons in *. pose proof (zlen_nonneg f2).
  assert (∀ k, k = zlen (filter (λ f, f_dir f) (f1 ++ [f])) →
    wp (continue (zlen f1 + 1, k)) (λ r : Z * Z + Z, match r with
      | inl s' => ∃ n', (n' < length (f :: f2))%nat ∧ (let '(i, k) := s' in ∃ f3 f4, f1 ++ f :: f2 = f3 ++ f4 ∧ n' = length f4 ∧ i = zlen f3 ∧ k = zlen (filter (λ f, f_dir f) f3))
      | inr a => a = zlen (filter (λ f, f_dir f) (f1 ++ f :: f2)) end)) as Hgo.
  { intros k ->. cbn. exists (length f2). split; [lia|]. exists (f1 ++ [f]), f2. split; [by rewrite <-app_assoc|]. split; [done|]. split; [zlen|done]. }
  rewrite filter_app, zlen_app in Hgo. destruct (f_dir f) eqn:Hf.
  - assert (Is_true (f_dir f)) as Ht by (rewrite Hf; exact I). rewrite (filter_cons_True (λ f, Is_true (f_dir f)) f []) in Hgo by exact Ht. unfold int.
    destruct (Z.leb_spec INT_MIN (zlen (filter (λ f, f_dir f) f1) + 1)); [|unfold INT_MIN in *; lia].
    destruct (Z.leb_spec (zlen (filter (λ f, f_dir f) f1) + 1) INT_MAX); [|unfold INT_MAX in *; lia]. by apply Hgo.
  - assert (¬ Is_true (f_dir f)) as Ht by (rewrite Hf; intros []). rewrite (filter_cons_False (λ f, Is_true (f_dir f)) f []) in Hgo by exact Ht. apply Hgo. change (zlen (filter _ [])) with 0. lia.
Qed.

Lemma shows_more w0 w w' l pre sel :
  shows w0 w l pre sel → heap w' = heap w → handles w' = handles w → (calls w ≤ calls w')%nat → fresh w' →
  shows w0 w' l pre sel.
Proof. intros [? ? ? ? ? Hm] Hh Hha Hc Hf. split; try done; [lia|congruence|by rewrite Hh]. Qed.

Lemma malloc_cells_ok w :
  fresh w →
  wp (malloc sys w (grow_cells None)) (λ '(w', r),
    calls w' = S (calls w) ∧ handles w' = handles w ∧ fresh w' ∧
    ((r = NULL ∧ out_of_memory sys ∧ heap w' = heap w) ∨
     (r ≠ NULL ∧ root r ∧ owns (heap w') r Cells (heap w)))).
Proof.
  intros Hf. unfold malloc. eapply wp_mono; [apply (realloc_ok sys w NULL _ Cells (heap w)); [by left|done|apply owns_null]|].
  intros [w' r] (Hc & Hh & Hf' & [(-> & Hn & Heq)|(o & g & -> & Hs & _ & _ & Ho)]).
  - split_and!; [done..|]. left. split; [done|]. split; [by eexists|done].
  - split_and!; [done..|]. right. split; [done|]. split; [right; by eexists|done].
Qed.

Lemma array_size_ok n size : 0 ≤ n ≤ 2 ^ 31 → 0 < size ≤ 2 ^ 20 → array_size n size = Z.to_nat n.
Proof. intros. unfold array_size. rewrite u64_small by nia. by rewrite Z.div_mul by lia. Qed.

Lemma zlen_filter_split (l : list (find_data * File)) : zlen (dir_pairs l) + zlen (file_pairs l) = zlen l.
Proof.
  unfold dir_pairs, file_pairs. induction l as [|[e f] l IH]; [done|]. rewrite !filter_cons, zlen_cons.
  do 2 case_decide; simpl in *; destruct (f_dir f); try done; try tauto; rewrite zlen_cons; lia.
Qed.

Lemma dirs_of_pairs (l : list (find_data * File)) : zlen (filter (λ f, f_dir f) l.*2) = zlen (dir_pairs l).
Proof.
  unfold dir_pairs. induction l as [|[e f] l IH]; [done|]. rewrite fmap_cons, !filter_cons.
  repeat case_decide; simpl in *; try done; rewrite ?zlen_cons; lia.
Qed.

Lemma shows_freed w0 w l pre sel c h :
  shows w0 w l pre sel → (calls w ≤ c)%nat → fresh (mkWorld (heap w0) c h).
Proof.
  intros [Hf _ _ _ _ (p & t & H' & m & _ & Ho & Ho' & _)] Hc b Hb. cbn in Hb |- *.
  destruct (heap w0 !! b) as [x|] eqn:E; [|done]. specialize (Hf b ltac:(lia)).
  by rewrite (has_lookup _ _ _ b x Ho (has_lookup _ _ _ b x Ho' E)) in Hf.
Qed.

(** The arrays of a directory, or an error after which all is given back. *)
Lemma allocate_tree_ok w0 w l pre sel tree ps n :
  shows w0 w l pre sel → cells l = (Some <$> ps.*2) ++ replicate n None → zlen sel = zlen ps → zlen sel ≤ 2 ^ 30 →
  wp (allocate_tree sys w l tree) (λ '(w', r),
    fresh w' ∧ (calls w ≤ calls w')%nat ∧ handles w' = handles w ∧
    match r with
    | inr t => t = cleared tree true ∧ heap w' = heap w0 ∧ out_of_memory sys
    | inl t => ∃ a b H3, a ≠ NULL ∧ root a ∧ b ≠ NULL ∧ root b ∧
        owns (heap w') b Cells H3 ∧ owns H3 a Cells (heap w) ∧
        t = mkTree (info tree) (head tree) a (replicate (length (dir_pairs ps)) uninit_tree)
              b (replicate (length (file_pairs ps)) None) (zlen (dir_pairs ps)) (zlen (file_pairs ps)) false false
    end).
Proof.
  intros Hs Hcells Hlen Hsmall. unfold allocate_tree. pose proof (zlen_nonneg sel).
  pose proof (sh_count _ _ _ _ _ Hs) as Hcount. pose proof (sh_fresh _ _ _ _ _ Hs) as Hf.
  rewrite (countDirs_ok l ps.*2 (replicate n None)) by (rewrite ?zlen_fmap; lia || done).
  cbn [mbind outcome_bind]. rewrite dirs_of_pairs, Hcount, Hlen, s32_small by lia.
  pose proof (zlen_filter_split ps). pose proof (zlen_nonneg (dir_pairs ps)). pose proof (zlen_nonneg (file_pairs ps)).
  unfold int. destruct (Z.leb_spec INT_MIN (zlen ps - zlen (dir_pairs ps))); [|unfold INT_MIN in *; lia].
  destruct (Z.leb_spec (zlen ps - zlen (dir_pairs ps)) INT_MAX); [|unfold INT_MAX in *; lia].
  cbn [andb mbind outcome_bind].
  apply wp_bind. eapply wp_mono; [by apply malloc_cells_ok|].
  intros [w1 a] (Hc1 & Hh1 & Hf1 & [(-> & Hoom & Heq1)|(Ha & Hra & Ho1)]).
  { rewrite decide_True by done. rewrite (freeFileList_shows w0 w1 l pre sel).
    2: { eapply shows_more; eauto; lia. }
    cbn. split_and!; try done; [|lia]. apply (shows_freed w0 w l pre sel); [done|lia]. }
  rewrite decide_False by done.
  apply wp_bind. eapply wp_mono; [by apply malloc_cells_ok|].
  intros [w2 b] (Hc2 & Hh2 & Hf2 & [(-> & Hoom & Heq2)|(Hb & Hrb & Ho2)]).
  { rewrite decide_True by done. rewrite <-Heq2 in Ho1. rewrite (free_block_ok w2 a Cells (heap w) Hra Ho1). cbn [mbind outcome_bind].
    assert (fresh (mkWorld (heap w) (calls w2) (handles w2))) as Hfr.
    { intros c Hc. cbn in Hc |- *. apply Hf. lia. }
    rewrite (freeFileList_shows w0 _ l pre sel).
    2: { eapply shows_more; eauto; cbn; [congruence|lia]. }
    cbn. split_and!; try done; [|lia|congruence]. apply (shows_freed w0 w l pre sel); [done|lia]. }
  rewrite decide_False by done. cbn. split_and!; [done|lia|congruence|].
  exists a, b, (heap w1). split_and!; try done. f_equal.
  - rewrite array_size_ok by (unfold sizeof_FileTree; lia). unfold zlen. by rewrite Nat2Z.id.
  - rewrite array_size_ok by (unfold sizeof_File; lia). f_equal. unfold zlen in *. lia.
  - lia.
Qed.

(** What a call on a subdirectory does. *)
Definition scan_ok (n : nat) (scan : world → pointer → FileTree → outcome (world * FileTree)) : Prop :=
  ∀ w dir path tree, fresh w → no_nul path → string_at w [] dir = Ret path →
  wp (scan w dir tree) (λ '(w', t),
    fresh w' ∧ (calls w ≤ calls w')%nat ∧ handles w' = handles w ∧ info t = info tree ∧
    ∃ F d, may n path d ∧ tree_at (f_path (head tree)) path F t d ∧ has (heap w') F (heap w)).

Lemma dir_pairs_app l k : dir_pairs (l ++ k) = dir_pairs l ++ dir_pairs k.
Proof. apply filter_app. Qed.
Lemma file_pairs_app l k : file_pairs (l ++ k) = file_pairs l ++ file_pairs k.
Proof. apply filter_app. Qed.
Lemma dir_pairs_cons x l : dir_pairs (x :: l) = if f_dir x.2 then x :: dir_pairs l else dir_pairs l.
Proof. unfold dir_pairs. rewrite filter_cons. case_decide as H; destruct (f_dir x.2); done. Qed.
Lemma file_pairs_cons x l : file_pairs (x :: l) = if f_dir x.2 then file_pairs l else x :: file_pairs l.
Proof. unfold file_pairs. rewrite filter_cons. case_decide as H; simpl in H; destruct (f_dir x.2); done. Qed.

Lemma head_of_snoc l x h : head_of (l ++ [x]) h = if zlen l =? 0 then x.2 else head_of l h.
Proof.
  destruct l as [|y l]; [done|]. rewrite zlen_cons. pose proof (zlen_nonneg l).
  destruct (Z.eqb_spec (1 + zlen l) 0); [lia|done].
Qed.

(** The first free cell of an array. *)
Lemma rd_first {A} (a : list A) n x i : i = zlen a → rd (a ++ replicate (S n) x) i = Ret x.
Proof. intros ->. by rewrite rd_app_r, Z.sub_diag by lia. Qed.
Lemma wr_first {A} (a : list A) n x y i : i = zlen a → wr (a ++ replicate (S n) x) i y = Ret ((a ++ [y]) ++ replicate n x).
Proof.
  intros ->. pose proof (zlen_nonneg a). rewrite wr_ok by (rewrite zlen_app, zlen_replicate; lia).
  f_equal. unfold zlen. rewrite Nat2Z.id, insert_app_r_alt, Nat.sub_diag, <-app_assoc by lia. done.
Qed.

Lemma tree_loop_ok n scan l pre ps w1 i0 h0 D Fl dc fc rest :
  scan_ok n scan → fresh w1 →
  cells l = (Some <$> ps.*2) ++ rest → count l = zlen ps → zlen ps ≤ 2 ^ 30 →
  (∀ w, (∀ b y, heap w1 !! b = Some y → heap w !! b = Some y) →
     Forall (λ x, string_at w [] (f_path x.2) = Ret (path_of pre x.1) ∧ no_nul (path_of pre x.1)) ps) →
  wp (loop (S (length (cells l))) (tree_step scan l)
       (w1, 0, 0, 0, mkTree i0 h0 D (replicate (length (dir_pairs ps)) uninit_tree) Fl (replicate (length (file_pairs ps)) None) dc fc false false))
    (λ '(w', t), fresh w' ∧ (calls w1 ≤ calls w')%nat ∧ handles w' = handles w1 ∧
       ∃ Fs ts subs, has (heap w') Fs (heap w1) ∧ subs_at pre (dir_pairs ps) Fs ts subs ∧
         Forall2 (λ x, may n (path_of pre x.1)) (dir_pairs ps) subs ∧
         t = mkTree i0 (head_of ps h0) D ts Fl (Some <$> (file_pairs ps).*2) dc fc true false).
Proof.
  intros Hscan Hf1 Hcells Hcount Hsmall Hstr. pose proof (zlen_nonneg ps).
  apply (wp_loop_count (λ k '(w, i, ds, fs, tree), ∃ r1 r2 Fs ts subs,
    ps = r1 ++ r2 ∧ k = length r2 ∧ i = zlen r1 ∧ ds = zlen (dir_pairs r1) ∧ fs = zlen (file_pairs r1) ∧
    fresh w ∧ (calls w1 ≤ calls w)%nat ∧ handles w = handles w1 ∧
    has (heap w) Fs (heap w1) ∧ subs_at pre (dir_pairs r1) Fs ts subs ∧
    Forall2 (λ x, may n (path_of pre x.1)) (dir_pairs r1) subs ∧
    tree = mkTree i0 (head_of r1 h0) D (ts ++ replicate (length (dir_pairs r2)) uninit_tree)
      Fl ((Some <$> (file_pairs r1).*2) ++ replicate (length (file_pairs r2)) None) dc fc false false) _ _ _ (length ps)).
  { exists [], ps, ∅, [], []. split_and!; try done; [apply has_nothing|apply subs_nil]. }
  { rewrite Hcells, length_app, !length_fmap. lia. }
  intros k [[[[w i] ds] fs] tree] (r1 & r2 & Fs & ts & subs & -> & -> & -> & -> & -> & Hf & Hc & Hh & Hhas & Hsubs & Hmay & ->).
  unfold tree_step. rewrite Hcount, s32_small by lia. pose proof (zlen_nonneg r1). pose proof (zlen_nonneg r2).
  destruct r2 as [|x r2].
  { rewrite app_nil_r. destruct (Z.ltb_spec (zlen r1) (zlen r1)); [lia|]. cbn.
    split_and!; try done. exists Fs, ts, subs. split_and!; try done. unfold set_loaded. cbn. by rewrite !app_nil_r. }
  rewrite zlen_app in *. destruct (Z.ltb_spec (zlen r1) (zlen r1 + zlen (x :: r2))) as [_|];
    [|rewrite zlen_cons in *; pose proof (zlen_nonneg r2); lia].
  rewrite Hcells, !fmap_app, <-app_assoc, rd_app_r by (rewrite !zlen_fmap; lia). rewrite !zlen_fmap, Z.sub_diag.
  rewrite !fmap_cons. cbn [app]. rewrite rd_cons_0. cbn [mbind outcome_bind].
  assert ((if zlen r1 =? 0 then set_head (mkTree i0 (head_of r1 h0) D (ts ++ replicate (length (dir_pairs (x :: r2))) uninit_tree)
      Fl ((Some <$> (file_pairs r1).*2) ++ replicate (length (file_pairs (x :: r2))) None) dc fc false false) x.2
    else mkTree i0 (head_of r1 h0) D (ts ++ replicate (length (dir_pairs (x :: r2))) uninit_tree)
      Fl ((Some <$> (file_pairs r1).*2) ++ replicate (length (file_pairs (x :: r2))) None) dc fc false false) =
    mkTree i0 (head_of (r1 ++ [x]) h0) D (ts ++ replicate (length (dir_pairs (x :: r2))) uninit_tree)
      Fl ((Some <$> (file_pairs r1).*2) ++ replicate (length (file_pairs (x :: r2))) None) dc fc false false) as ->.
  { rewrite head_of_snoc. by destruct (zlen r1 =? 0). }
  pose proof (subs_at_length _ _ _ _ _ Hsubs) as [Hl1 Hl2].
  assert (Happ : ∀ d : list (find_data * File), dir_pairs (r1 ++ [x]) = dir_pairs r1 ++ (if f_dir x.2 then [x] else []) ∧
    file_pairs (r1 ++ [x]) = file_pairs r1 ++ (if f_dir x.2 then [] else [x])).
  { intros _. rewrite dir_pairs_app, file_pairs_app, dir_pairs_cons, file_pairs_cons. by destruct (f_dir x.2). }
  destruct (Happ []) as [Hd Hfl]. clear Happ. rewrite dir_pairs_cons, file_pairs_cons.
  destruct (f_dir x.2) eqn:Hx.
  - cbn [length dir_cells file_cells]. rewrite rd_first by (unfold zlen in *; lia). cbn [mbind outcome_bind].
    assert (Forall (λ x, string_at w [] (f_path x.2) = Ret (path_of pre x.1) ∧ no_nul (path_of pre x.1)) (r1 ++ x :: r2)) as Hst.
    { apply Hstr. intros b y Hb. by eapply has_lookup. }
    apply Forall_app in Hst as [_ [[Hst Hnn] _]%Forall_cons].
    apply wp_bind. eapply wp_mono; [by eapply Hscan|].
    intros [w' t] (Hf' & Hc' & Hh' & Hinfo & F & d & Hd' & Hat & Hhas').
    rewrite wr_first by (unfold zlen in *; lia). cbn. exists (length r2). split; [lia|].
    destruct (has_stack _ _ _ _ _ Hhas' Hhas) as [Hhas2 Hhas3].
    exists (r1 ++ [x]), r2, (F ∪ Fs), (ts ++ [t]), (subs ++ [d]).
    split_and!; try done; [by rewrite <-app_assoc|by zlen|rewrite Hd; by zlen|by rewrite Hfl, app_nil_r|lia|congruence| | |].
    + rewrite Hd. destruct x as [e f]. by eapply subs_at_snoc.
    + rewrite Hd. apply Forall2_app; [done|]. by repeat constructor.
    + unfold set_dir_cells. cbn. by rewrite Hfl, app_nil_r.
  - cbn [length dir_cells file_cells]. rewrite wr_first by (by rewrite !zlen_fmap). cbn. exists (length r2). split; [lia|].
    exists (r1 ++ [x]), r2, Fs, ts, subs. rewrite Hd, Hfl, app_nil_r.
    split_and!; try done; [by rewrite <-app_assoc|by zlen|by zlen|].
    unfold set_file_cells. cbn. by rewrite !fmap_app.
Qed.

Context (Hsys : sys_ok sys).

(** The strings of the items, in a heap that still has the pool. *)
Lemma strings_of_pairs w1 w b pre sel t :
  heap w1 !! b = Some (Text (pool_text pre sel ++ t)) → no_nul pre → Forall name_ok sel →
  (∀ b y, heap w1 !! b = Some y → heap w !! b = Some y) →
  Forall (λ x, string_at w [] (f_path x.2) = Ret (path_of pre x.1) ∧ no_nul (path_of pre x.1)) (pairs pre (At b 0) sel).
Proof.
  intros Hb Hpre Hn Hw. apply Forall_lookup. intros i [e f] Hi.
  assert (sel !! i = Some e) as He by (by rewrite <-(pairs_fst pre (At b 0) sel), list_lookup_fmap, Hi).
  assert (records pre (At b 0) 0 sel !! i = Some f) as Hf by (by rewrite <-(pairs_snd pre (At b 0) sel), list_lookup_fmap, Hi).
  destruct (strings_of_records w b pre sel t i e [] (Hw _ _ Hb) Hpre Hn He) as (f' & Hf' & _ & Hs & _).
  rewrite Hf in Hf'. injection Hf' as <-. split; [done|]. apply no_nul_app; [done|].
  by eapply Forall_lookup_1 in Hn as [? _].
Qed.

(** [listSubtree] does what [may] says, and takes no memory but that of the tree. *)
Lemma listSubtree_scan n : scan_ok n (λ w dir tree, listSubtree sys (S n) w dir (Z.of_nat n) tree).
Proof.
  induction n as [|n IH]; intros w dir path tree Hf Hpath Hdir.
  { cbn. split_and!; try done. exists ∅, Unread. split; [done|]. split; [by apply at_unread|]. apply has_nothing. }
  assert (listSubtree sys (S (S n)) w dir (Z.of_nat (S n)) tree =
    '(w, ok, list, _) ← listFiles sys w path uninit_list 512;
    if negb ok then Ret (w, cleared (cleared tree false) true)
    else
      '(w, r) ← allocate_tree sys w list (cleared tree false);
      match r with
      | inr tree => Ret (w, tree)
      | inl tree => loop (S (length (cells list)))
          (tree_step (λ w dir sub, listSubtree sys (S n) w dir (Z.of_nat n) sub) list) (w, 0, 0, 0, tree)
      end) as ->.
  { remember (S n) as m eqn:Hm. cbn [listSubtree]. unfold c_assert.
    destruct (Z.leb_spec 0 (Z.of_nat m)); [|lia]. destruct (Z.leb_spec (Z.of_nat m) 0); [lia|].
    cbn [mbind outcome_bind]. rewrite Hdir. cbn [mbind outcome_bind].
    by replace (Z.of_nat m - 1) with (Z.of_nat n) by lia. }
  apply wp_bind. eapply wp_mono; [by apply listFiles_shows|]. intros [[[w1 ok] l] msg].
  cbn [may]. destruct (entries_of sys path) as [es|] eqn:Hes.
  2: { intros (-> & -> & ->). cbn. split_and!; try done. exists ∅, Failed. split; [done|].
    split; [by apply at_failed|]. apply has_nothing. }
  intros (-> & sel & Hsub & Hor & Hs). cbn [negb]. apply entries_names in Hes as Hn; [|done]. destruct Hn as [Hn Hlen].
  assert (zlen sel ≤ 2 ^ 30) as Hsmall.
  { apply sublist_length in Hsub. pose proof (listing_length sys (prefix path) es). unfold zlen in *. lia. }
  pose proof Hs as [Hf1 Hc1 Hh1 Hcount Hi (p & t & H & k & Hp & Ho1 & Ho2 & Hcells & Hsel)].
  set (ps := pairs (prefix path) p sel).
  assert (zlen ps = zlen sel) as Hps by (rewrite <-(pairs_fst (prefix path) p sel); unfold zlen; by rewrite length_fmap).
  rewrite <-(pairs_snd (prefix path) p sel) in Hcells.
  apply wp_bind. eapply wp_mono; [by eapply (allocate_tree_ok w w1 l (prefix path) sel (cleared tree false) ps k)|].
  intros [w2 [t2|t2]] (Hf2 & Hc2 & Hh2 & Ht2).
  2: { destruct Ht2 as (-> & Heq & Hoom). cbn. split_and!; try done; [lia|congruence|]. exists ∅, Failed.
    split; [by left|]. split; [by apply at_failed|]. rewrite Heq. apply has_nothing. }
  destruct Ht2 as (a & b & H3 & Ha & Hra & Hb & Hrb & Ho4 & Ho3 & ->). cbn [info head cleared].
  eapply wp_mono; [eapply (tree_loop_ok n _ l (prefix path) ps w2 (info tree) (head tree)); [exact IH|done|exact Hcells|by rewrite Hcount|by rewrite Hps|]|].
  { intros w' Hw'. destruct sel as [|e0 sel]; [constructor|]. rewrite bool_decide_eq_false_2 in Hsel by done.
    destruct Hsel as (bp & ip & -> & _). eapply strings_of_pairs; [|by apply no_nul_prefix|by eapply listing_names|done].
    eapply has_lookup; [exact Ho4|]. eapply has_lookup; [exact Ho3|]. by eapply owns_lookup. }
  intros [w3 t3] (Hf3 & Hc3 & Hh3 & Fs & ts & subs & Hhas & Hsubs & Hmay & ->).
  split_and!; try done; [lia|congruence|].
  destruct (has_stack _ _ _ _ _ Ho1 Ho2) as [S1 T1]. destruct (has_stack _ _ _ _ _ Ho3 S1) as [S2 T2].
  destruct (has_stack _ _ _ _ _ Ho4 S2) as [S3 T3]. destruct (has_stack _ _ _ _ _ Hhas S3) as [S4 T4].
  eexists _, (Read sel subs). split; [right; exists sel, subs; split_and!; try done|].
  { rewrite <-(dir_pairs_fst (prefix path) p). by apply Forall2_fmap_l. }
  split; [|exact S4].
  eapply (at_read _ path _ _ sel subs p t (items l) Fs _ _ _ (head tree)); try done.
  cbn. apply subs_at_length in Hsubs. destruct Hsubs as [Hsl _]. by rewrite <-Hsl.
Qed.
End tree.

(** ** Giving a tree back *)

(** [freeFileTree] needs the path of a first item in every directory of the
    tree: one that is empty, was not read or could not be has none. *)
Fixpoint good (d : dtree) : bool :=
  match d with
  | Read es subs => negb (bool_decide (es = [])) && forallb good subs
  | _ => false
  end.

(** At the root of a tree that started with a path of NULL it does not. *)
Definition good_from (q : pointer) (d : dtree) : bool :=
  match q, d with
  | NULL, Read _ subs => forallb good subs
  | NULL, _ => true
  | _, _ => good d
  end.

(** The directories that show something. *)
Fixpoint dirs_read (d : dtree) : nat :=
  match d with
  | Read es subs => (if bool_decide (es = []) then O else 1) + sum_list (dirs_read <$> subs)
  | _ => O
  end.

Fixpoint free_dirs (w : world) (l : list FileTree) (n : Z) {struct l} : outcome world :=
  if n <=? 0 then Ret w
  else match l with
       | [] => Fail OutOfBounds
       | t :: l => w ← freeFileTree w t; free_dirs w l (n - 1)
       end.

Lemma freeFileTree_unfold w t :
  freeFileTree w t =
    w ← free_dirs w (dir_cells t) (dirs_count t);
    w ← free w (f_path (head t)); w ← free w (dirs t); free w (files t).
Proof. by destruct t. Qed.

(** What [n] blocks are left of, with the rest as it was. *)
Definition leaves (w w' : world) (n : nat) (H : gmap nat block) : Prop :=
  calls w' = calls w ∧ handles w' = handles w ∧
  ∃ L, has (heap w') L H ∧ size L = n ∧ map_Forall (λ _ x, x = Cells) L.

Section free.
Context (sys : system).

Scheme tree_at_ind' := Induction for tree_at Sort Prop
  with subs_at_ind' := Induction for subs_at Sort Prop.
Combined Scheme tree_subs_ind from tree_at_ind', subs_at_ind'.

(** The blocks of one directory, once its subtrees are gone. *)
Lemma free_node w i p a b txt L h4 h3 h2 h1 H :
  has (heap w) L h4 → root a → root b → root p → root i → owns h4 b Cells h3 → owns h3 a Cells h2 → owns h2 p (Text txt) h1 →
  owns h1 i Cells H →
  ∃ w', (w ← free w p; w ← free w a; free w b) = Ret w' ∧ calls w' = calls w ∧ handles w' = handles w ∧
    has (heap w') (L ∪ block_of i Cells) H.
Proof.
  intros HL Ha Hb Hp Hi Hob Hoa Hop Hoi.
  destruct (has_swap _ _ _ _ _ HL Hob) as (k1 & O1 & HL1).
  destruct (has_swap _ _ _ _ _ HL1 Hoa) as (k2 & O2 & HL2).
  destruct (has_swap _ _ _ _ _ HL2 Hop) as (k3 & O3 & HL3).
  destruct (has_swap _ _ _ _ _ O2 O3) as (m2 & P1 & P2).
  destruct (has_swap _ _ _ _ _ O1 P1) as (m1 & P3 & P4).
  destruct (has_swap _ _ _ _ _ P4 P2) as (n1 & Q1 & Q2).
  rewrite (free_block_ok w p (Text txt) m1 Hp P3). cbn [mbind outcome_bind].
  rewrite (free_block_ok (mkWorld m1 _ _) a Cells n1 Ha Q1). cbn [mbind outcome_bind].
  rewrite (free_block_ok (mkWorld n1 _ _) b Cells k3 Hb Q2). eexists. split; [done|]. cbn. split; [done|]. split; [done|].
  by apply (has_stack _ _ _ _ _ HL3 Hoi).
Qed.

(** A tree without a listing. *)
Lemma free_nothing q t err d w H :
  t = cleared t err → f_path (head t) = q → q = NULL ∨ q = Uninit → d = Unread ∨ d = Failed → has (heap w) ∅ H →
  if good_from q d then ∃ w', freeFileTree w t = Ret w' ∧ leaves w w' (dirs_read d) H
  else freeFileTree w t = Fail Undefined.
Proof.
  intros Ht Hh Hq Hd Hw. rewrite freeFileTree_unfold, Ht. cbn [cleared dir_cells dirs_count head dirs files free_dirs Z.leb].
  cbn [mbind outcome_bind]. rewrite Hh. destruct Hq as [-> | ->]; [|by destruct Hd as [-> | ->]].
  assert (good_from NULL d = true) as -> by (by destruct Hd as [-> | ->]).
  assert (dirs_read d = O) as -> by (by destruct Hd as [-> | ->]).
  eexists. split; [reflexivity|]. split; [done|]. split; [done|]. exists ∅. done.
Qed.

Lemma free_tree_subs :
  (∀ q path F t d, tree_at q path F t d → q = NULL ∨ q = Uninit → ∀ w H, has (heap w) F H →
     if good_from q d then ∃ w', freeFileTree w t = Ret w' ∧ leaves w w' (dirs_read d) H
     else freeFileTree w t = Fail Undefined) ∧
  (∀ pre l F ts ds, subs_at pre l F ts ds → ∀ w H, has (heap w) F H →
     if forallb good ds then ∃ w', free_dirs w ts (zlen ds) = Ret w' ∧ leaves w w' (sum_list (dirs_read <$> ds)) H
     else free_dirs w ts (zlen ds) = Fail Undefined).
Proof.
  apply tree_subs_ind.
  - intros q path t Ht Hh Hq w H Hw. apply (free_nothing q t false); auto.
  - intros q path t Ht Hh Hq w H Hw. apply (free_nothing q t true); auto.
  - intros q path F t sel subs p txt i Fs F4 F3 F2 h Hop Hsel Hrd Hnd Hod Hrf Hnf Hof Hhas Hh Hhead _ Hdc _ _ _ Hsubs IH Hq w H Hw.
    destruct (has_unstack _ _ _ _ _ Hhas Hw) as (h4 & Hw4 & Hh4).
    destruct (has_unstack _ _ _ _ _ Hof Hh4) as (h3 & Hw3 & Hh3).
    destruct (has_unstack _ _ _ _ _ Hod Hh3) as (h2 & Hw2 & Hh2).
    destruct (has_unstack _ _ _ _ _ Hop Hh2) as (h1 & Hw1 & Hh1).
    specialize (IH w h4 Hw4). rewrite freeFileTree_unfold, Hdc.
    destruct sel as [|e sel].
    { cbn [pairs zip records zip_with dir_pairs filter list_filter] in Hsubs. inversion Hsubs; subst.
      destruct Hsel as [-> ->]. rewrite Hhead. cbn [pairs zip zip_with records head_of free_dirs mbind outcome_bind zlen length]. cbn [free_dirs Z.leb].
      destruct Hq as [Hq|Hq]; rewrite Hq; [|done]. cbn [good_from forallb].
      destruct (free_node w NULL NULL (dirs t) (files t) (pool_text (prefix path) [] ++ txt) ∅ h4 h3 h2 h1 H)
        as (w' & Heq & Hc' & Hha' & HL'); try done; [by left|by left|].
      exists w'. split; [exact Heq|]. split; [done|]. split; [done|]. exists ∅. done. }
    assert (good_from q (Read (e :: sel) subs) = forallb good subs) as ->.
    { destruct Hq as [-> | ->]; [done|]. cbn [good_from good]. by rewrite bool_decide_eq_false_2. }
    rewrite bool_decide_eq_false_2 in Hsel by done. destruct Hsel as (b & c & -> & ->).
    destruct (forallb good subs); [|by rewrite IH].
    destruct IH as (w1 & -> & Hc & Hha & L & HL & Hsize & Hcells). cbn [mbind outcome_bind].
    rewrite Hhead. change (f_path (head_of _ h)) with (At b 0).
    destruct (free_node w1 (At c 0) (At b 0) (dirs t) (files t) (pool_text (prefix path) (e :: sel) ++ txt) L h4 h3 h2 h1 H)
      as (w' & Heq & Hc' & Hha' & HL'); try done; [right; by eexists|right; by eexists|].
    exists w'. split; [exact Heq|]. split; [congruence|]. split; [congruence|].
    exists (L ∪ block_of (At c 0) Cells). split; [done|].
    assert (L ##ₘ block_of (At c 0) Cells) as Hdis.
    { destruct HL as [_ Hd4]. destruct Hw3 as [-> _], Hw2 as [-> _], Hw1 as [-> _], Hh1 as [-> _].
      by repeat (apply map_disjoint_union_r in Hd4 as [? Hd4]). }
    rewrite map_size_disj_union by done. cbn [block_of]. rewrite map_size_singleton. split; [cbn [dirs_read]; rewrite bool_decide_eq_false_2 by done; lia|].
    apply map_Forall_union; [done|]. split; [done|]. by apply map_Forall_singleton.
  - intros pre w H Hw. cbn. exists w. split; [done|]. split; [done|]. split; [done|]. exists ∅. done.
  - intros pre e f l F Ft Fs t ts d ds Hhas Hi Ht IHt Hs IHs w H Hw.
    destruct (has_unstack _ _ _ _ _ Hhas Hw) as (h1 & Hw1 & Hh1). specialize (IHt (or_intror eq_refl) w h1 Hw1). cbn [good_from] in IHt.
    cbn [free_dirs forallb]. rewrite zlen_cons. pose proof (zlen_nonneg ds).
    destruct (Z.leb_spec (1 + zlen ds) 0); [lia|]. replace (1 + zlen ds - 1) with (zlen ds) by lia.
    destruct (good d); cbn [andb]; [|by rewrite IHt].
    destruct IHt as (w1 & -> & Hc & Hha & L & HL & Hsize & Hcells). cbn [mbind outcome_bind].
    destruct (has_swap _ _ _ _ _ HL Hh1) as (k & Hk1 & Hk2). specialize (IHs w1 k Hk1).
    destruct (forallb good ds); [|done]. destruct IHs as (w2 & -> & Hc2 & Hha2 & L2 & HL2 & Hsize2 & Hcells2).
    exists w2. split; [done|]. split; [congruence|]. split; [congruence|].
    destruct (has_stack _ _ _ _ _ HL2 Hk2) as [Hst Hdis]. exists (L2 ∪ L). split; [done|].
    rewrite map_size_disj_union by apply Hdis. split; [rewrite fmap_cons; cbn; lia|].
    apply map_Forall_union; [apply Hdis|done].
Qed.
End free.

(** ** Theorems *)

(** The path without its last separator, as [listTree] copies it. *)
Definition strip (dir : list Z) : list Z :=
  if bool_decide (last dir = Some PATH_SEP) then take (length dir - 1) dir else dir.

Section theorems.
Context (sys : system) (Hsys : sys_ok sys).

(** C37.  Under Windows [listSubtree] reads a directory as deep as it is told.
    If memory never fails, the tree has, of each directory, the entries that are
    not hidden up to the first one whose path is too long, in order, those that
    are directories with their own trees, the others as files, and a directory
    that cannot be opened is marked.  If memory fails, a directory may be marked
    as well or lack entries.  Directories are closed again, and the heap has
    the blocks of the tree besides what it had. *)
Theorem listSubtree_correct n w dir path tree :
  fresh w → no_nul path → string_at w [] dir = Ret path →
  wp (listSubtree sys (S n) w dir (Z.of_nat n) tree) (λ '(w', t),
    handles w' = handles w ∧ info t = info tree ∧
    ∃ F d, tree_at (f_path (head tree)) path F t d ∧ has (heap w') F (heap w) ∧
      may sys n path d ∧ (¬ out_of_memory sys → d = tree_of sys n path)).
Proof.
  intros Hf Hpath Hdir. eapply wp_mono; [by apply (listSubtree_scan sys Hsys n w dir path tree)|].
  intros [w' t] (_ & _ & Hh & Hi & F & d & Hmay & Hat & Hhas). split; [done|]. split; [done|].
  exists F, d. split_and!; try done. intros Hmem. by apply may_exact.
Qed.

(** C38.  Under Windows, let a tree be read into a structure of which the path
    of the first file is unset, or NULL.  If each directory of the tree was read
    and shows something (of a structure with NULL: each below the root),
    [freeFileTree] gives the tree back but for one block for each directory
    that shows something, the array of its listing, to which nothing leads any
    more.  Else it frees a pointer that was never set. *)
Theorem freeFileTree_correct n w dir path tree :
  fresh w → no_nul path → string_at w [] dir = Ret path →
  f_path (head tree) = NULL ∨ f_path (head tree) = Uninit →
  wp (listSubtree sys (S n) w dir (Z.of_nat n) tree) (λ '(w', t), ∃ d, may sys n path d ∧
    if good_from (f_path (head tree)) d then ∃ w'', freeFileTree w' t = Ret w'' ∧ leaves w' w'' (dirs_read d) (heap w)
    else freeFileTree w' t = Fail Undefined).
Proof.
  intros Hf Hpath Hdir Hhead. eapply wp_mono; [by apply (listSubtree_scan sys Hsys n w dir path tree)|].
  intros [w' t] (_ & _ & _ & _ & F & d & Hmay & Hat & Hhas). exists d. split; [done|].
  by apply (proj1 free_tree_subs _ path F t d Hat).
Qed.

Lemma strip_take dir :
  dir ≠ [] → ∃ c, rd dir (zlen dir - 1) = Ret c ∧
    take (Z.to_nat (if c =? PATH_SEP then zlen dir - 1 else zlen dir)) dir = strip dir ∧
    (if c =? PATH_SEP then zlen dir - 1 else zlen dir) = zlen (strip dir).
Proof.
  intros Hne. assert (0 < zlen dir) as Hpos by (destruct dir; [done|rewrite zlen_cons; pose proof (zlen_nonneg dir); lia]).
  destruct (rd_ok dir (zlen dir - 1)) as (c & -> & Hc); [lia|]. exists c. split; [done|].
  assert (last dir = Some c) as Hl by (rewrite last_lookup, <-Hc; f_equal; unfold zlen; lia).
  unfold strip. rewrite Hl. destruct (Z.eqb_spec c PATH_SEP) as [->|Hx].
  - rewrite bool_decide_eq_true_2 by done. unfold zlen in *. rewrite length_take.
    replace (Z.to_nat (Z.of_nat (length dir) - 1)) with (length dir - 1)%nat by lia. split; [done|lia].
  - rewrite bool_decide_eq_false_2 by congruence. split; [|done]. apply take_ge. unfold zlen. lia.
Qed.

(** The copy of the path, and where the name is taken to begin. *)
Lemma listTree_start w dir depth tree e l g :
  dir ≠ [] → no_nul dir → FindFirstFile sys dir = Some (e, l) → is_directory e = true → alloc sys (calls w) = Some g →
  ∃ k h f, 0 ≤ k ≤ zlen (strip dir) ∧ (Forall (λ c, c ≠ PATH_SEP) (strip dir ++ [g (zlen (strip dir))]) → k = 0) ∧
    f_path f = At (calls w) 0 ∧ f_name f = At (calls w) (k + 1) ∧
    listTree sys w (Some dir) depth tree =
      '(w, t) ← listSubtree sys (S (Z.to_nat depth))
        (mkWorld (<[calls w := Text (strip dir ++ [g (zlen (strip dir))])]> (heap w)) (S (calls w)) h)
        (At (calls w) 0) depth (set_info tree f);
      Ret (w, true, t).
Proof.
  intros Hne Hnn Hfind Hdir Hg. unfold listTree.
  destruct dir as [|c0 dir0] eqn:Hd; [done|]. rewrite <-Hd in *. clear Hne.
  rewrite rd_app_l by (rewrite Hd, zlen_cons; pose proof (zlen_nonneg dir0); lia). assert (rd dir 0 = Ret c0) as -> by (by rewrite Hd). cbn [mbind outcome_bind].
  assert ((c0 =? 0) = false) as Hc0 by (rewrite Hd in Hnn; apply Forall_cons in Hnn as [Hc _]; unfold nonzero in Hc; by destruct (c0 =? 0)).
  rewrite Hc0. unfold queryFile. rewrite (ok_windows sys Hsys), Hfind.
  pose proof (ok_names sys Hsys _ _ _ Hfind) as [[He _]%Forall_cons _].
  rewrite (compile_ok sys _ e) by (apply Hsys || done).
  set (file := record_of e _ _). change (f_dir file) with (is_directory e). rewrite Hdir. cbn [negb].
  assert (0 < zlen dir) as Hpos by (rewrite Hd, zlen_cons; pose proof (zlen_nonneg dir0); lia).
  unfold c_assert. destruct (Z.ltb_spec 0 (zlen dir)); [|lia]. cbn [mbind outcome_bind].
  destruct (strip_take dir) as (c & -> & Htake & Hlen); [by rewrite Hd|]. cbn [mbind outcome_bind].
  set (len := if c =? PATH_SEP then zlen dir - 1 else zlen dir) in *. clearbody len. subst len.
  unfold malloc, realloc. cbn [owned mbind outcome_bind add_handles calls heap drop_block]. rewrite Hg. cbn [mbind outcome_bind].
  pose proof (zlen_nonneg (strip dir)) as Hs0. set (b := calls w).
  unfold store, text_of. cbn [heap set_text]. rewrite lookup_insert_eq. cbn [mbind outcome_bind]. rewrite Htake.
  assert (bytes g (zlen (strip dir) + 1) = bytes g (zlen (strip dir)) ++ [g (zlen (strip dir))]) as ->.
  { unfold bytes. rewrite seqZ_app by lia. rewrite fmap_app. rewrite Z.add_0_l. done. }
  pose proof (wr_range_app [] (bytes g (zlen (strip dir))) [g (zlen (strip dir))] (strip dir) 0 eq_refl) as Hwr.
  rewrite zlen_fresh_bytes in Hwr by lia. specialize (Hwr eq_refl). cbn [app] in Hwr. rewrite Hwr. cbn [mbind outcome_bind set_text heap calls handles].
  unfold set_text. cbn [heap calls handles].
  rewrite lookup_insert_eq. cbn [mbind outcome_bind]. rewrite insert_insert_eq.
  set (txt := strip dir ++ [g (zlen (strip dir))]).
  assert (zlen txt = zlen (strip dir) + 1) as Htxt by (unfold txt; zlen).
  match goal with |- context [loop ?f ?body ?s] => assert (wp (loop f body s) (λ k, 0 ≤ k ≤ zlen (strip dir) ∧ (Forall (λ c, c ≠ PATH_SEP) txt → k = 0))) as (k & -> & Hk & Hk2)%wp_inv end.
  { apply (wp_loop (λ k, 0 ≤ k ≤ zlen (strip dir)) (λ k, Z.to_nat k)); [lia|lia|].
    intros k Hk. destruct (Z.ltb_spec 0 k); [|cbn; split; [lia|intros; lia]].
    apply wp_bind, wp_rd; [lia|]. intros x Hx _. destruct (Z.eqb_spec x PATH_SEP) as [->|]; cbn; [|lia].
    split; [lia|]. intros Hall. by eapply Forall_lookup_1 in Hall. }
  exists k, (handles w + (if closes sys then 0 else 1)), (set_path file (At b 0) (At b (0 + (k + 1)))).
  split; [done|]. split; [done|]. done.
Qed.

(** A tree of a directory that exists, when the byte behind the copy of its
    path happens to be 0: the tree of [listSubtree] for the path without its
    last separator. *)
Theorem listTree_correct n w dir e l g :
  fresh w → dir ≠ [] → no_nul dir → FindFirstFile sys dir = Some (e, l) → is_directory e = true →
  alloc sys (calls w) = Some g → g (zlen (strip dir)) = 0 →
  wp (listTree sys w (Some dir) (Z.of_nat n) uninit_tree) (λ '(w', ok, t),
    ok = true ∧ f_path (info t) = At (calls w) 0 ∧
    ∃ F d, tree_at Uninit (strip dir) F t d ∧ has (heap w') F (<[calls w := Text (strip dir ++ [0])]> (heap w)) ∧
      may sys n (strip dir) d ∧ (¬ out_of_memory sys → d = tree_of sys n (strip dir))).
Proof.
  intros Hf Hne Hnn Hfind Hdir Hg Hz.
  destruct (listTree_start w dir (Z.of_nat n) uninit_tree e l g) as (k & h & f & _ & _ & Hfp & _ & ->); [done..|].
  rewrite Nat2Z.id, Hz. apply wp_bind.
  assert (no_nul (strip dir)) as Hnn' by (unfold strip; case_bool_decide; [by apply Forall_take|done]).
  eapply wp_mono; [apply (listSubtree_scan sys Hsys n _ _ (strip dir))|].
  - intros b Hb. cbn in Hb |- *. rewrite lookup_insert_ne by lia. apply Hf. lia.
  - done.
  - unfold string_at, text_of. cbn [heap]. rewrite lookup_insert_eq. cbn [mbind outcome_bind].
    by apply (c_str_app [] (strip dir) []).
  - intros [w' t] (_ & _ & _ & Hi & F & d & Hmay & Hat & Hhas). cbn. split; [done|]. rewrite Hi. split; [done|].
    exists F, d. split_and!; try done. intros Hmem. by apply may_exact.
Qed.

(** [listTree] puts no terminator behind its copy of the path: unless the
    byte there happens to be 0, a tree of any depth reads past its end. *)
Theorem listTree_unterminated n w dir tree e l g :
  dir ≠ [] → no_nul dir → FindFirstFile sys dir = Some (e, l) → is_directory e = true →
  alloc sys (calls w) = Some g → g (zlen (strip dir)) ≠ 0 →
  listTree sys w (Some dir) (Z.of_nat (S n)) tree = Fail OutOfBounds.
Proof.
  intros Hne Hnn Hfind Hdir Hg Hz.
  destruct (listTree_start w dir (Z.of_nat (S n)) tree e l g) as (k & h & f & _ & _ & Hfp & _ & ->); [done..|].
  assert (no_nul (strip dir ++ [g (zlen (strip dir))])) as Hall.
  { apply no_nul_app; [unfold strip; case_bool_decide; [by apply Forall_take|done]|].
    repeat constructor. unfold nonzero. by destruct (Z.eqb_spec (g (zlen (strip dir))) 0). }
  remember (strip dir ++ [g (zlen (strip dir))]) as txt. remember (Z.of_nat (S n)) as depth. cbn [listSubtree].
  unfold c_assert. destruct (Z.leb_spec 0 depth); [|lia]. destruct (Z.leb_spec depth 0); [lia|].
  cbn. unfold text_of. cbn. rewrite lookup_insert_eq. cbn. unfold c_str. rewrite drop_0.
  assert (drop_while nonzero txt = []) as Hdw.
  { clear -Hall. induction Hall as [|c t Hc _ IH]; [done|]. cbn. by rewrite Hc. }
  cbn. by rewrite Hdw.
Qed.

(** The name of a tree at a path without a separator lacks its first
    character. *)
Lemma listTree_name w dir depth tree e l g :
  dir ≠ [] → no_nul dir → FindFirstFile sys dir = Some (e, l) → is_directory e = true → alloc sys (calls w) = Some g →
  Forall (λ c, c ≠ PATH_SEP) dir → g (zlen (strip dir)) ≠ PATH_SEP →
  ∃ w' f, f_name f = At (calls w) 1 ∧ f_path f = At (calls w) 0 ∧
    listTree sys w (Some dir) depth tree =
      '(w, t) ← listSubtree sys (S (Z.to_nat depth)) w' (At (calls w) 0) depth (set_info tree f); Ret (w, true, t).
Proof.
  intros Hne Hnn Hfind Hdir Hg Hsep Hgs.
  destruct (listTree_start w dir depth tree e l g) as (k & h & f & _ & Hk & Hfp & Hfn & ->); [done..|].
  rewrite Hk in Hfn; [by eexists _, f|]. apply Forall_app. split; [|by repeat constructor].
  unfold strip. case_bool_decide; [by apply Forall_take|done].
Qed.

(** The root directory is copied as a path without a character, which cannot
    be opened. *)
Lemma root_not_listed n : tree_of sys (S n) (strip [PATH_SEP]) = Failed.
Proof. done. Qed.
End theorems.

(** ** Examples *)

Example listTree_example :
  (λ s, match s with Ret (_, ok, t) => (ok, dirs_count t, files_count t, dirs_count <$> dir_cells t, files_count <$> dir_cells t)
        | _ => (false, 0, 0, [], []) end)
    (listTree (example_sys true 0) no_world (Some (chars "d")) 2 uninit_tree) = (true, 1, 1, [0], [1]).
Proof. vm_compute. reflexivity. Qed.

Definition d_world : world := mkWorld {[ 0%nat := Text (chars "d" ++ [0]) ]} 1 0.

Lemma d_world_fresh : fresh d_world.
Proof. intros b Hb. cbn in Hb |- *. apply lookup_singleton_ne. lia. Qed.

Lemma listSubtree_correct_witness :
  wp (listSubtree (example_sys true 0) 3 d_world (At 0 0) 2 uninit_tree) (λ '(w', t),
    handles w' = 0 ∧ info t = uninit_file ∧
    ∃ F d, tree_at Uninit (chars "d") F t d ∧ has (heap w') F (heap d_world) ∧
      may (example_sys true 0) 2 (chars "d") d ∧
      (¬ out_of_memory (example_sys true 0) → d = Read [entry 32 "a"; entry 16 "s"] [Read [entry 32 "b"] []])).
Proof.
  exact (listSubtree_correct _ (example_ok 0) 2 d_world (At 0 0) (chars "d") uninit_tree d_world_fresh no_nul_d eq_refl).
Defined.

(** Read to its end, the tree is given back but for its two listings; cut off
    above its directory [s], it is not; and one of depth 0 is only from NULL. *)
Lemma freeFileTree_correct_witness :
  wp (listSubtree (example_sys true 0) 3 d_world (At 0 0) 2 uninit_tree) (λ '(w', t),
    ∃ d, may (example_sys true 0) 2 (chars "d") d ∧
    if good_from Uninit d then ∃ w'', freeFileTree w' t = Ret w'' ∧ leaves w' w'' (dirs_read d) (heap d_world)
    else freeFileTree w' t = Fail Undefined) ∧
  good (tree_of (example_sys true 0) 2 (chars "d")) = true ∧ dirs_read (tree_of (example_sys true 0) 2 (chars "d")) = 2%nat ∧
  good (tree_of (example_sys true 0) 1 (chars "d")) = false ∧
  good_from NULL (tree_of (example_sys true 0) 0 (chars "d")) = true.
Proof.
  split; [|by vm_compute].
  exact (freeFileTree_correct _ (example_ok 0) 2 d_world (At 0 0) (chars "d") uninit_tree d_world_fresh no_nul_d eq_refl (or_intror eq_refl)).
Defined.

Lemma listTree_correct_witness :
  wp (listTree (example_sys true 0) no_world (Some (chars "d")) 2 uninit_tree) (λ '(w', ok, t),
    ok = true ∧ f_path (info t) = At 0 0 ∧
    ∃ F d, tree_at Uninit (chars "d") F t d ∧ has (heap w') F (heap d_world) ∧
      may (example_sys true 0) 2 (chars "d") d ∧
      (¬ out_of_memory (example_sys true 0) → d = tree_of (example_sys true 0) 2 (chars "d"))).
Proof.
  exact (listTree_correct _ (example_ok 0) 2 no_world (chars "d") (entry 16 "d") [] (λ _, 0) no_world_fresh
    ltac:(discriminate) no_nul_d eq_refl eq_refl eq_refl eq_refl).
Defined.

Lemma listTree_unterminated_witness :
  listTree (example_sys true 7) no_world (Some (chars "d")) 1 uninit_tree = Fail OutOfBounds.
Proof.
  exact (listTree_unterminated _ (example_ok 7) 0 no_world (chars "d") uninit_tree (entry 16 "d") [] (λ _, 7)
    ltac:(discriminate) no_nul_d eq_refl eq_refl eq_refl ltac:(discriminate)).
Defined.
