(* ===== verification/Sqlite.v ===== *)
(** The statements of [src/misc/sqlite3_utils.c]: a format with [:i], [:s] and
    [:x] becomes the text of a statement with [?], whose parameters are bound to
    the arguments.  SQLite answers to its calls in the light of those before;
    what is logged is left out. *)
From S2P Require Import Prelude.
#[global] Open Scope Z_scope.

Definition c_i : Z := 105.
Definition c_s : Z := 115.
Definition c_x : Z := 120.

(** ** SQLite *)

(** A variable argument: an [int], a pointer or a size. *)
Inductive arg : Set :=
  | AInt (v : Z)
  | APtr (p : Z)
  | ASize (n : Z).

(** What a parameter is bound to; the length of a blob is an [int]. *)
Inductive bound : Set :=
  | BInt (v : Z)
  | BText (p : Z)
  | BBlob (p n : Z).

(** The calls; a statement is a number, or [None] for NULL.  [Prepare] has the
    text, its length and the answer: [None] for an error. *)
Inductive call : Set :=
  | Prepare (text : list Z) (nByte : Z) (r : option (option Z))
  | Bind (stmt : option Z) (i : Z) (v : bound)
  | Step (stmt : option Z)
  | Finalize (stmt : option Z).

Record sqlite : Type := mkSqlite {
  SQLITE_OK : Z;
  SQLITE_ROW : Z;
  SQLITE_DONE : Z;
  prepare_v2 : list call → list Z → Z → option (option Z);
  bind : list call → option Z → Z → bound → Z;
  step : list call → option Z → Z;
  column_blob : list call → Z → Z;
  column_bytes : list call → Z → Z;
  column_text : list call → Z → Z;
  column_int : list call → Z → Z;
}.

(** ** The text of a statement *)

Definition BUFFER : Z := 2 ^ 10.
Definition PARAMS : Z := 8.

Definition is_type (t : Z) : bool := (t =? c_i) || (t =? c_s) || (t =? c_x).

(** The scan for the next colon. *)
Definition next_colon (fmt : list Z) (cur : Z) : outcome Z :=
  skip_while (λ c, negb (c =? c_colon)) fmt (zlen fmt) cur.

(** One parameter and the text behind it; the state is the cursor, what was
    copied and how much, the types of the parameters and how many. *)
Definition param_step (fmt : list Z) (st : Z * list Z * Z * list Z * Z)
    : outcome (Z * list Z * Z * list Z * Z + option (list Z * Z * list Z * Z)) :=
  let '(cur, buffer, copied, params, num_params) := st in
  let len := zlen fmt in
  c ← rd fmt cur;
  c_assert (c =? c_colon);;
  let cur := cur + 1 in
  if cur =? len then break None
  else
    t ← rd fmt cur;
    if negb (is_type t) then break None
    else
      let cur := cur + 1 in
      if num_params =? PARAMS then break None
      else
        params ← wr params num_params t;
        num_params ← int (num_params + 1);
        if BUFFER <=? copied + 1 then break None
        else
          buffer ← wr buffer copied c_question;
          let copied := copied + 1 in
          let save := cur in
          cur ← next_colon fmt cur;
          let copying := cur - save in
          if BUFFER <=? copied + copying then break None
          else
            text ← rd_range fmt save copying;
            buffer ← wr_range buffer copied text;
            let copied := copied + copying in
            if cur <? len then continue (cur, buffer, copied, params, num_params)
            else break (Some (buffer, copied, params, num_params)).

(** [buffer] and [params] are what the arrays hold at first.  The result is the
    statement and the types of its parameters, [None] for an error. *)
Definition statement_text (buffer params fmt : list Z) : outcome (option (list Z * list Z)) :=
  let len := zlen fmt in
  cur ← next_colon fmt 0;
  if cur =? len then Ret (Some (fmt, []))
  else if BUFFER <=? cur then Ret None
  else
    text ← rd_range fmt 0 cur;
    buffer ← wr_range buffer 0 text;
    r ← loop (S (length fmt)) (param_step fmt) (cur, buffer, cur, params, 0);
    match r with
    | None => Ret None
    | Some (buffer, copied, params, num_params) =>
        c_assert (copied <? BUFFER);;
        buffer ← wr buffer copied 0;
        text ← rd_range buffer 0 copied;
        types ← rd_range params 0 num_params;
        Ret (Some (text, types))
    end.

(** ** Statements *)

Section code.
Context (sql : sqlite) (buffer params : list Z).

Definition va_int (args : list arg) : outcome (Z * list arg) :=
  match args with AInt v :: l => Ret (v, l) | _ => Fail Undefined end.
Definition va_ptr (args : list arg) : outcome (Z * list arg) :=
  match args with APtr p :: l => Ret (p, l) | _ => Fail Undefined end.
Definition va_size (args : list arg) : outcome (Z * list arg) :=
  match args with ASize n :: l => Ret (n, l) | _ => Fail Undefined end.

(** The value of a parameter of type [t]; [sqlite3_bind_blob] gets the [size_t]
    as an [int]. *)
Definition take_arg (t : Z) (args : list arg) : outcome (bound * list arg) :=
  if t =? c_i then '(v, l) ← va_int args; Ret (BInt v, l)
  else if t =? c_s then '(p, l) ← va_ptr args; Ret (BText p, l)
  else if t =? c_x then '(p, l) ← va_ptr args; '(n, l) ← va_size l; Ret (BBlob p (s32 n), l)
  else Fail Undefined.

(** The loop over the parameters from index [i] on, [h] being the calls so far. *)
Fixpoint bind_params (h : list call) (stmt : option Z) (types : list Z) (i : Z) (args : list arg)
    : outcome (list call * bool) :=
  match types with
  | [] => Ret (h, true)
  | t :: types =>
      '(v, args) ← take_arg t args;
      let code := bind sql h stmt (i + 1) v in
      let h := h ++ [Bind stmt (i + 1) v] in
      if negb (code =? SQLITE_OK sql) then Ret (h ++ [Finalize stmt], false)
      else bind_params h stmt types (i + 1) args
  end.

(** [sqlite3_prepare_v2] gets the length, a [size_t], as an [int]. *)
Definition vprep (h : list call) (fmt : list Z) (args : list arg) : outcome (list call * option Z) :=
  r ← statement_text buffer params fmt;
  match r with
  | None => Ret (h, None)
  | Some (text, types) =>
      let nByte := s32 (zlen text) in
      let r := prepare_v2 sql h text nByte in
      let h := h ++ [Prepare text nByte r] in
      match r with
      | None => Ret (h, None)
      | Some stmt =>
          '(h, ok) ← bind_params h stmt types 0 args;
          Ret (h, if (ok : bool) then stmt else None)
      end
  end.

Definition sqlite3UtilsPrepare (h : list call) (fmt : list Z) (args : list arg) : outcome (list call * option Z) :=
  vprep h fmt args.

Definition sqlite3UtilsExec (h : list call) (fmt : list Z) (args : list arg) : outcome (list call * bool) :=
  '(h, stmt) ← vprep h fmt args;
  match stmt with
  | None => Ret (h, false)
  | Some _ =>
      let code := step sql h stmt in
      let h := h ++ [Step stmt] in
      if negb (code =? SQLITE_DONE sql) then Ret (h ++ [Finalize stmt], false)
      else Ret (h ++ [Finalize stmt], true)
  end.

Definition sqlite3UtilsRowsExist (h : list call) (fmt : list Z) (args : list arg) : outcome (list call * Z) :=
  '(h, stmt) ← vprep h fmt args;
  match stmt with
  | None => Ret (h, -1)
  | Some _ =>
      let code := step sql h stmt in
      let h := h ++ [Step stmt] in
      if code =? SQLITE_DONE sql then Ret (h ++ [Finalize stmt], 1)
      else if code =? SQLITE_ROW sql then Ret (h ++ [Finalize stmt], 0)
      else Ret (h ++ [Finalize stmt], -1)
  end.

(** What is written through the pointers, in order; [types] ends in front of its
    terminator. *)
Inductive column : Set :=
  | CBlob (p : Z)
  | CBytes (n : Z)
  | CText (p : Z)
  | CInt (v : Z).

Fixpoint fetch_columns (h : list call) (types : list Z) (i : Z) : list column * Z :=
  match types with
  | [] => ([], 0)
  | t :: types =>
      let '(cols, r) := fetch_columns h types (i + 1) in
      if t =? c_x then (CBlob (column_blob sql h i) :: CBytes (column_bytes sql h i) :: cols, r)
      else if t =? c_s then (CText (column_text sql h i) :: cols, r)
      else if t =? c_i then (CInt (column_int sql h i) :: cols, r)
      else ([], -1)
  end.

Definition sqlite3UtilsFetch (h : list call) (stmt : option Z) (types : list Z) : list call * list column * Z :=
  let code := step sql h stmt in
  let h := h ++ [Step stmt] in
  if code =? SQLITE_DONE sql then (h, [], 1)
  else if negb (code =? SQLITE_ROW sql) then (h, [], -1)
  else let '(cols, r) := fetch_columns h types 0 in (h, cols, r).
End code.

(** ** Specification *)

(** The text with a question mark for each parameter, and the types. *)
Fixpoint translate (fmt : list Z) : option (list Z * list Z) :=
  match fmt with
  | [] => Some ([], [])
  | c :: fmt' =>
      if c =? c_colon then
        match fmt' with
        | t :: rest =>
            if is_type t then '(s, ps) ← translate rest; Some (c_question :: s, t :: ps) else None
        | [] => None
        end
      else '(s, ps) ← translate fmt'; Some (c :: s, ps)
  end.

(** A text without parameters may be of any length. *)
Definition statement_of (fmt : list Z) : option (list Z * list Z) :=
  if bool_decide (c_colon ∈ fmt) then
    '(s, ps) ← translate fmt;
    if (zlen s <? BUFFER) && (zlen ps <=? PARAMS) then Some (s, ps) else None
  else Some (fmt, []).

(** What the parameters are bound to: an integer, a string, or a blob by its
    address and its length, which is itself below 2 GB ([blob_length_wraps]). *)
Fixpoint values (types : list Z) (args : list arg) : option (list bound) :=
  match types, args with
  | [], _ => Some []
  | t :: types, AInt v :: args => if t =? c_i then vs ← values types args; Some (BInt v :: vs) else None
  | t :: types, APtr p :: args =>
      if t =? c_s then vs ← values types args; Some (BText p :: vs)
      else if t =? c_x then
        match args with ASize n :: args => vs ← values types args; Some (BBlob p (s32 n) :: vs) | _ => None end
      else None
  | _ :: _, _ => None
  end.

(** Statements that were prepared and not finalised. *)
Definition opened (c : call) : Z :=
  match c with Prepare _ _ (Some (Some _)) => 1 | Finalize (Some _) => -1 | _ => 0 end.
Definition balance (h : list call) : Z := foldr (λ c n, opened c + n) 0 h.

(** ** The text *)

Lemma translate_app t r :
  Forall (λ c, negb (c =? c_colon) = true) t → translate (t ++ r) = '(s, ps) ← translate r; Some (t ++ s, ps).
Proof.
  induction 1 as [|c t Hc _ IH]; cbn; [by destruct (translate r) as [[s ps]|]|].
  destruct (c =? c_colon); [done|]. rewrite IH. by destruct (translate r) as [[s ps]|].
Qed.

(** The result, when [acc] and [ps] are there and [rem] is still to be read. *)
Definition result_of (acc ps rem : list Z) : option (list Z * list Z) :=
  '(s, qs) ← translate rem;
  if (zlen (acc ++ s) <? BUFFER) && (zlen (ps ++ qs) <=? PARAMS) then Some (acc ++ s, ps ++ qs) else None.

Lemma result_of_text acc ps t r :
  Forall (λ c, negb (c =? c_colon) = true) t → result_of acc ps (t ++ r) = result_of (acc ++ t) ps r.
Proof.
  intros Ht. unfold result_of. rewrite (translate_app t r Ht). destruct (translate r) as [[s qs]|]; [|done].
  cbn. by rewrite <-app_assoc.
Qed.

Lemma result_of_param acc ps t r :
  is_type t = true → result_of acc ps (c_colon :: t :: r) = result_of (acc ++ [c_question]) (ps ++ [t]) r.
Proof.
  intros Ht. unfold result_of. cbn. rewrite Ht. destruct (translate r) as [[s qs]|]; [|done].
  cbn. by rewrite <-!app_assoc.
Qed.

Lemma result_of_long acc ps r : BUFFER ≤ zlen acc ∨ PARAMS < zlen ps → result_of acc ps r = None.
Proof.
  intros Hlong. unfold result_of. destruct (translate r) as [[s qs]|]; [|done]. cbn. rewrite !zlen_app.
  pose proof (zlen_nonneg s). pose proof (zlen_nonneg qs).
  destruct (Z.ltb_spec (zlen acc + zlen s) BUFFER), (Z.leb_spec (zlen ps + zlen qs) PARAMS); try done; lia.
Qed.

(** The scan stops at the next colon or the end. *)
Lemma next_colon_ok pre t :
  ∃ a b, t = a ++ b ∧ Forall (λ c, negb (c =? c_colon) = true) a ∧ (b = [] ∨ ∃ r, b = c_colon :: r) ∧
    next_colon (pre ++ t) (zlen pre) = Ret (zlen pre + zlen a).
Proof.
  exists (take_while (λ c, negb (c =? c_colon)) t), (drop_while (λ c, negb (c =? c_colon)) t).
  split; [by rewrite take_drop_while|]. split; [apply Forall_take_while|]. split.
  - destruct (drop_while _ t) as [|c r] eqn:E; [by left|]. right. apply drop_while_head in E.
    exists r. f_equal. by destruct (Z.eqb_spec c c_colon).
  - unfold next_colon. pose proof (skip_while_text (λ c, negb (c =? c_colon)) pre t [] (zlen (pre ++ t)) eq_refl) as H.
    by rewrite app_nil_r in H.
Qed.

Lemma param_loop_ok b0 p0 fmt pre acc ps rem :
  zlen b0 = BUFFER → zlen p0 = PARAMS → fmt = pre ++ c_colon :: rem → zlen acc < BUFFER → zlen ps ≤ PARAMS →
  loop (S (length fmt)) (param_step fmt) (zlen pre, over acc b0, zlen acc, over ps p0, zlen ps) =
    Ret ('(s, qs) ← result_of acc ps (c_colon :: rem); Some (over s b0, zlen s, over qs p0, zlen qs)) ∧
  ∀ s qs, result_of acc ps (c_colon :: rem) = Some (s, qs) → zlen s < BUFFER ∧ zlen qs ≤ PARAMS.
Proof.
  intros Hb Hp Hfmt Hacc Hps. split.
  2: { intros s qs. unfold result_of. destruct (translate _) as [[s' qs']|]; [|done]. cbn.
    destruct (Z.ltb_spec (zlen (acc ++ s')) BUFFER), (Z.leb_spec (zlen (ps ++ qs')) PARAMS); try done. by intros [= <- <-]. }
  apply wp_eq_inv.
  apply (wp_loop_count (λ n st, ∃ pre' acc' ps' rem', fmt = pre' ++ c_colon :: rem' ∧ n = length rem' ∧
    st = (zlen pre', over acc' b0, zlen acc', over ps' p0, zlen ps') ∧ zlen acc' < BUFFER ∧ zlen ps' ≤ PARAMS ∧
    result_of acc ps (c_colon :: rem) = result_of acc' ps' (c_colon :: rem')) _ _ _ (length rem)).
  { by exists pre, acc, ps, rem. }
  { rewrite Hfmt, length_app. simpl. lia. }
  intros n st (pre' & acc' & ps' & rem' & Hf & -> & -> & Ha & Hq & ->). clear Hfmt Hacc Hps. unfold param_step.
  pose proof (zlen_nonneg pre'). pose proof (zlen_nonneg rem'). pose proof (zlen_nonneg acc'). pose proof (zlen_nonneg ps').
  assert (Hlen : zlen fmt = zlen pre' + (1 + zlen rem')) by (rewrite Hf; zlen).
  assert (rd fmt (zlen pre') = Ret c_colon) as -> by (by rewrite Hf, rd_app_r, Z.sub_diag by lia).
  cbn [mbind outcome_bind]. change (c_colon =? c_colon) with true. cbn [c_assert].
  change (Ret () ≫= ?k) with (k ()).
  destruct rem' as [|t rest].
  { destruct (Z.eqb_spec (zlen pre' + 1) (zlen fmt)) as [_|Hne]; [done|]. change (zlen (@nil Z)) with 0 in Hlen. lia. }
  rewrite zlen_cons in *. pose proof (zlen_nonneg rest).
  destruct (Z.eqb_spec (zlen pre' + 1) (zlen fmt)) as [Hbad|_]; [lia|].
  assert (rd fmt (zlen pre' + 1) = Ret t) as ->.
  { rewrite Hf, rd_app_r by lia. by replace (zlen pre' + 1 - zlen pre') with 1 by lia. }
  cbn [mbind outcome_bind]. destruct (is_type t) eqn:Ht; cbn [negb].
  2: { cbn. unfold result_of. cbn. by rewrite Ht. }
  rewrite (result_of_param acc' ps' t rest Ht).
  destruct (Z.eqb_spec (zlen ps') PARAMS) as [Hfull|Hroom].
  { cbn. rewrite result_of_long; [done|]. right. rewrite zlen_app. change (zlen [t]) with 1. lia. }
  rewrite (wr_over ps' p0) by lia. cbn [mbind outcome_bind]. unfold int.
  destruct (Z.leb_spec INT_MIN (zlen ps' + 1)); [|unfold INT_MIN in *; lia].
  destruct (Z.leb_spec (zlen ps' + 1) INT_MAX); [|unfold INT_MAX, PARAMS in *; lia]. cbn [andb mbind outcome_bind].
  destruct (Z.leb_spec BUFFER (zlen acc' + 1)) as [Hov|Hov].
  { cbn. rewrite result_of_long; [done|]. left. rewrite zlen_app. change (zlen [c_question]) with 1. lia. }
  rewrite (wr_over acc' b0) by lia. cbn [mbind outcome_bind].
  assert (fmt = (pre' ++ [c_colon; t]) ++ rest) as Hf2 by (by rewrite Hf, <-app_assoc).
  assert (zlen pre' + 1 + 1 = zlen (pre' ++ [c_colon; t])) as Hz by (rewrite zlen_app; change (zlen [c_colon; t]) with 2; lia).
  rewrite Hz. destruct (next_colon_ok (pre' ++ [c_colon; t]) rest) as (a & b & -> & Hna & Hb' & Hnext).
  rewrite <-Hf2 in Hnext. rewrite Hnext. cbn [mbind outcome_bind].
  pose proof (zlen_nonneg a). pose proof (zlen_nonneg b).
  replace (zlen (pre' ++ [c_colon; t]) + zlen a - zlen (pre' ++ [c_colon; t])) with (zlen a) by lia.
  assert (zlen (acc' ++ [c_question]) = zlen acc' + 1) as Hq1 by zlen.
  assert (zlen (ps' ++ [t]) = zlen ps' + 1) as Hq2 by zlen.
  rewrite (result_of_text _ _ a b Hna). rewrite zlen_app in Hlen.
  assert (zlen ((acc' ++ [c_question]) ++ a) = zlen acc' + 1 + zlen a) as Hq3 by (rewrite zlen_app; lia).
  destruct (Z.leb_spec BUFFER (zlen acc' + 1 + zlen a)) as [Hov2|Hov2].
  { cbn. rewrite result_of_long; [done|]. left. lia. }
  assert (rd_range fmt (zlen (pre' ++ [c_colon; t])) (zlen a) = Ret a) as ->.
  { rewrite Hf2. by apply rd_range_app. }
  cbn [mbind outcome_bind]. rewrite <-Hq1, wr_range_over by lia. cbn [mbind outcome_bind].
  destruct Hb' as [->|[r ->]].
  - change (zlen (@nil Z)) with 0 in *. destruct (Z.ltb_spec (zlen (pre' ++ [c_colon; t]) + zlen a) (zlen fmt)); [lia|].
    cbn. unfold result_of. cbn. rewrite !app_nil_r.
    destruct (Z.ltb_spec (zlen ((acc' ++ [c_question]) ++ a)) BUFFER) as [_|]; [|lia].
    destruct (Z.leb_spec (zlen (ps' ++ [t])) PARAMS) as [_|]; [|lia]. cbn. by rewrite Hq3, Hq2, Hq1.
  - rewrite zlen_cons in Hlen. pose proof (zlen_nonneg r).
    destruct (Z.ltb_spec (zlen (pre' ++ [c_colon; t]) + zlen a) (zlen fmt)) as [_|]; [|lia].
    cbn. exists (length r). split; [rewrite length_app; simpl; lia|].
    exists ((pre' ++ [c_colon; t]) ++ a), ((acc' ++ [c_question]) ++ a), (ps' ++ [t]), r.
    split_and!; [by rewrite Hf2, <-!app_assoc|done|by rewrite Hq3, Hq2, Hq1, (zlen_app (pre' ++ [c_colon; t]))|lia|lia|done].
Qed.

(** The text and the types are those of the specification; no array is left. *)
Lemma statement_text_ok b0 p0 fmt :
  zlen b0 = BUFFER → zlen p0 = PARAMS → statement_text b0 p0 fmt = Ret (statement_of fmt).
Proof.
  intros Hb Hp. unfold statement_text, statement_of.
  destruct (next_colon_ok [] fmt) as (a & b & Heq & Ha & Hbb & Hnext). cbn [app] in Hnext.
  change (zlen (@nil Z)) with 0 in Hnext. rewrite Hnext, Z.add_0_l. cbn [mbind outcome_bind].
  pose proof (zlen_nonneg a).
  assert (c_colon ∉ a) as Hnot.
  { intros Hin. rewrite Forall_forall in Ha. by specialize (Ha _ Hin). }
  destruct Hbb as [->|[r ->]].
  { rewrite app_nil_r in Heq. subst a. destruct (Z.eqb_spec (zlen fmt) (zlen fmt)); [|done].
    by rewrite bool_decide_eq_false_2. }
  rewrite bool_decide_eq_true_2 by (rewrite Heq; set_solver).
  pose proof (zlen_nonneg r). destruct (Z.eqb_spec (zlen a) (zlen fmt)) as [Hbad|_]; [rewrite Heq in Hbad; zlen|].
  assert (('(s, ps) ← translate fmt; if (zlen s <? BUFFER) && (zlen ps <=? PARAMS) then Some (s, ps) else None) =
    result_of [] [] fmt) as -> by done.
  rewrite Heq, (result_of_text [] [] a _ Ha), <-Heq. cbn [app].
  destruct (Z.leb_spec BUFFER (zlen a)) as [Hlong|Hshort]; [by rewrite result_of_long by auto|].
  assert (rd_range fmt 0 (zlen a) = Ret a) as -> by (rewrite Heq; by apply (rd_range_app [])).
  cbn [mbind outcome_bind]. pose proof (wr_range_over [] b0 a) as Hw. rewrite over_nil in Hw. cbn [app] in Hw.
  change (zlen (@nil Z)) with 0 in Hw. rewrite Hw by lia. cbn [mbind outcome_bind].
  destruct (param_loop_ok b0 p0 fmt a a [] r Hb Hp Heq Hshort ltac:(done)) as [Hloop Hres].
  rewrite over_nil in Hloop. change (zlen (@nil Z)) with 0 in Hloop. rewrite Hloop. cbn [mbind outcome_bind].
  destruct (result_of a [] (c_colon :: r)) as [[s qs]|]; [|done]. destruct (Hres s qs eq_refl) as [Hs Hq].
  cbn [mbind option_bind]. destruct (Z.ltb_spec (zlen s) BUFFER); [|lia]. cbn [c_assert mbind outcome_bind].
  rewrite wr_over by lia. cbn [mbind outcome_bind].
  assert (rd_range (over (s ++ [0]) b0) 0 (zlen s) = Ret s) as ->.
  { unfold over. rewrite <-app_assoc. by apply (rd_range_app []). }
  cbn [mbind outcome_bind]. by rewrite rd_range_over.
Qed.

(** ** The calls *)

Section calls.
Context (sql : sqlite).

(** The parameters of a statement, bound in order. *)
Fixpoint binds (stmt : option Z) (i : Z) (vs : list bound) : list call :=
  match vs with
  | [] => []
  | v :: vs => Bind stmt (i + 1) v :: binds stmt (i + 1) vs
  end.

Fixpoint binds_ok (h : list call) (stmt : option Z) (i : Z) (vs : list bound) : bool :=
  match vs with
  | [] => true
  | v :: vs =>
      (bind sql h stmt (i + 1) v =? SQLITE_OK sql) && binds_ok (h ++ [Bind stmt (i + 1) v]) stmt (i + 1) vs
  end.

Lemma balance_app h k : balance (h ++ k) = balance h + balance k.
Proof. unfold balance. induction h as [|c h IH]; [done|]. cbn. rewrite IH. lia. Qed.

Lemma balance_binds stmt i vs : balance (binds stmt i vs) = 0.
Proof. revert i. induction vs as [|v vs IH]; intros i; [done|]. unfold balance in *. cbn. rewrite IH. done. Qed.

Lemma values_cons t types args vs :
  values (t :: types) args = Some vs →
  ∃ v args' vs', take_arg t args = Ret (v, args') ∧ values types args' = Some vs' ∧ vs = v :: vs'.
Proof.
  cbn. unfold take_arg. destruct args as [|[v|p|n] args]; [done|..|done].
  - destruct (t =? c_i); [|done]. cbn. destruct (values types args) as [vs'|] eqn:E; [|done]. intros [= <-]. eauto 6.
  - destruct (Z.eqb_spec t c_s) as [->|]; cbn.
    { destruct (values types args) as [vs'|] eqn:E; [|done]. intros [= <-]. eauto 6. }
    destruct (Z.eqb_spec t c_x) as [->|]; [|done]. destruct args as [|[v|q|m] args]; try done. cbn.
    destruct (values types args) as [vs'|] eqn:E; [|done]. intros [= <-]. eauto 6.
Qed.

Lemma bind_params_ok h stmt types i args vs :
  values types args = Some vs →
  if binds_ok h stmt i vs then bind_params sql h stmt types i args = Ret (h ++ binds stmt i vs, true)
  else ∃ l, bind_params sql h stmt types i args = Ret (h ++ l ++ [Finalize stmt], false) ∧ balance l = 0.
Proof.
  revert h i args vs. induction types as [|t types IH]; intros h i args vs Hvs.
  { destruct args; injection Hvs as <-; cbn; by rewrite app_nil_r. }
  apply values_cons in Hvs as (v & args' & vs' & Ht & E & ->). cbn. rewrite Ht. cbn. destruct (bind sql h stmt (i + 1) v =? SQLITE_OK sql); cbn.
  - specialize (IH (h ++ [Bind stmt (i + 1) v]) (i + 1) args' vs' E). destruct (binds_ok _ _ _ _).
    + rewrite IH. by rewrite <-app_assoc.
    + destruct IH as (l & -> & Hl). exists (Bind stmt (i + 1) v :: l). split; [by rewrite <-app_assoc|done].
  - exists [Bind stmt (i + 1) v]. by rewrite <-app_assoc.
Qed.

Context (b0 p0 : list Z) (Hb : zlen b0 = BUFFER) (Hp : zlen p0 = PARAMS).

(** What a preparation does: nothing for a bad format; else the calls, with a
    statement only when all of them succeed. *)
Lemma vprep_ok h fmt args :
  match statement_of fmt with
  | None => vprep sql b0 p0 h fmt args = Ret (h, None)
  | Some (text, types) => ∀ vs, values types args = Some vs →
      let n := s32 (zlen text) in
      let h1 := h ++ [Prepare text n (prepare_v2 sql h text n)] in
      match prepare_v2 sql h text n with
      | Some (Some s) =>
          if binds_ok h1 (Some s) 0 vs then vprep sql b0 p0 h fmt args = Ret (h1 ++ binds (Some s) 0 vs, Some s)
          else ∃ h', vprep sql b0 p0 h fmt args = Ret (h', None) ∧ balance h' = balance h
      | _ => ∃ h', vprep sql b0 p0 h fmt args = Ret (h', None) ∧ balance h' = balance h
      end
  end.
Proof.
  unfold vprep. rewrite (statement_text_ok b0 p0 fmt Hb Hp). cbn [mbind outcome_bind].
  destruct (statement_of fmt) as [[text types]|]; [|done]. intros vs Hvs. cbn zeta. set (nByte := s32 (zlen text)).
  destruct (prepare_v2 sql h text nByte) as [stmt|].
  2: { eexists. split; [done|]. rewrite balance_app. cbn. lia. }
  pose proof (bind_params_ok (h ++ [Prepare text nByte (Some stmt)]) stmt types 0 args vs Hvs) as Hbp.
  destruct (binds_ok _ stmt 0 vs) eqn:Hok.
  - rewrite Hbp. cbn [mbind outcome_bind]. destruct stmt as [s|].
    + by rewrite Hok.
    + eexists. split; [done|]. rewrite !balance_app, balance_binds. cbn. lia.
  - destruct Hbp as (l & -> & Hl). cbn [mbind outcome_bind]. destruct stmt as [s|].
    + rewrite Hok. eexists. split; [done|]. rewrite !balance_app, Hl. cbn. lia.
    + eexists. split; [done|]. rewrite !balance_app, Hl. cbn. lia.
Qed.

(** C40.  [sqlite3UtilsExec] executes the statement that its format stands for:
    [?] for each of at most 8 parameters, in at most 1023 characters if there is
    one, bound in order to the arguments, which are of the types that the
    format names.  It returns true exactly when all calls succeed; a bad format
    calls nothing; and each statement that is prepared is finalised once,
    errors included.  Lengths are handed to SQLite as an [int]. *)
Theorem sqlite3UtilsExec_correct h fmt args :
  match statement_of fmt with
  | None => sqlite3UtilsExec sql b0 p0 h fmt args = Ret (h, false)
  | Some (text, types) => ∀ vs, values types args = Some vs →
      wp (sqlite3UtilsExec sql b0 p0 h fmt args) (λ '(h', ok),
        balance h' = balance h ∧
        (ok = true ↔ ∃ s, prepare_v2 sql h text (s32 (zlen text)) = Some (Some s) ∧
           let h1 := h ++ [Prepare text (s32 (zlen text)) (Some (Some s))] in
           binds_ok h1 (Some s) 0 vs = true ∧ step sql (h1 ++ binds (Some s) 0 vs) (Some s) = SQLITE_DONE sql ∧
           h' = h1 ++ binds (Some s) 0 vs ++ [Step (Some s); Finalize (Some s)]))
  end.
Proof.
  pose proof (vprep_ok h fmt args) as Hv. unfold sqlite3UtilsExec.
  destruct (statement_of fmt) as [[text types]|]; [|by rewrite Hv]. intros vs Hvs. specialize (Hv vs Hvs). cbn zeta in Hv.
  assert (Hbad : (∃ h', vprep sql b0 p0 h fmt args = Ret (h', None) ∧ balance h' = balance h) →
    ¬ (∃ s, prepare_v2 sql h text (s32 (zlen text)) = Some (Some s) ∧ binds_ok (h ++ [Prepare text (s32 (zlen text)) (Some (Some s))]) (Some s) 0 vs = true) →
    wp ('(h, stmt) ← vprep sql b0 p0 h fmt args;
        match stmt with None => Ret (h, false) | Some _ =>
          let code := step sql h stmt in let h := h ++ [Step stmt] in
          if negb (code =? SQLITE_DONE sql) then Ret (h ++ [Finalize stmt], false) else Ret (h ++ [Finalize stmt], true) end)
     (λ '(h', ok), balance h' = balance h ∧ (ok = true ↔ ∃ s, prepare_v2 sql h text (s32 (zlen text)) = Some (Some s) ∧
           let h1 := h ++ [Prepare text (s32 (zlen text)) (Some (Some s))] in
           binds_ok h1 (Some s) 0 vs = true ∧ step sql (h1 ++ binds (Some s) 0 vs) (Some s) = SQLITE_DONE sql ∧
           h' = h1 ++ binds (Some s) 0 vs ++ [Step (Some s); Finalize (Some s)]))).
  { intros (h' & -> & Hbal) Hno. cbn. split; [done|]. split; [done|]. intros (s & ? & ? & _). destruct Hno. by exists s. }
  destruct (prepare_v2 sql h text (s32 (zlen text))) as [[s|]|] eqn:Hprep.
  - destruct (binds_ok (h ++ [Prepare text (s32 (zlen text)) (Some (Some s))]) (Some s) 0 vs) eqn:Hok.
    + rewrite Hv. cbn. destruct (Z.eqb_spec (step sql ((h ++ [Prepare text (s32 (zlen text)) (Some (Some s))]) ++ binds (Some s) 0 vs) (Some s)) (SQLITE_DONE sql)) as [Hd|Hd]; cbn.
      * split; [rewrite !balance_app, balance_binds; cbn; lia|]. split; [|done]. intros _. exists s. split; [done|]. cbn zeta.
        split; [exact Hok|]. split; [exact Hd|]. by rewrite <-!app_assoc.
      * split; [rewrite !balance_app, balance_binds; cbn; lia|]. split; [done|]. intros (s' & [= <-] & _ & ? & _). done.
    + apply Hbad; [done|]. intros (s' & [= <-] & ?). congruence.
  - apply Hbad; [done|]. by intros (s' & ? & _).
  - apply Hbad; [done|]. by intros (s' & ? & _).
Qed.

(** The answer to the question for rows: 0 when there are some, 1 when there
    are none, -1 after an error; nothing stays open. *)
Lemma sqlite3UtilsRowsExist_ok h fmt args text types vs :
  statement_of fmt = Some (text, types) → values types args = Some vs →
  wp (sqlite3UtilsRowsExist sql b0 p0 h fmt args) (λ '(h', r), balance h' = balance h ∧
    (r ≠ -1 → ∃ s, prepare_v2 sql h text (s32 (zlen text)) = Some (Some s) ∧
      step sql (h ++ [Prepare text (s32 (zlen text)) (Some (Some s))] ++ binds (Some s) 0 vs) (Some s) =
        (if r =? 1 then SQLITE_DONE sql else SQLITE_ROW sql))).
Proof.
  intros Hst Hvs. pose proof (vprep_ok h fmt args) as Hv. rewrite Hst in Hv. specialize (Hv vs Hvs). cbn zeta in Hv.
  unfold sqlite3UtilsRowsExist.
  destruct (prepare_v2 sql h text (s32 (zlen text))) as [[s|]|]; [|destruct Hv as (h' & -> & Hbal); cbn; by (split; [|intros []])..].
  destruct (binds_ok _ _ 0 vs); [|destruct Hv as (h' & -> & Hbal); cbn; by (split; [|intros []])].
  rewrite Hv. cbn. rewrite <-app_assoc.
  set (hs := h ++ [Prepare text (s32 (zlen text)) (Some (Some s))] ++ binds (Some s) 0 vs).
  assert (balance ((hs ++ [Step (Some s)]) ++ [Finalize (Some s)]) = balance h) as Hbal.
  { unfold hs. rewrite !balance_app, balance_binds. cbn. lia. }
  destruct (Z.eqb_spec (step sql hs (Some s)) (SQLITE_DONE sql)); [by cbn; eauto|].
  destruct (Z.eqb_spec (step sql hs (Some s)) (SQLITE_ROW sql)); cbn; [by eauto|]. split; [done|]. by intros [].
Qed.

(** A preparation leaves its statement open, and nothing when it fails. *)
Lemma sqlite3UtilsPrepare_ok h fmt args text types vs :
  statement_of fmt = Some (text, types) → values types args = Some vs →
  wp (sqlite3UtilsPrepare sql b0 p0 h fmt args) (λ '(h', r),
    balance h' = balance h + match r with Some _ => 1 | None => 0 end).
Proof.
  intros Hst Hvs. pose proof (vprep_ok h fmt args) as Hv. rewrite Hst in Hv. specialize (Hv vs Hvs). cbn zeta in Hv.
  unfold sqlite3UtilsPrepare.
  destruct (prepare_v2 sql h text (s32 (zlen text))) as [[s|]|]; [|destruct Hv as (h' & -> & Hbal); cbn; lia..].
  destruct (binds_ok _ _ 0 vs); [|destruct Hv as (h' & -> & Hbal); cbn; lia].
  rewrite Hv. cbn. rewrite !balance_app, balance_binds. cbn. lia.
Qed.

(** A row is fetched when there is one: the columns that the types name, each
    in its place; the end and errors write nothing. *)
Lemma sqlite3UtilsFetch_ok h stmt types :
  Forall (λ t, is_type t = true) types →
  let '(h', cols, r) := sqlite3UtilsFetch sql h stmt types in
  h' = h ++ [Step stmt] ∧
  (r = 0 → step sql h stmt = SQLITE_ROW sql ∧ cols = (fetch_columns sql h' types 0).1) ∧ (r ≠ 0 → cols = []).
Proof.
  intros Ht. unfold sqlite3UtilsFetch.
  assert (∀ k i, (fetch_columns sql k types i).2 = 0) as Hz.
  { intros k. induction Ht as [|t l Ht _ IH]; intros i; [done|]. cbn. specialize (IH (i + 1)).
    destruct (fetch_columns sql k l (i + 1)) as [cols r]. unfold is_type in Ht.
    destruct (t =? c_x), (t =? c_s), (t =? c_i); done. }
  specialize (Hz (h ++ [Step stmt]) 0). destruct (step sql h stmt =? SQLITE_DONE sql); [split; [done|by split; [intros [=]|]]|].
  destruct (Z.eqb_spec (step sql h stmt) (SQLITE_ROW sql)); cbn; [|split; [done|by split; [intros [=]|]]].
  destruct (fetch_columns sql (h ++ [Step stmt]) types 0) as [cols r] eqn:E. cbn in Hz. subst r.
  rewrite E. split; [done|]. split; [done|]. by intros [].
Qed.
End calls.

(** A colon in a text of SQL is taken for a parameter: the statement is
    refused. *)
Lemma colon_in_text : statement_of (chars "SELECT '10:30'") = None.
Proof. vm_compute. reflexivity. Qed.

(** A blob of 2 GB is bound with a negative length. *)
Lemma blob_length_wraps p :
  take_arg c_x [APtr p; ASize (2 ^ 31)] = Ret (BBlob p (- 2 ^ 31), []).
Proof. by vm_compute. Qed.

(** ** An example *)

Definition example_sql : sqlite :=
  mkSqlite 0 100 101 (λ _ _ _, Some (Some 7)) (λ _ _ _ _, 0) (λ _ _, 101) (λ _ _, 0) (λ _ _, 0) (λ _ _, 0) (λ _ _, 0).

Lemma sqlite3UtilsExec_correct_witness :
  statement_of (chars "INSERT INTO t VALUES(:i, :x)") = Some (chars "INSERT INTO t VALUES(?, ?)", [c_i; c_x]) ∧
  wp (sqlite3UtilsExec example_sql (replicate 1024 0) (replicate 8 0) [] (chars "INSERT INTO t VALUES(:i, :x)")
        [AInt 3; APtr 500; ASize 4])
    (λ '(h', ok), balance h' = 0 ∧ (ok = true ↔ ∃ s, Some (Some 7) = Some (Some s) ∧
      let h1 := [Prepare (chars "INSERT INTO t VALUES(?, ?)") 26 (Some (Some s))] in
      binds_ok example_sql h1 (Some s) 0 [BInt 3; BBlob 500 4] = true ∧ 101 = 101 ∧
      h' = h1 ++ binds (Some s) 0 [BInt 3; BBlob 500 4] ++ [Step (Some s); Finalize (Some s)])).
Proof.
  assert (statement_of (chars "INSERT INTO t VALUES(:i, :x)") = Some (chars "INSERT INTO t VALUES(?, ?)", [c_i; c_x])) as Hst
    by (vm_compute; reflexivity).
  split; [exact Hst|].
  pose proof (sqlite3UtilsExec_correct example_sql (replicate 1024 0) (replicate 8 0) eq_refl eq_refl []
    (chars "INSERT INTO t VALUES(:i, :x)") [AInt 3; APtr 500; ASize 4]) as H.
  rewrite Hst in H. exact (H [BInt 3; BBlob 500 4] eq_refl).
Defined.
