(* ===== verification/Threads.v ===== *)
(** The threads of [src/thread/thread.c]: their creation and end, and the
    number that each has for itself. *)
From S2P Require Import Prelude Conc.
#[global] Open Scope Z_scope.

(** ** The code *)

(** What the system answers: [pthread_create] a code and the thread,
    [CreateThread] the handle, 0 for a failure. *)
Definition os_thread_create (windows : bool) (INVALID_HANDLE_VALUE : Z) (answer : Z * Z) : outcome Z :=
  let '(ret, thread) := answer in
  if windows then if thread =? INVALID_HANDLE_VALUE then Fail Aborted else Ret thread
  else if negb (ret =? 0) then Fail Aborted else Ret thread.

(** [pthread_join] a code and what the thread returned; [GetExitCodeThread]
    whether there is a code, and the code. *)
Definition os_thread_join (windows : bool) (answer : Z * Z) : outcome Z :=
  let '(ret, result) := answer in
  if windows then if ret =? 0 then Fail Aborted else Ret result
  else if negb (ret =? 0) then Fail Aborted else Ret result.

(** The static variables: one counter, and a number for each thread. *)
Record process : Set := mkProcess {
  next_id : Z;
  ids : list Z;
}.

(** [i] is the thread that calls. *)
Definition get_thread_id (i : Z) : prog process Z :=
  id ← access (λ s, rd (ids s) i);
  (if id =? 0 then
     x ← act (λ s, Ret (mkProcess (u64 (next_id s + 1)) (ids s), next_id s)) done;
     update (λ s, l ← wr (ids s) i x; Ret (mkProcess (next_id s) l))
   else done tt);;
  access (λ s, rd (ids s) i).

(** A thread that asks [k] times. *)
Fixpoint ask (i : Z) (k : nat) : prog process (list Z) :=
  match k with
  | O => done []
  | S k => x ← get_thread_id i; l ← ask i k; done (x :: l)
  end.

(** ** The proof *)

Section proof.
Context (N : nat) (T : Z) (HN : Z.of_nat N < 2 ^ 64 - 1).

(** The ghost state is the number that each thread was given. *)
Record inv (n : nat) (s : process) (g : gmap nat Z) : Prop := mkInv {
  inv_next_id : next_id s = 1 + Z.of_nat (size g);
  inv_length : length (ids s) = N;
  inv_given : ∀ i x, g !! i = Some x → (i < N)%nat ∧ 1 ≤ x < next_id s;
  inv_inj : ∀ i j x, g !! i = Some x → g !! j = Some x → i = j;
}.

Definition rely (i : nat) (s : process) (g : gmap nat Z) (s' : process) (g' : gmap nat Z) : Prop :=
  ids s' !! i = ids s !! i ∧ g' !! i = g !! i.

#[global] Instance protocol_threads : Protocol inv rely.
Proof.
  split.
  - done.
  - intros i s g s1 g1 s2 g2 [??] [??]. split; congruence.
  - intros n s g [????]. by split.
Qed.

(** A thread has its number, or none was given to it. *)
Definition settled (i : nat) (s : process) (g : gmap nat Z) : Prop :=
  ∃ x, ids s !! i = Some x ∧ if x =? 0 then g !! i = None else g !! i = Some x.

Definition has_id (i : nat) (x : Z) (s : process) (g : gmap nat Z) : Prop :=
  ids s !! i = Some x ∧ g !! i = Some x ∧ x ≠ 0.

Lemma has_id_settled i x s g : has_id i x s g → settled i s g.
Proof. intros (Hi & Hg & Hx). exists x. split; [done|]. by destruct (Z.eqb_spec x 0). Qed.

Lemma has_id_rely i x s g s' g' : has_id i x s g → rely i s g s' g' → has_id i x s' g'.
Proof. intros (Hi & Hg & Hx) [Hr1 Hr2]. split; [congruence|]. split; [congruence|done]. Qed.

Lemma rd_nat (l : list Z) i x : l !! i = Some x → rd l (Z.of_nat i) = Ret x.
Proof. intros Hl. apply rd_Some; [lia|]. by rewrite Nat2Z.id. Qed.

Lemma read_id i y s g :
  has_id i y s g →
  rg inv rely T i (access (λ s, rd (ids s) (Z.of_nat i))) (λ x s g, x = y ∧ has_id i y s g) s g.
Proof.
  intros Hy n' s' g' _ HI' HR. pose proof (has_id_rely _ _ _ _ _ _ Hy HR) as Hy'. destruct Hy' as (Hl & Hgl & Hnz).
  exists s', y, g'. rewrite (rd_nat _ _ _ Hl). split; [done|]. split; [by apply (inv_next (I := inv) (R := rely))|].
  split; [by intros j _|]. intros n2 s2 g2 _ HR2. split; [done|]. by apply (has_id_rely i y s' g').
Qed.

(** A thread with a number gets it again. *)
Lemma get_thread_id_again i y s g :
  has_id i y s g → rg inv rely T i (get_thread_id (Z.of_nat i)) (λ x s g, x = y ∧ has_id i y s g) s g.
Proof.
  intros Hy. unfold get_thread_id. apply rg_access_bind; [apply _|].
  intros n s1 g1 _ HI HR. pose proof (has_id_rely _ _ _ _ _ _ Hy HR) as Hy'. exists y. pose proof Hy' as (Hl & _ & Hnz).
  split; [by apply rd_nat|]. destruct (Z.eqb_spec y 0); [done|]. cbn [mbind prog_bind]. by apply read_id.
Qed.

Lemma inv_give n s g i :
  inv n s g → g !! i = None → (i < N)%nat → inv (S n) (mkProcess (next_id s + 1) (ids s)) (<[i := next_id s]> g).
Proof.
  intros [Hn Hl Hg Hj] Hno Hi. split; cbn; [rewrite map_size_insert_None by done; lia|done| |].
  - intros j y. rewrite lookup_insert_Some. intros [[<- <-]|[_ Hy]]; [lia|]. destruct (Hg j y Hy). lia.
  - intros j k y. rewrite !lookup_insert_Some. intros [[<- <-]|[Hne1 H1]] [[<- Heq]|[Hne2 H2]]; try done.
    + destruct (Hg _ _ H2). lia.
    + subst y. destruct (Hg _ _ H1). lia.
    + by eapply Hj.
Qed.

(** The numbers do not run out. *)
Lemma given_below n s g i : inv n s g → (i < N)%nat → g !! i = None → (size g < N)%nat.
Proof.
  intros HI Hi Hno. pose proof (inv_give n s g i HI Hno Hi) as [_ _ Hg _].
  assert (size (<[i := next_id s]> g) ≤ N)%nat as Hle; [|rewrite map_size_insert_None in Hle by done; lia].
  rewrite <-size_dom, <-(size_set_seq (C := gset nat) 0 N).
  apply subseteq_size. intros j [x Hj]%elem_of_dom. apply elem_of_set_seq. destruct (Hg j x Hj). lia.
Qed.

Lemma get_thread_id_ok i s g :
  (i < N)%nat → settled i s g → rg inv rely T i (get_thread_id (Z.of_nat i)) (has_id i) s g.
Proof.
  intros Hi (x & Hx & Hg). unfold get_thread_id. apply rg_access_bind; [apply _|].
  intros n s1 g1 _ HI [Hr1 Hr2]. exists x. rewrite <-Hr1 in Hx. rewrite (rd_nat _ _ _ Hx). split; [done|].
  rewrite <-Hr2 in Hg. clear s g Hr1 Hr2.
  assert (Hend : ∀ y s g, has_id i y s g → rg inv rely T i (access (λ s, rd (ids s) (Z.of_nat i))) (has_id i) s g).
  { intros y s g Hy. eapply rg_mono; [by apply read_id|]. by intros _ y' s' g' _ [-> ?]. }
  destruct (Z.eqb_spec x 0) as [->|Hne]; [|by eapply Hend].
  apply rg_bind; [apply _|]. apply rg_act_bind.
  intros n2 s2 g2 _ HI2 [Hr1 Hr2]. rewrite <-Hr1 in Hx. rewrite <-Hr2 in Hg.
  pose proof (given_below _ _ _ i HI2 Hi Hg) as Hsz. pose proof (inv_give _ _ _ i HI2 Hg Hi) as HI2'.
  pose proof (inv_next_id _ _ _ HI2) as Hnx. set (y := next_id s2) in *.
  exists (mkProcess (u64 (y + 1)) (ids s2)), y, (<[i := y]> g2). rewrite u64_small by lia.
  split; [done|]. split; [done|]. split. { intros j Hj. split; [done|]. cbn. by rewrite lookup_insert_ne. }
  intros n3 s3 g3 _ HI3 [Hr3 Hr4]. rewrite lookup_insert_eq in Hr4.
  pose proof HI3 as [H1 H2 H3 H4].
  exists (mkProcess (next_id s3) (<[i := y]> (ids s3))), tt, g3.
  assert (wr (ids s3) (Z.of_nat i) y = Ret (<[i := y]> (ids s3))) as ->.
  { rewrite wr_ok by (unfold zlen; lia). by rewrite Nat2Z.id. }
  split; [done|]. split; [split; cbn; [done|by rewrite length_insert|done|done]|].
  split. { intros j Hj. split; [|done]. cbn. by rewrite list_lookup_insert_ne. }
  intros n4 s4 g4 HI4 HR4. apply (Hend y). eapply has_id_rely; [|done].
  split; [apply list_lookup_insert_eq; lia|]. split; [done|lia].
Qed.

(** The answers to one thread are one number, its own. *)
Definition answers (i : nat) (l : list Z) (s : process) (g : gmap nat Z) : Prop :=
  l = [] ∨ ∃ y, has_id i y s g ∧ Forall (λ x, x = y) l.

Lemma ask_again i k y s g :
  has_id i y s g → rg inv rely T i (ask (Z.of_nat i) k) (λ l s g, has_id i y s g ∧ Forall (λ x, x = y) l) s g.
Proof.
  revert s g. induction k as [|k IH]; intros s g Hy.
  - intros n s1 g1 _ HR. split; [by eapply has_id_rely|done].
  - cbn [ask]. apply rg_bind; [apply _|]. eapply rg_mono; [by apply get_thread_id_again|].
    intros n x s1 g1 _ [-> Hy1]. cbn beta. apply rg_bind; [apply _|]. eapply rg_mono; [by apply IH|].
    intros n2 l s2 g2 _ [Hy2 Hl] n3 s3 g3 _ HR. split; [by eapply has_id_rely|]. by constructor.
Qed.

Lemma ask_ok i k s g :
  (i < N)%nat → settled i s g → rg inv rely T i (ask (Z.of_nat i) k) (answers i) s g.
Proof.
  intros Hi Hs. destruct k as [|k]; [intros n s1 g1 _ _; by left|].
  cbn [ask]. apply rg_bind; [apply _|]. eapply rg_mono; [by apply get_thread_id_ok|].
  intros n x s1 g1 _ Hx. cbn beta. apply rg_bind; [apply _|]. eapply rg_mono; [by apply ask_again|].
  intros n2 l s2 g2 _ [Hx2 Hl] n3 s3 g3 _ HR. right. exists x. split; [by eapply has_id_rely|]. by constructor.
Qed.
End proof.

(** ** Theorem *)

(** As many threads as [ks] is long, each asking for its number some times. *)
Definition askers (ks : list nat) : list (prog process (list Z)) := imap (λ i k, ask (Z.of_nat i) k) ks.

(** In every interleaving of threads that ask for their numbers, nothing
    goes wrong, and a thread that is done has got the same number each time,
    which is not 0 and no other thread's. *)
Theorem thread_ids_distinct ks n s ts :
  Z.of_nat (length ks) < 2 ^ 64 - 1 →
  nsteps step n (mkProcess 1 (replicate (length ks) 0), askers ks) (s, ts) →
  ¬ faults (s, ts) ∧
  ∀ i j l k, finished ts i l → finished ts j k → ∀ x y, x ∈ l → y ∈ k → x ≠ 0 ∧ (x = y ↔ i = j).
Proof.
  intros HN Hsteps. set (N := length ks) in *.
  destruct (rg_adequate (inv N) rely (Z.of_nat n + 1) n (mkProcess 1 (replicate N 0)) (askers ks) s ts answers ∅)
    as (Hok & g & HI & Hdone); [| |done|lia|].
  { split; cbn; [done|by rewrite length_replicate|done|done]. }
  { intros i p Hp. unfold askers in Hp. rewrite list_lookup_imap in Hp. destruct (ks !! i) as [k|] eqn:Hk; [|done].
    injection Hp as <-. apply lookup_lt_Some in Hk. apply ask_ok; [done|done|].
    exists 0. split; [|done]. cbn. by apply lookup_replicate_2. }
  split; [done|]. intros i j l k Hl Hk x y Hx Hy.
  destruct (Hdone i l Hl) as [->|(x' & (Hx1 & Hx2 & Hx3) & Hlx)]; [by apply elem_of_nil in Hx|].
  destruct (Hdone j k Hk) as [->|(y' & (Hy1 & Hy2 & Hy3) & Hly)]; [by apply elem_of_nil in Hy|].
  rewrite Forall_forall in Hlx, Hly. rewrite (Hlx x Hx), (Hly y Hy). split; [done|]. split.
  - intros ->. exact (inv_inj _ _ _ _ HI i j _ Hx2 Hy2).
  - intros ->. congruence.
Qed.

(** [CreateThread] answers a failure with 0, which is taken for a thread. *)
Lemma create_failure_missed invalid ret : invalid ≠ 0 → os_thread_create true invalid (ret, 0) = Ret 0.
Proof. intros Hi. unfold os_thread_create. destruct (Z.eqb_spec 0 invalid) as [<-|]; done. Qed.

(** Under Linux a thread is created and its result handed out, or the program
    ends. *)
Lemma thread_linux invalid ret thread ret' result :
  os_thread_create false invalid (ret, thread) = (if ret =? 0 then Ret thread else Fail Aborted) ∧
  os_thread_join false (ret', result) = (if ret' =? 0 then Ret result else Fail Aborted).
Proof. cbn. by destruct (ret =? 0), (ret' =? 0). Qed.

Lemma thread_ids_distinct_witness :
  ¬ faults (mkProcess 3 [2; 1], [done [2; 2]; done [1]] : list (prog process (list Z))) ∧
  ∀ i j l k, finished [done [2; 2]; done [1] : prog process (list Z)] i l →
    finished [done [2; 2]; done [1] : prog process (list Z)] j k →
    ∀ x y, x ∈ l → y ∈ k → x ≠ 0 ∧ (x = y ↔ i = j).
Proof.
  apply (thread_ids_distinct [2%nat; 1%nat] 10 (mkProcess 3 [2; 1]) [done [2; 2]; done [1]]); [vm_compute; reflexivity|].
  apply (exec_steps [0; 1; 1; 0; 0; 0; 1; 1; 0; 0]%nat). vm_compute. reflexivity.
Defined.
