(* ===== verification/Graphics.v ===== *)
(** What [src/graphics/graphics.c] loads: files as texts, shaders and textures.
    The calls of OpenGL are kept as a trace; the library answers in the light
    of the calls before. *)
From S2P Require Import Prelude.
#[global] Open Scope Z_scope.

(** ** The library and the system *)

Inductive shader_kind : Set := GL_VERTEX_SHADER | GL_FRAGMENT_SHADER.
Inductive format : Set := GL_RGB | GL_RGBA.

(** The calls that make, fill or remove something, with what they return. *)
Inductive gl_call : Set :=
  | CreateShader (k : shader_kind) (shader : Z)
  | ShaderSource (shader : Z) (text : list Z)
  | CompileShader (shader : Z)
  | CreateProgram (program : Z)
  | AttachShader (program shader : Z)
  | LinkProgram (program : Z)
  | DeleteShader (shader : Z)
  | GenTexture (texture : Z)
  | BindTexture (texture : Z)
  | TexImage (i o : format) (w h : Z).

(** A file: its length as [ftell] says, what one [fread] of so much gives, and
    whether there was an error. *)
Record file : Set := mkFile {
  f_tell : Z;
  f_read : list Z;
  f_error : bool;
}.

(** [memory k] answers the [k]-th [malloc]: [None] for NULL, else what the memory
    holds. *)
Record library : Type := mkLibrary {
  fopen : list Z → option file;
  memory : nat → option (Z → Z);
  create_shader : list gl_call → shader_kind → Z;
  compiled : list gl_call → Z → bool;
  create_program : list gl_call → Z;
  linked : list gl_call → Z → bool;
  gen_texture : list gl_call → Z;
  stbi_load : list Z → option (Z * Z * Z);
}.

(** The texts in memory, by the call that made them; the number of calls of
    [malloc]; the files and images that are open; and the trace. *)
Record state : Type := mkState {
  texts : gmap nat (list Z);
  mallocs : nat;
  streams : Z;
  images : Z;
  trace : list gl_call;
}.

Definition emit (s : state) (c : gl_call) : state :=
  mkState (texts s) (mallocs s) (streams s) (images s) (trace s ++ [c]).
Definition add_streams (s : state) (n : Z) : state :=
  mkState (texts s) (mallocs s) (streams s + n) (images s) (trace s).
Definition add_images (s : state) (n : Z) : state :=
  mkState (texts s) (mallocs s) (streams s) (images s + n) (trace s).
Definition free (s : state) (t : nat) : state :=
  mkState (delete t (texts s)) (mallocs s) (streams s) (images s) (trace s).

Section code.
Context (lib : library).

(** ** Files *)

Definition malloc (s : state) (n : Z) : state * option (nat * list Z) :=
  match memory lib (mallocs s) with
  | None => (mkState (texts s) (S (mallocs s)) (streams s) (images s) (trace s), None)
  | Some g =>
      let l := g <$> seqZ 0 n in
      (mkState (<[mallocs s := l]> (texts s)) (S (mallocs s)) (streams s) (images s) (trace s), Some (mallocs s, l))
  end.

Definition load_file (s : state) (name : list Z) : outcome (state * option (nat * Z)) :=
  match fopen lib name with
  | None => Ret (s, None)
  | Some f =>
      let s := add_streams s 1 in
      let size2 := f_tell f in
      let '(s, r) := malloc s (u64 (size2 + 1)) in
      match r with
      | None => Ret (add_streams s (-1), None)
      | Some (t, dst) =>
          dst ← wr_range dst 0 (take (Z.to_nat (u64 size2)) (f_read f));
          if f_error f then Ret (add_streams (free s t) (-1), None)
          else
            dst ← wr dst size2 0;
            let s := mkState (<[t := dst]> (texts s)) (mallocs s) (streams s) (images s) (trace s) in
            Ret (add_streams s (-1), Some (t, size2))
      end
  end.

(** ** Shaders *)

(** The text that [glShaderSource] takes: up to its terminator. *)
Definition source_of (s : state) (t : nat) : outcome (list Z) :=
  match texts s !! t with
  | None => Fail OutOfBounds
  | Some l =>
      match drop_while (λ c, negb (c =? 0)) l with
      | [] => Fail OutOfBounds
      | _ :: _ => Ret (take_while (λ c, negb (c =? 0)) l)
      end
  end.

(** One shader, and whether it compiled; what a failure prints is left out. *)
Definition make_shader (s : state) (k : shader_kind) (t : nat) : outcome (state * Z * bool) :=
  let shader := create_shader lib (trace s) k in
  let s := emit s (CreateShader k shader) in
  text ← source_of s t;
  let s := emit (emit s (ShaderSource shader text)) (CompileShader shader) in
  Ret (s, shader, compiled lib (trace s) shader).

Definition compile_shader (s : state) (vertex_file fragment_file : list Z) : outcome (state * Z) :=
  '(s, r) ← load_file s vertex_file;
  match r with
  | None => Ret (s, 0)
  | Some (vertex_str, _) =>
      '(s, r) ← load_file s fragment_file;
      match r with
      | None => Ret (free s vertex_str, 0)
      | Some (fragment_str, _) =>
          '(s, vertex_shader, success) ← make_shader s GL_VERTEX_SHADER vertex_str;
          if negb success then Ret (free (free s vertex_str) fragment_str, 0)
          else
            '(s, fragment_shader, success) ← make_shader s GL_FRAGMENT_SHADER fragment_str;
            if negb success then Ret (free (free s vertex_str) fragment_str, 0)
            else
              let shader_program := create_program lib (trace s) in
              let s := emit s (CreateProgram shader_program) in
              let s := emit s (AttachShader shader_program vertex_shader) in
              let s := emit s (AttachShader shader_program fragment_shader) in
              let s := emit s (LinkProgram shader_program) in
              if negb (linked lib (trace s) shader_program) then Ret (free (free s vertex_str) fragment_str, 0)
              else
                let s := emit (emit s (DeleteShader vertex_shader)) (DeleteShader fragment_shader) in
                Ret (free (free s vertex_str) fragment_str, shader_program)
      end
  end.

(** ** Textures *)

Definition format_of (n : Z) : format := if n =? 3 then GL_RGB else GL_RGBA.

(** The parameters of the texture are left out. *)
Definition load_texture (s : state) (name : list Z) (num_chans_out : Z) : outcome (state * (Z * Z * Z)) :=
  c_assert ((num_chans_out =? 3) || (num_chans_out =? 4));;
  let texture := gen_texture lib (trace s) in
  let s := emit (emit s (GenTexture texture)) (BindTexture texture) in
  match stbi_load lib name with
  | None => Ret (s, (0, 0, 0))
  | Some (width, height, nrChannels) =>
      let s := add_images s 1 in
      c_assert ((nrChannels =? 3) || (nrChannels =? 4));;
      let s := emit s (TexImage (format_of nrChannels) (format_of num_chans_out) width height) in
      Ret (add_images s (-1), (texture, width, height))
  end.

(** ** What is loaded *)

(** A file that is not broken: it is as long as [ftell] says, and a read gives
    all of it. *)
Definition whole (f : file) (content : list Z) : Prop :=
  f_tell f = zlen content ∧ f_read f = content ∧ f_error f = false ∧ zlen content < 2 ^ 62.

(** Nothing of what [malloc] is going to give is in use. *)
Definition fresh (s : state) : Prop := ∀ t, (mallocs s ≤ t)%nat → texts s !! t = None.

(** [s'] is [s] with the texts [m] besides; what was called is the same. *)
Definition grown (s s' : state) (m : gmap nat (list Z)) : Prop :=
  texts s' = m ∪ texts s ∧ streams s' = streams s ∧ images s' = images s ∧ trace s' = trace s ∧
  (mallocs s ≤ mallocs s')%nat ∧ fresh s'.

Lemma zlen_seqZ (g : Z → Z) n : 0 ≤ n → zlen (g <$> seqZ 0 n) = n.
Proof. intros. unfold zlen. rewrite length_fmap, length_seqZ. lia. Qed.

(** The file is loaded with a terminator behind it, or memory lacks; the stream
    is closed. *)
Lemma load_file_ok s name f content :
  fresh s → fopen lib name = Some f → whole f content →
  wp (load_file s name) (λ '(s', r),
    match r with
    | None => grown s s' ∅
    | Some (t, n) => n = zlen content ∧ (mallocs s ≤ t)%nat ∧ grown s s' {[ t := content ++ [0] ]}
    end).
Proof.
  intros Hf Hopen (Htell & Hread & Herr & Hlen). unfold load_file, malloc. rewrite Hopen. cbn [mallocs add_streams].
  pose proof (zlen_nonneg content). rewrite Htell, u64_small by lia. rewrite (u64_small (zlen content)) by lia.
  destruct (memory lib (mallocs s)) as [g|].
  - pose proof (zlen_seqZ g (zlen content + 1) ltac:(lia)) as Hg.
    destruct (list_split3 (g <$> seqZ 0 (zlen content + 1)) 0 (zlen content)) as (a & b & c & Heq & Ha & Hb & Hc); [lia..|].
    apply zlen_0_inv in Ha as ->. cbn [app] in Heq. rewrite Heq, Hread.
    rewrite take_ge by (unfold zlen; lia). pose proof (wr_range_app [] b c content 0 eq_refl (eq_sym Hb)) as Hw.
    cbn [app] in Hw. rewrite Hw. cbn [mbind outcome_bind]. rewrite Herr.
    destruct c as [|x [|y c]]; [zlen| |rewrite Hg in Hc; pose proof (zlen_nonneg c); rewrite !zlen_cons in Hc; lia].
    rewrite wr_ok by zlen. cbn [mbind outcome_bind].
    rewrite insert_app_r_alt by (unfold zlen; lia). replace (Z.to_nat (zlen content) - length content)%nat with 0%nat by (unfold zlen; lia).
    cbn. split; [done|]. split; [done|]. split_and!; cbn; [|lia|done|done|lia|].
    + by rewrite insert_insert_eq, insert_union_singleton_l.
    + intros t Ht. cbn in Ht |- *. rewrite !lookup_insert_ne by lia. apply Hf. lia.
  - cbn. split_and!; cbn; [by rewrite (left_id_L ∅ (∪))|lia|done|done|lia|].
    intros t Ht. cbn in Ht |- *. apply Hf. lia.
Qed.

(** The shaders and programs that were made and are still there. *)
Definition left_over (c : gl_call) : Z :=
  match c with CreateShader _ _ => 1 | DeleteShader _ => -1 | _ => 0 end.
Definition shaders_left (l : list gl_call) : Z := foldr (λ c n, left_over c + n) 0 l.

Lemma shaders_left_app l k : shaders_left (l ++ k) = shaders_left l + shaders_left k.
Proof. unfold shaders_left. induction l as [|c l IH]; [done|]. cbn. rewrite IH. lia. Qed.

(** The calls for a program out of two texts. *)
Definition program_calls (vs fs : Z) (p : Z) (v f : list Z) : list gl_call :=
  [CreateShader GL_VERTEX_SHADER vs; ShaderSource vs v; CompileShader vs;
   CreateShader GL_FRAGMENT_SHADER fs; ShaderSource fs f; CompileShader fs;
   CreateProgram p; AttachShader p vs; AttachShader p fs; LinkProgram p; DeleteShader vs; DeleteShader fs].

Lemma source_ok s t content r :
  texts s !! t = Some (content ++ 0 :: r) → Forall (λ c, negb (c =? 0) = true) content → source_of s t = Ret content.
Proof.
  intros Ht Hc. unfold source_of. rewrite Ht.
  by destruct (take_while_app (λ c, negb (c =? 0)) content 0 r Hc eq_refl) as [-> ->].
Qed.

(** A program is made of the texts of its two files: both are loaded,
    compiled and linked in this order, and what is not used any more is
    deleted.  Whatever fails, the texts are freed and the files are closed; the
    shaders that were made before a failure stay. *)
Theorem compile_shader_correct s vname fname vf ff v f :
  fresh s → fopen lib vname = Some vf → whole vf v → fopen lib fname = Some ff → whole ff f →
  Forall (λ c, negb (c =? 0) = true) v → Forall (λ c, negb (c =? 0) = true) f →
  wp (compile_shader s vname fname) (λ '(s', p),
    texts s' = texts s ∧ streams s' = streams s ∧
    ∃ l, trace s' = trace s ++ l ∧
      ((∃ vs fs, l = program_calls vs fs p v f ∧ shaders_left l = 0) ∨ (p = 0 ∧ 0 ≤ shaders_left l ≤ 2))).
Proof.
  intros Hf Hv Hvw Hff Hfw Hnv Hnf. unfold compile_shader.
  apply wp_bind. eapply wp_mono; [by eapply load_file_ok|]. intros [s1 [[t1 n1]|]].
  2: { intros (Ht & Hs & _ & Htr & _). cbn. rewrite Ht, (left_id_L ∅ (∪)). split_and!; [done..|]. exists [].
    rewrite app_nil_r. split; [done|]. right. done. }
  intros (-> & Ht1 & Hg1). pose proof Hg1 as (Htx1 & Hs1 & Hi1 & Htr1 & Hm1 & Hf1).
  assert (texts s !! t1 = None) as Hno1 by by apply Hf.
  apply wp_bind. eapply wp_mono; [by eapply load_file_ok|]. intros [s2 [[t2 n2]|]].
  2: { intros (Ht & Hs & _ & Htr & _). cbn. rewrite Ht, (left_id_L ∅ (∪)), Htx1.
    rewrite <-insert_union_singleton_l, delete_insert_id by done. split_and!; [done|congruence|]. exists [].
    rewrite app_nil_r. split; [congruence|]. by right. }
  intros (-> & Ht2 & (Htx2 & Hs2 & Hi2 & Htr2 & Hm2 & Hf2)).
  assert (texts s1 !! t2 = None) as Hno2 by by apply Hf1.
  assert (t1 ≠ t2) as Hne by (intros ->; rewrite Htx1 in Hno2; by rewrite lookup_union_l, lookup_singleton_eq in Hno2 by done).
  assert (texts s2 !! t1 = Some (v ++ [0])) as Hl1.
  { rewrite Htx2, lookup_union_r by (by apply lookup_singleton_ne). rewrite Htx1. apply lookup_union_Some_l, lookup_singleton_eq. }
  assert (texts s2 !! t2 = Some (f ++ [0])) as Hl2 by (rewrite Htx2; apply lookup_union_Some_l, lookup_singleton_eq).
  assert (Hback : delete t2 (delete t1 (texts s2)) = texts s).
  { rewrite delete_delete, Htx2, <-insert_union_singleton_l, delete_insert_id by done.
    by rewrite Htx1, <-insert_union_singleton_l, delete_insert_id. }
  assert (trace s2 = trace s) as Htr by congruence. assert (streams s2 = streams s) as Hst by congruence.
  unfold make_shader. cbn [emit trace]. rewrite (source_ok _ t1 v []) by done. cbn [mbind outcome_bind].
  destruct (compiled lib _ _); cbn [negb].
  2: { cbn. rewrite Hback, Htr, <-!app_assoc. split_and!; [done..|]. eexists. split; [done|]. right. done. }
  cbn [emit trace texts]. rewrite (source_ok _ t2 f []) by done. cbn [mbind outcome_bind].
  destruct (compiled lib _ _); cbn [negb].
  2: { cbn. rewrite Hback, Htr, <-!app_assoc. split_and!; [done..|]. eexists. split; [done|]. right. done. }
  destruct (linked lib _ _); cbn [negb].
  2: { cbn. rewrite Hback, Htr, <-!app_assoc. split_and!; [done..|]. eexists. split; [done|]. right. done. }
  cbn. rewrite Hback, Htr, <-!app_assoc. split_and!; [done..|]. eexists. split; [done|]. left. eexists _, _. split; [done|]. done.
Qed.

(** A texture has the size of its image, which is not kept; a picture that
    cannot be loaded leaves its texture behind. *)
Lemma load_texture_ok s name chans :
  chans = 3 ∨ chans = 4 →
  match stbi_load lib name with
  | None => ∃ t, load_texture s name chans = Ret (emit (emit s (GenTexture t)) (BindTexture t), (0, 0, 0))
  | Some (w, h, n) => (n = 3 ∨ n = 4) → wp (load_texture s name chans) (λ '(s', (t, w', h')),
      w' = w ∧ h' = h ∧ images s' = images s ∧ texts s' = texts s ∧
      trace s' = trace s ++ [GenTexture t; BindTexture t; TexImage (format_of n) (format_of chans) w h])
  end.
Proof.
  intros Hc. unfold load_texture. assert ((chans =? 3) || (chans =? 4) = true) as -> by (by destruct Hc as [-> | ->]).
  cbn [c_assert mbind outcome_bind]. destruct (stbi_load lib name) as [[[w h] n]|]; [|by eexists].
  intros Hn. assert ((n =? 3) || (n =? 4) = true) as -> by (by destruct Hn as [-> | ->]).
  cbn. split_and!; [done|done|lia|done|]. by rewrite <-!app_assoc.
Qed.

(** An image of one channel, or of two, ends the program. *)
Lemma grey_image_asserts s name w h chans :
  chans = 3 ∨ chans = 4 → stbi_load lib name = Some (w, h, 1) → load_texture s name chans = Fail AssertFail.
Proof. intros [-> | ->] Hl; unfold load_texture; cbn; by rewrite Hl. Qed.

(** Where [ftell] fails no memory is taken, and the terminator goes in front of
    it. *)
Lemma tell_failure s name r g :
  fopen lib name = Some (mkFile (-1) r false) → memory lib (mallocs s) = Some g →
  load_file s name = Fail OutOfBounds.
Proof.
  intros Ho Hg. unfold load_file, malloc. rewrite Ho. cbn [f_tell add_streams mallocs]. rewrite Hg.
  change (u64 (-1 + 1)) with 0. cbn [seqZ]. change (seqZ 0 0) with (@nil Z). cbn [fmap list_fmap].
  unfold wr_range. by destruct (_ && _).
Qed.
End code.
